(* ===== verification/_CoqProject ===== *)
-Q . S2P
Prelude.v
Json.v
Fencing.v
Fifo.v
IndexedQueue.v
QueueChecks.v
Cancellation.v
Locks.v
LockTheorems.v
Semaphores.v
SemaphoreTheorems.v
Registers.v
Barriers.v
Tasks.v
Effects.v
Handoffs.v
Decisions.v
Budgets.v
Claims.v
Text.v
Idempotency.v
Elections.v
Services.v
RateLimit.v
Cron.v
Schedules.v
Command.v
StateMachine.v
Authority.v
MachineTheorems.v
Validate.v
Snapshot.v
OrgScope.v
LockApi.v
Restorable.v
RestorableStore.v
Views.v
RaftTypes.v
RaftSpec.v
Persist.v
RaftCallback.v
RaftConfig.v
ShardActor.v
PersistTheorems.v
RaftCoupling.v
RaftMethods.v
RaftLeading.v
RaftFollowing.v
RaftCluster.v
RaftMachine.v
RaftExample.v
RaftTheorems.v
RaftAck.v
RaftDivergence.v
RaftService.v
Reads.v
Sharding.v
Metrics.v
Http.v
NodeRouter.v
NodeExample.v
Net.v
KvCrypto.v
Handler.v
PrimitiveApi.v
KvApi.v
ScheduleApi.v
DiscoveryApi.v
Watches.v
InternalAuth.v
PeerApi.v
ObserveApi.v
LockIsolation.v
Tenancy.v
Routes.v
RouteTheorems.v
ApiShape.v
ScheduleRunner.v
FiringLoop.v
ApiExample.v
