(* ===== verification/Prelude.v ===== *)
(** * A verification of fiducia-node

    fiducia-node is the coordination engine of a cluster: clients call an HTTP
    API, a handler validates the request and turns it into a [Command], the
    command is committed to a Raft log, and every replica folds the log into
    its state with [StateMachine::apply_at].  Beside the API a runner fires due
    schedules.  This library models the path from an HTTP request through its
    gates and handler, the [Node] that routes it to a shard, the Raft group and
    its disks to the replicated state, back to the response or to a restored
    snapshot, and the runner, and proves what makes them correct.

    ** The parts and the files that model them

    All sources are under src/src/.  A file of this library is named after the
    part it models; a [Definition] has the name of the Rust item it translates.

    - [Prelude], [Json], [Text]: machine integers ([sat_add], [wrap_add], ...),
      results, finite maps, [serde_json] values and the string operations of
      the standard library.  A [HashMap] is a [gmap]; where the code iterates
      one, the order is a parameter ([HashOrder]).
    - [Fencing]: [next_token] and [mint_token_above] of state.rs.
    - [Fifo], [IndexedQueue]: indexed_queue.rs.  [Fifo] is the keyed queue as
      the rest of the program sees it (class [KeyedQueue]); [IndexedQueue] is
      the slab of linked nodes with its index and free list, which implements
      it; [QueueChecks] is the assertions a debug build makes about it.
    - [Cancellation], [Locks], [LockTheorems], [Semaphores],
      [SemaphoreTheorems]: attempt identities and tombstones, union locks and
      counting semaphores of state.rs.
    - [Registers], [Barriers], [Tasks], [Effects], [Handoffs], [Decisions],
      [Budgets], [Claims], [Idempotency], [Elections], [Services], [RateLimit],
      [Schedules]: the other primitives of state.rs, one file each; [Cron] is
      cron.rs.
    - [Command]: [enum Command] with its routing, its labels and the protocol
      gate.  [StateMachine]: [Store], [expire_due] and [apply_at], which
      dispatches to the components above.
    - [Authority], [MachineTheorems]: theorems about every committed log.
    - [Validate], [OrgScope], [LockApi]: validate.rs, org_scope.rs and the
      write handlers of locks.rs and semaphore.rs.
    - [Snapshot], [Restorable], [RestorableStore]: [snapshot], [restore] and
      [validate_restored] of state.rs, what they accept, and which stores clients
      can bring about.
    - [Views]: the read views [lock_snapshot_live_at],
      [semaphore_snapshot_live_at] and their inventories.
    - [RaftTypes], [RaftCallback], [RaftConfig]: the messages of transport.rs,
      the admission of replies (raft_callback.rs, raft_reply.rs, transport.rs),
      and the configuration of consensus.rs and peer_config.rs.
    - [Persist], [PersistTheorems]: persist.rs, the three files of a shard, the
      writes with every way they can fail, and recovery.
    - [ShardActor]: the shard actor of consensus.rs.  A method on [&mut self] is
      a function on the record [ShardActor]; the RPCs it spawns, the answers to
      clients and the published changes are collected in fields; the clocks and
      limits a call reads are its [Env].
    - [RaftSpec]: the abstract protocol, a history of terms, ballots and leaders'
      logs with a step relation, and its safety.  [RaftCoupling], [RaftMethods],
      [RaftLeading], [RaftFollowing]: each handler of the actor refines steps of
      it.  [RaftCluster]: the group of actors, disks and an unreliable network
      with restarts ([cluster_step]), and the refinement of whole runs.
    - [RaftMachine]: the state machine as the machine the actor replicates (class
      [Machine] with its law [MachineLaws]).  [RaftExample]: a record format, an
      executable scheduler and runs of a group of two.  [RaftTheorems],
      [RaftService]: what every run guarantees, for the group and for the service
      it replicates.  [RaftAck]: what the clients that wait are told, followed
      through every method and step.  [RaftDivergence]: a run that diverges.
    - [Reads]: the reads of the state machine and of the actor (consensus.rs), the
      routing of read requests and the status of a shard.  [Sharding]: what a
      command may change of what a read sees.  [Metrics]: metrics.rs.
    - [Http]: responses and their renderings (consensus.rs, validate.rs,
      org_scope.rs).  [NodeRouter]: [Node] of consensus.rs, a map of actors with
      the operations that route, fan out and merge.  [NodeExample]: a node of two
      shards.
    - [Net], [KvCrypto], [KvApi]: kv.rs, the host policy, protection at
      rest, the handlers and the change streams.  [Watches]: the watch handlers of
      kv.rs, election.rs and discovery.rs with the subscriptions of [Node].
    - [Handler]: handlers as programs, trees whose nodes are the calls on the node
      and whose branches are its answers ([serve] runs one).  [PrimitiveApi],
      [ScheduleApi], [DiscoveryApi], [ObserveApi]: the handlers of the primitives,
      of schedule.rs, of discovery.rs with its watch, and of observe.rs with the
      probes of main.rs.  [InternalAuth]: internal_auth.rs.  [LockIsolation]: the
      locks and semaphores of different owners do not meet.  [Tenancy]: the routes
      and gates of main.rs.  [ApiShape]: what they can answer.
    - [Routes]: what stands before the handlers, the routers nested under
      [/v1] with the bodies, queries and path parameters they extract, and the
      derived deserialisers of the types in them.  [RouteTheorems]: what they let
      through, and a request for every call they let through.
    - [PeerApi]: the plane between the nodes, raft_api.rs, its listener in main.rs
      and the HTTP side of transport.rs.
    - [ScheduleRunner], [FiringLoop]: schedule_runner.rs, one delivery and the
      machine of sweeps and concurrent deliveries.  [ApiExample]: concrete runs of
      the API and the runner.

    A component's state is a record or a map of records with the fields of the
    source, and each command is a function from the state, the revision and the
    log entry's clock to the new state and the JSON answer.  The lock and
    semaphore commands, which also mint tokens and remember cancellations, work
    on the part of [Store] they touch ([LockCtx], [SemCtx]).

    ** What is shown

    - Locks: grants never share a key after any log, acquiring is all or
      nothing, nobody is overtaken, promotion leaves no grantable waiter
      behind, stale tokens are refused, retries change nothing and a confirmed
      cancellation is final; a read shows a grant exactly when it is live.
    - Semaphores: limits hold, promotion is exactly FIFO; but the sweep over
      several semaphores depends on the iteration order of a hash map.
    - Fencing: no two authorities of any primitives ever carry the same token,
      and later authority outranks earlier authority.
    - Snapshots: an accepted snapshot is consistent, a snapshot restores to the
      store it was taken from, and every store that client requests bring about
      is restorable as long as the scoped keys fit and attempts keep their
      identities apart; three reachable states that are not restorable are
      exhibited.
    - Tenancy: key spaces of organisations are disjoint, every route proposes and
      reads in the space of its caller only, what one organisation writes does not
      show in the reads of another (its locks and semaphores are left as the sweep
      of the clock leaves them), and responses never show a foreign identity.
    - The API: the gate in front of it fails closed, every request is answered by
      a JSON object under one of six codes, pages of schedules lose and repeat
      nothing, and readiness means that every shard serves.  The extractors admit
      exactly the calls whose arguments fit the types of the handlers.
    - The node: a key is served by the shard its writes go to, listings over all
      shards are exactly the live entries, in order and once each.
    - Configuration values: what is sealed, by the keyring or by Vault, opens again
      under every configuration that keeps the key, and nothing is stored in the
      clear by accident.
    - Watches: every change of a key, an election or a service is published on the
      shard its watches listen to and shown by them, a watch of a key has no silent
      gap, and the watch of a service ends with what was read last.
    - The queue: the slab behaves as the keyed list, and the assertions of a debug
      build are exactly its invariant, so they never fire.
    - The runner: no fire is delivered twice at a time, never more deliveries than
      permits, none without a committed claim or a pending run; interrupted
      deliveries are taken up again; a delivery ends within its attempts and goes
      to no internal host.
    - The other primitives: single winners of compare-and-set, fenced workers,
      approvals before commits, rightful winners of decisions, budget ceilings,
      replayed results, increasing leadership tokens, a refined service
      registry, exact sliding windows, the first matching cron minute, the
      Gregorian calendar, fires claimed once, stable barriers and settled
      claims.
    - The log protocol: commands are rewritten or refused by the gate, and the
      protocol of a shard never regresses.
    - The peer plane: a call reaches the actor of its shard or nobody, the sender
      learns that actor's reply or nothing, and a closed gate lets nothing through,
      which is what the network of the Raft group allows.
    - The Raft group: every run of actors, disks and network is a run of the
      abstract protocol; one leader per term, one vote per member and term,
      matching logs, complete leaders, committed entries that never change, one
      sequence of applied commands, batches within their limits, commits that a
      majority's acknowledgement completes.  The theorems about whole runs assume
      that a delivered append request does not move the follower's commit index
      past the entries it carries (or the follower's log ends in the leader's
      term); the code does not ensure this, and [RaftDivergence] exhibits a run
      in which it fails and two members commit different entries.
    - Durability: memory never runs ahead of the disk, a restart resumes term,
      vote, log, commit index and state, a failed write leaves a member closed
      until it restarts.
    - The service: fencing tokens stay ordered across replicas, failovers and
      restarts; a client that is told [Ok] is told the result of its own command
      at its committed place in the log, which no later leader and no member
      changes.

    ** Fuel

    The loops of the program are bounded by data: a promotion round removes a
    queue entry, so the length of the queue is enough fuel (and
    [lock_promote_steps] shows that the loop then ends in a settled table); a
    walk over the slab visits each node once; the cron search runs over the
    minutes of the horizon the code itself has; the apply loop of the actor runs
    with the distance between commit and applied index, which
    [apply_loop_terminates] shows to be enough; the attempt loop of a delivery
    runs with the attempts that are left, and a sweep claims at most sixteen fires
    of a schedule, as the code does.

    ** Left out

    Start-up and listeners, content types, body limits and the wording of a refused
    extraction, telemetry and trace headers, log lines, keep-alive comments, the
    in-process loopback between actors that the tests use and the JSON of the
    metrics route; a peer timeout is a lost message.  A broadcast is the sequence
    of what its receiver gets; channels, timers and tasks are the scheduling of the
    step relations.  The group of the cluster theorems has at least two members;
    single-member shards run the same actor.  Terms, log indices and request
    numbers are assumed not to reach the end of [u64] in whole runs ([roomy]).  A
    crash is a failed write followed by a restart; the operating system keeps what
    [fsync] confirmed and renames atomically.  SHA-256, AES-GCM, base64, the URL
    parser, header values, the routing crate and [serde_json] are parameters
    ([External], [Crypto], [UrlLib], [UrlSegments], [HeaderLib], [Routing],
    [Scoping], [ShardMap], [Serde], [DiskFormat], [Wire], [PeerJson], [PathLib] for
    percent decoding and [FloatJson] for the text of floats) with the laws the code
    relies on stated where they are used.  Doubles are the IEEE operations of the
    standard library's [SpecFloat]; single-precision numbers are only stored and
    returned. *)

From stdpp Require Export sorting gmap strings.
From stdpp Require Export list.

#[global] Open Scope Z_scope.
#[global] Set Default Goal Selector "!".

(** * Machine integers

    [u64], [u32] and [i64] values are integers of [Z]; every operation of the
    code that depends on the width is written out here. *)

Definition U64_MAX : Z := 18446744073709551615.
Definition U32_MAX : Z := 4294967295.
Definition I64_MAX : Z := 9223372036854775807.
Definition I64_MIN : Z := -9223372036854775808.

Definition is_u64 (z : Z) : Prop := 0 ≤ z ≤ U64_MAX.
Definition is_u32 (z : Z) : Prop := 0 ≤ z ≤ U32_MAX.
Definition is_i64 (z : Z) : Prop := I64_MIN ≤ z ≤ I64_MAX.

(** [u64::saturating_add], [u64::saturating_sub], [u64::checked_add]. *)
Definition sat_add (a b : Z) : Z := Z.min (a + b) U64_MAX.
Definition sat_sub (a b : Z) : Z := Z.max (a - b) 0.
Definition checked_add (a b : Z) : option Z :=
  if a + b <=? U64_MAX then Some (a + b) else None.

(** [i64::saturating_add]. *)
Definition i64_sat_add (a b : Z) : Z := Z.max I64_MIN (Z.min (a + b) I64_MAX).

(** [as u32] on a non-negative value keeps the low 32 bits. *)
Definition as_u32 (z : Z) : Z := z mod (U32_MAX + 1).

(** [u64] addition in a release build wraps. *)
Definition wrap_add (a b : Z) : Z := (a + b) mod (U64_MAX + 1).

Lemma sat_add_u64 a b : 0 ≤ a → 0 ≤ b → is_u64 (sat_add a b).
Proof. unfold is_u64, sat_add, U64_MAX. lia. Qed.

Lemma sat_add_ge_l a b : is_u64 a → 0 ≤ b → a ≤ sat_add a b.
Proof. unfold is_u64, sat_add. lia. Qed.

Lemma sat_add_mono_l a b c : a ≤ b → sat_add a c ≤ sat_add b c.
Proof. unfold sat_add. lia. Qed.

Lemma sat_add_comm_3 a b c :
  0 ≤ b → 0 ≤ c → sat_add (sat_add a b) c = sat_add (sat_add a c) b.
Proof. unfold sat_add. lia. Qed.

Lemma checked_add_Some a b c :
  checked_add a b = Some c ↔ c = a + b ∧ a + b ≤ U64_MAX.
Proof.
  unfold checked_add. destruct (Z.leb_spec (a + b) U64_MAX); split.
  - intros [= <-]. lia.
  - intros [-> _]. done.
  - discriminate.
  - lia.
Qed.

Lemma i64_sat_add_range a b : is_i64 (i64_sat_add a b).
Proof. unfold is_i64, i64_sat_add, I64_MIN, I64_MAX. lia. Qed.

(** * Automation *)

Create HintDb fid.
#[export] Hint Resolve sat_add_u64 sat_add_ge_l : fid.

(** Case analysis on the discriminee of the goal's outermost [match] or [if],
    keeping the equation. *)
Ltac case_goal :=
  match goal with
  | |- context [match ?x with _ => _ end] =>
      lazymatch x with
      | context [match _ with _ => _ end] => fail
      | _ => destruct x eqn:?
      end
  end.

(** Turn boolean tests of the code into propositions. *)
Ltac bools :=
  repeat match goal with
  | H : (_ && _) = true |- _ => apply andb_true_iff in H as [? ?]
  | H : (_ && _) = false |- _ => apply andb_false_iff in H
  | H : (_ || _) = true |- _ => apply orb_true_iff in H
  | H : (_ || _) = false |- _ => apply orb_false_iff in H as [? ?]
  | H : negb _ = true |- _ => apply negb_true_iff in H
  | H : negb _ = false |- _ => apply negb_false_iff in H
  | H : (_ <=? _) = true |- _ => apply Z.leb_le in H
  | H : (_ <=? _) = false |- _ => apply Z.leb_gt in H
  | H : (_ <? _) = true |- _ => apply Z.ltb_lt in H
  | H : (_ <? _) = false |- _ => apply Z.ltb_ge in H
  | H : (_ =? _) = true |- _ => apply Z.eqb_eq in H
  | H : (_ =? _) = false |- _ => apply Z.eqb_neq in H
  | H : bool_decide _ = true |- _ => apply bool_decide_eq_true in H
  | H : bool_decide _ = false |- _ => apply bool_decide_eq_false in H
  end.

(** * Lists *)

Lemma NoDup_middle {A} (x : A) l1 l2 : NoDup (l1 ++ x :: l2) ↔ (x ∉ l1 ++ l2) ∧ NoDup (l1 ++ l2).
Proof.
  assert (l1 ++ x :: l2 ≡ₚ x :: (l1 ++ l2)) as -> by (symmetry; apply Permutation_middle).
  apply NoDup_cons.
Qed.

Lemma filter_all {A} (P : A → Prop) `{∀ x, Decision (P x)} (l : list A) :
  (∀ x, x ∈ l → P x) → filter P l = l.
Proof.
  induction l as [|x l IH]; intros Hl; [done|].
  rewrite filter_cons, decide_True, IH; [done|intros; apply Hl; by right|apply Hl; by left].
Qed.

Lemma filter_ext_in {A} (P Q : A → Prop) `{∀ x, Decision (P x), ∀ x, Decision (Q x)} (l : list A) :
  (∀ x, x ∈ l → P x ↔ Q x) → filter P l = filter Q l.
Proof.
  induction l as [|x l IH]; intros Hl; [done|].
  rewrite !filter_cons, IH by (intros; apply Hl; by right).
  specialize (Hl x ltac:(left)). repeat case_decide; tauto.
Qed.

Lemma filter_length_id {A} (P : A → Prop) `{∀ x, Decision (P x)} (l : list A) :
  length (filter P l) = length l → filter P l = l.
Proof.
  induction l as [|x l IH]; [done|]. rewrite filter_cons. case_decide; simpl.
  - intros [= E]. f_equal. auto.
  - intros E. pose proof (length_filter P l). lia.
Qed.

(** Sums.  A saturating sum of naturals is the exact sum, capped. *)
Definition sumZ (l : list Z) : Z := foldr Z.add 0 l.

Lemma sumZ_nonneg l : Forall (λ z, 0 ≤ z) l → 0 ≤ sumZ l.
Proof. unfold sumZ. induction 1; simpl; lia. Qed.

Lemma sumZ_perm l1 l2 : l1 ≡ₚ l2 → sumZ l1 = sumZ l2.
Proof. unfold sumZ. induction 1; simpl; lia. Qed.

Lemma sat_sum_acc l acc :
  0 ≤ acc ≤ U64_MAX → Forall (λ z, 0 ≤ z) l → foldl sat_add acc l = sat_add acc (sumZ l).
Proof.
  intros Hacc Hl. revert acc Hacc. induction Hl as [|z l Hz Hl IH]; intros acc Hacc; simpl.
  - unfold sat_add. lia.
  - rewrite IH by (unfold sat_add; lia). pose proof (sumZ_nonneg l Hl). unfold sat_add, sumZ in *. lia.
Qed.

Lemma sat_sum l : Forall (λ z, 0 ≤ z) l → foldl sat_add 0 l = Z.min (sumZ l) U64_MAX.
Proof. intros Hl. by rewrite sat_sum_acc by done. Qed.

Lemma foldl_map {A B C} (f : C → B → C) (g : A → B) (l : list A) c :
  foldl (λ c a, f c (g a)) c l = foldl f c (g <$> l).
Proof. revert c. induction l; intros c; simpl; auto. Qed.

(** * Options *)

(** [Option::is_some_and], [Option::is_none_or]. *)
Definition is_some_and {A} (o : option A) (f : A → bool) : bool :=
  match o with Some x => f x | None => false end.
Definition is_none_or {A} (o : option A) (f : A → bool) : bool :=
  match o with Some x => f x | None => true end.

(** * Results *)

Inductive result (A E : Type) : Type :=
| Ok (a : A)
| Err (e : E).
Arguments Ok {A E} a.
Arguments Err {A E} e.

(** [?] on a [Result]. *)
Definition result_bind {A B E} (r : result A E) (f : A → result B E) : result B E :=
  match r with Ok a => f a | Err e => Err e end.
Notation "'try!' x := r 'in' k" := (result_bind r (λ x, k))
  (at level 10, x name, r at level 100, k at level 200) : stdpp_scope.

(** * Finite maps

    A [HashMap] or [BTreeMap] is a [gmap].  [retain] keeps the entries that
    pass the test. *)

Definition retain `{Countable K} {V} (f : K → V → bool) (m : gmap K V) : gmap K V :=
  filter (λ kv, f kv.1 kv.2 = true) m.

Lemma lookup_retain `{Countable K} {V} (f : K → V → bool) (m : gmap K V) k :
  retain f m !! k = match m !! k with
                    | Some v => if f k v then Some v else None
                    | None => None
                    end.
Proof.
  unfold retain. destruct (m !! k) as [v|] eqn:E.
  - destruct (f k v) eqn:F.
    + apply map_lookup_filter_Some. done.
    + apply map_lookup_filter_None. right. intros v' Hv'. simplify_eq/=. by rewrite F.
  - apply map_lookup_filter_None. by left.
Qed.

Lemma lookup_retain_Some `{Countable K} {V} (f : K → V → bool) (m : gmap K V) k v :
  retain f m !! k = Some v ↔ m !! k = Some v ∧ f k v = true.
Proof.
  rewrite lookup_retain. destruct (m !! k) as [v'|]; [|split; [done|by intros [? _]]].
  destruct (f k v') eqn:F; split; [|by intros [? _]|done|].
  - by intros [= <-].
  - intros [[= <-] F']. congruence.
Qed.

(** [values().find(..)] on a map: the first match in the order of
    [map_to_list], which stands for the unspecified order of a [HashMap];
    [map_find_unique] shows when the choice of order does not matter. *)
Definition map_find `{Countable K} {V} (f : V → bool) (m : gmap K V) : option V :=
  snd <$> List.find (λ kv, f kv.2) (map_to_list m).

Lemma map_find_Some `{Countable K} {V} (f : V → bool) (m : gmap K V) v :
  map_find f m = Some v → ∃ k, m !! k = Some v ∧ f v = true.
Proof.
  unfold map_find. intros Hf.
  destruct (List.find _ _) as [[k v']|] eqn:E; simplify_eq/=.
  apply List.find_some in E as [Hin Hfv]. exists k. split; [|done].
  by apply elem_of_map_to_list, list_elem_of_In.
Qed.

Lemma map_find_None `{Countable K} {V} (f : V → bool) (m : gmap K V) :
  map_find f m = None ↔ ∀ k v, m !! k = Some v → f v = false.
Proof.
  unfold map_find. rewrite fmap_None. split.
  - intros E k v Hk. apply (List.find_none _ _ E (k, v)).
    by apply list_elem_of_In, elem_of_map_to_list.
  - intros Hall. destruct (List.find _ _) as [[k v]|] eqn:E; [|done].
    apply List.find_some in E as [Hin Hfv].
    apply list_elem_of_In, elem_of_map_to_list, Hall in Hin. simpl in *. congruence.
Qed.

Lemma map_find_unique `{Countable K} {V} (f : V → bool) (m : gmap K V) k v :
  m !! k = Some v → f v = true →
  (∀ k' v', m !! k' = Some v' → f v' = true → v' = v) →
  map_find f m = Some v.
Proof.
  intros Hk Hf Huniq. destruct (map_find f m) as [v'|] eqn:E.
  - apply map_find_Some in E as (k' & Hk' & Hf'). f_equal. eauto.
  - by rewrite (proj1 (map_find_None f m) E k v Hk) in Hf.
Qed.

(** A [BTreeMap<String, _>] is iterated in the order of its keys. *)
Definition key_le {V} (x y : string * V) : Prop := String.le x.1 y.1.
#[global] Instance key_le_dec {V} : RelDecision (@key_le V).
Proof. intros x y. unfold key_le. apply _. Defined.

Definition btree_iter {V} (m : gmap string V) : list (string * V) :=
  merge_sort key_le (map_to_list m).
Definition btree_values {V} (m : gmap string V) : list V := (btree_iter m).*2.
Definition btree_elements (s : gset string) : list string :=
  merge_sort String.le (elements s).

Lemma btree_iter_Permutation {V} (m : gmap string V) : btree_iter m ≡ₚ map_to_list m.
Proof. apply merge_sort_Permutation. Qed.

#[global] Instance key_le_total {V} : Total (@key_le V).
Proof. intros x y. unfold key_le. apply (total String.le). Qed.

Lemma btree_iter_sorted {V} (m : gmap string V) : StronglySorted String.le (btree_iter m).*1.
Proof.
  apply Sorted_StronglySorted; [apply _|].
  assert (Hm : Sorted key_le (btree_iter m)) by (apply Sorted_merge_sort; apply _).
  induction Hm as [|x l Hl IH Hh]; simpl; constructor; [done|]. by destruct Hh; constructor.
Qed.

Lemma elem_of_btree_values {V} (m : gmap string V) v :
  v ∈ btree_values m ↔ ∃ k, m !! k = Some v.
Proof.
  unfold btree_values. rewrite list_elem_of_fmap. split.
  - intros ([k v'] & -> & Hin). exists k.
    by rewrite btree_iter_Permutation, elem_of_map_to_list in Hin.
  - intros [k Hk]. exists (k, v). split; [done|].
    by rewrite btree_iter_Permutation, elem_of_map_to_list.
Qed.

(** Iteration order of a [HashMap]'s keys.  The order is unspecified and may
    differ between processes, so code whose effect depends on it takes the
    order as a parameter. *)
Class HashOrder := {
  hash_order : list string → list string;
  hash_order_perm l : hash_order l ≡ₚ l
}.

Definition map_keys {V} (m : gmap string V) : list string := (map_to_list m).*1.

Definition hash_keys `{HashOrder} {V} (m : gmap string V) : list string :=
  hash_order (map_keys m).

Lemma elem_of_hash_keys `{HashOrder} {V} (m : gmap string V) k :
  k ∈ hash_keys m ↔ is_Some (m !! k).
Proof.
  unfold hash_keys, map_keys. rewrite hash_order_perm, list_elem_of_fmap. split.
  - intros ([k' v] & -> & Hin). apply elem_of_map_to_list in Hin. by exists v.
  - intros [v Hv]. exists (k, v). split; [done|]. by apply elem_of_map_to_list.
Qed.

Lemma NoDup_hash_keys `{HashOrder} {V} (m : gmap string V) : NoDup (hash_keys m).
Proof. unfold hash_keys. rewrite hash_order_perm. apply NoDup_fst_map_to_list. Qed.

Definition identity_order : HashOrder := {| hash_order := id; hash_order_perm _ := reflexivity _ |}.
Definition reverse_order : HashOrder := {| hash_order := reverse; hash_order_perm := reverse_Permutation |}.
