(* ===== verification/Json.v ===== *)
(** JSON values, as the [serde_json::Value] results of the state machine.

    [Serialize] mirrors serde's trait: [json_obj] builds the object of a
    [json!({ .. })] literal, serialising each field.  Objects keep the field
    order of the source; [field] reads a field by name.  Floats are carried by
    their bit pattern: the code that returns them never computes with them. *)

From S2P Require Import Prelude.

Inductive Value : Type :=
| JNull
| JBool (b : bool)
| JNum (n : Z)
| JFloat (bits : Z)
| JStr (s : string)
| JArr (l : list Value)
| JObj (fields : list (string * Value)).

(** A 32-bit float that is only stored and returned. *)
Record f32 : Type := mk_f32 { f32_bits : Z }.

Class Serialize (A : Type) := to_value : A → Value.

#[export] Instance ser_value : Serialize Value := id.
#[export] Instance ser_bool : Serialize bool := JBool.
#[export] Instance ser_Z : Serialize Z := JNum.
#[export] Instance ser_nat : Serialize nat := λ n, JNum (Z.of_nat n).
#[export] Instance ser_f32 : Serialize f32 := λ x, JFloat (f32_bits x).
#[export] Instance ser_string : Serialize string := JStr.
#[export] Instance ser_option `{Serialize A} : Serialize (option A) :=
  λ o, match o with Some x => to_value x | None => JNull end.
#[export] Instance ser_list `{Serialize A} : Serialize (list A) := λ l, JArr (to_value <$> l).
#[export] Instance ser_map `{Serialize A} : Serialize (gmap string A) :=
  λ m, JObj (prod_map id to_value <$> btree_iter m).

Declare Scope json_scope.
Delimit Scope json_scope with json.
Notation "k ':-' v" := (@pair string Value k (to_value v)) (at level 60) : json_scope.
Notation "'json!' x" := (JObj x%json) (at level 10, x at level 9) : json_scope.
#[global] Open Scope json_scope.

(** [value["name"]], with a missing field read as [None]. *)
Fixpoint assoc (k : string) (l : list (string * Value)) : option Value :=
  match l with
  | [] => None
  | (k', v) :: l => if String.eqb k k' then Some v else assoc k l
  end.
Definition field (k : string) (v : Value) : option Value :=
  match v with JObj fs => assoc k fs | _ => None end.

(** The field holds [true]. *)
Definition flag (k : string) (v : Value) : bool :=
  match field k v with Some (JBool b) => b | _ => false end.

(** The field holds a number. *)
Definition number (k : string) (v : Value) : option Z :=
  match field k v with Some (JNum n) => Some n | _ => None end.

(** The failure reason an operation reports. *)
Definition reason (v : Value) : option string :=
  match field "reason" v with Some (JStr s) => Some s | _ => None end.

(** Induction through arrays and objects. *)
Section value_ind.
Context (P : Value → Prop) (Hnull : P JNull) (Hbool : ∀ b, P (JBool b)) (Hnum : ∀ n, P (JNum n))
  (Hfloat : ∀ bits, P (JFloat bits)) (Hstr : ∀ s, P (JStr s)) (Harr : ∀ l, Forall P l → P (JArr l))
  (Hobj : ∀ fields, Forall (λ e, P e.2) fields → P (JObj fields)).

Fixpoint value_ind' (v : Value) : P v :=
  match v with
  | JNull => Hnull
  | JBool b => Hbool b
  | JNum n => Hnum n
  | JFloat bits => Hfloat bits
  | JStr s => Hstr s
  | JArr l =>
      Harr l ((fix go l : Forall P l :=
        match l with [] => Forall_nil_2 _ | v :: l => Forall_cons_2 _ v l (value_ind' v) (go l) end) l)
  | JObj fields =>
      Hobj fields ((fix go l : Forall (λ e, P e.2) l :=
        match l with
        | [] => Forall_nil_2 _
        | e :: l => Forall_cons_2 (λ e, P e.2) e l (value_ind' e.2) (go l)
        end) fields)
  end.
End value_ind.
