(* ===== verification/Fencing.v ===== *)
(** The shard's fencing-token counter ([Store::next_token],
    [Store::mint_token_above] of src/state.rs).

    A mint either fails, leaving the counter alone, or returns the token that
    is also the new value of the counter.  [Mint] is what every component that
    hands out authority relies on. *)

From S2P Require Import Prelude.

Definition MAX_FENCING_TOKEN : Z := 9007199254740991.

(** [next_token]: [Some t] sets [next_fencing_token] to [t] and returns [t]. *)
Definition next_token (next_fencing_token : Z) : option Z :=
  match checked_add next_fencing_token 1 with
  | None => None
  | Some next => if MAX_FENCING_TOKEN <? next then None else Some next
  end.

(** [mint_token_above]: a token above [floor] and above the counter. *)
Definition mint_token_above (next_fencing_token floor : Z) : option Z :=
  if MAX_FENCING_TOKEN <=? floor then None
  else match checked_add (Z.max next_fencing_token floor) 1 with
       | None => None
       | Some next => if MAX_FENCING_TOKEN <? next then None else Some next
       end.

(** The interface of a token source: tokens strictly exceed the counter they
    were minted from and stay in the JSON-safe range. *)
Class Mint (mint : Z → option Z) : Prop := {
  mint_gt c t : mint c = Some t → c < t;
  mint_max c t : mint c = Some t → t ≤ MAX_FENCING_TOKEN
}.

Lemma next_token_spec c :
  next_token c = if c <? MAX_FENCING_TOKEN then Some (c + 1) else None.
Proof.
  unfold next_token, checked_add.
  destruct (Z.leb_spec (c + 1) U64_MAX), (Z.ltb_spec c MAX_FENCING_TOKEN);
    unfold U64_MAX, MAX_FENCING_TOKEN in *; try lia; try done;
    destruct (Z.ltb_spec 9007199254740991 (c + 1)); done || lia.
Qed.

Lemma next_token_Some c t : next_token c = Some t → t = c + 1 ∧ c < MAX_FENCING_TOKEN.
Proof.
  rewrite next_token_spec. destruct (Z.ltb_spec c MAX_FENCING_TOKEN); [|done].
  by intros [= <-].
Qed.

Lemma next_token_None c : next_token c = None → MAX_FENCING_TOKEN ≤ c.
Proof. rewrite next_token_spec. destruct (Z.ltb_spec c MAX_FENCING_TOKEN); done. Qed.

Lemma mint_token_above_Some c f t :
  mint_token_above c f = Some t → t = Z.max c f + 1 ∧ t ≤ MAX_FENCING_TOKEN.
Proof.
  unfold mint_token_above. destruct (Z.leb_spec MAX_FENCING_TOKEN f); [done|].
  destruct (checked_add _ _) as [n|] eqn:E; [|done].
  apply checked_add_Some in E as [-> _].
  destruct (Z.ltb_spec MAX_FENCING_TOKEN (Z.max c f + 1)); [done|].
  intros [= <-]. lia.
Qed.

#[export] Instance next_token_mint : Mint next_token.
Proof. split; intros c t [-> ?]%next_token_Some; lia. Qed.

#[export] Instance mint_token_above_mint f : Mint (λ c, mint_token_above c f).
Proof. split; intros c t [-> ?]%mint_token_above_Some; lia. Qed.
