(* ===== verification/Fifo.v ===== *)
(** Keyed FIFO queues: the contract of src/indexed_queue.rs.

    [fifo K V] is the queue as its clients see it, the list of its entries from
    front to back.  [KeyedQueue] is the interface a queue representation offers
    (fallible: [None] is a panic) and [KeyedQueueLaws] states that every
    operation acts as the one on lists.  The lock and semaphore wait queues are
    modelled as [fifo]s; [IndexedQueue.v] shows that the slab meets the laws. *)

From S2P Require Import Prelude.

Abbreviation fifo K V := (list (K * V)).

Module Fifo.
Section fifo.
  Context `{EqDecision K} {V : Type}.
  Implicit Types (q : fifo K V) (k : K) (v : V).

Fixpoint get (k : K) (q : fifo K V) : option V :=
  match q with
  | [] => None
  | (k', v) :: q => if decide (k = k') then Some v else get k q
  end.

Definition contains (k : K) (q : fifo K V) : bool :=
  match get k q with Some _ => true | None => false end.

Definition push_back (k : K) (v : V) (q : fifo K V) : fifo K V * bool :=
  if contains k q then (q, false) else (q ++ [(k, v)], true).

(** The queue without the entry of [k]. *)
Definition without (k : K) (q : fifo K V) : fifo K V := filter (λ kv, kv.1 ≠ k) q.

Definition remove (k : K) (q : fifo K V) : fifo K V * option V := (without k q, get k q).

Definition pop_front (q : fifo K V) : fifo K V * option (K * V) :=
  match q with [] => ([], None) | kv :: q => (q, Some kv) end.

Fixpoint position (k : K) (q : fifo K V) : option nat :=
  match q with
  | [] => None
  | (k', _) :: q => if decide (k = k') then Some 0%nat else S <$> position k q
  end.

Definition wf (q : fifo K V) : Prop := NoDup q.*1.

Lemma get_Some k v q : wf q → get k q = Some v ↔ (k, v) ∈ q.
Proof.
  unfold wf. induction q as [|[k' v'] q IH]; simpl; [set_solver|].
  intros [Hk Hq]%NoDup_cons. rewrite elem_of_cons. case_decide as E.
  - subst. split; [intros [= ->]; by left|]. intros [[= ->]|Hin]; [done|].
    destruct Hk. by apply (list_elem_of_fmap_2 fst) in Hin.
  - rewrite (IH Hq). split; [by right|]. intros [[= -> ->]|?]; done.
Qed.

Lemma get_None k q : get k q = None ↔ k ∉ q.*1.
Proof.
  induction q as [|[k' v'] q IH]; simpl; [set_solver|].
  rewrite not_elem_of_cons. case_decide; subst; [by split; [|intros [? _]]|]. rewrite IH. tauto.
Qed.

Lemma get_is_elem k v q : get k q = Some v → (k, v) ∈ q.
Proof.
  induction q as [|[k' v'] q IH]; simpl; [done|]. case_decide; intros ?; simplify_eq.
  - by left.
  - right. auto.
Qed.

Lemma contains_true k q : contains k q = true ↔ k ∈ q.*1.
Proof.
  unfold contains. destruct (get k q) as [v|] eqn:E.
  - apply get_is_elem in E. split; [intros _|done].
    by apply (list_elem_of_fmap_2 fst) in E.
  - apply get_None in E. done.
Qed.

Lemma contains_false k q : contains k q = false ↔ k ∉ q.*1.
Proof. rewrite <-not_true_iff_false. by rewrite contains_true. Qed.

Lemma get_elem_of k v q : get k q = Some v → (k, v) ∈ q.
Proof.
  induction q as [|[k' v'] q IH]; simpl; [done|]. case_decide as E.
  - intros [= ->]. subst. left.
  - intros Hg. right. by apply IH.
Qed.

Lemma elem_of_without k kv q : kv ∈ without k q ↔ kv ∈ q ∧ kv.1 ≠ k.
Proof. unfold without. rewrite list_elem_of_filter. tauto. Qed.

Lemma without_id k q : k ∉ q.*1 → without k q = q.
Proof.
  unfold without. induction q as [|[k' v] q IH]; [done|].
  rewrite fmap_cons, not_elem_of_cons. intros [? ?].
  rewrite filter_cons, decide_True by (simpl in *; congruence). by rewrite IH.
Qed.

Lemma without_middle k v q1 q2 :
  wf (q1 ++ (k, v) :: q2) → without k (q1 ++ (k, v) :: q2) = q1 ++ q2.
Proof.
  unfold wf. rewrite fmap_app. intros (H1 & H2 & [H3 _]%NoDup_cons)%NoDup_app. simpl in *.
  assert (Hsplit : without k (q1 ++ (k, v) :: q2) = without k q1 ++ without k q2).
  { unfold without. by rewrite filter_app, filter_cons, decide_False by (simpl; tauto). }
  rewrite Hsplit, (without_id k q2), (without_id k q1); try done.
  intros Hin. apply (H2 _ Hin). left.
Qed.

Lemma wf_without k q : wf q → wf (without k q).
Proof.
  unfold wf, without. intros Hq. eapply sublist_NoDup; [done|].
  apply fmap_sublist, sublist_filter.
Qed.

Lemma length_without_lt k v q : (k, v) ∈ q → (length (without k q) < length q)%nat.
Proof.
  unfold without. intros Hin. apply list_elem_of_split in Hin as (q1 & q2 & ->).
  rewrite filter_app, filter_cons, decide_False by (simpl; tauto).
  rewrite !length_app. simpl.
  pose proof (length_filter (λ kv : K * V, kv.1 ≠ k) q1).
  pose proof (length_filter (λ kv : K * V, kv.1 ≠ k) q2). lia.
Qed.

Lemma wf_push_back k v q : wf q → wf (push_back k v q).1.
Proof.
  unfold push_back. destruct (contains k q) eqn:E; [done|].
  apply contains_false in E. unfold wf. simpl. rewrite fmap_app. intros Hq.
  apply NoDup_app. split_and!; [done|set_solver|apply NoDup_singleton].
Qed.

Lemma wf_pop_front q : wf q → wf (pop_front q).1.
Proof. unfold wf. destruct q; simpl; [done|]. by intros [_ ?]%NoDup_cons. Qed.

Lemma position_Some k q : k ∈ q.*1 → ∃ i, position k q = Some i ∧ (i < length q)%nat.
Proof.
  induction q as [|[k' v] q IH]; simpl; [set_solver|].
  rewrite elem_of_cons. case_decide; [intros _; exists 0%nat; split; [done|lia]|].
  intros [|Hin]; [done|]. destruct (IH Hin) as (i & -> & ?). exists (S i). split; [done|lia].
Qed.

Lemma position_None k q : k ∉ q.*1 → position k q = None.
Proof.
  induction q as [|[k' v] q IH]; simpl; [done|].
  rewrite not_elem_of_cons. intros [? ?]. rewrite decide_False by done. by rewrite IH.
Qed.

Lemma position_middle k v q1 q2 :
  k ∉ q1.*1 → position k (q1 ++ (k, v) :: q2) = Some (length q1).
Proof.
  induction q1 as [|[k' v'] q1 IH]; simpl; [by rewrite decide_True|].
  rewrite not_elem_of_cons. intros [? ?]. rewrite decide_False by done. by rewrite IH.
Qed.
End fifo.
End Fifo.

#[export] Hint Resolve Fifo.wf_without Fifo.wf_push_back Fifo.wf_pop_front : fid.

(** ** The interface of a queue representation *)

Class KeyedQueue (Q K V : Type) := {
  q_new : Q;
  q_len : Q → nat;
  q_contains : K → Q → bool;
  q_get : K → Q → option (option V);
  q_front : Q → option (option (K * V));
  q_position : K → Q → option (option nat);
  q_iter : Q → option (list (K * V));
  q_push_back : K → V → Q → option (Q * bool);
  q_pop_front : Q → option (Q * option (K * V));
  q_remove : K → Q → option (Q * option V)
}.

(** [q_rep q l]: [q] is well formed and holds the entries [l].  Every
    operation returns (it does not panic), answers as the list operation does,
    and leaves a queue that represents the list operation's result. *)
Class KeyedQueueLaws (Q K V : Type) `{EqDecision K, KeyedQueue Q K V} := {
  q_rep : Q → fifo K V → Prop;
  q_rep_wf q l : q_rep q l → Fifo.wf l;
  q_rep_new : q_rep q_new [];
  q_rep_len q l : q_rep q l → q_len q = length l;
  q_rep_contains q l k : q_rep q l → q_contains k q = Fifo.contains k l;
  q_rep_get q l k : q_rep q l → q_get k q = Some (Fifo.get k l);
  q_rep_front q l : q_rep q l → q_front q = Some (List.hd_error l);
  q_rep_position q l k : q_rep q l → q_position k q = Some (Fifo.position k l);
  q_rep_iter q l : q_rep q l → q_iter q = Some l;
  q_rep_push_back q l k v : q_rep q l →
    ∃ q', q_push_back k v q = Some (q', (Fifo.push_back k v l).2) ∧
          q_rep q' (Fifo.push_back k v l).1;
  q_rep_pop_front q l : q_rep q l →
    ∃ q', q_pop_front q = Some (q', (Fifo.pop_front l).2) ∧ q_rep q' (Fifo.pop_front l).1;
  q_rep_remove q l k : q_rep q l →
    ∃ q', q_remove k q = Some (q', (Fifo.remove k l).2) ∧ q_rep q' (Fifo.remove k l).1
}.

(** Lists of entries are themselves such a queue. *)
#[export] Instance fifo_queue `{EqDecision K} {V} : KeyedQueue (fifo K V) K V := {|
  q_new := [];
  q_len := length;
  q_contains := Fifo.contains;
  q_get k q := Some (Fifo.get k q);
  q_front q := Some (List.hd_error q);
  q_position k q := Some (Fifo.position k q);
  q_iter := Some;
  q_push_back k v q := Some (Fifo.push_back k v q);
  q_pop_front q := Some (Fifo.pop_front q);
  q_remove k q := Some (Fifo.remove k q)
|}.

#[export] Instance fifo_queue_laws `{EqDecision K} {V} : KeyedQueueLaws (fifo K V) K V.
Proof.
  refine {| q_rep q l := q = l ∧ Fifo.wf l |}; try (intros; destruct_and!; subst; done).
  - by split; [|constructor].
  - intros q l k v [-> ?]. eexists. split; [simpl; by rewrite <-surjective_pairing|eauto with fid].
  - intros q l [-> ?]. eexists. split; [simpl; by rewrite <-surjective_pairing|eauto with fid].
  - intros q l k [-> ?]. eexists. split; [done|simpl; eauto with fid].
Defined.
