(* ===== verification/IndexedQueue.v ===== *)
(** The slab-backed [IndexedQueue] of src/indexed_queue.rs: a doubly linked
    list threaded through a vector of slots, a stack of free slots and a hash
    index from keys to slots.

    Every operation returns [None] where the code would panic (an [expect] on a
    vacant slot or an index out of bounds).  [rep] is the representation
    invariant, the one [debug_validate] asserts; the instance at the end shows
    that no operation panics and that each one acts on the abstract queue of
    [Fifo.v] as its contract says, whatever capacity the slab's vector has. *)

From S2P Require Import Prelude Fifo.

(** [RELEASE_EMPTY_CAPACITY_AT]: a drained slab of this capacity is released. *)
Definition RELEASE_EMPTY_CAPACITY_AT : nat := 1024.

Module IndexedQueue.
Section indexed_queue.
Context `{Countable K} {V : Type}.

Record Node : Type := mkNode {
  key : K;
  value : V;
  prev : option nat;
  next : option nat
}.

(** [free] is the vector of recycled slots with its last element first. *)
Record IndexedQueue : Type := mkQueue {
  slab : list (option Node);
  free : list nat;
  index : gmap K nat;
  head : option nat;
  tail : option nat
}.

(** ** Operations *)

Definition new : IndexedQueue := mkQueue [] [] ∅ None None.

Definition len (q : IndexedQueue) : nat := size (index q).

Definition is_empty (q : IndexedQueue) : bool := bool_decide (index q = ∅).

Definition contains (k : K) (q : IndexedQueue) : bool :=
  bool_decide (is_Some (index q !! k)).

(** [slab[i].as_ref().expect(..)] *)
Definition occupied (sl : list (option Node)) (i : nat) : option Node :=
  match sl !! i with Some (Some n) => Some n | _ => None end.

(** [slab[i].as_mut().expect(..).next = nx] *)
Definition set_next (sl : list (option Node)) (i : nat) (nx : option nat) : option (list (option Node)) :=
  n ← occupied sl i; Some (<[i := Some (mkNode (key n) (value n) (prev n) nx)]> sl).

(** [slab[i].as_mut().expect(..).prev = pv] *)
Definition set_prev (sl : list (option Node)) (i : nat) (pv : option nat) : option (list (option Node)) :=
  n ← occupied sl i; Some (<[i := Some (mkNode (key n) (value n) pv (next n))]> sl).

Definition alloc (q : IndexedQueue) (node : Node) : option (IndexedQueue * nat) :=
  match free q with
  | i :: fr =>
      if decide (i < length (slab q))%nat
      then Some (mkQueue (<[i := Some node]> (slab q)) fr (index q) (head q) (tail q), i)
      else None
  | [] =>
      Some (mkQueue (slab q ++ [Some node]) [] (index q) (head q) (tail q), length (slab q))
  end.

Definition push_back (k : K) (v : V) (q : IndexedQueue) : option (IndexedQueue * bool) :=
  if contains k q then Some (q, false) else
  let node := mkNode k v (tail q) None in
  '(q1, idx) ← alloc q node;
  '(sl, hd) ← match tail q1 with
              | Some t => sl ← set_next (slab q1) t (Some idx); Some (sl, head q1)
              | None => Some (slab q1, Some idx)
              end;
  Some (mkQueue sl (free q1) (<[k := idx]> (index q1)) hd (Some idx), true).

(** [unlink idx]; [cap] is [slab.capacity()] at the time of the call. *)
Definition unlink (cap : nat) (q : IndexedQueue) (idx : nat) : option (IndexedQueue * (K * V)) :=
  node ← occupied (slab q) idx;
  let sl0 := <[idx := None]> (slab q) in
  '(sl1, hd) ← match prev node with
               | Some p => sl ← set_next sl0 p (next node); Some (sl, head q)
               | None => Some (sl0, next node)
               end;
  '(sl2, tl) ← match next node with
               | Some n => sl ← set_prev sl1 n (prev node); Some (sl, tail q)
               | None => Some (sl1, prev node)
               end;
  let ix := delete (key node) (index q) in
  if bool_decide (ix = ∅) then
    if decide (RELEASE_EMPTY_CAPACITY_AT ≤ cap)%nat
    then Some (mkQueue [] [] ∅ None None, (key node, value node))
    else Some (mkQueue sl2 (idx :: free q) ix None None, (key node, value node))
  else Some (mkQueue sl2 (idx :: free q) ix hd tl, (key node, value node)).

Definition pop_front (cap : nat) (q : IndexedQueue) : option (IndexedQueue * option (K * V)) :=
  match head q with
  | None => Some (q, None)
  | Some h => '(q', kv) ← unlink cap q h; Some (q', Some kv)
  end.

Definition remove (cap : nat) (k : K) (q : IndexedQueue) : option (IndexedQueue * option V) :=
  match index q !! k with
  | None => Some (q, None)
  | Some idx => '(q', kv) ← unlink cap q idx; Some (q', Some kv.2)
  end.

Definition get (k : K) (q : IndexedQueue) : option (option V) :=
  match index q !! k with
  | None => Some None
  | Some i => n ← occupied (slab q) i; Some (Some (value n))
  end.

Definition front (q : IndexedQueue) : option (option (K * V)) :=
  match head q with
  | None => Some None
  | Some i => n ← occupied (slab q) i; Some (Some (key n, value n))
  end.

(** The [while let] of [position]; [fuel] bounds the number of links followed. *)
Fixpoint walk (fuel : nat) (sl : list (option Node)) (target i : nat) (cur : option nat) :
    option (option nat) :=
  match cur with
  | None => Some None
  | Some c =>
      if decide (c = target) then Some (Some i) else
      match fuel with
      | O => None
      | S fuel => n ← occupied sl c; walk fuel sl target (S i) (next n)
      end
  end.

Definition position (k : K) (q : IndexedQueue) : option (option nat) :=
  match index q !! k with
  | None => Some None
  | Some target => walk (length (slab q)) (slab q) target 0 (head q)
  end.

(** [Iter::next] repeated until it returns [None]. *)
Fixpoint iter_from (fuel : nat) (sl : list (option Node)) (cur : option nat) : option (list (K * V)) :=
  match cur with
  | None => Some []
  | Some i =>
      match fuel with
      | O => None
      | S fuel => n ← occupied sl i; rest ← iter_from fuel sl (next n); Some ((key n, value n) :: rest)
      end
  end.

Definition iter (q : IndexedQueue) : option (list (K * V)) :=
  iter_from (length (slab q)) (slab q) (head q).

(** [serialize] writes the entries front to back; [deserialize] pushes them in
    order and rejects a duplicate key ([Some None]). *)
Definition serialize (q : IndexedQueue) : option (list (K * V)) := iter q.

Fixpoint visit_seq (l : list (K * V)) (q : IndexedQueue) : option (option IndexedQueue) :=
  match l with
  | [] => Some (Some q)
  | (k, v) :: l =>
      '(q', pushed) ← push_back k v q;
      if pushed : bool then visit_seq l q' else Some None
  end.

Definition deserialize (l : list (K * V)) : option (option IndexedQueue) := visit_seq l new.

(** ** Representation invariant *)

Implicit Types (sl : list (option Node)) (l : list (nat * (K * V))).

(** [dseg sl p c l q e]: starting at link [c], whose predecessor is [p], the
    slots and entries [l] are linked in order; [q] is the last slot (or [p])
    and [e] the link that follows it. *)
Fixpoint dseg sl (p c : option nat) l (q e : option nat) : Prop :=
  match l with
  | [] => c = e ∧ p = q
  | (i, (k, v)) :: l =>
      c = Some i ∧ ∃ nx, sl !! i = Some (Some (mkNode k v p nx)) ∧ dseg sl (Some i) nx l q e
  end.

Record rep_at (q : IndexedQueue) l : Prop := {
  rep_links : dseg (slab q) None (head q) l (tail q) None;
  rep_slots : NoDup l.*1;
  rep_keys : NoDup l.*2.*1;
  rep_index k i : index q !! k = Some i ↔ ∃ v, (i, (k, v)) ∈ l;
  rep_free_nodup : NoDup (free q);
  rep_free i : i ∈ free q ↔ slab q !! i = Some None;
  rep_reach i n : slab q !! i = Some (Some n) → i ∈ l.*1
}.

Definition rep (q : IndexedQueue) (entries : fifo K V) : Prop :=
  ∃ l, rep_at q l ∧ entries = l.*2.

(** ** Segments *)

Lemma dseg_app sl p c l1 l2 q e :
  dseg sl p c (l1 ++ l2) q e ↔ ∃ m x, dseg sl p c l1 m x ∧ dseg sl m x l2 q e.
Proof.
  revert p c. induction l1 as [|[i [k v]] l1 IH]; intros p c; simpl.
  - split; [intros ?; by exists p, c|]. by intros (? & ? & [-> ->] & ?).
  - split.
    + intros (-> & nx & Hi & (m & x & ? & ?)%IH). exists m, x. split; [|done]. eauto.
    + intros (m & x & (-> & nx & Hi & ?) & ?). split; [done|]. exists nx.
      split; [done|]. apply IH. eauto.
Qed.

Lemma dseg_snoc sl p c l i k v q e :
  dseg sl p c (l ++ [(i, (k, v))]) q e ↔
  ∃ m, dseg sl p c l m (Some i) ∧ sl !! i = Some (Some (mkNode k v m e)) ∧ q = Some i.
Proof.
  rewrite dseg_app. simpl. split.
  - intros (m & x & ? & -> & nx & ? & -> & <-). eauto.
  - intros (m & ? & ? & ->). exists m, (Some i). split; [done|]. split; [done|]. eauto.
Qed.

Lemma dseg_frame sl i x p c l q e :
  i ∉ l.*1 → dseg sl p c l q e → dseg (<[i := x]> sl) p c l q e.
Proof.
  revert p c. induction l as [|[j [k v]] l IH]; intros p c; simpl; [done|].
  rewrite not_elem_of_cons. intros [Hne Hni] (-> & nx & Hj & ?).
  split; [done|]. exists nx. rewrite list_lookup_insert_ne by done. auto.
Qed.

Lemma dseg_grow sl sl' p c l q e : dseg sl p c l q e → dseg (sl ++ sl') p c l q e.
Proof.
  revert p c. induction l as [|[j [k v]] l IH]; intros p c; simpl; [done|].
  intros (-> & nx & Hj & ?). split; [done|]. exists nx.
  split; [by apply lookup_app_l_Some|auto].
Qed.

Lemma dseg_slot sl p c l q e i kv :
  dseg sl p c l q e → (i, kv) ∈ l → ∃ n, sl !! i = Some (Some n) ∧ (key n, value n) = kv.
Proof.
  revert p c. induction l as [|[j [k v]] l IH]; intros p c; simpl; [set_solver|].
  intros (-> & nx & Hj & Hs) [[= -> ->]|Hin]%elem_of_cons; [by eexists|eauto].
Qed.

Lemma dseg_in_range sl p c l q e i :
  dseg sl p c l q e → i ∈ l.*1 → (i < length sl)%nat.
Proof.
  intros Hs ([j kv] & -> & Hin)%list_elem_of_fmap.
  destruct (dseg_slot _ _ _ _ _ _ _ _ Hs Hin) as (n & Hn & _).
  by apply lookup_lt_Some in Hn.
Qed.

(** Redirecting the link after a segment. *)
Lemma dseg_set_next sl p c l t m e e' :
  dseg sl p c l (Some t) e → l ≠ [] → NoDup l.*1 → m = Some t →
  ∃ sl', set_next sl t e' = Some sl' ∧ dseg sl' p c l m e' ∧
         ∃ n, sl' = <[t := Some n]> sl ∧ t ∈ l.*1.
Proof.
  intros Hs Hne Hnd ->. destruct l as [|[i [k v]] l _] using rev_ind; [done|].
  apply dseg_snoc in Hs as (m & Hs & Hi & [= ->]).
  rewrite fmap_app in Hnd. apply NoDup_app in Hnd as (_ & Hnd & _).
  eexists. unfold set_next, occupied. rewrite Hi. simpl. split; [done|]. split.
  - apply dseg_snoc. exists m. split; [|split; [|done]].
    + apply dseg_frame; [|done]. intros Hin. apply (Hnd _ Hin). left.
    + apply list_lookup_insert_eq. by apply lookup_lt_Some in Hi.
  - eexists. split; [done|]. rewrite fmap_app. set_solver.
Qed.

(** Redirecting the predecessor link of a segment. *)
Lemma dseg_set_prev sl p c l j q e p' :
  dseg sl p (Some j) l q e → l ≠ [] → NoDup l.*1 → c = Some j →
  ∃ sl', set_prev sl j p' = Some sl' ∧ dseg sl' p' c l q e ∧
         ∃ n, sl' = <[j := Some n]> sl ∧ j ∈ l.*1.
Proof.
  intros Hs Hne Hnd ->. destruct l as [|[i [k v]] l]; [done|].
  destruct Hs as ([= ->] & nx & Hi & Hs). apply NoDup_cons in Hnd as [Hni _].
  eexists. unfold set_prev, occupied. rewrite Hi. simpl. split; [done|]. split.
  - split; [done|]. exists nx. rewrite list_lookup_insert_eq by (by apply lookup_lt_Some in Hi).
    split; [done|]. by apply dseg_frame.
  - eexists. split; [done|]. set_solver.
Qed.

Lemma dseg_last sl p c l q e : dseg sl p c l q e → l ≠ [] → is_Some q ∧ is_Some c.
Proof.
  intros Hs Hne. split.
  - destruct l as [|[i [k v]] l _] using rev_ind; [done|].
    apply dseg_snoc in Hs as (? & _ & _ & ->). eauto.
  - destruct l as [|[i [k v]] l]; [done|]. destruct Hs as (-> & _). eauto.
Qed.
(** ** Slots *)

Lemma rep_at_new : rep_at new [].
Proof. split; simpl; try done; try (by constructor); set_solver. Qed.

Lemma rep_at_fresh q l k : rep_at q l → index q !! k = None → k ∉ l.*2.*1.
Proof.
  intros R Hk Hin. apply list_elem_of_fmap in Hin as ([k' v] & -> & Hin).
  apply list_elem_of_fmap in Hin as ([i kv] & Heq & Hin). simpl in *. subst kv.
  assert (index q !! k' = Some i) by (apply R; eauto). congruence.
Qed.

(** What [alloc] gives: a slot outside the list, every other slot unchanged. *)
Lemma alloc_spec q l node :
  rep_at q l →
  ∃ q1 i, alloc q node = Some (q1, i) ∧ (i ∉ l.*1) ∧
    slab q1 !! i = Some (Some node) ∧
    dseg (slab q1) None (head q) l (tail q) None ∧
    index q1 = index q ∧ head q1 = head q ∧ tail q1 = tail q ∧
    NoDup (free q1) ∧ (∀ j, (j ∈ free q1) ↔ (slab q1 !! j = Some None)) ∧
    (∀ j n, slab q1 !! j = Some (Some n) → j = i ∨ j ∈ l.*1).
Proof.
  intros R. pose proof (rep_free_nodup _ _ R) as Hnd. pose proof (rep_free _ _ R) as Hfree.
  unfold alloc. destruct (free q) as [|i fr] eqn:Ef.
  - eexists _, (length (slab q)). split; [done|]. simpl.
    assert (Hni : length (slab q) ∉ l.*1).
    { intros Hin. apply (dseg_in_range _ _ _ _ _ _ _ (rep_links _ _ R)) in Hin. lia. }
    split_and!; try done.
    + by rewrite list_lookup_middle.
    + apply dseg_grow, R.
    + intros j. split; [set_solver|]. intros Hj.
      apply lookup_app_Some in Hj as [Hj|[? Hj]]; [by apply Hfree in Hj|].
      destruct (j - length (slab q))%nat; simplify_eq/=.
    + intros j n [Hj|[? Hj]]%lookup_app_Some; [right; by eapply R|].
      left. destruct (j - length (slab q))%nat eqn:E; simplify_eq/=. lia.
  - assert (Hi : slab q !! i = Some None) by (apply Hfree; left).
    rewrite decide_True by (by apply lookup_lt_Some in Hi).
    assert (Hni : i ∉ l.*1).
    { intros Hin. apply list_elem_of_fmap in Hin as ([j kv] & -> & Hin).
      destruct (dseg_slot _ _ _ _ _ _ _ _ (rep_links _ _ R) Hin) as (n & Hn & _).
      simpl in *. congruence. }
    apply NoDup_cons in Hnd as [Hifr Hnd].
    eexists _, i. split; [done|]. simpl. split_and!; try done.
    + apply list_lookup_insert_eq. by apply lookup_lt_Some in Hi.
    + apply dseg_frame; [done|apply R].
    + intros j. destruct (decide (i = j)) as [->|].
      * rewrite list_lookup_insert_eq by (by apply lookup_lt_Some in Hi). done.
      * rewrite list_lookup_insert_ne, <-Hfree, elem_of_cons by done.
        split; [by right|]. by intros [->|?].
    + intros j n Hj. destruct (decide (i = j)) as [->|]; [by left|].
      rewrite list_lookup_insert_ne in Hj by done. right. by eapply R.
Qed.

(** ** Appending *)

(** Linking a new slot [i] behind the last one. *)
Lemma link_back sl l hd tl i k v :
  dseg sl None hd l tl None → NoDup l.*1 → i ∉ l.*1 →
  sl !! i = Some (Some (mkNode k v tl None)) →
  (∀ j n, sl !! j = Some (Some n) → j = i ∨ j ∈ l.*1) →
  ∃ sl' hd',
    (match tl with
     | Some t => sl' ← set_next sl t (Some i); Some (sl', hd)
     | None => Some (sl, Some i)
     end) = Some (sl', hd') ∧
    dseg sl' None hd' (l ++ [(i, (k, v))]) (Some i) None ∧
    (∀ j, sl' !! j = Some None ↔ sl !! j = Some None) ∧
    (∀ j n, sl' !! j = Some (Some n) → j = i ∨ j ∈ l.*1).
Proof.
  intros Hl Hnd Hni Hi Hr.
  destruct (decide (l = [])) as [->|Hne].
  - destruct Hl as [Hhd Htl]. subst tl. eexists _, _. split; [done|]. split; [|done].
    split; [done|]. by exists None.
  - destruct (dseg_last _ _ _ _ _ _ Hl Hne) as [[t Ht'] _]. subst tl.
    destruct (dseg_set_next _ _ _ _ _ (Some t) _ (Some i) Hl Hne Hnd eq_refl)
      as (sl' & -> & Hd & n & -> & Htl). simpl. eexists _, _. split; [done|]. split; [|split].
    + apply dseg_snoc. exists (Some t). split; [done|]. split; [|done].
      rewrite list_lookup_insert_ne by (by intros ->). done.
    + intros j. destruct (decide (t = j)) as [->|]; [|by rewrite list_lookup_insert_ne].
      pose proof (dseg_in_range _ _ _ _ _ _ _ Hl Htl).
      rewrite list_lookup_insert_eq by done. split; [done|].
      destruct (list_elem_of_fmap_1 _ _ _ Htl) as ([? kv] & -> & Hin).
      destruct (dseg_slot _ _ _ _ _ _ _ _ Hl Hin) as (n' & Hn' & _). simpl in *. congruence.
    + intros j n' Hj. destruct (decide (t = j)) as [->|]; [by right|].
      rewrite list_lookup_insert_ne in Hj by done. eauto.
Qed.

Lemma rep_push_back q l k v :
  rep_at q l → index q !! k = None →
  ∃ q' i, push_back k v q = Some (q', true) ∧ rep_at q' (l ++ [(i, (k, v))]).
Proof.
  intros R Hk. unfold push_back, contains. rewrite Hk.
  rewrite bool_decide_eq_false_2 by (by intros [? ?]).
  destruct (alloc_spec q l (mkNode k v (tail q) None) R)
    as (q1 & i & -> & Hni & Hi & Hl & Hix & Hh & Ht & Hfnd & Hf & Hr). simpl.
  rewrite Hh, Ht.
  destruct (link_back (slab q1) l (head q) (tail q) i k v) as (sl & hd & -> & Hd & Hfr & Hre);
    [done|apply R|done..|].
  simpl. eexists _, i. split; [done|]. split; simpl; try done.
  - rewrite fmap_app. apply NoDup_app. split_and!; [apply R|set_solver|apply NoDup_singleton].
  - rewrite !fmap_app. apply NoDup_app. split_and!; [apply R| |apply NoDup_singleton].
    intros x Hx [= ->]%list_elem_of_singleton. by eapply rep_at_fresh.
  - intros k' i'. rewrite Hix, lookup_insert. case_decide as E.
    + subst. split; [intros [= <-]; exists v; set_solver|].
      intros [v' [Hin|Hin]%elem_of_app]; [|set_solver].
      assert (index q !! k' = Some i') by (apply R; eauto). congruence.
    + rewrite (rep_index _ _ R). split; intros [v' Hin]; exists v'; set_solver.
  - intros j. by rewrite Hf, Hfr.
  - intros j n Hj. rewrite fmap_app. destruct (Hre _ _ Hj); set_solver.
Qed.
(** ** Removing *)

(** Which slots are occupied. *)
Definition shape sl : list bool := (λ o, match o with Some _ => true | None => false end) <$> sl.

Lemma shape_vacant sl i : shape sl !! i = Some false ↔ sl !! i = Some None.
Proof.
  unfold shape. rewrite list_lookup_fmap. destruct (sl !! i) as [[n|]|]; simpl; split; congruence.
Qed.

Lemma shape_occupied sl i : shape sl !! i = Some true ↔ ∃ n, sl !! i = Some (Some n).
Proof.
  unfold shape. rewrite list_lookup_fmap.
  destruct (sl !! i) as [[n|]|]; simpl; split; try congruence; try (by intros [? ?]). by eexists.
Qed.

Lemma shape_insert sl i n : shape sl !! i = Some true → shape (<[i := Some n]> sl) = shape sl.
Proof. intros Hi. unfold shape. rewrite list_fmap_insert. by apply list_insert_id. Qed.

(** The segment before the removed slot is linked to what follows it. *)
Lemma splice_left sl l hd m i nx :
  dseg sl None hd l m (Some i) → NoDup l.*1 → (hd = Some i ∧ m = None ∨ l ≠ []) →
  ∃ sl' hd',
    (match m with
     | Some p => sl' ← set_next sl p nx; Some (sl', hd)
     | None => Some (sl, nx)
     end) = Some (sl', hd') ∧
    dseg sl' None hd' l m nx ∧ shape sl' = shape sl ∧
    (∀ j, j ∉ l.*1 → sl' !! j = sl !! j).
Proof.
  intros Hl Hnd Hcase. destruct (decide (l = [])) as [->|Hne].
  - destruct Hl as [_ <-]. eexists _, _. split; [done|]. done.
  - destruct (dseg_last _ _ _ _ _ _ Hl Hne) as [[t ->] _].
    destruct (dseg_set_next _ _ _ _ _ (Some t) _ nx Hl Hne Hnd eq_refl)
      as (sl' & -> & Hd & n & -> & Ht). eexists _, _. split; [done|]. split_and!; [done| |].
    + apply shape_insert, shape_occupied.
      destruct (list_elem_of_fmap_1 _ _ _ Ht) as ([? kv] & -> & Hin).
      destruct (dseg_slot _ _ _ _ _ _ _ _ Hl Hin) as (n' & ? & _). by eexists.
    + intros j Hj. apply list_lookup_insert_ne. by intros ->.
Qed.

Lemma splice_right sl l m nx tl p0 :
  dseg sl p0 nx l tl None → NoDup l.*1 →
  ∃ sl' tl',
    (match nx with
     | Some n => sl' ← set_prev sl n m; Some (sl', tl)
     | None => Some (sl, m)
     end) = Some (sl', tl') ∧
    dseg sl' m nx l tl' None ∧ shape sl' = shape sl ∧
    (∀ j, j ∉ l.*1 → sl' !! j = sl !! j).
Proof.
  intros Hl Hnd. destruct (decide (l = [])) as [->|Hne].
  - destruct Hl as [-> _]. eexists _, _. split; [done|]. done.
  - destruct (dseg_last _ _ _ _ _ _ Hl Hne) as [_ [t ->]].
    destruct (dseg_set_prev _ _ (Some t) _ _ _ _ m Hl Hne Hnd eq_refl)
      as (sl' & -> & Hd & n & -> & Ht). eexists _, _. split; [done|]. split_and!; [done| |].
    + apply shape_insert, shape_occupied.
      destruct (list_elem_of_fmap_1 _ _ _ Ht) as ([? kv] & -> & Hin).
      destruct (dseg_slot _ _ _ _ _ _ _ _ Hl Hin) as (n' & ? & _). by eexists.
    + intros j Hj. apply list_lookup_insert_ne. by intros ->.
Qed.

Lemma dseg_ext sl sl' p c l q e :
  (∀ j, j ∈ l.*1 → sl' !! j = sl !! j) → dseg sl p c l q e → dseg sl' p c l q e.
Proof.
  revert p c. induction l as [|[j [k v]] l IH]; intros p c Hext; simpl; [done|].
  intros (-> & nx & Hj & ?). split; [done|]. exists nx. split.
  - rewrite <-Hj. apply Hext. left.
  - apply IH; [|done]. intros i Hi. apply Hext. by right.
Qed.

Lemma rep_unlink_links q l1 l2 i k v :
  rep_at q (l1 ++ (i, (k, v)) :: l2) →
  ∃ m nx sl1 hd sl2 tl,
    slab q !! i = Some (Some (mkNode k v m nx)) ∧
    (match m with
     | Some p => sl ← set_next (<[i := None]> (slab q)) p nx; Some (sl, head q)
     | None => Some (<[i := None]> (slab q), nx)
     end) = Some (sl1, hd) ∧
    (match nx with
     | Some n => sl ← set_prev sl1 n m; Some (sl, tail q)
     | None => Some (sl1, m)
     end) = Some (sl2, tl) ∧
    dseg sl2 None hd (l1 ++ l2) tl None ∧ shape sl2 = shape (<[i := None]> (slab q)).
Proof.
  intros R. pose proof (rep_links _ _ R) as Hl. pose proof (rep_slots _ _ R) as Hnd.
  apply dseg_app in Hl as (m & x & Hl1 & -> & nx & Hi & Hl2).
  rewrite fmap_app, fmap_cons in Hnd. apply NoDup_middle in Hnd as [Hni Hnd]. simpl in Hni.
  rewrite not_elem_of_app in Hni. destruct Hni as [Hni1 Hni2].
  apply NoDup_app in Hnd as (Hnd1 & Hdisj & Hnd2).
  apply (dseg_frame _ i None) in Hl1, Hl2; try done.
  destruct (splice_left _ _ _ _ i nx Hl1 Hnd1) as (sl1 & hd & E1 & Hd1 & Hs1 & Ho1).
  { destruct l1; [left; destruct Hl1 as [-> <-]; done|by right]. }
  destruct (splice_right sl1 l2 m nx (tail q) (Some i)) as (sl2 & tl & E2 & Hd2 & Hs2 & Ho2).
  { eapply dseg_ext; [|exact Hl2]. intros j Hj. apply Ho1. intros Hj1. by apply (Hdisj j). }
  { done. }
  exists m, nx, sl1, hd, sl2, tl. split_and!; try done.
  - apply dseg_app. exists m, nx. split; [|done].
    eapply dseg_ext; [|exact Hd1]. intros j Hj. apply Ho2. by apply Hdisj.
  - by rewrite Hs2.
Qed.

Lemma rep_unlink cap q l1 l2 i k v :
  rep_at q (l1 ++ (i, (k, v)) :: l2) →
  ∃ q', unlink cap q i = Some (q', (k, v)) ∧ rep q' ((l1 ++ l2).*2).
Proof.
  intros R. destruct (rep_unlink_links _ _ _ _ _ _ R)
    as (m & nx & sl1 & hd & sl2 & tl & Hi & E1 & E2 & Hd & Hsh).
  pose proof (rep_slots _ _ R) as Hnd. pose proof (rep_keys _ _ R) as Hkd.
  rewrite fmap_app, fmap_cons in Hnd. apply NoDup_middle in Hnd as [Hni Hnd]. simpl in Hni.
  rewrite !fmap_app, !fmap_cons in Hkd. apply NoDup_middle in Hkd as [Hkni Hkd]. simpl in Hkni.
  rewrite <-fmap_app in Hni, Hnd. rewrite <-!fmap_app in Hkni, Hkd.
  assert (Hix : ∀ k' i', delete k (index q) !! k' = Some i' ↔ ∃ v', (i', (k', v')) ∈ l1 ++ l2).
  { intros k' i'. rewrite lookup_delete. case_decide as E.
    - subst k'. split; [done|]. intros [v' Hin]. exfalso. apply Hkni.
      apply list_elem_of_fmap. exists (k, v'). split; [done|].
      apply list_elem_of_fmap. by exists (i', (k, v')).
    - rewrite (rep_index _ _ R). split; intros [v' Hin]; exists v'; revert Hin;
        rewrite !elem_of_app, elem_of_cons; [|tauto]. intros [?|[[= -> -> ->]|?]]; tauto. }
  assert (Hrep : rep_at (mkQueue sl2 (i :: free q) (delete k (index q)) hd tl) (l1 ++ l2)).
  { pose proof (lookup_lt_Some _ _ _ Hi) as Hlt.
    split; simpl; try done.
    - apply NoDup_cons. split; [|apply R]. rewrite (rep_free _ _ R), Hi. done.
    - intros j. rewrite elem_of_cons, (rep_free _ _ R), <-(shape_vacant sl2), Hsh, shape_vacant.
      destruct (decide (i = j)) as [->|].
      + rewrite list_lookup_insert_eq by done. tauto.
      + rewrite list_lookup_insert_ne by done. split; [|tauto]. intros [->|?]; done.
    - intros j n Hj. assert (Hj' : shape sl2 !! j = Some true) by (apply shape_occupied; eauto).
      rewrite Hsh, shape_occupied in Hj'. destruct Hj' as [n' Hj'].
      destruct (decide (i = j)) as [->|]; [by rewrite list_lookup_insert_eq in Hj'|].
      rewrite list_lookup_insert_ne in Hj' by done. apply (rep_reach _ _ R) in Hj'.
      revert Hj'. rewrite !fmap_app, fmap_cons, !elem_of_app, elem_of_cons. simpl.
      intros [?|[->|?]]; tauto || done. }
  unfold unlink, occupied. rewrite Hi. simpl. rewrite E1. simpl. rewrite E2. simpl.
  case_bool_decide as He; [|eexists; split; [done|by eexists]].
  assert (Hnil : l1 ++ l2 = []).
  { destruct (l1 ++ l2) as [|[i' [k' v']] l] eqn:El; [done|]. exfalso.
    assert (delete k (index q) !! k' = Some i') as Hc by (apply Hix; exists v'; left).
    by rewrite He, lookup_empty in Hc. }
  rewrite Hnil in *. destruct Hd as [-> <-]. case_decide.
  - eexists. split; [done|]. exists []. split; [apply rep_at_new|done].
  - eexists. split; [done|]. exists []. split; [|done]. by destruct Hrep; split.
Qed.
(** ** Observers *)

Lemma rep_lookup q l k : rep_at q l →
  match index q !! k with
  | Some i => ∃ v l1 l2, l = l1 ++ (i, (k, v)) :: l2 ∧ k ∉ l1.*2.*1
  | None => k ∉ l.*2.*1
  end.
Proof.
  intros R. destruct (index q !! k) as [i|] eqn:Hk; [|by eapply rep_at_fresh].
  apply (rep_index _ _ R) in Hk as [v Hin]. apply list_elem_of_split in Hin as (l1 & l2 & ->).
  exists v, l1, l2. split; [done|]. pose proof (rep_keys _ _ R) as Hkd.
  rewrite !fmap_app, !fmap_cons in Hkd. apply NoDup_middle in Hkd as [Hkni _].
  intros Hin. apply Hkni. apply elem_of_app. by left.
Qed.

Lemma rep_length_slab q l : rep_at q l → (length l ≤ length (slab q))%nat.
Proof.
  intros R. rewrite <-(length_fmap fst l), <-(length_seq (length (slab q)) 0).
  apply submseteq_length, NoDup_submseteq; [apply R|]. intros i Hi.
  apply elem_of_seq. split; [lia|]. by eapply dseg_in_range; [apply R|].
Qed.

Lemma rep_len q l : rep_at q l → len q = length l.
Proof.
  intros R. unfold len. rewrite <-length_map_to_list.
  rewrite <-(length_fmap (λ x : nat * (K * V), (x.2.1, x.1)) l). apply Permutation_length, NoDup_Permutation.
  - apply NoDup_map_to_list.
  - apply (NoDup_fmap_1 fst). rewrite <-list_fmap_compose.
    replace (fst ∘ (λ x : nat * (K * V), (x.2.1, x.1)) <$> l) with (l.*2.*1); [apply R|].
    by rewrite <-list_fmap_compose.
  - intros [k i]. rewrite elem_of_map_to_list, (rep_index _ _ R), list_elem_of_fmap. split.
    + intros [v Hin]. by exists (i, (k, v)).
    + intros ([i' [k' v]] & [= -> ->] & Hin). by exists v.
Qed.

Lemma iter_from_dseg fuel sl p c l q :
  dseg sl p c l q None → (length l ≤ fuel)%nat → iter_from fuel sl c = Some l.*2.
Proof.
  revert fuel p c. induction l as [|[i [k v]] l IH]; intros fuel p c; simpl.
  - intros [-> _] _. by destruct fuel.
  - intros (-> & nx & Hi & Hl) Hf. destruct fuel as [|fuel]; [lia|].
    simpl. unfold occupied. rewrite Hi. simpl. by rewrite (IH fuel (Some i) nx) by (done || lia).
Qed.

Lemma walk_dseg fuel sl n p c l1 i kv l2 q :
  dseg sl p c (l1 ++ (i, kv) :: l2) q None → i ∉ l1.*1 → (length l1 ≤ fuel)%nat →
  walk fuel sl i n c = Some (Some (n + length l1)%nat).
Proof.
  revert fuel n p c. induction l1 as [|[j [k v]] l1 IH]; intros fuel n p c; simpl.
  - destruct kv as [k v]. intros (-> & _) _ _. destruct fuel; simpl; rewrite decide_True by done;
      do 2 f_equal; lia.
  - rewrite not_elem_of_cons. intros (-> & nx & Hj & Hl) [Hne Hni] Hf.
    destruct fuel as [|fuel]; simpl; [lia|]. rewrite decide_False by done.
    unfold occupied. rewrite Hj. simpl.
    rewrite (IH fuel (S n) (Some j) nx) by (done || lia). do 2 f_equal. lia.
Qed.

Lemma rep_get q l k : rep_at q l → get k q = Some (Fifo.get k l.*2).
Proof.
  intros R. pose proof (rep_lookup _ _ k R) as Hk. unfold get.
  destruct (index q !! k) as [i|].
  - destruct Hk as (v & l1 & l2 & -> & _).
    destruct (dseg_slot _ _ _ _ _ _ i (k, v) (rep_links _ _ R)) as (n & Hn & [= _ Hv]).
    { apply elem_of_app. right. left. }
    unfold occupied. rewrite Hn. simpl. rewrite Hv. f_equal. symmetry.
    apply Fifo.get_Some; [apply R|]. rewrite fmap_app. apply elem_of_app. right. left.
  - f_equal. symmetry. by apply Fifo.get_None.
Qed.

Lemma rep_contains q l k : rep_at q l → contains k q = Fifo.contains k l.*2.
Proof.
  intros R. pose proof (rep_lookup _ _ k R) as Hk. unfold contains.
  destruct (index q !! k) as [i|].
  - rewrite bool_decide_eq_true_2 by (by eexists). symmetry. apply Fifo.contains_true.
    destruct Hk as (v & l1 & l2 & -> & _). rewrite !fmap_app. apply elem_of_app. right. left.
  - rewrite bool_decide_eq_false_2 by (by intros [? ?]). symmetry. by apply Fifo.contains_false.
Qed.

Lemma rep_front q l : rep_at q l → front q = Some (List.hd_error l.*2).
Proof.
  intros R. unfold front. pose proof (rep_links _ _ R) as Hl.
  destruct l as [|[i [k v]] l]; simpl in *; [by destruct Hl as [-> _]|].
  destruct Hl as (-> & nx & Hi & _). unfold occupied. by rewrite Hi.
Qed.

Lemma rep_position q l k : rep_at q l → position k q = Some (Fifo.position k l.*2).
Proof.
  intros R. pose proof (rep_lookup _ _ k R) as Hk. pose proof (rep_length_slab _ _ R) as Hlen.
  unfold position. destruct (index q !! k) as [i|]; [|by rewrite Fifo.position_None].
  destruct Hk as (v & l1 & l2 & -> & Hk). pose proof (rep_slots _ _ R) as Hnd.
  rewrite fmap_app, fmap_cons in Hnd. apply NoDup_middle in Hnd as [Hni _].
  rewrite not_elem_of_app in Hni. rewrite length_app in Hlen.
  erewrite walk_dseg; [|apply R|tauto|lia]. rewrite fmap_app, fmap_cons. simpl.
  by rewrite Fifo.position_middle, length_fmap.
Qed.

Lemma rep_iter q l : rep_at q l → iter q = Some l.*2.
Proof. intros R. eapply iter_from_dseg; [apply R|by apply rep_length_slab]. Qed.
End indexed_queue.
Arguments Node : clear implicits.
Arguments IndexedQueue K {_ _} V.

(** The slab queue as a [KeyedQueue]; [cap] gives the capacity of a queue's slab. *)
Definition slab_queue `{Countable K} {V} (cap : IndexedQueue K V → nat) :
    KeyedQueue (IndexedQueue K V) K V := {|
  q_new := new;
  q_len := len;
  q_contains := contains;
  q_get := get;
  q_front := front;
  q_position := position;
  q_iter := iter;
  q_push_back := push_back;
  q_pop_front q := pop_front (cap q) q;
  q_remove k q := remove (cap q) k q
|}.

Lemma push_back_refines `{Countable K} {V} (q : IndexedQueue K V) l k v :
  rep q l →
  ∃ q', push_back k v q = Some (q', (Fifo.push_back k v l).2) ∧ rep q' (Fifo.push_back k v l).1.
Proof.
  intros (sl & R & ->). unfold Fifo.push_back. rewrite <-(rep_contains _ _ _ R).
  destruct (contains k q) eqn:E.
  - exists q. unfold push_back. rewrite E. split; [done|]. by eexists.
  - destruct (rep_push_back q sl k v R) as (q' & i & -> & R').
    { unfold contains in E. apply bool_decide_eq_false in E.
      destruct (index q !! k); [by destruct E|done]. }
    exists q'. split; [done|]. eexists. split; [done|]. by rewrite fmap_app.
Qed.

Lemma pop_front_refines `{Countable K} {V} cap (q : IndexedQueue K V) l :
  rep q l →
  ∃ q', pop_front cap q = Some (q', (Fifo.pop_front l).2) ∧ rep q' (Fifo.pop_front l).1.
Proof.
  intros (sl & R & ->). unfold pop_front. pose proof (rep_links _ _ R) as Hl.
  destruct sl as [|[i [k v]] sl]; simpl in *.
  - destruct Hl as [-> _]. exists q. split; [done|]. by eexists.
  - destruct Hl as (-> & _). destruct (rep_unlink cap q [] sl i k v R) as (q' & -> & ?). by exists q'.
Qed.

Lemma remove_refines `{Countable K} {V} cap (q : IndexedQueue K V) l k :
  rep q l →
  ∃ q', remove cap k q = Some (q', (Fifo.remove k l).2) ∧ rep q' (Fifo.remove k l).1.
Proof.
  intros (sl & R & ->). unfold remove, Fifo.remove. simpl.
  pose proof (rep_lookup _ _ k R) as Hk. destruct (index q !! k) as [i|].
  - destruct Hk as (v & l1 & l2 & -> & Hk).
    destruct (rep_unlink cap q l1 l2 i k v R) as (q' & -> & R'). exists q'. simpl.
    assert (Hwf : Fifo.wf (l1.*2 ++ (k, v) :: l2.*2)).
    { unfold Fifo.wf. pose proof (rep_keys _ _ R) as Hkd. by rewrite (fmap_app snd), fmap_cons in Hkd. }
    rewrite fmap_app, fmap_cons. simpl. split.
    + do 2 f_equal. symmetry. apply Fifo.get_Some; [done|]. apply elem_of_app. right. left.
    + rewrite Fifo.without_middle by done. by rewrite <-fmap_app.
  - exists q. rewrite (proj2 (Fifo.get_None k sl.*2)) by done. split; [done|].
    rewrite Fifo.without_id by done. by eexists.
Qed.

(** The slab implementation never panics and refines the FIFO queue of unique
    keys, operation by operation, for every slab capacity. *)
Definition slab_queue_laws `{Countable K} {V} (cap : IndexedQueue K V → nat) :
  @KeyedQueueLaws (IndexedQueue K V) K V _ (slab_queue cap).
Proof.
  refine (@Build_KeyedQueueLaws _ _ _ _ (slab_queue cap) rep _ _ _ _ _ _ _ _ _ _ _);
    try (intros q l ? (sl & R & ->) || intros q l (sl & R & ->)); simpl.
  - apply R.
  - exists []. split; [apply rep_at_new|done].
  - rewrite length_fmap. by apply rep_len.
  - by apply rep_contains.
  - by apply rep_get.
  - by apply rep_front.
  - by apply rep_position.
  - by apply rep_iter.
  - apply push_back_refines.
  - apply pop_front_refines. by eexists.
  - apply remove_refines. by eexists.
Defined.

(** ** Whole histories *)

(** The calls a client can make, and what each one lets the client see. *)
Inductive call (K V : Type) : Type :=
| PushBack (k : K) (v : V)
| PopFront
| Remove (k : K)
| Get (k : K)
| Contains (k : K)
| Position (k : K)
| Front
| Len
| IterAll.

Inductive seen (K V : Type) : Type :=
| SawBool (b : bool)
| SawValue (v : option V)
| SawEntry (kv : option (K * V))
| SawNat (n : option nat)
| SawEntries (l : list (K * V)).
Arguments PushBack {K V}. Arguments PopFront {K V}. Arguments Remove {K V}. Arguments Get {K V}.
Arguments Contains {K V}. Arguments Position {K V}. Arguments Front {K V}. Arguments Len {K V}.
Arguments IterAll {K V}. Arguments SawBool {K V}. Arguments SawValue {K V}.
Arguments SawEntry {K V}. Arguments SawNat {K V}. Arguments SawEntries {K V}.

Section histories.
Context {K V : Type} `{Countable K}.

Definition exec {Q} `{KeyedQueue Q K V} (q : Q) (c : call K V) : option (Q * seen K V) :=
  match c with
  | PushBack k v => '(q', b) ← q_push_back k v q; Some (q', SawBool b)
  | PopFront => '(q', kv) ← q_pop_front q; Some (q', SawEntry kv)
  | Remove k => '(q', v) ← q_remove k q; Some (q', SawValue v)
  | Get k => v ← q_get k q; Some (q, SawValue v)
  | Contains k => Some (q, SawBool (q_contains k q))
  | Position k => n ← q_position k q; Some (q, SawNat n)
  | Front => kv ← q_front q; Some (q, SawEntry kv)
  | Len => Some (q, SawNat (Some (q_len q)))
  | IterAll => l ← q_iter q; Some (q, SawEntries l)
  end.

Fixpoint exec_all {Q} `{KeyedQueue Q K V} (q : Q) (cs : list (call K V)) : option (Q * list (seen K V)) :=
  match cs with
  | [] => Some (q, [])
  | c :: cs => '(q1, o) ← exec q c; '(q2, os) ← exec_all q1 cs; Some (q2, o :: os)
  end.

Lemma exec_refines {Q} `{!KeyedQueue Q K V, !KeyedQueueLaws Q K V} (q : Q) l c :
  q_rep q l →
  ∃ q' l' o, exec q c = Some (q', o) ∧ exec (Q := fifo K V) l c = Some (l', o) ∧ q_rep q' l'.
Proof.
  intros R. destruct c as [k v| |k|k|k|k| | |]; simpl.
  - destruct (q_rep_push_back q l k v R) as (q' & -> & R').
    destruct (Fifo.push_back k v l) as [l' b]. by exists q', l', (SawBool b).
  - destruct (q_rep_pop_front q l R) as (q' & -> & R').
    destruct (Fifo.pop_front l) as [l' kv]. by exists q', l', (SawEntry kv).
  - destruct (q_rep_remove q l k R) as (q' & -> & R').
    destruct (Fifo.remove k l) as [l' w] eqn:E. unfold Fifo.remove in E. simplify_eq/=.
    by eexists _, _, _.
  - rewrite (q_rep_get _ _ k R). by eexists _, _, _.
  - rewrite (q_rep_contains _ _ k R). by eexists _, _, _.
  - rewrite (q_rep_position _ _ k R). by eexists _, _, _.
  - rewrite (q_rep_front _ _ R). by eexists _, _, _.
  - rewrite (q_rep_len _ _ R). by eexists _, _, _.
  - rewrite (q_rep_iter _ _ R). by eexists _, _, _.
Qed.

Lemma exec_all_refines {Q} `{!KeyedQueue Q K V, !KeyedQueueLaws Q K V} cs (q : Q) l :
  q_rep q l →
  ∃ q' l' os, exec_all q cs = Some (q', os) ∧ exec_all (Q := fifo K V) l cs = Some (l', os) ∧ q_rep q' l'.
Proof.
  revert q l. induction cs as [|c cs IH]; intros q l R; [by exists q, l, []|].
  destruct (exec_refines q l c R) as (q1 & l1 & o & Eq & El & R1).
  destruct (IH q1 l1 R1) as (q2 & l2 & os & Eq2 & El2 & R2).
  exists q2, l2, (o :: os). simpl. rewrite Eq, El. simpl. by rewrite Eq2, El2.
Qed.

Lemma visit_seq_spec (l : list (K * V)) q l0 :
  rep q l0 →
  if decide (NoDup (l0.*1 ++ l.*1))
  then ∃ q', visit_seq l q = Some (Some q') ∧ rep q' (l0 ++ l)
  else NoDup l0.*1 → visit_seq l q = Some None.
Proof.
  revert q l0. induction l as [|[k v] l IH]; intros q l0 R.
  - rewrite app_nil_r. case_decide as E; [|done]. exists q. by rewrite app_nil_r.
  - simpl. destruct (push_back_refines q l0 k v R) as (q' & -> & R'). simpl.
    unfold Fifo.push_back in *. destruct (Fifo.contains k l0) eqn:C; simpl in *.
    + apply Fifo.contains_true in C. rewrite decide_False; [done|].
      rewrite NoDup_middle, not_elem_of_app. tauto.
    + apply Fifo.contains_false in C. specialize (IH q' (l0 ++ [(k, v)]) R').
      rewrite fmap_app in IH. simpl in IH. rewrite <-!app_assoc in IH. simpl in IH.
      revert IH. do 2 case_decide; try done. intros IH Hnd. apply IH.
      apply NoDup_app. split_and!; [done|set_solver|apply NoDup_singleton].
Qed.
End histories.

(** C24: A client of the slab queue cannot tell it from a list.  Every history
    of calls on a fresh slab, for every capacity the vector may have, runs
    without a panic, answers each call as the FIFO list with unique keys does,
    and ends with the same entries in the same order. *)
Theorem slab_history_is_fifo `{Countable K} {V} (cap : IndexedQueue K V → nat) (cs : list (call K V)) :
  ∃ q l os,
    @exec_all K V _ (slab_queue cap) new cs = Some (q, os) ∧
    exec_all (Q := fifo K V) [] cs = Some (l, os) ∧
    iter q = Some l.
Proof.
  destruct (exec_all_refines (KeyedQueueLaws0 := slab_queue_laws cap) cs new [])
    as (q & l & os & Eq & El & R).
  { exists []. split; [apply rep_at_new|done]. }
  exists q, l, os. split; [done|]. split; [done|]. destruct R as (sl & R & ->). by apply rep_iter.
Qed.

(** Decoding a serialised queue rebuilds it, and a sequence with a
    duplicate key is rejected instead of being repaired: decoding succeeds
    exactly on sequences of distinct keys, and encoding the result gives the
    sequence back. *)
Theorem deserialize_serialize `{Countable K} {V} (l : list (K * V)) :
  if decide (NoDup l.*1)
  then ∃ q, deserialize l = Some (Some q) ∧ serialize q = Some l
  else deserialize l = Some None.
Proof.
  pose proof (visit_seq_spec l new []) as Hs. unfold deserialize. simpl in Hs.
  assert (R : rep (new : IndexedQueue K V) []) by (exists []; split; [apply rep_at_new|done]).
  specialize (Hs R). case_decide.
  - destruct Hs as (q & E & sl & Rq & ->). exists q. split; [done|]. by apply rep_iter.
  - apply Hs. constructor.
Qed.
End IndexedQueue.
