(* ===== verification/QueueChecks.v ===== *)
(** [IndexedQueue::debug_validate] of src/indexed_queue.rs, the assertions a
    debug build makes after every mutation of a queue, as a function that returns
    [None] where one of them fails.  They are exactly the representation
    invariant of [IndexedQueue], so no history of calls ever trips one. *)

From S2P Require Import Prelude Fifo IndexedQueue.
Import IndexedQueue.

(** [debug_assert!] *)
Definition debug_assert (b : bool) : option unit := if b then Some tt else None.

Lemma debug_assert_Some b : debug_assert b = Some tt ↔ b = true.
Proof. by destruct b. Qed.

Section checks.
Context `{Countable K} {V : Type}.
Implicit Types (sl : list (option (Node K V))) (ix : gmap K nat) (l : list (nat * (K * V))).

(** The walk along the links.  Each round marks a slot that was not marked, so
    the length of the slab is enough [fuel]: a walk that is still going then has
    only marked slots left and fails its cycle assertion. *)
Fixpoint validate_links (fuel : nat) sl ix (visited : list bool) (current previous : option nat) (count : nat) :
    option (list bool * option nat * nat) :=
  match current with
  | None => Some (visited, previous, count)
  | Some slot =>
      match fuel with
      | O => None
      | S fuel =>
          _ ← debug_assert (slot <? length sl)%nat;
          _ ← debug_assert (bool_decide (visited !! slot = Some false));
          node ← occupied sl slot;
          _ ← debug_assert (bool_decide (prev node = previous));
          _ ← debug_assert (bool_decide (ix !! key node = Some slot));
          _ ← debug_assert (S count <=? size ix)%nat;
          validate_links fuel sl ix (<[slot := true]> visited) (next node) (Some slot) (S count)
      end
  end.

(** The loop over the free list. *)
Fixpoint validate_free sl (free_seen : list bool) (fr : list nat) : option (list bool) :=
  match fr with
  | [] => Some free_seen
  | slot :: fr =>
      _ ← debug_assert (slot <? length sl)%nat;
      _ ← debug_assert (bool_decide (free_seen !! slot = Some false));
      _ ← debug_assert (bool_decide (occupied sl slot = None));
      validate_free sl (<[slot := true]> free_seen) fr
  end.

(** The loop over the slots. *)
Definition validate_slab sl (visited free_seen : list bool) : bool :=
  forallb (λ slot, match occupied sl slot with
                   | Some _ => bool_decide (visited !! slot = Some true)
                   | None => bool_decide (free_seen !! slot = Some true)
                   end) (seq 0 (length sl)).

Definition debug_validate (q : IndexedQueue K V) : option unit :=
  _ ← debug_assert (Bool.eqb (is_empty q) (bool_decide (head q = None)));
  _ ← debug_assert (Bool.eqb (is_empty q) (bool_decide (tail q = None)));
  let unmarked := replicate (length (slab q)) false in
  '(visited, previous, count) ← validate_links (length (slab q)) (slab q) (index q) unmarked (head q) None 0;
  _ ← debug_assert (bool_decide (previous = tail q));
  _ ← debug_assert (count =? size (index q))%nat;
  free_seen ← validate_free (slab q) unmarked (reverse (free q));
  debug_assert (validate_slab (slab q) visited free_seen).

(** ** Marks *)

Lemma mark_iff (marks : list bool) slot j :
  (slot < length marks)%nat → (<[slot := true]> marks !! j = Some true) ↔ j = slot ∨ marks !! j = Some true.
Proof.
  intros Hs. destruct (decide (j = slot)) as [->|Hne].
  - rewrite list_lookup_insert_eq by done. tauto.
  - rewrite list_lookup_insert_ne by done. naive_solver.
Qed.

Lemma unmarked_not n j : replicate n false !! j ≠ Some true.
Proof. intros [E _]%lookup_replicate. done. Qed.

Lemma occupied_Some sl i n : occupied sl i = Some n ↔ sl !! i = Some (Some n).
Proof. unfold occupied. repeat case_match; naive_solver. Qed.

(** What a walk that succeeds has seen: [l], a list segment of fresh slots that
    the index knows. *)
Definition walked sl ix (visited visited' : list bool) (cur prv lst : option nat) l : Prop :=
  dseg sl prv cur l lst None ∧ NoDup l.*1 ∧ (∀ i, i ∈ l.*1 → visited !! i = Some false) ∧
  (∀ i k v, (i, (k, v)) ∈ l → ix !! k = Some i) ∧
  (∀ i, visited' !! i = Some true ↔ i ∈ l.*1 ∨ visited !! i = Some true).

Lemma validate_links_sound fuel sl ix visited cur prv count visited' lst count' :
  length visited = length sl →
  validate_links fuel sl ix visited cur prv count = Some (visited', lst, count') →
  ∃ l, walked sl ix visited visited' cur prv lst l ∧ count' = (count + length l)%nat.
Proof.
  revert visited cur prv count. induction fuel as [|fuel IH]; intros visited [slot|] prv count Hlen; simpl; try done.
  1,3: intros [= -> -> ->]; exists []; split; [|simpl; lia]; unfold walked; simpl; split_and!; try done; [constructor|set_solver..].
  intros ([] & E1%debug_assert_Some & ([] & E2%debug_assert_Some & (n & En%occupied_Some & E3)%bind_Some)%bind_Some)%bind_Some.
  apply bind_Some in E3 as ([] & E3%debug_assert_Some & ([] & E4%debug_assert_Some & ([] & _ & Hrest)%bind_Some)%bind_Some).
  bools. destruct n as [k v p nx]. simpl in *.
  apply IH in Hrest as (l & (Hseg & Hnd & Hfresh & Hix & Hmark) & ->); [|by rewrite length_insert].
  assert (Hnew : slot ∉ l.*1).
  { intros Hin%Hfresh. rewrite list_lookup_insert_eq in Hin by (rewrite Hlen; by eapply lookup_lt_Some). done. }
  exists ((slot, (k, v)) :: l). split; [|simpl; lia]. unfold walked. simpl. split_and!.
  - done.
  - exists nx. by subst.
  - by constructor.
  - intros i [->|Hi]%elem_of_cons; [done|]. specialize (Hfresh i Hi). rewrite list_lookup_insert_ne in Hfresh; [done|]. by intros ->.
  - intros i k' v' [[= -> -> ->]|Hi]%elem_of_cons; eauto.
  - intros i. rewrite Hmark, mark_iff by (rewrite Hlen; by eapply lookup_lt_Some). rewrite elem_of_cons. tauto.
Qed.

Lemma validate_links_complete fuel sl ix visited l cur prv lst count :
  length visited = length sl → dseg sl prv cur l lst None → NoDup l.*1 →
  (∀ i, i ∈ l.*1 → visited !! i = Some false) → (∀ i k v, (i, (k, v)) ∈ l → ix !! k = Some i) →
  (length l ≤ fuel)%nat → (count + length l ≤ size ix)%nat →
  ∃ visited', validate_links fuel sl ix visited cur prv count = Some (visited', lst, count + length l)%nat ∧
    ∀ i, visited' !! i = Some true ↔ i ∈ l.*1 ∨ visited !! i = Some true.
Proof.
  revert fuel visited cur prv count. induction l as [|[slot [k v]] l IH]; intros fuel visited cur prv count Hlen Hseg Hnd Hfresh Hix Hf Hc; simpl in *.
  - destruct Hseg as [-> ->]. exists visited. rewrite Nat.add_0_r. split; [by destruct fuel|set_solver].
  - destruct fuel as [|fuel]; [lia|]. destruct Hseg as (-> & nx & Hi & Hseg). apply NoDup_cons in Hnd as [Hni Hnd].
    assert (Hlt : (slot < length visited)%nat) by (rewrite Hlen; by eapply lookup_lt_Some).
    destruct (IH fuel (<[slot := true]> visited) nx (Some slot) (S count)) as (visited' & E & Hmark).
    { by rewrite length_insert. } { done. } { done. }
    { intros i Hin. rewrite list_lookup_insert_ne; [set_solver|]. by intros ->. }
    { set_solver. } { lia. } { lia. }
    exists visited'. split.
    + cbn [validate_links]. rewrite (proj2 (Nat.ltb_lt _ _)), (proj2 (Nat.leb_le (S count) _)) by lia.
      rewrite (proj2 (occupied_Some sl slot _) Hi). cbn. rewrite !bool_decide_eq_true_2 by set_solver. cbn.
      rewrite E. do 2 f_equal. lia.
    + intros i. rewrite Hmark, mark_iff, elem_of_cons by done. tauto.
Qed.

Lemma validate_free_spec sl fr seen :
  length seen = length sl →
  (NoDup fr ∧ (∀ i, i ∈ fr → seen !! i = Some false ∧ sl !! i = Some None) →
   ∃ seen', validate_free sl seen fr = Some seen' ∧ ∀ i, seen' !! i = Some true ↔ i ∈ fr ∨ seen !! i = Some true) ∧
  (∀ seen', validate_free sl seen fr = Some seen' →
     NoDup fr ∧ (∀ i, i ∈ fr → seen !! i = Some false ∧ sl !! i = Some None) ∧
     ∀ i, seen' !! i = Some true ↔ i ∈ fr ∨ seen !! i = Some true).
Proof.
  revert seen. induction fr as [|slot fr IH]; intros seen Hlen; cbn [validate_free].
  { split; [intros _; exists seen; split; [done|set_solver]|]. intros seen' [= <-]. split_and!; [constructor|set_solver..]. }
  destruct (IH (<[slot := true]> seen)) as [IH1 IH2]; [by rewrite length_insert|]. split.
  - intros [[Hni Hnd]%NoDup_cons Hall]. destruct (Hall slot) as [Hs Hv]; [left|].
    pose proof (lookup_lt_Some _ _ _ Hv) as Hlt. assert (Ho : occupied sl slot = None) by (unfold occupied; by rewrite Hv).
    rewrite (proj2 (Nat.ltb_lt _ _)) by done. rewrite (bool_decide_eq_true_2 _ Hs), (bool_decide_eq_true_2 _ Ho). cbn. destruct IH1 as (seen' & -> & Hm).
    { split; [done|]. intros i Hi. rewrite list_lookup_insert_ne by (by intros ->). apply Hall. by right. }
    exists seen'. split; [done|]. intros i. rewrite Hm, mark_iff, elem_of_cons by lia. tauto.
  - intros seen' ([] & E1%debug_assert_Some & ([] & E2%debug_assert_Some & ([] & E3%debug_assert_Some & Hrest)%bind_Some)%bind_Some)%bind_Some.
    apply Nat.ltb_lt in E1. bools. apply IH2 in Hrest as (Hnd & Hall & Hm). split_and!.
    + constructor; [|done]. intros [Hin _]%Hall. by rewrite list_lookup_insert_eq in Hin by lia.
    + intros i [->|Hi]%elem_of_cons.
      * split; [done|]. apply lookup_lt_is_Some in E1 as [[n|] E1]; [|done]. unfold occupied in E3. by rewrite E1 in E3.
      * destruct (Hall i Hi) as [Hs ?]. split; [|done]. destruct (decide (i = slot)) as [->|]; [by rewrite list_lookup_insert_eq in Hs by lia|].
        by rewrite list_lookup_insert_ne in Hs.
    + intros i. rewrite Hm, mark_iff, elem_of_cons by lia. tauto.
Qed.

(** ** The assertions are the invariant *)

Lemma NoDup_slots_keys ix l :
  NoDup l.*1 → (∀ i k v, (i, (k, v)) ∈ l → ix !! k = Some i) → NoDup l.*2.*1.
Proof.
  induction l as [|[i [k v]] l IH]; simpl; intros Hnd Hix; [constructor|]. apply NoDup_cons in Hnd as [Hni Hnd].
  constructor; [|apply IH; [done|]; intros i' k' v' Hin; apply (Hix i' k' v'); by right].
  intros ([k' v'] & E & ([j kv] & E' & Hin)%list_elem_of_fmap)%list_elem_of_fmap. simpl in *. subst.
  assert (Some i = Some j) as [= ->]; [|by apply Hni, (list_elem_of_fmap_2 fst _ _ Hin)].
  rewrite <-(Hix i k' v) by left. apply (Hix j k' v'). by right.
Qed.

(** An index that sends the keys of [l] to their slots and has no more entries
    than [l] is that map. *)
Lemma index_exact ix l :
  NoDup l.*1 → (∀ i k v, (i, (k, v)) ∈ l → ix !! k = Some i) → size ix = length l →
  ∀ k i, ix !! k = Some i ↔ ∃ v, (i, (k, v)) ∈ l.
Proof.
  intros Hnd Hix Hsize k i. split; [|intros [v Hin]; by eapply Hix]. intros Hk.
  assert (Hdom : list_to_set l.*2.*1 = dom ix).
  { apply set_subseteq_size_eq.
    - intros k' ([k'' v] & -> & ([j [? ?]] & [= <- <-] & Hin)%list_elem_of_fmap)%elem_of_list_to_set%list_elem_of_fmap.
      apply elem_of_dom. eexists. by eapply Hix.
    - rewrite size_dom, size_list_to_set by (by eapply NoDup_slots_keys). rewrite !length_fmap. lia. }
  assert (Hin : k ∈ (list_to_set l.*2.*1 : gset K)) by (rewrite Hdom; by eapply elem_of_dom_2).
  apply elem_of_list_to_set, list_elem_of_fmap in Hin as ([k' v] & -> & ([j kv] & E & Hin)%list_elem_of_fmap).
  simpl in *. subst. rewrite (Hix _ _ _ Hin) in Hk. injection Hk as ->. by exists v.
Qed.

(** The free list and the occupied slots between them cover the slab. *)
Lemma validate_slab_spec sl visited free_seen :
  validate_slab sl visited free_seen = true ↔
  (∀ i n, sl !! i = Some (Some n) → visited !! i = Some true) ∧ (∀ i, sl !! i = Some None → free_seen !! i = Some true).
Proof.
  unfold validate_slab. rewrite forallb_forall. split.
  - intros Hall. split; intros i; [intros n|]; intros Hi; pose proof (lookup_lt_Some _ _ _ Hi) as Hlt;
      specialize (Hall i); unfold occupied in Hall; rewrite Hi in Hall; apply (bool_decide_eq_true_1 _), Hall, in_seq; lia.
  - intros [H1 H2] i [_ Hi]%in_seq. apply lookup_lt_is_Some in Hi as [[n|] Hi]; unfold occupied; rewrite Hi; apply bool_decide_eq_true_2; eauto.
Qed.

Lemma debug_validate_sound q : debug_validate q = Some tt → ∃ entries, rep q entries.
Proof.
  unfold debug_validate. intros ([] & _ & ([] & _ & Hv)%bind_Some)%bind_Some. cbv zeta in Hv.
  apply bind_Some in Hv as ([[visited previous] count] & Hlinks & ([] & E1%debug_assert_Some & ([] & E2%debug_assert_Some & Hv)%bind_Some)%bind_Some).
  apply bind_Some in Hv as (free_seen & Hfree & Hslab%debug_assert_Some). apply Nat.eqb_eq in E2. bools.
  apply validate_links_sound in Hlinks as (l & (Hseg & Hnd & _ & Hix & Hmark) & ->); [|by rewrite length_replicate].
  apply validate_free_spec in Hfree as (Hfnd & Hvac & Hfm); [|by rewrite length_replicate].
  apply validate_slab_spec in Hslab as [Hocc Hfr]. simpl in E2. subst. exists l.*2, l. split; [|done]. split; try done.
  - by eapply NoDup_slots_keys.
  - by apply index_exact.
  - by rewrite reverse_Permutation in Hfnd.
  - intros i. rewrite <-elem_of_reverse. split; [intros Hi; by apply Hvac|]. intros Hi%Hfr%Hfm.
    destruct Hi as [Hi|Hi]; [done|by apply unmarked_not in Hi].
  - intros i n Hi%Hocc%Hmark. destruct Hi as [Hi|Hi]; [done|by apply unmarked_not in Hi].
Qed.

Lemma rep_empty_iff q l : rep_at q l → is_empty q = bool_decide (l = []).
Proof.
  intros R. pose proof (rep_len q l R) as Hl. unfold is_empty, len in *. apply bool_decide_ext. rewrite <-map_size_empty_iff, Hl. by destruct l.
Qed.

Lemma debug_validate_complete q entries : rep q entries → debug_validate q = Some tt.
Proof.
  intros (l & R & ->). pose proof (rep_links _ _ R) as Hseg. pose proof (rep_slots _ _ R) as Hnd. pose proof (rep_len q l R) as Hlen. unfold len in Hlen.
  assert (Hrange : ∀ i, i ∈ l.*1 → replicate (length (slab q)) false !! i = Some false).
  { intros i Hi. apply lookup_replicate_2. by eapply dseg_in_range. }
  assert (Hends : is_empty q = bool_decide (head q = None) ∧ is_empty q = bool_decide (tail q = None)).
  { rewrite (rep_empty_iff q l R). split; apply bool_decide_ext; (split; [intros ->; simpl in Hseg; naive_solver|]); intros E;
      (destruct (decide (l = [])) as [|Hne]; [done|]); destruct (dseg_last _ _ _ _ _ _ Hseg Hne) as [[? ?] [? ?]]; congruence. }
  assert (Hfuel : (length l ≤ length (slab q))%nat).
  { rewrite <-(length_fmap fst l), <-(length_seq (length (slab q)) 0). apply submseteq_length, NoDup_submseteq; [done|].
    intros i Hi%(dseg_in_range _ _ _ _ _ _ _ Hseg). apply elem_of_seq. lia. }
  destruct (validate_links_complete (length (slab q)) (slab q) (index q) (replicate (length (slab q)) false) l (head q) None (tail q) 0)
    as (visited & Hv & Hm); try done; [by rewrite length_replicate|intros i k v Hin; apply R; by exists v|lia|].
  destruct (validate_free_spec (slab q) (reverse (free q)) (replicate (length (slab q)) false)) as [Hf _]; [by rewrite length_replicate|].
  destruct Hf as (seen & Hf & Hfm).
  { split; [rewrite reverse_Permutation; apply R|]. intros i Hi%elem_of_reverse%(rep_free _ _ R). split; [|done].
    apply lookup_replicate_2. by eapply lookup_lt_Some. }
  unfold debug_validate. rewrite <-(proj1 Hends), <-(proj2 Hends), eqb_reflx. cbn. rewrite Hv. cbn [mbind option_bind].
  rewrite bool_decide_eq_true_2 by done. cbn. rewrite Hlen, Nat.eqb_refl. cbn. rewrite Hf. cbn.
  apply debug_assert_Some, validate_slab_spec. split.
  - intros i n Hi. apply Hm. left. by eapply R.
  - intros i Hi%(rep_free _ _ R). apply Hfm. left. by apply elem_of_reverse.
Qed.

(** ** Debug builds *)

Definition debug_push_back (k : K) (v : V) (q : IndexedQueue K V) : option (IndexedQueue K V * bool) :=
  '(q', pushed) ← push_back k v q;
  _ ← (if pushed : bool then debug_validate q' else Some tt);
  Some (q', pushed).

(** [unlink] also asserts what it took out of the index. *)
Definition debug_unlink (cap : nat) (q : IndexedQueue K V) (idx : nat) : option (IndexedQueue K V * (K * V)) :=
  node ← occupied (slab q) idx;
  '(q', kv) ← unlink cap q idx;
  _ ← debug_assert (bool_decide (index q !! key node = Some idx));
  _ ← debug_validate q';
  Some (q', kv).

Definition debug_pop_front (cap : nat) (q : IndexedQueue K V) : option (IndexedQueue K V * option (K * V)) :=
  match head q with
  | None => Some (q, None)
  | Some h => '(q', kv) ← debug_unlink cap q h; Some (q', Some kv)
  end.

Definition debug_remove (cap : nat) (k : K) (q : IndexedQueue K V) : option (IndexedQueue K V * option V) :=
  match index q !! k with
  | None => Some (q, None)
  | Some idx => '(q', kv) ← debug_unlink cap q idx; Some (q', Some kv.2)
  end.

(** The queue as a debug build runs it. *)
Definition debug_queue (cap : IndexedQueue K V → nat) : KeyedQueue (IndexedQueue K V) K V := {|
  q_new := new;
  q_len := len;
  q_contains := contains;
  q_get := get;
  q_front := front;
  q_position := position;
  q_iter := iter;
  q_push_back := debug_push_back;
  q_pop_front q := debug_pop_front (cap q) q;
  q_remove k q := debug_remove (cap q) k q
|}.

Lemma debug_unlink_agrees cap q entries i : rep q entries → debug_unlink cap q i = unlink cap q i.
Proof.
  intros (l & R & ->). unfold debug_unlink. destruct (occupied (slab q) i) as [n|] eqn:Hn; [|unfold unlink; by rewrite Hn].
  assert (Hin : i ∈ l.*1) by (apply occupied_Some in Hn; by eapply R).
  apply list_elem_of_fmap in Hin as ([j [k v]] & -> & Hin). simpl in *.
  destruct (dseg_slot _ _ _ _ _ _ _ _ (rep_links _ _ R) Hin) as (n' & Hn' & [= <- <-]).
  apply occupied_Some in Hn. rewrite Hn' in Hn. injection Hn as ->. assert (Hk : index q !! key n = Some j) by (apply R; by eexists).
  apply list_elem_of_split in Hin as (l1 & l2 & ->). destruct (rep_unlink cap q l1 l2 j (key n) (value n) R) as (q' & -> & R').
  cbn. rewrite bool_decide_eq_true_2 by done. cbn. by rewrite (debug_validate_complete q' _ R').
Qed.

Lemma debug_exec_agrees cap q entries c :
  rep q entries → @exec K V _ (debug_queue cap) q c = @exec K V _ (slab_queue cap) q c.
Proof.
  intros R. destruct c as [k v| |k|k|k|k| | |]; try done; simpl.
  - unfold debug_push_back. destruct (push_back_refines q entries k v R) as (q' & -> & R'). cbn.
    rewrite (debug_validate_complete q' _ R'). by destruct (Fifo.push_back k v entries).2.
  - unfold debug_pop_front, pop_front. destruct (head q); [|done]. by rewrite (debug_unlink_agrees _ q entries).
  - unfold debug_remove, remove. destruct (index q !! k); [|done]. by rewrite (debug_unlink_agrees _ q entries).
Qed.

Lemma debug_exec_all_agrees cap cs q entries :
  rep q entries → @exec_all K V _ (debug_queue cap) q cs = @exec_all K V _ (slab_queue cap) q cs.
Proof.
  revert q entries. induction cs as [|c cs IH]; intros q entries R; [done|]. cbn [exec_all]. rewrite (debug_exec_agrees cap q entries c R).
  destruct (exec_refines (KeyedQueueLaws0 := slab_queue_laws cap) q entries c R) as (q' & l' & o & -> & _ & R').
  cbn. by rewrite (IH q' l' R').
Qed.
End checks.

(** C29: The assertions of a debug build are exactly the representation
    invariant: [debug_validate] passes on a slab if and only if its links, index
    and free list represent a queue, and since every operation keeps it so, a
    debug build answers every history of calls as a release build does and never
    stops at an assertion. *)
Theorem debug_validate_exact `{Countable K} {V} (cap : IndexedQueue K V → nat) (q : IndexedQueue K V) (cs : list (call K V)) :
  (debug_validate q = Some tt ↔ ∃ entries, rep q entries) ∧
  @exec_all K V _ (debug_queue cap) new cs = @exec_all K V _ (slab_queue cap) new cs ∧
  is_Some (@exec_all K V _ (debug_queue cap) new cs).
Proof.
  assert (R : rep (new : IndexedQueue K V) []) by (exists []; split; [apply rep_at_new|done]).
  split; [split; [apply debug_validate_sound|intros [entries ?]; by eapply debug_validate_complete]|].
  rewrite (debug_exec_all_agrees cap cs new [] R). split; [done|].
  destruct (exec_all_refines (KeyedQueueLaws0 := slab_queue_laws cap) cs new [] R) as (q' & l & os & E & _). eauto.
Qed.

(** A slab with a cycle, and one with a slot that is neither linked nor free. *)
Example debug_validate_rejects :
  debug_validate (mkQueue [Some (mkNode 7%Z tt None (Some 0%nat))] [] {[7%Z := 0%nat]} (Some 0%nat) (Some 0%nat)) = None ∧
  debug_validate (mkQueue (K := Z) (V := unit) [None] [] ∅ None None) = None.
Proof. done. Qed.
