(* ===== verification/Cancellation.v ===== *)
(** Attempt identities and the cancellation ledger of src/state.rs.

    An acquisition attempt is named by the SHA-256 digest of length-prefixed
    segments; a cancelled attempt stays in the ledger until its tombstone
    expires, so that a late acquire of the same attempt is refused.  The hash
    function and the tenant delimiter come from other crates and are fields of
    [External]. *)

From Stdlib Require Import Ascii.
From S2P Require Import Prelude.

(** What the code takes from the crates [sha2] and [fiducia_routing]. *)
Class External := {
  sha256 : list ascii → list ascii;
  ORG_SCOPE_DELIM : string
}.

(** ** Identities *)

Definition bytes (s : string) : list ascii := String.list_ascii_of_string s.

Definition byte_of (z : Z) : ascii := ascii_of_N (Z.to_N z).

(** The [n] low-order bytes of [z], most significant first ([u64::to_be_bytes]
    for [n = 8]). *)
Fixpoint to_be_bytes (n : nat) (z : Z) : list ascii :=
  match n with
  | O => []
  | S n => to_be_bytes n (z / 256) ++ [byte_of (z mod 256)]
  end.

(** A hasher is the bytes fed to it so far. *)
Definition hash_segment (hasher : list ascii) (value : list ascii) : list ascii :=
  hasher ++ to_be_bytes 8 (Z.of_nat (length value)) ++ value.

Definition hex_digit (n : N) : ascii :=
  match String.get (N.to_nat n) "0123456789abcdef" with Some c => c | None => "0"%char end.

(** [write!("{byte:02x}")] for every byte of the digest. *)
Definition hex_byte (b : ascii) : string :=
  String (hex_digit (N_of_ascii b / 16)) (String (hex_digit (N_of_ascii b mod 16)) EmptyString).
Definition hex (l : list ascii) : string := foldr (λ b s, String.append (hex_byte b) s) EmptyString l.

Section identities.
Context `{External}.

Definition digest_string (hasher : list ascii) : string := hex (sha256 hasher).

Definition acquisition_identity (kind holder : string) (keys : list string) (request_id : string) : string :=
  let hasher := hash_segment (hash_segment [] (bytes kind)) (bytes holder) in
  let hasher := foldl (λ h key, hash_segment h (bytes key)) hasher keys in
  digest_string (hash_segment hasher (bytes request_id)).

(** [str::strip_prefix] and [str::find]. *)
Fixpoint strip_prefix (p s : string) : option string :=
  match p, s with
  | EmptyString, _ => Some s
  | String a p, String b s => if Ascii.eqb a b then strip_prefix p s else None
  | String _ _, EmptyString => None
  end.

Fixpoint split_at_first (p s : string) : option string :=
  match strip_prefix p s with
  | Some _ => Some EmptyString
  | None => match s with
            | EmptyString => None
            | String a s => String a <$> split_at_first p s
            end
  end.

Definition cancellation_tenant (holder : string) : string :=
  let scope := default "legacy-unscoped"
    (rest ← strip_prefix ORG_SCOPE_DELIM holder; split_at_first ORG_SCOPE_DELIM rest) in
  digest_string (hash_segment [] (bytes scope)).
End identities.

(** ** The ledger *)

Definition CANCELLATION_TOMBSTONE_TTL_MS : Z := 24 * 60 * 60 * 1000.

Record CancellationLimits : Type := {
  per_tenant : Z;
  total : Z;
  global_reserve : Z;
  fair_share_per_tenant : Z
}.

Definition CANCELLATION_LIMITS : CancellationLimits := {|
  per_tenant := 10000;
  total := 250000;
  global_reserve := 25000;
  fair_share_per_tenant := 256
|}.

Record CancellationEntry : Type := mkCancellation {
  expires_at_ms : Z;
  tenant : string
}.

Record CancellationLedger : Type := mkLedger {
  entries : gmap string CancellationEntry;
  expirations : gmap Z (gset string);
  tenant_counts : gmap string Z
}.

Definition empty_ledger : CancellationLedger := mkLedger ∅ ∅ ∅.

Inductive RememberCancellation : Type := Remembered | CapacityExceeded.

#[export] Instance RememberCancellation_eq_dec : EqDecision RememberCancellation.
Proof. solve_decision. Defined.

Definition ledger_contains (l : CancellationLedger) (identity : string) : bool :=
  bool_decide (is_Some (entries l !! identity)).

Definition ledger_len (l : CancellationLedger) : Z := Z.of_nat (size (entries l)).

Definition remember_with_limits (l : CancellationLedger) (identity tn : string) (now : Z)
    (limits : CancellationLimits) : CancellationLedger * RememberCancellation :=
  if ledger_contains l identity then (l, Remembered) else
  let tenant_count := default 0 (tenant_counts l !! tn) in
  let reserve_starts_at := sat_sub (total limits) (global_reserve limits) in
  let consuming_reserved_capacity :=
    (reserve_starts_at <=? ledger_len l) && (fair_share_per_tenant limits <=? tenant_count) in
  if (total limits <=? ledger_len l) || (per_tenant limits <=? tenant_count) || consuming_reserved_capacity
  then (l, CapacityExceeded)
  else
    let expires := sat_add now CANCELLATION_TOMBSTONE_TTL_MS in
    (mkLedger
       (<[identity := mkCancellation expires tn]> (entries l))
       (<[expires := {[identity]} ∪ default ∅ (expirations l !! expires)]> (expirations l))
       (<[tn := tenant_count + 1]> (tenant_counts l)),
     Remembered).

Definition remember (l : CancellationLedger) (identity tn : string) (now : Z) :
    CancellationLedger * RememberCancellation :=
  remember_with_limits l identity tn now CANCELLATION_LIMITS.

(** The body of the inner loop of [expire]: one identity of the bucket [deadline]. *)
Definition expire_identity (deadline : Z) (l : CancellationLedger) (identity : string) : CancellationLedger :=
  match entries l !! identity with
  | None => l
  | Some entry =>
      if negb (expires_at_ms entry =? deadline) then l else
      mkLedger (delete identity (entries l)) (expirations l)
        (match tenant_counts l !! tenant entry with
         | None => tenant_counts l
         | Some count =>
             let count := sat_sub count 1 in
             if count =? 0 then delete (tenant entry) (tenant_counts l)
             else <[tenant entry := count]> (tenant_counts l)
         end)
  end.

Definition expire_deadline (l : CancellationLedger) (deadline : Z) : CancellationLedger :=
  match expirations l !! deadline with
  | None => l
  | Some identities =>
      foldl (expire_identity deadline)
        (mkLedger (entries l) (delete deadline (expirations l)) (tenant_counts l))
        (btree_elements identities)
  end.

(** [expirations.range(..=now)]: the due deadlines in increasing order. *)
Definition due_deadlines (l : CancellationLedger) (now : Z) : list Z :=
  merge_sort Z.le (filter (λ d, d ≤ now) (map_to_list (expirations l)).*1).

Definition expire (l : CancellationLedger) (now : Z) : CancellationLedger :=
  foldl expire_deadline l (due_deadlines l now).

(** [validate]: entries are indexed by deadline and counted per tenant. *)
Definition tally (es : list (string * CancellationEntry)) : gmap string Z :=
  foldl (λ m e, <[tenant e.2 := default 0 (m !! tenant e.2) + 1]> m) ∅ es.

Definition validate (l : CancellationLedger) (label : string) : result unit string :=
  match List.find (λ e, negb (is_some_and (expirations l !! expires_at_ms e.2)
                               (λ bucket, bool_decide (e.1 ∈ bucket))))
          (map_to_list (entries l)) with
  | Some e =>
      Err (String.append label (String.append " cancellation '" (String.append e.1 "' is absent from expiry index")))
  | None =>
      let counts := tally (map_to_list (entries l)) in
      if List.forallb (λ tc, default 0 (counts !! tc.1) =? tc.2) (map_to_list (tenant_counts l))
      then if bool_decide (size counts = size (tenant_counts l)) then Ok ()
           else Err (String.append label " cancellation tenant index is incomplete")
      else Err (String.append label " cancellation tenant count is inconsistent")
  end.

(** ** Tenant counts *)

Definition count_in (t : string) (l : list (string * CancellationEntry)) : Z :=
  Z.of_nat (length (filter (λ e, tenant e.2 = t) l)).

Definition count_of (t : string) (m : gmap string CancellationEntry) : Z :=
  count_in t (map_to_list m).

(** A count is stored exactly for the tenants that have an entry. *)
Definition counts_as (n : Z) : option Z := if n =? 0 then None else Some n.

Lemma count_in_cons t e l :
  count_in t (e :: l) = count_in t l + (if decide (tenant e.2 = t) then 1 else 0).
Proof. unfold count_in. rewrite filter_cons. case_decide; simpl; lia. Qed.

Lemma count_in_nonneg t l : 0 ≤ count_in t l.
Proof. unfold count_in. lia. Qed.

Lemma count_of_Permutation t m l : map_to_list m ≡ₚ l → count_of t m = count_in t l.
Proof. unfold count_of, count_in. by intros ->. Qed.

Lemma count_of_insert t id e m :
  m !! id = None →
  count_of t (<[id := e]> m) = count_of t m + (if decide (tenant e = t) then 1 else 0).
Proof.
  intros Hid. rewrite (count_of_Permutation t _ ((id, e) :: map_to_list m)) by by apply map_to_list_insert.
  by rewrite count_in_cons.
Qed.

Lemma count_of_delete t id e m :
  m !! id = Some e →
  count_of t (delete id m) = count_of t m - (if decide (tenant e = t) then 1 else 0).
Proof.
  intros Hid. rewrite <-(insert_delete_id m id e) at 2 by done.
  rewrite count_of_insert by apply lookup_delete_eq. lia.
Qed.

Lemma count_of_pos t id e m : m !! id = Some e → tenant e = t → 0 < count_of t m.
Proof.
  intros Hid Ht. pose proof (count_of_delete t id e m Hid) as Hc.
  rewrite decide_True in Hc by done. pose proof (count_in_nonneg t (map_to_list (delete id m))).
  unfold count_of in *. lia.
Qed.

Lemma tally_lookup l t : tally l !! t = counts_as (count_in t l).
Proof.
  unfold tally. induction l as [|e l IH] using rev_ind; [apply lookup_empty|].
  rewrite foldl_app. simpl. rewrite lookup_insert.
  unfold count_in in *. rewrite filter_app, length_app, filter_cons, filter_nil. unfold counts_as in *.
  case_decide as E.
  - subst t. rewrite IH. simpl.
    destruct (Z.eqb_spec (Z.of_nat (length (filter (λ e0, tenant e0.2 = tenant e.2) l))) 0);
      case_match; bools; simpl; f_equal; lia.
  - rewrite IH. simpl. by rewrite Nat.add_0_r.
Qed.

(** ** The ledger invariant *)

Record ledger_inv (l : CancellationLedger) : Prop := {
  li_indexed id e : entries l !! id = Some e →
    ∃ b, expirations l !! expires_at_ms e = Some b ∧ id ∈ b;
  li_counts t : tenant_counts l !! t = counts_as (count_of t (entries l))
}.

Lemma ledger_inv_empty : ledger_inv empty_ledger.
Proof. split; simpl; [done|]. intros t. by rewrite lookup_empty. Qed.

Lemma li_default l t : ledger_inv l → default 0 (tenant_counts l !! t) = count_of t (entries l).
Proof.
  intros I. rewrite (li_counts _ I). unfold counts_as.
  destruct (Z.eqb_spec (count_of t (entries l)) 0); simpl; lia.
Qed.

Lemma ledger_contains_spec l id : ledger_contains l id = true ↔ is_Some (entries l !! id).
Proof. unfold ledger_contains. apply bool_decide_eq_true. Qed.

(** The outcome of [remember_with_limits] decides what changed. *)
Lemma remember_spec l id tn now lim :
  let '(l', r) := remember_with_limits l id tn now lim in
  match r with
  | CapacityExceeded => l' = l ∧ entries l !! id = None
  | Remembered =>
      (is_Some (entries l !! id) ∧ l' = l) ∨
      (entries l !! id = None ∧ ledger_len l < total lim ∧
       default 0 (tenant_counts l !! tn) < per_tenant lim ∧
       entries l' = <[id := mkCancellation (sat_add now CANCELLATION_TOMBSTONE_TTL_MS) tn]> (entries l))
  end.
Proof.
  unfold remember_with_limits. destruct (ledger_contains l id) eqn:E.
  - apply ledger_contains_spec in E. by left.
  - assert (Hn : entries l !! id = None).
    { unfold ledger_contains in E. bools. by apply eq_None_not_Some. }
    destruct (_ || _) eqn:C; [done|]. right. bools. done.
Qed.

Lemma remember_inv l id tn now lim :
  ledger_inv l → ledger_inv (remember_with_limits l id tn now lim).1.
Proof.
  intros I. unfold remember_with_limits. destruct (ledger_contains l id) eqn:E; [done|].
  assert (Hn : entries l !! id = None).
  { unfold ledger_contains in E. bools. by apply eq_None_not_Some. }
  destruct (_ || _); [done|]. split; simpl.
  - intros id' e'. rewrite lookup_insert. set (x := sat_add now _). case_decide as Ei.
    + intros [= <-]. subst. simpl. rewrite lookup_insert_eq. eexists. split; [done|set_solver].
    + intros Hid. destruct (li_indexed _ I _ _ Hid) as (b & Hb & Hin).
      rewrite lookup_insert. case_decide as Ex; [|by exists b].
      rewrite Ex, Hb. eexists. split; [done|set_solver].
  - intros t. rewrite lookup_insert, (li_default _ _ I), count_of_insert by done. simpl.
    case_decide; subst.
    + pose proof (count_in_nonneg t (map_to_list (entries l))). unfold counts_as, count_of in *.
      case_match; bools; [lia|done].
    + by rewrite Z.add_0_r, (li_counts _ I).
Qed.

(** ** Expiry *)

Definition counts_ok (l : CancellationLedger) : Prop :=
  ∀ t, tenant_counts l !! t = counts_as (count_of t (entries l)).

Lemma expire_identity_entries d l id j :
  entries (expire_identity d l id) !! j =
    e ← entries l !! j; if decide (j = id ∧ expires_at_ms e = d) then None else Some e.
Proof.
  unfold expire_identity. destruct (entries l !! id) as [e|] eqn:E.
  - destruct (Z.eqb_spec (expires_at_ms e) d) as [Hd|Hd]; simpl.
    + rewrite lookup_delete. case_decide; subst.
      * rewrite E. simpl. by rewrite decide_True.
      * destruct (entries l !! j); simpl; [|done]. rewrite decide_False; [done|]. by intros [-> _].
    + destruct (entries l !! j) as [e'|] eqn:Ej; simpl; [|done].
      rewrite decide_False; [done|]. intros [-> ?]. congruence.
  - destruct (entries l !! j) eqn:Ej; simpl; [|done]. rewrite decide_False; [done|].
    intros [-> _]. congruence.
Qed.

Lemma expire_identity_counts d l id : counts_ok l → counts_ok (expire_identity d l id).
Proof.
  unfold counts_ok, expire_identity. intros Hc. destruct (entries l !! id) as [e|] eqn:E; [|done].
  destruct (negb _); [done|]. intros t. simpl. rewrite (count_of_delete t id e) by done.
  pose proof (count_of_pos _ _ _ _ E eq_refl) as Hpos. rewrite (Hc (tenant e)).
  unfold counts_as at 1. rewrite (proj2 (Z.eqb_neq _ _)) by lia. unfold sat_sub.
  case_match; bools.
  - rewrite lookup_delete, Hc. case_decide; subst; [|by rewrite Z.sub_0_r].
    unfold counts_as. by rewrite (proj2 (Z.eqb_eq _ _)) by lia.
  - rewrite lookup_insert, Hc. case_decide; subst; [|by rewrite Z.sub_0_r].
    unfold counts_as. rewrite (proj2 (Z.eqb_neq _ _)) by lia. f_equal. lia.
Qed.

Lemma expire_identity_expirations d l id :
  expirations (expire_identity d l id) = expirations l.
Proof. unfold expire_identity. repeat case_match; done. Qed.

(** All identities of one bucket. *)
Lemma expire_bucket d ids l :
  let l' := foldl (expire_identity d) l ids in
  expirations l' = expirations l ∧ (counts_ok l → counts_ok l') ∧
  ∀ j, entries l' !! j =
    e ← entries l !! j; if decide (j ∈ ids ∧ expires_at_ms e = d) then None else Some e.
Proof.
  revert l. induction ids as [|id ids IH]; intros l; simpl.
  - split_and!; [done|done|]. intros j. by destruct (entries l !! j).
  - destruct (IH (expire_identity d l id)) as (Hx & Hc & He). split_and!.
    + by rewrite Hx, expire_identity_expirations.
    + intros ?. by apply Hc, expire_identity_counts.
    + intros j. rewrite He, expire_identity_entries. destruct (entries l !! j) as [e|]; simpl; [|done].
      case_decide as C1; simpl; [by rewrite decide_True by (destruct C1; subst; set_solver)|].
      do 2 case_decide; try done; set_solver.
Qed.

Lemma expire_deadline_spec l d :
  ledger_inv l →
  ledger_inv (expire_deadline l d) ∧
  expirations (expire_deadline l d) = delete d (expirations l) ∧
  ∀ j, entries (expire_deadline l d) !! j =
    e ← entries l !! j; if decide (expires_at_ms e = d) then None else Some e.
Proof.
  intros I. unfold expire_deadline. destruct (expirations l !! d) as [b|] eqn:Eb.
  - destruct (expire_bucket d (btree_elements b) (mkLedger (entries l) (delete d (expirations l)) (tenant_counts l)))
      as (Hx & Hc & He). simpl in *.
    assert (Hmem : ∀ j e, entries l !! j = Some e → expires_at_ms e = d → j ∈ btree_elements b).
    { intros j e Hj Hd. destruct (li_indexed _ I _ _ Hj) as (b' & Hb' & Hin).
      rewrite Hd in Hb'. simplify_eq. unfold btree_elements.
      by rewrite merge_sort_Permutation, elem_of_elements. }
    assert (He' : ∀ j, entries (foldl (expire_identity d)
        (mkLedger (entries l) (delete d (expirations l)) (tenant_counts l)) (btree_elements b)) !! j =
      e ← entries l !! j; if decide (expires_at_ms e = d) then None else Some e).
    { intros j. rewrite He. destruct (entries l !! j) as [e|] eqn:Ej; simpl; [|done].
      do 2 case_decide; try done; [tauto|]. exfalso. eauto. }
    split_and!; [|done|done]. split.
    + intros id e. rewrite He', Hx. destruct (entries l !! id) as [e'|] eqn:Ee; simpl; [|done].
      case_decide; [done|]. intros [= <-]. destruct (li_indexed _ I _ _ Ee) as (b' & ? & ?).
      exists b'. by rewrite lookup_delete_ne by congruence.
    + apply Hc. intros t. apply I.
  - split_and!; [done|by rewrite delete_id|]. intros j.
    destruct (entries l !! j) as [e|] eqn:Ej; simpl; [|done]. case_decide; [|done].
    destruct (li_indexed _ I _ _ Ej) as (b & Hb & _). congruence.
Qed.

Lemma expire_deadlines_spec ds l :
  ledger_inv l →
  ledger_inv (foldl expire_deadline l ds) ∧
  ∀ j, entries (foldl expire_deadline l ds) !! j =
    e ← entries l !! j; if decide (expires_at_ms e ∈ ds) then None else Some e.
Proof.
  revert l. induction ds as [|d ds IH]; intros l I; simpl.
  - split; [done|]. intros j. by destruct (entries l !! j).
  - destruct (expire_deadline_spec l d I) as (I' & _ & He). destruct (IH _ I') as (I'' & He').
    split; [done|]. intros j. rewrite He', He. destruct (entries l !! j) as [e|]; simpl; [|done].
    case_decide as C1; simpl; [by rewrite decide_True by (subst; set_solver)|].
    do 2 case_decide; try done; set_solver.
Qed.

Lemma elem_of_due_deadlines l now d :
  d ∈ due_deadlines l now ↔ d ≤ now ∧ is_Some (expirations l !! d).
Proof.
  unfold due_deadlines. rewrite merge_sort_Permutation, list_elem_of_filter, list_elem_of_fmap.
  split; intros [Hd Hin]; (split; [done|]).
  - destruct Hin as ([d' b] & -> & Hin). apply elem_of_map_to_list in Hin. by eexists.
  - destruct Hin as [b Hb]. exists (d, b). split; [done|]. by apply elem_of_map_to_list.
Qed.

(** [expire] keeps the invariant and keeps exactly the tombstones not yet due. *)
Lemma expire_spec l now :
  ledger_inv l →
  ledger_inv (expire l now) ∧
  entries (expire l now) = retain (λ _ e, now <? expires_at_ms e) (entries l).
Proof.
  intros I. unfold expire. destruct (expire_deadlines_spec (due_deadlines l now) l I) as (I' & He).
  split; [done|]. apply map_eq. intros j. rewrite He, lookup_retain.
  destruct (entries l !! j) as [e|] eqn:Ej; simpl; [|done].
  destruct (li_indexed _ I _ _ Ej) as (b & Hb & _).
  destruct (Z.ltb_spec now (expires_at_ms e)); case_decide as C; try done;
    rewrite elem_of_due_deadlines in C; [lia|]. destruct C. split; [lia|by eexists].
Qed.

(** ** Capacity and histories *)

Definition bounded (lim : CancellationLimits) (l : CancellationLedger) : Prop :=
  ledger_len l ≤ total lim ∧ ∀ t, count_of t (entries l) ≤ per_tenant lim.

Lemma remember_bounded l id tn now lim :
  ledger_inv l → bounded lim l → bounded lim (remember_with_limits l id tn now lim).1.
Proof.
  intros I [Hlen Hten]. pose proof (remember_spec l id tn now lim) as Hs.
  destruct (remember_with_limits l id tn now lim) as [l' [|]]; simpl in *.
  - destruct Hs as [[_ ->]|(Hn & Hl & Ht & He)]; [done|]. rewrite (li_default _ _ I) in Ht.
    unfold bounded, ledger_len in *. rewrite He, map_size_insert_None by done. split; [lia|].
    intros t. rewrite count_of_insert by done. simpl. specialize (Hten t). case_decide; subst; lia.
  - by destruct Hs as [-> _].
Qed.

Lemma retain_size_le `{Countable K} {V} (f : K → V → bool) (m : gmap K V) :
  (size (retain f m) ≤ size m)%nat.
Proof. apply map_subseteq_size. unfold retain. apply map_filter_subseteq. Qed.

Lemma count_of_retain_le t f m : count_of t (retain f m) ≤ count_of t m.
Proof.
  unfold count_of, count_in. apply inj_le, submseteq_length, NoDup_submseteq.
  - apply NoDup_filter, NoDup_map_to_list.
  - intros [id e]. rewrite !list_elem_of_filter, !elem_of_map_to_list.
    intros [Ht Hin%lookup_retain_Some]. tauto.
Qed.

Lemma expire_bounded l now lim : ledger_inv l → bounded lim l → bounded lim (expire l now).
Proof.
  intros I [Hlen Hten]. destruct (expire_spec l now I) as [_ He].
  unfold bounded, ledger_len in *. rewrite He. split.
  - pose proof (retain_size_le (λ _ e, now <? expires_at_ms e) (entries l)). lia.
  - intros t. pose proof (count_of_retain_le t (λ _ e, now <? expires_at_ms e) (entries l)).
    specialize (Hten t). lia.
Qed.

(** A ledger as the state machine changes it: by [remember] and [expire]. *)
Inductive ledger_call : Type :=
| Remember (identity tn : string) (now : Z)
| Expire (now : Z).

Definition ledger_exec (l : CancellationLedger) (c : ledger_call) : CancellationLedger :=
  match c with
  | Remember id tn now => (remember l id tn now).1
  | Expire now => expire l now
  end.

Lemma ledger_exec_inv l c : ledger_inv l → ledger_inv (ledger_exec l c).
Proof.
  intros I. destruct c; simpl; [by apply remember_inv|by apply expire_spec].
Qed.

Lemma ledger_exec_all_inv cs l : ledger_inv l → ledger_inv (foldl ledger_exec l cs).
Proof. revert l. induction cs; simpl; eauto using ledger_exec_inv. Qed.

(** The validity test of a restored ledger accepts every consistent ledger. *)
Lemma validate_complete l label : ledger_inv l → validate l label = Ok ().
Proof.
  intros I. unfold validate. destruct (List.find _ _) as [[id e]|] eqn:F.
  - apply List.find_some in F as [Hin Hf]. apply list_elem_of_In, elem_of_map_to_list in Hin.
    destruct (li_indexed _ I _ _ Hin) as (b & Hb & Hid). simpl in *. rewrite Hb in Hf. simpl in Hf.
    by rewrite bool_decide_eq_true_2 in Hf.
  - assert (Ht : tally (map_to_list (entries l)) = tenant_counts l).
    { apply map_eq. intros t. rewrite tally_lookup. symmetry. apply I. }
    rewrite Ht, (proj2 (List.forallb_forall _ _)), bool_decide_eq_true_2; [done..|].
    intros [t n] Hin%list_elem_of_In%elem_of_map_to_list. simpl. rewrite Hin. simpl. lia.
Qed.

(** In every history of cancellations and expiry sweeps, the ledger's
    three indexes agree, no tenant and no total exceeds its cap, and the
    ledger passes the test applied to restored snapshots. *)
Theorem ledger_histories_valid (cs : list ledger_call) (label : string) :
  let l := foldl ledger_exec empty_ledger cs in
  ledger_inv l ∧ bounded CANCELLATION_LIMITS l ∧ validate l label = Ok ().
Proof.
  simpl. induction cs as [|c cs (I & B & _)] using rev_ind; simpl.
  - split_and!; [apply ledger_inv_empty| |apply validate_complete, ledger_inv_empty].
    split; [vm_compute; congruence|]. intros t. vm_compute. congruence.
  - rewrite foldl_app. simpl. split_and!; [by apply ledger_exec_inv| |].
    + destruct c; simpl; [by apply remember_bounded|by apply expire_bounded].
    + by apply validate_complete, ledger_exec_inv.
Qed.

(** An acknowledged cancellation is remembered until its tombstone
    expires: after [remember] answers [Remembered], no later history of
    cancellations and of sweeps before the recorded deadline loses it. *)
Theorem tombstone_persists (l : CancellationLedger) (id tn : string) (now : Z) (cs : list ledger_call)
    (Hinv : ledger_inv l) (Hok : (remember l id tn now).2 = Remembered) :
  ∃ e, entries (remember l id tn now).1 !! id = Some e ∧
    ((∀ t, Expire t ∈ cs → t < expires_at_ms e) →
     ledger_contains (foldl ledger_exec (remember l id tn now).1 cs) id = true).
Proof.
  pose proof (remember_inv l id tn now CANCELLATION_LIMITS Hinv) as I.
  pose proof (remember_spec l id tn now CANCELLATION_LIMITS) as Hs. unfold remember in *.
  destruct (remember_with_limits _ _ _ _ _) as [l0 r]. simpl in *. subst r.
  assert (∃ e, entries l0 !! id = Some e) as [e He].
  { destruct Hs as [[[e He] ->]|(_ & _ & _ & He)]; [by exists e|].
    rewrite He, lookup_insert_eq. by eexists. }
  exists e. split; [done|]. clear Hs. intros Hcs. apply ledger_contains_spec. exists e.
  clear Hinv l. revert l0 I He. induction cs as [|c cs IH]; intros l0 I He; simpl; [done|].
  apply IH; [set_solver|by apply ledger_exec_inv|].
  destruct c as [id' tn' now'|now']; simpl.
  - pose proof (remember_spec l0 id' tn' now' CANCELLATION_LIMITS) as Hs. unfold remember.
    destruct (remember_with_limits _ _ _ _ _) as [l1 [|]]; simpl in *.
    + destruct Hs as [[_ ->]|(Hn & _ & _ & ->)]; [done|].
      rewrite lookup_insert_ne; [done|]. by intros ->; rewrite He in Hn.
    + by destruct Hs as [-> _].
  - destruct (expire_spec l0 now' I) as [_ ->]. rewrite lookup_retain, He.
    rewrite (proj2 (Z.ltb_lt _ _)); [done|]. apply Hcs. left.
Qed.

Lemma tombstone_persists_witness :
  ∃ e, entries (remember empty_ledger "a" "t" 5).1 !! "a" = Some e ∧
    ((∀ t, Expire t ∈ [Expire 7; Remember "b" "t" 8] → t < expires_at_ms e) →
     ledger_contains (foldl ledger_exec (remember empty_ledger "a" "t" 5).1
                        [Expire 7; Remember "b" "t" 8]) "a" = true).
Proof.
  apply (tombstone_persists empty_ledger "a" "t" 5 [Expire 7; Remember "b" "t" 8]).
  - apply ledger_inv_empty.
  - vm_compute. reflexivity.
Defined.

(** The reserve works: while the ledger is not full, a tenant that holds
    fewer tombstones than the fair share (and the per-tenant cap) is never
    refused, however much the other tenants consumed. *)
Theorem fair_share_admitted (l : CancellationLedger) (id tn : string) (now : Z)
    (Hinv : ledger_inv l)
    (Hroom : ledger_len l < total CANCELLATION_LIMITS)
    (Hshare : count_of tn (entries l) < fair_share_per_tenant CANCELLATION_LIMITS) :
  (remember l id tn now).2 = Remembered ∧ ledger_contains (remember l id tn now).1 id = true.
Proof.
  unfold remember, remember_with_limits. destruct (ledger_contains l id) eqn:E; [done|].
  rewrite (li_default _ _ Hinv). simpl in *.
  rewrite (proj2 (Z.leb_gt 250000 _)), (proj2 (Z.leb_gt 10000 _)), (proj2 (Z.leb_gt 256 _)) by lia.
  rewrite andb_false_r. simpl. split; [done|]. apply ledger_contains_spec. simpl. rewrite lookup_insert_eq. by eexists.
Qed.

Lemma fair_share_admitted_witness :
  (remember empty_ledger "a" "t" 1).2 = Remembered ∧
  ledger_contains (remember empty_ledger "a" "t" 1).1 "a" = true.
Proof.
  apply (fair_share_admitted empty_ledger "a" "t" 1); [apply ledger_inv_empty| |]; vm_compute; reflexivity.
Defined.

(** The restore-time test of the ledger is not complete: it compares every
    stored count and then only the number of tenants, so a stored count of
    zero for a tenant without entries masks a tenant whose entries are not
    counted at all. *)
Theorem validate_accepts_uncounted_tenant :
  ∃ l, validate l "lock" = Ok () ∧ entries l !! "y" = Some (mkCancellation 10 "b") ∧
       tenant_counts l !! "b" = None ∧ ¬ ledger_inv l.
Proof.
  exists (mkLedger {["x" := mkCancellation 10 "a"; "y" := mkCancellation 10 "b"]}
                   {[10 := {["x"; "y"]}]} {["a" := 1; "z" := 0]}).
  split_and!; [vm_compute; reflexivity..|].
  intros I. pose proof (li_counts _ I "z") as Hz. vm_compute in Hz. done.
Qed.

(** ** Identities are injective up to hash collisions *)

Definition be_value (l : list ascii) : Z := foldl (λ acc b, acc * 256 + Z.of_N (N_of_ascii b)) 0 l.

Lemma N_of_byte_of z : 0 ≤ z < 256 → Z.of_N (N_of_ascii (byte_of z)) = z.
Proof. intros ?. unfold byte_of. rewrite N_ascii_embedding by lia. lia. Qed.

Lemma be_value_to_be_bytes n z : 0 ≤ z → be_value (to_be_bytes n z) = z mod 256 ^ Z.of_nat n.
Proof.
  revert z. induction n as [|n IH]; intros z Hz; [by rewrite Z.mod_1_r|].
  simpl to_be_bytes. unfold be_value in *. rewrite foldl_app. simpl.
  rewrite IH, N_of_byte_of by (try apply Z.mod_pos_bound; try apply Z.div_pos; lia).
  rewrite Nat2Z.inj_succ, Z.pow_succ_r by lia. rewrite Z.rem_mul_r by lia. lia.
Qed.

Lemma length_to_be_bytes n z : length (to_be_bytes n z) = n.
Proof. revert z. induction n; intros z; simpl; [done|]. rewrite length_app, IHn. simpl. lia. Qed.

(** The length of a Rust string fits in a [u64]. *)
Definition fits (l : list ascii) : Prop := Z.of_nat (length l) ≤ U64_MAX.

Definition segment (v : list ascii) : list ascii := hash_segment [] v.

Lemma segment_eq v : segment v = to_be_bytes 8 (Z.of_nat (length v)) ++ v.
Proof. reflexivity. Qed.

Lemma hash_segment_app h v : hash_segment h v = h ++ segment v.
Proof. done. Qed.

Lemma segment_app_inj a b x y :
  fits a → fits b → segment a ++ x = segment b ++ y → a = b ∧ x = y.
Proof.
  unfold fits. rewrite !segment_eq, <-!app_assoc. intros Ha Hb Heq.
  apply app_inj_1 in Heq as [Hlen Heq]; [|by rewrite !length_to_be_bytes].
  apply (f_equal be_value) in Hlen. rewrite !be_value_to_be_bytes in Hlen by lia.
  rewrite !Z.mod_small in Hlen by (unfold U64_MAX in *; change (256 ^ Z.of_nat 8) with 18446744073709551616; lia).
  by apply app_inj_1 in Heq; [|lia].
Qed.

Lemma segments_inj l1 l2 :
  Forall fits l1 → Forall fits l2 →
  foldr (λ v acc, segment v ++ acc) [] l1 = foldr (λ v acc, segment v ++ acc) [] l2 → l1 = l2.
Proof.
  assert (Hnil : ∀ v x, [] ≠ segment v ++ x).
  { intros v x Heq%(f_equal length). rewrite segment_eq, !length_app, length_to_be_bytes in Heq. done. }
  revert l2. induction l1 as [|a l1 IH]; intros [|b l2] H1 H2 Heq; [done|by apply Hnil in Heq| |].
  - symmetry in Heq. by apply Hnil in Heq.
  - inversion_clear H1. inversion_clear H2.
    apply segment_app_inj in Heq as [-> Heq]; [|done..]. f_equal. by apply IH.
Qed.

Lemma hash_segments_foldl vs h :
  foldl (λ h v, hash_segment h v) h vs = h ++ foldr (λ v acc, segment v ++ acc) [] vs.
Proof.
  revert h. induction vs as [|v vs IH]; intros h; simpl; [by rewrite app_nil_r|].
  by rewrite IH, hash_segment_app, <-app_assoc.
Qed.

Definition unhex_digit (c : ascii) : N :=
  let n := N_of_ascii c in if N.leb 97 n then n - 87 else n - 48.

Lemma hex_byte_inj b1 b2 s1 s2 :
  String.append (hex_byte b1) s1 = String.append (hex_byte b2) s2 → b1 = b2 ∧ s1 = s2.
Proof.
  assert (Hinv : ∀ b, ascii_of_N (unhex_digit (hex_digit (N_of_ascii b / 16)) * 16 +
                                  unhex_digit (hex_digit (N_of_ascii b mod 16))) = b).
  { intros [[] [] [] [] [] [] [] []]; reflexivity. }
  unfold hex_byte. simpl. intros [= E1 E2 E3]. split; [|exact E3].
  by rewrite <-(Hinv b1), <-(Hinv b2), E1, E2.
Qed.

Lemma hex_inj l1 l2 : hex l1 = hex l2 → l1 = l2.
Proof.
  revert l2. induction l1 as [|b l1 IH]; intros [|b2 l2] Heq; simpl in *; try done.
  apply (hex_byte_inj b b2) in Heq as [-> Heq]. f_equal. auto.
Qed.

#[export] Instance bytes_inj : Inj (=) (=) bytes.
Proof.
  intros s1 s2. unfold bytes. intros Heq. rewrite <-(String.string_of_list_ascii_of_string s1).
  by rewrite Heq, String.string_of_list_ascii_of_string.
Qed.

Section identity_injective.
Context `{External}.

Lemma acquisition_identity_segments kind holder keys rid :
  acquisition_identity kind holder keys rid =
  digest_string (foldr (λ v acc, segment v ++ acc) []
                   (bytes <$> [kind; holder] ++ keys ++ [rid])).
Proof.
  unfold acquisition_identity. f_equal.
  rewrite <-(app_nil_l (foldr _ _ _)), <-hash_segments_foldl, !fmap_app, !foldl_app. simpl. f_equal.
  generalize (hash_segment (hash_segment [] (bytes kind)) (bytes holder)) as h.
  induction keys as [|k keys IH]; intros h; simpl; [done|]. apply IH.
Qed.

(** Two acquisition attempts share a ledger identity only when they are
    the same attempt (same primitive, holder, key list and request id), or
    when SHA-256 itself collides on two different byte strings. *)
Theorem acquisition_identity_injective
    (kind kind' holder holder' : string) (keys keys' : list string) (rid rid' : string)
    (Hfit : Forall (λ s, fits (bytes s)) ([kind; kind'; holder; holder'; rid; rid'] ++ keys ++ keys'))
    (Heq : acquisition_identity kind holder keys rid = acquisition_identity kind' holder' keys' rid') :
  (kind = kind' ∧ holder = holder' ∧ keys = keys' ∧ rid = rid') ∨
  ∃ a b, a ≠ b ∧ sha256 a = sha256 b.
Proof.
  rewrite !acquisition_identity_segments in Heq. apply hex_inj in Heq.
  rewrite Forall_app, !Forall_cons, Forall_app in Hfit.
  destruct Hfit as [(? & ? & ? & ? & ? & ? & _) [Hk Hk']].
  destruct (decide ([kind; holder] ++ keys ++ [rid] = [kind'; holder'] ++ keys' ++ [rid'])) as [E|E].
  - left. simpl in E. injection E as -> -> E. apply app_inj_2 in E as [-> [= ->]]; done.
  - right. eexists _, _. split; [|exact Heq]. intros Hs. apply E.
    apply (list_fmap_eq_inj bytes); [apply _|]. apply segments_inj; [| |done].
    + rewrite Forall_fmap. repeat (apply Forall_cons; split; [done|]). apply Forall_app. split; [done|].
      by apply Forall_singleton.
    + rewrite Forall_fmap. repeat (apply Forall_cons; split; [done|]). apply Forall_app. split; [done|].
      by apply Forall_singleton.
Qed.
End identity_injective.

(** A concrete [External]: the identity as a stand-in for the hash. *)
Definition plain_external : External := {| sha256 := id; ORG_SCOPE_DELIM := String (ascii_of_N 1) EmptyString |}.

Lemma acquisition_identity_injective_witness :
  ("lock" = "lock" ∧ "h" = "h" ∧ ["a"; "b"] = ["a"; "b"] ∧ "r" = "r") ∨
  ∃ a b, a ≠ b ∧ @sha256 plain_external a = @sha256 plain_external b.
Proof.
  apply (@acquisition_identity_injective plain_external "lock" "lock" "h" "h" ["a"; "b"] ["a"; "b"] "r" "r").
  - repeat constructor; vm_compute; congruence.
  - reflexivity.
Defined.
