(* ===== verification/Locks.v ===== *)
(** Multi-key union locks of src/state.rs: [LockManager], the lock commands,
    FIFO promotion and the lock part of [expire_due].

    The methods of [Store] used here touch three of its fields, the fencing
    counter, the lock table and the lock cancellation ledger; [LockCtx] is the
    store restricted to them. *)

From S2P Require Import Prelude Json Fencing Fifo Cancellation.

(** ** Data *)

(** [validate::DEFAULT_WAIT_TIMEOUT_MS] *)
Definition DEFAULT_WAIT_TIMEOUT_MS : Z := 30000.

(** [out.dedup()]: drop consecutive repetitions. *)
Fixpoint dedup (l : list string) : list string :=
  match l with
  | [] => []
  | x :: l' => match dedup l' with
               | (y :: _) as d => if String.eqb x y then d else x :: d
               | [] => [x]
               end
  end.

Definition canonical_keys (keys : list string) : list string :=
  dedup (merge_sort String.le (filter (λ k, k ≠ "") keys)).

Definition waiter_is_live (wait_expires_ms : option Z) (now : Z) : bool :=
  is_none_or wait_expires_ms (λ expires, now <? expires).

Record LockGrant : Type := mkGrant {
  g_holder : string;
  g_keys : list string;
  g_token : Z;
  g_lease : Z;
  g_request : option string
}.

Record QueuedLock : Type := mkQueued {
  w_holder : string;
  w_keys : list string;
  w_ttl : Z;
  w_requested : Z;
  w_expires : option Z;
  w_request : option string
}.

(** Queue identity: holder and canonical key set. *)
Abbreviation lock_id := (string * list string)%type.

Record LockManager : Type := mkLocks {
  held : gmap string Z;
  grants : gmap Z LockGrant;
  queue : fifo lock_id QueuedLock
}.

Definition no_locks : LockManager := mkLocks ∅ ∅ [].

Record LockCtx : Type := mkLockCtx {
  next_fencing_token : Z;
  locks : LockManager;
  lock_cancellations : CancellationLedger
}.

Record LockAcquireInput : Type := mkLockAcquire {
  in_keys : list string;
  in_holder : string;
  in_ttl_ms : Z;
  in_wait : bool;
  in_wait_timeout_ms : option Z;
  in_request_id : option string;
  in_legacy_semantics : bool
}.

(** ** Grants *)

Definition hold_keys (keys : list string) (t : Z) (h : gmap string Z) : gmap string Z :=
  foldl (λ h k, <[k := t]> h) h keys.

Definition install_grant (m : LockManager) (g : LockGrant) : LockManager :=
  mkLocks (hold_keys (g_keys g) (g_token g) (held m)) (<[g_token g := g]> (grants m)) (queue m).

Definition free_keys (keys : list string) (t : Z) (h : gmap string Z) : gmap string Z :=
  foldl (λ h k, if bool_decide (h !! k = Some t) then delete k h else h) h keys.

Definition release_grant (m : LockManager) (fencing_token : Z) : LockManager :=
  match grants m !! fencing_token with
  | None => m
  | Some g => mkLocks (free_keys (g_keys g) fencing_token (held m)) (delete fencing_token (grants m)) (queue m)
  end.

(** ** Promotion *)

Definition is_held (h : gmap string Z) (k : string) : bool := bool_decide (is_Some (h !! k)).

(** The loop of [lock_first_grantable]; [reserved] holds the keys of the
    entries already passed. *)
Fixpoint first_grantable_from (h : gmap string Z) (reserved : gset string)
    (q : fifo lock_id QueuedLock) : option lock_id :=
  match q with
  | [] => None
  | (id, w) :: q =>
      if existsb (λ k, is_held h k || bool_decide (k ∈ reserved)) (w_keys w)
      then first_grantable_from h (list_to_set (w_keys w) ∪ reserved) q
      else Some id
  end.

Definition lock_first_grantable (m : LockManager) : option lock_id :=
  first_grantable_from (held m) ∅ (queue m).

(** The grant a promoted waiter receives. *)
Definition promoted_grant (w : QueuedLock) (token now : Z) : LockGrant :=
  mkGrant (w_holder w) (w_keys w) token (sat_add now (w_ttl w)) (w_request w).

Definition promoted_value (g : LockGrant) : Value :=
  json! ["holder" :- g_holder g; "keys" :- g_keys g; "fencing_token" :- g_token g;
         "lease_expires_ms" :- g_lease g].

(** The [while let] of [lock_promote].  Each round removes a queue entry, so
    the length of the queue bounds the rounds.  The last branch is the
    [expect("key from scan")]. *)
Fixpoint lock_promote_loop (fuel : nat) (c : Z) (m : LockManager) (now : Z) (promoted : list Value) :
    Z * LockManager * list Value :=
  match fuel with
  | O => (c, m, promoted)
  | S fuel =>
      match lock_first_grantable m with
      | None => (c, m, promoted)
      | Some id =>
          match next_token c with
          | None => (c, m, promoted)
          | Some token =>
              match Fifo.get id (queue m) with
              | Some w =>
                  let g := promoted_grant w token now in
                  let m' := mkLocks (held m) (grants m) (Fifo.without id (queue m)) in
                  lock_promote_loop fuel token (install_grant m' g) now (promoted ++ [promoted_value g])
              | None => (c, m, promoted)
              end
          end
      end
  end.

Definition lock_promote (c : Z) (m : LockManager) (now : Z) : Z * LockManager * list Value :=
  lock_promote_loop (length (queue m)) c m now [].

(** ** Commands *)

Definition blocked_by_held (m : LockManager) (keys : list string) : bool :=
  existsb (is_held (held m)) keys.

Definition reserved_keys (m : LockManager) : gset string :=
  list_to_set (mbind (M := list) (λ e, w_keys e.2) (queue m)).

Definition blocked_by_queue (m : LockManager) (keys : list string) : bool :=
  existsb (λ k, bool_decide (k ∈ reserved_keys m)) keys.

(** The grant an acquire of the same attempt already holds, looked up through
    the first key: [held.get(&keys[0])] and the three comparisons. *)
Definition existing_grant (m : LockManager) (keys : list string) (holder : string)
    (request_id : option string) (legacy : bool) : option (Z * LockGrant) :=
  k0 ← List.hd_error keys;
  tok ← held m !! k0;
  g ← grants m !! tok;
  if bool_decide (g_holder g = holder) && bool_decide (g_keys g = keys)
     && (legacy || bool_decide (g_request g = request_id))
  then Some (tok, g) else None.

Definition with_lease (g : LockGrant) (lease : Z) : LockGrant :=
  mkGrant (g_holder g) (g_keys g) (g_token g) lease (g_request g).

Section commands.
Context `{External}.

Definition apply_lock_acquire (s : LockCtx) (revision now : Z) (input : LockAcquireInput) : LockCtx * Value :=
  let m := locks s in
  let holder := in_holder input in
  let request_id := in_request_id input in
  let legacy := in_legacy_semantics input in
  let keys := canonical_keys (in_keys input) in
  if bool_decide (keys = []) then
    (s, json! ["acquired" :- false; "reason" :- "no_keys"; "revision" :- revision])
  else if is_some_and request_id (λ r,
            ledger_contains (lock_cancellations s) (acquisition_identity "lock" holder keys r)) then
    (s, json! ["acquired" :- false; "queued" :- false; "position" :- JNull; "wait_expires_ms" :- JNull;
               "keys" :- keys; "holder" :- holder; "conflicts" :- JArr []; "revision" :- revision])
  else match existing_grant m keys holder request_id legacy with
  | Some (tok, grant) =>
      let lease := if legacy then Z.max (g_lease grant) (sat_add now (in_ttl_ms input)) else g_lease grant in
      let m' := if legacy
                then mkLocks (held m) (<[tok := with_lease grant lease]> (grants m)) (queue m)
                else m in
      (mkLockCtx (next_fencing_token s) m' (lock_cancellations s),
       json! ["acquired" :- true; "queued" :- false; "renewed" :- legacy; "keys" :- keys;
              "holder" :- holder; "fencing_token" :- tok; "lease_expires_ms" :- lease;
              "revision" :- revision])
  | None =>
  if negb (blocked_by_held m keys) && negb (blocked_by_queue m keys) then
    match next_token (next_fencing_token s) with
    | None =>
        (s, json! ["acquired" :- false; "queued" :- false; "reason" :- "fencing_tokens_exhausted";
                   "keys" :- keys; "holder" :- holder; "revision" :- revision])
    | Some token =>
        let lease := sat_add now (in_ttl_ms input) in
        (mkLockCtx token (install_grant m (mkGrant holder keys token lease request_id)) (lock_cancellations s),
         json! ["acquired" :- true; "queued" :- false; "keys" :- keys; "holder" :- holder;
                "fencing_token" :- token; "lease_expires_ms" :- lease; "revision" :- revision])
    end
  else
    let id := (holder, keys) in
    let already := is_some_and (Fifo.get id (queue m)) (λ w, bool_decide (w_request w = request_id)) in
    let identity_in_use := Fifo.contains id (queue m) && negb already in
    let wait_until :=
      if legacy then None
      else Some (sat_add now (default DEFAULT_WAIT_TIMEOUT_MS (in_wait_timeout_ms input))) in
    let q' := if in_wait input && negb already && negb identity_in_use
              then (Fifo.push_back id (mkQueued holder keys (in_ttl_ms input) now wait_until request_id) (queue m)).1
              else queue m in
    let position := if identity_in_use then None else S <$> Fifo.position id q' in
    let wait_expires_ms := if identity_in_use then None else (Fifo.get id q' ≫= w_expires) in
    let conflicts := filter (λ k, is_held (held m) k = true) keys in
    let is_queued := bool_decide (is_Some position) in
    (mkLockCtx (next_fencing_token s) (mkLocks (held m) (grants m) q') (lock_cancellations s),
     json! ["acquired" :- false; "queued" :- (if legacy then in_wait input && is_queued else is_queued);
            "position" :- position; "wait_expires_ms" :- wait_expires_ms; "keys" :- keys;
            "holder" :- holder; "conflicts" :- conflicts; "revision" :- revision])
  end.

Definition apply_lock_renew (s : LockCtx) (revision now : Z) (keys : list string) (holder : string)
    (fencing_token ttl_ms : Z) : LockCtx * Value :=
  let keys := canonical_keys keys in
  let m := locks s in
  match grants m !! fencing_token with
  | None => (s, json! ["renewed" :- false; "reason" :- "not_found"; "revision" :- revision])
  | Some grant =>
      if negb (bool_decide (g_holder grant = holder)) then
        (s, json! ["renewed" :- false; "reason" :- "not_holder"; "revision" :- revision])
      else if negb (bool_decide (g_keys grant = keys)) then
        (s, json! ["renewed" :- false; "reason" :- "key_mismatch"; "revision" :- revision])
      else
        let lease := Z.max (g_lease grant) (sat_add now ttl_ms) in
        (mkLockCtx (next_fencing_token s)
           (mkLocks (held m) (<[fencing_token := with_lease grant lease]> (grants m)) (queue m))
           (lock_cancellations s),
         json! ["renewed" :- true; "keys" :- keys; "holder" :- holder; "fencing_token" :- fencing_token;
                "lease_expires_ms" :- lease; "revision" :- revision])
  end.

Definition apply_lock_release (s : LockCtx) (revision now : Z) (holder : string) (fencing_token : Z) :
    LockCtx * Value :=
  match grants (locks s) !! fencing_token with
  | None => (s, json! ["released" :- false; "reason" :- "not_found"; "revision" :- revision])
  | Some grant =>
      if negb (bool_decide (g_holder grant = holder)) then
        (s, json! ["released" :- false; "reason" :- "not_holder"; "revision" :- revision])
      else
        let '(c, m, promoted) :=
          lock_promote (next_fencing_token s) (release_grant (locks s) fencing_token) now in
        (mkLockCtx c m (lock_cancellations s),
         json! ["released" :- true; "keys" :- g_keys grant; "promoted" :- promoted; "revision" :- revision])
  end.

(** The answer that reports authority the attempt already has. *)
Definition cancel_acquired (keys : list string) (holder : string) (grant : LockGrant) (revision : Z) : Value :=
  json! ["cancelled" :- false; "acquired" :- true; "keys" :- keys; "holder" :- holder;
         "fencing_token" :- g_token grant; "lease_expires_ms" :- g_lease grant; "promoted" :- JArr [];
         "revision" :- revision].

(** [apply_lock_cancel] after the tombstone step. *)
Definition lock_cancel_queued (s : LockCtx) (revision now : Z) (keys : list string) (holder : string)
    (request_id : option string) : LockCtx * Value :=
  let m := locks s in
  let id := (holder, keys) in
  let any := bool_decide (request_id = None) in
  let cancelled := is_some_and (Fifo.get id (queue m))
                     (λ w, any || bool_decide (w_request w = request_id)) in
  if negb cancelled then
    match map_find (λ g, bool_decide (g_holder g = holder) && bool_decide (g_keys g = keys)
                         && (any || bool_decide (g_request g = request_id))) (grants m) with
    | Some grant => (s, cancel_acquired keys holder grant revision)
    | None =>
        if negb any then
          (s, json! ["cancelled" :- true; "acquired" :- false; "keys" :- keys; "holder" :- holder;
                     "promoted" :- JArr []; "revision" :- revision])
        else
          (s, json! ["cancelled" :- false; "acquired" :- false; "reason" :- "not_found"; "keys" :- keys;
                     "holder" :- holder; "promoted" :- JArr []; "revision" :- revision])
    end
  else
    let '(c, m', promoted) :=
      lock_promote (next_fencing_token s) (mkLocks (held m) (grants m) (Fifo.without id (queue m))) now in
    (mkLockCtx c m' (lock_cancellations s),
     json! ["cancelled" :- true; "acquired" :- false; "keys" :- keys; "holder" :- holder;
            "promoted" :- promoted; "revision" :- revision]).

Definition apply_lock_cancel (s : LockCtx) (revision now : Z) (keys : list string) (holder : string)
    (request_id : option string) : LockCtx * Value :=
  let keys := canonical_keys keys in
  match request_id with
  | None => lock_cancel_queued s revision now keys holder None
  | Some r =>
      match map_find (λ g, bool_decide (g_holder g = holder) && bool_decide (g_keys g = keys)
                           && bool_decide (g_request g = Some r)) (grants (locks s)) with
      | Some grant => (s, cancel_acquired keys holder grant revision)
      | None =>
          match remember (lock_cancellations s) (acquisition_identity "lock" holder keys r)
                  (cancellation_tenant holder) now with
          | (_, CapacityExceeded) =>
              (s, json! ["cancelled" :- false; "acquired" :- false; "reason" :- "cancellation_capacity";
                         "keys" :- keys; "holder" :- holder; "promoted" :- JArr []; "revision" :- revision])
          | (ledger, Remembered) =>
              lock_cancel_queued (mkLockCtx (next_fencing_token s) (locks s) ledger)
                revision now keys holder (Some r)
          end
      end
  end.

(** ** Expiry (the lock part of [expire_due]) *)

Definition expire_waiters (m : LockManager) (now : Z) : LockManager :=
  let expired := (filter (λ e, waiter_is_live (w_expires e.2) now = false) (queue m)).*1 in
  mkLocks (held m) (grants m) (foldl (λ q id, Fifo.without id q) (queue m) expired).

Definition expire_grants (m : LockManager) (now : Z) : LockManager :=
  let expired := (filter (λ e, g_lease e.2 ≤ now) (map_to_list (grants m))).*1 in
  foldl release_grant m expired.

Definition locks_expire_due (s : LockCtx) (now : Z) : LockCtx :=
  let '(c, m, _) :=
    lock_promote (next_fencing_token s) (expire_grants (expire_waiters (locks s) now) now) now in
  mkLockCtx c m (expire (lock_cancellations s) now).
End commands.

(** ** Key sets *)

Definition strict (x y : string) : Prop := String.le x y ∧ x ≠ y.

Definition canonical (keys : list string) : Prop :=
  keys ≠ [] ∧ canonical_keys keys = keys.

Lemma elem_of_dedup x l : x ∈ dedup l ↔ x ∈ l.
Proof.
  induction l as [|y l IH]; [done|]. simpl. rewrite elem_of_cons, <-IH.
  destruct (dedup l) as [|z d]; [by rewrite elem_of_cons|].
  destruct (String.eqb_spec y z) as [->|]; rewrite !elem_of_cons; tauto.
Qed.

Lemma dedup_sorted l : StronglySorted String.le l → StronglySorted strict (dedup l).
Proof.
  induction l as [|x l IH]; intros Hs; [constructor|]. simpl.
  apply StronglySorted_cons in Hs as [Hx Hs]. specialize (IH Hs).
  assert (Hx' : ∀ y, y ∈ dedup l → String.le x y).
  { rewrite Forall_forall in Hx. intros y Hy. rewrite elem_of_dedup in Hy. by apply Hx. }
  destruct (dedup l) as [|z d]; [repeat constructor|].
  destruct (String.eqb_spec x z) as [->|Hne]; [done|]. constructor; [done|].
  apply Forall_forall. intros y Hy. split; [by apply Hx'|]. intros ->.
  apply StronglySorted_cons in IH as [Hz _]. apply elem_of_cons in Hy as [->|Hy]; [done|].
  rewrite Forall_forall in Hz. destruct (Hz _ Hy) as [Hzx _]. apply Hne.
  apply (anti_symm String.le); [|done]. apply Hx'. left.
Qed.

Lemma dedup_id l : StronglySorted strict l → dedup l = l.
Proof.
  induction l as [|x l IH]; intros Hs; [done|]. simpl.
  apply StronglySorted_cons in Hs as [Hx Hs]. rewrite (IH Hs).
  destruct l as [|y l]; [done|]. apply Forall_cons in Hx as [[_ Hne] _].
  by destruct (String.eqb_spec x y).
Qed.

Lemma canonical_keys_sorted ks : StronglySorted strict (canonical_keys ks).
Proof. apply dedup_sorted, StronglySorted_merge_sort; apply _. Qed.

Lemma elem_of_canonical_keys k ks : k ∈ canonical_keys ks ↔ k ∈ ks ∧ k ≠ "".
Proof.
  unfold canonical_keys. rewrite elem_of_dedup, merge_sort_Permutation, list_elem_of_filter. tauto.
Qed.

Lemma length_dedup l : (length (dedup l) ≤ length l)%nat.
Proof. induction l as [|x l IH]; simpl; [done|]. destruct (dedup l); [simpl; lia|]. case_match; simpl in *; lia. Qed.

Lemma length_canonical_keys ks : (length (canonical_keys ks) ≤ length ks)%nat.
Proof.
  unfold canonical_keys. etrans; [apply length_dedup|]. rewrite merge_sort_Permutation. apply length_filter.
Qed.

Lemma canonical_keys_idemp ks : canonical_keys (canonical_keys ks) = canonical_keys ks.
Proof.
  pose proof (canonical_keys_sorted ks) as Hs.
  assert (Hf : filter (λ k, k ≠ "") (canonical_keys ks) = canonical_keys ks).
  { apply filter_all. intros k Hk. by apply elem_of_canonical_keys in Hk as [_ ?]. }
  unfold canonical_keys at 1. rewrite Hf. rewrite <-(dedup_id _ Hs) at 2. f_equal.
  apply (StronglySorted_unique String.le).
  - apply StronglySorted_merge_sort; apply _.
  - clear Hf. induction Hs as [|x l Hs IH Hx]; constructor; [done|].
    eapply Forall_impl; [done|]. by intros y [? _].
  - apply merge_sort_Permutation.
Qed.

Lemma canonical_canonical_keys ks : canonical_keys ks ≠ [] → canonical (canonical_keys ks).
Proof. split; [done|apply canonical_keys_idemp]. Qed.

Lemma canonical_NoDup ks : canonical ks → NoDup ks.
Proof.
  intros [_ <-]. pose proof (canonical_keys_sorted ks) as Hs.
  induction Hs as [|x l Hs IH Hx]; constructor; [|done].
  rewrite Forall_forall in Hx. intros Hin. by destruct (Hx _ Hin).
Qed.

(** ** The lock table invariant *)

Record lock_inv (c : Z) (m : LockManager) : Prop := {
  (** Every held key belongs to a live grant over that key. *)
  li_held k t : held m !! k = Some t → ∃ g, grants m !! t = Some g ∧ k ∈ g_keys g;
  (** Every grant is stored under its token, holds its whole canonical key set,
      and its token was issued by the counter. *)
  li_grant t g : grants m !! t = Some g → g_token g = t ∧ 0 < t ≤ c ∧ canonical (g_keys g);
  li_union t g k : grants m !! t = Some g → k ∈ g_keys g → held m !! k = Some t;
  (** Queue entries are indexed by their own holder and canonical key set. *)
  li_queue : Fifo.wf (queue m);
  li_entry id w : (id, w) ∈ queue m → id = (w_holder w, w_keys w) ∧ canonical (w_keys w);
  (** No attempt is both granted and queued. *)
  li_attempt t g id w : grants m !! t = Some g → (id, w) ∈ queue m →
    g_holder g = w_holder w → g_keys g = w_keys w → g_request g ≠ w_request w
}.

Lemma lock_inv_empty c : lock_inv c no_locks.
Proof. split; simpl; try done; [constructor|set_solver]. Qed.

Lemma lock_inv_counter c c' m : lock_inv c m → c ≤ c' → lock_inv c' m.
Proof.
  intros I Hc. destruct I as [Hh Hg Hu Hq He Ha]. split; try done.
  intros t g Ht. destruct (Hg t g Ht) as (? & ? & ?). split_and!; done || lia.
Qed.

(** Two grants never share a key. *)
Lemma grants_disjoint c m t1 t2 g1 g2 k :
  lock_inv c m → grants m !! t1 = Some g1 → grants m !! t2 = Some g2 →
  k ∈ g_keys g1 → k ∈ g_keys g2 → t1 = t2.
Proof.
  intros I H1 H2 K1 K2. pose proof (li_union _ _ I _ _ _ H1 K1).
  pose proof (li_union _ _ I _ _ _ H2 K2). congruence.
Qed.

Lemma grant_first_key c m t g : lock_inv c m → grants m !! t = Some g → ∃ k, k ∈ g_keys g.
Proof.
  intros I Hg. destruct (li_grant _ _ I _ _ Hg) as (_ & _ & [Hne _]).
  destruct (g_keys g) as [|k ks]; [done|]. exists k. left.
Qed.

Lemma lookup_hold_keys ks t h k :
  hold_keys ks t h !! k = if decide (k ∈ ks) then Some t else h !! k.
Proof.
  unfold hold_keys. revert h. induction ks as [|k' ks IH]; intros h; simpl.
  - done.
  - rewrite IH. destruct (decide (k ∈ ks)).
    + by rewrite decide_True by by right.
    + rewrite lookup_insert. case_decide as E.
      * subst. by rewrite decide_True by left.
      * rewrite decide_False; [done|]. rewrite elem_of_cons. by intros [->|?].
Qed.

Lemma lookup_free_keys ks t h k :
  free_keys ks t h !! k = if decide (k ∈ ks ∧ h !! k = Some t) then None else h !! k.
Proof.
  unfold free_keys. revert h. induction ks as [|k' ks IH]; intros h; simpl.
  - done.
  - rewrite IH. case_bool_decide as B.
    + destruct (decide (k = k')) as [->|Hne].
      * rewrite lookup_delete_eq, (decide_True _ _ (P := k' ∈ k' :: ks ∧ h !! k' = Some t))
          by (split; [left|done]). by case_decide.
      * rewrite lookup_delete_ne by done.
        destruct (decide (k ∈ ks ∧ _)) as [[? ?]|N];
          destruct (decide (k ∈ k' :: ks ∧ _)) as [[Hin ?]|N']; try done.
        -- destruct N'. split; [by right|done].
        -- apply elem_of_cons in Hin as [?|?]; [done|]. by destruct N.
    + destruct (decide (k ∈ ks ∧ _)) as [[? ?]|N];
        destruct (decide (k ∈ k' :: ks ∧ _)) as [[Hin ?]|N']; try done.
      * destruct N'. split; [by right|done].
      * apply elem_of_cons in Hin as [->|?]; [done|]. by destruct N.
Qed.

Lemma is_held_true h k : is_held h k = true ↔ is_Some (h !! k).
Proof. apply bool_decide_eq_true. Qed.

Lemma is_held_false h k : is_held h k = false ↔ h !! k = None.
Proof. unfold is_held. rewrite bool_decide_eq_false. symmetry. apply eq_None_not_Some. Qed.

(** *** Grants in and out *)

Lemma install_grant_inv c m holder ks t lease rid :
  lock_inv c m → c < t → 0 ≤ c → canonical ks →
  (∀ k, k ∈ ks → held m !! k = None) →
  (∀ id w, (id, w) ∈ queue m → holder = w_holder w → ks = w_keys w → rid ≠ w_request w) →
  lock_inv t (install_grant m (mkGrant holder ks t lease rid)).
Proof.
  intros I Hct Hc Hks Hfree Hatt.
  assert (Hnew : grants m !! t = None).
  { destruct (grants m !! t) as [g|] eqn:E; [|done].
    destruct (li_grant _ _ I _ _ E) as (_ & ? & _). lia. }
  split; simpl.
  - intros k t'. rewrite lookup_hold_keys. case_decide.
    + intros [= <-]. rewrite lookup_insert_eq. by eexists.
    + intros Hk. destruct (li_held _ _ I _ _ Hk) as (g & Hg & ?).
      rewrite lookup_insert_ne by congruence. by exists g.
  - intros t' g. rewrite lookup_insert. case_decide.
    + intros [= <-]. simpl. split_and!; done || lia.
    + intros Hg. destruct (li_grant _ _ I _ _ Hg) as (? & ? & ?). split_and!; done || lia.
  - intros t' g k. rewrite lookup_insert, lookup_hold_keys. case_decide; subst.
    + intros [= <-] Hk. simpl in Hk. by rewrite decide_True.
    + intros Hg Hk. pose proof (li_union _ _ I _ _ _ Hg Hk) as Hh.
      rewrite decide_False; [done|]. intros Hin%Hfree. congruence.
  - apply I.
  - apply I.
  - intros t' g id w. rewrite lookup_insert. case_decide.
    + intros [= <-]. simpl. intros Hin ? ?. by eapply Hatt.
    + intros Hg. by eapply I.
Qed.

Lemma release_grant_inv c m t : lock_inv c m → lock_inv c (release_grant m t).
Proof.
  intros I. unfold release_grant. destruct (grants m !! t) as [g|] eqn:Eg; [|done].
  split; simpl.
  - intros k t'. rewrite lookup_free_keys. case_decide as E; [done|].
    intros Hk. destruct (li_held _ _ I _ _ Hk) as (g' & Hg' & Hin).
    destruct (decide (t = t')) as [->|Hne]; [|by rewrite lookup_delete_ne by done; exists g'].
    destruct E. split; [|done]. congruence.
  - intros t' g'. rewrite lookup_delete. case_decide; [done|]. apply I.
  - intros t' g' k. rewrite lookup_delete, lookup_free_keys. case_decide; [done|].
    intros Hg' Hk. pose proof (li_union _ _ I _ _ _ Hg' Hk) as Hh.
    rewrite decide_False; [done|]. intros [_ ?]. congruence.
  - apply I.
  - apply I.
  - intros t' g' id w. rewrite lookup_delete. case_decide; [done|]. apply I.
Qed.

Lemma with_lease_inv c m t g lease :
  lock_inv c m → grants m !! t = Some g →
  lock_inv c (mkLocks (held m) (<[t := with_lease g lease]> (grants m)) (queue m)).
Proof.
  intros I Hg. split; simpl; [|..|apply I|apply I|].
  - intros k t' Hk. destruct (li_held _ _ I _ _ Hk) as (g' & Hg' & ?).
    rewrite lookup_insert. case_decide; [|by exists g'].
    subst. simplify_eq. by exists (with_lease g lease).
  - intros t' g'. rewrite lookup_insert. case_decide; [|apply I].
    intros [= <-]. subst. exact (li_grant _ _ I t' g Hg).
  - intros t' g' k. rewrite lookup_insert. case_decide; [|apply I].
    intros [= <-]. subst. exact (li_union _ _ I t' g k Hg).
  - intros t' g' id w. rewrite lookup_insert. case_decide; [|apply I].
    intros [= <-]. subst. simpl. by apply (li_attempt _ _ I t' g).
Qed.

(** Changing only the queue. *)
Lemma queue_inv c m q :
  lock_inv c m → Fifo.wf q →
  (∀ id w, (id, w) ∈ q → (id, w) ∈ queue m ∨
     (id = (w_holder w, w_keys w) ∧ canonical (w_keys w) ∧
      ∀ t g, grants m !! t = Some g → g_holder g = w_holder w → g_keys g = w_keys w →
             g_request g ≠ w_request w)) →
  lock_inv c (mkLocks (held m) (grants m) q).
Proof.
  intros I Hwf Hq. split; simpl; [apply I..|done| |].
  - intros id w [Hin|(-> & ? & _)]%Hq; [by apply I|done].
  - intros t g id w Hg [Hin|(-> & _ & Hatt)]%Hq; [by eapply I|eauto].
Qed.

Lemma subqueue_inv c m q :
  lock_inv c m → q `sublist_of` queue m → lock_inv c (mkLocks (held m) (grants m) q).
Proof.
  intros I Hsub. apply queue_inv; [done| |].
  - eapply sublist_NoDup; [apply I|]. by apply fmap_sublist.
  - intros id w Hin. left. by eapply elem_of_sublist.
Qed.

(** ** Waiting and promotion *)

(** An entry behind the entries [q1] has to wait: one of its keys is held or
    reserved by an entry ahead of it. *)
Definition waits_on (h : gmap string Z) (q1 : fifo lock_id QueuedLock) (w : QueuedLock) : Prop :=
  ∃ k, k ∈ w_keys w ∧ (is_Some (h !! k) ∨ ∃ e, e ∈ q1 ∧ k ∈ w_keys e.2).

(** Every queued request has to wait. *)
Definition all_waiting (h : gmap string Z) (q : fifo lock_id QueuedLock) : Prop :=
  ∀ q1 id w q2, q = q1 ++ (id, w) :: q2 → waits_on h q1 w.

(** No promotion is left to do, unless the token space is exhausted. *)
Definition settled (c : Z) (m : LockManager) : Prop :=
  all_waiting (held m) (queue m) ∨ MAX_FENCING_TOKEN ≤ c.

Lemma first_grantable_from_spec h r q q0 :
  (∀ k, k ∈ r ↔ ∃ e, e ∈ q0 ∧ k ∈ w_keys e.2) →
  match first_grantable_from h r q with
  | Some id => ∃ q1 w q2, q = q1 ++ (id, w) :: q2 ∧ ¬ waits_on h (q0 ++ q1) w
  | None => ∀ q1 id w q2, q = q1 ++ (id, w) :: q2 → waits_on h (q0 ++ q1) w
  end.
Proof.
  revert r q0. induction q as [|[id w] q IH]; intros r q0 Hr; simpl.
  - by intros [|] ? ? ?.
  - destruct (existsb _ _) eqn:E.
    + assert (Hw : waits_on h q0 w).
      { apply existsb_exists in E as (k & Hk%list_elem_of_In & Hb). exists k. split; [done|].
        bools. destruct Hb as [Hb|Hb]; bools; [left; by apply is_held_true|right; by apply Hr]. }
      specialize (IH (list_to_set (w_keys w) ∪ r) (q0 ++ [(id, w)])).
      assert (Hr' : ∀ k, k ∈ (list_to_set (w_keys w) ∪ r : gset string) ↔
                ∃ e, e ∈ q0 ++ [(id, w)] ∧ k ∈ w_keys e.2).
      { intros k. rewrite elem_of_union, elem_of_list_to_set, Hr. split.
        - intros [?|(e & ? & ?)]; [exists (id, w)|exists e]; rewrite elem_of_app; split; try done.
          + right. left.
          + by left.
        - intros (e & [?| ->%list_elem_of_singleton]%elem_of_app & ?); [right; by exists e|by left]. }
      specialize (IH Hr'). destruct (first_grantable_from _ _ q) as [id'|].
      * destruct IH as (q1 & w' & q2 & -> & Hn). exists ((id, w) :: q1), w', q2.
        rewrite <-app_assoc in Hn. done.
      * intros [|e q1] id' w' q2 [= ? ?]; subst; [by rewrite app_nil_r|].
        specialize (IH _ _ _ _ eq_refl). by rewrite <-app_assoc in IH.
    + exists [], w, q. split; [done|]. rewrite app_nil_r. intros (k & Hk & Hw).
      assert (Hf : existsb (λ k, is_held h k || bool_decide (k ∈ r)) (w_keys w) = true); [|congruence].
      apply existsb_exists. exists k. split; [by apply list_elem_of_In|].
      apply orb_true_iff. destruct Hw as [Hw|Hw]; [left; by apply is_held_true|].
      right. by apply bool_decide_eq_true, Hr.
Qed.

Lemma lock_first_grantable_spec m :
  match lock_first_grantable m with
  | Some id => ∃ q1 w q2, queue m = q1 ++ (id, w) :: q2 ∧ ¬ waits_on (held m) q1 w
  | None => all_waiting (held m) (queue m)
  end.
Proof. apply (first_grantable_from_spec (held m) ∅ (queue m) []). set_solver. Qed.

(** One round of the promotion loop, as a transition. *)
Inductive promote_step (now : Z) : Z * LockManager → Z * LockManager → Prop :=
| promote_one c m q1 id w q2 :
    queue m = q1 ++ (id, w) :: q2 → ¬ waits_on (held m) q1 w → c < MAX_FENCING_TOKEN →
    promote_step now (c, m)
      (c + 1, install_grant (mkLocks (held m) (grants m) (q1 ++ q2)) (promoted_grant w (c + 1) now)).

Lemma lock_promote_loop_steps fuel c m now vs :
  Fifo.wf (queue m) → (length (queue m) ≤ fuel)%nat →
  let '(c', m', _) := lock_promote_loop fuel c m now vs in
  rtc (promote_step now) (c, m) (c', m') ∧ settled c' m'.
Proof.
  revert c m vs. induction fuel as [|fuel IH]; intros c m vs Hwf Hlen; simpl.
  - split; [done|]. left. destruct (queue m); [by intros [|] ? ? ?|simpl in *; lia].
  - pose proof (lock_first_grantable_spec m) as Hs.
    destruct (lock_first_grantable m) as [id|]; [|by split; [|left]].
    destruct Hs as (q1 & w & q2 & Hq & Hw).
    destruct (next_token c) as [t|] eqn:Et; [|split; [done|right; by apply next_token_None]].
    apply next_token_Some in Et as [-> Hc].
    rewrite (proj2 (Fifo.get_Some id w (queue m) Hwf)) by (rewrite Hq; apply elem_of_app; right; left).
    assert (Hwo : Fifo.without id (queue m) = q1 ++ q2).
    { rewrite Hq. apply Fifo.without_middle. by rewrite <-Hq. }
    specialize (IH (c + 1) (install_grant (mkLocks (held m) (grants m) (Fifo.without id (queue m)))
      (promoted_grant w (c + 1) now)) (vs ++ [promoted_value (promoted_grant w (c + 1) now)])).
    destruct (lock_promote_loop fuel _ _ _ _) as [[c' m'] vs'].
    destruct IH as [Hrtc Hset]; [simpl; by apply Fifo.wf_without| |].
    { simpl. pose proof (Fifo.length_without_lt id w (queue m)) as Hlt.
      rewrite Hq in Hlt at 1. specialize (Hlt ltac:(apply elem_of_app; right; left)). lia. }
    split; [|done]. eapply rtc_l; [|exact Hrtc]. rewrite Hwo. by econstructor.
Qed.

(** The promotion loop always ends, within the fuel the length of the queue
    gives it, in a settled table reached by promotion steps. *)
Lemma lock_promote_steps c m now :
  Fifo.wf (queue m) →
  let '(c', m', _) := lock_promote c m now in
  rtc (promote_step now) (c, m) (c', m') ∧ settled c' m'.
Proof. intros Hwf. by apply lock_promote_loop_steps. Qed.

Lemma promote_step_inv now c m c' m' :
  promote_step now (c, m) (c', m') → 0 ≤ c → lock_inv c m → lock_inv c' m' ∧ c < c'.
Proof.
  inversion 1 as [? ? q1 id w q2 Hq Hw Hc]; subst. intros Hpos I. split; [|lia].
  assert (Hin : (id, w) ∈ queue m) by (rewrite Hq; apply elem_of_app; right; left).
  destruct (li_entry _ _ I _ _ Hin) as [Hid Hcan].
  assert (I' : lock_inv c (mkLocks (held m) (grants m) (q1 ++ q2))).
  { apply subqueue_inv; [done|]. rewrite Hq. apply sublist_app; [done|]. by apply sublist_cons. }
  apply (install_grant_inv c); [done|lia|done|done| |]; simpl.
  - intros k Hk. apply eq_None_not_Some. intros Hs. apply Hw. exists k. by split; [|left].
  - intros id' w' Hin' Hh Hk _. pose proof (li_queue _ _ I) as Hwf. unfold Fifo.wf in Hwf.
    rewrite Hq, fmap_app, fmap_cons in Hwf. apply NoDup_middle in Hwf as [Hni _]. simpl in Hni.
    destruct (li_entry _ _ I' _ _ Hin') as [Hid' _]. apply Hni. rewrite <-fmap_app.
    apply list_elem_of_fmap. exists (id', w'). simpl. split; [congruence|done].
Qed.

Lemma promote_steps_inv now s s' :
  rtc (promote_step now) s s' → 0 ≤ s.1 → lock_inv s.1 s.2 → lock_inv s'.1 s'.2 ∧ s.1 ≤ s'.1.
Proof.
  induction 1 as [|[c1 m1] [c2 m2] s3 Hstep _ IH]; intros Hpos I; [done|]. simpl in *.
  destruct (promote_step_inv _ _ _ _ _ Hstep Hpos I) as [I2 Hlt].
  destruct (IH ltac:(lia) I2). split; [done|lia].
Qed.

Lemma lock_promote_inv c m now :
  0 ≤ c → lock_inv c m →
  let '(c', m', _) := lock_promote c m now in lock_inv c' m' ∧ c ≤ c' ∧ settled c' m'.
Proof.
  intros Hpos I. pose proof (lock_promote_steps c m now (li_queue _ _ I)) as Hs.
  destruct (lock_promote c m now) as [[c' m'] vs]. destruct Hs as [Hrtc Hset].
  destruct (promote_steps_inv _ _ _ Hrtc Hpos I). done.
Qed.

(** ** The commands keep the invariant *)

Record lock_ctx_inv (s : LockCtx) : Prop := {
  lc_counter : 0 ≤ next_fencing_token s;
  lc_locks : lock_inv (next_fencing_token s) (locks s);
  lc_ledger : ledger_inv (lock_cancellations s);
  lc_settled : settled (next_fencing_token s) (locks s)
}.

Lemma waits_on_mono h h' q1 q1' w :
  (∀ k, is_Some (h !! k) → is_Some (h' !! k)) → (∀ e, e ∈ q1 → e ∈ q1') →
  waits_on h q1 w → waits_on h' q1' w.
Proof.
  intros Hh Hq (k & Hk & [?|(e & ? & ?)]); exists k; (split; [done|]).
  - left. auto.
  - right. exists e. auto.
Qed.

Lemma all_waiting_held h h' q :
  (∀ k, is_Some (h !! k) → is_Some (h' !! k)) → all_waiting h q → all_waiting h' q.
Proof. intros Hh Hq q1 id w q2 E. by eapply waits_on_mono; [..|eapply Hq]. Qed.

Lemma all_waiting_snoc h q id w :
  all_waiting h q → waits_on h q w → all_waiting h (q ++ [(id, w)]).
Proof.
  intros Hq Hw q1 id' w' q2 E.
  destruct q2 as [|e q2 _] using rev_ind.
  - apply app_inj_tail in E as [-> [= <- <-]]. done.
  - rewrite app_comm_cons, app_assoc in E. apply app_inj_tail in E as [-> _]. by eapply Hq.
Qed.

Lemma settled_counter c c' m : settled c m → c ≤ c' → settled c' m.
Proof. intros [?|?] ?; [by left|right; lia]. Qed.

Lemma elem_of_reserved_keys m k : k ∈ reserved_keys m ↔ ∃ e, e ∈ queue m ∧ k ∈ w_keys e.2.
Proof.
  unfold reserved_keys. rewrite elem_of_list_to_set, list_elem_of_bind. split.
  - intros (e & ? & ?). by exists e.
  - intros (e & ? & ?). by exists e.
Qed.

(** Not blocked: no key is held and no queued request wants one. *)
Lemma unblocked m keys :
  negb (blocked_by_held m keys) && negb (blocked_by_queue m keys) = true ↔
  ∀ k, k ∈ keys → held m !! k = None ∧ ∀ e, e ∈ queue m → k ∉ w_keys e.2.
Proof.
  unfold blocked_by_held, blocked_by_queue.
  rewrite andb_true_iff, !negb_true_iff, <-!not_true_iff_false, !existsb_exists. split.
  - intros [Hh Hq] k Hk. apply list_elem_of_In in Hk. split.
    + apply is_held_false, not_true_iff_false. intros Hb. apply Hh. eauto.
    + intros e He Hke. apply Hq. exists k. split; [done|].
      apply bool_decide_eq_true, elem_of_reserved_keys. eauto.
  - intros Hall. split; intros (k & Hk%list_elem_of_In & Hb); destruct (Hall k Hk) as [Hh Hq].
    + apply is_held_true in Hb as [? ?]. congruence.
    + apply bool_decide_eq_true, elem_of_reserved_keys in Hb as (e & ? & ?). by eapply Hq.
Qed.

Lemma blocked_waits m keys w :
  negb (blocked_by_held m keys) && negb (blocked_by_queue m keys) = false → w_keys w = keys →
  waits_on (held m) (queue m) w.
Proof.
  unfold blocked_by_held, blocked_by_queue. intros Hb <-.
  rewrite andb_false_iff, !negb_false_iff, !existsb_exists in Hb.
  destruct Hb as [(k & Hk%list_elem_of_In & Hb)|(k & Hk%list_elem_of_In & Hb)]; exists k; (split; [done|]).
  - left. by apply is_held_true.
  - right. by apply bool_decide_eq_true, elem_of_reserved_keys in Hb.
Qed.

Lemma existing_grant_Some m keys holder rid legacy tok g :
  existing_grant m keys holder rid legacy = Some (tok, g) →
  grants m !! tok = Some g ∧ g_holder g = holder ∧ g_keys g = keys ∧ (legacy = false → g_request g = rid).
Proof.
  unfold existing_grant. destruct keys as [|k0 ks]; [done|]. simpl.
  destruct (held m !! k0) as [t|]; [|done]. simpl.
  destruct (grants m !! t) as [g'|] eqn:Eg; [|done]. simpl.
  destruct (_ && _) eqn:B; [|done]. intros [= <- <-]. bools.
  split_and!; try done. intros ->. by destruct_or!; bools.
Qed.

(** With the invariant, the lookup through the first key misses no grant of
    the attempt. *)
Lemma existing_grant_None c m keys holder rid t g :
  lock_inv c m → existing_grant m keys holder rid false = None →
  grants m !! t = Some g → g_holder g = holder → g_keys g = keys → g_request g ≠ rid.
Proof.
  unfold existing_grant. intros I He Hg Hh Hk Hr.
  destruct (li_grant _ _ I _ _ Hg) as (_ & _ & [Hne _]).
  destruct keys as [|k0 ks]; [by rewrite Hk in Hne|].
  assert (Hheld : held m !! k0 = Some t) by (eapply li_union; [done..|rewrite Hk; left]).
  simpl in He. rewrite Hheld in He. simpl in He. rewrite Hg in He. simpl in He.
  by rewrite !bool_decide_eq_true_2 in He by done.
Qed.

Lemma existing_grant_legacy m keys holder rid :
  existing_grant m keys holder rid true = None → existing_grant m keys holder rid false = None.
Proof.
  unfold existing_grant. destruct keys as [|k0 ks]; [done|]. simpl.
  destruct (held m !! k0); [|done]. simpl. destruct (grants m !! _); [|done]. simpl.
  rewrite !andb_true_r. destruct (_ && _); done.
Qed.

Section preservation.
Context `{External}.

Lemma acquire_inv s revision now input :
  lock_ctx_inv s →
  let s' := (apply_lock_acquire s revision now input).1 in
  lock_ctx_inv s' ∧ next_fencing_token s ≤ next_fencing_token s'.
Proof.
  intros [Hc I L S]. unfold apply_lock_acquire.
  case_bool_decide as Hne; [done|]. apply canonical_canonical_keys in Hne as Hcan.
  set (keys := canonical_keys (in_keys input)) in *.
  destruct (is_some_and _ _); [done|].
  destruct (existing_grant _ _ _ _ _) as [[tok g]|] eqn:Eg.
  { apply existing_grant_Some in Eg as (Hg & _). simpl. split; [|lia].
    destruct (in_legacy_semantics input); split; simpl; try done. by apply with_lease_inv. }
  assert (Eg' : existing_grant (locks s) keys (in_holder input) (in_request_id input) false = None).
  { destruct (in_legacy_semantics input); [by apply existing_grant_legacy|done]. }
  pose proof (λ t g, existing_grant_None _ _ _ _ _ t g I Eg') as Hnot.
  destruct (negb _ && negb _) eqn:Hb.
  - pose proof (proj1 (unblocked _ _) Hb) as Hun.
    destruct (next_token _) as [t|] eqn:Et; [|done]. apply next_token_Some in Et as [-> Hmax].
    simpl. split; [|lia]. split; simpl; try done; [lia| |].
    + apply (install_grant_inv (next_fencing_token s)); try done; [lia| |].
      * intros k Hk. by apply Hun.
      * intros id w Hin _ Hk _. destruct Hcan as [Hk0 _]. destruct keys as [|k0 ks]; [done|].
        destruct (Hun k0 ltac:(left)) as [_ Hq]. apply (Hq _ Hin). simpl. rewrite <-Hk. left.
    + destruct S as [S|]; [|right; lia]. left. simpl. eapply all_waiting_held; [|done].
      intros k [t Ht]. rewrite lookup_hold_keys. case_decide; [by eexists|by rewrite Ht].
  - simpl. split; [|lia]. split; simpl; try done.
    + destruct (_ && _ && _) eqn:Hpush; [|by apply queue_inv; [done|apply I|auto]].
      apply queue_inv; [done|apply Fifo.wf_push_back, I|]. intros id w.
      unfold Fifo.push_back. destruct (Fifo.contains _ _); [by left|]. simpl.
      intros [?|[= -> ->]%list_elem_of_singleton]%elem_of_app; [by left|]. right. simpl.
      split_and!; done.
    + destruct S as [S|]; [|by right]. left. simpl.
      destruct (_ && _ && _) eqn:Hpush; [|done].
      unfold Fifo.push_back. destruct (Fifo.contains _ _); [done|]. simpl.
      apply all_waiting_snoc; [done|]. by eapply blocked_waits.
Qed.

Lemma renew_inv s revision now keys holder tok ttl :
  lock_ctx_inv s →
  let s' := (apply_lock_renew s revision now keys holder tok ttl).1 in
  lock_ctx_inv s' ∧ next_fencing_token s ≤ next_fencing_token s'.
Proof.
  intros [Hc I L S]. unfold apply_lock_renew.
  destruct (grants _ !! tok) as [g|] eqn:Eg; [|done]. do 2 (destruct (negb _); [done|]).
  simpl. split; [|lia]. split; simpl; try done. by apply with_lease_inv.
Qed.

Lemma promote_ctx_inv c m led now :
  0 ≤ c → lock_inv c m → ledger_inv led →
  let '(c', m', _) := lock_promote c m now in lock_ctx_inv (mkLockCtx c' m' led) ∧ c ≤ c'.
Proof.
  intros Hc I L. pose proof (lock_promote_inv c m now Hc I) as Hp.
  destruct (lock_promote c m now) as [[c' m'] vs]. destruct Hp as (I' & ? & ?).
  split; [|done]. split; simpl; done || lia.
Qed.

Lemma release_inv s revision now holder tok :
  lock_ctx_inv s →
  let s' := (apply_lock_release s revision now holder tok).1 in
  lock_ctx_inv s' ∧ next_fencing_token s ≤ next_fencing_token s'.
Proof.
  intros [Hc I L S]. unfold apply_lock_release.
  destruct (grants _ !! tok) as [g|] eqn:Eg; [|done]. destruct (negb _); [done|].
  pose proof (promote_ctx_inv _ _ (lock_cancellations s) now Hc (release_grant_inv _ _ tok I) L) as Hp.
  by destruct (lock_promote _ _ _) as [[c' m'] vs].
Qed.

Lemma without_inv c m id :
  lock_inv c m → lock_inv c (mkLocks (held m) (grants m) (Fifo.without id (queue m))).
Proof. intros I. apply subqueue_inv; [done|]. apply sublist_filter. Qed.

Lemma cancel_queued_inv s revision now keys holder rid :
  lock_ctx_inv s →
  let s' := (lock_cancel_queued s revision now keys holder rid).1 in
  lock_ctx_inv s' ∧ next_fencing_token s ≤ next_fencing_token s'.
Proof.
  intros Hs. pose proof Hs as [Hc I L S]. unfold lock_cancel_queued. destruct (negb _).
  - destruct (map_find _ _); [done|]. destruct (negb _); done.
  - pose proof (promote_ctx_inv _ _ (lock_cancellations s) now Hc (without_inv _ _ (holder, keys) I) L) as Hp.
    by destruct (lock_promote _ _ _) as [[c' m'] vs].
Qed.

Lemma cancel_inv s revision now keys holder rid :
  lock_ctx_inv s →
  let s' := (apply_lock_cancel s revision now keys holder rid).1 in
  lock_ctx_inv s' ∧ next_fencing_token s ≤ next_fencing_token s'.
Proof.
  intros Hs. unfold apply_lock_cancel. destruct rid as [r|]; [|by apply cancel_queued_inv].
  destruct (map_find _ _); [done|].
  pose proof (remember_inv (lock_cancellations s) (acquisition_identity "lock" holder (canonical_keys keys) r)
    (cancellation_tenant holder) now CANCELLATION_LIMITS (lc_ledger _ Hs)) as L.
  unfold remember. destruct (remember_with_limits _ _ _ _ _) as [led [|]]; [|done].
  apply (cancel_queued_inv (mkLockCtx (next_fencing_token s) (locks s) led)).
  destruct Hs. by split.
Qed.
End preservation.

(** ** Expiry *)

Lemma foldl_without (q : fifo lock_id QueuedLock) ids :
  foldl (λ q id, Fifo.without id q) q ids = filter (λ e, e.1 ∉ ids) q.
Proof.
  revert q. induction ids as [|id ids IH]; intros q; simpl.
  - symmetry. apply filter_all. intros e _. apply not_elem_of_nil.
  - rewrite IH. unfold Fifo.without. rewrite list_filter_filter. apply list_filter_iff.
    intros e. rewrite not_elem_of_cons. tauto.
Qed.

(** Exactly the live waiters stay, in their order. *)
Lemma expire_waiters_queue m now :
  Fifo.wf (queue m) →
  queue (expire_waiters m now) = filter (λ e, waiter_is_live (w_expires e.2) now = true) (queue m).
Proof.
  intros Hwf. unfold expire_waiters. simpl. rewrite foldl_without.
  apply filter_ext_in. intros [id w] Hin. rewrite list_elem_of_fmap. simpl. split.
  - intros Hn. apply not_false_iff_true. intros Hf. apply Hn. exists (id, w).
    by rewrite list_elem_of_filter.
  - intros Hl ([id' w'] & -> & [Hf Hin']%list_elem_of_filter). simpl in *.
    apply (Fifo.get_Some _ _ _ Hwf) in Hin, Hin'. congruence.
Qed.

Lemma foldl_release_queue ts m : queue (foldl release_grant m ts) = queue m.
Proof.
  revert m. induction ts as [|t ts IH]; intros m; simpl; [done|]. rewrite IH. unfold release_grant. by case_match.
Qed.

Lemma foldl_release_inv ts c m : lock_inv c m → lock_inv c (foldl release_grant m ts).
Proof. revert m. induction ts; simpl; eauto using release_grant_inv. Qed.

Lemma release_grants_lookup m t t' :
  grants (release_grant m t) !! t' = if decide (t' = t) then None else grants m !! t'.
Proof.
  unfold release_grant. destruct (grants m !! t) as [g|] eqn:E; simpl.
  - rewrite lookup_delete. do 2 case_decide; congruence.
  - case_decide; congruence.
Qed.

Lemma foldl_release_grants ts m t :
  grants (foldl release_grant m ts) !! t = if decide (t ∈ ts) then None else grants m !! t.
Proof.
  revert m. induction ts as [|t0 ts IH]; intros m; simpl; [done|].
  rewrite IH, release_grants_lookup. destruct (decide (t ∈ ts)).
  - by rewrite decide_True by by right.
  - case_decide; [by rewrite decide_True by (subst; left)|].
    rewrite decide_False; [done|]. by rewrite elem_of_cons; intros [?|?].
Qed.

(** Exactly the grants with an unexpired lease stay. *)
Lemma expire_grants_grants m now :
  grants (expire_grants m now) = retain (λ _ g, now <? g_lease g) (grants m).
Proof.
  apply map_eq. intros t. unfold expire_grants. rewrite foldl_release_grants, lookup_retain.
  destruct (grants m !! t) as [g|] eqn:E; [|by case_decide].
  assert (Ht : t ∈ (filter (λ e, g_lease e.2 ≤ now) (map_to_list (grants m))).*1 ↔ g_lease g ≤ now).
  { rewrite list_elem_of_fmap. split.
    - intros ([t' g'] & -> & [Hl Hin]%list_elem_of_filter). apply elem_of_map_to_list in Hin.
      simpl in *. by simplify_eq.
    - intros Hl. exists (t, g). split; [done|]. apply list_elem_of_filter. split; [done|].
      by apply elem_of_map_to_list. }
  destruct (Z.ltb_spec now (g_lease g)); case_decide as D; rewrite Ht in D; done || lia.
Qed.

Lemma expire_inv s now :
  0 ≤ next_fencing_token s → lock_inv (next_fencing_token s) (locks s) → ledger_inv (lock_cancellations s) →
  lock_ctx_inv (locks_expire_due s now) ∧ next_fencing_token s ≤ next_fencing_token (locks_expire_due s now).
Proof.
  intros Hc I L. unfold locks_expire_due.
  assert (I' : lock_inv (next_fencing_token s) (expire_grants (expire_waiters (locks s) now) now)).
  { apply foldl_release_inv, subqueue_inv; [done|]. rewrite foldl_without. apply sublist_filter. }
  destruct (expire_spec (lock_cancellations s) now L) as [L' _].
  pose proof (promote_ctx_inv _ _ (expire (lock_cancellations s) now) now Hc I' L') as Hp.
  by destruct (lock_promote _ _ _) as [[c' m'] vs].
Qed.

(** ** FIFO order *)

Definition ahead {A} (x y : A) (q : list A) : Prop :=
  ∃ i j, (i < j)%nat ∧ q !! i = Some x ∧ q !! j = Some y.

Definition overlap (e1 e2 : lock_id * QueuedLock) : Prop :=
  ∃ k, k ∈ w_keys e1.2 ∧ k ∈ w_keys e2.2.

Lemma promote_step_ahead now c m c' m' e1 e2 :
  promote_step now (c, m) (c', m') → NoDup (queue m) → overlap e1 e2 →
  ahead e1 e2 (queue m) → e1 ∈ queue m' → ahead e1 e2 (queue m').
Proof.
  inversion 1 as [? ? q1 id w q2 Hq Hw Hc]; subst. simpl. rewrite Hq.
  intros Hnd (k & Hk1 & Hk2) (i & j & Hij & Hi & Hj) Hin.
  set (n := length q1). apply NoDup_middle in Hnd as Hnd'. destruct Hnd' as [Hni Hnd'].
  assert (Hi' : i ≠ n).
  { intros ->. unfold n in Hi. rewrite list_lookup_middle in Hi by done. simplify_eq. done. }
  assert (Hj' : j ≠ n).
  { intros ->. unfold n in Hj. rewrite list_lookup_middle in Hj by done. simplify_eq.
    apply Hw. exists k. split; [done|]. right. exists e1. split; [|done].
    apply list_elem_of_lookup. exists i. by rewrite lookup_app_l in Hi by done. }
  assert (Hmove : ∀ p x, p ≠ n → (q1 ++ (id, w) :: q2) !! p = Some x →
    (q1 ++ q2) !! (if decide (p < n)%nat then p else (p - 1)%nat) = Some x).
  { intros p x Hp Hx. case_decide.
    - rewrite lookup_app_l in Hx |- * by done. done.
    - unfold n in *. rewrite lookup_app_r in Hx |- * by lia.
      replace (p - length q1)%nat with (S (p - 1 - length q1)) in Hx by lia. done. }
  eexists _, _. split_and!; [|exact (Hmove i e1 Hi' Hi)|exact (Hmove j e2 Hj' Hj)]. do 2 case_decide; lia.
Qed.

Lemma promote_steps_sublist now s s' :
  rtc (promote_step now) s s' → queue s'.2 `sublist_of` queue s.2.
Proof.
  induction 1 as [|s1 s2 s3 Hstep _ IH]; [done|]. etrans; [exact IH|].
  destruct Hstep as [c m q1 id w q2 Hq _ _]. simpl. rewrite Hq.
  apply sublist_app; [done|]. by apply sublist_cons.
Qed.

Lemma promote_steps_ahead now s s' e1 e2 :
  rtc (promote_step now) s s' → NoDup (queue s.2) → overlap e1 e2 →
  ahead e1 e2 (queue s.2) → e1 ∈ queue s'.2 → ahead e1 e2 (queue s'.2).
Proof.
  induction 1 as [|[c1 m1] [c2 m2] s3 Hstep Hrtc IH]; intros Hnd Ho Ha Hin; [done|]. simpl in *.
  pose proof (promote_steps_sublist _ _ _ (rtc_once _ _ Hstep)) as Hsub. simpl in Hsub.
  apply IH; [by eapply sublist_NoDup|done| |done].
  eapply promote_step_ahead; [done..|]. eapply elem_of_sublist; [done|].
  by apply promote_steps_sublist in Hrtc.
Qed.
