(* ===== verification/LockTheorems.v ===== *)
(** What the union-lock commands guarantee: all-or-nothing acquisition, FIFO
    order without barging, retries that neither extend nor duplicate, exact
    rejection of stale authority, cancellation that holds, and promotion that
    leaves no grantable request waiting. *)

From S2P Require Import Prelude Json Fencing Fifo Cancellation Locks.

Section lock_theorems.
Context `{External}.

(** C21: Acquiring a union is all or nothing.  An answer [acquired] names a
    token whose grant covers the whole canonical key set for this holder, with
    every member key held by it; any other answer leaves the held keys, the
    grants and the token counter as they were. *)
Theorem lock_acquire_all_or_nothing (s : LockCtx) (revision now : Z) (input : LockAcquireInput)
    (Hinv : lock_ctx_inv s) :
  let '(s', out) := apply_lock_acquire s revision now input in
  let keys := canonical_keys (in_keys input) in
  if flag "acquired" out
  then keys ≠ [] ∧ ∃ t g,
    number "fencing_token" out = Some t ∧ grants (locks s') !! t = Some g ∧
    g_holder g = in_holder input ∧ g_keys g = keys ∧
    ∀ k, k ∈ keys → held (locks s') !! k = Some t
  else held (locks s') = held (locks s) ∧ grants (locks s') = grants (locks s) ∧
       next_fencing_token s' = next_fencing_token s.
Proof.
  pose proof (acquire_inv s revision now input Hinv) as [I' _].
  destruct Hinv as [_ I _ _]. revert I'. unfold apply_lock_acquire.
  case_bool_decide as Hne; [done|]. set (keys := canonical_keys (in_keys input)) in *.
  destruct (is_some_and _ _); [done|].
  destruct (existing_grant _ _ _ _ _) as [[tok g]|] eqn:Eg.
  - apply existing_grant_Some in Eg as (Hg & Hh & Hk & _). intros _.
    assert (Hu : ∀ k, k ∈ keys → held (locks s) !! k = Some tok)
      by (intros k Hin; eapply li_union; [exact I|exact Hg|by rewrite Hk]).
    destruct (in_legacy_semantics input); cbn; (split; [done|]).
    + eexists tok, _. split_and!; [done|apply lookup_insert_eq|done..].
    + by exists tok, g.
  - destruct (negb _ && negb _); [|done].
    destruct (next_token _) as [t|]; [|done]. intros _. cbn -[hold_keys]. split; [done|].
    eexists t, _. split_and!; [done|apply lookup_insert_eq|done|done|].
    intros k Hin. rewrite lookup_hold_keys. by rewrite decide_True.
Qed.

(** C22: A request never overtakes an earlier overlapping one.  When an
    acquire mints a new grant, its token exceeds every token the counter had
    issued, no member key was held, and no queued request wanted any of them;
    and when a promotion pass serves a queued request, every earlier request
    that overlaps it has left the queue too. *)
Theorem lock_no_barging (s : LockCtx) (revision now : Z) (input : LockAcquireInput)
    (Hinv : lock_ctx_inv s) :
  (let '(s', out) := apply_lock_acquire s revision now input in
   ∀ t, flag "acquired" out = true → number "fencing_token" out = Some t →
     grants (locks s) !! t = None →
     next_fencing_token s < t ∧ next_fencing_token s' = t ∧
     ∀ k, k ∈ canonical_keys (in_keys input) →
       held (locks s) !! k = None ∧ ∀ e, e ∈ queue (locks s) → k ∉ w_keys e.2) ∧
  (let '(_, m', _) := lock_promote (next_fencing_token s) (locks s) now in
   ∀ e1 e2, overlap e1 e2 → ahead e1 e2 (queue (locks s)) → e1 ∈ queue m' → e2 ∈ queue m').
Proof.
  pose proof Hinv as [_ I _ _]. split.
  - unfold apply_lock_acquire. case_bool_decide as Hne; [done|].
    destruct (is_some_and _ _); [done|].
    destruct (existing_grant _ _ _ _ _) as [[tok g]|] eqn:Eg.
    + apply existing_grant_Some in Eg as (Hg & _). intros t _ [= <-] Hn. congruence.
    + destruct (negb _ && negb _) eqn:Hb; [|done].
      pose proof (proj1 (unblocked _ _) Hb) as Hun.
      destruct (next_token _) as [tok|] eqn:Et; [|done]. intros t _ [= <-] _.
      apply next_token_Some in Et as [-> _]. split_and!; [lia|done|done].
  - pose proof (lock_promote_steps (next_fencing_token s) (locks s) now (li_queue _ _ I)) as Hp.
    destruct (lock_promote _ _ _) as [[c' m'] vs]. destruct Hp as [Hrtc _].
    intros e1 e2 Ho Ha Hin.
    destruct (promote_steps_ahead _ _ _ e1 e2 Hrtc) as (i & j & _ & _ & Hj); try done.
    + exact (NoDup_fmap_1 fst _ (li_queue _ _ I)).
    + apply list_elem_of_lookup. by exists j.
Qed.

(** Promotion is work conserving.  After every lock command and after
    every expiry sweep, each queued request still has to wait for a key that is
    held or wanted by an earlier request, unless the token space is exhausted. *)
Theorem lock_commands_settle (s : LockCtx) (revision now : Z) (input : LockAcquireInput)
    (keys : list string) (holder : string) (rid : option string) (tok : Z)
    (Hinv : lock_ctx_inv s) :
  let ok s' := settled (next_fencing_token s') (locks s') in
  ok (apply_lock_acquire s revision now input).1 ∧
  ok (apply_lock_renew s revision now keys holder tok (in_ttl_ms input)).1 ∧
  ok (apply_lock_release s revision now holder tok).1 ∧
  ok (apply_lock_cancel s revision now keys holder rid).1 ∧
  ok (locks_expire_due s now).
Proof.
  simpl. split_and!; apply lc_settled.
  - by apply acquire_inv.
  - by apply renew_inv.
  - by apply release_inv.
  - by apply cancel_inv.
  - destruct Hinv. by apply expire_inv.
Qed.

(** Stale authority is rejected exactly.  A renewal or a release acts
    only for the holder named by the live grant of that token (and, for a
    renewal, its exact key set); in every other case it reports failure and
    changes nothing.  A renewal never shortens a lease, and keeps the token,
    the holder, the keys and all other grants. *)
Theorem lock_authority_exact (s : LockCtx) (revision now ttl : Z) (keys : list string)
    (holder : string) (tok : Z) :
  (let '(s', out) := apply_lock_renew s revision now keys holder tok ttl in
   if flag "renewed" out
   then ∃ g lease, grants (locks s) !! tok = Some g ∧ g_holder g = holder ∧
          g_keys g = canonical_keys keys ∧ g_lease g ≤ lease ∧
          grants (locks s') = <[tok := with_lease g lease]> (grants (locks s)) ∧
          held (locks s') = held (locks s) ∧ queue (locks s') = queue (locks s)
   else s' = s ∧ ∀ g, grants (locks s) !! tok = Some g → g_holder g = holder → g_keys g ≠ canonical_keys keys) ∧
  (let '(s', out) := apply_lock_release s revision now holder tok in
   if flag "released" out
   then ∃ g, grants (locks s) !! tok = Some g ∧ g_holder g = holder
   else s' = s ∧ ∀ g, grants (locks s) !! tok = Some g → g_holder g ≠ holder).
Proof.
  split.
  - unfold apply_lock_renew. destruct (grants (locks s) !! tok) as [g|] eqn:Eg; [|done].
    case_bool_decide; simpl; [|split; [done|]; intros; by simplify_eq].
    case_bool_decide; simpl; [|split; [done|]; intros; by simplify_eq].
    eexists g, _. split_and!; [done|done|done| |reflexivity|done|done]. apply Z.le_max_l.
  - unfold apply_lock_release. destruct (grants (locks s) !! tok) as [g|] eqn:Eg; [|done].
    case_bool_decide; simpl; [|split; [done|]; intros; by simplify_eq].
    destruct (lock_promote _ _ _) as [[c m] vs]. cbn. by exists g.
Qed.

(** Releasing a lock frees the whole union at once: afterwards the token
    names no grant and no key is held under it. *)
Theorem lock_release_frees_union (s : LockCtx) (revision now : Z) (holder : string) (tok : Z)
    (Hinv : lock_ctx_inv s)
    (Hrel : flag "released" (apply_lock_release s revision now holder tok).2 = true) :
  let s' := (apply_lock_release s revision now holder tok).1 in
  grants (locks s') !! tok = None ∧ ∀ k, held (locks s') !! k ≠ Some tok.
Proof.
  pose proof (release_inv s revision now holder tok Hinv) as [[_ I' _ _] _].
  destruct Hinv as [Hc I _ _]. revert Hrel I'. simpl. unfold apply_lock_release.
  destruct (grants (locks s) !! tok) as [g|] eqn:Eg; [|done]. destruct (negb _); [done|].
  destruct (li_grant _ _ I _ _ Eg) as (_ & Ht & _).
  pose proof (lock_promote_steps (next_fencing_token s) (release_grant (locks s) tok) now
    (li_queue _ _ (release_grant_inv _ _ tok I))) as Hp.
  destruct (lock_promote _ _ _) as [[c' m'] vs]. destruct Hp as [Hrtc _]. simpl. intros _ I'.
  assert (Hnone : grants m' !! tok = None).
  { assert (Hn : grants (release_grant (locks s) tok) !! tok = None)
      by (rewrite release_grants_lookup; by rewrite decide_True).
    clear -Hrtc Hn Ht. remember (next_fencing_token s, release_grant (locks s) tok) as x eqn:Ex.
    remember (c', m') as y eqn:Ey.
    assert (Hx : tok ≤ x.1 ∧ grants x.2 !! tok = None) by (subst; simpl; split; [lia|done]).
    assert (Hy : tok ≤ y.1 ∧ grants y.2 !! tok = None); [|by subst; destruct Hy].
    clear Ex Ey Hn Ht. induction Hrtc as [|x1 x2 x3 Hstep _ IH]; [done|]. apply IH.
    destruct Hstep as [c m q1 id w q2 _ _ _]. simpl in *. destruct Hx. split; [lia|].
    rewrite lookup_insert_ne by lia. done. }
  split; [done|]. intros k Hk. destruct (li_held _ _ I' _ _ Hk) as (g' & Hg' & _). simpl in *. congruence.
Qed.

(** A blocked acquire of the modern protocol, as a function of the queue. *)
Definition lock_enqueue (m : LockManager) (now : Z) (input : LockAcquireInput) : fifo lock_id QueuedLock :=
  let keys := canonical_keys (in_keys input) in
  let id := (in_holder input, keys) in
  if in_wait input && negb (Fifo.contains id (queue m))
  then queue m ++ [(id, mkQueued (in_holder input) keys (in_ttl_ms input) now
         (Some (sat_add now (default DEFAULT_WAIT_TIMEOUT_MS (in_wait_timeout_ms input))))
         (in_request_id input))]
  else queue m.

Lemma acquire_blocked s revision now input :
  let keys := canonical_keys (in_keys input) in
  in_legacy_semantics input = false → keys ≠ [] →
  is_some_and (in_request_id input) (λ r,
    ledger_contains (lock_cancellations s) (acquisition_identity "lock" (in_holder input) keys r)) = false →
  existing_grant (locks s) keys (in_holder input) (in_request_id input) false = None →
  negb (blocked_by_held (locks s) keys) && negb (blocked_by_queue (locks s) keys) = false →
  (apply_lock_acquire s revision now input).1 =
  mkLockCtx (next_fencing_token s)
    (mkLocks (held (locks s)) (grants (locks s)) (lock_enqueue (locks s) now input)) (lock_cancellations s).
Proof.
  simpl. intros Hl Hne Ec Eg Hb. unfold apply_lock_acquire. rewrite bool_decide_eq_false_2 by done.
  rewrite Ec, Hl, Eg, Hb. simpl. do 2 f_equal. unfold lock_enqueue, Fifo.push_back.
  set (id := (in_holder input, canonical_keys (in_keys input))).
  destruct (Fifo.contains id (queue (locks s))) eqn:Ct; simpl.
  - destruct (in_wait input); simpl; [|done]. clear Hb. by destruct (negb _ && negb _).
  - assert (Fifo.get id (queue (locks s)) = None) as -> by by apply Fifo.get_None, Fifo.contains_false.
    simpl. by destruct (in_wait input).
Qed.

Lemma lock_enqueue_idemp m now now' input :
  let m' := mkLocks (held m) (grants m) (lock_enqueue m now input) in
  lock_enqueue m' now' input = lock_enqueue m now input.
Proof.
  intros m'. unfold lock_enqueue at 1. subst m'. cbn [queue].
  destruct (in_wait input) eqn:Ew; cbn [andb]; [|done].
  assert (Fifo.contains (in_holder input, canonical_keys (in_keys input)) (lock_enqueue m now input) = true)
    as ->; [|done].
  apply Fifo.contains_true. unfold lock_enqueue. rewrite Ew. simpl.
  destruct (Fifo.contains _ _) eqn:Ct; simpl; [by apply Fifo.contains_true in Ct|].
  rewrite fmap_app. apply elem_of_app. right. left.
Qed.

Lemma lock_enqueue_blocked m now input keys :
  negb (blocked_by_held m keys) && negb (blocked_by_queue m keys) = false →
  let m' := mkLocks (held m) (grants m) (lock_enqueue m now input) in
  negb (blocked_by_held m' keys) && negb (blocked_by_queue m' keys) = false.
Proof.
  intros Hb. simpl. apply not_true_iff_false. intros Hu. pose proof (proj1 (unblocked _ _) Hu) as Hall.
  apply not_true_iff_false in Hb. apply Hb, unblocked. intros k Hk. destruct (Hall k Hk) as [Hh Hq].
  split; [exact Hh|]. intros e He. apply Hq. simpl. clear -He. unfold lock_enqueue.
  destruct (_ && _); [|done]. apply elem_of_app. by left.
Qed.

(** An exact retry changes nothing.  Repeating an acquire (modern
    semantics) right after it was applied, at any later clock, leaves the state
    as it is: no second grant, no second queue entry, no extended lease and no
    extended waiting deadline. *)
Theorem lock_retry_changes_nothing (s : LockCtx) (revision revision' now now' : Z) (input : LockAcquireInput)
    (Hmodern : in_legacy_semantics input = false) :
  let s' := (apply_lock_acquire s revision now input).1 in
  (apply_lock_acquire s' revision' now' input).1 = s'.
Proof.
  set (keys := canonical_keys (in_keys input)). simpl.
  assert (Hfix : (∀ r n, (apply_lock_acquire s r n input).1 = s) →
    (apply_lock_acquire (apply_lock_acquire s revision now input).1 revision' now' input).1 =
    (apply_lock_acquire s revision now input).1) by (intros E; by rewrite !E).
  destruct (decide (keys = [])) as [He|Hne].
  { apply Hfix. intros r n. unfold apply_lock_acquire. fold keys. by rewrite bool_decide_eq_true_2. }
  destruct (is_some_and (in_request_id input) (λ r,
    ledger_contains (lock_cancellations s) (acquisition_identity "lock" (in_holder input) keys r))) eqn:Ec.
  { apply Hfix. intros r n. unfold apply_lock_acquire. fold keys. rewrite bool_decide_eq_false_2 by done. by rewrite Ec. }
  destruct (existing_grant (locks s) keys (in_holder input) (in_request_id input) false) as [[tok g]|] eqn:Eg.
  { apply Hfix. intros r n. unfold apply_lock_acquire. fold keys. rewrite bool_decide_eq_false_2 by done.
    rewrite Ec, Hmodern, Eg. by destruct s. }
  destruct (negb (blocked_by_held (locks s) keys) && negb (blocked_by_queue (locks s) keys)) eqn:Hb.
  - destruct (next_token (next_fencing_token s)) as [t|] eqn:Et.
    + assert ((apply_lock_acquire s revision now input).1 = mkLockCtx t (install_grant (locks s)
        (mkGrant (in_holder input) keys t (sat_add now (in_ttl_ms input)) (in_request_id input)))
        (lock_cancellations s)) as ->.
      { unfold apply_lock_acquire. fold keys. rewrite bool_decide_eq_false_2 by done. by rewrite Ec, Hmodern, Eg, Hb, Et. }
      unfold apply_lock_acquire. fold keys. rewrite bool_decide_eq_false_2 by done.
      cbn [lock_cancellations]. rewrite Ec, Hmodern. unfold existing_grant.
      destruct keys as [|k0 ks]; [done|].
      cbn [List.hd_error mbind option_bind locks held install_grant g_keys g_token].
      rewrite lookup_hold_keys, decide_True by left. cbn [mbind option_bind grants install_grant g_token].
      rewrite lookup_insert_eq. cbn [mbind option_bind g_holder g_keys g_request].
      rewrite !bool_decide_eq_true_2 by done. done.
    + apply Hfix. intros r n. unfold apply_lock_acquire. fold keys. rewrite bool_decide_eq_false_2 by done.
      by rewrite Ec, Hmodern, Eg, Hb, Et.
  - rewrite (acquire_blocked s revision now input) by done. rewrite acquire_blocked; try done.
    + cbn [next_fencing_token locks held grants lock_cancellations]. by rewrite lock_enqueue_idemp.
    + by apply lock_enqueue_blocked.
Qed.

(** Promotion grants only what was queued. *)
Lemma promote_steps_grants now x y t g :
  rtc (promote_step now) x y → grants y.2 !! t = Some g →
  grants x.2 !! t = Some g ∨
  ∃ e, e ∈ queue x.2 ∧ g_holder g = w_holder e.2 ∧ g_keys g = w_keys e.2 ∧ g_request g = w_request e.2.
Proof.
  induction 1 as [|x1 x2 x3 Hstep _ IH]; [by left|]. intros Hg.
  destruct (IH Hg) as [Hg2|(e & He & Hrest)].
  - destruct Hstep as [c m q1 id w q2 Hq _ _]. simpl in *.
    rewrite lookup_insert in Hg2. case_decide; [|by left]. simplify_eq.
    right. exists (id, w). rewrite Hq. split; [|done]. apply elem_of_app. right. left.
  - right. exists e. split; [|done]. destruct Hstep as [c m q1 id w q2 Hq _ _]. simpl in *. rewrite Hq.
    apply elem_of_app. apply elem_of_app in He as [?|?]; [by left|right; by right].
Qed.

Definition attempt_absent (m : LockManager) (holder : string) (keys : list string) (r : string) : Prop :=
  (∀ t g, grants m !! t = Some g → g_holder g = holder → g_keys g = keys → g_request g ≠ Some r) ∧
  (∀ e, e ∈ queue m → w_holder e.2 = holder → w_keys e.2 = keys → w_request e.2 ≠ Some r).

Lemma no_such_grant m holder keys r :
  map_find (λ g, bool_decide (g_holder g = holder) && bool_decide (g_keys g = keys)
                 && bool_decide (g_request g = Some r)) (grants m) = None →
  ∀ t g, grants m !! t = Some g → g_holder g = holder → g_keys g = keys → g_request g ≠ Some r.
Proof.
  intros Hf t g Hg ? ? ?. pose proof (proj1 (map_find_None _ _) Hf t g Hg) as Hb. simpl in Hb.
  by rewrite !bool_decide_eq_true_2 in Hb.
Qed.

Lemma cancel_queued_absent s revision now keys holder r :
  lock_inv (next_fencing_token s) (locks s) →
  (∀ t g, grants (locks s) !! t = Some g → g_holder g = holder → g_keys g = keys → g_request g ≠ Some r) →
  let '(s', _) := lock_cancel_queued s revision now keys holder (Some r) in
  attempt_absent (locks s') holder keys r ∧ lock_cancellations s' = lock_cancellations s.
Proof.
  intros I Hg. unfold lock_cancel_queued. simpl.
  assert (Hent : ∀ e, e ∈ queue (locks s) → w_holder e.2 = holder → w_keys e.2 = keys →
    Fifo.get (holder, keys) (queue (locks s)) = Some e.2).
  { intros [id w] He <- <-. apply (Fifo.get_Some _ _ _ (li_queue _ _ I)).
    destruct (li_entry _ _ I _ _ He) as [-> _]. exact He. }
  destruct (is_some_and _ _) eqn:Ecan; simpl.
  - pose proof (lock_promote_steps (next_fencing_token s)
      (mkLocks (held (locks s)) (grants (locks s)) (Fifo.without (holder, keys) (queue (locks s)))) now
      (Fifo.wf_without _ _ (li_queue _ _ I))) as Hp.
    destruct (lock_promote _ _ _) as [[c' m'] vs]. destruct Hp as [Hrtc _]. simpl.
    assert (Hno : ∀ e, e ∈ Fifo.without (holder, keys) (queue (locks s)) →
              w_holder e.2 = holder → w_keys e.2 ≠ keys).
    { intros [id w] [He Hn]%Fifo.elem_of_without Hh Hk. simpl in *.
      destruct (li_entry _ _ I _ _ He) as [-> _]. apply Hn. by rewrite Hh, Hk. }
    split; [|done]. split.
    + intros t g Hg' Hh Hk Hr.
      destruct (promote_steps_grants _ _ _ _ _ Hrtc Hg') as [Hold|(e & He & E1 & E2 & E3)].
      * by eapply Hg.
      * eapply Hno; [exact He|congruence|congruence].
    + intros e He Hh Hk. exfalso. apply promote_steps_sublist in Hrtc. simpl in Hrtc.
      eapply Hno; [exact (elem_of_sublist _ _ _ He Hrtc)|done|done].
  - assert (attempt_absent (locks s) holder keys r).
    { split; [done|]. intros e He Hh Hk Hr. rewrite (Hent e He Hh Hk) in Ecan. simpl in Ecan.
      rewrite Hr in Ecan. by rewrite bool_decide_eq_true_2 in Ecan. }
    by destruct (map_find _ _).
Qed.

(** A confirmed cancellation is final.  When cancelling an attempt
    answers [cancelled], the attempt is neither granted nor queued, its
    tombstone is recorded, and a delayed acquire of the same attempt changes
    nothing and is told neither [acquired] nor [queued]. *)
Theorem lock_cancel_final (s : LockCtx) (revision revision' now now' : Z) (keys : list string)
    (holder r : string) (input : LockAcquireInput)
    (Hinv : lock_ctx_inv s)
    (Hcancelled : flag "cancelled" (apply_lock_cancel s revision now keys holder (Some r)).2 = true)
    (Hsame : in_holder input = holder ∧ canonical_keys (in_keys input) = canonical_keys keys ∧
             in_request_id input = Some r) :
  let s' := (apply_lock_cancel s revision now keys holder (Some r)).1 in
  attempt_absent (locks s') holder (canonical_keys keys) r ∧
  let '(s'', out) := apply_lock_acquire s' revision' now' input in
  s'' = s' ∧ flag "acquired" out = false ∧ flag "queued" out = false.
Proof.
  destruct Hsame as (Hh & Hk & Hr). intros s'.
  assert (Hs' : attempt_absent (locks s') holder (canonical_keys keys) r ∧
    ledger_contains (lock_cancellations s') (acquisition_identity "lock" holder (canonical_keys keys) r) = true).
  { subst s'. revert Hcancelled. unfold apply_lock_cancel.
    destruct (map_find _ (grants (locks s))) eqn:Ef; [done|].
    pose proof (no_such_grant _ _ _ _ Ef) as Hng.
    pose proof (remember_spec (lock_cancellations s)
      (acquisition_identity "lock" holder (canonical_keys keys) r)
      (cancellation_tenant holder) now CANCELLATION_LIMITS) as Hrem.
    unfold remember. destruct (remember_with_limits _ _ _ _ _) as [led [|]]; [|done]. intros _.
    pose proof (cancel_queued_absent (mkLockCtx (next_fencing_token s) (locks s) led) revision now
      (canonical_keys keys) holder r (lc_locks _ Hinv) Hng) as Hc.
    destruct (lock_cancel_queued _ _ _ _ _ _) as [s1 out]. destruct Hc as [Ha Hl]. simpl. split; [done|].
    rewrite Hl. simpl. apply ledger_contains_spec.
    destruct Hrem as [[? ->]|(_ & _ & _ & ->)]; [done|]. rewrite lookup_insert_eq. by eexists. }
  destruct Hs' as [Habs Hled]. split; [done|]. unfold apply_lock_acquire.
  case_bool_decide; [done|]. rewrite Hr, Hk, Hh. simpl. rewrite Hled. done.
Qed.
End lock_theorems.

(** ** A concrete history

    Holder [h1] takes the union of [a] and [b]; holder [h2] wants [b] and [c]
    and waits. *)

Definition lock_ctx_empty : LockCtx := mkLockCtx 0 no_locks empty_ledger.

Lemma lock_ctx_inv_empty : lock_ctx_inv lock_ctx_empty.
Proof.
  split; simpl; [done|apply lock_inv_empty|apply ledger_inv_empty|].
  left. by intros [|] ? ? ?.
Qed.

Definition ask (holder : string) (keys : list string) (r : string) : LockAcquireInput :=
  mkLockAcquire keys holder 5000 true None (Some r) false.

Definition ctx1 : LockCtx :=
  (@apply_lock_acquire plain_external lock_ctx_empty 1 100 (ask "h1" ["b"; "a"; "b"] "r1")).1.
Definition ctx2 : LockCtx := (@apply_lock_acquire plain_external ctx1 2 200 (ask "h2" ["c"; "b"] "r2")).1.

Lemma ctx1_inv : lock_ctx_inv ctx1.
Proof. apply acquire_inv, lock_ctx_inv_empty. Qed.
Lemma ctx2_inv : lock_ctx_inv ctx2.
Proof. apply acquire_inv, ctx1_inv. Qed.

Example ctx2_state :
  g_keys <$> grants (locks ctx2) !! 1 = Some ["a"; "b"] ∧ (queue (locks ctx2)).*1 = [("h2", ["b"; "c"])].
Proof. vm_compute. done. Qed.

Lemma lock_acquire_all_or_nothing_witness :
  flag "acquired" (@apply_lock_acquire plain_external ctx2 3 300 (ask "h3" ["d"] "r3")).2 = true ∧
  let '(s', out) := @apply_lock_acquire plain_external ctx2 3 300 (ask "h3" ["d"] "r3") in
  if flag "acquired" out
  then canonical_keys ["d"] ≠ [] ∧ ∃ t g,
    number "fencing_token" out = Some t ∧ grants (locks s') !! t = Some g ∧
    g_holder g = "h3" ∧ g_keys g = canonical_keys ["d"] ∧
    ∀ k, k ∈ canonical_keys ["d"] → held (locks s') !! k = Some t
  else held (locks s') = held (locks ctx2) ∧ grants (locks s') = grants (locks ctx2) ∧
       next_fencing_token s' = next_fencing_token ctx2.
Proof.
  split; [vm_compute; reflexivity|].
  exact (@lock_acquire_all_or_nothing plain_external ctx2 3 300 (ask "h3" ["d"] "r3") ctx2_inv).
Defined.

Lemma lock_no_barging_witness :
  next_fencing_token ctx2 < 2 ∧
  let '(_, m', _) := lock_promote (next_fencing_token ctx2) (locks ctx2) 300 in
  ∀ e1 e2, overlap e1 e2 → ahead e1 e2 (queue (locks ctx2)) → e1 ∈ queue m' → e2 ∈ queue m'.
Proof.
  split; [reflexivity|].
  exact (proj2 (@lock_no_barging plain_external ctx2 3 300 (ask "h3" ["d"] "r3") ctx2_inv)).
Defined.

Lemma lock_commands_settle_witness :
  settled 2 (locks (apply_lock_release ctx2 3 300 "h1" 1).1).
Proof.
  pose proof (@lock_commands_settle plain_external ctx2 3 300 (ask "h3" ["d"] "r3") ["a"] "h1" None 1 ctx2_inv)
    as (_ & _ & Hrel & _).
  exact Hrel.
Defined.

Lemma lock_release_frees_union_witness :
  grants (locks (apply_lock_release ctx2 3 300 "h1" 1).1) !! 1 = None.
Proof.
  apply (lock_release_frees_union ctx2 3 300 "h1" 1); [apply ctx2_inv|reflexivity].
Defined.

Lemma lock_retry_changes_nothing_witness :
  (@apply_lock_acquire plain_external ctx2 3 900 (ask "h2" ["c"; "b"] "r2")).1 = ctx2.
Proof.
  apply (@lock_retry_changes_nothing plain_external ctx1 2 3 200 900 (ask "h2" ["c"; "b"] "r2")). reflexivity.
Defined.

Lemma lock_cancel_final_witness :
  let s' := (@apply_lock_cancel plain_external ctx2 3 300 ["b"; "c"] "h2" (Some "r2")).1 in
  queue (locks s') = [] ∧
  (@apply_lock_acquire plain_external s' 4 400 (ask "h2" ["c"; "b"] "r2")).1 = s'.
Proof.
  split; [reflexivity|].
  pose proof (@lock_cancel_final plain_external ctx2 3 4 300 400 ["b"; "c"] "h2" "r2" (ask "h2" ["c"; "b"] "r2")
    ctx2_inv ltac:(vm_compute; reflexivity) ltac:(vm_compute; done)) as [_ Hfin].
  destruct (apply_lock_acquire _ _ _ _) as [s'' out]. exact (proj1 Hfin).
Defined.
