(* ===== verification/Semaphores.v ===== *)
(** Counting semaphores of src/state.rs: [Semaphore], its commands, FIFO
    admission and the semaphore part of [expire_due].

    [SemCtx] is the store restricted to the fields these methods touch.  The
    promotion after an expiry sweep walks [HashMap::keys], whose order is a
    parameter ([HashOrder]). *)

From S2P Require Import Prelude Json Fencing Fifo Cancellation Locks.

(** ** Data *)

Record SemaphoreSlot : Type := mkSlot {
  s_holder : string;
  s_token : Z;
  s_lease : Z;
  s_request : option string
}.

Record QueuedPermit : Type := mkPermit {
  p_holder : string;
  p_ttl : Z;
  p_requested : Z;
  p_expires : option Z;
  p_request : option string
}.

Record Semaphore : Type := mkSem {
  limit : Z;
  holders : list SemaphoreSlot;
  sem_queue : fifo string QueuedPermit
}.

Record SemCtx : Type := mkSemCtx {
  sem_counter : Z;
  semaphores : gmap string Semaphore;
  semaphore_cancellations : CancellationLedger
}.

Record SemaphoreAcquireInput : Type := mkSemAcquire {
  sa_key : string;
  sa_holder : string;
  sa_limit : Z;
  sa_ttl_ms : Z;
  sa_wait : bool;
  sa_wait_timeout_ms : option Z;
  sa_request_id : option string;
  sa_legacy : bool
}.

(** [sem.holders.len() as u32] *)
Definition held_count (s : Semaphore) : Z := as_u32 (Z.of_nat (length (holders s))).

(** [sem.limit.saturating_sub(sem.holders.len() as u32)] *)
Definition available (s : Semaphore) : Z := sat_sub (limit s) (held_count s).

(** ** Promotion *)

Definition promoted_slot (w : QueuedPermit) (token now : Z) : SemaphoreSlot :=
  mkSlot (p_holder w) token (sat_add now (p_ttl w)) (p_request w).

Definition slot_value (s : SemaphoreSlot) : Value :=
  json! ["holder" :- s_holder s; "fencing_token" :- s_token s; "lease_expires_ms" :- s_lease s].

(** The loop of [semaphore_promote] on one semaphore.  Each round pops a
    waiter, so the length of the queue bounds the rounds. *)
Fixpoint sem_promote_loop (fuel : nat) (c : Z) (s : Semaphore) (now : Z) (promoted : list Value) :
    Z * Semaphore * list Value :=
  match fuel with
  | O => (c, s, promoted)
  | S fuel =>
      if (limit s <=? held_count s) || bool_decide (sem_queue s = []) then (c, s, promoted)
      else match next_token c with
      | None => (c, s, promoted)
      | Some token =>
          match Fifo.pop_front (sem_queue s) with
          | (q, Some (_, waiter)) =>
              let slot := promoted_slot waiter token now in
              sem_promote_loop fuel token (mkSem (limit s) (holders s ++ [slot]) q) now
                (promoted ++ [slot_value slot])
          | (_, None) => (c, s, promoted)
          end
      end
  end.

Definition semaphore_promote (c : Z) (ss : gmap string Semaphore) (key : string) (now : Z) :
    Z * gmap string Semaphore * list Value :=
  match ss !! key with
  | None => (c, ss, [])
  | Some s =>
      let '(c', s', promoted) := sem_promote_loop (length (sem_queue s)) c s now [] in
      (c', <[key := s']> ss, promoted)
  end.

Definition semaphores_promote `{HashOrder} (c : Z) (ss : gmap string Semaphore) (now : Z) :
    Z * gmap string Semaphore :=
  foldl (λ '(c, ss) key, (semaphore_promote c ss key now).1) (c, ss) (hash_keys ss).

(** ** Commands *)

Section commands.
Context `{External}.

Definition apply_semaphore_acquire (ctx : SemCtx) (revision now : Z) (input : SemaphoreAcquireInput) :
    SemCtx * Value :=
  let key := sa_key input in
  let holder := sa_holder input in
  let lim := sa_limit input in
  let request_id := sa_request_id input in
  let legacy := sa_legacy input in
  let ss := semaphores ctx in
  if is_some_and request_id (λ r,
       ledger_contains (semaphore_cancellations ctx) (acquisition_identity "semaphore" holder [key] r)) then
    (ctx, json! ["acquired" :- false; "queued" :- false; "position" :- JNull; "wait_expires_ms" :- JNull;
                 "key" :- key; "holder" :- holder; "limit" :- lim; "available" :- 0; "revision" :- revision])
  else
  let existing_limit := default lim (limit <$> ss !! key) in
  if negb legacy && negb (existing_limit =? lim) then
    (ctx, json! ["acquired" :- false; "queued" :- false; "reason" :- "limit_mismatch"; "key" :- key;
                 "holder" :- holder; "requested_limit" :- lim; "limit" :- existing_limit;
                 "revision" :- revision])
  else
  let sem0 := default (mkSem (if legacy then Z.max lim 1 else lim) [] []) (ss !! key) in
  let sem := if legacy then mkSem (Z.max lim 1) (holders sem0) (sem_queue sem0) else sem0 in
  let store c sem := mkSemCtx c (<[key := sem]> ss) (semaphore_cancellations ctx) in
  match List.find (λ slot, bool_decide (s_holder slot = holder)
                           && (legacy || bool_decide (s_request slot = request_id))) (holders sem) with
  | Some slot =>
      (store (sem_counter ctx) sem,
       json! ["acquired" :- true; "queued" :- false; "renewed" :- false; "key" :- key; "holder" :- holder;
              "fencing_token" :- s_token slot; "lease_expires_ms" :- s_lease slot;
              "available" :- available sem; "limit" :- limit sem; "revision" :- revision])
  | None =>
  if (held_count sem <? limit sem) && bool_decide (sem_queue sem = []) then
    match next_token (sem_counter ctx) with
    | None =>
        (store (sem_counter ctx) sem,
         json! ["acquired" :- false; "queued" :- false; "reason" :- "fencing_tokens_exhausted";
                "key" :- key; "holder" :- holder; "revision" :- revision])
    | Some token =>
        let lease := sat_add now (sa_ttl_ms input) in
        let sem' := mkSem (limit sem) (holders sem ++ [mkSlot holder token lease request_id]) (sem_queue sem) in
        (store token sem',
         json! ["acquired" :- true; "queued" :- false; "key" :- key; "holder" :- holder;
                "fencing_token" :- token; "lease_expires_ms" :- lease; "available" :- available sem';
                "limit" :- limit sem'; "revision" :- revision])
    end
  else
    let already := is_some_and (Fifo.get holder (sem_queue sem)) (λ w, bool_decide (p_request w = request_id)) in
    let identity_in_use := Fifo.contains holder (sem_queue sem) && negb already in
    let wait_until :=
      if legacy then None
      else Some (sat_add now (default DEFAULT_WAIT_TIMEOUT_MS (sa_wait_timeout_ms input))) in
    let q' := if sa_wait input && negb already && negb identity_in_use
              then (Fifo.push_back holder (mkPermit holder (sa_ttl_ms input) now wait_until request_id)
                      (sem_queue sem)).1
              else sem_queue sem in
    let position := if identity_in_use then None else S <$> Fifo.position holder q' in
    let wait_expires_ms := if identity_in_use then None else (Fifo.get holder q' ≫= p_expires) in
    let is_queued := bool_decide (is_Some position) in
    (store (sem_counter ctx) (mkSem (limit sem) (holders sem) q'),
     json! ["acquired" :- false; "queued" :- (if legacy then sa_wait input && is_queued else is_queued);
            "position" :- position; "wait_expires_ms" :- wait_expires_ms; "key" :- key; "holder" :- holder;
            "limit" :- limit sem; "available" :- 0; "revision" :- revision])
  end.

(** [iter_mut().find] and the update of the slot found. *)
Definition update_slot (token : Z) (f : SemaphoreSlot → SemaphoreSlot) (l : list SemaphoreSlot) :
    list SemaphoreSlot :=
  match list_find (λ slot, s_token slot = token) l with
  | Some (i, slot) => <[i := f slot]> l
  | None => l
  end.

Definition apply_semaphore_renew (ctx : SemCtx) (revision now : Z) (key holder : string)
    (fencing_token ttl_ms : Z) : SemCtx * Value :=
  match semaphores ctx !! key with
  | None => (ctx, json! ["renewed" :- false; "reason" :- "not_found"; "revision" :- revision])
  | Some sem =>
      match List.find (λ slot, s_token slot =? fencing_token) (holders sem) with
      | None => (ctx, json! ["renewed" :- false; "reason" :- "not_found"; "revision" :- revision])
      | Some slot =>
          if negb (bool_decide (s_holder slot = holder)) then
            (ctx, json! ["renewed" :- false; "reason" :- "not_holder"; "revision" :- revision])
          else
            let lease := Z.max (s_lease slot) (sat_add now ttl_ms) in
            let renewed slot := mkSlot (s_holder slot) (s_token slot) lease (s_request slot) in
            (mkSemCtx (sem_counter ctx)
               (<[key := mkSem (limit sem) (update_slot fencing_token renewed (holders sem)) (sem_queue sem)]>
                  (semaphores ctx)) (semaphore_cancellations ctx),
             json! ["renewed" :- true; "key" :- key; "holder" :- holder; "fencing_token" :- fencing_token;
                    "lease_expires_ms" :- lease; "revision" :- revision])
      end
  end.

Definition apply_semaphore_release (ctx : SemCtx) (revision now : Z) (key holder : string)
    (fencing_token : Z) : SemCtx * Value :=
  match semaphores ctx !! key with
  | None => (ctx, json! ["released" :- false; "reason" :- "not_found"; "revision" :- revision])
  | Some sem =>
      let kept := filter (λ slot, ¬ (s_token slot = fencing_token ∧ s_holder slot = holder)) (holders sem) in
      let ss := <[key := mkSem (limit sem) kept (sem_queue sem)]> (semaphores ctx) in
      if bool_decide (length kept = length (holders sem)) then
        (mkSemCtx (sem_counter ctx) ss (semaphore_cancellations ctx),
         json! ["released" :- false; "reason" :- "not_holder"; "revision" :- revision])
      else
        let '(c, ss', promoted) := semaphore_promote (sem_counter ctx) ss key now in
        (mkSemCtx c ss' (semaphore_cancellations ctx),
         json! ["released" :- true; "key" :- key; "promoted" :- promoted; "revision" :- revision])
  end.

Definition sem_cancel_acquired (key holder : string) (slot : SemaphoreSlot) (revision : Z) : Value :=
  json! ["cancelled" :- false; "acquired" :- true; "key" :- key; "holder" :- holder;
         "fencing_token" :- s_token slot; "lease_expires_ms" :- s_lease slot; "promoted" :- JArr [];
         "revision" :- revision].

(** [apply_semaphore_cancel] after the tombstone step. *)
Definition sem_cancel_queued (ctx : SemCtx) (revision now : Z) (key holder : string)
    (request_id : option string) : SemCtx * Value :=
  let any := bool_decide (request_id = None) in
  let ss := semaphores ctx in
  match sem ← ss !! key; w ← Fifo.get holder (sem_queue sem);
        if any || bool_decide (p_request w = request_id) then Some sem else None with
  | Some sem =>
      let '(c, ss', promoted) :=
        semaphore_promote (sem_counter ctx)
          (<[key := mkSem (limit sem) (holders sem) (Fifo.without holder (sem_queue sem))]> ss) key now in
      (mkSemCtx c ss' (semaphore_cancellations ctx),
       json! ["cancelled" :- true; "acquired" :- false; "key" :- key; "holder" :- holder;
              "promoted" :- promoted; "revision" :- revision])
  | None =>
      match sem ← ss !! key;
            List.find (λ slot, bool_decide (s_holder slot = holder)
                               && (any || bool_decide (s_request slot = request_id))) (holders sem) with
      | Some slot => (ctx, sem_cancel_acquired key holder slot revision)
      | None =>
          if negb any then
            (ctx, json! ["cancelled" :- true; "acquired" :- false; "key" :- key; "holder" :- holder;
                         "promoted" :- JArr []; "revision" :- revision])
          else
            (ctx, json! ["cancelled" :- false; "acquired" :- false; "reason" :- "not_found"; "key" :- key;
                         "holder" :- holder; "promoted" :- JArr []; "revision" :- revision])
      end
  end.

Definition apply_semaphore_cancel (ctx : SemCtx) (revision now : Z) (key holder : string)
    (request_id : option string) : SemCtx * Value :=
  match request_id with
  | None => sem_cancel_queued ctx revision now key holder None
  | Some r =>
      match sem ← semaphores ctx !! key;
            List.find (λ slot, bool_decide (s_holder slot = holder)
                               && bool_decide (s_request slot = Some r)) (holders sem) with
      | Some slot => (ctx, sem_cancel_acquired key holder slot revision)
      | None =>
          match remember (semaphore_cancellations ctx) (acquisition_identity "semaphore" holder [key] r)
                  (cancellation_tenant holder) now with
          | (_, CapacityExceeded) =>
              (ctx, json! ["cancelled" :- false; "acquired" :- false; "reason" :- "cancellation_capacity";
                           "key" :- key; "holder" :- holder; "promoted" :- JArr []; "revision" :- revision])
          | (ledger, Remembered) =>
              sem_cancel_queued (mkSemCtx (sem_counter ctx) (semaphores ctx) ledger)
                revision now key holder (Some r)
          end
      end
  end.
End commands.

(** ** Expiry *)

(** The body of the [values_mut] loop of [expire_due]. *)
Definition expire_semaphore (now : Z) (s : Semaphore) : Semaphore :=
  let expired := (filter (λ e, waiter_is_live (p_expires e.2) now = false) (sem_queue s)).*1 in
  mkSem (limit s) (filter (λ slot, now < s_lease slot) (holders s))
    (foldl (λ q holder, Fifo.without holder q) (sem_queue s) expired).

Definition semaphores_expire_due `{HashOrder} (ctx : SemCtx) (now : Z) : SemCtx :=
  let '(c, ss) := semaphores_promote (sem_counter ctx) (expire_semaphore now <$> semaphores ctx) now in
  mkSemCtx c ss (expire (semaphore_cancellations ctx) now).

(** ** Promotion admits the longest FIFO prefix *)

(** How many waiters capacity and the token space admit. *)
Definition admissible (c : Z) (s : Semaphore) : nat :=
  Z.to_nat (Z.min (Z.of_nat (length (sem_queue s)))
    (Z.min (limit s - Z.of_nat (length (holders s))) (MAX_FENCING_TOKEN - c))).

Fixpoint admit_waiters (c : Z) (now : Z) (q : fifo string QueuedPermit) : list SemaphoreSlot :=
  match q with
  | [] => []
  | e :: q => promoted_slot e.2 (c + 1) now :: admit_waiters (c + 1) now q
  end.

(** The semaphore after [n] waiters were admitted. *)
Definition admitted (n : nat) (c : Z) (now : Z) (s : Semaphore) : Semaphore :=
  mkSem (limit s) (holders s ++ admit_waiters c now (take n (sem_queue s))) (drop n (sem_queue s)).

Lemma held_count_small s : Z.of_nat (length (holders s)) ≤ U32_MAX → held_count s = Z.of_nat (length (holders s)).
Proof. intros ?. unfold held_count, as_u32. apply Z.mod_small. lia. Qed.

Lemma sem_promote_loop_spec fuel c s now vs :
  (length (sem_queue s) ≤ fuel)%nat → is_u32 (limit s) → Z.of_nat (length (holders s)) ≤ U32_MAX →
  let n := admissible c s in
  sem_promote_loop fuel c s now vs =
  (c + Z.of_nat n, admitted n c now s,
   vs ++ (slot_value <$> admit_waiters c now (take n (sem_queue s)))).
Proof.
  assert (Hzero : ∀ c s vs, admissible c s = 0%nat →
    (c, s, vs) = (c + Z.of_nat (admissible c s), admitted (admissible c s) c now s,
      vs ++ (slot_value <$> admit_waiters c now (take (admissible c s) (sem_queue s))))).
  { intros c0 [l h q] vs0 ->. unfold admitted. simpl. by rewrite Z.add_0_r, !app_nil_r. }
  revert c s vs. induction fuel as [|fuel IH]; intros c s vs Hlen Hlim Hh; simpl.
  { apply Hzero. unfold admissible. lia. }
  rewrite held_count_small by done. destruct (sem_queue s) as [|[id w] q] eqn:Eq; simpl in Hlen.
  { rewrite bool_decide_eq_true_2, orb_true_r by done. rewrite <-Eq. apply Hzero.
    unfold admissible. rewrite Eq. simpl. lia. }
  rewrite bool_decide_eq_false_2, orb_false_r by done.
  destruct (Z.leb_spec (limit s) (Z.of_nat (length (holders s)))).
  { rewrite <-Eq. apply Hzero. unfold admissible. lia. }
  destruct (next_token c) as [t|] eqn:Et.
  - apply next_token_Some in Et as [-> Hc]. simpl.
    assert (Hadm : admissible c s =
      S (admissible (c + 1) (mkSem (limit s) (holders s ++ [promoted_slot w (c + 1) now]) q))).
    { unfold admissible. rewrite Eq. cbn [limit holders sem_queue]. rewrite length_app. cbn [length]. lia. }
    rewrite IH by (simpl; rewrite ?length_app; simpl; unfold is_u32 in *; lia || done).
    rewrite Hadm. unfold admitted. rewrite Eq. simpl. rewrite <-!app_assoc. simpl.
    set (n := admissible _ _). by replace (c + 1 + Z.of_nat n) with (c + Z.of_nat (S n)) by lia.
  - apply next_token_None in Et. rewrite <-Eq. apply Hzero. unfold admissible. lia.
Qed.

(** ** The semaphore invariant *)

Definition slot_tokens (s : Semaphore) : list Z := s_token <$> holders s.

Record sem_inv (c : Z) (s : Semaphore) : Prop := {
  si_limit : is_u32 (limit s);
  si_capacity : Z.of_nat (length (holders s)) ≤ limit s;
  si_tokens : NoDup (slot_tokens s);
  si_issued t : t ∈ slot_tokens s → 0 < t ≤ c;
  si_queue : Fifo.wf (sem_queue s);
  si_entry id w : (id, w) ∈ sem_queue s → id = p_holder w;
  (** No attempt holds two permits, or a permit and a place in the queue. *)
  si_attempts : NoDup ((λ x, (s_holder x, s_request x)) <$> holders s);
  si_attempt slot id w : slot ∈ holders s → (id, w) ∈ sem_queue s →
    s_holder slot = p_holder w → s_request slot ≠ p_request w
}.

(** Nobody waits while a permit is free, unless no token is left. *)
Definition sem_settled (c : Z) (s : Semaphore) : Prop :=
  sem_queue s = [] ∨ limit s ≤ Z.of_nat (length (holders s)) ∨ MAX_FENCING_TOKEN ≤ c.

Lemma sem_settled_counter c c' s : sem_settled c s → c ≤ c' → sem_settled c' s.
Proof. intros [?|[?|?]] ?; [by left|by right; left|right; right; lia]. Qed.

Lemma sem_inv_counter c c' s : sem_inv c s → c ≤ c' → sem_inv c' s.
Proof.
  intros I Hc. destruct I as [? ? ? Hi ? ? ? ?]. split; try done.
  intros t Ht. specialize (Hi t Ht). lia.
Qed.

Lemma sem_inv_empty c l : is_u32 l → sem_inv c (mkSem l [] []).
Proof.
  intros Hl. assert (0 ≤ l) by (destruct Hl; lia).
  split; try done; try apply NoDup_nil_2.
  - by intros t ?%not_elem_of_nil.
  - by intros id w ?%not_elem_of_nil.
  - by intros slot id w ?%not_elem_of_nil.
Qed.

Lemma sem_inv_holders c s : sem_inv c s → Z.of_nat (length (holders s)) ≤ U32_MAX.
Proof. intros I. destruct I as [[_ ?] ? _ _ _ _ _ _]. lia. Qed.

(** Dropping slots or waiters keeps the invariant. *)
Lemma sem_inv_sub c s hs q :
  sem_inv c s → hs `sublist_of` holders s → q `sublist_of` sem_queue s →
  sem_inv c (mkSem (limit s) hs q).
Proof.
  intros I Hh Hq. destruct I as [Hl Hcap Ht Hi Hw He Ha Hat].
  assert (∀ x, x ∈ hs → x ∈ holders s) by (intros x Hx; exact (elem_of_sublist _ _ _ Hx Hh)).
  assert (∀ x, x ∈ q → x ∈ sem_queue s) by (intros x Hx; exact (elem_of_sublist _ _ _ Hx Hq)).
  split; simpl; try done.
  - apply sublist_length in Hh. lia.
  - eapply sublist_NoDup; [exact Ht|]. by apply fmap_sublist.
  - intros t Hin. apply Hi. unfold slot_tokens in *. rewrite list_elem_of_fmap in Hin |- *. simpl in Hin.
    destruct Hin as (x & -> & ?). eauto.
  - unfold Fifo.wf. eapply sublist_NoDup; [exact Hw|]. by apply fmap_sublist.
  - eauto.
  - eapply sublist_NoDup; [exact Ha|]. by apply fmap_sublist.
  - eauto.
Qed.

(** Admitting a fresh attempt while a permit is free keeps it. *)
Lemma sem_inv_grant c s slot :
  sem_inv c s → Z.of_nat (length (holders s)) < limit s → 0 ≤ c → s_token slot = c + 1 →
  (s_holder slot, s_request slot) ∉ (λ x, (s_holder x, s_request x)) <$> holders s →
  (∀ id w, (id, w) ∈ sem_queue s → s_holder slot = p_holder w → s_request slot ≠ p_request w) →
  sem_inv (c + 1) (mkSem (limit s) (holders s ++ [slot]) (sem_queue s)).
Proof.
  intros I Hlt Hc Hs Hfresh Hq. destruct I as [Hl Hcap Ht Hi Hw He Ha Hat]. split; simpl; try done.
  - rewrite length_app. simpl. lia.
  - unfold slot_tokens. simpl. rewrite fmap_app. apply NoDup_app. split_and!; [done| |apply NoDup_singleton].
    intros t Hin ->%list_elem_of_singleton. specialize (Hi _ Hin). lia.
  - unfold slot_tokens. simpl. rewrite fmap_app.
    intros t [Hin| ->%list_elem_of_singleton]%elem_of_app; [|lia]. specialize (Hi _ Hin). lia.
  - rewrite fmap_app. apply NoDup_app. split_and!; [done| |apply NoDup_singleton].
    intros x Hin ->%list_elem_of_singleton. done.
  - intros x id w [Hin| ->%list_elem_of_singleton]%elem_of_app; eauto.
Qed.

Lemma admitted_inv n c now s :
  sem_inv c s → (n ≤ admissible c s)%nat → 0 ≤ c → sem_inv (c + Z.of_nat n) (admitted n c now s).
Proof.
  revert c s. induction n as [|n IH]; intros c s I Hn Hc.
  { unfold admitted. simpl. rewrite app_nil_r, Z.add_0_r. by destruct s. }
  destruct (sem_queue s) as [|[id w] q] eqn:Eq; [unfold admissible in Hn; rewrite Eq in Hn; simpl in Hn; lia|].
  assert (Hent : id = p_holder w) by (eapply si_entry; [exact I|rewrite Eq; left]).
  pose proof (si_queue _ _ I) as Hw. rewrite Eq in Hw. apply NoDup_cons in Hw as [Hid Hw]. simpl in Hid, Hw.
  assert (I1 : sem_inv (c + 1) (mkSem (limit s) (holders s ++ [promoted_slot w (c + 1) now]) q)).
  { apply (sem_inv_grant c (mkSem (limit s) (holders s) q)); try done.
    - apply sem_inv_sub; [done..|]. rewrite Eq. by apply sublist_cons.
    - unfold admissible in Hn. simpl. lia.
    - intros (x & [= E1 E2] & Hx)%list_elem_of_fmap. simpl in *.
      eapply (si_attempt _ _ I x id w); [done|rewrite Eq; left|done|done].
    - simpl. intros id' w' Hin E. exfalso. apply Hid. apply list_elem_of_fmap. exists (id', w').
      split; [|done]. simpl. rewrite (si_entry _ _ I id' w'), Hent; [done|rewrite Eq; by right]. }
  specialize (IH _ _ I1). unfold admitted in *. rewrite Eq. simpl in *. rewrite <-app_assoc in IH. simpl in IH.
  replace (c + Z.of_nat (S n)) with (c + 1 + Z.of_nat n) by lia. apply IH; [|lia].
  unfold admissible in *. rewrite Eq in Hn. cbn [limit holders sem_queue] in *.
  rewrite length_app. cbn [length] in *. lia.
Qed.

Lemma length_admit_waiters c now q : length (admit_waiters c now q) = length q.
Proof. revert c. induction q; intros c; simpl; auto. Qed.

Lemma elem_of_admit_token c now q t :
  t ∈ s_token <$> admit_waiters c now q → c < t ≤ c + Z.of_nat (length q).
Proof.
  revert c. induction q as [|e q IH]; intros c; simpl; [by intros ?%not_elem_of_nil|].
  intros [->|Hin]%elem_of_cons; [lia|]. specialize (IH _ Hin). lia.
Qed.

Lemma admitted_settled c now s :
  Z.of_nat (length (holders s)) ≤ limit s →
  sem_settled (c + Z.of_nat (admissible c s)) (admitted (admissible c s) c now s).
Proof.
  intros Hcap. unfold sem_settled, admitted. simpl. rewrite length_app, length_admit_waiters, length_take.
  destruct (decide (admissible c s = length (sem_queue s))) as [E|E].
  - left. rewrite E. by apply drop_ge.
  - right. unfold admissible in *. lia.
Qed.

(** ** All semaphores of a shard *)

Record sems_inv (c : Z) (ss : gmap string Semaphore) : Prop := {
  ss_sem key s : ss !! key = Some s → sem_inv c s;
  ss_disjoint k1 k2 s1 s2 t : ss !! k1 = Some s1 → ss !! k2 = Some s2 →
    t ∈ slot_tokens s1 → t ∈ slot_tokens s2 → k1 = k2
}.

Definition sems_settled (c : Z) (ss : gmap string Semaphore) : Prop :=
  ∀ key s, ss !! key = Some s → sem_settled c s.

Record sem_ctx_inv (ctx : SemCtx) : Prop := {
  sx_counter : 0 ≤ sem_counter ctx;
  sx_sems : sems_inv (sem_counter ctx) (semaphores ctx);
  sx_settled : sems_settled (sem_counter ctx) (semaphores ctx);
  sx_ledger : ledger_inv (semaphore_cancellations ctx)
}.

(** Replacing one semaphore: its tokens are old ones of the same key or new. *)
Lemma sems_update c c' ss key s' :
  sems_inv c ss → c ≤ c' → sem_inv c' s' →
  (∀ t, t ∈ slot_tokens s' → c < t ∨ ∃ s, ss !! key = Some s ∧ t ∈ slot_tokens s) →
  sems_inv c' (<[key := s']> ss).
Proof.
  intros I Hc I' Ht.
  assert (Hcross : ∀ k2 s2 t, k2 ≠ key → ss !! k2 = Some s2 → t ∈ slot_tokens s2 → t ∉ slot_tokens s').
  { intros k2 s2 t Hne H2 Hin Hin'. destruct (Ht t Hin') as [?|(s & Hs & Hts)].
    - pose proof (si_issued _ _ (ss_sem _ _ I _ _ H2) t Hin). lia.
    - apply Hne. by eapply (ss_disjoint _ _ I). }
  split.
  - intros k s. rewrite lookup_insert. case_decide; [by intros [= <-]|].
    intros Hs. eapply sem_inv_counter; [by eapply ss_sem|done].
  - intros k1 k2 s1 s2 t. rewrite !lookup_insert. repeat case_decide; subst; try congruence.
    + intros [= <-] H2 ? ?. by destruct (Hcross k2 s2 t).
    + intros H1 [= <-] ? ?. by destruct (Hcross k1 s1 t).
    + intros H1 H2 ? ?. by eapply (ss_disjoint _ _ I).
Qed.

Lemma sems_settled_insert c c' ss key s' :
  sems_settled c ss → c ≤ c' → sem_settled c' s' → sems_settled c' (<[key := s']> ss).
Proof.
  intros S Hc S' k s. rewrite lookup_insert. case_decide; [by intros [= <-]|].
  intros Hs. eapply sem_settled_counter; [by eapply S|done].
Qed.

Lemma semaphore_promote_spec c ss key now :
  sems_inv c ss → 0 ≤ c →
  let '(c', ss', _) := semaphore_promote c ss key now in
  sems_inv c' ss' ∧ c ≤ c' ∧ dom ss' = dom ss ∧ (∀ k, k ≠ key → ss' !! k = ss !! k) ∧
  (∀ s, ss' !! key = Some s → sem_settled c' s).
Proof.
  intros I Hc. unfold semaphore_promote. destruct (ss !! key) as [s|] eqn:Es.
  2: { split_and!; try done. intros s. by rewrite Es. }
  pose proof (ss_sem _ _ I _ _ Es) as Is.
  rewrite sem_promote_loop_spec by (done || apply Is || by eapply sem_inv_holders).
  set (n := admissible c s). split_and!.
  - apply (sems_update c); [done|lia|by apply admitted_inv|].
    intros t. unfold slot_tokens, admitted. simpl. rewrite fmap_app.
    intros [Hin|Hin]%elem_of_app; [right; by exists s|left]. apply elem_of_admit_token in Hin. lia.
  - lia.
  - rewrite dom_insert_L. apply subseteq_union_1_L, singleton_subseteq_l, elem_of_dom. by exists s.
  - intros k Hk. by rewrite lookup_insert_ne.
  - intros s'. rewrite lookup_insert_eq. intros [= <-]. apply admitted_settled, Is.
Qed.

Lemma semaphores_promote_keys keys c ss now :
  sems_inv c ss → 0 ≤ c →
  let '(c', ss') := foldl (λ '(c, ss) key, (semaphore_promote c ss key now).1) (c, ss) keys in
  sems_inv c' ss' ∧ c ≤ c' ∧ dom ss' = dom ss ∧
  (∀ key s, ss' !! key = Some s → key ∈ keys ∨ sem_settled c (default s (ss !! key)) → sem_settled c' s).
Proof.
  revert c ss. induction keys as [|key keys IH]; intros c ss I Hc; simpl.
  - split_and!; try done. intros k s Hk [?%not_elem_of_nil|Hs]; [done|]. by rewrite Hk in Hs.
  - pose proof (semaphore_promote_spec c ss key now I Hc) as Hp.
    destruct (semaphore_promote c ss key now) as [[c1 ss1] vs]. destruct Hp as (I1 & Hc1 & Hd1 & Ho1 & Hs1). simpl.
    specialize (IH c1 ss1 I1 ltac:(lia)). destruct (foldl _ _ _) as [c2 ss2].
    destruct IH as (I2 & Hc2 & Hd2 & Hs2). split_and!; [done|lia|congruence|].
    intros k s Hk Hor. apply (Hs2 _ _ Hk). destruct (decide (k = key)) as [->|Hne].
    + right. assert (is_Some (ss1 !! key)) as [s1 Hks1].
      { apply elem_of_dom. rewrite <-Hd2. apply elem_of_dom. by exists s. }
      rewrite Hks1. simpl. by apply Hs1.
    + destruct Hor as [[?|?]%elem_of_cons|Hor]; [done|by left|right].
      rewrite Ho1 by done. by eapply sem_settled_counter.
Qed.

Lemma semaphores_promote_spec `{HashOrder} c ss now :
  sems_inv c ss → 0 ≤ c →
  let '(c', ss') := semaphores_promote c ss now in
  sems_inv c' ss' ∧ c ≤ c' ∧ sems_settled c' ss'.
Proof.
  intros I Hc. unfold semaphores_promote.
  pose proof (semaphores_promote_keys (hash_keys ss) c ss now I Hc) as Hp.
  destruct (foldl _ _ _) as [c' ss']. destruct Hp as (I' & Hc' & Hd & Hs). split_and!; try done.
  intros k s Hk. apply (Hs _ _ Hk). left. apply elem_of_hash_keys, elem_of_dom.
  rewrite <-Hd. apply elem_of_dom. by exists s.
Qed.

Lemma sublist_foldl_without (q : fifo string QueuedPermit) ids :
  foldl (λ q id, Fifo.without id q) q ids `sublist_of` q.
Proof.
  revert q. induction ids as [|id ids IH]; intros q; simpl; [done|].
  etrans; [apply IH|]. apply sublist_filter.
Qed.

Lemma expire_semaphores_inv c ss now : sems_inv c ss → sems_inv c (expire_semaphore now <$> ss).
Proof.
  intros I. split.
  - intros k s. rewrite lookup_fmap, fmap_Some. intros (s0 & Hs & ->).
    apply sem_inv_sub; [by eapply ss_sem|apply sublist_filter|apply sublist_foldl_without].
  - intros k1 k2 s1 s2 t. rewrite !lookup_fmap, !fmap_Some. intros (x1 & H1 & ->) (x2 & H2 & ->).
    unfold slot_tokens. simpl. rewrite !list_elem_of_fmap.
    intros (y1 & -> & [_ ?]%list_elem_of_filter) (y2 & E & [_ ?]%list_elem_of_filter).
    eapply (ss_disjoint _ _ I); [done..| |]; apply list_elem_of_fmap; eauto.
Qed.

Lemma sem_expire_inv `{HashOrder} ctx now :
  0 ≤ sem_counter ctx → sems_inv (sem_counter ctx) (semaphores ctx) → ledger_inv (semaphore_cancellations ctx) →
  let ctx' := semaphores_expire_due ctx now in
  sem_ctx_inv ctx' ∧ sem_counter ctx ≤ sem_counter ctx'.
Proof.
  intros Hc I L. unfold semaphores_expire_due. destruct (expire_spec _ now L) as [L' _].
  pose proof (semaphores_promote_spec _ _ now (expire_semaphores_inv _ _ now I) Hc) as Hp.
  destruct (semaphores_promote _ _ _) as [c' ss']. destruct Hp as (I' & ? & ?). simpl.
  split; [|done]. split; simpl; done || lia.
Qed.

(** ** The commands preserve the invariant

    [sa_legacy] commands come from logs written before the limit became part
    of the semaphore's identity: they may lower a limit below the number of
    permits held, so the capacity bound is a property of the current commands. *)

Lemma find_attempt_None (l : list SemaphoreSlot) holder rid :
  List.find (λ slot, bool_decide (s_holder slot = holder) && (false || bool_decide (s_request slot = rid))) l = None →
  (holder, rid) ∉ (λ x, (s_holder x, s_request x)) <$> l.
Proof.
  intros Hf (x & [= -> ->] & Hx)%list_elem_of_fmap. apply list_elem_of_In in Hx.
  pose proof (List.find_none _ _ Hf _ Hx) as Hb. simpl in Hb. by rewrite !bool_decide_eq_true_2 in Hb.
Qed.

Section preservation.
Context `{External}.

Lemma sem_update_ctx ctx c' key s' :
  sem_ctx_inv ctx → sem_counter ctx ≤ c' → sem_inv c' s' → sem_settled c' s' →
  (∀ t, t ∈ slot_tokens s' → sem_counter ctx < t ∨
     ∃ s, semaphores ctx !! key = Some s ∧ t ∈ slot_tokens s) →
  sem_ctx_inv (mkSemCtx c' (<[key := s']> (semaphores ctx)) (semaphore_cancellations ctx)).
Proof.
  intros [Hc I S L] Hle I' S' Ht. split; simpl; try done; [lia| |].
  - by eapply sems_update.
  - by eapply sems_settled_insert.
Qed.

Lemma sem_acquire_inv ctx revision now input :
  sem_ctx_inv ctx → sa_legacy input = false → is_u32 (sa_limit input) →
  let ctx' := (apply_semaphore_acquire ctx revision now input).1 in
  sem_ctx_inv ctx' ∧ sem_counter ctx ≤ sem_counter ctx'.
Proof.
  intros Hctx Hl Hlim. unfold apply_semaphore_acquire. rewrite Hl. simpl.
  destruct (is_some_and _ _); [done|]. destruct (negb _); [done|].
  set (key := sa_key input). set (sem := default _ (semaphores ctx !! key)).
  pose proof (sx_counter _ Hctx) as Hc.
  assert (Is : sem_inv (sem_counter ctx) sem ∧ sem_settled (sem_counter ctx) sem ∧
    ∀ t, t ∈ slot_tokens sem → sem_counter ctx < t ∨ ∃ s, semaphores ctx !! key = Some s ∧ t ∈ slot_tokens s).
  { subst sem. destruct (semaphores ctx !! key) as [s|] eqn:Es; simpl.
    - split_and!; [by eapply ss_sem; [apply Hctx|]|by eapply (sx_settled _ Hctx)|eauto].
    - split_and!; [by apply sem_inv_empty|by left|by intros t ?%not_elem_of_nil]. }
  clearbody sem. destruct Is as (Is & Ss & Ts).
  pose proof (held_count_small sem (sem_inv_holders _ _ Is)) as Hcount.
  destruct (List.find _ (holders sem)) as [slot|] eqn:Ef; simpl.
  { split; [|done]. by apply sem_update_ctx. }
  destruct ((held_count sem <? limit sem) && _) eqn:Hcap.
  - bools. rewrite Hcount in *. destruct (next_token _) as [t|] eqn:Et; simpl.
    + apply next_token_Some in Et as [-> ?]. split; [|lia]. apply sem_update_ctx; [done|lia|..].
      * apply sem_inv_grant; try done; [by apply find_attempt_None|].
        match goal with E : sem_queue sem = [] |- _ => rewrite E end. by intros id w ?%not_elem_of_nil.
      * by left.
      * unfold slot_tokens. simpl. rewrite fmap_app. intros t [?| ->%list_elem_of_singleton]%elem_of_app; [auto|].
        simpl. left. lia.
    + split; [|done]. by apply sem_update_ctx.
  - simpl. split; [|done]. apply sem_update_ctx; [done|done| | |done].
    + destruct (_ && _ && _) eqn:Hpush; [|by destruct sem]. unfold Fifo.push_back.
      destruct (Fifo.contains _ _) eqn:Ct; [by destruct sem|]. simpl.
      destruct Is as [? ? ? ? Hw He ? Ha]. apply Fifo.contains_false in Ct.
      split; simpl; try done.
      * unfold Fifo.wf in *. rewrite fmap_app. apply NoDup_app. split_and!; [done| |apply NoDup_singleton].
        intros x Hx ->%list_elem_of_singleton. done.
      * intros id w [?|[= -> ->]%list_elem_of_singleton]%elem_of_app; [eauto|done].
      * intros slot id w Hs [?|[= -> ->]%list_elem_of_singleton]%elem_of_app; [eauto|]. simpl.
        intros E1 E2. eapply find_attempt_None; [exact Ef|]. apply list_elem_of_fmap. exists slot.
        by rewrite E1, E2.
    + apply andb_false_iff in Hcap as [Hfull|Hq]; bools.
      * right. left. simpl. lia.
      * destruct Ss as [?|[?|?]]; [done|right; by left|by right; right].
Qed.

Lemma sem_renew_inv ctx revision now key holder tok ttl :
  sem_ctx_inv ctx →
  let ctx' := (apply_semaphore_renew ctx revision now key holder tok ttl).1 in
  sem_ctx_inv ctx' ∧ sem_counter ctx ≤ sem_counter ctx'.
Proof.
  intros Hctx. unfold apply_semaphore_renew.
  destruct (semaphores ctx !! key) as [sem|] eqn:Es; [|done]. destruct (List.find _ _) as [slot0|]; [|done].
  destruct (negb _); [done|]. simpl. split; [|done].
  set (f := λ slot, mkSlot _ _ _ _). set (hs := update_slot tok f (holders sem)).
  assert (Htok : s_token <$> hs = s_token <$> holders sem ∧
                 (λ x, (s_holder x, s_request x)) <$> hs = (λ x, (s_holder x, s_request x)) <$> holders sem).
  { unfold hs, update_slot. destruct (list_find _ _) as [[i slot]|] eqn:Ei; [|done].
    apply list_find_Some in Ei as (Hi & _). rewrite !list_fmap_insert. split; apply list_insert_id;
      by rewrite list_lookup_fmap, Hi. }
  destruct Htok as [E1 E2]. assert (Hlen : length hs = length (holders sem)).
  { by rewrite <-(length_fmap s_token), E1, length_fmap. }
  pose proof (ss_sem _ _ (sx_sems _ Hctx) _ _ Es) as Is.
  apply sem_update_ctx; [done|done| | |].
  - destruct Is as [? ? ? ? ? ? ? Ha]. split; simpl; unfold slot_tokens; simpl; rewrite ?E1, ?E2, ?Hlen; try done.
    intros slot id w Hs Hq E. assert (Hin : (s_holder slot, s_request slot) ∈
      (λ x, (s_holder x, s_request x)) <$> holders sem).
    { rewrite <-E2. apply list_elem_of_fmap. by exists slot. }
    apply list_elem_of_fmap in Hin as (x & [= Ex Er] & Hx). rewrite Er. eapply Ha; [done..|congruence].
  - pose proof (sx_settled _ Hctx _ _ Es) as [?|[?|?]]; [by left|right; left; simpl; lia|by right; right].
  - unfold slot_tokens. simpl. rewrite E1. eauto.
Qed.

(** A smaller semaphore followed by a promotion. *)
Lemma promote_ctx ctx key sem hs q now :
  sem_ctx_inv ctx → semaphores ctx !! key = Some sem →
  hs `sublist_of` holders sem → q `sublist_of` sem_queue sem →
  let '(c', ss', _) := semaphore_promote (sem_counter ctx)
    (<[key := mkSem (limit sem) hs q]> (semaphores ctx)) key now in
  sem_ctx_inv (mkSemCtx c' ss' (semaphore_cancellations ctx)) ∧ sem_counter ctx ≤ c'.
Proof.
  intros [Hc I S L] Es Hhs Hq. pose proof (ss_sem _ _ I _ _ Es) as Is.
  assert (I1 : sems_inv (sem_counter ctx) (<[key := mkSem (limit sem) hs q]> (semaphores ctx))).
  { eapply sems_update; [done|done|by apply sem_inv_sub|]. unfold slot_tokens. simpl. intros t Hin. right.
    exists sem. split; [done|]. eapply elem_of_sublist; [done|]. by apply fmap_sublist. }
  pose proof (semaphore_promote_spec _ _ key now I1 Hc) as Hp.
  destruct (semaphore_promote _ _ _ _) as [[c' ss'] vs]. destruct Hp as (I2 & Hle & _ & Ho & Hs).
  split; [|done]. split; simpl; try done; [lia|].
  intros k s Hk. destruct (decide (k = key)) as [->|Hne]; [by apply Hs|].
  rewrite Ho, lookup_insert_ne in Hk by done. eapply sem_settled_counter; [by eapply S|done].
Qed.

Lemma sem_release_inv ctx revision now key holder tok :
  sem_ctx_inv ctx →
  let ctx' := (apply_semaphore_release ctx revision now key holder tok).1 in
  sem_ctx_inv ctx' ∧ sem_counter ctx ≤ sem_counter ctx'.
Proof.
  intros Hctx. unfold apply_semaphore_release.
  destruct (semaphores ctx !! key) as [sem|] eqn:Es; [|done]. set (kept := filter _ (holders sem)).
  assert (Hsub : kept `sublist_of` holders sem) by apply sublist_filter.
  case_bool_decide as Hlen.
  - simpl. split; [|done]. assert (kept = holders sem) as ->.
    { by apply filter_length_id. }
    rewrite insert_id; [by destruct ctx|]. by destruct sem.
  - pose proof (promote_ctx ctx key sem kept (sem_queue sem) now Hctx Es Hsub ltac:(done)) as Hp.
    by destruct (semaphore_promote _ _ _ _) as [[c' ss'] vs].
Qed.

Lemma sem_cancel_queued_inv ctx revision now key holder rid :
  sem_ctx_inv ctx →
  let ctx' := (sem_cancel_queued ctx revision now key holder rid).1 in
  sem_ctx_inv ctx' ∧ sem_counter ctx ≤ sem_counter ctx'.
Proof.
  intros Hctx. unfold sem_cancel_queued.
  destruct (semaphores ctx !! key) as [sem|] eqn:Es; simpl.
  2: { destruct (negb _); done. }
  destruct (Fifo.get _ _) as [w|]; simpl; [destruct (_ || _)|].
  - pose proof (promote_ctx ctx key sem (holders sem) (Fifo.without holder (sem_queue sem)) now Hctx Es
      ltac:(done) ltac:(apply sublist_filter)) as Hp.
    by destruct (semaphore_promote _ _ _ _) as [[c' ss'] vs].
  - destruct (List.find _ _); [done|]. destruct (negb _); done.
  - destruct (List.find _ _); [done|]. destruct (negb _); done.
Qed.

Lemma sem_cancel_inv ctx revision now key holder rid :
  sem_ctx_inv ctx →
  let ctx' := (apply_semaphore_cancel ctx revision now key holder rid).1 in
  sem_ctx_inv ctx' ∧ sem_counter ctx ≤ sem_counter ctx'.
Proof.
  intros Hctx. unfold apply_semaphore_cancel. destruct rid as [r|]; [|by apply sem_cancel_queued_inv].
  destruct (_ ≫= _); [done|].
  pose proof (remember_inv (semaphore_cancellations ctx) (acquisition_identity "semaphore" holder [key] r)
    (cancellation_tenant holder) now CANCELLATION_LIMITS (sx_ledger _ Hctx)) as L.
  unfold remember. destruct (remember_with_limits _ _ _ _ _) as [led [|]]; [|done].
  apply (sem_cancel_queued_inv (mkSemCtx (sem_counter ctx) (semaphores ctx) led)).
  destruct Hctx. by split.
Qed.
End preservation.
