(* ===== verification/SemaphoreTheorems.v ===== *)
(** What counting semaphores guarantee: the capacity bound, unique fencing
    tokens, FIFO admission and an immutable limit on every reachable state;
    and where two replicas can disagree. *)

From S2P Require Import Prelude Json Fencing Fifo Cancellation Locks Semaphores.

Section semaphore_theorems.
Context `{External}.

(** One replicated step of the semaphore state: a current command or an expiry
    sweep, which may visit the semaphores in any order. *)
Inductive sem_step (ctx : SemCtx) : SemCtx → Prop :=
| step_acquire revision now input :
    sa_legacy input = false → is_u32 (sa_limit input) →
    sem_step ctx (apply_semaphore_acquire ctx revision now input).1
| step_renew revision now key holder tok ttl :
    sem_step ctx (apply_semaphore_renew ctx revision now key holder tok ttl).1
| step_release revision now key holder tok :
    sem_step ctx (apply_semaphore_release ctx revision now key holder tok).1
| step_cancel revision now key holder rid :
    sem_step ctx (apply_semaphore_cancel ctx revision now key holder rid).1
| step_expire (order : HashOrder) now :
    sem_step ctx (semaphores_expire_due ctx now).

Definition sem_ctx_empty : SemCtx := mkSemCtx 0 ∅ empty_ledger.

Lemma sem_ctx_inv_empty : sem_ctx_inv sem_ctx_empty.
Proof. split; simpl; try done. Qed.

Lemma sem_step_inv ctx ctx' :
  sem_step ctx ctx' → sem_ctx_inv ctx → sem_ctx_inv ctx' ∧ sem_counter ctx ≤ sem_counter ctx'.
Proof.
  destruct 1; intros Hinv.
  - by apply sem_acquire_inv.
  - by apply sem_renew_inv.
  - by apply sem_release_inv.
  - by apply sem_cancel_inv.
  - destruct Hinv. by apply sem_expire_inv.
Qed.

Lemma sem_steps_inv ctx ctx' :
  rtc sem_step ctx ctx' → sem_ctx_inv ctx → sem_ctx_inv ctx' ∧ sem_counter ctx ≤ sem_counter ctx'.
Proof.
  induction 1 as [|x y z Hxy _ IH]; intros I; [done|].
  destruct (sem_step_inv _ _ Hxy I) as [Iy ?]. destruct (IH Iy). split; [done|lia].
Qed.

(** Capacity and fencing of every reachable state.  Whatever commands and
    sweeps ran, each semaphore holds at most its limit of permits, no two
    permits of the shard share a fencing token, every token was issued by the
    counter, and a waiter is queued only while the permits are used up or the
    token space is exhausted. *)
Theorem semaphore_capacity (ctx : SemCtx) (Hreach : rtc sem_step sem_ctx_empty ctx) :
  ∀ key s, semaphores ctx !! key = Some s →
    Z.of_nat (length (holders s)) ≤ limit s ∧
    NoDup (slot_tokens s) ∧
    (∀ t, t ∈ slot_tokens s → 0 < t ≤ sem_counter ctx) ∧
    (∀ key' s' t, semaphores ctx !! key' = Some s' → t ∈ slot_tokens s → t ∈ slot_tokens s' → key' = key) ∧
    (sem_queue s = [] ∨ Z.of_nat (length (holders s)) = limit s ∨ MAX_FENCING_TOKEN ≤ sem_counter ctx).
Proof.
  intros key s Hs. destruct (sem_steps_inv _ _ Hreach sem_ctx_inv_empty) as [[_ I S _] _].
  pose proof (ss_sem _ _ I _ _ Hs) as Is. split_and!; [apply Is|apply Is|apply Is| |].
  - intros key' s' t Hs' Ht Ht'. by eapply (ss_disjoint _ _ I).
  - pose proof (si_capacity _ _ Is). destruct (S _ _ Hs) as [?|[?|?]]; [by left|right; left; lia|by right; right].
Qed.

(** Promotion is FIFO and exact.  Promoting one semaphore admits the
    longest prefix of its queue that the free permits and the token space
    allow, in order, with consecutive fresh tokens; everything else, the other
    semaphores included, stays as it was. *)
Theorem semaphore_promote_exact (c now : Z) (ss : gmap string Semaphore) (key : string) (s : Semaphore)
    (Hinv : sems_inv c ss) (Hkey : ss !! key = Some s) :
  let n := admissible c s in
  semaphore_promote c ss key now =
  (c + Z.of_nat n,
   <[key := mkSem (limit s) (holders s ++ admit_waiters c now (take n (sem_queue s))) (drop n (sem_queue s))]> ss,
   slot_value <$> admit_waiters c now (take n (sem_queue s))).
Proof.
  pose proof (ss_sem _ _ Hinv _ _ Hkey) as Is. unfold semaphore_promote. rewrite Hkey.
  by rewrite sem_promote_loop_spec by (done || apply Is || by eapply sem_inv_holders).
Qed.

Lemma promote_limits c ss key now k s :
  sems_inv c ss → ss !! k = Some s →
  limit <$> (semaphore_promote c ss key now).1.2 !! k = Some (limit s).
Proof.
  intros I Hk. destruct (ss !! key) as [s0|] eqn:E.
  - unfold semaphore_promote. rewrite E. pose proof (ss_sem _ _ I _ _ E) as Is.
    rewrite sem_promote_loop_spec by (done || apply Is || by eapply sem_inv_holders). simpl.
    rewrite lookup_insert. case_decide; simplify_eq; [done|by rewrite Hk].
  - unfold semaphore_promote. rewrite E. simpl. by rewrite Hk.
Qed.

Lemma promote_keys_limits keys c ss now k s :
  sems_inv c ss → 0 ≤ c → ss !! k = Some s →
  limit <$> (foldl (λ '(c, ss) key, (semaphore_promote c ss key now).1) (c, ss) keys).2 !! k = Some (limit s).
Proof.
  revert c ss s. induction keys as [|key keys IH]; intros c ss s I Hc Hk; simpl; [by rewrite Hk|].
  pose proof (promote_limits c ss key now k s I Hk) as Hl.
  pose proof (semaphore_promote_spec c ss key now I Hc) as Hp.
  destruct (semaphore_promote c ss key now) as [[c1 ss1] vs]. simpl in *. destruct Hp as (I1 & ? & _).
  destruct (ss1 !! k) as [s1|] eqn:E; simplify_eq/=. rewrite (IH c1 ss1 s1); [by f_equal|done|lia|done].
Qed.

Lemma insert_limits (ss : gmap string Semaphore) key s0 s' k s :
  ss !! k = Some s → ss !! key = Some s0 → limit s' = limit s0 →
  limit <$> (<[key := s']> ss) !! k = Some (limit s).
Proof. intros Hk H0 Hl. rewrite lookup_insert. case_decide; simplify_eq; [by rewrite <-Hl|by rewrite Hk]. Qed.

Lemma shrink_promote_limits ctx key sem hs q now k s :
  sem_ctx_inv ctx → semaphores ctx !! key = Some sem →
  hs `sublist_of` holders sem → q `sublist_of` sem_queue sem → semaphores ctx !! k = Some s →
  limit <$> (semaphore_promote (sem_counter ctx)
    (<[key := mkSem (limit sem) hs q]> (semaphores ctx)) key now).1.2 !! k = Some (limit s).
Proof.
  intros [Hc I _ _] Es Hhs Hq Hk. pose proof (ss_sem _ _ I _ _ Es) as Is.
  pose proof (insert_limits _ _ _ (mkSem (limit sem) hs q) _ _ Hk Es ltac:(done)) as Hl.
  destruct (<[key := _]> (semaphores ctx) !! k) as [s1|] eqn:E; simplify_eq/=.
  rewrite (promote_limits _ _ _ _ _ s1); [by f_equal| |done].
  eapply sems_update; [done|done|by apply sem_inv_sub|]. unfold slot_tokens. simpl. intros t Hin. right.
  exists sem. split; [done|]. eapply elem_of_sublist; [done|]. by apply fmap_sublist.
Qed.

Lemma cancel_queued_limits ctx revision now key holder rid k s :
  sem_ctx_inv ctx → semaphores ctx !! k = Some s →
  limit <$> semaphores (sem_cancel_queued ctx revision now key holder rid).1 !! k = Some (limit s).
Proof.
  intros Hinv Hk. unfold sem_cancel_queued.
  assert (Hid : limit <$> semaphores ctx !! k = Some (limit s)) by by rewrite Hk.
  destruct (semaphores ctx !! key) as [sem|] eqn:Es; simpl.
  2: { by destruct (negb _). }
  destruct (Fifo.get _ _) as [w|]; simpl; [destruct (_ || _)|].
  - pose proof (shrink_promote_limits ctx key sem (holders sem) (Fifo.without holder (sem_queue sem)) now k s
      Hinv Es ltac:(done) ltac:(apply sublist_filter) Hk) as Hp.
    by destruct (semaphore_promote _ _ _ _) as [[c' ss'] vs].
  - destruct (List.find _ _); [done|]. by destruct (negb _).
  - destruct (List.find _ _); [done|]. by destruct (negb _).
Qed.

Lemma acquire_limits ctx revision now input k s :
  sa_legacy input = false → semaphores ctx !! k = Some s →
  limit <$> semaphores (apply_semaphore_acquire ctx revision now input).1 !! k = Some (limit s).
Proof.
  intros Hl Hk. unfold apply_semaphore_acquire. rewrite Hl. simpl.
  assert (Hid : limit <$> semaphores ctx !! k = Some (limit s)) by by rewrite Hk.
  destruct (is_some_and _ _); [done|]. destruct (negb _); [done|].
  assert (Hset : ∀ s', limit s' = limit (default (mkSem (sa_limit input) [] []) (semaphores ctx !! sa_key input)) →
    limit <$> <[sa_key input := s']> (semaphores ctx) !! k = Some (limit s)).
  { intros s' E. rewrite lookup_insert. case_decide as D; [|done]. subst. rewrite Hk in E. simpl in *. by f_equal. }
  destruct (List.find _ _); [by apply Hset|].
  destruct (_ && bool_decide _); [|by apply Hset]. destruct (next_token _); by apply Hset.
Qed.

Lemma sem_step_limits ctx ctx' k s :
  sem_step ctx ctx' → sem_ctx_inv ctx → semaphores ctx !! k = Some s →
  limit <$> semaphores ctx' !! k = Some (limit s).
Proof.
  destruct 1; intros Hinv Hk;
    assert (Hid : limit <$> semaphores ctx !! k = Some (limit s)) by (by rewrite Hk).
  - by apply acquire_limits.
  - unfold apply_semaphore_renew. destruct (semaphores ctx !! key) as [sem|] eqn:Es; [|done].
    destruct (List.find _ _); [|done]. destruct (negb _); [done|]. by eapply insert_limits.
  - unfold apply_semaphore_release. destruct (semaphores ctx !! key) as [sem|] eqn:Es; [|done].
    case_bool_decide; [by eapply insert_limits|].
    set (kept := filter _ _).
    pose proof (shrink_promote_limits ctx key sem kept (sem_queue sem) now k s Hinv Es
      ltac:(apply sublist_filter) ltac:(done) Hk) as Hp.
    by destruct (semaphore_promote _ _ _ _) as [[c' ss'] vs].
  - unfold apply_semaphore_cancel. destruct rid as [r|]; [|by apply cancel_queued_limits].
    destruct (_ ≫= _); [done|].
    pose proof (remember_inv (semaphore_cancellations ctx) (acquisition_identity "semaphore" holder [key] r)
      (cancellation_tenant holder) now CANCELLATION_LIMITS (sx_ledger _ Hinv)) as L.
    unfold remember. destruct (remember_with_limits _ _ _ _ _) as [led [|]]; [|done].
    apply (cancel_queued_limits (mkSemCtx (sem_counter ctx) (semaphores ctx) led)); [|done].
    destruct Hinv. by split.
  - unfold semaphores_expire_due, semaphores_promote. destruct Hinv as [Hc I _ _].
    pose proof (promote_keys_limits (hash_keys (expire_semaphore now <$> semaphores ctx)) (sem_counter ctx)
      (expire_semaphore now <$> semaphores ctx) now k (expire_semaphore now s)
      (expire_semaphores_inv _ _ now I) Hc ltac:(by rewrite lookup_fmap, Hk)) as Hp.
    destruct (foldl _ _ _) as [c' ss']. exact Hp.
Qed.

(** A semaphore's limit is part of its identity.  Once a semaphore
    exists, no later command or sweep changes its limit or removes it. *)
Theorem semaphore_limit_immutable (ctx ctx' : SemCtx) (k : string) (s : Semaphore)
    (Hreach : rtc sem_step sem_ctx_empty ctx) (Hlater : rtc sem_step ctx ctx')
    (Hs : semaphores ctx !! k = Some s) :
  ∃ s', semaphores ctx' !! k = Some s' ∧ limit s' = limit s.
Proof.
  destruct (sem_steps_inv _ _ Hreach sem_ctx_inv_empty) as [Hinv _]. clear Hreach.
  revert s Hs Hinv. induction Hlater as [|x y z Hxy _ IH]; intros s Hs Hinv; [by exists s|].
  pose proof (sem_step_limits _ _ _ _ Hxy Hinv Hs) as Hy.
  destruct (semaphores y !! k) as [sy|] eqn:E; simplify_eq/=.
  destruct (IH sy eq_refl) as (s' & ? & ?); [by apply (sem_step_inv _ _ Hxy)|]. exists s'. split; [done|congruence].
Qed.
End semaphore_theorems.

(** ** Where replicas can disagree *)

(** Two single-permit semaphores; on each, one holder whose lease ends at 100
    and one waiter. *)
Definition contended (h w : string) (t : Z) : Semaphore :=
  mkSem 1 [mkSlot h t 100 None] [(w, mkPermit w 5000 10 None None)].
Definition two_contended : SemCtx :=
  mkSemCtx 2 {["a" := contended "h1" "w1" 1; "b" := contended "h2" "w2" 2]} empty_ledger.

Definition token_of (ctx : SemCtx) (key : string) : option (list Z) := slot_tokens <$> semaphores ctx !! key.

(** The sweep that follows a lease expiry is not a function of the
    replicated state.  From the same state and the same clock, two replicas
    whose hash maps iterate in different orders hand the two waiters opposite
    fencing tokens, because [semaphores_promote] mints along
    [HashMap::keys]. *)
Theorem sweep_depends_on_hash_order :
  sem_ctx_inv two_contended ∧
  (∃ k, token_of (@semaphores_expire_due identity_order two_contended 100) k ≠
        token_of (@semaphores_expire_due reverse_order two_contended 100) k).
Proof.
  split.
  - assert (Hc : ∀ h w t, h ≠ w → 0 < t ≤ 2 → sem_inv 2 (contended h w t)).
    { intros h w t Hne Ht. split; simpl; try done.
      - apply NoDup_singleton.
      - by intros t' ->%list_elem_of_singleton.
      - apply NoDup_singleton.
      - by intros id x [= -> ->]%list_elem_of_singleton.
      - apply NoDup_singleton.
      - by intros slot id x ->%list_elem_of_singleton [= -> ->]%list_elem_of_singleton. }
    assert (Hl : ∀ k s, semaphores two_contended !! k = Some s →
      (k = "a" ∧ s = contended "h1" "w1" 1) ∨ (k = "b" ∧ s = contended "h2" "w2" 2)).
    { intros k s. unfold two_contended. simpl. rewrite lookup_insert, lookup_singleton.
      repeat case_decide; intros; simplify_eq; auto. }
    split; simpl; [done| | |apply ledger_inv_empty].
    + split.
      * intros k s [[-> ->]|[-> ->]]%Hl; by apply Hc.
      * by intros k1 k2 s1 s2 t [[-> ->]|[-> ->]]%Hl [[-> ->]|[-> ->]]%Hl
          ->%list_elem_of_singleton ?%list_elem_of_singleton.
    + intros k s [[-> ->]|[-> ->]]%Hl; right; left; done.
  - exists "a". vm_compute. done.
Qed.

(** ** Witnesses *)

Definition ask_permit (holder r : string) : SemaphoreAcquireInput :=
  mkSemAcquire "pool" holder 1 5000 true None (Some r) false.
Definition sem1 : SemCtx :=
  (@apply_semaphore_acquire plain_external sem_ctx_empty 1 100 (ask_permit "h1" "r1")).1.
Definition sem2 : SemCtx := (@apply_semaphore_acquire plain_external sem1 2 200 (ask_permit "h2" "r2")).1.
Definition pool2 : Semaphore :=
  mkSem 1 [mkSlot "h1" 1 5100 (Some "r1")] [("h2", mkPermit "h2" 5000 200 (Some 30200) (Some "r2"))].

Lemma sem2_reach : rtc (@sem_step plain_external) sem_ctx_empty sem2.
Proof.
  eapply rtc_l; [apply (step_acquire _ 1 100 (ask_permit "h1" "r1")); done|].
  apply rtc_once, (step_acquire _ 2 200 (ask_permit "h2" "r2")); done.
Qed.

Lemma sem2_pool : semaphores sem2 !! "pool" = Some pool2.
Proof. vm_compute. reflexivity. Qed.

Lemma semaphore_capacity_witness : Z.of_nat (length (holders pool2)) ≤ limit pool2.
Proof. exact (proj1 (@semaphore_capacity plain_external sem2 sem2_reach "pool" pool2 sem2_pool)). Defined.

Lemma semaphore_promote_exact_witness :
  let ss := {["pool" := mkSem 1 [] (sem_queue pool2)]} in
  (semaphore_promote 1 ss "pool" 300).2 = [slot_value (mkSlot "h2" 2 5300 (Some "r2"))].
Proof.
  intros ss. rewrite (semaphore_promote_exact 1 300 ss "pool" (mkSem 1 [] (sem_queue pool2))).
  - vm_compute. reflexivity.
  - split.
    + intros k s [<- <-]%lookup_singleton_Some. split; simpl; try done; try apply NoDup_nil_2.
      * by intros t ?%not_elem_of_nil.
      * apply NoDup_singleton.
      * by intros id w [= -> ->]%list_elem_of_singleton.
      * by intros slot id w ?%not_elem_of_nil.
    + by intros k1 k2 s1 s2 t [<- <-]%lookup_singleton_Some [<- <-]%lookup_singleton_Some.
  - apply lookup_singleton_eq.
Defined.

Lemma semaphore_limit_immutable_witness :
  ∃ s', semaphores (apply_semaphore_release sem2 3 300 "pool" "h1" 1).1 !! "pool" = Some s' ∧ limit s' = 1.
Proof.
  apply (@semaphore_limit_immutable plain_external sem2 _ "pool" pool2 sem2_reach).
  - apply rtc_once. apply step_release.
  - exact sem2_pool.
Defined.
