(* ===== verification/Registers.v ===== *)
(** Versioned key-value entries and counters of src/state.rs: conditional
    writes on a modification revision, deletion and expiry, and 64-bit
    saturating counters. *)

From S2P Require Import Prelude Json.

(** ** Key-value entries *)

Record KvEntry : Type := mkKv {
  kv_value : string;
  kv_mod_revision : Z;
  kv_expires : option Z
}.

Abbreviation kv_map := (gmap string KvEntry).

Definition cas_mismatch (current revision : Z) : Value :=
  json! ["ok" :- false; "reason" :- "cas_mismatch"; "current_revision" :- current; "revision" :- revision].

(** The guard [if let Some(expected) = prev_revision]. *)
Definition cas_fails (prev_revision : option Z) (current : Z) : bool :=
  is_some_and prev_revision (λ expected, negb (current =? expected)).

Definition kv_revision (kv : kv_map) (key : string) : Z := default 0 (kv_mod_revision <$> kv !! key).

Definition apply_kv_put (kv : kv_map) (revision now : Z) (key value : string)
    (ttl_ms prev_revision : option Z) : kv_map * Value :=
  let current_revision := kv_revision kv key in
  if cas_fails prev_revision current_revision then (kv, cas_mismatch current_revision revision)
  else
    let expires_at_ms := sat_add now <$> ttl_ms in
    (<[key := mkKv value revision expires_at_ms]> kv,
     json! ["ok" :- true; "key" :- key; "revision" :- revision; "expires_at_ms" :- expires_at_ms]).

Definition apply_kv_delete (kv : kv_map) (revision : Z) (key : string) : kv_map * Value :=
  (delete key kv,
   json! ["ok" :- true; "deleted" :- bool_decide (is_Some (kv !! key)); "revision" :- revision]).

(** [expires.map(|e| e > now).unwrap_or(true)] *)
Definition kv_live (now : Z) (e : KvEntry) : bool := is_none_or (kv_expires e) (λ x, now <? x).

(** The first statement of [expire_due]. *)
Definition kv_expire_due (kv : kv_map) (now : Z) : kv_map := retain (λ _ e, kv_live now e) kv.

(** Reads take the clock of the serving node. *)
Definition kv_get (kv : kv_map) (now : Z) (key : string) : option KvEntry :=
  e ← kv !! key; if kv_live now e then Some e else None.

Definition kv_prefix (kv : kv_map) (now : Z) (prefix : string) : list (string * KvEntry) :=
  filter (λ ke, String.prefix prefix ke.1 && kv_live now ke.2 = true) (btree_iter kv).

(** ** Counters *)

Record CounterEntry : Type := mkCounter {
  ctr_value : Z;
  ctr_mod_revision : Z
}.

Abbreviation counter_map := (gmap string CounterEntry).

Definition counter_revision (cs : counter_map) (key : string) : Z := default 0 (ctr_mod_revision <$> cs !! key).
Definition counter_value (cs : counter_map) (key : string) : Z := default 0 (ctr_value <$> cs !! key).

Definition apply_counter_add (cs : counter_map) (revision : Z) (key : string) (delta : Z)
    (prev_revision : option Z) : counter_map * Value :=
  let current_revision := counter_revision cs key in
  if cas_fails prev_revision current_revision then (cs, cas_mismatch current_revision revision)
  else
    let value := i64_sat_add (counter_value cs key) delta in
    (<[key := mkCounter value revision]> cs,
     json! ["ok" :- true; "key" :- key; "value" :- value; "mod_revision" :- revision]).

Definition apply_counter_set (cs : counter_map) (revision : Z) (key : string) (value : Z)
    (prev_revision : option Z) : counter_map * Value :=
  let current_revision := counter_revision cs key in
  if cas_fails prev_revision current_revision then (cs, cas_mismatch current_revision revision)
  else
    (<[key := mkCounter value revision]> cs,
     json! ["ok" :- true; "key" :- key; "value" :- value; "mod_revision" :- revision]).

(** ** Conditional writes *)

(** A command on the key-value map. *)
Inductive kv_call : Type :=
| KPut (key value : string) (ttl_ms prev_revision : option Z)
| KDelete (key : string)
| KOther.

(** The state machine sweeps, advances the revision and runs the command. *)
Definition kv_exec (st : Z * kv_map) (call : Z * kv_call) : Z * kv_map :=
  let '(rev, kv) := st in
  let '(now, c) := call in
  let kv := kv_expire_due kv now in
  let rev := rev + 1 in
  (rev, match c with
        | KPut key value ttl prev => (apply_kv_put kv rev now key value ttl prev).1
        | KDelete key => (apply_kv_delete kv rev key).1
        | KOther => kv
        end).

Lemma lookup_kv_expire_due kv now key :
  kv_expire_due kv now !! key = kv_get kv now key.
Proof. unfold kv_expire_due, kv_get. rewrite lookup_retain. by destruct (kv !! key). Qed.

Lemma kv_revision_exec st call key :
  0 ≤ st.1 →
  let st' := kv_exec st call in
  st'.1 = st.1 + 1 ∧
  (kv_revision st'.2 key = kv_revision st.2 key ∨ kv_revision st'.2 key = 0 ∨ kv_revision st'.2 key = st'.1).
Proof.
  destruct st as [rev kv], call as [now c]. intros Hr. simpl. split; [done|].
  assert (He : kv_revision (kv_expire_due kv now) key = kv_revision kv key ∨
               kv_revision (kv_expire_due kv now) key = 0).
  { unfold kv_revision. rewrite lookup_kv_expire_due. unfold kv_get.
    destruct (kv !! key) as [e|]; simpl; [|by left]. destruct (kv_live now e); auto. }
  destruct c as [k value ttl prev|k|]; [| |by destruct He; auto].
  - unfold apply_kv_put. destruct (cas_fails _ _); simpl; [by destruct He; auto|].
    unfold kv_revision in *. rewrite lookup_insert. case_decide; simpl; [by auto|by destruct He; auto].
  - unfold kv_revision in *. simpl. rewrite lookup_delete. case_decide; simpl; [by auto|by destruct He; auto].
Qed.

Lemma kv_no_return rev kv calls key e :
  0 < e ≤ rev → kv_revision kv key ≠ e → 
  kv_revision (foldl kv_exec (rev, kv) calls).2 key ≠ e.
Proof.
  revert rev kv. induction calls as [|c calls IH]; intros rev kv He Hne; [done|]. cbn [foldl].
  pose proof (kv_revision_exec (rev, kv) c key ltac:(simpl; lia)) as [Hrev Hk].
  destruct (kv_exec (rev, kv) c) as [rev' kv'] eqn:E. simpl in Hrev, Hk. apply IH; [lia|].
  destruct Hk as [->|[->| ->]]; [done|lia|lia].
Qed.

(** Conditional writes have one winner.  After a write conditioned on
    revision [e] succeeded, no later write conditioned on [e] succeeds,
    whatever puts, deletes, expiries and other commands happen in between: a
    modification revision never comes back. *)
Theorem kv_cas_single_winner (kv : kv_map) (rev now now' e : Z) (key v v' : string)
    (ttl ttl' : option Z) (calls : list (Z * kv_call))
    (He : 0 < e ≤ rev)
    (Hwin : flag "ok" (apply_kv_put kv (rev + 1) now key v ttl (Some e)).2 = true) :
  let kv1 := (apply_kv_put kv (rev + 1) now key v ttl (Some e)).1 in
  let '(rev2, kv2) := foldl kv_exec (rev + 1, kv1) calls in
  apply_kv_put (kv_expire_due kv2 now') (rev2 + 1) now' key v' ttl' (Some e) =
  (kv_expire_due kv2 now', cas_mismatch (kv_revision (kv_expire_due kv2 now') key) (rev2 + 1)).
Proof.
  intros kv1. assert (H1 : kv_revision kv1 key = rev + 1).
  { revert Hwin. unfold kv1, apply_kv_put. destruct (cas_fails _ _); [done|]. intros _.
    unfold kv_revision. simpl. by rewrite lookup_insert_eq. }
  pose proof (kv_no_return (rev + 1) kv1 (calls ++ [(now', KOther)]) key e ltac:(lia) ltac:(lia)) as Hne.
  rewrite foldl_app in Hne. destruct (foldl kv_exec _ calls) as [rev2 kv2]. simpl in Hne.
  unfold apply_kv_put. assert (cas_fails (Some e) (kv_revision (kv_expire_due kv2 now') key) = true) as ->; [|done].
  unfold cas_fails. simpl. by apply negb_true_iff, Z.eqb_neq.
Qed.

Lemma kv_cas_single_winner_witness :
  let kv : kv_map := {["k" := mkKv "a" 3 None]} in
  let kv1 := (apply_kv_put kv 6 10 "k" "b" None (Some 3)).1 in
  kv1 !! "k" = Some (mkKv "b" 6 None) ∧
  let '(rev2, kv2) := foldl kv_exec (6, kv1) [(15, KDelete "k")] in
  apply_kv_put (kv_expire_due kv2 20) (rev2 + 1) 20 "k" "c" None (Some 3) =
  (kv_expire_due kv2 20, cas_mismatch (kv_revision (kv_expire_due kv2 20) "k") (rev2 + 1)).
Proof.
  split; [vm_compute; reflexivity|].
  apply (kv_cas_single_winner {["k" := mkKv "a" 3 None]} 5 10 20 3 "k" "b" "c" None None [(15, KDelete "k")]).
  - lia.
  - vm_compute. reflexivity.
Defined.

(** A read returns exactly what a sweep at the same clock would keep, so
    an expired entry is invisible before the sweep has removed it; and a prefix
    listing is the sorted list of the live entries below the prefix. *)
Theorem kv_reads_live (kv : kv_map) (now : Z) (key prefix : string) :
  kv_get kv now key = kv_expire_due kv now !! key ∧
  Sorted String.le (kv_prefix kv now prefix).*1 ∧
  ∀ k e, (k, e) ∈ kv_prefix kv now prefix ↔ kv_get kv now k = Some e ∧ String.prefix prefix k = true.
Proof.
  split_and!; [by rewrite lookup_kv_expire_due| |].
  - unfold kv_prefix. apply StronglySorted_Sorted.
    pose proof (btree_iter_sorted kv) as Hs.
    induction (btree_iter kv) as [|x l IH]; [done|]. apply StronglySorted_cons in Hs as [Hx Hs].
    rewrite filter_cons. case_decide; [|auto]. simpl. apply StronglySorted_cons. split; [|auto].
    rewrite Forall_forall in Hx |- *. intros k (y & -> & [_ Hy]%list_elem_of_filter)%list_elem_of_fmap.
    apply Hx. apply list_elem_of_fmap. by exists y.
  - intros k e. unfold kv_prefix, kv_get.
    rewrite list_elem_of_filter, btree_iter_Permutation, elem_of_map_to_list. simpl.
    rewrite andb_true_iff. destruct (kv !! k) as [e'|]; simpl.
    + destruct (kv_live now e') eqn:El; split.
      * intros [[? _] [= <-]]. done.
      * intros [[= <-] ?]. done.
      * intros [[_ ?] [= <-]]. congruence.
      * by intros [? _].
    + split; [by intros [_ ?]|by intros [? _]].
Qed.

(** ** Counters *)

Lemma counter_add_value cs revision key delta :
  counter_value (apply_counter_add cs revision key delta None).1 key =
  i64_sat_add (counter_value cs key) delta.
Proof. unfold apply_counter_add, counter_value. simpl. by rewrite lookup_insert_eq. Qed.

Definition counters_in_range (cs : counter_map) : Prop := ∀ k e, cs !! k = Some e → is_i64 (ctr_value e).

Definition add_all (cs : counter_map) (key : string) (deltas : list (Z * Z)) : counter_map :=
  foldl (λ cs '(rev, d), (apply_counter_add cs rev key d None).1) cs deltas.

(** A counter counts.  A sequence of unconditional additions, at whatever
    revisions, adds up to the exact sum as long as every partial sum fits a
    64-bit signed integer, and touches no other counter; in any case every
    value stays within the 64-bit range. *)
Theorem counter_adds_sum (cs : counter_map) (key : string) (deltas : list (Z * Z))
    (Hrange : counters_in_range cs) :
  (∀ n, is_i64 (counter_value cs key + foldr Z.add 0 (take n deltas).*2)) →
  counter_value (add_all cs key deltas) key = counter_value cs key + foldr Z.add 0 deltas.*2 ∧
  (∀ k, k ≠ key → add_all cs key deltas !! k = cs !! k) ∧
  counters_in_range (add_all cs key deltas).
Proof.
  revert cs Hrange. induction deltas as [|[rev d] deltas IH]; intros cs Hrange Hfit.
  - simpl. rewrite Z.add_0_r. done.
  - change (add_all cs key ((rev, d) :: deltas)) with
      (add_all (apply_counter_add cs rev key d None).1 key deltas).
    pose proof (counter_add_value cs rev key d) as Hv.
    assert (Hd : i64_sat_add (counter_value cs key) d = counter_value cs key + d).
    { specialize (Hfit 1%nat). simpl in Hfit. unfold i64_sat_add, is_i64 in *. lia. }
    rewrite Hd in Hv. set (cs1 := (apply_counter_add cs rev key d None).1) in *.
    assert (Hother : ∀ k, k ≠ key → cs1 !! k = cs !! k).
    { intros k Hk. unfold cs1, apply_counter_add. simpl. by rewrite lookup_insert_ne. }
    destruct (IH cs1) as (Hsum & Ho & Hr).
    + intros k e. unfold cs1, apply_counter_add. simpl. rewrite lookup_insert.
      case_decide; [intros [= <-]; apply i64_sat_add_range|apply Hrange].
    + intros n. rewrite Hv. specialize (Hfit (S n)). simpl in Hfit. by rewrite <-Z.add_assoc.
    + split_and!; [rewrite Hsum, Hv, fmap_cons; cbn [foldr snd]; lia| |done]. intros k Hk. rewrite Ho by done. by apply Hother.
Qed.

Lemma counter_adds_sum_witness :
  counter_value (add_all {["c" := mkCounter 5 1]} "c" [(2, 10); (3, -4)]) "c" =
  counter_value {["c" := mkCounter 5 1]} "c" + 6.
Proof.
  refine (proj1 (counter_adds_sum {["c" := mkCounter 5 1]} "c" [(2, 10); (3, -4)] _ _)).
  - intros k e [<- <-]%lookup_singleton_Some. split; simpl; done.
  - intros [|[|[|n]]]; split; vm_compute; done.
Defined.
