(* ===== verification/Barriers.v ===== *)
(** Barriers of src/state.rs: [BarrierPolicy], the status derived from the
    arrivals ([BarrierRecord::status]), the view and the two commands. *)

From S2P Require Import Prelude Json.

(** ** Data *)

Inductive BarrierPolicy : Type :=
| All
| Quorum (required : Z)
| FirstSuccess
| AnyVeto
| BestByDeadline
| WeightedQuorum (required_weight : Z).

Inductive BarrierStatus : Type := Pending | Satisfied | Vetoed | BTimedOut.

#[export] Instance BarrierStatus_eq_dec : EqDecision BarrierStatus.
Proof. solve_decision. Defined.

Definition status_is_terminal (s : BarrierStatus) : bool := negb (bool_decide (s = Pending)).

Record BarrierArrival : Type := mkArrival {
  ba_participant : string;
  ba_weight : Z;
  ba_veto : bool;
  ba_arrived_ms : Z
}.

Record BarrierRecord : Type := mkBarrier {
  b_policy : BarrierPolicy;
  b_expected : Z;
  b_deadline_ms : option Z;
  b_arrivals : gmap string BarrierArrival
}.

Record BarrierState : Type := mkBarrierState {
  bs_name : string;
  bs_policy : BarrierPolicy;
  bs_expected : Z;
  bs_deadline_ms : option Z;
  bs_status : BarrierStatus;
  bs_arrivals : list BarrierArrival;
  bs_arrived_count : Z;
  bs_arrived_weight : Z
}.

#[export] Instance ser_policy : Serialize BarrierPolicy := λ p,
  match p with
  | All => json! ["kind" :- "all"]
  | Quorum r => json! ["kind" :- "quorum"; "required" :- r]
  | FirstSuccess => json! ["kind" :- "first_success"]
  | AnyVeto => json! ["kind" :- "any_veto"]
  | BestByDeadline => json! ["kind" :- "best_by_deadline"]
  | WeightedQuorum w => json! ["kind" :- "weighted_quorum"; "required_weight" :- w]
  end.

#[export] Instance ser_status : Serialize BarrierStatus := λ s,
  JStr match s with
       | Pending => "pending"
       | Satisfied => "satisfied"
       | Vetoed => "vetoed"
       | BTimedOut => "timed_out"
       end.

#[export] Instance ser_arrival : Serialize BarrierArrival := λ a,
  json! ["participant" :- ba_participant a; "weight" :- ba_weight a; "veto" :- ba_veto a;
         "arrived_ms" :- ba_arrived_ms a].

#[export] Instance ser_barrier_state : Serialize BarrierState := λ b,
  json! ["name" :- bs_name b; "policy" :- bs_policy b; "expected" :- bs_expected b;
         "deadline_ms" :- bs_deadline_ms b; "status" :- bs_status b; "arrivals" :- bs_arrivals b;
         "arrived_count" :- bs_arrived_count b; "arrived_weight" :- bs_arrived_weight b].

(** ** Status *)

(** [self.arrivals.values()] *)
Definition arrivals_of (b : BarrierRecord) : list BarrierArrival := (map_to_list (b_arrivals b)).*2.
Definition approvals (l : list BarrierArrival) : list BarrierArrival := filter (λ a, ba_veto a = false) l.

Definition barrier_count (b : BarrierRecord) : Z := Z.of_nat (length (approvals (arrivals_of b))).
Definition barrier_weight (b : BarrierRecord) : Z :=
  foldl (λ acc a, sat_add acc (ba_weight a)) 0 (approvals (arrivals_of b)).

Definition barrier_deadline_passed (b : BarrierRecord) (now : Z) : bool :=
  is_some_and (b_deadline_ms b) (λ d, d <=? now).

Definition barrier_met (b : BarrierRecord) (now : Z) : bool :=
  match b_policy b with
  | All | AnyVeto => b_expected b <=? barrier_count b
  | Quorum required => required <=? barrier_count b
  | FirstSuccess => 1 <=? barrier_count b
  | WeightedQuorum required_weight => required_weight <=? barrier_weight b
  | BestByDeadline => barrier_deadline_passed b now && (1 <=? barrier_count b)
  end.

Definition barrier_status (b : BarrierRecord) (now : Z) : BarrierStatus :=
  if match b_policy b with AnyVeto => existsb ba_veto (arrivals_of b) | _ => false end then Vetoed
  else if barrier_met b now then Satisfied
  else if barrier_deadline_passed b now then BTimedOut
  else Pending.

(** ** View *)

(** [sort_by(arrived_ms, then participant)] *)
Definition arrival_le (a b : BarrierArrival) : Prop :=
  ba_arrived_ms a < ba_arrived_ms b ∨
  (ba_arrived_ms a = ba_arrived_ms b ∧ String.le (ba_participant a) (ba_participant b)).
#[export] Instance arrival_le_dec : RelDecision arrival_le.
Proof. intros a b. unfold arrival_le. apply _. Defined.

(** [arrived_weight] is a plain [sum()], which wraps. *)
Definition barrier_view (b : BarrierRecord) (name : string) (now : Z) : BarrierState :=
  let arrivals := merge_sort arrival_le (arrivals_of b) in
  mkBarrierState name (b_policy b) (b_expected b) (b_deadline_ms b) (barrier_status b now) arrivals
    (as_u32 (Z.of_nat (length (approvals arrivals))))
    (foldl wrap_add 0 (ba_weight <$> approvals arrivals)).

(** ** Commands *)

Definition apply_barrier_create (bs : gmap string BarrierRecord) (now : Z) (name : string)
    (policy : BarrierPolicy) (expected : Z) (deadline_ms : option Z) : gmap string BarrierRecord * Value :=
  match bs !! name with
  | Some record =>
      if status_is_terminal (barrier_status record now) then
        (bs, json! ["ok" :- false; "reason" :- "already_resolved"; "barrier" :- barrier_view record name now])
      else
        let record' := mkBarrier policy expected deadline_ms (b_arrivals record) in
        (<[name := record']> bs, json! ["ok" :- true; "barrier" :- barrier_view record' name now])
  | None =>
      let record' := mkBarrier policy expected deadline_ms ∅ in
      (<[name := record']> bs, json! ["ok" :- true; "barrier" :- barrier_view record' name now])
  end.

Definition barrier_arrive (record : BarrierRecord) (now : Z) (participant : string) (weight : Z) (veto : bool) :
    BarrierRecord :=
  mkBarrier (b_policy record) (b_expected record) (b_deadline_ms record)
    (<[participant := mkArrival participant weight veto now]> (b_arrivals record)).

Definition apply_barrier_arrive (bs : gmap string BarrierRecord) (now : Z) (name participant : string)
    (weight : Z) (veto : bool) : gmap string BarrierRecord * Value :=
  let record := barrier_arrive (default (mkBarrier All 1 None ∅) (bs !! name)) now participant weight veto in
  let view := barrier_view record name now in
  (<[name := record]> bs,
   json! ["ok" :- true; "resolved" :- status_is_terminal (bs_status view); "barrier" :- view]).

(** ** The status as a set of arrivals *)

(** Adding an arrival of a new participant. *)
Lemma arrivals_of_arrive b now p w v :
  b_arrivals b !! p = None →
  arrivals_of (barrier_arrive b now p w v) ≡ₚ mkArrival p w v now :: arrivals_of b.
Proof. intros Hp. unfold arrivals_of. simpl. by rewrite map_to_list_insert. Qed.

Lemma barrier_count_perm b l :
  arrivals_of b ≡ₚ l → barrier_count b = Z.of_nat (length (approvals l)).
Proof. intros E. unfold barrier_count, approvals. by rewrite E. Qed.

Definition weights_ok (b : BarrierRecord) : Prop :=
  map_Forall (λ _ a, is_u64 (ba_weight a)) (b_arrivals b).

Lemma weights_ok_list b : weights_ok b → Forall (λ a, 0 ≤ ba_weight a) (approvals (arrivals_of b)).
Proof.
  intros Hw. apply Forall_forall. intros a [_ Ha]%list_elem_of_filter.
  unfold arrivals_of in Ha. apply list_elem_of_fmap in Ha as ([k a'] & -> & Hin).
  apply elem_of_map_to_list in Hin. apply Hw in Hin. destruct Hin. done.
Qed.

Lemma barrier_weight_eq b :
  weights_ok b → barrier_weight b = Z.min (sumZ (ba_weight <$> approvals (arrivals_of b))) U64_MAX.
Proof.
  intros Hw. unfold barrier_weight. rewrite foldl_map. apply sat_sum.
  apply Forall_fmap. by apply weights_ok_list.
Qed.

(** A satisfied barrier stays satisfied while more participants arrive
    and time passes, for every policy: a new participant's approval can only
    add to the tallies, and saturation never takes a met weight quorum back. *)
Theorem barrier_satisfied_monotone (b : BarrierRecord) (now now' at_ms weight : Z) (p : string)
    (Hnew : b_arrivals b !! p = None) (Hw : weights_ok b) (Hweight : is_u64 weight)
    (Htime : now ≤ now') (Hsat : barrier_status b now = Satisfied) :
  barrier_status (barrier_arrive b at_ms p weight false) now' = Satisfied.
Proof.
  pose proof (arrivals_of_arrive b at_ms p weight false Hnew) as Hp.
  set (b' := barrier_arrive b at_ms p weight false) in *.
  assert (Hcount : barrier_count b' = barrier_count b + 1).
  { rewrite (barrier_count_perm _ _ Hp). unfold approvals. rewrite filter_cons, decide_True by done.
    simpl. unfold barrier_count, approvals. lia. }
  assert (Hw' : weights_ok b') by (apply map_Forall_insert_2; done).
  assert (Hwt : barrier_weight b ≤ barrier_weight b').
  { rewrite !barrier_weight_eq by done.
    rewrite (sumZ_perm (ba_weight <$> approvals (arrivals_of b')) (weight :: (ba_weight <$> approvals (arrivals_of b)))).
    - unfold sumZ. cbn [foldr]. destruct Hweight. lia.
    - unfold approvals. rewrite Hp. by rewrite filter_cons, decide_True by done. }
  assert (Hdl : barrier_deadline_passed b now = true → barrier_deadline_passed b' now' = true).
  { unfold barrier_deadline_passed. simpl. destruct (b_deadline_ms b); simpl; [|done]. intros. bools. lia. }
  assert (Hveto : existsb ba_veto (arrivals_of b) = false → existsb ba_veto (arrivals_of b') = false).
  { intros Hno. apply not_true_iff_false. intros (a & Ha & Hv)%existsb_exists.
    apply list_elem_of_In in Ha. rewrite Hp, elem_of_cons in Ha. destruct Ha as [->|Ha]; [done|].
    apply not_true_iff_false in Hno. apply Hno, existsb_exists. exists a. by rewrite <-list_elem_of_In. }
  assert (Hmet : barrier_met b now = true → barrier_met b' now' = true).
  { unfold barrier_met. change (b_policy b') with (b_policy b). change (b_expected b') with (b_expected b).
    rewrite Hcount. destruct (b_policy b); rewrite ?andb_true_iff, ?Z.leb_le; try lia.
    intros [? ?]. split; [auto|lia]. }
  revert Hsat. unfold barrier_status. change (b_policy b') with (b_policy b).
  destruct (match b_policy b with AnyVeto => _ | _ => false end) eqn:Ev; [done|].
  assert (match b_policy b with AnyVeto => existsb ba_veto (arrivals_of b') | _ => false end = false) as ->.
  { destruct (b_policy b); auto. }
  destruct (barrier_met b now); [by rewrite Hmet|]. by destruct (barrier_deadline_passed b now).
Qed.

Lemma barrier_satisfied_monotone_witness :
  let b := mkBarrier (WeightedQuorum U64_MAX) 2 None {["p" := mkArrival "p" U64_MAX false 5]} in
  barrier_status (barrier_arrive b 7 "q" 9 false) 7 = Satisfied.
Proof.
  apply (barrier_satisfied_monotone _ 5 7 7 9 "q"); try done.
  intros k a. simpl. intros [<- <-]%lookup_singleton_Some. done.
Defined.

(** A terminal status persists with time.  With the same arrivals, a
    barrier that is satisfied, vetoed or timed out has the same status at
    every later clock. *)
Theorem barrier_status_stable (b : BarrierRecord) (now now' : Z) (Htime : now ≤ now') :
  status_is_terminal (barrier_status b now) = true → barrier_status b now' = barrier_status b now.
Proof.
  assert (Hdl : barrier_deadline_passed b now = true → barrier_deadline_passed b now' = true).
  { unfold barrier_deadline_passed. destruct (b_deadline_ms b); simpl; [|done]. intros. bools. lia. }
  unfold barrier_status. destruct (match b_policy b with AnyVeto => _ | _ => false end); [done|].
  unfold barrier_met. destruct (barrier_deadline_passed b now).
  - by rewrite Hdl.
  - destruct (b_policy b); simpl; try done; by destruct (_ <=? _).
Qed.

Lemma barrier_status_stable_witness :
  let b := mkBarrier (Quorum 2) 3 (Some 10) {["p" := mkArrival "p" 1 false 5]} in
  barrier_status b 99 = barrier_status b 10.
Proof. apply (barrier_status_stable _ 10 99); [lia|reflexivity]. Defined.

(** Re-creating a barrier never rewrites a resolved one, and otherwise
    keeps every recorded arrival; an arrival records exactly that participant. *)
Theorem barrier_commands_exact (bs : gmap string BarrierRecord) (now expected weight : Z)
    (name participant : string) (policy : BarrierPolicy) (deadline_ms : option Z) (veto : bool) :
  (let '(bs', out) := apply_barrier_create bs now name policy expected deadline_ms in
   (∀ k, k ≠ name → bs' !! k = bs !! k) ∧
   if flag "ok" out
   then ∃ arrivals, bs' !! name = Some (mkBarrier policy expected deadline_ms arrivals) ∧
          arrivals = default ∅ (b_arrivals <$> bs !! name) ∧
          ∀ r, bs !! name = Some r → barrier_status r now = Pending
   else bs' = bs ∧ ∃ r, bs !! name = Some r ∧ barrier_status r now ≠ Pending) ∧
  (let '(bs', out) := apply_barrier_arrive bs now name participant weight veto in
   flag "ok" out = true ∧ (∀ k, k ≠ name → bs' !! k = bs !! k) ∧
   ∃ r, bs' !! name = Some r ∧
     b_arrivals r !! participant = Some (mkArrival participant weight veto now) ∧
     (∀ q, q ≠ participant → b_arrivals r !! q = default ∅ (b_arrivals <$> bs !! name) !! q) ∧
     flag "resolved" out = status_is_terminal (barrier_status r now)).
Proof.
  split.
  - unfold apply_barrier_create. destruct (bs !! name) as [r|] eqn:E.
    + unfold status_is_terminal. case_bool_decide as Ht; simpl; split.
      * intros k Hk. by rewrite lookup_insert_ne.
      * exists (b_arrivals r). rewrite lookup_insert_eq. split_and!; [done|done|]. by intros r' [= <-].
      * done.
      * split; [done|]. by exists r.
    + simpl. split; [intros k Hk; by rewrite lookup_insert_ne|].
      exists ∅. by rewrite lookup_insert_eq.
  - simpl. split_and!; [done|intros k Hk; by rewrite lookup_insert_ne|].
    eexists. rewrite lookup_insert_eq. split_and!; [done| | |done].
    + simpl. apply lookup_insert_eq.
    + intros q Hq. simpl. rewrite lookup_insert_ne by done. by destruct (bs !! name).
Qed.

(** What the documented monotonicity leaves out.  A participant who
    arrives a second time with a veto takes its own approval back, so a
    first-success barrier already reported [satisfied] becomes pending again;
    and while the status saturates, the weight in the view wraps, so the view
    of a barrier satisfied at the maximal weight reports weight 0. *)
Theorem barrier_rearrival_and_wrapped_view :
  (∃ b p, barrier_status b 10 = Satisfied ∧ barrier_status (barrier_arrive b 20 p 1 true) 20 = Pending) ∧
  (∃ b, weights_ok b ∧ barrier_status b 10 = Satisfied ∧ b_policy b = WeightedQuorum U64_MAX ∧
     bs_arrived_weight (barrier_view b "b" 10) = 0).
Proof.
  split.
  - exists (mkBarrier FirstSuccess 1 None {["p" := mkArrival "p" 1 false 5]}), "p". split; reflexivity.
  - exists (mkBarrier (WeightedQuorum U64_MAX) 2 None
      {["p" := mkArrival "p" U64_MAX false 5; "q" := mkArrival "q" 1 false 6]}).
    split_and!; try reflexivity.
    intros k a. simpl. rewrite lookup_insert, lookup_singleton.
    repeat case_decide; intros; simplify_eq; split; done.
Qed.
