(* ===== verification/Tasks.v ===== *)
(** Durable tasks of src/state.rs: claimable units of work whose owner holds a
    fencing token and a lease. *)

From S2P Require Import Prelude Json Fencing.

(** ** Data *)

Inductive TaskStatus : Type := TPending | TClaimed | TRunning | TCompleted | TFailed | TCancelled.

#[export] Instance TaskStatus_eq_dec : EqDecision TaskStatus.
Proof. solve_decision. Defined.

Definition task_terminal (s : TaskStatus) : bool :=
  match s with TCompleted | TFailed | TCancelled => true | _ => false end.

Record TaskRecord : Type := mkTask {
  t_type : string;
  t_payload : Value;
  t_status : TaskStatus;
  t_owner : option string;
  t_token : Z;
  t_lease_ttl : Z;
  t_lease : option Z;
  t_progress : Z;
  t_checkpoint : Value;
  t_result : option Value;
  t_deadline : option Z;
  t_generation : Z
}.

Abbreviation task_map := (gmap string TaskRecord).

#[export] Instance ser_task_status : Serialize TaskStatus := λ s,
  JStr match s with
       | TPending => "pending"
       | TClaimed => "claimed"
       | TRunning => "running"
       | TCompleted => "completed"
       | TFailed => "failed"
       | TCancelled => "cancelled"
       end.

(** [TaskRecord::view], as the JSON of [TaskState]. *)
Definition task_view (r : TaskRecord) (name : string) : Value :=
  json! ["name" :- name; "task_type" :- t_type r; "payload" :- t_payload r; "status" :- t_status r;
         "owner" :- t_owner r; "fencing_token" :- t_token r; "progress" :- t_progress r;
         "checkpoint" :- t_checkpoint r; "result" :- t_result r; "lease_expires_ms" :- t_lease r;
         "deadline_ms" :- t_deadline r; "generation" :- t_generation r].

Definition claimable (r : TaskRecord) (now : Z) : bool :=
  negb (task_terminal (t_status r))
  && (bool_decide (t_status r = TPending) || is_none_or (t_lease r) (λ e, e <=? now)).

Definition owned_now (r : TaskRecord) (now : Z) (worker : string) (token : Z) : bool :=
  negb (task_terminal (t_status r)) && bool_decide (t_owner r = Some worker)
  && (t_token r =? token) && is_some_and (t_lease r) (λ e, now <? e).

(** ** Commands *)

Definition apply_task_create (ts : task_map) (name task_type : string) (payload : Value)
    (deadline_ms : option Z) : task_map * Value :=
  match ts !! name with
  | Some existing => (ts, json! ["ok" :- true; "created" :- false; "task" :- task_view existing name])
  | None =>
      let record := mkTask task_type payload TPending None 0 0 None 0 JNull None deadline_ms 1 in
      (<[name := record]> ts, json! ["ok" :- true; "created" :- true; "task" :- task_view record name])
  end.

(** The token is minted before the task is looked up. *)
Definition apply_task_claim (c : Z) (ts : task_map) (now : Z) (name worker : string) (ttl_ms : Z) :
    Z * task_map * Value :=
  match next_token c with
  | None => (c, ts, json! ["ok" :- false; "reason" :- "fencing_tokens_exhausted"])
  | Some token =>
      match ts !! name with
      | None => (token, ts, json! ["ok" :- false; "reason" :- "not_found"])
      | Some r =>
          if task_terminal (t_status r) then
            (token, ts, json! ["ok" :- false; "reason" :- "terminal"; "task" :- task_view r name])
          else if negb (claimable r now) then
            (token, ts, json! ["ok" :- false; "reason" :- "already_claimed"; "owner" :- t_owner r;
                               "task" :- task_view r name])
          else
            let r' := mkTask (t_type r) (t_payload r) TClaimed (Some worker) token ttl_ms
                        (Some (sat_add now ttl_ms)) (t_progress r) (t_checkpoint r) (t_result r)
                        (t_deadline r) (wrap_add (t_generation r) 1) in
            (token, <[name := r']> ts,
             json! ["ok" :- true; "fencing_token" :- token; "task" :- task_view r' name])
      end
  end.

(** The two guards every owner command starts with. *)
Definition task_fenced (ts : task_map) (name : string) (guard : TaskRecord → bool)
    (body : TaskRecord → task_map * Value) : task_map * Value :=
  match ts !! name with
  | None => (ts, json! ["ok" :- false; "reason" :- "not_found"])
  | Some r =>
      if negb (guard r) then (ts, json! ["ok" :- false; "reason" :- "fenced"; "task" :- task_view r name])
      else body r
  end.

Definition apply_task_progress (ts : task_map) (now : Z) (name worker : string) (fencing_token percent : Z)
    (checkpoint : Value) : task_map * Value :=
  task_fenced ts name (λ r, owned_now r now worker fencing_token) (λ r,
    let r' := mkTask (t_type r) (t_payload r) TRunning (t_owner r) (t_token r) (t_lease_ttl r)
                (Some (sat_add now (t_lease_ttl r))) (Z.min percent 100) checkpoint (t_result r)
                (t_deadline r) (wrap_add (t_generation r) 1) in
    (<[name := r']> ts, json! ["ok" :- true; "task" :- task_view r' name])).

Definition apply_task_complete (ts : task_map) (now : Z) (name worker : string) (fencing_token : Z)
    (result : Value) : task_map * Value :=
  task_fenced ts name (λ r, owned_now r now worker fencing_token) (λ r,
    let r' := mkTask (t_type r) (t_payload r) TCompleted (t_owner r) (t_token r) (t_lease_ttl r)
                None 100 (t_checkpoint r) (Some result) (t_deadline r) (wrap_add (t_generation r) 1) in
    (<[name := r']> ts, json! ["ok" :- true; "task" :- task_view r' name])).

Definition apply_task_fail (ts : task_map) (now : Z) (name worker : string) (fencing_token : Z)
    (retryable : bool) : task_map * Value :=
  task_fenced ts name (λ r, owned_now r now worker fencing_token) (λ r,
    let r' :=
      if retryable
      then mkTask (t_type r) (t_payload r) TPending None (t_token r) (t_lease_ttl r) None (t_progress r)
             (t_checkpoint r) (t_result r) (t_deadline r) (wrap_add (t_generation r) 1)
      else mkTask (t_type r) (t_payload r) TFailed (t_owner r) (t_token r) (t_lease_ttl r) (t_lease r)
             (t_progress r) (t_checkpoint r) (t_result r) (t_deadline r) (wrap_add (t_generation r) 1) in
    (<[name := r']> ts, json! ["ok" :- true; "retryable" :- retryable; "task" :- task_view r' name])).

Definition apply_task_cancel (ts : task_map) (name : string) : task_map * Value :=
  match ts !! name with
  | None => (ts, json! ["ok" :- false; "reason" :- "not_found"])
  | Some r =>
      if task_terminal (t_status r) then
        (ts, json! ["ok" :- false; "reason" :- "terminal"; "task" :- task_view r name])
      else
        let r' := mkTask (t_type r) (t_payload r) TCancelled None (t_token r) (t_lease_ttl r) None
                    (t_progress r) (t_checkpoint r) (t_result r) (t_deadline r) (wrap_add (t_generation r) 1) in
        (<[name := r']> ts, json! ["ok" :- true; "task" :- task_view r' name])
  end.

(** ** Histories *)

Inductive task_call : Type :=
| TCreate (name task_type : string) (payload : Value) (deadline : option Z)
| TClaim (now : Z) (name worker : string) (ttl : Z)
| TProgress (now : Z) (name worker : string) (token percent : Z) (checkpoint : Value)
| TComplete (now : Z) (name worker : string) (token : Z) (result : Value)
| TFail (now : Z) (name worker : string) (token : Z) (retryable : bool)
| TCancel (name : string)
| TMint. (** another component takes a token *)

Definition task_exec (st : Z * task_map) (call : task_call) : Z * task_map * Value :=
  let '(c, ts) := st in
  match call with
  | TCreate name ty payload dl => let '(ts', out) := apply_task_create ts name ty payload dl in (c, ts', out)
  | TClaim now name worker ttl => apply_task_claim c ts now name worker ttl
  | TProgress now name worker tok pct cp =>
      let '(ts', out) := apply_task_progress ts now name worker tok pct cp in (c, ts', out)
  | TComplete now name worker tok res =>
      let '(ts', out) := apply_task_complete ts now name worker tok res in (c, ts', out)
  | TFail now name worker tok retry =>
      let '(ts', out) := apply_task_fail ts now name worker tok retry in (c, ts', out)
  | TCancel name => let '(ts', out) := apply_task_cancel ts name in (c, ts', out)
  | TMint => (default c (next_token c), ts, JNull)
  end.

Definition task_run (st : Z * task_map) (calls : list task_call) : Z * task_map :=
  foldl (λ st call, (task_exec st call).1) st calls.

(** Tokens were issued by the counter. *)
Definition tasks_inv (st : Z * task_map) : Prop :=
  0 ≤ st.1 ∧ map_Forall (λ _ r, t_token r ≤ st.1) st.2.

(** How a record may evolve: tokens never go down, a new owner has a larger
    token, and a terminal record is final. *)
Definition task_le (r r' : TaskRecord) : Prop :=
  t_token r ≤ t_token r' ∧
  (task_terminal (t_status r) = true → r' = r) ∧
  (t_owner r' = t_owner r ∨ t_owner r' = None ∨ t_token r < t_token r').

Lemma task_le_refl r : task_le r r.
Proof. split_and!; [lia|done|by left]. Qed.

Lemma counter_next c : c ≤ default c (next_token c).
Proof. destruct (next_token c) eqn:E; simpl; [apply next_token_Some in E; lia|lia]. Qed.

Lemma owned_now_true r now worker token :
  owned_now r now worker token = true ↔
  task_terminal (t_status r) = false ∧ t_owner r = Some worker ∧ t_token r = token ∧
  ∃ e, t_lease r = Some e ∧ now < e.
Proof.
  unfold owned_now. rewrite !andb_true_iff, negb_true_iff, bool_decide_eq_true, Z.eqb_eq. split.
  - intros [[[? ?] ?] He]. split_and!; try done. destruct (t_lease r) as [e|]; [|done].
    exists e. split; [done|]. by apply Z.ltb_lt.
  - intros (? & ? & ? & e & -> & ?). split_and!; try done. simpl. by apply Z.ltb_lt.
Qed.

(** The branches of an owner command, leaving the one that changes [name]. *)
Ltac owner_command ts name E r :=
  unfold task_fenced; destruct (ts !! name) as [r|] eqn:E; [|split; [lia|by left]];
  destruct (owned_now r _ _ _) eqn:?; simpl; (split; [lia|]); [right|by left].

(** Each call keeps the map or replaces one record by a later version. *)
Lemma task_exec_cases c ts call :
  let '(c', ts', out) := task_exec (c, ts) call in
  c ≤ c' ∧
  (ts' = ts ∨
   ∃ name r', ts' = <[name := r']> ts ∧
     match ts !! name with
     | None => t_token r' = 0
     | Some r =>
         task_terminal (t_status r) = false ∧
         ((t_token r' = t_token r ∧ (t_owner r' = t_owner r ∨ t_owner r' = None)) ∨
          t_token r' = c + 1 ∧ c' = c + 1)
     end).
Proof.
  assert (Hcancel : ∀ r now w t, owned_now r now w t = true → task_terminal (t_status r) = false)
    by (intros r now w t ?%owned_now_true; tauto).
  destruct call as [name ty payload dl|now name worker ttl|now name worker tok pct cp
    |now name worker tok res|now name worker tok retry|name|]; simpl.
  - unfold apply_task_create. destruct (ts !! name) as [r|] eqn:E; (split; [lia|]); [by left|right].
    eexists name, _. split; [done|]. by rewrite E.
  - unfold apply_task_claim. destruct (next_token c) as [t|] eqn:Et; [|split; [lia|by left]].
    apply next_token_Some in Et as [-> _].
    destruct (ts !! name) as [r|] eqn:E; [|split; [lia|by left]].
    destruct (task_terminal (t_status r)) eqn:T; [split; [lia|by left]|].
    destruct (negb _); (split; [lia|]); [by left|right]. eexists name, _. split; [done|].
    rewrite E. split; [done|]. by right.
  - unfold apply_task_progress. owner_command ts name E r.
    eexists name, _. split; [done|]. rewrite E. split; [by eapply Hcancel|]. left. simpl. auto.
  - unfold apply_task_complete. owner_command ts name E r.
    eexists name, _. split; [done|]. rewrite E. split; [by eapply Hcancel|]. left. simpl. auto.
  - unfold apply_task_fail. owner_command ts name E r.
    eexists name, _. split; [done|]. rewrite E. split; [by eapply Hcancel|]. left. destruct retry; simpl; auto.
  - unfold apply_task_cancel. destruct (ts !! name) as [r|] eqn:E; [|split; [lia|by left]].
    destruct (task_terminal (t_status r)) eqn:T; (split; [lia|]); [by left|right].
    eexists name, _. split; [done|]. rewrite E. split; [done|]. left. simpl. auto.
  - split; [apply counter_next|by left].
Qed.

Lemma task_exec_evolves st call :
  tasks_inv st → let st' := (task_exec st call).1 in
  tasks_inv st' ∧ ∀ name r, st.2 !! name = Some r → ∃ r', st'.2 !! name = Some r' ∧ task_le r r'.
Proof.
  destruct st as [c ts]. intros [Hc Htok]. pose proof (task_exec_cases c ts call) as Hcases.
  destruct (task_exec (c, ts) call) as [[c' ts'] out]. simpl in *.
  destruct Hcases as [Hle [->|(name & r' & -> & Hr)]].
  - split; [|intros name r E; exists r; split; [done|apply task_le_refl]].
    split; simpl; [lia|]. intros k r Hk. specialize (Htok k r Hk). simpl in Htok. lia.
  - assert (Hr' : t_token r' ≤ c').
    { destruct (ts !! name) as [r|] eqn:E; [|lia]. specialize (Htok _ _ E). simpl in Htok. lia. }
    split.
    + split; simpl; [lia|]. intros k r. rewrite lookup_insert. case_decide; [by intros [= <-]|].
      intros Hk. specialize (Htok k r Hk). simpl in Htok. lia.
    + intros k r Hk. rewrite lookup_insert. case_decide; [|exists r; split; [done|apply task_le_refl]].
      subst. exists r'. split; [done|]. rewrite Hk in Hr. destruct Hr as [Ht Hr].
      specialize (Htok _ _ Hk). simpl in Htok. split_and!; [lia|by rewrite Ht|]. destruct Hr as [[_ [?|?]]|?]; auto.
      right. right. lia.
Qed.

Lemma task_run_evolves calls st name r :
  tasks_inv st → st.2 !! name = Some r →
  tasks_inv (task_run st calls) ∧ ∃ r', (task_run st calls).2 !! name = Some r' ∧
    t_token r ≤ t_token r' ∧ (task_terminal (t_status r) = true → r' = r).
Proof.
  revert st r. induction calls as [|call calls IH]; intros st r Hinv Hr.
  { split; [done|]. exists r. split_and!; [done|lia|done]. }
  destruct (task_exec_evolves st call Hinv) as [Hinv1 Hev].
  destruct (Hev name r Hr) as (r1 & Hr1 & Hle & Hterm & _).
  destruct (IH _ _ Hinv1 Hr1) as (Hinv2 & r2 & Hr2 & Hle2 & Hterm2). split; [done|].
  exists r2. split_and!; [done|lia|]. intros T. rewrite <-(Hterm T). apply Hterm2. by rewrite (Hterm T).
Qed.

(** A stale worker is fenced for good.  Once a task's token exceeds the
    one a worker holds (another worker claimed it since), no progress,
    completion or failure under the old token is ever accepted again, at any
    clock and after any further commands, and none of them changes anything. *)
Theorem stale_worker_fenced (c : Z) (ts : task_map) (name worker : string) (r : TaskRecord) (tok : Z)
    (calls : list task_call) (now percent : Z) (v : Value) (retryable : bool)
    (Hinv : tasks_inv (c, ts)) (Hr : ts !! name = Some r) (Hstale : tok < t_token r) :
  let ts' := (task_run (c, ts) calls).2 in
  let refused (o : task_map * Value) := o.1 = ts' ∧ flag "ok" o.2 = false in
  refused (apply_task_progress ts' now name worker tok percent v) ∧
  refused (apply_task_complete ts' now name worker tok v) ∧
  refused (apply_task_fail ts' now name worker tok retryable).
Proof.
  intros ts' refused. destruct (task_run_evolves calls (c, ts) name r Hinv Hr) as (_ & r' & Hr' & Hle & _).
  assert (Hno : owned_now r' now worker tok = false).
  { apply not_true_iff_false. intros (_ & _ & ? & _)%owned_now_true. lia. }
  unfold refused, apply_task_progress, apply_task_complete, apply_task_fail, task_fenced.
  fold ts' in Hr'. rewrite Hr', Hno. done.
Qed.

(** A finished task is final.  After completion, permanent failure or
    cancellation no sequence of commands changes the record, and a claim is
    refused. *)
Theorem terminal_task_final (c : Z) (ts : task_map) (name : string) (r : TaskRecord)
    (calls : list task_call) (now ttl : Z) (worker : string)
    (Hinv : tasks_inv (c, ts)) (Hr : ts !! name = Some r) (Hterm : task_terminal (t_status r) = true) :
  let st' := task_run (c, ts) calls in
  st'.2 !! name = Some r ∧
  flag "ok" (apply_task_claim st'.1 st'.2 now name worker ttl).2 = false.
Proof.
  intros st'. destruct (task_run_evolves calls (c, ts) name r Hinv Hr) as (_ & r' & Hr' & _ & Hfin).
  rewrite (Hfin Hterm) in Hr'. fold st' in Hr'. split; [done|].
  unfold apply_task_claim. destruct (next_token _); [|done]. by rewrite Hr', Hterm.
Qed.

(** A claim hands out exclusive authority.  It succeeds only on a task
    that is not finished and whose lease, if any, has run out; the new owner's
    token exceeds every token issued before; and it is the only one that the
    owner commands accept, exactly until the lease ends. *)
Theorem task_claim_exclusive (c : Z) (ts : task_map) (now ttl : Z) (name worker : string)
    (Hinv : tasks_inv (c, ts))
    (Hok : flag "ok" (apply_task_claim c ts now name worker ttl).2 = true) :
  ∃ r r' token,
    ts !! name = Some r ∧ task_terminal (t_status r) = false ∧
    (t_status r = TPending ∨ ∀ e, t_lease r = Some e → e ≤ now) ∧
    apply_task_claim c ts now name worker ttl =
      (token, <[name := r']> ts, json! ["ok" :- true; "fencing_token" :- token; "task" :- task_view r' name]) ∧
    c < token ∧ (∀ k r0, ts !! k = Some r0 → t_token r0 < token) ∧
    ∀ w t now', owned_now r' now' w t = true ↔ w = worker ∧ t = token ∧ now' < sat_add now ttl.
Proof.
  destruct Hinv as [Hc Htok]. revert Hok. unfold apply_task_claim.
  destruct (next_token c) as [token|] eqn:Et; [|done]. apply next_token_Some in Et as [-> _].
  destruct (ts !! name) as [r|] eqn:E; [|done].
  destruct (task_terminal (t_status r)) eqn:T; [done|]. unfold claimable. rewrite T. simpl.
  destruct (bool_decide _ || _) eqn:Hcl; [|done]. intros _. simpl.
  eexists r, _, (c + 1). split_and!; try done; [|lia| |].
  - bools. destruct_or!; bools; [by left|right]. intros e He. rewrite He in *. simpl in *. bools. lia.
  - intros k r0 Hk. specialize (Htok k r0 Hk). simpl in Htok. lia.
  - intros w t now'. rewrite owned_now_true. simpl. split.
    + intros (_ & [= ->] & <- & e & [= <-] & ?). done.
    + intros (-> & -> & ?). split_and!; try done. by eexists.
Qed.

(** ** Witnesses *)

Definition job : TaskRecord :=
  mkTask "build" JNull TClaimed (Some "w2") 7 50 (Some 150) 0 JNull None None 3.
Definition jobs : task_map := {["job" := job]}.

Lemma jobs_inv : tasks_inv (7, jobs).
Proof. split; [done|]. intros k r. simpl. unfold jobs. intros [<- <-]%lookup_singleton_Some. done. Qed.

Lemma stale_worker_fenced_witness :
  flag "ok" (apply_task_complete (task_run (7, jobs) [TMint]).2 100 "job" "w1" 6 JNull).2 = false.
Proof.
  apply (stale_worker_fenced 7 jobs "job" "w1" job 6 [TMint] 100 0 JNull false); [apply jobs_inv|done|done].
Defined.

Lemma terminal_task_final_witness :
  let done := mkTask "build" JNull TCompleted (Some "w2") 7 50 None 100 JNull (Some (JNum 1)) None 4 in
  (task_run (7, {["job" := done]}) [TCancel "job"; TFail 9 "job" "w2" 7 true]).2 !! "job" = Some done.
Proof.
  intros d. apply (terminal_task_final 7 {["job" := d]} "job" d _ 9 9 "w3"); [|reflexivity|reflexivity].
  split; [done|]. intros k r. simpl. intros [<- <-]%lookup_singleton_Some. done.
Defined.

Lemma task_claim_exclusive_witness :
  ∃ token, 7 < token ∧ flag "ok" (apply_task_claim 7 jobs 200 "job" "w3" 50).2 = true.
Proof.
  destruct (task_claim_exclusive 7 jobs 200 50 "job" "w3" jobs_inv ltac:(vm_compute; reflexivity))
    as (_ & _ & token & _ & _ & _ & _ & Hlt & _).
  exists token. split; [exact Hlt|vm_compute; reflexivity].
Defined.
