(* ===== verification/Effects.v ===== *)
(** Approval-escrow effects of src/state.rs: a risky action is prepared,
    approved by enough principals, and committed at most once. *)

From S2P Require Import Prelude Json.

(** ** Data *)

Inductive EffectStatus : Type := EPrepared | EApproved | ECommitted | EAborted.

Definition effect_terminal (s : EffectStatus) : bool :=
  match s with ECommitted | EAborted => true | _ => false end.

Record EffectRecord : Type := mkEffect {
  e_type : string;
  e_payload : Value;
  e_risk : string;
  e_idempotency_key : string;
  e_status : EffectStatus;
  e_required : Z;
  e_approvals : gset string;
  e_result : option Value;
  e_generation : Z
}.

Abbreviation effect_map := (gmap string EffectRecord).

#[export] Instance ser_effect_status : Serialize EffectStatus := λ s,
  JStr match s with
       | EPrepared => "prepared"
       | EApproved => "approved"
       | ECommitted => "committed"
       | EAborted => "aborted"
       end.

(** [EffectRecord::view], as the JSON of [EffectState]; a [BTreeSet] is
    serialised in order. *)
Definition effect_view (r : EffectRecord) (name : string) : Value :=
  json! ["name" :- name; "effect_type" :- e_type r; "payload" :- e_payload r; "risk" :- e_risk r;
         "idempotency_key" :- e_idempotency_key r; "status" :- e_status r;
         "required_approvals" :- e_required r; "approvals" :- btree_elements (e_approvals r);
         "result" :- e_result r; "generation" :- e_generation r].

(** The record with a new status, result and approvals, one generation on. *)
Definition effect_next (r : EffectRecord) (status : EffectStatus) (approvals : gset string)
    (result : option Value) : EffectRecord :=
  mkEffect (e_type r) (e_payload r) (e_risk r) (e_idempotency_key r) status (e_required r) approvals
    result (wrap_add (e_generation r) 1).

(** ** Commands *)

Definition apply_effect_prepare (es : effect_map) (name effect_type : string) (payload : Value)
    (risk idempotency_key : string) (required_approvals : Z) : effect_map * Value :=
  match es !! name with
  | Some existing => (es, json! ["ok" :- true; "created" :- false; "effect" :- effect_view existing name])
  | None =>
      let status := if required_approvals =? 0 then EApproved else EPrepared in
      let record := mkEffect effect_type payload risk idempotency_key status required_approvals ∅ None 1 in
      (<[name := record]> es, json! ["ok" :- true; "created" :- true; "effect" :- effect_view record name])
  end.

Definition apply_effect_approve (es : effect_map) (name principal : string) : effect_map * Value :=
  match es !! name with
  | None => (es, json! ["ok" :- false; "reason" :- "not_found"])
  | Some r =>
      if effect_terminal (e_status r) then
        (es, json! ["ok" :- false; "reason" :- "terminal"; "effect" :- effect_view r name])
      else
        let approvals := {[principal]} ∪ e_approvals r in
        let status := if e_required r <=? as_u32 (Z.of_nat (size approvals)) then EApproved else e_status r in
        let r' := effect_next r status approvals (e_result r) in
        (<[name := r']> es, json! ["ok" :- true; "effect" :- effect_view r' name])
  end.

Definition apply_effect_commit (es : effect_map) (name : string) (result : Value) : effect_map * Value :=
  match es !! name with
  | None => (es, json! ["ok" :- false; "reason" :- "not_found"])
  | Some r =>
      match e_status r with
      | ECommitted => (es, json! ["ok" :- true; "committed" :- false; "effect" :- effect_view r name])
      | EAborted => (es, json! ["ok" :- false; "reason" :- "aborted"; "effect" :- effect_view r name])
      | EPrepared =>
          (es, json! ["ok" :- false; "reason" :- "not_approved"; "approvals" :- size (e_approvals r);
                      "required_approvals" :- e_required r; "effect" :- effect_view r name])
      | EApproved =>
          let r' := effect_next r ECommitted (e_approvals r) (Some result) in
          (<[name := r']> es, json! ["ok" :- true; "committed" :- true; "effect" :- effect_view r' name])
      end
  end.

Definition apply_effect_abort (es : effect_map) (name : string) : effect_map * Value :=
  match es !! name with
  | None => (es, json! ["ok" :- false; "reason" :- "not_found"])
  | Some r =>
      if effect_terminal (e_status r) then
        (es, json! ["ok" :- false; "reason" :- "terminal"; "effect" :- effect_view r name])
      else
        let r' := effect_next r EAborted (e_approvals r) (e_result r) in
        (<[name := r']> es, json! ["ok" :- true; "effect" :- effect_view r' name])
  end.

(** ** Histories *)

Inductive effect_call : Type :=
| EPrepare (name effect_type : string) (payload : Value) (risk idempotency_key : string) (required : Z)
| EApprove (name principal : string)
| ECommit (name : string) (result : Value)
| EAbort (name : string).

Definition effect_exec (es : effect_map) (call : effect_call) : effect_map * Value :=
  match call with
  | EPrepare name ty payload risk key req => apply_effect_prepare es name ty payload risk key req
  | EApprove name principal => apply_effect_approve es name principal
  | ECommit name result => apply_effect_commit es name result
  | EAbort name => apply_effect_abort es name
  end.

Definition effect_run (es : effect_map) (calls : list effect_call) : effect_map :=
  foldl (λ es call, (effect_exec es call).1) es calls.

(** The principals that approved [name] in a history. *)
Fixpoint approvers (name : string) (calls : list effect_call) : list string :=
  match calls with
  | [] => []
  | EApprove n p :: calls => if bool_decide (n = name) then p :: approvers name calls else approvers name calls
  | _ :: calls => approvers name calls
  end.

(** Authorised: enough distinct principals, all of them in [ps]. *)
Definition authorised (ps : list string) (r : EffectRecord) : Prop :=
  (∀ p, p ∈ e_approvals r → p ∈ ps) ∧
  match e_status r with
  | EApproved | ECommitted => e_required r ≤ Z.of_nat (size (e_approvals r))
  | _ => True
  end.

Lemma authorised_mono ps ps' r : (∀ p, p ∈ ps → p ∈ ps') → authorised ps r → authorised ps' r.
Proof. intros Hps [Ha Hs]. split; [eauto|done]. Qed.

Lemma as_u32_le z : 0 ≤ z → as_u32 z ≤ z.
Proof. intros Hz. unfold as_u32. apply Z.mod_le; [done|]. unfold U32_MAX. lia. Qed.

Lemma elem_of_approvers_snoc name calls call p :
  p ∈ approvers name (calls ++ [call]) ↔ p ∈ approvers name calls ∨ call = EApprove name p.
Proof.
  induction calls as [|c calls IH]; simpl.
  - destruct call; simpl; try case_bool_decide; subst; rewrite ?elem_of_cons; split;
      intros; destruct_or?; simplify_eq; auto; try (by apply not_elem_of_nil in H); try (left; done).
  - destruct c; try exact IH. case_bool_decide; [|exact IH]. rewrite !elem_of_cons, IH. tauto.
Qed.

(** Each call keeps the map or replaces one record. *)
Lemma effect_exec_cases es call :
  let '(es', out) := effect_exec es call in
  (es' = es) ∨
  ∃ name r', es' = <[name := r']> es ∧
    match es !! name with
    | None => e_approvals r' = ∅ ∧ effect_terminal (e_status r') = false ∧
              (e_status r' = EApproved → e_required r' = 0)
    | Some r =>
        effect_terminal (e_status r) = false ∧ e_required r' = e_required r ∧
        ((∃ p, call = EApprove name p ∧ e_approvals r' = {[p]} ∪ e_approvals r ∧
             effect_terminal (e_status r') = false ∧
             (e_status r' = EApproved → e_status r = EApproved ∨ e_required r ≤ Z.of_nat (size (e_approvals r')))) ∨
         (e_approvals r' = e_approvals r ∧ e_status r' = ECommitted ∧ e_status r = EApproved) ∨
         (e_approvals r' = e_approvals r ∧ e_status r' = EAborted))
    end.
Proof.
  destruct call as [name ty payload risk key req|name p|name res|name]; simpl.
  - unfold apply_effect_prepare. destruct (es !! name) as [r|] eqn:E; [by left|right].
    eexists name, _. split; [done|]. rewrite E. simpl.
    destruct (Z.eqb_spec req 0); split_and!; try done.
  - unfold apply_effect_approve. destruct (es !! name) as [r|] eqn:E; [|by left].
    destruct (effect_terminal (e_status r)) eqn:T; [by left|right].
    eexists name, _. split; [done|]. rewrite E. simpl. split_and!; [done|done|]. left. exists p.
    set (n := Z.of_nat _). pose proof (as_u32_le n ltac:(lia)).
    destruct (Z.leb_spec (e_required r) (as_u32 n)); split_and!; try done; [right; lia|by left].
  - unfold apply_effect_commit. destruct (es !! name) as [r|] eqn:E; [|by left].
    destruct (e_status r) eqn:Es; try by left. right. eexists name, _. split; [done|]. rewrite E. simpl.
    rewrite Es. split_and!; [done|done|]. right. by left.
  - unfold apply_effect_abort. destruct (es !! name) as [r|] eqn:E; [|by left].
    destruct (effect_terminal (e_status r)) eqn:T; [by left|right].
    eexists name, _. split; [done|]. rewrite E. simpl. split_and!; [done|done|]. right. by right.
Qed.

Lemma effect_exec_authorised es call ps name r' :
  (∀ k r, es !! k = Some r → authorised (ps k) r) →
  (effect_exec es call).1 !! name = Some r' →
  authorised (ps name ++ match call with EApprove _ p => [p] | _ => [] end) r' ∧
  (∀ p, p ∈ e_approvals r' → p ∈ ps name ∨ call = EApprove name p).
Proof.
  intros Hes Hr'. pose proof (effect_exec_cases es call) as Hc.
  destruct (effect_exec es call) as [es' out]. simpl in Hr'.
  assert (Hweak : ∀ r, authorised (ps name) r →
    authorised (ps name ++ match call with EApprove _ p => [p] | _ => [] end) r).
  { intros r. apply authorised_mono. intros p ?. apply elem_of_app. by left. }
  destruct Hc as [->|(n & r1 & -> & Hn)].
  { pose proof (Hes _ _ Hr') as Ha. split; [by apply Hweak|]. intros p Hp. left. by apply Ha. }
  rewrite lookup_insert in Hr'. case_decide as D.
  2: { pose proof (Hes _ _ Hr') as Ha. split; [by apply Hweak|]. intros p Hp. left. by apply Ha. }
  injection Hr' as <-. subst n. destruct (es !! name) as [r|] eqn:E.
  - destruct (Hes _ _ E) as [Ha Hs]. destruct Hn as (T & Hreq & [(p & -> & Hp & T' & Hap)|[(Hp & Es' & Es)|(Hp & Es')]]).
    + rewrite Hp. split; [split|].
      * rewrite Hp. intros q [->%elem_of_singleton|Hq]%elem_of_union; apply elem_of_app; [right; left|left; auto].
      * rewrite Hreq, Hp in *. destruct (e_status r1); try done. destruct Hap as [Es|?]; [done|rewrite Es in Hs|done].
        pose proof (subseteq_size (e_approvals r) ({[p]} ∪ e_approvals r) ltac:(apply union_subseteq_r)). lia.
      * intros q [->%elem_of_singleton|Hq]%elem_of_union; auto.
    + rewrite Hp. split; [split|].
      * rewrite Hp. intros q Hq. apply elem_of_app. left. auto.
      * rewrite Es', Hreq, Hp. by rewrite Es in Hs.
      * auto.
    + rewrite Hp. split; [split|].
      * rewrite Hp. intros q Hq. apply elem_of_app. left. auto.
      * by rewrite Es'.
      * auto.
  - destruct Hn as (Hp & T & Hz). rewrite Hp. split; [split|].
    + rewrite Hp. by intros q ?%not_elem_of_empty.
    + destruct (e_status r1); try done. rewrite Hz by done. lia.
    + by intros q ?%not_elem_of_empty.
Qed.

Lemma effect_run_snoc es calls call : effect_run es (calls ++ [call]) = (effect_exec (effect_run es calls) call).1.
Proof. unfold effect_run. by rewrite foldl_app. Qed.

Lemma effect_run_authorised calls name r :
  effect_run ∅ calls !! name = Some r → authorised (approvers name calls) r.
Proof.
  revert name r. induction calls as [|call calls IH] using rev_ind; intros name r; [done|].
  rewrite effect_run_snoc. intros Hr.
  destruct (effect_exec_authorised _ call (λ k, approvers k calls) name r IH Hr) as [[_ Hs] Ha].
  split; [|done]. intros p Hp. apply elem_of_approvers_snoc. auto.
Qed.

(** Nothing risky is authorised by too few.  In every history, an effect
    that was approved or committed has at least its required number of distinct
    approvers, and each of them approved that very effect in that history. *)
Theorem effect_commit_authorised (calls : list effect_call) (name : string) (r : EffectRecord)
    (Hr : effect_run ∅ calls !! name = Some r)
    (Hstatus : e_status r = EApproved ∨ e_status r = ECommitted) :
  ∃ ps : list string, NoDup ps ∧ e_required r ≤ Z.of_nat (length ps) ∧
    ∀ p, p ∈ ps → p ∈ approvers name calls.
Proof.
  destruct (effect_run_authorised _ _ _ Hr) as [Ha Hs]. exists (elements (e_approvals r)). split_and!.
  - apply NoDup_elements.
  - unfold size, set_size in Hs. simpl in Hs. by destruct Hstatus as [E|E]; rewrite E in Hs.
  - intros p Hp%elem_of_elements. auto.
Qed.

(** The calls of a history that executed the effect [name]. *)
Fixpoint executions (name : string) (es : effect_map) (calls : list effect_call) : nat :=
  match calls with
  | [] => 0%nat
  | call :: calls =>
      let '(es', out) := effect_exec es call in
      ((match call with ECommit n _ => if bool_decide (n = name) && flag "committed" out then 1 else 0 | _ => 0 end)
       + executions name es' calls)%nat
  end.

Lemma effect_terminal_exec es call name r :
  es !! name = Some r → effect_terminal (e_status r) = true → (effect_exec es call).1 !! name = Some r.
Proof.
  intros Hr T. pose proof (effect_exec_cases es call) as Hc. destruct (effect_exec es call) as [es' out]. simpl.
  destruct Hc as [->|(n & r' & -> & Hn)]; [done|]. rewrite lookup_insert. case_decide; [|done]. subst.
  rewrite Hr in Hn. destruct Hn as [? _]. congruence.
Qed.

Lemma executions_terminal calls es name r :
  es !! name = Some r → effect_terminal (e_status r) = true → executions name es calls = 0%nat.
Proof.
  revert es. induction calls as [|call calls IH]; intros es Hr T; [done|]. simpl.
  pose proof (effect_terminal_exec es call name r Hr T) as Hr'.
  destruct (effect_exec es call) as [es' out] eqn:Ex. rewrite (IH es' Hr' T).
  destruct call as [| |n res|]; try done. case_bool_decide as D; [|done]. subst. simpl in Ex.
  unfold apply_effect_commit in Ex. rewrite Hr in Ex. destruct (e_status r); try done; injection Ex as <- <-; done.
Qed.

(** An effect is executed at most once, and a committed or aborted effect
    never changes again: its result and its approvals are final. *)
Theorem effect_commit_once (es : effect_map) (calls : list effect_call) (name : string) :
  (executions name es calls ≤ 1)%nat ∧
  ∀ r, es !! name = Some r → effect_terminal (e_status r) = true → effect_run es calls !! name = Some r.
Proof.
  split.
  - revert es. induction calls as [|call calls IH]; intros es; simpl; [lia|].
    destruct (effect_exec es call) as [es' out] eqn:Ex. specialize (IH es').
    destruct call as [| |n res|]; simpl in *; try lia.
    case_bool_decide as D; simpl; [|lia]. subst. destruct (flag "committed" out) eqn:F; [|lia].
    unfold apply_effect_commit in Ex. destruct (es !! name) as [r|] eqn:Er; simplify_eq.
    destruct (e_status r) eqn:Es; simplify_eq; try done.
    rewrite (executions_terminal _ _ _ (effect_next r ECommitted (e_approvals r) (Some res)));
      [lia|apply lookup_insert_eq|done].
  - intros r Hr T. revert es Hr. induction calls as [|call calls IH]; intros es Hr; [done|].
    apply IH. by apply effect_terminal_exec.
Qed.

Lemma effect_commit_authorised_witness :
  let calls := [EPrepare "wire" "payment" JNull "high" "k" 2; EApprove "wire" "ann"; EApprove "wire" "bob";
                ECommit "wire" (JNum 1)] in
  ∃ ps : list string, NoDup ps ∧ 2 ≤ Z.of_nat (length ps) ∧ ∀ p, p ∈ ps → p ∈ ["ann"; "bob"].
Proof.
  intros calls.
  apply (effect_commit_authorised calls "wire"
    (mkEffect "payment" JNull "high" "k" ECommitted 2 {["bob"; "ann"]} (Some (JNum 1)) 4)).
  - vm_compute. reflexivity.
  - by right.
Defined.
