(* ===== verification/Handoffs.v ===== *)
(** Ownership handoffs of src/state.rs: an offer to a named recipient, who
    accepts it under a strictly higher fencing token. *)

From S2P Require Import Prelude Json Fencing.

(** ** Data *)

Inductive HandoffStatus : Type := Offered | Accepted | Rejected | Expired.

#[export] Instance HandoffStatus_eq_dec : EqDecision HandoffStatus.
Proof. solve_decision. Defined.

Record HandoffRecord : Type := mkHandoff {
  h_resource : string;
  h_from : string;
  h_to : string;
  h_from_token : Z;
  h_to_token : option Z;
  h_status : HandoffStatus;
  h_context : Value;
  h_expires : option Z;
  h_generation : Z
}.

Abbreviation handoff_map := (gmap string HandoffRecord).

Definition MAX_HANDOFF_TOKEN_ADVANCE : Z := 1000000000.

Definition effective_status (r : HandoffRecord) (now : Z) : HandoffStatus :=
  if bool_decide (h_status r = Offered) && is_some_and (h_expires r) (λ e, e <=? now) then Expired
  else h_status r.

#[export] Instance ser_handoff_status : Serialize HandoffStatus := λ s,
  JStr match s with
       | Offered => "offered"
       | Accepted => "accepted"
       | Rejected => "rejected"
       | Expired => "expired"
       end.

(** [HandoffRecord::view], as the JSON of [HandoffState]. *)
Definition handoff_view (r : HandoffRecord) (name : string) (now : Z) : Value :=
  json! ["name" :- name; "resource" :- h_resource r; "from" :- h_from r; "to" :- h_to r;
         "from_token" :- h_from_token r; "to_token" :- h_to_token r; "status" :- effective_status r now;
         "context" :- h_context r; "expires_ms" :- h_expires r; "generation" :- h_generation r].

Definition with_outcome (r : HandoffRecord) (status : HandoffStatus) (to_token : option Z) : HandoffRecord :=
  mkHandoff (h_resource r) (h_from r) (h_to r) (h_from_token r) to_token status (h_context r) (h_expires r)
    (wrap_add (h_generation r) 1).

(** ** Commands *)

Definition apply_handoff_offer (c : Z) (hs : handoff_map) (now : Z) (name resource from to : string)
    (from_token : Z) (context : Value) (ttl_ms : Z) : handoff_map * Value :=
  if sat_add c MAX_HANDOFF_TOKEN_ADVANCE <? from_token then
    (hs, json! ["ok" :- false; "reason" :- "implausible_from_token"])
  else
    let record := mkHandoff resource from to from_token None Offered context (Some (sat_add now ttl_ms)) 1 in
    let insert := (<[name := record]> hs, json! ["ok" :- true; "handoff" :- handoff_view record name now]) in
    match hs !! name with
    | Some existing =>
        if bool_decide (effective_status existing now = Offered) then
          (hs, json! ["ok" :- false; "reason" :- "already_offered"; "handoff" :- handoff_view existing name now])
        else insert
    | None => insert
    end.

(** The guards shared by accept and reject. *)
Definition handoff_guard (hs : handoff_map) (now : Z) (name to : string) : Value + HandoffRecord :=
  match hs !! name with
  | None => inl (json! ["ok" :- false; "reason" :- "not_found"])
  | Some r =>
      if negb (bool_decide (effective_status r now = Offered)) then
        inl (json! ["ok" :- false; "reason" :- "not_offered"; "handoff" :- handoff_view r name now])
      else if negb (bool_decide (h_to r = to)) then
        inl (json! ["ok" :- false; "reason" :- "not_recipient"; "handoff" :- handoff_view r name now])
      else inr r
  end.

Definition apply_handoff_accept (c : Z) (hs : handoff_map) (now : Z) (name to : string) :
    Z * handoff_map * Value :=
  match handoff_guard hs now name to with
  | inl out => (c, hs, out)
  | inr r =>
      match mint_token_above c (h_from_token r) with
      | None => (c, hs, json! ["ok" :- false; "reason" :- "fencing_tokens_exhausted"])
      | Some token =>
          let r' := with_outcome r Accepted (Some token) in
          (token, <[name := r']> hs,
           json! ["ok" :- true; "to_token" :- token; "handoff" :- handoff_view r' name now])
      end
  end.

Definition apply_handoff_reject (hs : handoff_map) (now : Z) (name to : string) : handoff_map * Value :=
  match handoff_guard hs now name to with
  | inl out => (hs, out)
  | inr r =>
      let r' := with_outcome r Rejected (h_to_token r) in
      (<[name := r']> hs, json! ["ok" :- true; "handoff" :- handoff_view r' name now])
  end.

(** ** Transfers of authority *)

Lemma handoff_guard_inr hs now name to r :
  handoff_guard hs now name to = inr r →
  hs !! name = Some r ∧ effective_status r now = Offered ∧ h_to r = to ∧ h_status r = Offered.
Proof.
  unfold handoff_guard. destruct (hs !! name) as [r0|]; [|done].
  case_bool_decide as H1; [|done]. case_bool_decide as H2; [|done]. intros [= ->].
  split_and!; try done. revert H1. unfold effective_status.
  case_bool_decide; simpl; [done|done].
Qed.

Lemma handoff_guard_inl hs now name to out :
  handoff_guard hs now name to = inl out → flag "ok" out = false.
Proof.
  unfold handoff_guard. destruct (hs !! name) as [r0|]; [|by intros [= <-]].
  case_bool_decide; [|by intros [= <-]]. case_bool_decide; [done|by intros [= <-]].
Qed.

(** An expired, accepted or rejected offer stays so. *)
Lemma effective_status_mono r now now' :
  now ≤ now' → effective_status r now ≠ Offered → effective_status r now' ≠ Offered.
Proof.
  unfold effective_status. intros Hle. case_bool_decide; simpl; [|done].
  destruct (h_expires r) as [e|]; simpl; [|done].
  destruct (Z.leb_spec e now), (Z.leb_spec e now'); done || lia.
Qed.

(** Accepting a handoff moves authority to one side only.  It succeeds
    only for the named recipient of an offer that is still open; the
    recipient's token exceeds the previous owner's token and every token this
    shard has issued; the counter moves with it, so later tokens exceed it too.
    A refused accept changes nothing and consumes no token. *)
Theorem handoff_accept_fences (c : Z) (hs : handoff_map) (now : Z) (name to : string) :
  let '(c', hs', out) := apply_handoff_accept c hs now name to in
  if flag "ok" out
  then ∃ r token, hs !! name = Some r ∧ effective_status r now = Offered ∧ h_to r = to ∧
         number "to_token" out = Some token ∧ h_from_token r < token ∧ c < token ∧ c' = token ∧
         token ≤ MAX_FENCING_TOKEN ∧ hs' = <[name := with_outcome r Accepted (Some token)]> hs ∧
         ∀ now', effective_status (with_outcome r Accepted (Some token)) now' = Accepted
  else c' = c ∧ hs' = hs.
Proof.
  unfold apply_handoff_accept. destruct (handoff_guard hs now name to) as [out|r] eqn:G.
  - by rewrite (handoff_guard_inl _ _ _ _ _ G).
  - apply handoff_guard_inr in G as (Hr & He & Ht & _).
    destruct (mint_token_above c (h_from_token r)) as [t|] eqn:Em; [|done].
    apply mint_token_above_Some in Em as [-> ?]. cbn [flag field assoc].
    exists r. eexists. split_and!; try done; lia.
Qed.

(** An open offer cannot be replaced or answered by anyone but its
    recipient.  While an offer is open, a new offer under the same name, an
    accept or a reject by anyone else are refused without any change; and once
    it is not open any more, it never reopens. *)
Theorem handoff_open_offer_protected (c : Z) (hs : handoff_map) (now now' ttl from_token : Z)
    (name resource from to other : string) (context : Value) (r : HandoffRecord)
    (Hr : hs !! name = Some r) :
  (effective_status r now = Offered → h_to r ≠ other →
     (apply_handoff_offer c hs now name resource from to from_token context ttl).1 = hs ∧
     (apply_handoff_accept c hs now name other).1 = (c, hs) ∧
     (apply_handoff_reject hs now name other).1 = hs) ∧
  (effective_status r now ≠ Offered → now ≤ now' →
     (apply_handoff_accept c hs now' name other).1 = (c, hs) ∧
     (apply_handoff_reject hs now' name other).1 = hs).
Proof.
  split.
  - intros Ho Hne. split_and!.
    + unfold apply_handoff_offer. destruct (_ <? _); [done|]. by rewrite Hr, bool_decide_eq_true_2.
    + unfold apply_handoff_accept, handoff_guard. rewrite Hr, bool_decide_eq_true_2 by done.
      by rewrite bool_decide_eq_false_2.
    + unfold apply_handoff_reject, handoff_guard. rewrite Hr, bool_decide_eq_true_2 by done.
      by rewrite bool_decide_eq_false_2.
  - intros Ho Hle. apply (effective_status_mono _ _ now') in Ho; [|done].
    unfold apply_handoff_accept, apply_handoff_reject, handoff_guard. rewrite Hr.
    by rewrite bool_decide_eq_false_2.
Qed.

Lemma handoff_open_offer_protected_witness :
  let r := mkHandoff "db" "a" "b" 5 None Offered JNull (Some 100) 1 in
  (apply_handoff_accept 9 {["x" := r]} 50 "x" "c").1 = (9, {["x" := r]}).
Proof.
  intros r.
  destruct (handoff_open_offer_protected 9 {["x" := r]} 50 50 0 0 "x" "" "" "" "c" JNull r) as [Hopen _];
    [apply lookup_singleton_eq|].
  by apply Hopen.
Defined.
