(* ===== verification/Decisions.v ===== *)
(** Decisions of src/state.rs: weighted votes on declared options, resolved at
    read time by a policy ([DecisionRecord::tallies], [resolve], [view]). *)

From S2P Require Import Prelude Json.

(** ** Data *)

Inductive DecisionPolicy : Type :=
| Plurality (min_votes : Z)
| Threshold (required_weight : Z)
| Unanimous (min_votes : Z).

Inductive DecisionStatus : Type := DOpen | DResolved | DVetoed | DTimedOut.

Record DecisionVoteRecord : Type := mkVote {
  v_option : option string;
  v_confidence : f32;
  v_weight : Z;
  v_veto : bool;
  v_evidence : list string
}.

Record DecisionRecord : Type := mkDecision {
  d_question : string;
  d_options : list string;
  d_policy : DecisionPolicy;
  d_votes : gmap string DecisionVoteRecord;
  d_deadline : option Z;
  d_generation : Z
}.

Abbreviation decision_map := (gmap string DecisionRecord).

#[export] Instance ser_decision_policy : Serialize DecisionPolicy := λ p,
  match p with
  | Plurality n => json! ["kind" :- "plurality"; "min_votes" :- n]
  | Threshold w => json! ["kind" :- "threshold"; "required_weight" :- w]
  | Unanimous n => json! ["kind" :- "unanimous"; "min_votes" :- n]
  end.

#[export] Instance ser_decision_status : Serialize DecisionStatus := λ s,
  JStr match s with
       | DOpen => "open"
       | DResolved => "resolved"
       | DVetoed => "vetoed"
       | DTimedOut => "timed_out"
       end.

(** ** Resolution *)

(** One vote added to the sums: vetoes and abstentions count for nothing. *)
Definition add_vote (sums : gmap string Z) (vote : DecisionVoteRecord) : gmap string Z :=
  if v_veto vote then sums
  else match v_option vote with
       | Some o => <[o := sat_add (default 0 (sums !! o)) (v_weight vote)]> sums
       | None => sums
       end.

Definition tally_votes (votes : list DecisionVoteRecord) : gmap string Z := foldl add_vote ∅ votes.

Definition decision_tallies (r : DecisionRecord) : list (string * Z) :=
  btree_iter (tally_votes (btree_values (d_votes r))).

(** The comparison of [max_by]: by weight, then by reversed option name. *)
Definition tally_cmp (a b : string * Z) : comparison :=
  match Z.compare a.2 b.2 with Eq => String.compare b.1 a.1 | c => c end.

(** [Iterator::max_by]: the last element no later one falls below. *)
Definition max_by {A} (cmp : A → A → comparison) (l : list A) : option A :=
  match l with
  | [] => None
  | x :: l => Some (foldl (λ best y, match cmp best y with Gt => best | _ => y end) x l)
  end.

Definition is_cast (v : DecisionVoteRecord) : bool :=
  negb (v_veto v) && bool_decide (is_Some (v_option v)).

Definition cast_count (r : DecisionRecord) : Z :=
  as_u32 (Z.of_nat (length (filter (λ v, is_cast v = true) (btree_values (d_votes r))))).

Definition decision_deadline_passed (r : DecisionRecord) (now : Z) : bool :=
  is_some_and (d_deadline r) (λ d, d <=? now).

Definition resolve (r : DecisionRecord) (now : Z) : DecisionStatus * option string :=
  if existsb v_veto (btree_values (d_votes r)) then (DVetoed, None)
  else
    let tallies := decision_tallies r in
    let cast := cast_count r in
    let deadline_passed := decision_deadline_passed r now in
    let top := max_by tally_cmp tallies in
    let unresolved := if deadline_passed then (DTimedOut, None) else (DOpen, None) in
    match d_policy r with
    | Plurality min_votes =>
        if (min_votes <=? cast) || (deadline_passed && (0 <? cast)) then
          match top with Some (o, _) => (DResolved, Some o) | None => (DOpen, None) end
        else unresolved
    | Threshold required_weight =>
        match List.find (λ t, required_weight <=? t.2) tallies with
        | Some (o, _) => (DResolved, Some o)
        | None => unresolved
        end
    | Unanimous min_votes =>
        if (min_votes <=? cast) && bool_decide (length tallies = 1%nat)
        then (DResolved, fst <$> top)
        else unresolved
    end.

(** [DecisionRecord::view], as the JSON of [DecisionState]. *)
Definition decision_view (r : DecisionRecord) (name : string) (now : Z) : Value :=
  let '(status, winner) := resolve r now in
  json! ["name" :- name; "question" :- d_question r; "options" :- d_options r; "policy" :- d_policy r;
         "status" :- status; "winner" :- winner;
         "tallies" :- ((λ t, json! ["option" :- t.1; "weight" :- t.2]) <$> decision_tallies r);
         "votes" :- ((λ e, json! ["voter" :- e.1; "option" :- v_option e.2; "confidence" :- v_confidence e.2;
                                  "weight" :- v_weight e.2; "veto" :- v_veto e.2;
                                  "evidence" :- v_evidence e.2]) <$> btree_iter (d_votes r));
         "deadline_ms" :- d_deadline r; "generation" :- d_generation r].

(** ** Commands *)

Definition apply_decision_propose (ds : decision_map) (now : Z) (name question : string)
    (options : list string) (policy : DecisionPolicy) (deadline_ms : option Z) : decision_map * Value :=
  match ds !! name with
  | Some existing =>
      (ds, json! ["ok" :- true; "created" :- false; "decision" :- decision_view existing name now])
  | None =>
      let record := mkDecision question options policy ∅ deadline_ms 1 in
      (<[name := record]> ds,
       json! ["ok" :- true; "created" :- true; "decision" :- decision_view record name now])
  end.

Definition apply_decision_vote (ds : decision_map) (now : Z) (name voter : string) (choice : option string)
    (confidence : f32) (weight : Z) (veto : bool) (evidence : list string) : decision_map * Value :=
  match ds !! name with
  | None => (ds, json! ["ok" :- false; "reason" :- "not_found"])
  | Some r =>
      if is_some_and choice (λ o, negb (bool_decide (o ∈ d_options r))) then
        (ds, json! ["ok" :- false; "reason" :- "unknown_option"; "decision" :- decision_view r name now])
      else
        let r' := mkDecision (d_question r) (d_options r) (d_policy r)
                    (<[voter := mkVote choice confidence weight veto evidence]> (d_votes r))
                    (d_deadline r) (wrap_add (d_generation r) 1) in
        (<[name := r']> ds, json! ["ok" :- true; "decision" :- decision_view r' name now])
  end.

(** ** What the tallies hold *)

(** The exact weight the voters gave an option. *)
Definition raw_weight (o : string) (votes : list DecisionVoteRecord) : Z :=
  foldr (λ v acc, (if negb (v_veto v) && bool_decide (v_option v = Some o) then v_weight v else 0) + acc) 0 votes.

Definition supported (o : string) (votes : list DecisionVoteRecord) : Prop :=
  ∃ v, v ∈ votes ∧ v_veto v = false ∧ v_option v = Some o.

Definition votes_ok (votes : list DecisionVoteRecord) : Prop := Forall (λ v, is_u64 (v_weight v)) votes.

Lemma raw_weight_nonneg o votes : votes_ok votes → 0 ≤ raw_weight o votes.
Proof. induction 1 as [|v l [? ?] _ IH]; simpl; [done|]. destruct (_ && _); lia. Qed.

Lemma raw_weight_app o l1 l2 : raw_weight o (l1 ++ l2) = raw_weight o l1 + raw_weight o l2.
Proof. unfold raw_weight. induction l1 as [|v l1 IH]; simpl; [done|]. rewrite IH. lia. Qed.

Lemma tally_votes_snoc votes v : tally_votes (votes ++ [v]) = add_vote (tally_votes votes) v.
Proof. unfold tally_votes. by rewrite foldl_app. Qed.

(** A tally is the capped weight of an option that somebody voted for. *)
Lemma tally_votes_lookup votes o w :
  votes_ok votes →
  tally_votes votes !! o = Some w ↔ supported o votes ∧ w = Z.min (raw_weight o votes) U64_MAX.
Proof.
  revert w. induction votes as [|v votes IH] using rev_ind; intros w Hok.
  { split; [done|]. intros [(v & ?%not_elem_of_nil & _) _]. done. }
  apply Forall_app in Hok as [Hok Hv]. apply Forall_singleton in Hv as [Hv0 Hv1].
  pose proof (raw_weight_nonneg o votes Hok) as Hn. rewrite tally_votes_snoc, raw_weight_app. simpl. rewrite Z.add_0_r.
  assert (Hsup : supported o (votes ++ [v]) ↔ supported o votes ∨ (v_veto v = false ∧ v_option v = Some o)).
  { unfold supported. setoid_rewrite elem_of_app. setoid_rewrite list_elem_of_singleton. split.
    - intros (x & [?| ->] & ? & ?); [left; by exists x|by right].
    - intros [(x & ? & ? & ?)|[? ?]]; [exists x; auto|exists v; auto]. }
  rewrite Hsup. unfold add_vote. destruct (v_veto v); simpl.
  { rewrite Z.add_0_r, IH by done. split; [intros [? ?]; auto|]. intros [[?|[? _]] ?]; done. }
  destruct (v_option v) as [o'|]; simpl.
  2: { rewrite Z.add_0_r, IH by done.
       split; [intros [? ?]; auto|]. intros [[?|[_ ?]] ?]; done. }
  rewrite lookup_insert. case_decide as D.
  - subst o'. rewrite bool_decide_eq_true_2 by done.
    assert (Hd : default 0 (tally_votes votes !! o) = Z.min (raw_weight o votes) U64_MAX).
    { destruct (tally_votes votes !! o) as [w0|] eqn:E; simpl.
      - by destruct (proj1 (IH w0 Hok) eq_refl) as [_ ->].
      - destruct (Z.eq_dec (raw_weight o votes) 0) as [->|Hne]; [done|].
        exfalso. assert (Hs : supported o votes).
        { clear -Hne. induction votes as [|x votes IHv]; [done|]. simpl in Hne.
          destruct (negb (v_veto x) && _) eqn:B.
          - bools. exists x. split; [left|done].
          - destruct IHv as (y & ? & ?); [lia|]. exists y. split; [by right|done]. }
        by pose proof (proj2 (IH _ Hok) (conj Hs eq_refl)). }
    rewrite Hd. unfold sat_add. split.
    + intros [= <-]. split; [by right|lia].
    + intros [_ ->]. f_equal. lia.
  - rewrite bool_decide_eq_false_2 by congruence. rewrite Z.add_0_r, IH by done.
    split; [intros [? ?]; auto|]. intros [[?|[_ ?]] ?]; [done|congruence].
Qed.

Definition option_weight (r : DecisionRecord) (o : string) : Z :=
  Z.min (raw_weight o (btree_values (d_votes r))) U64_MAX.

Definition weights_fit (r : DecisionRecord) : Prop := votes_ok (btree_values (d_votes r)).

Lemma elem_of_tallies r o w :
  weights_fit r →
  (o, w) ∈ decision_tallies r ↔ supported o (btree_values (d_votes r)) ∧ w = option_weight r o.
Proof.
  intros Hok. unfold decision_tallies. rewrite btree_iter_Permutation, elem_of_map_to_list.
  by apply tally_votes_lookup.
Qed.

(** ** The winner *)

(** [a] beats [b]: more weight, or the same weight and the smaller name. *)
Definition beats (a b : string * Z) : Prop := b.2 < a.2 ∨ (a.2 = b.2 ∧ String.le a.1 b.1).

#[export] Instance beats_preorder : PreOrder beats.
Proof.
  split.
  - intros a. right. split; [done|reflexivity].
  - intros a b c [?|[? ?]] [?|[? ?]]; unfold beats; [left; lia|left; lia|left; lia|right].
    split; [lia|]. by transitivity (b.1).
Qed.

Lemma leb_compare s1 s2 : String.compare s1 s2 ≠ Gt → String.le s1 s2.
Proof. unfold String.le, String.leb. by destruct (String.compare s1 s2). Qed.

Lemma tally_cmp_beats a b : match tally_cmp a b with Gt => beats a b | _ => beats b a end.
Proof.
  unfold tally_cmp. destruct (Z.compare_spec a.2 b.2) as [E|L|L].
  - destruct (String.compare b.1 a.1) eqn:C.
    + right. split; [done|]. apply leb_compare. congruence.
    + right. split; [done|]. apply leb_compare. congruence.
    + right. split; [done|]. destruct (total String.le a.1 b.1) as [Hl|Hl]; [done|].
      unfold String.le, String.leb in Hl. by rewrite C in Hl.
  - by left.
  - by left.
Qed.

Lemma max_by_spec l t :
  max_by tally_cmp l = Some t → t ∈ l ∧ ∀ x, x ∈ l → beats t x.
Proof.
  destruct l as [|x l]; [done|]. simpl. intros [= <-].
  assert (Hgen : ∀ b, let m := foldl (λ best y, match tally_cmp best y with Gt => best | _ => y end) b l in
    m ∈ b :: l ∧ beats m b ∧ ∀ y, y ∈ l → beats m y).
  { induction l as [|z l IH]; intros b; simpl.
    - split_and!; [left|reflexivity|by intros y ?%not_elem_of_nil].
    - pose proof (tally_cmp_beats b z) as Hb. set (n := match tally_cmp b z with Gt => b | _ => z end).
      assert (Hn : (n = b ∨ n = z) ∧ beats n b ∧ beats n z).
      { unfold n. destruct (tally_cmp b z); split_and!; auto; reflexivity. }
      destruct Hn as (Hn & Hnb & Hnz). destruct (IH n) as (Hin & Hmn & Hml). split_and!.
      + apply elem_of_cons in Hin as [->|Hin]; [destruct Hn as [->| ->]; [left|right; left]|right; by right].
      + by etransitivity.
      + intros y [->|Hy]%elem_of_cons; [by etransitivity|auto]. }
  destruct (Hgen x) as (Hin & Hx & Hl). split; [done|]. intros y [->|Hy]%elem_of_cons; auto.
Qed.

(** A resolved decision has a rightful winner.  Whatever the policy, no
    vote is a veto and somebody voted for the winner; under plurality and
    unanimity the winner has the largest (capped) weight, ties going to the
    smallest name; under a threshold its weight reaches the threshold; and
    under unanimity nobody voted for anything else. *)
Theorem decision_winner_rightful (r : DecisionRecord) (now : Z) (o : string)
    (Hok : weights_fit r) (Hres : resolve r now = (DResolved, Some o)) :
  let votes := btree_values (d_votes r) in
  (∀ v, v ∈ votes → v_veto v = false) ∧ supported o votes ∧
  match d_policy r with
  | Plurality _ => ∀ o', supported o' votes → beats (o, option_weight r o) (o', option_weight r o')
  | Threshold required => required ≤ option_weight r o
  | Unanimous _ => ∀ o', supported o' votes → o' = o
  end.
Proof.
  intros votes. revert Hres. unfold resolve. destruct (existsb v_veto _) eqn:Hv; [done|]. intros Hres.
  assert (Hnv : ∀ v, v ∈ votes → v_veto v = false).
  { intros v Hin. apply not_true_iff_false. intros Hvv. apply not_true_iff_false in Hv. apply Hv, existsb_exists.
    exists v. by rewrite <-list_elem_of_In. }
  split; [done|]. destruct (d_policy r) as [n|w|n].
  - destruct (_ || _); [|by destruct (decision_deadline_passed r now)].
    destruct (max_by _ _) as [[o1 w1]|] eqn:Em; [|done]. injection Hres as <-.
    apply max_by_spec in Em as [Hin Hb]. apply (elem_of_tallies r o1 w1 Hok) in Hin as [Hs ->].
    split; [done|]. intros o' Hs'. apply Hb. by apply (elem_of_tallies r).
  - destruct (List.find _ _) as [[o1 w1]|] eqn:Ef; [|by destruct (decision_deadline_passed r now)].
    injection Hres as <-. apply List.find_some in Ef as [Hin Hw]. apply list_elem_of_In in Hin.
    apply (elem_of_tallies r o1 w1 Hok) in Hin as [Hs ->]. simpl in Hw. bools. done.
  - destruct (_ && _) eqn:Hc; [|by destruct (decision_deadline_passed r now)]. bools.
    destruct (max_by _ _) as [[o1 w1]|] eqn:Em; [|done]. simpl in Hres. injection Hres as <-.
    apply max_by_spec in Em as [Hin _]. pose proof (proj1 (elem_of_tallies r o1 w1 Hok) Hin) as [Hs _].
    split; [done|]. intros o' Hs'.
    assert (Hin' : (o', option_weight r o') ∈ decision_tallies r) by by apply (elem_of_tallies r).
    destruct (decision_tallies r) as [|t [|]]; try done.
    apply list_elem_of_singleton in Hin, Hin'. congruence.
Qed.

(** Every recorded vote names a declared option. *)
Definition votes_declared (ds : decision_map) : Prop :=
  ∀ name r voter v o, ds !! name = Some r → d_votes r !! voter = Some v → v_option v = Some o → o ∈ d_options r.

(** Only declared options win.  Proposing and voting keep every recorded
    vote on a declared option, so a winner is always one of them. *)
Theorem decision_votes_declared (ds : decision_map) (now : Z) (name question voter : string)
    (options : list string) (policy : DecisionPolicy) (deadline : option Z) (choice : option string)
    (confidence : f32) (weight : Z) (veto : bool) (evidence : list string)
    (Hinv : votes_declared ds) :
  votes_declared (apply_decision_propose ds now name question options policy deadline).1 ∧
  votes_declared (apply_decision_vote ds now name voter choice confidence weight veto evidence).1 ∧
  (∀ r o, ds !! name = Some r → weights_fit r → resolve r now = (DResolved, Some o) → o ∈ d_options r).
Proof.
  split_and!.
  - unfold apply_decision_propose. destruct (ds !! name) eqn:E; [done|]. simpl.
    intros n r vt v o. rewrite lookup_insert. case_decide; [|apply Hinv]. intros [= <-]. simpl.
    by rewrite lookup_empty.
  - unfold apply_decision_vote. destruct (ds !! name) as [r0|] eqn:E; [|done].
    destruct (is_some_and _ _) eqn:Hc; [done|]. simpl.
    intros n r vt v o. rewrite lookup_insert. case_decide; [|apply Hinv]. intros [= <-]. simpl.
    rewrite lookup_insert. case_decide.
    + intros [= <-]. simpl. intros ->. simpl in Hc. bools. done.
    + by apply (Hinv name).
  - intros r o Hr Hok Hres.
    assert (Hs : supported o (btree_values (d_votes r))).
    { revert Hres. unfold resolve. destruct (existsb v_veto _); [done|].
      intros Hres.
      assert (Hany : ∃ w, (o, w) ∈ decision_tallies r).
      { destruct (d_policy r); repeat case_match; simplify_eq;
          match goal with
          | M : max_by _ _ = Some _ |- _ => apply max_by_spec in M as [? _]; by eexists
          | F : List.find _ _ = Some _ |- _ => apply List.find_some in F as [?%list_elem_of_In _]; by eexists
          | _ => idtac
          end.
        destruct (max_by _ _) as [[o1 w1]|] eqn:M; [|done]. simplify_eq/=.
        apply max_by_spec in M as [? _]. by eexists. }
      destruct Hany as [w Hw]. by apply (elem_of_tallies r o w Hok) in Hw as [? _]. }
    destruct Hs as (v & Hin & _ & Ho). apply elem_of_btree_values in Hin as [voter0 Hv]. by eapply Hinv.
Qed.

(** What a passed deadline does.  A plurality decision with a cast vote
    resolves at its deadline; but a threshold decision with votes below the
    threshold times out although it has a plurality, and a plurality decision
    that needs no votes stays open for ever when nobody votes. *)
Theorem decision_deadline_outcomes :
  (∀ r now n, d_policy r = Plurality n → weights_fit r → decision_deadline_passed r now = true →
     existsb v_veto (btree_values (d_votes r)) = false → 0 < cast_count r →
     ∃ o, resolve r now = (DResolved, Some o)) ∧
  (∃ r o, max_by tally_cmp (decision_tallies r) = Some (o, 1) ∧ decision_deadline_passed r 10 = true ∧
     resolve r 10 = (DTimedOut, None)) ∧
  (∃ r, decision_deadline_passed r 10 = true ∧ resolve r 10 = (DOpen, None)).
Proof.
  split_and!.
  - intros r now n Hp Hok Hd Hv Hc. unfold resolve. rewrite Hv, Hp, Hd. simpl.
    assert ((0 <? cast_count r) = true) as -> by by apply Z.ltb_lt. rewrite orb_true_r.
    destruct (max_by _ _) as [[o w]|] eqn:Em; [by exists o|].
    destruct (decision_tallies r) eqn:Et; [|done]. exfalso.
    assert (Hv0 : ∃ v, v ∈ btree_values (d_votes r) ∧ is_cast v = true).
    { unfold cast_count in Hc. destruct (filter _ _) as [|v l] eqn:F; [done|]. exists v.
      assert (Hin : v ∈ filter (λ v, is_cast v = true) (btree_values (d_votes r))) by (rewrite F; left).
      by apply list_elem_of_filter in Hin as [? ?]. }
    destruct Hv0 as (v & Hin & Hcast). unfold is_cast in Hcast. bools.
    match goal with Ho : is_Some (v_option v) |- _ => destruct Ho as [o Ho] end.
    assert (Hin' : (o, option_weight r o) ∈ decision_tallies r).
    { apply elem_of_tallies; [done|]. split; [|done]. by exists v. }
    rewrite Et in Hin'. by apply not_elem_of_nil in Hin'.
  - exists (mkDecision "q" ["a"] (Threshold 5) {["v" := mkVote (Some "a") (mk_f32 0) 1 false []]} (Some 10) 2), "a".
    vm_compute. done.
  - exists (mkDecision "q" ["a"] (Plurality 0) ∅ (Some 10) 1). vm_compute. done.
Qed.

(** ** Witnesses *)

Definition ballot : DecisionRecord :=
  mkDecision "q" ["a"; "b"] (Plurality 2)
    {["u" := mkVote (Some "b") (mk_f32 0) 3 false []; "v" := mkVote (Some "a") (mk_f32 0) 3 false []]} None 3.

Lemma ballot_fits : weights_fit ballot.
Proof.
  apply Forall_forall. intros v [k Hk]%elem_of_btree_values. revert Hk. simpl.
  rewrite lookup_insert, lookup_singleton. repeat case_decide; intros; simplify_eq; split; done.
Qed.

Lemma decision_winner_rightful_witness : supported "a" (btree_values (d_votes ballot)).
Proof.
  apply (decision_winner_rightful ballot 0 "a").
  - exact ballot_fits.
  - vm_compute. reflexivity.
Defined.

Lemma decision_votes_declared_witness :
  votes_declared (apply_decision_vote ∅ 0 "d" "v" (Some "z") (mk_f32 0) 1 false []).1.
Proof.
  apply (decision_votes_declared ∅ 0 "d" "q" "v" ["a"] (Plurality 1) None (Some "z") (mk_f32 0) 1 false []).
  intros name r voter v o. by rewrite lookup_empty.
Defined.
