(* ===== verification/Budgets.v ===== *)
(** Budgets of src/state.rs: a ceiling on three axes, reservations against it,
    and commits of what was really spent. *)

From S2P Require Import Prelude Json.

(** ** Data *)

Record BudgetAmount : Type := mkAmount {
  usd_micros : option Z;
  tokens : option Z;
  tool_calls : option Z
}.

Definition zero_amount : BudgetAmount := mkAmount (Some 0) (Some 0) (Some 0).

Inductive ReservationStatus : Type := RHeld | RCommitted | RReleased.

#[export] Instance ReservationStatus_eq_dec : EqDecision ReservationStatus.
Proof. solve_decision. Defined.

Record ReservationRecord : Type := mkReservation {
  r_holder : string;
  r_reserved : BudgetAmount;
  r_spent : BudgetAmount;
  r_status : ReservationStatus
}.

Record BudgetRecord : Type := mkBudget {
  bud_limit : BudgetAmount;
  bud_reservations : gmap string ReservationRecord;
  bud_generation : Z
}.

Abbreviation budget_map := (gmap string BudgetRecord).

#[export] Instance ser_amount : Serialize BudgetAmount := λ a,
  json! ["usd_micros" :- usd_micros a; "tokens" :- tokens a; "tool_calls" :- tool_calls a].

#[export] Instance ser_reservation_status : Serialize ReservationStatus := λ s,
  JStr match s with RHeld => "held" | RCommitted => "committed" | RReleased => "released" end.

(** ** Accounting *)

Definition consumed_on (axis : BudgetAmount → option Z) (r : ReservationRecord) : Z :=
  match r_status r with
  | RHeld => default 0 (axis (r_reserved r))
  | RCommitted => default 0 (axis (r_spent r))
  | RReleased => 0
  end.

(** The closure [sum] of [BudgetRecord::consumed]. *)
Definition consumed_sum (b : BudgetRecord) (axis : BudgetAmount → option Z) : Z :=
  foldl (λ acc r, sat_add acc (consumed_on axis r)) 0 (btree_values (bud_reservations b)).

Definition consumed (b : BudgetRecord) : BudgetAmount :=
  mkAmount (Some (consumed_sum b usd_micros)) (Some (consumed_sum b tokens)) (Some (consumed_sum b tool_calls)).

Definition spent_sum (b : BudgetRecord) (axis : BudgetAmount → option Z) : Z :=
  foldl (λ acc r, sat_add acc (default 0 (axis (r_spent r)))) 0
    (filter (λ r, r_status r = RCommitted) (btree_values (bud_reservations b))).

Definition budget_spent (b : BudgetRecord) : BudgetAmount :=
  mkAmount (Some (spent_sum b usd_micros)) (Some (spent_sum b tokens)) (Some (spent_sum b tool_calls)).

(** The closure [axis_ok] of [BudgetRecord::fits]. *)
Definition axis_ok (lim current add : option Z) : bool :=
  match lim with
  | None => true
  | Some cap => sat_add (default 0 current) (default 0 add) <=? cap
  end.

Definition fits (b : BudgetRecord) (amount : BudgetAmount) : bool :=
  let c := consumed b in
  axis_ok (usd_micros (bud_limit b)) (usd_micros c) (usd_micros amount)
  && axis_ok (tokens (bud_limit b)) (tokens c) (tokens amount)
  && axis_ok (tool_calls (bud_limit b)) (tool_calls c) (tool_calls amount).

Definition available_on (lim used : option Z) : option Z := (λ cap, sat_sub cap (default 0 used)) <$> lim.

Definition budget_available (b : BudgetRecord) : BudgetAmount :=
  let c := consumed b in
  mkAmount (available_on (usd_micros (bud_limit b)) (usd_micros c))
    (available_on (tokens (bud_limit b)) (tokens c))
    (available_on (tool_calls (bud_limit b)) (tool_calls c)).

(** [BudgetRecord::view], as the JSON of [BudgetState]. *)
Definition budget_view (b : BudgetRecord) (name : string) : Value :=
  json! ["name" :- name; "limit" :- bud_limit b; "reserved" :- consumed b; "spent" :- budget_spent b;
         "available" :- budget_available b;
         "reservations" :- ((λ e, json! ["id" :- e.1; "holder" :- r_holder e.2; "reserved" :- r_reserved e.2;
                                         "spent" :- r_spent e.2; "status" :- r_status e.2])
                            <$> btree_iter (bud_reservations b));
         "generation" :- bud_generation b].

(** ** Commands *)

Definition apply_budget_set (bs : budget_map) (name : string) (limit : BudgetAmount) : budget_map * Value :=
  let b := default (mkBudget limit ∅ 0) (bs !! name) in
  let b' := mkBudget limit (bud_reservations b) (wrap_add (bud_generation b) 1) in
  (<[name := b']> bs, json! ["ok" :- true; "budget" :- budget_view b' name]).

Definition with_reservation (b : BudgetRecord) (id : string) (r : ReservationRecord) : BudgetRecord :=
  mkBudget (bud_limit b) (<[id := r]> (bud_reservations b)) (wrap_add (bud_generation b) 1).

Definition apply_budget_reserve (bs : budget_map) (name reservation_id holder : string)
    (amount : BudgetAmount) : budget_map * Value :=
  match bs !! name with
  | None => (bs, json! ["ok" :- false; "reason" :- "not_found"])
  | Some b =>
      if bool_decide (is_Some (bud_reservations b !! reservation_id)) then
        (bs, json! ["ok" :- true; "reserved" :- false; "budget" :- budget_view b name])
      else if negb (fits b amount) then
        (bs, json! ["ok" :- false; "reason" :- "insufficient_budget"; "available" :- budget_available b;
                    "budget" :- budget_view b name])
      else
        let b' := with_reservation b reservation_id (mkReservation holder amount zero_amount RHeld) in
        (<[name := b']> bs, json! ["ok" :- true; "reserved" :- true; "budget" :- budget_view b' name])
  end.

(** The closure [cap] of [apply_budget_commit]. *)
Definition cap_spend (actual reserved : option Z) : option Z :=
  match actual, reserved with
  | Some a, Some r => Some (Z.min a r)
  | Some a, None => Some a
  | None, _ => Some 0
  end.

Definition capped (actual reserved : BudgetAmount) : BudgetAmount :=
  mkAmount (cap_spend (usd_micros actual) (usd_micros reserved)) (cap_spend (tokens actual) (tokens reserved))
    (cap_spend (tool_calls actual) (tool_calls reserved)).

Definition apply_budget_commit (bs : budget_map) (name reservation_id : string) (actual : BudgetAmount) :
    budget_map * Value :=
  match bs !! name with
  | None => (bs, json! ["ok" :- false; "reason" :- "not_found"])
  | Some b =>
      match bud_reservations b !! reservation_id with
      | None => (bs, json! ["ok" :- false; "reason" :- "reservation_not_found"])
      | Some r =>
          match r_status r with
          | RCommitted => (bs, json! ["ok" :- true; "committed" :- false; "budget" :- budget_view b name])
          | RReleased => (bs, json! ["ok" :- false; "reason" :- "released"])
          | RHeld =>
              let b' := with_reservation b reservation_id
                          (mkReservation (r_holder r) (r_reserved r) (capped actual (r_reserved r)) RCommitted) in
              (<[name := b']> bs, json! ["ok" :- true; "committed" :- true; "budget" :- budget_view b' name])
          end
      end
  end.

Definition apply_budget_release (bs : budget_map) (name reservation_id : string) : budget_map * Value :=
  match bs !! name with
  | None => (bs, json! ["ok" :- false; "reason" :- "not_found"])
  | Some b =>
      match bud_reservations b !! reservation_id with
      | None => (bs, json! ["ok" :- false; "reason" :- "reservation_not_found"])
      | Some r =>
          if bool_decide (r_status r = RCommitted) then
            (bs, json! ["ok" :- false; "reason" :- "already_committed"; "budget" :- budget_view b name])
          else
            let b' := with_reservation b reservation_id
                        (mkReservation (r_holder r) (r_reserved r) (r_spent r) RReleased) in
            (<[name := b']> bs, json! ["ok" :- true; "budget" :- budget_view b' name])
      end
  end.

(** ** The ceiling *)

Definition axes : list (BudgetAmount → option Z) := [usd_micros; tokens; tool_calls].

(** Amounts are [u64]s, so not negative. *)
Definition amount_ok (a : BudgetAmount) : Prop := ∀ axis, axis ∈ axes → 0 ≤ default 0 (axis a).

Definition reservations_ok (b : BudgetRecord) : Prop :=
  map_Forall (λ _ r, amount_ok (r_reserved r) ∧ amount_ok (r_spent r)) (bud_reservations b).

(** Every limited axis is within its ceiling. *)
Definition within (b : BudgetRecord) : Prop :=
  ∀ axis cap, axis ∈ axes → axis (bud_limit b) = Some cap → consumed_sum b axis ≤ cap.

(** What is consumed, exactly. *)
Definition exact_sum (b : BudgetRecord) (axis : BudgetAmount → option Z) : Z :=
  sumZ (consumed_on axis <$> (map_to_list (bud_reservations b)).*2).

Lemma consumed_on_nonneg axis r :
  axis ∈ axes → amount_ok (r_reserved r) → amount_ok (r_spent r) → 0 ≤ consumed_on axis r.
Proof. intros Ha H1 H2. unfold consumed_on. destruct (r_status r); [by apply H1|by apply H2|done]. Qed.

Lemma consumed_sum_exact b axis :
  axis ∈ axes → reservations_ok b → consumed_sum b axis = Z.min (exact_sum b axis) U64_MAX.
Proof.
  intros Ha Hok. unfold consumed_sum, exact_sum. rewrite foldl_map, sat_sum.
  - f_equal. apply sumZ_perm. unfold btree_values. by rewrite btree_iter_Permutation.
  - apply Forall_fmap, Forall_forall. intros r [id Hr]%elem_of_btree_values.
    destruct (Hok id r Hr). by apply consumed_on_nonneg.
Qed.

Lemma exact_sum_insert b id r axis :
  bud_reservations b !! id = None →
  exact_sum (with_reservation b id r) axis = exact_sum b axis + consumed_on axis r.
Proof.
  intros Hid. unfold exact_sum, with_reservation. simpl.
  rewrite (sumZ_perm _ (consumed_on axis r :: (consumed_on axis <$> (map_to_list (bud_reservations b)).*2))).
  - unfold sumZ. simpl. lia.
  - by rewrite map_to_list_insert.
Qed.

Lemma exact_sum_update b id r0 r axis :
  bud_reservations b !! id = Some r0 →
  exact_sum (with_reservation b id r) axis = exact_sum b axis - consumed_on axis r0 + consumed_on axis r.
Proof.
  intros Hid. set (b0 := mkBudget (bud_limit b) (delete id (bud_reservations b)) (bud_generation b)).
  assert (Hn : bud_reservations b0 !! id = None) by apply lookup_delete_eq.
  pose proof (exact_sum_insert b0 id r axis Hn) as H1. pose proof (exact_sum_insert b0 id r0 axis Hn) as H0.
  unfold exact_sum, with_reservation, b0 in *. simpl in *. rewrite insert_delete_eq in H1.
  rewrite insert_delete_id in H0 by done. lia.
Qed.

Lemma fits_axis b amount axis cap :
  fits b amount = true → axis ∈ axes → axis (bud_limit b) = Some cap →
  sat_add (consumed_sum b axis) (default 0 (axis amount)) ≤ cap.
Proof.
  unfold fits, axes. intros Hf Ha Hl. bools.
  rewrite !elem_of_cons in Ha. destruct Ha as [->|[->|[->|Ha]]]; [..|by apply not_elem_of_nil in Ha];
    unfold axis_ok, consumed in *; simpl in *; rewrite Hl in *; bools; done.
Qed.

Lemma amount_ok_zero : amount_ok zero_amount.
Proof.
  intros axis. unfold axes. rewrite !elem_of_cons.
  intros [->|[->|[->|Ha]]]; [done..|by apply not_elem_of_nil in Ha].
Qed.

(** The commit stays inside what was reserved: on every limited axis the
    reservation names an amount, or nothing is reported as spent. *)
Definition reserved_axes (lim reserved actual : BudgetAmount) : Prop :=
  ∀ axis, axis ∈ axes → is_Some (axis lim) → is_Some (axis reserved) ∨ axis actual = None.

Lemma capped_axis axis actual reserved :
  axis ∈ axes → axis (capped actual reserved) = cap_spend (axis actual) (axis reserved).
Proof.
  unfold axes. rewrite !elem_of_cons.
  intros [->|[->|[->|Ha]]]; [done..|by apply not_elem_of_nil in Ha].
Qed.

Lemma cap_spend_nonneg a r : 0 ≤ default 0 a → 0 ≤ default 0 r → 0 ≤ default 0 (cap_spend a r).
Proof. destruct a, r; simpl; lia. Qed.

Lemma within_step b b' :
  within b → reservations_ok b → reservations_ok b' → bud_limit b' = bud_limit b →
  (∀ axis cap, axis ∈ axes → axis (bud_limit b) = Some cap → exact_sum b' axis ≤ exact_sum b axis) →
  within b'.
Proof.
  intros Hw Hok Hok' Hl Hle axis cap Ha Hcap. rewrite Hl in Hcap. specialize (Hw axis cap Ha Hcap).
  specialize (Hle axis cap Ha Hcap). rewrite consumed_sum_exact in * by done. lia.
Qed.

Lemma reservations_ok_insert b id r :
  reservations_ok b → amount_ok (r_reserved r) → amount_ok (r_spent r) →
  reservations_ok (with_reservation b id r).
Proof. intros Hok H1 H2. apply map_Forall_insert_2; done. Qed.

(** ** Histories *)

Inductive budget_step (bs : budget_map) : budget_map → Prop :=
| step_set name limit :
    bs !! name = None → amount_ok limit → budget_step bs (apply_budget_set bs name limit).1
| step_reserve name id holder amount :
    amount_ok amount → budget_step bs (apply_budget_reserve bs name id holder amount).1
| step_commit name id actual :
    amount_ok actual →
    (∀ b r, bs !! name = Some b → bud_reservations b !! id = Some r →
       reserved_axes (bud_limit b) (r_reserved r) actual) →
    budget_step bs (apply_budget_commit bs name id actual).1
| step_release name id : budget_step bs (apply_budget_release bs name id).1.

Definition budgets_inv (bs : budget_map) : Prop := map_Forall (λ _ b, within b ∧ reservations_ok b) bs.

Lemma within_reserve b id holder amount :
  within b → reservations_ok b → amount_ok amount → bud_reservations b !! id = None → fits b amount = true →
  within (with_reservation b id (mkReservation holder amount zero_amount RHeld)).
Proof.
  intros Hw Hok Ham Hid Hf axis cap Ha Hcap. simpl in Hcap.
  pose proof (fits_axis _ _ _ _ Hf Ha Hcap) as Hfit. rewrite consumed_sum_exact in *; try done.
  - rewrite exact_sum_insert by done. unfold consumed_on. simpl. unfold sat_add in Hfit.
    specialize (Ham axis Ha). lia.
  - apply reservations_ok_insert; [done|done|apply amount_ok_zero].
Qed.

Lemma within_commit b id r actual :
  within b → reservations_ok b → amount_ok actual → bud_reservations b !! id = Some r → r_status r = RHeld →
  reserved_axes (bud_limit b) (r_reserved r) actual →
  within (with_reservation b id (mkReservation (r_holder r) (r_reserved r) (capped actual (r_reserved r)) RCommitted))
  ∧ reservations_ok (with_reservation b id
      (mkReservation (r_holder r) (r_reserved r) (capped actual (r_reserved r)) RCommitted)).
Proof.
  intros Hw Hok Ham Hr Hs Hax. destruct (Hok _ _ Hr) as [H1 H2].
  assert (Hok' : reservations_ok (with_reservation b id
      (mkReservation (r_holder r) (r_reserved r) (capped actual (r_reserved r)) RCommitted))).
  { apply reservations_ok_insert; [done|done|]. intros axis Ha. simpl. rewrite capped_axis by done.
    apply cap_spend_nonneg; auto. }
  split; [|done]. apply (within_step b); try done. intros axis cap Ha Hcap.
  rewrite (exact_sum_update _ _ r) by done. unfold consumed_on. rewrite Hs. simpl. rewrite capped_axis by done.
  specialize (H1 axis Ha). specialize (Ham axis Ha).
  destruct (Hax axis Ha ltac:(by eexists)) as [[x Hx]|Hn].
  - rewrite Hx in *. destruct (axis actual); simpl in *; lia.
  - rewrite Hn. simpl. lia.
Qed.

Lemma within_release b id r :
  within b → reservations_ok b → bud_reservations b !! id = Some r →
  within (with_reservation b id (mkReservation (r_holder r) (r_reserved r) (r_spent r) RReleased))
  ∧ reservations_ok (with_reservation b id (mkReservation (r_holder r) (r_reserved r) (r_spent r) RReleased)).
Proof.
  intros Hw Hok Hr. destruct (Hok _ _ Hr) as [H1 H2].
  assert (Hok' : reservations_ok (with_reservation b id
    (mkReservation (r_holder r) (r_reserved r) (r_spent r) RReleased))) by by apply reservations_ok_insert.
  split; [|done]. apply (within_step b); try done. intros axis cap Ha Hcap.
  rewrite (exact_sum_update _ _ r) by done.
  pose proof (consumed_on_nonneg axis r Ha H1 H2). unfold consumed_on at 2. simpl. lia.
Qed.

Lemma budget_step_inv bs bs' : budget_step bs bs' → budgets_inv bs → budgets_inv bs'.
Proof.
  destruct 1 as [name limit Hn Hl|name id holder amount Ham|name id actual Ham Hax|name id]; intros Hinv.
  - apply map_Forall_insert_2; [|done]. rewrite Hn. simpl. split; [|done].
    intros axis cap Ha Hcap. unfold consumed_sum. simpl in *. specialize (Hl axis Ha). by rewrite Hcap in Hl.
  - unfold apply_budget_reserve. destruct (bs !! name) as [b|] eqn:E; [|done]. destruct (Hinv _ _ E) as [Hw Hok].
    case_bool_decide as Hid; [done|]. destruct (fits b amount) eqn:Hf; [|done].
    apply map_Forall_insert_2; [|done]. apply eq_None_not_Some in Hid. split; [by apply within_reserve|].
    apply reservations_ok_insert; [done|done|apply amount_ok_zero].
  - unfold apply_budget_commit. destruct (bs !! name) as [b|] eqn:E; [|done]. destruct (Hinv _ _ E) as [Hw Hok].
    destruct (bud_reservations b !! id) as [r|] eqn:Er; [|done]. destruct (r_status r) eqn:Es; try done.
    apply map_Forall_insert_2; [|done]. apply within_commit; eauto.
  - unfold apply_budget_release. destruct (bs !! name) as [b|] eqn:E; [|done]. destruct (Hinv _ _ E) as [Hw Hok].
    destruct (bud_reservations b !! id) as [r|] eqn:Er; [|done]. case_bool_decide; [done|].
    apply map_Forall_insert_2; [|done]. by apply within_release.
Qed.

(** The ceiling holds.  In every history whose commits report spending
    only on axes that were reserved, each limited axis of each budget stays
    within its ceiling; and below the largest [u64] the exact total of held and
    spent amounts does, however the saturating sums are taken. *)
Theorem budget_ceiling (bs : budget_map) (Hreach : rtc budget_step ∅ bs) :
  ∀ name b axis cap, bs !! name = Some b → axis ∈ axes → axis (bud_limit b) = Some cap →
    consumed_sum b axis ≤ cap ∧ (cap < U64_MAX → exact_sum b axis ≤ cap).
Proof.
  assert (Hinv : budgets_inv bs).
  { remember ∅ as bs0 eqn:E0. assert (H0 : budgets_inv bs0) by (subst; apply map_Forall_empty). clear E0.
    induction Hreach as [|x y z Hxy _ IH]; [done|]. apply IH. by eapply budget_step_inv. }
  intros name b axis cap Hb Ha Hcap. destruct (Hinv _ _ Hb) as [Hw Hok].
  specialize (Hw axis cap Ha Hcap). split; [done|]. rewrite consumed_sum_exact in Hw by done. lia.
Qed.

(** A reservation is settled once.  A commit takes effect only on a held
    reservation, never records more than was reserved on a reserved axis, and a
    committed reservation refuses every later commit or release unchanged. *)
Theorem budget_commit_once (bs : budget_map) (name id : string) (b : BudgetRecord) (r : ReservationRecord)
    (actual actual' : BudgetAmount) (Hb : bs !! name = Some b) (Hr : bud_reservations b !! id = Some r) :
  let '(bs', out) := apply_budget_commit bs name id actual in
  if flag "committed" out
  then r_status r = RHeld ∧ ∃ b' r', bs' !! name = Some b' ∧ bud_reservations b' !! id = Some r' ∧
         r_status r' = RCommitted ∧ bud_limit b' = bud_limit b ∧
         (∀ axis reserved, axis ∈ axes → axis (r_reserved r) = Some reserved → 0 ≤ reserved →
            default 0 (axis (r_spent r')) ≤ reserved) ∧
         (apply_budget_commit bs' name id actual').1 = bs' ∧ (apply_budget_release bs' name id).1 = bs'
  else bs' = bs ∧ r_status r ≠ RHeld.
Proof.
  unfold apply_budget_commit at 1. rewrite Hb, Hr. destruct (r_status r) eqn:Es; [|by cbn..].
  cbn [flag field assoc]. split; [done|]. eexists _, _. rewrite lookup_insert_eq. split_and!; [done| | |done| | |].
  - simpl. apply lookup_insert_eq.
  - done.
  - simpl. intros axis reserved Ha Hres H0. rewrite capped_axis, Hres by done.
    destruct (axis actual); simpl; lia.
  - unfold apply_budget_commit. rewrite lookup_insert_eq. simpl. rewrite lookup_insert_eq. done.
  - unfold apply_budget_release. rewrite lookup_insert_eq. simpl. by rewrite lookup_insert_eq.
Qed.

(** The hole in the ceiling.  A commit may report spending on an axis its
    reservation did not name, and that amount is recorded uncapped: a budget
    limited to 100 accepts a reservation of nothing on that axis and then
    records 1000 spent. *)
Theorem budget_unreserved_axis_uncapped :
  let bs := (apply_budget_set ∅ "b" (mkAmount (Some 100) None None)).1 in
  let bs := (apply_budget_reserve bs "b" "r" "h" (mkAmount None (Some 5) None)).1 in
  let r := apply_budget_commit bs "b" "r" (mkAmount (Some 1000) (Some 5) None) in
  flag "committed" r.2 = true ∧ ∃ b, r.1 !! "b" = Some b ∧
    usd_micros (bud_limit b) = Some 100 ∧ consumed_sum b usd_micros = 1000.
Proof.
  split; [vm_compute; reflexivity|].
  exists (mkBudget (mkAmount (Some 100) None None)
    {["r" := mkReservation "h" (mkAmount None (Some 5) None) (mkAmount (Some 1000) (Some 5) (Some 0)) RCommitted]} 3).
  split_and!; vm_compute; reflexivity.
Qed.

(** ** Witnesses *)

Definition budget1 : budget_map :=
  (apply_budget_reserve (apply_budget_set ∅ "b" (mkAmount (Some 100) None None)).1 "b" "r" "h"
     (mkAmount (Some 60) None None)).1.

Lemma budget_ceiling_witness : ∃ b, budget1 !! "b" = Some b ∧ consumed_sum b usd_micros ≤ 100.
Proof.
  destruct (budget1 !! "b") as [b|] eqn:Hb; [|vm_compute in Hb; discriminate Hb].
  exists b. split; [reflexivity|]. refine (proj1 (budget_ceiling budget1 _ "b" b usd_micros 100 Hb _ _)).
  - assert (Hok : ∀ n, 0 ≤ n → amount_ok (mkAmount (Some n) None None)).
    { intros n Hn axis. unfold axes. rewrite !elem_of_cons.
      intros [->|[->|[->|Ha]]]; [done..|by apply not_elem_of_nil in Ha]. }
    eapply rtc_l; [apply (step_set ∅ "b" (mkAmount (Some 100) None None)); [done|by apply Hok]|].
    apply rtc_once. apply step_reserve. by apply Hok.
  - left.
  - vm_compute in Hb. injection Hb as <-. reflexivity.
Defined.

Lemma budget_commit_once_witness :
  flag "committed" (apply_budget_commit budget1 "b" "r" (mkAmount (Some 70) None None)).2 = true ∧
  ∃ b r, budget1 !! "b" = Some b ∧ bud_reservations b !! "r" = Some r ∧ 
  let '(bs', out) := apply_budget_commit budget1 "b" "r" (mkAmount (Some 70) None None) in
  if flag "committed" out then r_status r = RHeld else r_status r ≠ RHeld.
Proof.
  split; [vm_compute; reflexivity|].
  exists (mkBudget (mkAmount (Some 100) None None)
            {["r" := mkReservation "h" (mkAmount (Some 60) None None) zero_amount RHeld]} 2).
  exists (mkReservation "h" (mkAmount (Some 60) None None) zero_amount RHeld).
  assert (Hb : budget1 !! "b" = Some (mkBudget (mkAmount (Some 100) None None)
            {["r" := mkReservation "h" (mkAmount (Some 60) None None) zero_amount RHeld]} 2))
    by (vm_compute; reflexivity).
  split; [exact Hb|]. split; [reflexivity|].
  pose proof (budget_commit_once budget1 "b" "r" _ _ (mkAmount (Some 70) None None) zero_amount Hb
    ltac:(apply lookup_singleton_eq)) as Hc.
  destruct (apply_budget_commit _ _ _ _) as [bs' out]. destruct (flag "committed" out); apply Hc.
Defined.
