(* ===== verification/Claims.v ===== *)
(** The contestable claim ledger of src/state.rs: versioned assertions that
    agents support, contest, resolve or supersede. *)

From S2P Require Import Prelude Json.

(** ** Data *)

Inductive ClaimStatus : Type := CAsserted | CContested | CAccepted | CRejected | CSuperseded.

#[export] Instance ClaimStatus_eq_dec : EqDecision ClaimStatus.
Proof. solve_decision. Defined.

Definition claim_terminal (s : ClaimStatus) : bool :=
  match s with CAccepted | CRejected | CSuperseded => true | _ => false end.

Record ClaimRecord : Type := mkClaim {
  cl_subject : string;
  cl_predicate : string;
  cl_value : Value;
  cl_confidence : f32;
  cl_author : string;
  cl_status : ClaimStatus;
  cl_supporters : gset string;
  cl_contests : gmap string string;
  cl_evidence : list string;
  cl_valid_until : option Z;
  cl_superseded_by : option string;
  cl_version : Z;
  cl_generation : Z
}.

Abbreviation claim_map := (gmap string ClaimRecord).

#[export] Instance ser_claim_status : Serialize ClaimStatus := λ s,
  JStr match s with
       | CAsserted => "asserted"
       | CContested => "contested"
       | CAccepted => "accepted"
       | CRejected => "rejected"
       | CSuperseded => "superseded"
       end.

(** [ClaimRecord::view], as the JSON of [ClaimState]. *)
Definition claim_view (r : ClaimRecord) (name : string) : Value :=
  json! ["name" :- name; "subject" :- cl_subject r; "predicate" :- cl_predicate r; "value" :- cl_value r;
         "confidence" :- cl_confidence r; "author" :- cl_author r; "status" :- cl_status r;
         "supporters" :- btree_elements (cl_supporters r);
         "contests" :- ((λ e, json! ["agent" :- e.1; "reason" :- e.2]) <$> btree_iter (cl_contests r));
         "evidence" :- cl_evidence r; "valid_until_ms" :- cl_valid_until r;
         "superseded_by" :- cl_superseded_by r; "version" :- cl_version r; "generation" :- cl_generation r].

(** The record with new votes and status, one generation on. *)
Definition claim_next (r : ClaimRecord) (status : ClaimStatus) (supporters : gset string)
    (contests : gmap string string) (superseded_by : option string) : ClaimRecord :=
  mkClaim (cl_subject r) (cl_predicate r) (cl_value r) (cl_confidence r) (cl_author r) status supporters
    contests (cl_evidence r) (cl_valid_until r) superseded_by (cl_version r) (wrap_add (cl_generation r) 1).

(** ** Commands *)

Definition apply_claim_assert (cs : claim_map) (name subject predicate : string) (value : Value)
    (confidence : f32) (author : string) (evidence : list string) (valid_until_ms : option Z) :
    claim_map * Value :=
  match cs !! name with
  | Some r =>
      if negb (claim_terminal (cl_status r)) then
        let r' := mkClaim subject predicate value confidence author CAsserted ∅ ∅ evidence valid_until_ms
                    (cl_superseded_by r) (wrap_add (cl_version r) 1) (wrap_add (cl_generation r) 1) in
        (<[name := r']> cs, json! ["ok" :- true; "created" :- false; "claim" :- claim_view r' name])
      else (cs, json! ["ok" :- false; "reason" :- "terminal"; "claim" :- claim_view r name])
  | None =>
      let r' := mkClaim subject predicate value confidence author CAsserted ∅ ∅ evidence valid_until_ms
                  None 1 1 in
      (<[name := r']> cs, json! ["ok" :- true; "created" :- true; "claim" :- claim_view r' name])
  end.

(** The guards of [support], [contest] and [resolve]. *)
Definition claim_open (cs : claim_map) (name : string) (next : ClaimRecord → ClaimRecord) : claim_map * Value :=
  match cs !! name with
  | None => (cs, json! ["ok" :- false; "reason" :- "not_found"])
  | Some r =>
      if claim_terminal (cl_status r) then
        (cs, json! ["ok" :- false; "reason" :- "terminal"; "claim" :- claim_view r name])
      else
        let r' := next r in
        (<[name := r']> cs, json! ["ok" :- true; "claim" :- claim_view r' name])
  end.

Definition apply_claim_support (cs : claim_map) (name agent : string) : claim_map * Value :=
  claim_open cs name (λ r,
    claim_next r (cl_status r) ({[agent]} ∪ cl_supporters r) (cl_contests r) (cl_superseded_by r)).

Definition apply_claim_contest (cs : claim_map) (name agent reason : string) : claim_map * Value :=
  claim_open cs name (λ r,
    claim_next r CContested (cl_supporters r) (<[agent := reason]> (cl_contests r)) (cl_superseded_by r)).

Definition apply_claim_resolve (cs : claim_map) (name : string) (accepted : bool) : claim_map * Value :=
  claim_open cs name (λ r,
    claim_next r (if accepted then CAccepted else CRejected) (cl_supporters r) (cl_contests r)
      (cl_superseded_by r)).

Definition apply_claim_supersede (cs : claim_map) (name superseded_by : string) : claim_map * Value :=
  match cs !! name with
  | None => (cs, json! ["ok" :- false; "reason" :- "not_found"])
  | Some r =>
      if bool_decide (cl_status r = CSuperseded) then
        (cs, json! ["ok" :- true; "superseded" :- false; "claim" :- claim_view r name])
      else
        let r' := claim_next r CSuperseded (cl_supporters r) (cl_contests r) (Some superseded_by) in
        (<[name := r']> cs, json! ["ok" :- true; "superseded" :- true; "claim" :- claim_view r' name])
  end.

(** ** The life of a claim *)

Inductive claim_call : Type :=
| CAssert (name subject predicate : string) (value : Value) (confidence : f32) (author : string)
    (evidence : list string) (valid_until : option Z)
| CSupport (name agent : string)
| CContest (name agent reason : string)
| CResolve (name : string) (accepted : bool)
| CSupersede (name superseded_by : string).

Definition claim_exec (cs : claim_map) (call : claim_call) : claim_map * Value :=
  match call with
  | CAssert n s p v c a e u => apply_claim_assert cs n s p v c a e u
  | CSupport n a => apply_claim_support cs n a
  | CContest n a r => apply_claim_contest cs n a r
  | CResolve n ok => apply_claim_resolve cs n ok
  | CSupersede n by_name => apply_claim_supersede cs n by_name
  end.

Definition claim_run (cs : claim_map) (calls : list claim_call) : claim_map :=
  foldl (λ cs call, (claim_exec cs call).1) cs calls.

(** What a client may read of an asserted value. *)
Definition claim_content (r : ClaimRecord) : string * string * Value * string * list string :=
  (cl_subject r, cl_predicate r, cl_value r, cl_author r, cl_evidence r).

(** The transitions of one claim. *)
Inductive claim_trans (r : ClaimRecord) : ClaimRecord → Prop :=
| trans_keep : claim_trans r r
| trans_reassert r' : claim_terminal (cl_status r) = false → cl_status r' = CAsserted →
    cl_version r' = wrap_add (cl_version r) 1 → cl_supporters r' = ∅ → cl_contests r' = ∅ → claim_trans r r'
| trans_vote r' : claim_terminal (cl_status r) = false → claim_content r' = claim_content r →
    cl_version r' = cl_version r →
    (cl_status r' = cl_status r ∨ cl_status r' = CContested ∧ cl_contests r' ≠ ∅ ∨
     cl_status r' = CAccepted ∨ cl_status r' = CRejected) → claim_trans r r'
| trans_supersede r' : cl_status r ≠ CSuperseded → cl_status r' = CSuperseded →
    claim_content r' = claim_content r → cl_version r' = cl_version r → is_Some (cl_superseded_by r') →
    claim_trans r r'.

Lemma claim_exec_trans cs call name r :
  cs !! name = Some r → ∃ r', (claim_exec cs call).1 !! name = Some r' ∧ claim_trans r r'.
Proof.
  intros Hr. assert (Hkeep : ∃ r', cs !! name = Some r' ∧ claim_trans r r') by (exists r; split; [done|constructor]).
  assert (Hother : ∀ n r1, n ≠ name → ∃ r', <[n := r1]> cs !! name = Some r' ∧ claim_trans r r').
  { intros n r1 Hn. rewrite lookup_insert_ne by done. done. }
  assert (Hopen : ∀ n next, (∀ r, claim_terminal (cl_status r) = false → claim_trans r (next r)) →
    ∃ r', (claim_open cs n next).1 !! name = Some r' ∧ claim_trans r r').
  { intros n next Hnext. unfold claim_open. destruct (cs !! n) as [r0|] eqn:E; [|done].
    destruct (claim_terminal (cl_status r0)) eqn:T; [done|]. simpl.
    destruct (decide (n = name)) as [->|Hn]; [|by apply Hother]. simplify_eq. rewrite lookup_insert_eq. eauto. }
  destruct call as [n s p v c a e u|n a|n a why|n ok|n by_name]; simpl.
  - unfold apply_claim_assert. destruct (decide (n = name)) as [->|Hn].
    + rewrite Hr. destruct (claim_terminal (cl_status r)) eqn:T; [done|]. simpl. rewrite lookup_insert_eq.
      eexists. split; [done|]. by apply trans_reassert.
    + destruct (cs !! n) as [r0|]; [|by apply Hother]. destruct (negb _); [by apply Hother|done].
  - apply Hopen. intros r0 T. apply trans_vote; try done. by left.
  - apply Hopen. intros r0 T. apply trans_vote; try done. right. left. split; [done|]. apply insert_non_empty.
  - apply Hopen. intros r0 T. apply trans_vote; try done. right. right. by destruct ok; [left|right].
  - unfold apply_claim_supersede. destruct (cs !! n) as [r0|] eqn:E; [|done]. case_bool_decide; [done|]. simpl.
    destruct (decide (n = name)) as [->|Hn]; [|by apply Hother]. simplify_eq. rewrite lookup_insert_eq.
    eexists. split; [done|]. by apply trans_supersede.
Qed.

Lemma claim_trans_settled r r' :
  claim_trans r r' → claim_terminal (cl_status r) = true →
  claim_content r' = claim_content r ∧ cl_version r' = cl_version r ∧
  (r' = r ∨ cl_status r' = CSuperseded ∧ cl_status r ≠ CSuperseded).
Proof. destruct 1; intros T; try congruence; split_and!; try done; auto. Qed.

(** A settled claim cannot be rewritten.  Once a claim is accepted,
    rejected or superseded, no history changes its value, author, evidence or
    version; an accepted or rejected claim can only become superseded, and a
    superseded one is final in every field. *)
Theorem settled_claim_immutable (cs : claim_map) (calls : list claim_call) (name : string) (r : ClaimRecord)
    (Hr : cs !! name = Some r) (Hterm : claim_terminal (cl_status r) = true) :
  ∃ r', claim_run cs calls !! name = Some r' ∧ claim_content r' = claim_content r ∧
    cl_version r' = cl_version r ∧
    (cl_status r' = cl_status r ∨ cl_status r' = CSuperseded) ∧
    (cl_status r = CSuperseded → r' = r).
Proof.
  revert cs r Hr Hterm. induction calls as [|call calls IH]; intros cs r Hr Hterm.
  { exists r. split_and!; try done. by left. }
  destruct (claim_exec_trans cs call name r Hr) as (r1 & Hr1 & Ht).
  destruct (claim_trans_settled _ _ Ht Hterm) as (Hc & Hv & Hs).
  assert (Hterm1 : claim_terminal (cl_status r1) = true).
  { destruct Hs as [->|[-> _]]; done. }
  destruct (IH _ _ Hr1 Hterm1) as (r2 & Hr2 & Hc2 & Hv2 & Hs2 & Hf2). exists r2. split_and!.
  - done.
  - congruence.
  - congruence.
  - destruct Hs as [->|[Hs _]]; [done|]. rewrite Hs in Hs2. destruct Hs2; by right.
  - intros Hsup. destruct Hs as [->|[_ ?]]; [auto|done].
Qed.

(** Votes belong to one version.  Whenever a claim's version or content
    changes, its supporters and contests start empty; otherwise a contest is
    always on record in a claim that just became contested. *)
Theorem claim_votes_per_version (cs : claim_map) (call : claim_call) (name : string) (r r' : ClaimRecord)
    (Hr : cs !! name = Some r) (Hr' : (claim_exec cs call).1 !! name = Some r') :
  (claim_content r' = claim_content r ∧ cl_version r' = cl_version r ∨
   cl_version r' = wrap_add (cl_version r) 1 ∧ cl_supporters r' = ∅ ∧ cl_contests r' = ∅ ∧ cl_status r' = CAsserted) ∧
  (cl_status r ≠ CContested → cl_status r' = CContested → cl_contests r' ≠ ∅).
Proof.
  destruct (claim_exec_trans cs call name r Hr) as (r1 & Hr1 & Ht). rewrite Hr' in Hr1. injection Hr1 as <-.
  destruct Ht; split; try by left.
  - done.
  - by right.
  - congruence.
  - intros. destruct_or!; destruct_and?; congruence || done.
  - congruence.
Qed.

Definition fact : ClaimRecord :=
  mkClaim "sky" "colour" (JStr "blue") (mk_f32 0) "ann" CAccepted ∅ ∅ [] None None 1 2.

Lemma settled_claim_immutable_witness :
  ∃ r', claim_run {["f" := fact]} [CContest "f" "bob" "no"; CSupersede "f" "g"] !! "f" = Some r' ∧
    claim_content r' = claim_content fact.
Proof.
  destruct (settled_claim_immutable {["f" := fact]} [CContest "f" "bob" "no"; CSupersede "f" "g"] "f" fact)
    as (r' & Hr' & Hc & _); [reflexivity|reflexivity|].
  by exists r'.
Defined.

Lemma claim_votes_per_version_witness :
  let r := claim_next fact CAsserted ∅ ∅ None in
  ∀ r', (claim_exec {["f" := r]} (CContest "f" "bob" "no")).1 !! "f" = Some r' → cl_contests r' ≠ ∅.
Proof.
  intros r r' Hr'.
  apply (claim_votes_per_version {["f" := r]} (CContest "f" "bob" "no") "f" r r'); [apply lookup_singleton_eq|done|done|].
  simpl in Hr'. unfold apply_claim_contest, claim_open in Hr'. rewrite lookup_singleton_eq in Hr'. simpl in Hr'.
  rewrite lookup_insert_eq in Hr'. by injection Hr' as <-.
Defined.
