(* ===== verification/Text.v ===== *)
(** The string operations of the Rust standard library that the program uses.
    A [String] is its UTF-8 bytes. *)

From Stdlib Require Import Ascii.
From stdpp Require Import pretty.
From S2P Require Import Prelude.

Definition byte_at (a : ascii) : N := N_of_ascii a.

(** ** White space

    The UTF-8 encodings of the characters with the Unicode [White_Space]
    property; [skip_space] drops one of them from the front. *)
Definition skip_space (s : string) : option string :=
  match s with
  | EmptyString => None
  | String a s1 =>
      let n := byte_at a in
      if ((9 <=? n) && (n <=? 13) || (n =? 32))%N then Some s1
      else match s1 with
      | EmptyString => None
      | String b s2 =>
          let m := byte_at b in
          if ((n =? 194) && ((m =? 133) || (m =? 160)))%N then Some s2
          else match s2 with
          | EmptyString => None
          | String c s3 =>
              let k := byte_at c in
              if ((n =? 225) && (m =? 154) && (k =? 128)
                  || (n =? 226) && (m =? 128)
                     && ((128 <=? k) && (k <=? 138) || (k =? 168) || (k =? 169) || (k =? 175))
                  || (n =? 226) && (m =? 129) && (k =? 159)
                  || (n =? 227) && (m =? 128) && (k =? 128))%N
              then Some s3 else None
          end
      end
  end.

(** [str::trim_start]; a string of [n] bytes holds at most [n] characters. *)
Fixpoint trim_start_loop (fuel : nat) (s : string) : string :=
  match fuel with
  | O => s
  | S fuel => match skip_space s with Some s' => trim_start_loop fuel s' | None => s end
  end.
Definition trim_start (s : string) : string := trim_start_loop (String.length s) s.

(** [str::trim().is_empty()] *)
Definition is_blank (s : string) : bool := String.eqb (trim_start s) "".

Fixpoint trim_end (s : string) : string :=
  if is_blank s then EmptyString
  else match s with EmptyString => EmptyString | String a s' => String a (trim_end s') end.

Definition trim (s : string) : string := trim_end (trim_start s).

(** [str::split_whitespace]: the maximal runs of other characters. *)
Fixpoint split_ws_loop (fuel : nat) (word : string) (s : string) : list string :=
  let flush := if String.eqb word "" then [] else [String.rev word] in
  match fuel with
  | O => flush
  | S fuel =>
      match skip_space s with
      | Some s' => flush ++ split_ws_loop fuel "" s'
      | None =>
          match s with
          | EmptyString => flush
          | String a s' => split_ws_loop fuel (String a word) s'
          end
      end
  end.
Definition split_whitespace (s : string) : list string := split_ws_loop (S (String.length s)) "" s.

(** ** Splitting on an ASCII character *)

(** [str::split(sep)]: always at least one part. *)
Fixpoint split_on (sep : ascii) (s : string) : list string :=
  match s with
  | EmptyString => [EmptyString]
  | String a s' =>
      if Ascii.eqb a sep then EmptyString :: split_on sep s'
      else match split_on sep s' with
           | part :: parts => String a part :: parts
           | [] => [String a EmptyString]
           end
  end.

(** [str::split_once(sep)] *)
Fixpoint split_once (sep : ascii) (s : string) : option (string * string) :=
  match s with
  | EmptyString => None
  | String a s' =>
      if Ascii.eqb a sep then Some (EmptyString, s')
      else prod_map (String a) id <$> split_once sep s'
  end.

(** ** Numbers *)

Definition digit_of (a : ascii) : option Z :=
  let n := byte_at a in
  if ((48 <=? n) && (n <=? 57))%N then Some (Z.of_N n - 48) else None.

(** [checked_mul(10)] then [checked_add(digit)] for each character. *)
Fixpoint parse_digits (max acc : Z) (s : string) : option Z :=
  match s with
  | EmptyString => Some acc
  | String a s' =>
      d ← digit_of a;
      let acc := acc * 10 + d in
      if acc <=? max then parse_digits max acc s' else None
  end.

(** [str::parse::<u32>]: digits, with an optional plus sign. *)
Definition parse_u32 (s : string) : option Z :=
  match s with
  | EmptyString => None
  | String a s' =>
      if Ascii.eqb a "+" then match s' with EmptyString => None | _ => parse_digits U32_MAX 0 s' end
      else parse_digits U32_MAX 0 s
  end.

(** [u64::to_string] *)
Definition decimal (z : Z) : string := pretty z.

Definition to_lower (a : ascii) : ascii :=
  let n := byte_at a in
  if ((65 <=? n) && (n <=? 90))%N then ascii_of_N (n + 32) else a.

Fixpoint to_ascii_lowercase (s : string) : string :=
  match s with
  | EmptyString => EmptyString
  | String a s' => String (to_lower a) (to_ascii_lowercase s')
  end.

(** ** Byte positions *)

(** [str::is_char_boundary]: the start, the end, or a byte that does not
    continue a character. *)
Definition is_char_boundary (s : string) (i : nat) : bool :=
  (i =? 0)%nat ||
  match String.get i s with
  | None => (i =? String.length s)%nat
  | Some a => let n := byte_at a in ((n <? 128) || (192 <=? n))%N
  end.

Definition truncate (s : string) (n : nat) : string := String.substring 0 n s.

(** ** Lemmas *)

Lemma decimal_inj x y : decimal x = decimal y → x = y.
Proof. apply (inj pretty). Qed.

Lemma length_truncate s n : (String.length (truncate s n) ≤ n)%nat.
Proof. revert n. induction s as [|a s IH]; intros [|n]; simpl; try lia. unfold truncate in IH. specialize (IH n). lia. Qed.

Lemma prefix_truncate s n : String.prefix (truncate s n) s = true.
Proof.
  revert n. induction s as [|a s IH]; intros [|n]; simpl; try done.
  destruct (ascii_dec a a); [|done]. apply IH.
Qed.

(** [split] keeps the content: joining the parts gives the string back. *)
Fixpoint join (sep : ascii) (parts : list string) : string :=
  match parts with
  | [] => EmptyString
  | [p] => p
  | p :: parts => p +:+ String sep (join sep parts)
  end.

Lemma split_on_nonempty sep s : split_on sep s ≠ [].
Proof. destruct s as [|a s]; simpl; [done|]. destruct (Ascii.eqb a sep); [done|]. by destruct (split_on sep s). Qed.

Lemma join_split_on sep s : join sep (split_on sep s) = s.
Proof.
  induction s as [|a s IH]; [done|]. simpl. destruct (Ascii.eqb_spec a sep) as [->|Hne].
  - destruct (split_on sep s) as [|p parts] eqn:E; [by apply split_on_nonempty in E|]. simpl in *. by rewrite IH.
  - destruct (split_on sep s) as [|p parts] eqn:E; [by apply split_on_nonempty in E|].
    destruct parts; simpl in *; by rewrite <-IH.
Qed.

(** ** Character classes *)

(** [chars().any(char::is_whitespace)] *)
Fixpoint has_whitespace (s : string) : bool :=
  match s with
  | EmptyString => false
  | String _ s' => bool_decide (is_Some (skip_space s)) || has_whitespace s'
  end.

(** [chars().any(char::is_control)]: the characters below U+0020, and U+007F to
    U+009F, the latter encoded as C2 80 to C2 9F. *)
Definition control_at (s : string) : bool :=
  match s with
  | EmptyString => false
  | String a s1 =>
      let n := byte_at a in
      ((n <? 32) || (n =? 127))%N
      || match s1 with
         | String b _ => let m := byte_at b in ((n =? 194) && (128 <=? m) && (m <=? 159))%N
         | EmptyString => false
         end
  end.

Fixpoint has_control (s : string) : bool :=
  match s with
  | EmptyString => false
  | String _ s' => control_at s || has_control s'
  end.
