(* ===== verification/Idempotency.v ===== *)
(** Idempotency records of src/state.rs: a key is claimed under a short lease,
    completed once, and its result replayed for a retention period. *)

From S2P Require Import Prelude Json Fencing Text.

(** ** Data *)

Inductive IdempotencyStatus : Type := IClaimed | ICompleted.

#[export] Instance IdempotencyStatus_eq_dec : EqDecision IdempotencyStatus.
Proof. solve_decision. Defined.

Record IdempotencyRecord : Type := mkIdem {
  i_key : string;
  i_owner : string;
  i_token : Z;
  i_status : IdempotencyStatus;
  i_first_seen : Z;
  i_lease : Z;
  i_retention : Z;
  i_metadata : gmap string string;
  i_result : option Value
}.

Abbreviation idem_map := (gmap string IdempotencyRecord).

#[export] Instance ser_idem_status : Serialize IdempotencyStatus := λ s,
  JStr match s with IClaimed => "claimed" | ICompleted => "completed" end.

(** [result] is omitted when absent. *)
#[export] Instance ser_idem : Serialize IdempotencyRecord := λ r,
  JObj (["key" :- i_key r; "owner" :- i_owner r; "fencing_token" :- i_token r; "status" :- i_status r;
         "first_seen_ms" :- i_first_seen r; "lease_expires_ms" :- i_lease r;
         "retention_ms" :- i_retention r; "metadata" :- i_metadata r]%json
        ++ match i_result r with Some v => ["result" :- v]%json | None => [] end).

(** ** Commands *)

Definition apply_idempotency_claim (c : Z) (m : idem_map) (revision now : Z) (key owner : string)
    (ttl_ms : Z) (retention_ms : option Z) (metadata : gmap string string) : Z * idem_map * Value :=
  if is_blank key then
    (c, m, json! ["claimed" :- false; "duplicate" :- false; "reason" :- "empty_key"; "revision" :- revision])
  else match m !! key with
  | Some record =>
      (c, m, json! ["claimed" :- false; "duplicate" :- true; "key" :- key; "record" :- record;
                    "revision" :- revision])
  | None =>
      match next_token c with
      | None =>
          (c, m, json! ["claimed" :- false; "duplicate" :- false; "reason" :- "fencing_tokens_exhausted";
                        "revision" :- revision])
      | Some token =>
          let ttl_ms := Z.max ttl_ms 1 in
          let retention_ms := Z.max (default ttl_ms retention_ms) ttl_ms in
          let record := mkIdem key owner token IClaimed now (sat_add now ttl_ms) retention_ms metadata None in
          (token, <[key := record]> m,
           json! ["claimed" :- true; "duplicate" :- false; "key" :- key; "record" :- record;
                  "fencing_token" :- token; "lease_expires_ms" :- i_lease record; "revision" :- revision])
      end
  end.

Definition is_holder (r : IdempotencyRecord) (owner : string) (fencing_token : Z) : bool :=
  bool_decide (i_owner r = owner) && (i_token r =? fencing_token).

Definition apply_idempotency_complete (m : idem_map) (revision now : Z) (key owner : string)
    (fencing_token : Z) (result : option Value) : idem_map * Value :=
  match m !! key with
  | None => (m, json! ["completed" :- false; "reason" :- "not_found"; "key" :- key; "revision" :- revision])
  | Some r =>
      if negb (is_holder r owner fencing_token) then
        (m, json! ["completed" :- false; "reason" :- "not_holder"; "key" :- key; "revision" :- revision])
      else if bool_decide (i_status r = ICompleted) then
        (m, json! ["completed" :- true; "duplicate" :- true; "key" :- key; "record" :- r;
                   "revision" :- revision])
      else
        let r' := mkIdem (i_key r) (i_owner r) (i_token r) ICompleted (i_first_seen r)
                    (sat_add now (Z.max (i_retention r) 1)) (i_retention r) (i_metadata r) result in
        (<[key := r']> m,
         json! ["completed" :- true; "duplicate" :- false; "key" :- key; "record" :- r';
                "revision" :- revision])
  end.

Definition apply_idempotency_renew (m : idem_map) (revision now : Z) (key owner : string)
    (fencing_token ttl_ms : Z) : idem_map * Value :=
  match m !! key with
  | None => (m, json! ["renewed" :- false; "reason" :- "not_found"; "key" :- key; "revision" :- revision])
  | Some r =>
      if negb (is_holder r owner fencing_token) then
        (m, json! ["renewed" :- false; "reason" :- "not_holder"; "key" :- key; "revision" :- revision])
      else if bool_decide (i_status r = ICompleted) then
        (m, json! ["renewed" :- false; "reason" :- "already_completed"; "key" :- key; "record" :- r;
                   "revision" :- revision])
      else
        let r' := mkIdem (i_key r) (i_owner r) (i_token r) (i_status r) (i_first_seen r)
                    (sat_add now (Z.max ttl_ms 1)) (i_retention r) (i_metadata r) (i_result r) in
        (<[key := r']> m,
         json! ["renewed" :- true; "key" :- key; "lease_expires_ms" :- i_lease r'; "record" :- r';
                "revision" :- revision])
  end.

Definition apply_idempotency_abandon (m : idem_map) (revision : Z) (key owner : string)
    (fencing_token : Z) : idem_map * Value :=
  match m !! key with
  | None => (m, json! ["abandoned" :- false; "reason" :- "not_found"; "key" :- key; "revision" :- revision])
  | Some r =>
      if negb (is_holder r owner fencing_token) then
        (m, json! ["abandoned" :- false; "reason" :- "not_holder"; "key" :- key; "revision" :- revision])
      else if bool_decide (i_status r = ICompleted) then
        (m, json! ["abandoned" :- false; "reason" :- "already_completed"; "key" :- key;
                   "revision" :- revision])
      else (delete key m, json! ["abandoned" :- true; "key" :- key; "revision" :- revision])
  end.

Definition idempotency_expire_due (m : idem_map) (now : Z) : idem_map :=
  retain (λ _ r, now <? i_lease r) m.

Definition idempotency_get (m : idem_map) (now : Z) (key : string) : option IdempotencyRecord :=
  r ← m !! key; if now <? i_lease r then Some r else None.

(** ** Histories *)

Inductive idem_call : Type :=
| IClaim (revision now : Z) (key owner : string) (ttl : Z) (retention : option Z) (meta : gmap string string)
| IComplete (revision now : Z) (key owner : string) (token : Z) (result : option Value)
| IRenew (revision now : Z) (key owner : string) (token ttl : Z)
| IAbandon (revision : Z) (key owner : string) (token : Z)
| ISweep (now : Z).

Definition idem_exec (st : Z * idem_map) (call : idem_call) : Z * idem_map * Value :=
  let '(c, m) := st in
  match call with
  | IClaim rev now key owner ttl ret meta => apply_idempotency_claim c m rev now key owner ttl ret meta
  | IComplete rev now key owner tok res =>
      let '(m', out) := apply_idempotency_complete m rev now key owner tok res in (c, m', out)
  | IRenew rev now key owner tok ttl =>
      let '(m', out) := apply_idempotency_renew m rev now key owner tok ttl in (c, m', out)
  | IAbandon rev key owner tok =>
      let '(m', out) := apply_idempotency_abandon m rev key owner tok in (c, m', out)
  | ISweep now => (c, idempotency_expire_due m now, JNull)
  end.

Definition idem_run (st : Z * idem_map) (calls : list idem_call) : Z * idem_map :=
  foldl (λ st call, (idem_exec st call).1) st calls.

(** No sweep of the history reaches the deadline. *)
Definition sweeps_before (deadline : Z) (calls : list idem_call) : Prop :=
  Forall (λ c, match c with ISweep now => now < deadline | _ => True end) calls.

Lemma idem_completed_exec c m call key r :
  m !! key = Some r → i_status r = ICompleted → sweeps_before (i_lease r) [call] →
  (idem_exec (c, m) call).1.2 !! key = Some r.
Proof.
  intros Hr Hs Hsw.
  destruct call as [rev now k o ttl ret meta|rev now k o tok res|rev now k o tok ttl|rev k o tok|now]; simpl.
  - unfold apply_idempotency_claim. destruct (is_blank k); [done|]. destruct (m !! k) eqn:E; [done|].
    destruct (next_token c); [|done]. simpl. rewrite lookup_insert_ne by congruence. done.
  - unfold apply_idempotency_complete. destruct (m !! k) as [r0|] eqn:E; [|done]. destruct (negb _); [done|].
    case_bool_decide; [done|]. simpl. rewrite lookup_insert_ne by (intros ->; congruence). done.
  - unfold apply_idempotency_renew. destruct (m !! k) as [r0|] eqn:E; [|done]. destruct (negb _); [done|].
    case_bool_decide; [done|]. simpl. rewrite lookup_insert_ne by (intros ->; congruence). done.
  - unfold apply_idempotency_abandon. destruct (m !! k) as [r0|] eqn:E; [|done]. destruct (negb _); [done|].
    case_bool_decide; [done|]. simpl. rewrite lookup_delete_ne by (intros ->; congruence). done.
  - apply Forall_cons in Hsw as [Hsw _]. unfold idempotency_expire_due. rewrite lookup_retain, Hr.
    by rewrite (proj2 (Z.ltb_lt _ _) Hsw).
Qed.

(** A completed result is replayed, not redone.  Once a key is completed,
    then whatever claims, completions, renewals and abandonments arrive from
    anyone, and however often the shard sweeps before the retention deadline,
    the record and its result stay exactly as they were completed, and every
    claim of the key is told it is a duplicate and given that record. *)
Theorem completed_result_replayed (c : Z) (m : idem_map) (key : string) (r : IdempotencyRecord)
    (calls : list idem_call) (rev now ttl : Z) (owner : string) (ret : option Z) (meta : gmap string string)
    (Hr : m !! key = Some r) (Hdone : i_status r = ICompleted) (Hkey : is_blank key = false)
    (Hsweeps : sweeps_before (i_lease r) calls) :
  let '(c', m') := idem_run (c, m) calls in
  m' !! key = Some r ∧
  apply_idempotency_claim c' m' rev now key owner ttl ret meta =
    (c', m', json! ["claimed" :- false; "duplicate" :- true; "key" :- key; "record" :- r; "revision" :- rev]).
Proof.
  assert (Hrun : (idem_run (c, m) calls).2 !! key = Some r).
  { revert c m Hr. induction Hsweeps as [|call calls Hc Hcs IH]; intros c m Hr; [done|].
    unfold idem_run. cbn [foldl]. pose proof (idem_completed_exec c m call key r Hr Hdone) as Hx.
    destruct (idem_exec (c, m) call) as [[c1 m1] out]. apply IH. apply Hx. by apply Forall_singleton. }
  destruct (idem_run (c, m) calls) as [c' m']. simpl in Hrun. split; [done|].
  unfold apply_idempotency_claim. by rewrite Hkey, Hrun.
Qed.

(** One claimer at a time.  A claim succeeds only when the key has no
    record; its token exceeds every token issued before; from then on, until
    the record is gone, only the owner presenting that token can complete,
    renew or abandon, and every other claim is a duplicate. *)
Theorem idempotency_single_claimer (c : Z) (m : idem_map) (rev now ttl : Z) (key owner : string)
    (ret : option Z) (meta : gmap string string)
    (Hwin : flag "claimed" (apply_idempotency_claim c m rev now key owner ttl ret meta).2 = true) :
  let '(c', m', out) := apply_idempotency_claim c m rev now key owner ttl ret meta in
  m !! key = None ∧ c < c' ∧ number "fencing_token" out = Some c' ∧
  ∀ o t rev' now' v ttl' ret' meta' c'', o ≠ owner ∨ t ≠ c' →
    (apply_idempotency_complete m' rev' now' key o t v).1 = m' ∧
    flag "completed" (apply_idempotency_complete m' rev' now' key o t v).2 = false ∧
    (apply_idempotency_renew m' rev' now' key o t ttl').1 = m' ∧
    (apply_idempotency_abandon m' rev' key o t).1 = m' ∧
    (apply_idempotency_claim c'' m' rev' now' key o ttl' ret' meta').1 = (c'', m').
Proof.
  revert Hwin. unfold apply_idempotency_claim at 1 2. destruct (is_blank key) eqn:B; [done|].
  destruct (m !! key) eqn:E; [done|]. destruct (next_token c) as [t0|] eqn:Et; [|done]. intros _.
  apply next_token_Some in Et as [-> ?]. split_and!; [done|lia|done|].
  intros o t rev' now' v ttl' ret' meta' c'' Hne.
  unfold apply_idempotency_complete, apply_idempotency_renew, apply_idempotency_abandon, apply_idempotency_claim.
  rewrite B, !lookup_insert_eq. cbn [is_holder i_owner i_token].
  assert (is_holder (mkIdem key owner (c + 1) IClaimed now (sat_add now (Z.max ttl 1))
    (Z.max (default (Z.max ttl 1) ret) (Z.max ttl 1)) meta None) o t = false) as ->; [|done].
  apply andb_false_iff. simpl. destruct Hne as [?|?].
  - left. by apply bool_decide_eq_false_2.
  - right. by apply Z.eqb_neq.
Qed.

Lemma completed_result_replayed_witness :
  let r := mkIdem "k" "o" 4 ICompleted 10 500 400 ∅ (Some (JNum 7)) in
  let calls := [IAbandon 1 "k" "o" 4; ISweep 499; IComplete 2 20 "k" "o" 4 None] in
  (idem_run (4, {["k" := r]}) calls).2 !! "k" = Some r.
Proof.
  intros r calls.
  pose proof (completed_result_replayed 4 {["k" := r]} "k" r calls 3 30 5 "p" None ∅
    ltac:(apply lookup_singleton_eq) eq_refl eq_refl ltac:(repeat constructor)) as Hc.
  destruct (idem_run _ calls) as [c' m']. exact (proj1 Hc).
Defined.

Lemma idempotency_single_claimer_witness :
  flag "claimed" (apply_idempotency_claim 4 ∅ 1 10 "k" "o" 5 None ∅).2 = true ∧
  let '(c', m', out) := apply_idempotency_claim 4 ∅ 1 10 "k" "o" 5 None ∅ in
  4 < c' ∧ (apply_idempotency_abandon m' 2 "k" "thief" c').1 = m'.
Proof.
  assert (Hw : flag "claimed" (apply_idempotency_claim 4 ∅ 1 10 "k" "o" 5 None ∅).2 = true)
    by (vm_compute; reflexivity).
  split; [exact Hw|]. pose proof (idempotency_single_claimer 4 ∅ 1 10 5 "k" "o" None ∅ Hw) as Hc.
  destruct (apply_idempotency_claim 4 ∅ 1 10 "k" "o" 5 None ∅) as [[c' m'] out].
  destruct Hc as (_ & Hlt & _ & Hothers). split; [exact Hlt|].
  apply (Hothers "thief" c' 2 0 None 0 None ∅ 0). by left.
Defined.
