(* ===== verification/Elections.v ===== *)
(** Leader elections of src/state.rs: at most one leadership per name, held
    under a lease and a fencing token. *)

From S2P Require Import Prelude Json Fencing.

(** ** Data *)

Record Leadership : Type := mkLeader {
  l_leader : string;
  l_token : Z;
  l_lease : Z;
  l_ttl : Z;
  l_metadata : gmap string string
}.

Abbreviation election_map := (gmap string Leadership).

#[export] Instance ser_leadership : Serialize Leadership := λ l,
  json! ["leader" :- l_leader l; "fencing_token" :- l_token l; "lease_expires_ms" :- l_lease l;
         "ttl_ms" :- l_ttl l; "metadata" :- l_metadata l].

(** ** Commands *)

Definition apply_election_campaign (c : Z) (es : election_map) (revision now : Z) (name candidate : string)
    (ttl_ms : Z) (metadata : gmap string string) : Z * election_map * Value :=
  match es !! name with
  | Some existing =>
      if bool_decide (l_leader existing = candidate) then
        (c, es, json! ["won" :- true; "name" :- name; "leadership" :- existing; "revision" :- revision])
      else (c, es, json! ["won" :- false; "name" :- name; "leader" :- existing])
  | None =>
      match next_token c with
      | None =>
          (c, es, json! ["won" :- false; "name" :- name; "reason" :- "fencing_tokens_exhausted";
                         "revision" :- revision])
      | Some token =>
          let leadership := mkLeader candidate token (sat_add now ttl_ms) ttl_ms metadata in
          (token, <[name := leadership]> es,
           json! ["won" :- true; "name" :- name; "leadership" :- leadership; "revision" :- revision])
      end
  end.

Definition is_leader (l : Leadership) (candidate : string) (fencing_token : Z) : bool :=
  bool_decide (l_leader l = candidate) && (l_token l =? fencing_token).

Definition apply_election_renew (es : election_map) (now : Z) (name candidate : string) (fencing_token : Z)
    (ttl_ms : option Z) : election_map * Value :=
  match es !! name with
  | None => (es, json! ["renewed" :- false; "reason" :- "not_found"; "name" :- name])
  | Some l =>
      if negb (is_leader l candidate fencing_token) then
        (es, json! ["renewed" :- false; "reason" :- "not_leader"; "name" :- name])
      else
        let ttl := default (l_ttl l) ttl_ms in
        let l' := mkLeader (l_leader l) (l_token l) (sat_add now ttl) ttl (l_metadata l) in
        (<[name := l']> es, json! ["renewed" :- true; "name" :- name; "leadership" :- l'])
  end.

Definition apply_election_resign (es : election_map) (name candidate : string) (fencing_token : Z) :
    election_map * Value :=
  let ok := is_some_and (es !! name) (λ l, is_leader l candidate fencing_token) in
  (if ok then delete name es else es, json! ["resigned" :- ok; "name" :- name]).

Definition elections_expire_due (es : election_map) (now : Z) : election_map :=
  retain (λ _ l, now <? l_lease l) es.

Definition election_get (es : election_map) (now : Z) (name : string) : option Leadership :=
  l ← es !! name; if now <? l_lease l then Some l else None.

(** [election_inventory_live_at]: live leaderships, sorted by name. *)
Definition election_inventory_live_at (es : election_map) (now : Z) : list (string * Leadership) :=
  filter (λ e, now < l_lease e.2) (btree_iter es).

(** ** Histories *)

Inductive election_step : Z * election_map → Z * election_map → Prop :=
| step_campaign c es revision now name candidate ttl meta :
    election_step (c, es) (apply_election_campaign c es revision now name candidate ttl meta).1
| step_renew c es now name candidate tok ttl :
    election_step (c, es) (c, (apply_election_renew es now name candidate tok ttl).1)
| step_resign c es name candidate tok :
    election_step (c, es) (c, (apply_election_resign es name candidate tok).1)
| step_expire c es now : election_step (c, es) (c, elections_expire_due es now)
| step_mint c c' es : c ≤ c' → election_step (c, es) (c', es).

Definition elections_inv (st : Z * election_map) : Prop := map_Forall (λ _ l, l_token l ≤ st.1) st.2.

(** What one step does to the leadership of a name. *)
Lemma election_step_cases st st' name :
  election_step st st' →
  st.1 ≤ st'.1 ∧
  (st'.2 !! name = st.2 !! name ∨ st'.2 !! name = None ∨
   (∃ l l', st.2 !! name = Some l ∧ st'.2 !! name = Some l' ∧ l_token l' = l_token l ∧ l_leader l' = l_leader l) ∨
   (∃ l', st.2 !! name = None ∧ st'.2 !! name = Some l' ∧ st.1 < l_token l' ∧ l_token l' = st'.1)).
Proof.
  destruct 1 as [c es revision now n cand ttl meta|c es now n cand tok ttl|c es n cand tok|c es now|c c' es Hc]; simpl.
  - unfold apply_election_campaign. destruct (es !! n) as [l|] eqn:E.
    + case_bool_decide; simpl; (split; [lia|by left]).
    + destruct (next_token c) as [t|] eqn:Et; simpl; [|split; [lia|by left]].
      apply next_token_Some in Et as [-> ?]. split; [lia|].
      destruct (decide (n = name)) as [->|Hn]; [|left; by rewrite lookup_insert_ne].
      right. right. right. eexists. rewrite lookup_insert_eq. split_and!; [done|done|simpl; lia|done].
  - split; [lia|]. unfold apply_election_renew. destruct (es !! n) as [l|] eqn:E; [|by left].
    destruct (negb _); [by left|]. simpl.
    destruct (decide (n = name)) as [->|Hn]; [|left; by rewrite lookup_insert_ne].
    right. right. left. eexists l, _. by rewrite lookup_insert_eq.
  - split; [lia|]. unfold apply_election_resign. simpl. destruct (is_some_and _ _); [|by left].
    rewrite lookup_delete. case_decide; [right; by left|by left].
  - split; [lia|]. unfold elections_expire_due. rewrite lookup_retain.
    destruct (es !! name) as [l|]; [|by left]. destruct (now <? l_lease l); [by left|right; by left].
  - split; [done|by left].
Qed.

Lemma election_step_inv st st' : election_step st st' → elections_inv st → elections_inv st'.
Proof.
  intros Hs Hinv name l Hl. destruct (election_step_cases _ _ name Hs) as [Hc Hcases].
  destruct Hcases as [E|[E|[(l0 & l' & H0 & H1 & Ht & _)|(l' & H0 & H1 & Hlt & Ht)]]].
  - rewrite E in Hl. specialize (Hinv _ _ Hl). simpl in Hinv. lia.
  - congruence.
  - simplify_eq. specialize (Hinv _ _ H0). simpl in Hinv. lia.
  - simplify_eq. lia.
Qed.

(** A name's tokens never go back: whatever stands for it later was seen
    already or is newer than [bound]. *)
Definition newer (name : string) (l : Leadership) (bound : Z) (st : Z * election_map) : Prop :=
  bound ≤ st.1 ∧ ∀ l', st.2 !! name = Some l' →
    (l_token l' = l_token l ∧ l_leader l' = l_leader l) ∨ bound < l_token l'.

Lemma newer_step name l bound st st' :
  election_step st st' → newer name l bound st → newer name l bound st'.
Proof.
  intros Hs [Hb Hn]. destruct (election_step_cases _ _ name Hs) as [Hc Hcases]. split; [lia|].
  intros l2 H2. destruct Hcases as [E|[E|[(l0 & l' & H0 & H1 & Ht & Hl)|(l' & H0 & H1 & Hlt & Ht)]]].
  - apply Hn. congruence.
  - congruence.
  - simplify_eq. destruct (Hn _ H0) as [[? ?]|?]; [left; split; congruence|right; lia].
  - simplify_eq. right. lia.
Qed.

(** A later leader always has the larger token.  If a name is led at one
    point and at any later one, then it is the same leader under the same
    token, or a leadership whose token exceeds every token the shard had
    issued at the first point: two leaders never share a token, and a deposed
    leader's token is always the smaller one. *)
Theorem leadership_tokens_increase (st st' : Z * election_map) (name : string) (l l' : Leadership)
    (Hinv : elections_inv st) (Hrun : rtc election_step st st')
    (Hl : st.2 !! name = Some l) (Hl' : st'.2 !! name = Some l') :
  (l_token l' = l_token l ∧ l_leader l' = l_leader l) ∨ st.1 < l_token l'.
Proof.
  assert (Hnew : newer name l st.1 st).
  { split; [lia|]. intros l2 H2. left. by simplify_eq. }
  assert (Hend : newer name l st.1 st').
  { clear Hl Hl'. generalize dependent (st.1). intros bound Hnew.
    induction Hrun as [|x y z Hxy _ IH]; [done|]. apply IH; [by eapply election_step_inv|by eapply newer_step]. }
  destruct Hend as [_ Hend]. auto.
Qed.

(** Who may change a leadership.  While a name is led, a campaign by
    another candidate loses and one by the leader returns the same leadership
    without extending it; neither moves the counter.  A renewal or resignation
    takes effect exactly for the leader presenting its token. *)
Theorem election_commands_exact (c : Z) (es : election_map) (revision now ttl : Z) (name candidate : string)
    (tok : Z) (ttl_opt : option Z) (meta : gmap string string) (l : Leadership) (Hl : es !! name = Some l) :
  (apply_election_campaign c es revision now name candidate ttl meta).1 = (c, es) ∧
  (flag "won" (apply_election_campaign c es revision now name candidate ttl meta).2 = true ↔
     l_leader l = candidate) ∧
  (let '(es', out) := apply_election_renew es now name candidate tok ttl_opt in
   if flag "renewed" out
   then l_leader l = candidate ∧ l_token l = tok ∧ ∃ l', es' = <[name := l']> es ∧
          l_leader l' = candidate ∧ l_token l' = tok ∧ l_lease l' = sat_add now (default (l_ttl l) ttl_opt)
   else es' = es ∧ (l_leader l ≠ candidate ∨ l_token l ≠ tok)) ∧
  (let '(es', out) := apply_election_resign es name candidate tok in
   if flag "resigned" out
   then l_leader l = candidate ∧ l_token l = tok ∧ es' = delete name es
   else es' = es ∧ (l_leader l ≠ candidate ∨ l_token l ≠ tok)).
Proof.
  assert (Hlead : is_leader l candidate tok = true ↔ l_leader l = candidate ∧ l_token l = tok).
  { unfold is_leader. by rewrite andb_true_iff, bool_decide_eq_true, Z.eqb_eq. }
  assert (Hnot : is_leader l candidate tok = false → l_leader l ≠ candidate ∨ l_token l ≠ tok).
  { unfold is_leader. rewrite andb_false_iff, bool_decide_eq_false, Z.eqb_neq. done. }
  split_and!.
  - unfold apply_election_campaign. rewrite Hl. by case_bool_decide.
  - unfold apply_election_campaign. rewrite Hl. by case_bool_decide.
  - unfold apply_election_renew. rewrite Hl. destruct (is_leader l candidate tok) eqn:B; cbn; [|auto].
    destruct (proj1 Hlead eq_refl) as [<- <-]. split_and!; [done|done|]. by eexists.
  - unfold apply_election_resign. rewrite Hl. cbn [is_some_and]. destruct (is_leader l candidate tok) eqn:B; cbn; [|auto].
    by destruct (proj1 Hlead eq_refl).
Qed.

(** ** Witnesses *)

Definition led : election_map := {["n" := mkLeader "a" 3 100 50 ∅]}.

Lemma leadership_tokens_increase_witness :
  let es := elections_expire_due led 100 in
  let st' := (apply_election_campaign 3 es 9 101 "n" "b" 50 ∅).1 in
  ∃ l', st'.2 !! "n" = Some l' ∧ ((l_token l' = 3 ∧ l_leader l' = "a") ∨ 3 < l_token l').
Proof.
  intros es st'. destruct (st'.2 !! "n") as [l'|] eqn:Hl'; [|vm_compute in Hl'; discriminate Hl'].
  exists l'. split; [reflexivity|].
  apply (leadership_tokens_increase (3, led) st' "n" (mkLeader "a" 3 100 50 ∅) l').
  - intros k l. simpl. unfold led. intros [<- <-]%lookup_singleton_Some. done.
  - eapply rtc_l; [apply (step_expire 3 led 100)|]. apply rtc_once. apply step_campaign.
  - reflexivity.
  - exact Hl'.
Defined.

Lemma election_commands_exact_witness :
  (apply_election_campaign 3 led 9 50 "n" "b" 50 ∅).1 = (3, led).
Proof.
  apply (election_commands_exact 3 led 9 50 50 "n" "b" 3 None ∅ (mkLeader "a" 3 100 50 ∅)). reflexivity.
Defined.
