(* ===== verification/Services.v ===== *)
(** Service discovery of src/state.rs: instances registered under a service
    with a lease, heartbeats, deregistration and expiry. *)

From S2P Require Import Prelude Json.

Record ServiceInstance : Type := mkInstance {
  inst_instance_id : string;
  inst_address : string;
  inst_lease : Z;
  inst_metadata : gmap string string
}.

Abbreviation instance_map := (gmap string ServiceInstance).
Abbreviation service_map := (gmap string instance_map).

#[export] Instance ser_instance : Serialize ServiceInstance := λ i,
  json! ["instance_id" :- inst_instance_id i; "address" :- inst_address i; "lease_expires_ms" :- inst_lease i;
         "metadata" :- inst_metadata i].

(** ** Commands *)

Definition apply_service_register (ss : service_map) (now : Z) (service instance_id address : string)
    (ttl_ms : Z) (metadata : gmap string string) : service_map * Value :=
  let instance := mkInstance instance_id address (sat_add now ttl_ms) metadata in
  (<[service := <[instance_id := instance]> (default ∅ (ss !! service))]> ss,
   json! ["registered" :- true; "service" :- service; "instance" :- instance]).

Definition apply_service_heartbeat (ss : service_map) (now : Z) (service instance_id : string)
    (ttl_ms : option Z) : service_map * Value :=
  match instances ← ss !! service; instance ← instances !! instance_id; Some (instances, instance) with
  | None =>
      (ss, json! ["heartbeat" :- false; "reason" :- "not_found"; "service" :- service;
                  "instance_id" :- instance_id])
  | Some (instances, i) =>
      let i' := mkInstance (inst_instance_id i) (inst_address i) (sat_add now (default 30000 ttl_ms)) (inst_metadata i) in
      (<[service := <[instance_id := i']> instances]> ss,
       json! ["heartbeat" :- true; "service" :- service; "instance" :- i'])
  end.

Definition apply_service_deregister (ss : service_map) (service instance_id : string) : service_map * Value :=
  let removed := is_some_and (ss !! service) (λ ins, bool_decide (is_Some (ins !! instance_id))) in
  let ss1 := match ss !! service with
             | Some ins => <[service := delete instance_id ins]> ss
             | None => ss
             end in
  let ss2 := if is_some_and (ss1 !! service) (λ ins, bool_decide (ins = ∅)) then delete service ss1 else ss1 in
  (ss2, json! ["deregistered" :- removed; "service" :- service; "instance_id" :- instance_id]).

(** The last two statements of [expire_due]. *)
Definition services_expire_due (ss : service_map) (now : Z) : service_map :=
  retain (λ _ ins, negb (bool_decide (ins = ∅))) (retain (λ _ i, now <? inst_lease i) <$> ss).

(** ** Reads *)

Definition live_instances (now : Z) (ins : instance_map) : list ServiceInstance :=
  filter (λ i, now < inst_lease i) (map_to_list ins).*2.

Definition service_list (ss : service_map) (now : Z) (service : string) : list ServiceInstance :=
  default [] (live_instances now <$> ss !! service).

Definition service_names (ss : service_map) (now : Z) : list (string * nat) :=
  omap (λ e, let n := length (live_instances now e.2) in if (0 <? Z.of_nat n) then Some (e.1, n) else None)
    (map_to_list ss).

(** ** Discovery as a flat registry

    The nested maps implement one map from (service, instance) pairs. *)

Definition registry (ss : service_map) (key : string * string) : option ServiceInstance :=
  ins ← ss !! key.1; ins !! key.2.

Definition no_empty (ss : service_map) : Prop := map_Forall (λ _ ins, ins ≠ ∅) ss.

Lemma registry_insert ss s ins key :
  registry (<[s := ins]> ss) key = if decide (key.1 = s) then ins !! key.2 else registry ss key.
Proof.
  unfold registry. destruct (decide (key.1 = s)) as [->|Hn].
  - by rewrite lookup_insert_eq.
  - by rewrite lookup_insert_ne by done.
Qed.

Lemma deregister_registry ss service id key :
  registry (apply_service_deregister ss service id).1 key =
  if decide (key = (service, id)) then None else registry ss key.
Proof.
  destruct key as [s i]. unfold apply_service_deregister. simpl.
  destruct (ss !! service) as [ins|] eqn:E; simpl.
  2: { rewrite E. simpl. case_decide as D; [|done]. injection D as -> ->. unfold registry. simpl. by rewrite E. }
  rewrite lookup_insert_eq. simpl.
  assert (Hdel : registry (<[service := delete id ins]> ss) (s, i) =
                 if decide ((s, i) = (service, id)) then None else registry ss (s, i)).
  { rewrite registry_insert. simpl. case_decide as D1; subst.
    - unfold registry. simpl. rewrite E. simpl. rewrite lookup_delete.
      destruct (decide (id = i)) as [->|Hne]; [by rewrite decide_True|]. rewrite decide_False by congruence. done.
    - rewrite decide_False by congruence. done. }
  case_bool_decide as Hemp; [|done]. rewrite <-Hdel. unfold registry. simpl. rewrite Hemp.
  destruct (decide (s = service)) as [->|Hn].
  - by rewrite lookup_delete_eq, lookup_insert_eq.
  - rewrite lookup_delete_ne, !lookup_insert_ne by done. done.
Qed.

Lemma expire_registry ss now key :
  registry (services_expire_due ss now) key =
  (i ← registry ss key; if now <? inst_lease i then Some i else None).
Proof.
  destruct key as [s i]. unfold registry, services_expire_due. simpl. rewrite lookup_retain, lookup_fmap.
  destruct (ss !! s) as [ins|]; simpl; [|done]. case_bool_decide as Hemp; simpl.
  - assert (Hi : retain (λ _ x, now <? inst_lease x) ins !! i = None) by (rewrite Hemp; apply lookup_empty).
    rewrite lookup_retain in Hi. by destruct (ins !! i).
  - rewrite lookup_retain. by destruct (ins !! i).
Qed.

(** Discovery refines a flat registry with leases.  Registering sets one
    pair, a heartbeat renews the lease of a registered pair and nothing else,
    deregistering removes one pair, and a sweep removes exactly the expired
    ones; and no service is kept without instances. *)
Theorem services_refine_registry (ss : service_map) (now ttl : Z) (service id address : string)
    (ttl_opt : option Z) (meta : gmap string string) (Hne : no_empty ss) :
  let at_ x f key := if decide (key = (service, id)) then x else f key in
  (∀ key, registry (apply_service_register ss now service id address ttl meta).1 key =
     at_ (Some (mkInstance id address (sat_add now ttl) meta)) (registry ss) key) ∧
  (∀ key, registry (apply_service_heartbeat ss now service id ttl_opt).1 key =
     at_ ((λ i, mkInstance (inst_instance_id i) (inst_address i) (sat_add now (default 30000 ttl_opt)) (inst_metadata i))
            <$> registry ss (service, id)) (registry ss) key) ∧
  (∀ key, registry (apply_service_deregister ss service id).1 key = at_ None (registry ss) key) ∧
  (∀ key, registry (services_expire_due ss now) key =
     (i ← registry ss key; if now <? inst_lease i then Some i else None)) ∧
  no_empty (apply_service_register ss now service id address ttl meta).1 ∧
  no_empty (apply_service_heartbeat ss now service id ttl_opt).1 ∧
  no_empty (apply_service_deregister ss service id).1 ∧
  no_empty (services_expire_due ss now).
Proof.
  simpl. split_and!.
  - intros [s i]. unfold apply_service_register. simpl. rewrite registry_insert. simpl. case_decide as D1; subst.
    + rewrite lookup_insert. destruct (decide (id = i)) as [->|Hn]; [by rewrite decide_True|].
      rewrite decide_False by congruence. unfold registry. simpl. by destruct (ss !! service).
    + by rewrite decide_False by congruence.
  - intros [s i]. unfold apply_service_heartbeat.
    destruct (ss !! service) as [ins|] eqn:E; simpl.
    2: { unfold registry at 2. simpl. rewrite E. simpl. case_decide as D; [|done]. injection D as -> ->.
         unfold registry. simpl. by rewrite E. }
    unfold registry at 2. simpl. rewrite E. simpl. destruct (ins !! id) as [x|] eqn:Ei; simpl.
    + rewrite registry_insert. simpl. case_decide as D1; subst.
      * rewrite lookup_insert. destruct (decide (id = i)) as [->|Hn]; [by rewrite decide_True|].
        rewrite decide_False by congruence. unfold registry. simpl. by rewrite E.
      * by rewrite decide_False by congruence.
    + case_decide as D; [|done]. injection D as -> ->. unfold registry. simpl. by rewrite E.
  - intros key. apply deregister_registry.
  - intros key. apply expire_registry.
  - apply map_Forall_insert_2; [|done]. apply insert_non_empty.
  - unfold apply_service_heartbeat. destruct (ss !! service) as [ins|] eqn:E; simpl; [|done].
    destruct (ins !! id); [|done]. apply map_Forall_insert_2; [|done]. apply insert_non_empty.
  - unfold apply_service_deregister. simpl. destruct (ss !! service) as [ins|] eqn:E; simpl; [|by rewrite E].
    rewrite lookup_insert_eq. simpl. case_bool_decide as Hemp.
    + intros k x. rewrite lookup_delete. case_decide; [done|]. rewrite lookup_insert_ne by done. apply Hne.
    + apply map_Forall_insert_2; done.
  - intros k x. unfold services_expire_due. intros [_ Hx]%lookup_retain_Some. bools. done.
Qed.

(** Listings show exactly the live instances: those a sweep at the same
    clock would keep, and a service is listed with their number when there is
    one. *)
Theorem service_reads_live (ss : service_map) (now : Z) (service : string) :
  (∀ i, i ∈ service_list ss now service ↔ ∃ id, registry (services_expire_due ss now) (service, id) = Some i) ∧
  (∀ n, (service, n) ∈ service_names ss now ↔ n = length (service_list ss now service) ∧ (0 < n)%nat).
Proof.
  split.
  - intros i. setoid_rewrite expire_registry. unfold service_list, registry. simpl.
    destruct (ss !! service) as [ins|]; simpl.
    + unfold live_instances. rewrite list_elem_of_filter, list_elem_of_fmap. split.
      * intros [Hl ([id i'] & -> & Hin)]. exists id. apply elem_of_map_to_list in Hin. rewrite Hin. simpl in *.
        by rewrite (proj2 (Z.ltb_lt _ _) Hl).
      * intros [id Hid]. destruct (ins !! id) as [i'|] eqn:E; [|done]. simpl in Hid.
        destruct (Z.ltb_spec now (inst_lease i')); [|done]. injection Hid as ->. split; [done|].
        exists (id, i). split; [done|]. by apply elem_of_map_to_list.
    + split; [by intros ?%not_elem_of_nil|]. by intros [id ?].
  - intros n. unfold service_names, service_list. rewrite list_elem_of_omap. split.
    + intros ([s ins] & Hin & Hs). apply elem_of_map_to_list in Hin. simpl in Hs.
      destruct (Z.ltb_spec 0 (Z.of_nat (length (live_instances now ins)))); [|done]. injection Hs as -> <-.
      rewrite Hin. simpl. lia.
    + intros [-> Hn]. destruct (ss !! service) as [ins|] eqn:E; simpl in Hn |- *; [|lia].
      exists (service, ins). split; [by apply elem_of_map_to_list|]. simpl.
      by destruct (Z.ltb_spec 0 (Z.of_nat (length (live_instances now ins)))); [|lia].
Qed.

Lemma services_refine_registry_witness :
  registry (apply_service_deregister {["api" := {["i1" := mkInstance "i1" "10.0.0.1" 100 ∅]}]} "api" "i1").1
    ("api", "i1") = None.
Proof.
  pose proof (services_refine_registry {["api" := {["i1" := mkInstance "i1" "10.0.0.1" 100 ∅]}]} 50 10 "api" "i1"
    "10.0.0.1" None ∅) as Hall.
  destruct Hall as (_ & _ & Hd & _).
  - intros k x [<- <-]%lookup_singleton_Some. apply map_non_empty_singleton.
  - rewrite Hd. by rewrite decide_True.
Defined.
