(* ===== verification/RateLimit.v ===== *)
(** Distributed rate limits of src/state.rs: a sliding window of admitted
    events and a token bucket in 64-bit floats ([apply_rate_limit_check],
    [clamp_tokens]).  Floats are the IEEE 754 binary64 numbers of [SpecFloat]. *)

From Stdlib Require Import SpecFloat.
From S2P Require Import Prelude Json.

(** ** 64-bit floats *)

Abbreviation f64 := spec_float.

Definition f64_of_Z (z : Z) : f64 := binary_normalize 53 1024 z 0 false.
Definition f64_add : f64 → f64 → f64 := SFadd 53 1024.
Definition f64_sub : f64 → f64 → f64 := SFsub 53 1024.
Definition f64_mul : f64 → f64 → f64 := SFmul 53 1024.
Definition f64_div : f64 → f64 → f64 := SFdiv 53 1024.
Definition f64_is_nan (x : f64) : bool := match x with S754_nan => true | _ => false end.

(** [f64::max]: a NaN operand yields the other one. *)
Definition f64_max (x y : f64) : f64 :=
  if f64_is_nan x then y else if f64_is_nan y then x else if SFltb x y then y else x.

(** [f64::clamp] for bounds that are not NaN. *)
Definition f64_clamp (x lo hi : f64) : f64 := if SFltb x lo then lo else if SFltb hi x then hi else x.

(** The integer at or below (above) a finite value. *)
Definition floor_Z (x : f64) : Z :=
  match x with
  | S754_finite s m e =>
      let v := if s then Z.neg m else Z.pos m in
      if 0 <=? e then v * 2 ^ e else v / 2 ^ (- e)
  | _ => 0
  end.
Definition ceil_Z (x : f64) : Z := - floor_Z (SFopp x).

(** [x.floor() as uN] and [x.ceil() as uN]: casts saturate, a NaN gives 0. *)
Definition saturate (max : Z) (x : f64) (round : f64 → Z) : Z :=
  match x with
  | S754_nan => 0
  | S754_infinity s => if s then 0 else max
  | _ => Z.max 0 (Z.min (round x) max)
  end.
Definition floor_u32 (x : f64) : Z := saturate U32_MAX x floor_Z.
Definition ceil_u64 (x : f64) : Z := saturate U64_MAX x ceil_Z.

(** The literal [0.000_001]. *)
Definition MICRO : f64 := S754_finite false 4722366482869645 (-72).

(** ** Data *)

Inductive RateLimitAlgorithm : Type := TokenBucket | SlidingWindow.

#[export] Instance ser_algorithm : Serialize RateLimitAlgorithm := λ a,
  JStr match a with TokenBucket => "token_bucket" | SlidingWindow => "sliding_window" end.

Record RateLimitRecord : Type := mkRate {
  rl_algorithm : RateLimitAlgorithm;
  rl_limit : Z;
  rl_window : Z;
  rl_tokens : f64;
  rl_updated : Z;
  rl_events : list Z;
  rl_last_allowed : bool
}.

Record RateLimitCheckInput : Type := mkRateInput {
  rc_key : string;
  rc_tenant : string;
  rc_algorithm : RateLimitAlgorithm;
  rc_limit : Z;
  rc_window : Z;
  rc_refill : option f64;
  rc_cost : Z
}.

(** ** The two algorithms *)

Definition clamp_tokens (level : f64) (limit : Z) : f64 :=
  if f64_is_nan level then S754_zero false else f64_clamp level (S754_zero false) (f64_of_Z limit).

(** The level after the refill since [updated]. *)
Definition refilled (tokens refill : f64) (updated now limit : Z) : f64 :=
  let elapsed := f64_div (f64_of_Z (sat_sub now updated)) (f64_of_Z 1000) in
  clamp_tokens (f64_add tokens (f64_mul elapsed refill)) limit.

(** Result: the new level, allowed, remaining, reset. *)
Definition token_bucket (tokens : f64) (updated now limit window : Z) (refill_per_second : option f64)
    (cost : Z) : f64 * bool * Z * Z :=
  let refill := default (f64_div (f64_of_Z limit) (f64_div (f64_of_Z (Z.max window 1)) (f64_of_Z 1000)))
                  refill_per_second in
  let level := refilled tokens refill updated now limit in
  if SFleb (f64_of_Z cost) level then
    let left := f64_sub level (f64_of_Z cost) in
    (left, true, floor_u32 left, now)
  else
    let missing := f64_sub (f64_of_Z cost) level in
    let wait_ms := ceil_u64 (f64_mul (f64_div missing (f64_max refill MICRO)) (f64_of_Z 1000)) in
    (level, false, floor_u32 level, sat_add now wait_ms).

(** The [while] that pops expired events from the front. *)
Fixpoint pop_expired (cutoff : Z) (events : list Z) : list Z :=
  match events with
  | [] => []
  | ts :: events' => if ts <=? cutoff then pop_expired cutoff events' else events
  end.

(** Result: the new events, allowed, remaining, reset. *)
Definition sliding_window (events : list Z) (now limit window cost : Z) : list Z * bool * Z * Z :=
  let events := pop_expired (sat_sub now window) events in
  let available := sat_sub limit (as_u32 (Z.of_nat (length events))) in
  if cost <=? available then
    (events ++ replicate (Z.to_nat cost) now, true, available - cost, sat_add now window)
  else (events, false, available, sat_add (default now (List.hd_error events)) window).

Definition rate_limit_store_key (tenant key : string) : string := tenant +:+ ":" +:+ key.

(** ** The command *)

Definition apply_rate_limit_check (rs : gmap string RateLimitRecord) (now : Z) (input : RateLimitCheckInput) :
    gmap string RateLimitRecord * Value :=
  let limit := rc_limit input in
  let window := rc_window input in
  let store_key := rate_limit_store_key (rc_tenant input) (rc_key input) in
  let r := default (mkRate (rc_algorithm input) limit window (f64_of_Z limit) now [] true) (rs !! store_key) in
  let '(tokens, updated, events, allowed, remaining, reset_ms) :=
    match rc_algorithm input with
    | TokenBucket =>
        let '(level, allowed, remaining, reset) :=
          token_bucket (rl_tokens r) (rl_updated r) now limit window (rc_refill input) (rc_cost input) in
        (level, now, rl_events r, allowed, remaining, reset)
    | SlidingWindow =>
        let '(events, allowed, remaining, reset) :=
          sliding_window (rl_events r) now limit window (rc_cost input) in
        (rl_tokens r, rl_updated r, events, allowed, remaining, reset)
    end in
  let r' := mkRate (rc_algorithm input) limit window tokens updated events allowed in
  (<[store_key := r']> rs,
   json! ["allowed" :- allowed; "remaining" :- remaining; "reset_ms" :- reset_ms; "key" :- rc_key input;
          "tenant" :- rc_tenant input; "algorithm" :- rl_algorithm r']).

(** [rate_limit_snapshot] *)
Definition rate_limit_snapshot (rs : gmap string RateLimitRecord) (tenant key : string) : option Value :=
  r ← rs !! rate_limit_store_key tenant key;
  let remaining := match rl_algorithm r with
                   | TokenBucket => floor_u32 (rl_tokens r)
                   | SlidingWindow => sat_sub (rl_limit r) (as_u32 (Z.of_nat (length (rl_events r))))
                   end in
  Some (json! ["key" :- key; "tenant" :- tenant; "algorithm" :- rl_algorithm r; "allowed" :- rl_last_allowed r;
               "remaining" :- remaining; "reset_ms" :- sat_add (rl_updated r) (rl_window r)]).

(** ** The sliding window bound *)

(** A check of a sliding window, at a clock and a cost. *)
Definition window_run (limit window : Z) (st : list Z * list Z) (check : Z * Z) : list Z * list Z :=
  let '(events, admitted) := st in
  let '(now, cost) := check in
  let '(events', allowed, _, _) := sliding_window events now limit window cost in
  (events', if allowed then admitted ++ replicate (Z.to_nat cost) now else admitted).

(** How many units were admitted at clocks in (now - window, now]. *)
Definition admitted_in (now window : Z) (admitted : list Z) : Z :=
  Z.of_nat (length (filter (λ t, now - window < t ≤ now) admitted)).

Lemma pop_expired_filter cutoff events :
  Sorted Z.le events → pop_expired cutoff events = filter (λ t, cutoff < t) events.
Proof.
  intros Hs%Sorted_StronglySorted; [|intros ? ? ?; lia].
  induction Hs as [|t l Hl IH Hall]; [done|]. simpl. rewrite filter_cons.
  destruct (Z.leb_spec t cutoff); case_decide; try lia; [done|].
  rewrite filter_all; [done|]. rewrite Forall_forall in Hall. intros x Hx. specialize (Hall x Hx). lia.
Qed.

Lemma sorted_snoc_replicate l n t :
  Sorted Z.le l → Forall (λ x, x ≤ t) l → Sorted Z.le (l ++ replicate n t).
Proof.
  intros Hs Hl. apply StronglySorted_Sorted. apply Sorted_StronglySorted in Hs; [|intros ? ? ?; lia].
  induction Hs as [|x l Hx IH Hall]; simpl.
  - induction n; simpl; constructor; [done|]. apply Forall_replicate. lia.
  - apply Forall_cons in Hl as [Hxt Hl]. constructor; [by apply IH|].
    apply Forall_app. split; [done|]. by apply Forall_replicate.
Qed.

Lemma pop_expired_length c l : (length (pop_expired c l) ≤ length l)%nat.
Proof. induction l as [|x l IH]; simpl; [lia|]. destruct (x <=? c); simpl; lia. Qed.

Lemma sorted_filter_gt c l : Sorted Z.le l → Sorted Z.le (filter (λ t, c < t) l).
Proof.
  intros Hs. apply StronglySorted_Sorted. apply Sorted_StronglySorted in Hs; [|intros ? ? ?; lia].
  induction Hs as [|x l Hx IH Hall]; [constructor|]. rewrite filter_cons. case_decide; [|done].
  constructor; [done|]. rewrite Forall_forall in Hall |- *. intros y [_ Hy]%list_elem_of_filter. auto.
Qed.

(** The clocks before the last one. *)
Lemma sorted_snoc_inv (l : list Z) now :
  Sorted Z.le (l ++ [now]) → 0 ≤ now → Sorted Z.le l ∧ default 0 (last l) ≤ now.
Proof.
  intros Hs Hpos. apply Sorted_StronglySorted in Hs; [|intros ? ? ?; lia].
  induction l as [|x l IH]; [split; [constructor|done]|].
  apply StronglySorted_cons in Hs as [Hall Hs]. destruct (IH Hs) as [Hl Hd].
  rewrite Forall_app, Forall_singleton in Hall. destruct Hall as [Hall Hx]. split.
  - constructor; [done|]. destruct l; constructor. by apply Forall_cons in Hall as [? _].
  - rewrite last_cons. by destruct (last l).
Qed.

(** What the window remembers at clock [now]. *)
Record window_inv (limit window now : Z) (st : list Z * list Z) : Prop := {
  wi_sorted : Sorted Z.le st.2;
  wi_past : Forall (λ t, 0 < t ≤ now) st.2;
  wi_events : ∃ cutoff, cutoff ≤ sat_sub now window ∧ st.1 = filter (λ t, cutoff < t) st.2;
  wi_len : Z.of_nat (length st.1) ≤ limit
}.

Lemma filter_replicate_all (P : Z → Prop) `{∀ x, Decision (P x)} n t : P t → filter P (replicate n t) = replicate n t.
Proof. intros HP. apply filter_all. by intros x [-> _]%elem_of_replicate. Qed.

Lemma window_step limit window now now' cost st :
  is_u32 limit → 0 < window → 0 ≤ cost → 0 < now' → now ≤ now' → window_inv limit window now st →
  window_inv limit window now' (window_run limit window st (now', cost)).
Proof.
  intros Hlim Hw Hcost Hpos Hle [Hs Hp (cut & Hcut & Hev) Hlen]. destruct st as [events admitted]. simpl in *.
  unfold sliding_window. set (c' := sat_sub now' window).
  assert (Hc : cut ≤ c') by (unfold c', sat_sub in *; lia).
  assert (Hse : Sorted Z.le events) by (rewrite Hev; by apply sorted_filter_gt).
  assert (Hpop : pop_expired c' events = filter (λ t, c' < t) admitted).
  { rewrite pop_expired_filter by done. rewrite Hev, list_filter_filter. apply list_filter_iff. intros t. lia. }
  assert (Hplen : Z.of_nat (length (pop_expired c' events)) ≤ limit).
  { pose proof (pop_expired_length c' events). lia. }
  assert (Hu : as_u32 (Z.of_nat (length (pop_expired c' events))) = Z.of_nat (length (pop_expired c' events))).
  { unfold as_u32. apply Z.mod_small. destruct Hlim. lia. }
  rewrite Hu. assert (Hp' : Forall (λ t, 0 < t ≤ now') admitted).
  { eapply Forall_impl; [exact Hp|]. simpl. intros. lia. }
  destruct (Z.leb_spec cost (sat_sub limit (Z.of_nat (length (pop_expired c' events))))) as [Hfit|Hno].
  - split; simpl.
    + apply sorted_snoc_replicate; [done|]. eapply Forall_impl; [exact Hp'|]. simpl. intros. lia.
    + apply Forall_app. split; [done|]. apply Forall_replicate. lia.
    + exists c'. split; [done|]. rewrite filter_app, Hpop. f_equal. rewrite filter_replicate_all; [done|].
      unfold c', sat_sub. lia.
    + rewrite length_app, length_replicate. unfold sat_sub in Hfit. lia.
  - split; simpl; try done. exists c'. done.
Qed.

Lemma window_admitted limit window now now' st :
  0 < window → now ≤ now' → window_inv limit window now st →
  filter (λ t, sat_sub now' window < t) st.2 = filter (λ t, now' - window < t ≤ now') st.2.
Proof.
  intros Hw Hle [_ Hp _ _]. apply filter_ext_in. intros t Ht. rewrite Forall_forall in Hp.
  specialize (Hp t Ht). unfold sat_sub. lia.
Qed.

Lemma window_count limit window now now' st :
  0 < window → now ≤ now' → window_inv limit window now st →
  Z.of_nat (length (pop_expired (sat_sub now' window) st.1)) = admitted_in now' window st.2.
Proof.
  intros Hw Hle Hinv. unfold admitted_in. rewrite <-(window_admitted limit window now) by done.
  destruct Hinv as [Hs Hp (cut & Hcut & Hev) _]. f_equal.
  assert (Hsorted : Sorted Z.le st.1) by (rewrite Hev; by apply sorted_filter_gt).
  rewrite pop_expired_filter by done. rewrite Hev, list_filter_filter. f_equal. apply list_filter_iff.
  intros t. unfold sat_sub in *. lia.
Qed.

Section sliding.
Context (tenant key : string) (limit window : Z).

(** A check of one sliding-window limiter through the command, with the clocks
    of all admitted units on the side. *)
Definition check_run (st : gmap string RateLimitRecord * list Z) (check : Z * Z) :
    gmap string RateLimitRecord * list Z :=
  let '(now, cost) := check in
  let '(rs, out) := apply_rate_limit_check st.1 now (mkRateInput key tenant SlidingWindow limit window None cost) in
  (rs, if flag "allowed" out then st.2 ++ replicate (Z.to_nat cost) now else st.2).

Definition limiter_events (rs : gmap string RateLimitRecord) : list Z :=
  default [] (rl_events <$> rs !! rate_limit_store_key tenant key).

Lemma limiter_default rs now :
  rl_events (default (mkRate SlidingWindow limit window (f64_of_Z limit) now [] true)
    (rs !! rate_limit_store_key tenant key)) = limiter_events rs.
Proof. unfold limiter_events. by destruct (rs !! _). Qed.

Lemma check_run_window st check :
  window_run limit window (limiter_events st.1, st.2) check =
  (limiter_events (check_run st check).1, (check_run st check).2).
Proof.
  destruct st as [rs adm], check as [now cost]. unfold check_run, apply_rate_limit_check. simpl.
  rewrite limiter_default. destruct (sliding_window _ _ _ _ _) as [[[ev allowed] rem] reset]. simpl.
  unfold limiter_events. rewrite lookup_insert_eq. done.
Qed.

(** Checks at clocks that do not go back, with [u32] costs. *)
Definition checks_ok (checks : list (Z * Z)) : Prop :=
  Sorted Z.le checks.*1 ∧ Forall (λ c, 0 < c.1 ∧ 0 ≤ c.2) checks.

Lemma check_run_inv checks :
  is_u32 limit → 0 < window → checks_ok checks →
  let st := foldl check_run (∅, []) checks in
  window_inv limit window (default 0 (last checks.*1)) (limiter_events st.1, st.2).
Proof.
  intros Hlim Hw. induction checks as [|[now cost] checks IH] using rev_ind; intros [Hs Hc].
  { split; simpl.
    - constructor.
    - constructor.
    - by exists (sat_sub 0 window).
    - by destruct Hlim. }
  rewrite fmap_app in Hs. simpl in Hs. apply Forall_app in Hc as [Hc Hlast].
  apply Forall_singleton in Hlast as [Hpos Hcost]. simpl in Hpos, Hcost.
  destruct (sorted_snoc_inv _ _ Hs ltac:(lia)) as [Hs' Hle]. specialize (IH (conj Hs' Hc)). simpl in IH.
  rewrite foldl_app, fmap_app. change ([(now, cost)].*1) with [now]. rewrite last_snoc. simpl.
  pose proof (window_step limit window _ now cost _ Hlim Hw Hcost Hpos Hle IH) as Hstep.
  rewrite check_run_window in Hstep. exact Hstep.
Qed.

(** The sliding window is exact.  After any sequence of checks of one
    limiter at clocks that do not go back, a further check is allowed exactly
    when the units already admitted within the last window, plus its cost, stay
    within the limit; so no window ever holds more than the limit. *)
Theorem sliding_window_exact (checks : list (Z * Z)) (now cost : Z)
    (Hlim : is_u32 limit) (Hw : 0 < window) (Hchecks : checks_ok (checks ++ [(now, cost)])) :
  let st := foldl check_run (∅, []) checks in
  let out := (apply_rate_limit_check st.1 now (mkRateInput key tenant SlidingWindow limit window None cost)).2 in
  (flag "allowed" out = true ↔ admitted_in now window st.2 + cost ≤ limit) ∧
  admitted_in now window (check_run st (now, cost)).2 ≤ limit.
Proof.
  intros st out. destruct Hchecks as [Hs Hc]. pose proof Hc as Hc0. apply Forall_app in Hc as [Hc Hlast].
  apply Forall_singleton in Hlast as [Hpos Hcost]. simpl in Hpos, Hcost.
  pose proof (check_run_inv (checks ++ [(now, cost)]) Hlim Hw (conj Hs Hc0)) as Hinv'.
  rewrite foldl_app, fmap_app in Hinv'. change ([(now, cost)].*1) with [now] in Hinv'.
  rewrite last_snoc in Hinv'. cbn [foldl default] in Hinv'. fold st in Hinv'.
  rewrite fmap_app in Hs. simpl in Hs. destruct (sorted_snoc_inv _ _ Hs ltac:(lia)) as [Hs' Hle].
  pose proof (check_run_inv checks Hlim Hw (conj Hs' Hc)) as Hinv. simpl in Hinv. fold st in Hinv.
  split.
  - pose proof (window_count limit window _ now _ Hw Hle Hinv) as Hcount. simpl in Hcount.
    pose proof (wi_len _ _ _ _ Hinv) as Hlen. simpl in Hlen.
    pose proof (pop_expired_length (sat_sub now window) (limiter_events st.1)) as Hshort.
    unfold out, apply_rate_limit_check. cbn [rc_algorithm rc_limit rc_window rc_tenant rc_key rc_cost].
    rewrite limiter_default. unfold sliding_window. set (n := length (pop_expired _ _)) in *.
    assert (as_u32 (Z.of_nat n) = Z.of_nat n) as -> by (unfold as_u32; apply Z.mod_small; destruct Hlim; lia).
    destruct (Z.leb_spec cost (sat_sub limit (Z.of_nat n))); cbn; unfold sat_sub in *; split; intros; done || lia.
  - pose proof (window_count limit window now now _ Hw ltac:(lia) Hinv') as Hcount.
    pose proof (wi_len _ _ _ _ Hinv') as Hlen. cbn [fst snd] in Hcount, Hlen. rewrite <-Hcount.
    pose proof (pop_expired_length (sat_sub now window) (limiter_events (check_run st (now, cost)).1)). lia.
Qed.
End sliding.

(** ** The token bucket *)

Definition f64_finite (x : f64) : Prop := match x with S754_zero _ | S754_finite _ _ _ => True | _ => False end.

Lemma digits2_iter d m : Zpos (digits2_pos (Pos.iter xO m d)) = Zpos (digits2_pos m) + Zpos d.
Proof.
  induction d as [|d IH] using Pos.peano_ind; [simpl; lia|].
  rewrite Pos.iter_succ. simpl. rewrite Pos2Z.inj_succ. lia.
Qed.

Lemma digits2_bound m n : Zpos m < 2 ^ n → 0 ≤ n → Zpos (digits2_pos m) ≤ n.
Proof.
  revert n. induction m as [m IH|m IH|]; intros n Hm Hn; simpl.
  - specialize (IH (n - 1)). assert (0 < n) by (destruct (Z.eq_dec n 0) as [->|]; simpl in *; lia).
    replace (2 ^ n) with (2 * 2 ^ (n - 1)) in Hm by (rewrite <-Z.pow_succ_r by lia; f_equal; lia).
    rewrite Pos2Z.inj_succ. assert (Zpos m < 2 ^ (n - 1)) by lia. lia.
  - specialize (IH (n - 1)). assert (0 < n) by (destruct (Z.eq_dec n 0) as [->|]; simpl in *; lia).
    replace (2 ^ n) with (2 * 2 ^ (n - 1)) in Hm by (rewrite <-Z.pow_succ_r by lia; f_equal; lia).
    rewrite Pos2Z.inj_succ. assert (Zpos m < 2 ^ (n - 1)) by lia. lia.
  - destruct (Z.eq_dec n 0) as [->|]; simpl in *; lia.
Qed.

(** Integers below 2^52 convert exactly. *)
Lemma f64_of_pos m : Zpos m < 2 ^ 52 →
  ∃ d, f64_of_Z (Zpos m) = S754_finite false (Pos.iter xO m d) (Zneg d).
Proof.
  intros Hm. pose proof (digits2_bound m 52 Hm ltac:(lia)) as Hd.
  assert (∃ d, Zpos (digits2_pos m) + Zpos d = 53) as [d Hd'].
  { exists (Z.to_pos (53 - Zpos (digits2_pos m))). rewrite Z2Pos.id by lia. lia. }
  exists d. unfold f64_of_Z, binary_normalize, binary_round, shl_align.
  assert (Hf : fexp 53 1024 (Zpos (digits2_pos m) + 0) = Zneg d) by (unfold fexp, emin; lia).
  rewrite Hf, Z.sub_0_r. unfold binary_round_aux.
  assert (Hs : ∀ l, shr_fexp 53 1024 (Zpos (Pos.iter xO m d)) (Zneg d) l =
    (shr_record_of_loc (Zpos (Pos.iter xO m d)) l, Zneg d)).
  { intros l. unfold shr_fexp. simpl Zdigits2. rewrite digits2_iter.
    replace (fexp 53 1024 (Zpos (digits2_pos m) + Zpos d + Zneg d) - Zneg d) with 0; [done|].
    unfold fexp, emin. lia. }
  rewrite Hs. simpl. rewrite Hs. simpl. done.
Qed.

Lemma f64_of_u32 z : is_u32 z →
  f64_finite (f64_of_Z z) ∧ SFltb (f64_of_Z z) (S754_zero false) = false.
Proof.
  intros [Hlo Hhi]. destruct z as [|m|m]; [done| |lia].
  destruct (f64_of_pos m) as [d ->]; [unfold U32_MAX in Hhi; lia|]. done.
Qed.

Lemma SFltb_irrefl x : SFltb x x = false.
Proof.
  unfold SFltb. destruct x as [[]|[]| |[] m e]; simpl; try done; rewrite Z.compare_refl;
    change (Pos.compare_cont Eq m m) with (Pos.compare m m); by rewrite Pos.compare_refl.
Qed.

(** A bucket's level is always a finite number between zero and the
    limit.  Whatever level is stored (an infinity or a NaN from an old record
    included) and whatever the refill rate and the clocks, the level a check
    works with is finite, not negative and not above the limit. *)
Theorem bucket_level_clamped (tokens refill : f64) (updated now limit : Z) (Hlim : is_u32 limit) :
  let level := refilled tokens refill updated now limit in
  f64_finite level ∧ SFltb level (S754_zero false) = false ∧ SFltb (f64_of_Z limit) level = false.
Proof.
  intros level. destruct (f64_of_u32 limit Hlim) as [Hfin Hpos].
  unfold level, refilled, clamp_tokens. destruct (f64_is_nan _) eqn:Hn; [done|].
  set (x := f64_add _ _) in *. unfold f64_clamp.
  destruct (SFltb x (S754_zero false)) eqn:H1; [done|].
  destruct (SFltb (f64_of_Z limit) x) eqn:H2.
  - split_and!; [done|done|apply SFltb_irrefl].
  - split_and!; [|done|done]. destruct x as [| [] | |]; try done.
    destruct (f64_of_Z limit); try done.
Qed.

(** Limiter buckets of two tenants can be one.  The store key joins tenant
    and key with a colon, which both may contain, so a check by one tenant
    consumes another tenant's quota. *)
Theorem store_key_not_injective :
  ∃ t1 k1 t2 k2, t1 ≠ t2 ∧ rate_limit_store_key t1 k1 = rate_limit_store_key t2 k2 ∧
  let input t k := mkRateInput k t SlidingWindow 1 1000 None 1 in
  let rs := (apply_rate_limit_check ∅ 10 (input t1 k1)).1 in
  flag "allowed" (apply_rate_limit_check ∅ 20 (input t2 k2)).2 = true ∧
  flag "allowed" (apply_rate_limit_check rs 20 (input t2 k2)).2 = false.
Proof. exists "a", "b:c", "a:b", "c". vm_compute. done. Qed.

(** ** Witnesses *)

Lemma sliding_window_exact_witness :
  let st := foldl (check_run "t" "k" 3 100) (∅, []) [(10, 2); (50, 1)] in
  st.2 = [10; 10; 50] ∧ admitted_in 110 100 (check_run "t" "k" 3 100 st (110, 2)).2 ≤ 3.
Proof.
  split; [vm_compute; reflexivity|].
  refine (proj2 (sliding_window_exact "t" "k" 3 100 [(10, 2); (50, 1)] 110 2 _ _ _)).
  - split; vm_compute; done.
  - lia.
  - split; simpl; repeat constructor; simpl; lia.
Defined.

Lemma bucket_level_clamped_witness :
  f64_finite (refilled (S754_infinity false) (f64_of_Z 5) 0 1000 10).
Proof. apply (bucket_level_clamped (S754_infinity false) (f64_of_Z 5) 0 1000 10). split; vm_compute; done. Defined.
