(* ===== verification/Cron.v ===== *)
(** src/cron.rs: five-field cron expressions, the calendar of an epoch minute,
    and the search for the next firing time. *)

From Stdlib Require Import Ascii.
From S2P Require Import Prelude Text.

(** ** The calendar *)

(** [civil_from_days]; [i64] division truncates. *)
Definition civil_from_days (z : Z) : Z * Z * Z :=
  let z := z + 719468 in
  let era := Z.quot (if 0 <=? z then z else z - 146096) 146097 in
  let doe := z - era * 146097 in
  let yoe := Z.quot (doe - Z.quot doe 1460 + Z.quot doe 36524 - Z.quot doe 146096) 365 in
  let y := yoe + era * 400 in
  let doy := doe - (365 * yoe + Z.quot yoe 4 - Z.quot yoe 100) in
  let mp := Z.quot (5 * doy + 2) 153 in
  let d := doy - Z.quot (153 * mp + 2) 5 + 1 in
  let m := if mp <? 10 then mp + 3 else mp - 9 in
  (if m <=? 2 then y + 1 else y, as_u32 m, as_u32 d).

Record DateParts : Type := mkParts {
  dp_minute : Z;
  dp_hour : Z;
  dp_day : Z;
  dp_month : Z;
  dp_dow : Z
}.

Definition from_epoch_minute (total_min : Z) : DateParts :=
  let days := total_min / 1440 in
  let mins_in_day := total_min mod 1440 in
  let '(_, month, day) := civil_from_days days in
  let dow := (Z.rem (Z.rem days 7 + 7) 7 + 4) mod 7 in
  mkParts (mins_in_day mod 60) (mins_in_day / 60) day month dow.

(** ** Parsing *)

Record CronSchedule : Type := mkCron {
  minute : list bool;
  hour : list bool;
  dom : list bool;
  month : list bool;
  dow : list bool;
  dom_restricted : bool;
  dow_restricted : bool
}.

Definition MONTHS : list (string * Z) :=
  [("jan", 1); ("feb", 2); ("mar", 3); ("apr", 4); ("may", 5); ("jun", 6); ("jul", 7); ("aug", 8);
   ("sep", 9); ("oct", 10); ("nov", 11); ("dec", 12)].
Definition DAYS : list (string * Z) :=
  [("sun", 0); ("mon", 1); ("tue", 2); ("wed", 3); ("thu", 4); ("fri", 5); ("sat", 6)].

Definition quoted (s : string) : string := "'" +:+ s +:+ "'".

Definition parse_value (token : string) (names : list (string * Z)) : result Z string :=
  let token := trim token in
  match parse_u32 token with
  | Some n => Ok n
  | None =>
      let lower := to_ascii_lowercase token in
      match List.find (λ e, String.eqb e.1 lower) names with
      | Some (_, v) => Ok v
      | None => Err ("unknown value " +:+ quoted token)
      end
  end.

(** [while v <= hi]; the cursor grows, so [hi - lo + 1] rounds are enough. *)
Fixpoint step_values (fuel : nat) (v hi step : Z) : list Z :=
  match fuel with
  | O => []
  | S fuel =>
      if v <=? hi then
        v :: (if v + step <=? U32_MAX then step_values fuel (v + step) hi step else [])
      else []
  end.

(** The range and step of one comma-separated part. *)
Definition parse_step (part : string) : result (string * Z) string :=
  match split_once "/" part with
  | Some (r, s) =>
      match parse_u32 s with
      | None => Err ("bad step " +:+ quoted s)
      | Some step => if step =? 0 then Err "step must be >= 1" else Ok (r, step)
      end
  | None => Ok (part, 1)
  end.

Definition parse_range (range_spec : string) (step min max : Z) (names : list (string * Z)) :
    result (Z * Z) string :=
  if String.eqb range_spec "*" then Ok (min, max)
  else match split_once "-" range_spec with
  | Some (a, b) =>
      try! lo := parse_value a names in
      try! hi := parse_value b names in
      Ok (lo, hi)
  | None =>
      try! v := parse_value range_spec names in
      Ok (if 1 <? step then (v, max) else (v, v))
  end.

Definition parse_part (part : string) (min max : Z) (names : list (string * Z)) : result (list Z) string :=
  try! rs := parse_step part in
  try! range := parse_range rs.1 rs.2 min max names in
  let '(lo, hi) := range in
  if (lo <? min) || (max <? hi) || (hi <? lo) then
    Err ("value out of range [" +:+ decimal min +:+ "," +:+ decimal max +:+ "] in " +:+ quoted part)
  else Ok (step_values (Z.to_nat (hi - lo + 1)) lo hi rs.2).

Fixpoint parse_parts (parts : list string) (min max : Z) (names : list (string * Z)) :
    result (list Z) string :=
  match parts with
  | [] => Ok []
  | part :: parts =>
      try! vs := parse_part part min max names in
      try! rest := parse_parts parts min max names in
      Ok (vs ++ rest)
  end.

Definition parse_field (spec : string) (min max : Z) (names : list (string * Z)) :
    result (list Z * bool) string :=
  try! values := parse_parts (split_on "," spec) min max names in
  Ok (values, negb (String.eqb spec "*")).

(** [[false; n]] with the given indices set. *)
Definition table (n : nat) (values : list Z) : list bool :=
  foldl (λ a v, <[Z.to_nat v := true]> a) (replicate n false) values.

Definition parse (expr : string) : result CronSchedule string :=
  match split_whitespace expr with
  | [f0; f1; f2; f3; f4] =>
      try! mi := parse_field f0 0 59 [] in
      try! ho := parse_field f1 0 23 [] in
      try! dm := parse_field f2 1 31 [] in
      try! mo := parse_field f3 1 12 MONTHS in
      try! dw := parse_field f4 0 7 DAYS in
      Ok (mkCron (table 60 mi.1) (table 24 ho.1) (table 32 dm.1) (table 13 mo.1)
            (table 7 ((λ v, v mod 7) <$> dw.1)) dm.2 dw.2)
  | fields => Err ("expected 5 fields, got " +:+ decimal (Z.of_nat (length fields)))
  end.

(** ** Matching *)

(** [a[i]]; the lookups of a parsed schedule are in range ([cron_lookups_in_range]). *)
Definition idx (a : list bool) (i : Z) : bool := default false (a !! Z.to_nat i).

Definition matches (s : CronSchedule) (p : DateParts) : bool :=
  if negb (idx (minute s) (dp_minute p)) || negb (idx (hour s) (dp_hour p)) || negb (idx (month s) (dp_month p))
  then false
  else
    let dom_ok := idx (dom s) (dp_day p) in
    let dow_ok := idx (dow s) (dp_dow p) in
    match dom_restricted s, dow_restricted s with
    | false, false => true
    | true, false => dom_ok
    | false, true => dow_ok
    | true, true => dom_ok || dow_ok
    end.

Definition MAX_SEARCH_MINUTES : Z := 5 * 366 * 24 * 60.

(** The [for] of [next_after]. *)
Fixpoint search (fuel : nat) (s : CronSchedule) (m : Z) : option Z :=
  match fuel with
  | O => None
  | S fuel => if matches s (from_epoch_minute m) then Some m else search fuel s (m + 1)
  end.

(** [minute * 60_000] wraps in a release build. *)
Definition next_after (s : CronSchedule) (after_ms : Z) : option Z :=
  (λ m, (m * 60000) mod (U64_MAX + 1)) <$>
    search (Z.to_nat MAX_SEARCH_MINUTES) s (after_ms / 60000 + 1).

(** ** The calendar is the Gregorian calendar *)

Definition is_leap (y : Z) : bool := (y mod 4 =? 0) && negb (y mod 100 =? 0) || (y mod 400 =? 0).

Definition days_in_month (y m : Z) : Z :=
  if m =? 2 then (if is_leap y then 29 else 28)
  else if (m =? 4) || (m =? 6) || (m =? 9) || (m =? 11) then 30 else 31.

Definition next_date (date : Z * Z * Z) : Z * Z * Z :=
  let '(y, m, d) := date in
  if d <? days_in_month y m then (y, m, d + 1)
  else if m <? 12 then (y, m + 1, 1)
  else (y + 1, 1, 1).

(** The steps of [civil_from_days]: the year of an era-day, and the month and
    day of a day of a year that starts in March. *)
Definition yoe_of (doe : Z) : Z :=
  Z.quot (doe - Z.quot doe 1460 + Z.quot doe 36524 - Z.quot doe 146096) 365.

Definition md_of (doy : Z) : Z * Z :=
  let mp := Z.quot (5 * doy + 2) 153 in
  (if mp <? 10 then mp + 3 else mp - 9, doy - Z.quot (153 * mp + 2) 5 + 1).

Definition civil_of (era yoe doy : Z) : Z * Z * Z :=
  let '(m, d) := md_of doy in
  let y := yoe + era * 400 in
  (if m <=? 2 then y + 1 else y, m, d).

(** First era-day of a year; the last year ends with the era. *)
Definition year_start (y : Z) : Z :=
  if y =? 400 then 146097 else 365 * y + Z.quot y 4 - Z.quot y 100.

(** Every integer of an interval passes a test. *)
Fixpoint all_from (n : nat) (z : Z) (f : Z → bool) : bool :=
  match n with O => true | S n => f z && all_from n (z + 1) f end.

Lemma all_from_spec n z f k : all_from n z f = true → z ≤ k < z + Z.of_nat n → f k = true.
Proof.
  revert z. induction n as [|n IH]; intros z Hs Hk; [lia|]. cbn [all_from] in Hs. bools.
  destruct (Z.eq_dec k z) as [->|]; [done|]. apply (IH (z + 1)); [done|lia].
Qed.

Lemma yoe_mono doe : 0 ≤ doe → doe + 1 < 146097 → yoe_of doe ≤ yoe_of (doe + 1).
Proof.
  intros H0 H1. unfold yoe_of. assert (Hb : ∀ x, 0 ≤ x → x < 146097 →
    0 ≤ x - Z.quot x 1460 + Z.quot x 36524 - Z.quot x 146096).
  { intros x ? ?. Z.to_euclidean_division_equations. lia. }
  rewrite (Z.quot_div_nonneg (doe - _ + _ - _)), (Z.quot_div_nonneg (doe + 1 - _ + _ - _)) by (lia || (apply Hb; lia)).
  apply Z.div_le_mono; [lia|]. Z.to_euclidean_division_equations. lia.
Qed.

Lemma yoe_mono_le a b : 0 ≤ a → a ≤ b → b < 146097 → yoe_of a ≤ yoe_of b.
Proof.
  intros Ha Hab Hb. replace b with (a + Z.of_nat (Z.to_nat (b - a))) in * by lia.
  induction (Z.to_nat (b - a)) as [|n IH]; [by rewrite Z.add_0_r|].
  transitivity (yoe_of (a + Z.of_nat n)); [apply IH; lia|].
  replace (a + Z.of_nat (S n)) with (a + Z.of_nat n + 1) in * by lia. apply yoe_mono; lia.
Qed.

Definition year_ok (y : Z) : bool :=
  (0 <=? year_start y) && (year_start (y + 1) <=? 146097)
  && (yoe_of (year_start y) =? y) && (yoe_of (year_start (y + 1) - 1) =? y)
  && (year_start y + (if is_leap (y + 1) then 366 else 365) =? year_start (y + 1)).

Lemma years_ok y : 0 ≤ y < 400 → year_ok y = true.
Proof. intros Hy. apply (all_from_spec 400 0 year_ok); [vm_compute; reflexivity|lia]. Qed.

Lemma year_of y doe : 0 ≤ y < 400 → year_start y ≤ doe < year_start (y + 1) → yoe_of doe = y.
Proof.
  intros Hy Hd. pose proof (years_ok y Hy) as Hok. unfold year_ok in Hok. bools.
  assert (yoe_of (year_start y) ≤ yoe_of doe) by (apply yoe_mono_le; lia).
  assert (yoe_of doe ≤ yoe_of (year_start (y + 1) - 1)) by (apply yoe_mono_le; lia). lia.
Qed.

Lemma year_exists doe : 0 ≤ doe < 146097 → ∃ y, 0 ≤ y < 400 ∧ year_start y ≤ doe < year_start (y + 1).
Proof.
  intros Hd. assert (Hgen : ∀ n, (n ≤ 400)%nat → doe < year_start (Z.of_nat n) →
    ∃ y, 0 ≤ y < 400 ∧ year_start y ≤ doe < year_start (y + 1)).
  { induction n as [|n IH]; intros Hn Hlt; [change (year_start (Z.of_nat 0)) with 0 in Hlt; lia|].
    destruct (Z_lt_le_dec doe (year_start (Z.of_nat n))) as [Hl|Hl]; [apply IH; lia|].
    exists (Z.of_nat n). replace (Z.of_nat n + 1) with (Z.of_nat (S n)) by lia. lia. }
  apply (Hgen 400%nat); [lia|]. change (year_start (Z.of_nat 400)) with 146097. lia.
Qed.

(** One day on within a year, whatever its length. *)
Definition md_step (doy : Z) : bool :=
  let '(m, d) := md_of doy in
  let '(m', d') := md_of (doy + 1) in
  (1 <=? m) && (m <=? 12) && (1 <=? d) && (d <=? 31) &&
  if (m =? 2) && (28 <=? d) then (doy =? 364) && (d =? 28) && (m' =? 2) && (d' =? 29)
  else if d <? days_in_month 1 m then (m' =? m) && (d' =? d + 1)
  else (m' =? (if m =? 12 then 1 else m + 1)) && (d' =? 1).

Lemma md_steps_ok doy : 0 ≤ doy < 365 → md_step doy = true.
Proof. intros Hd. apply (all_from_spec 365 0 md_step); [vm_compute; reflexivity|lia]. Qed.

Lemma md_range doy : 0 ≤ doy ≤ 365 → 1 ≤ (md_of doy).1 ≤ 12 ∧ 1 ≤ (md_of doy).2 ≤ 31.
Proof.
  intros Hd. assert (Hall : all_from 366 0 (λ x, let '(m, d) := md_of x in
    (1 <=? m) && (m <=? 12) && (1 <=? d) && (d <=? 31)) = true) by (vm_compute; reflexivity).
  pose proof (all_from_spec _ _ _ doy Hall ltac:(lia)) as Hx. cbv beta in Hx.
  destruct (md_of doy) as [m d]. bools. cbn [fst snd]. lia.
Qed.

(** [civil_from_days] in terms of era, year and day of the year. *)
Lemma civil_decompose z : 0 ≤ z →
  ∃ era y doy, 0 ≤ y < 400 ∧ 0 ≤ doy < year_start (y + 1) - year_start y ∧
    z + 719468 = era * 146097 + year_start y + doy ∧ civil_from_days z = civil_of era y doy.
Proof.
  intros Hz. unfold civil_from_days. assert ((0 <=? z + 719468) = true) as -> by (apply Z.leb_le; lia).
  set (era := Z.quot (z + 719468) 146097). set (doe := z + 719468 - era * 146097).
  assert (Hdoe : 0 ≤ doe < 146097).
  { unfold doe, era. Z.to_euclidean_division_equations. lia. }
  destruct (year_exists doe Hdoe) as (y & Hy & Hb). pose proof (year_of y doe Hy Hb) as Hyoe.
  exists era, y, (doe - year_start y). split; [lia|]. split; [lia|]. split; [unfold doe; lia|].
  change (Z.quot (doe - Z.quot doe 1460 + Z.quot doe 36524 - Z.quot doe 146096) 365) with (yoe_of doe).
  rewrite Hyoe.
  assert (Hs : year_start y = 365 * y + Z.quot y 4 - Z.quot y 100).
  { unfold year_start. destruct (Z.eqb_spec y 400); [lia|done]. }
  rewrite <-Hs. set (doy := doe - year_start y).
  assert (Hdoy : 0 ≤ doy ≤ 365).
  { pose proof (years_ok y Hy) as Hok. unfold year_ok in Hok. bools. unfold doy. destruct (is_leap (y + 1)); lia. }
  pose proof (md_range doy Hdoy) as Hmd. unfold civil_of. unfold md_of in *. simpl in Hmd.
  set (mp := Z.quot (5 * doy + 2) 153) in *. set (m := if mp <? 10 then _ else _) in *.
  unfold as_u32, U32_MAX. rewrite !Z.mod_small by lia. done.
Qed.

Lemma civil_of_intro z era y doy :
  0 ≤ z → 0 ≤ y < 400 → 0 ≤ doy < year_start (y + 1) - year_start y →
  z + 719468 = era * 146097 + year_start y + doy → civil_from_days z = civil_of era y doy.
Proof.
  intros Hz Hy Hd Heq. destruct (civil_decompose z Hz) as (era' & y' & doy' & Hy' & Hd' & Heq' & ->).
  assert (Hin : ∀ y, 0 ≤ y < 400 → 0 ≤ year_start y ∧ year_start (y + 1) ≤ 146097).
  { intros y0 Hy0. pose proof (years_ok y0 Hy0) as Hok. unfold year_ok in Hok. bools. lia. }
  pose proof (Hin y Hy). pose proof (Hin y' Hy'). assert (era' = era) as -> by lia.
  assert (y' = y) as ->.
  { rewrite <-(year_of y' (year_start y + doy)), (year_of y (year_start y + doy)) by lia. done. }
  f_equal. lia.
Qed.

Lemma is_leap_cycle y n : is_leap (y + n * 400) = is_leap y.
Proof.
  unfold is_leap. replace (y + n * 400) with (y + (100 * n) * 4) at 1 by lia.
  replace (y + n * 400) with (y + (4 * n) * 100) at 1 by lia. by rewrite !Z.mod_add by lia.
Qed.

(** Within a year. *)
Lemma civil_of_step era y doy :
  0 ≤ y < 400 → 0 ≤ doy → doy + 1 < year_start (y + 1) - year_start y →
  civil_of era y (doy + 1) = next_date (civil_of era y doy).
Proof.
  intros Hy H0 H1. pose proof (years_ok y Hy) as Hok. unfold year_ok in Hok. bools.
  assert (Hd : 0 ≤ doy < 365) by (destruct (is_leap (y + 1)); lia).
  pose proof (md_steps_ok doy Hd) as Hs. unfold md_step in Hs. unfold civil_of.
  destruct (md_of doy) as [m d]. destruct (md_of (doy + 1)) as [m' d']. apply andb_true_iff in Hs as [Hrange Hs]. bools.
  unfold next_date, days_in_month in *. destruct ((m =? 2) && (28 <=? d)) eqn:Hfeb.
  - bools. subst. simpl. replace (y + era * 400 + 1) with (y + 1 + era * 400) by lia. rewrite is_leap_cycle.
    destruct (is_leap (y + 1)); [done|lia].
  - destruct (Z.eqb_spec m 2) as [->|Hm2]; simpl in *.
    + assert (d < 28) by (apply Z.leb_gt in Hfeb; lia).
      assert ((d <? 28) = true) as Hlt by (apply Z.ltb_lt; lia). rewrite Hlt in Hs. bools. subst. simpl.
      assert ((d <? (if is_leap (y + era * 400 + 1) then 29 else 28)) = true) as ->; [|done].
      apply Z.ltb_lt. destruct (is_leap (y + era * 400 + 1)); lia.
    + destruct (d <? _) eqn:Hdim; bools; subst; [done|].
      destruct (Z.eqb_spec m 12) as [->|Hm12].
      * simpl in *. done.
      * assert ((m <? 12) = true) as -> by (apply Z.ltb_lt; lia).
        destruct (Z.leb_spec m 2), (Z.leb_spec (m + 1) 2); try lia; done.
Qed.

(** From the last day of a year, the end of February, to 1 March. *)
Lemma civil_of_year_end era y :
  0 ≤ y < 400 →
  next_date (civil_of era y (year_start (y + 1) - year_start y - 1)) = (y + 1 + era * 400, 3, 1).
Proof.
  intros Hy. pose proof (years_ok y Hy) as Hok. unfold year_ok in Hok. bools.
  assert (Hl : year_start (y + 1) - year_start y - 1 = if is_leap (y + 1) then 365 else 364).
  { destruct (is_leap (y + 1)); lia. }
  rewrite Hl. unfold civil_of. replace (y + era * 400 + 1) with (y + 1 + era * 400) by lia.
  destruct (is_leap (y + 1)) eqn:E.
  - change (md_of 365) with (2, 29). simpl. unfold days_in_month. simpl. by rewrite is_leap_cycle, E.
  - change (md_of 364) with (2, 28). simpl. unfold days_in_month. simpl. by rewrite is_leap_cycle, E.
Qed.

(** The calendar is exact.  Day 0 is 1 January 1970, and every later day
    is the Gregorian successor of the one before it, leap years included. *)
Theorem civil_from_days_gregorian :
  civil_from_days 0 = (1970, 1, 1) ∧
  ∀ z, 0 ≤ z → civil_from_days (z + 1) = next_date (civil_from_days z).
Proof.
  split; [reflexivity|]. intros z Hz. destruct (civil_decompose z Hz) as (era & y & doy & Hy & Hd & Heq & ->).
  destruct (Z_lt_le_dec (doy + 1) (year_start (y + 1) - year_start y)) as [Hin|Hend].
  - rewrite <-civil_of_step by lia. apply civil_of_intro; lia.
  - assert (doy = year_start (y + 1) - year_start y - 1) as -> by lia. rewrite civil_of_year_end by done.
    assert (Hlen : ∀ y, 0 ≤ y < 400 → year_start y < year_start (y + 1)).
    { intros y0 Hy0. pose proof (years_ok y0 Hy0) as Hok. unfold year_ok in Hok. bools. destruct (is_leap (y0 + 1)); lia. }
    destruct (Z.eq_dec y 399) as [->|Hne].
    + rewrite (civil_of_intro (z + 1) (era + 1) 0 0).
      * unfold civil_of. change (md_of 0) with (3, 1). simpl. do 2 f_equal. lia.
      * lia.
      * lia.
      * specialize (Hlen 0). lia.
      * change (year_start 0) with 0. change (year_start (399 + 1)) with 146097 in Heq. lia.
    + rewrite (civil_of_intro (z + 1) era (y + 1) 0).
      * unfold civil_of. change (md_of 0) with (3, 1). simpl. do 2 f_equal.
      * lia.
      * lia.
      * specialize (Hlen (y + 1)). lia.
      * lia.
Qed.

(** ** Indexing *)

Lemma dow_eq days : 0 ≤ days → (Z.rem (Z.rem days 7 + 7) 7 + 4) mod 7 = (days + 4) mod 7.
Proof. intros Hd. Z.to_euclidean_division_equations. lia. Qed.

Lemma parts_range m : 0 ≤ m →
  let p := from_epoch_minute m in
  0 ≤ dp_minute p < 60 ∧ 0 ≤ dp_hour p < 24 ∧ 1 ≤ dp_day p ≤ 31 ∧ 1 ≤ dp_month p ≤ 12 ∧ 0 ≤ dp_dow p < 7 ∧
  m = (m / 1440) * 1440 + dp_hour p * 60 + dp_minute p ∧
  (dp_month p, dp_day p) = ((civil_from_days (m / 1440)).1.2, (civil_from_days (m / 1440)).2) ∧
  dp_dow p = (m / 1440 + 4) mod 7.
Proof.
  intros Hm. unfold from_epoch_minute. assert (Hd : 0 ≤ m / 1440) by (apply Z.div_pos; lia).
  pose proof (civil_decompose _ Hd) as (era & y & doy & Hy & Hdoy & _ & Hc). rewrite Hc.
  assert (0 ≤ doy ≤ 365).
  { pose proof (years_ok y Hy) as Hok. unfold year_ok in Hok. bools. destruct (is_leap (y + 1)); lia. }
  pose proof (md_range doy ltac:(lia)) as Hmd. unfold civil_of. destruct (md_of doy) as [mo d]. cbn [fst snd] in *.
  cbn [dp_minute dp_hour dp_day dp_month dp_dow]. rewrite dow_eq by done. clear Hc Hdoy.
  split_and!; try done; try lia; Z.to_euclidean_division_equations; lia.
Qed.

Lemma length_table n vs : length (table n vs) = n.
Proof.
  unfold table. rewrite <-(length_replicate n false) at 2. generalize (replicate n false) as a.
  induction vs as [|v vs IH]; intros a; simpl; [done|]. rewrite IH. apply length_insert.
Qed.

(** No lookup of the matcher is out of range, and the parts of a minute
    are its clock time, its Gregorian date and its weekday (day 0 was a
    Thursday).  So matching a parsed expression never panics. *)
Theorem cron_lookups_in_range (expr : string) (s : CronSchedule) (m : Z)
    (Hparse : parse expr = Ok s) (Hm : 0 ≤ m) :
  let p := from_epoch_minute m in
  (is_Some (minute s !! Z.to_nat (dp_minute p)) ∧ is_Some (hour s !! Z.to_nat (dp_hour p)) ∧
   is_Some (dom s !! Z.to_nat (dp_day p)) ∧ is_Some (month s !! Z.to_nat (dp_month p)) ∧
   is_Some (dow s !! Z.to_nat (dp_dow p))) ∧
  m = (m / 1440) * 1440 + dp_hour p * 60 + dp_minute p ∧
  (dp_month p, dp_day p) = ((civil_from_days (m / 1440)).1.2, (civil_from_days (m / 1440)).2) ∧
  dp_dow p = (m / 1440 + 4) mod 7.
Proof.
  pose proof (parts_range m Hm) as (H1 & H2 & H3 & H4 & H5 & Hrest). split; [|exact Hrest]. clear Hrest.
  assert (Hlen : length (minute s) = 60%nat ∧ length (hour s) = 24%nat ∧ length (dom s) = 32%nat ∧
                 length (month s) = 13%nat ∧ length (dow s) = 7%nat).
  { revert Hparse. unfold parse.
    destruct (split_whitespace expr) as [|f0 [|f1 [|f2 [|f3 [|f4 [|]]]]]]; try done.
    do 5 (destruct (parse_field _ _ _ _); simpl; [|done]). intros [= <-]. simpl.
    by rewrite !length_table. }
  destruct Hlen as (L1 & L2 & L3 & L4 & L5). rewrite !lookup_lt_is_Some. lia.
Qed.

(** ** The search *)

Lemma search_Some n s m k :
  search n s m = Some k ↔
  m ≤ k < m + Z.of_nat n ∧ matches s (from_epoch_minute k) = true ∧
  ∀ j, m ≤ j < k → matches s (from_epoch_minute j) = false.
Proof.
  revert m. induction n as [|n IH]; intros m; cbn [search].
  { split; [done|]. intros [? _]. lia. }
  destruct (matches s (from_epoch_minute m)) eqn:E.
  - split.
    + intros [= <-]. split_and!; [lia|lia|done|]. intros j Hj. lia.
    + intros (Hk & Hmk & Hall). destruct (Z.eq_dec k m) as [->|Hne]; [done|].
      rewrite Hall in E by lia. done.
  - rewrite IH. split; intros (Hk & Hmk & Hall).
    + split_and!; [lia|lia|done|]. intros j Hj. destruct (Z.eq_dec j m) as [->|]; [done|]. apply Hall. lia.
    + assert (k ≠ m) by (intros ->; congruence). split_and!; [lia|lia|done|]. intros j Hj. apply Hall. lia.
Qed.

Lemma search_None n s m :
  search n s m = None ↔ ∀ j, m ≤ j < m + Z.of_nat n → matches s (from_epoch_minute j) = false.
Proof.
  revert m. induction n as [|n IH]; intros m; cbn [search]; [split; [intros _ j Hj; lia|done]|].
  destruct (matches s (from_epoch_minute m)) eqn:E.
  - split; [done|]. intros Hall. rewrite Hall in E by lia. done.
  - rewrite IH. split; intros Hall j Hj.
    + destruct (Z.eq_dec j m) as [->|]; [done|]. apply Hall. lia.
    + apply Hall. lia.
Qed.

(** The search horizon in epoch milliseconds does not overflow. *)
Definition clock_ok (after_ms : Z) : Prop :=
  0 ≤ after_ms ∧ (after_ms / 60000 + 1 + MAX_SEARCH_MINUTES) * 60000 ≤ U64_MAX.

(** C39: The next firing time is the first one.  Within the search horizon,
    [next_after] returns the earliest whole minute strictly after the given
    instant that matches the expression; it returns nothing exactly when no
    minute of the horizon matches. *)
Theorem next_after_first (s : CronSchedule) (after_ms : Z) (Hclock : clock_ok after_ms) :
  match next_after s after_ms with
  | Some t =>
      after_ms < t ∧ ∃ k, t = k * 60000 ∧ matches s (from_epoch_minute k) = true ∧
      ∀ j, after_ms < j * 60000 → j < k → matches s (from_epoch_minute j) = false
  | None =>
      ∀ j, after_ms < j * 60000 → j ≤ after_ms / 60000 + MAX_SEARCH_MINUTES →
        matches s (from_epoch_minute j) = false
  end.
Proof.
  destruct Hclock as [H0 Hmax]. unfold next_after.
  assert (Hnext : ∀ j, after_ms < j * 60000 ↔ after_ms / 60000 + 1 ≤ j).
  { intros j. Z.to_euclidean_division_equations. lia. }
  destruct (search _ _ _) as [k|] eqn:E; simpl.
  - apply search_Some in E as (Hk & Hmk & Hall). rewrite Z2Nat.id in Hk by (unfold MAX_SEARCH_MINUTES; lia).
    rewrite Z.mod_small by (pose proof (Z.div_pos after_ms 60000); lia). split; [apply Hnext; lia|].
    exists k. split_and!; [done|done|]. intros j Hj Hlt. apply Hall. apply Hnext in Hj. lia.
  - intros j Hj Hle. apply (proj1 (search_None _ _ _) E).
    rewrite Z2Nat.id by (unfold MAX_SEARCH_MINUTES; lia). apply Hnext in Hj. lia.
Qed.

(** ** The horizon misses a leap day *)

Definition leap_day : CronSchedule :=
  mkCron (table 60 [0]) (table 24 [0]) (table 32 [29]) (table 13 [2]) (table 7 [0; 1; 2; 3; 4; 5; 6; 7 mod 7])
    true false.

Example leap_day_parsed : parse "0 0 29 2 *" = Ok leap_day.
Proof. vm_compute. reflexivity. Qed.

Definition is_feb_29 (days : Z) : bool :=
  (idx (month leap_day) (civil_from_days days).1.2) && (idx (dom leap_day) (civil_from_days days).2).

Lemma leap_day_matches m : 0 ≤ m → matches leap_day (from_epoch_minute m) = true →
  is_feb_29 (m / 1440) = true ∧ m = (m / 1440) * 1440.
Proof.
  intros Hm. destruct (parts_range m Hm) as (Hmi & Hho & _ & _ & _ & Heq & Hmd & _).
  pose proof (f_equal fst Hmd) as E1. pose proof (f_equal snd Hmd) as E2. cbn [fst snd] in E1, E2.
  unfold matches, is_feb_29. rewrite <-E1, <-E2. revert Hmi Hho Heq.
  generalize (from_epoch_minute m) as p. intros p Hmi Hho Heq.
  change (dom_restricted leap_day) with true. change (dow_restricted leap_day) with false.
  destruct (negb _ || negb _ || negb _) eqn:B; [done|]. bools.
  match goal with H : idx (month leap_day) _ = true |- _ => rewrite H end.
  intros ->. split; [done|].
  assert (Hz : ∀ n l v, all_from n 0 (λ v, negb (idx l v) || (v =? 0)) = true → 0 ≤ v < Z.of_nat n →
    idx l v = true → v = 0).
  { intros n l v Hall Hv Hi. pose proof (all_from_spec _ _ _ v Hall ltac:(lia)) as Hx. cbv beta in Hx.
    rewrite Hi in Hx. simpl in Hx. by bools. }
  assert (dp_minute p = 0) by (eapply (Hz 60%nat (minute leap_day)); [vm_compute; reflexivity|lia|done]).
  assert (dp_hour p = 0) by (eapply (Hz 24%nat (hour leap_day)); [vm_compute; reflexivity|lia|done]).
  lia.
Qed.

(** A schedule on 29 February dies in 2096.  The expression of every
    leap day fires on 29 February 2096 (day 46080), the next leap day is
    29 February 2104, and in between the five-year search finds nothing, so the
    schedule is taken to be exhausted for ever. *)
Theorem leap_day_schedule_exhausted :
  let fire := 46080 * 1440 * 60000 in
  civil_from_days 46080 = (2096, 2, 29) ∧ civil_from_days 49001 = (2104, 2, 29) ∧
  matches leap_day (from_epoch_minute (46080 * 1440)) = true ∧
  matches leap_day (from_epoch_minute (49001 * 1440)) = true ∧
  next_after leap_day fire = None.
Proof.
  do 4 (split; [vm_compute; reflexivity|]).
  apply fmap_None, search_None.
  intros j Hj. rewrite Z2Nat.id in Hj by (unfold MAX_SEARCH_MINUTES; lia).
  change (46080 * 1440 * 60000 / 60000 + 1) with 66355201 in Hj. unfold MAX_SEARCH_MINUTES in Hj.
  destruct (matches leap_day (from_epoch_minute j)) eqn:E; [|done].
  apply leap_day_matches in E as [E Hj0]; [|lia].
  assert (Hnone : all_from 1831 46081 (λ d, negb (is_feb_29 d)) = true) by (vm_compute; reflexivity).
  pose proof (all_from_spec _ _ _ (j / 1440) Hnone ltac:(lia)) as Hn. cbv beta in Hn. by rewrite E in Hn.
Qed.

(** ** Witnesses *)

Lemma cron_lookups_in_range_witness : dp_dow (from_epoch_minute (46080 * 1440)) = (46080 * 1440 / 1440 + 4) mod 7.
Proof.
  apply (cron_lookups_in_range "0 0 29 2 *" leap_day (46080 * 1440)); [vm_compute; reflexivity|lia].
Defined.

Lemma next_after_first_witness :
  match next_after leap_day 1700000000000 with
  | Some t => 1700000000000 < t ∧ ∃ k, t = k * 60000 ∧ matches leap_day (from_epoch_minute k) = true ∧
      ∀ j, 1700000000000 < j * 60000 → j < k → matches leap_day (from_epoch_minute j) = false
  | None => ∀ j, 1700000000000 < j * 60000 → j ≤ 1700000000000 / 60000 + MAX_SEARCH_MINUTES →
        matches leap_day (from_epoch_minute j) = false
  end.
Proof. apply (next_after_first leap_day 1700000000000). split; vm_compute; done. Defined.
