(* ===== verification/Schedules.v ===== *)
(** Schedules of src/state.rs: a durable cursor to the next firing time, fires
    claimed against it, and a bounded history of runs. *)

From S2P Require Import Prelude Json Text Cron.

(** ** Data *)

Inductive ScheduleTarget : Type :=
| Webhook (url : string)
| Queue (name : string)
| Grpc (endpoint : string)
| Function (function_id : string).

Inductive DeliverySemantics : Type := AtLeastOnce | ExactlyOnce.
Inductive RunStatus : Type := RunPending | RunDelivered | RunFailed.
Inductive RunTrigger : Type := Scheduled | Manual | Legacy.

#[export] Instance RunStatus_eq_dec : EqDecision RunStatus.
Proof. solve_decision. Defined.
#[export] Instance Delivery_eq_dec : EqDecision DeliverySemantics.
Proof. solve_decision. Defined.

Record Schedule : Type := mkSchedule {
  sch_name : string;
  sch_cron : option string;
  sch_one_shot : option Z;
  sch_target : ScheduleTarget;
  sch_delivery : DeliverySemantics;
  sch_max_retries : Z;
  sch_enabled : bool;
  sch_next_fire : option Z
}.

Record ScheduleRun : Type := mkRun {
  run_fire_id : string;
  run_fired_at : Z;
  run_attempts : Z;
  run_duplicate : bool;
  run_target : ScheduleTarget;
  run_status : RunStatus;
  run_error : option string;
  run_trigger : RunTrigger;
  run_error_class : option string;
  run_http_status : option Z;
  run_duration : option Z;
  run_completed_at : option Z;
  run_trace_id : option string;
  run_span_id : option string
}.

Record ScheduleRecord : Type := mkSchedRec {
  definition : Schedule;
  history : list ScheduleRun
}.

Abbreviation schedule_map := (gmap string ScheduleRecord).

#[export] Instance ser_target : Serialize ScheduleTarget := λ t,
  match t with
  | Webhook url => json! ["kind" :- "webhook"; "url" :- url]
  | Queue name => json! ["kind" :- "queue"; "name" :- name]
  | Grpc endpoint => json! ["kind" :- "grpc"; "endpoint" :- endpoint]
  | Function id => json! ["kind" :- "function"; "function_id" :- id]
  end.

#[export] Instance ser_delivery : Serialize DeliverySemantics := λ d,
  JStr match d with AtLeastOnce => "at_least_once" | ExactlyOnce => "exactly_once" end.

(** ** Helpers *)

Definition MAX_SCHEDULE_HISTORY : nat := 100.

Definition next_fire_for (cron : option string) (one_shot_at_ms : option Z) (after_ms : Z) : option Z :=
  match one_shot_at_ms with
  | Some at_ms => Some at_ms
  | None =>
      expr ← cron;
      match parse expr with Ok c => next_after c after_ms | Err _ => None end
  end.

(** [history.drain(0..len - MAX)] *)
Definition trim_history (h : list ScheduleRun) : list ScheduleRun :=
  if (MAX_SCHEDULE_HISTORY <? length h)%nat then drop (length h - MAX_SCHEDULE_HISTORY) h else h.

(** The [while !text.is_char_boundary(end)]; position 0 is a boundary. *)
Fixpoint boundary_before (s : string) (n : nat) : nat :=
  match n with
  | O => O
  | S n' => if is_char_boundary s n then n else boundary_before s n'
  end.

Definition MAX_BYTES : nat := 512.

Definition bounded_text (text : string) : string :=
  if (MAX_BYTES <? String.length text)%nat then truncate text (boundary_before text MAX_BYTES) else text.

Definition bounded_schedule_text (value : option string) : option string := bounded_text <$> value.

Definition with_cursor (d : Schedule) (enabled : bool) (next : option Z) : Schedule :=
  mkSchedule (sch_name d) (sch_cron d) (sch_one_shot d) (sch_target d) (sch_delivery d) (sch_max_retries d)
    enabled next.

(** A run that is still to be delivered. *)
Definition pending_run (fire_id : string) (at_ms : Z) (target : ScheduleTarget) (trigger : RunTrigger) : ScheduleRun :=
  mkRun fire_id at_ms 0 false target RunPending None trigger None None None None None None.

Definition has_run (h : list ScheduleRun) (fire_id : string) : bool :=
  existsb (λ r, String.eqb (run_fire_id r) fire_id) h.

(** ** Commands *)

Definition apply_schedule_upsert (ss : schedule_map) (name : string) (cron : option string)
    (one_shot_at_ms : option Z) (target : ScheduleTarget) (delivery : DeliverySemantics)
    (max_retries now_ms : Z) : schedule_map * Value :=
  let next_fire_ms := next_fire_for cron one_shot_at_ms now_ms in
  let enabled := default true ((λ r, sch_enabled (definition r)) <$> ss !! name) in
  let d := mkSchedule name cron one_shot_at_ms target delivery max_retries enabled next_fire_ms in
  let h := default [] (history <$> ss !! name) in
  (<[name := mkSchedRec d h]> ss,
   json! ["scheduled" :- true; "name" :- name; "next_fire_ms" :- next_fire_ms]).

Definition apply_schedule_record_run (ss : schedule_map) (name fire_id : string) (fired_at_ms : Z) :
    schedule_map * Value :=
  match ss !! name with
  | None => (ss, json! ["recorded" :- false; "reason" :- "not_found"; "name" :- name])
  | Some r =>
      let duplicate := bool_decide (sch_delivery (definition r) = ExactlyOnce) && has_run (history r) fire_id in
      let run := mkRun fire_id fired_at_ms 1 false (sch_target (definition r)) RunDelivered None Legacy
                   None None None (Some fired_at_ms) None None in
      let r' := if duplicate then r else mkSchedRec (definition r) (trim_history (history r ++ [run])) in
      (<[name := r']> ss,
       json! ["recorded" :- negb duplicate; "duplicate" :- duplicate; "name" :- name; "fire_id" :- fire_id])
  end.

Definition apply_schedule_claim_fire (ss : schedule_map) (name : string) (fire_id_ms : Z) :
    schedule_map * Value :=
  match ss !! name with
  | None => (ss, json! ["claimed" :- false; "reason" :- "not_found"; "name" :- name])
  | Some r =>
      let d := definition r in
      if negb (sch_enabled d) then
        (ss, json! ["claimed" :- false; "reason" :- "disabled"; "name" :- name])
      else if negb (bool_decide (sch_next_fire d = Some fire_id_ms)) then
        (ss, json! ["claimed" :- false; "reason" :- "stale_or_duplicate"; "name" :- name;
                    "expected" :- sch_next_fire d])
      else
        let run := pending_run (decimal fire_id_ms) fire_id_ms (sch_target d) Scheduled in
        let next := match sch_one_shot d with
                    | Some _ => None
                    | None => next_fire_for (sch_cron d) None fire_id_ms
                    end in
        (<[name := mkSchedRec (with_cursor d (sch_enabled d) next) (trim_history (history r ++ [run]))]> ss,
         json! ["claimed" :- true; "name" :- name; "fire_id_ms" :- fire_id_ms; "target" :- sch_target d;
                "delivery" :- sch_delivery d; "max_retries" :- sch_max_retries d; "next_fire_ms" :- next])
  end.

Definition apply_schedule_set_enabled (ss : schedule_map) (name : string) (enabled : bool) (now_ms : Z)
    (catch_up : bool) : schedule_map * Value :=
  match ss !! name with
  | None => (ss, json! ["updated" :- false; "reason" :- "not_found"; "name" :- name])
  | Some r =>
      let d := definition r in
      let changed := negb (Bool.eqb (sch_enabled d) enabled) in
      let next :=
        if enabled && negb catch_up then
          match sch_one_shot d with
          | Some one_shot => if now_ms <? one_shot then Some one_shot else None
          | None => next_fire_for (sch_cron d) None now_ms
          end
        else sch_next_fire d in
      (<[name := mkSchedRec (with_cursor d enabled next) (history r)]> ss,
       json! ["updated" :- true; "changed" :- changed; "name" :- name; "enabled" :- enabled;
              "catch_up" :- catch_up; "next_fire_ms" :- next])
  end.

Definition apply_schedule_delete (ss : schedule_map) (name : string) : schedule_map * Value :=
  (delete name ss, json! ["deleted" :- bool_decide (is_Some (ss !! name)); "name" :- name]).

Definition apply_schedule_trigger (ss : schedule_map) (name : string) (fire_id_ms requested_at_ms : Z) :
    schedule_map * Value :=
  match ss !! name with
  | None => (ss, json! ["triggered" :- false; "reason" :- "not_found"; "name" :- name])
  | Some r =>
      let fire_id := decimal fire_id_ms in
      if has_run (history r) fire_id then
        (ss, json! ["triggered" :- false; "duplicate" :- true; "name" :- name; "fire_id_ms" :- fire_id_ms])
      else
        let run := pending_run fire_id requested_at_ms (sch_target (definition r)) Manual in
        (<[name := mkSchedRec (definition r) (trim_history (history r ++ [run]))]> ss,
         json! ["triggered" :- true; "name" :- name; "fire_id_ms" :- fire_id_ms;
                "requested_at_ms" :- requested_at_ms])
  end.

(** [iter_mut().rev().find(..)]: the last run of that fire, with its index. *)
Definition last_run (h : list ScheduleRun) (fire_id : string) : option (nat * ScheduleRun) :=
  match list_find (λ r, run_fire_id r = fire_id) (reverse h) with
  | Some (i, r) => Some ((length h - 1 - i)%nat, r)
  | None => None
  end.

Definition apply_schedule_record_result (ss : schedule_map) (name : string) (fire_id_ms : Z)
    (delivered : bool) (attempts : Z) (error error_class : option string)
    (http_status duration_ms completed_at_ms : option Z) (trace_id span_id : option string) :
    schedule_map * Value :=
  match ss !! name with
  | None => (ss, json! ["recorded" :- false; "reason" :- "not_found"; "name" :- name])
  | Some r =>
      match last_run (history r) (decimal fire_id_ms) with
      | Some (i, run) =>
          if negb (bool_decide (run_status run = RunPending)) then
            (ss, json! ["recorded" :- true; "duplicate" :- true; "name" :- name; "fire_id_ms" :- fire_id_ms;
                        "delivered" :- bool_decide (run_status run = RunDelivered)])
          else
            let run' := mkRun (run_fire_id run) (run_fired_at run) attempts (run_duplicate run)
                          (run_target run) (if delivered then RunDelivered else RunFailed)
                          (bounded_schedule_text error) (run_trigger run) (bounded_schedule_text error_class)
                          http_status duration_ms completed_at_ms (bounded_schedule_text trace_id)
                          (bounded_schedule_text span_id) in
            (<[name := mkSchedRec (definition r) (<[i := run']> (history r))]> ss,
             json! ["recorded" :- true; "name" :- name; "fire_id_ms" :- fire_id_ms; "delivered" :- delivered])
      | None =>
          (ss, json! ["recorded" :- false; "reason" :- "no_run"; "name" :- name; "fire_id_ms" :- fire_id_ms])
      end
  end.

(** ** Diagnostic text *)

Lemma boundary_before_le s n : (boundary_before s n ≤ n)%nat.
Proof. induction n as [|n IH]; simpl; [done|]. destruct (is_char_boundary s (S n)); lia. Qed.

Lemma boundary_before_boundary s n : is_char_boundary s (boundary_before s n) = true.
Proof. induction n as [|n IH]; simpl; [done|]. by destruct (is_char_boundary s (S n)) eqn:E. Qed.

Lemma boundary_before_last s n j :
  (boundary_before s n < j ≤ n)%nat → is_char_boundary s j = false.
Proof.
  induction n as [|n IH]; simpl; [lia|]. destruct (is_char_boundary s (S n)) eqn:E; [lia|].
  intros Hj. destruct (decide (j = S n)) as [->|]; [done|]. apply IH. lia.
Qed.

(** Diagnostic text is bounded without breaking a character.  The text
    kept is a prefix of at most 512 bytes; text that already fits is kept
    whole, and a cut falls on the last character boundary that fits. *)
Theorem bounded_text_spec (text : string) :
  String.prefix (bounded_text text) text = true ∧ (String.length (bounded_text text) ≤ 512)%nat ∧
  ((String.length text ≤ 512)%nat → bounded_text text = text) ∧
  ((512 < String.length text)%nat → ∃ n, bounded_text text = truncate text n ∧ (n ≤ 512)%nat ∧
     is_char_boundary text n = true ∧ ∀ j, (n < j ≤ 512)%nat → is_char_boundary text j = false).
Proof.
  unfold bounded_text, MAX_BYTES. pose proof (boundary_before_le text 512).
  pose proof (length_truncate text (boundary_before text 512)).
  destruct (Nat.ltb_spec 512 (String.length text)); split_and!; try done; try lia.
  - apply prefix_truncate.
  - intros _. exists (boundary_before text 512).
    split_and!; [done|lia|apply boundary_before_boundary|apply boundary_before_last].
  - clear. induction text as [|a s IH]; simpl; [done|]. by destruct (Ascii.ascii_dec a a).
Qed.

(** ** Fires are claimed once *)

(** The commands between two edits of a schedule: everything except redefining
    or deleting it, and resuming it at a new time. *)
Inductive sched_call : Type :=
| SClaim (name : string) (fire_id_ms : Z)
| STrigger (name : string) (fire_id_ms requested_at_ms : Z)
| SRecordRun (name fire_id : string) (fired_at_ms : Z)
| SResult (name : string) (fire_id_ms : Z) (delivered : bool) (attempts : Z) (error : option string)
| SPause (name : string) (now_ms : Z)
| SResumeCatchUp (name : string) (now_ms : Z).

Definition sched_exec (ss : schedule_map) (call : sched_call) : schedule_map * Value :=
  match call with
  | SClaim n f => apply_schedule_claim_fire ss n f
  | STrigger n f at_ms => apply_schedule_trigger ss n f at_ms
  | SRecordRun n f at_ms => apply_schedule_record_run ss n f at_ms
  | SResult n f ok a e => apply_schedule_record_result ss n f ok a e None None None None None None
  | SPause n now => apply_schedule_set_enabled ss n false now true
  | SResumeCatchUp n now => apply_schedule_set_enabled ss n true now true
  end.

(** The fires of [name] a history claims, in order. *)
Fixpoint fires (name : string) (ss : schedule_map) (calls : list sched_call) : list Z :=
  match calls with
  | [] => []
  | call :: calls =>
      let '(ss', out) := sched_exec ss call in
      match call with
      | SClaim n f => if bool_decide (n = name) && flag "claimed" out then f :: fires name ss' calls else fires name ss' calls
      | _ => fires name ss' calls
      end
  end.

Definition cursor (ss : schedule_map) (name : string) : option Z :=
  r ← ss !! name; sch_next_fire (definition r).

(** Every claimed time is one the search can step over without overflow. *)
Definition claims_in_range (calls : list sched_call) : Prop :=
  Forall (λ c, match c with SClaim _ f => clock_ok f | _ => True end) calls.

Lemma next_fire_later cron f t : clock_ok f → next_fire_for cron None f = Some t → f < t.
Proof.
  intros Hok. unfold next_fire_for. destruct cron as [e|]; simpl; [|done]. destruct (parse e) as [c|]; [|done].
  intros Hn. pose proof (next_after_first c f Hok) as Hf. rewrite Hn in Hf. tauto.
Qed.

Lemma sched_exec_cursor ss call name :
  match call with SClaim _ f => clock_ok f | _ => True end →
  let '(ss', out) := sched_exec ss call in
  match call with
  | SClaim n f =>
      if bool_decide (n = name) && flag "claimed" out
      then cursor ss name = Some f ∧ ∀ t, cursor ss' name = Some t → f < t
      else cursor ss' name = cursor ss name
  | _ => cursor ss' name = cursor ss name
  end.
Proof.
  intros Hok. assert (Hset : ∀ n r r', ss !! n = Some r → sch_next_fire (definition r') = sch_next_fire (definition r) →
    cursor (<[n := r']> ss) name = cursor ss name).
  { intros n r r' Hn He. unfold cursor. rewrite lookup_insert. case_decide; [|done]. subst. by rewrite Hn. }
  destruct call as [n f|n f at_ms|n f at_ms|n f ok a e|n now|n now]; simpl.
  - unfold apply_schedule_claim_fire. destruct (ss !! n) as [r|] eqn:E; [|cbn; by rewrite andb_false_r].
    destruct (negb (sch_enabled _)); [cbn; by rewrite andb_false_r|].
    destruct (bool_decide (sch_next_fire _ = Some f)) eqn:Hc; [|cbn; by rewrite andb_false_r]. bools. cbn.
    rewrite andb_true_r. case_bool_decide as Hn.
    + subst n. unfold cursor. rewrite E, lookup_insert_eq. simpl. split; [done|]. intros t.
      destruct (sch_one_shot (definition r)); [done|]. by apply next_fire_later.
    + unfold cursor. by rewrite lookup_insert_ne.
  - unfold apply_schedule_trigger. destruct (ss !! n) as [r|] eqn:E; [|done]. destruct (has_run _ _); [done|].
    by eapply Hset.
  - unfold apply_schedule_record_run. destruct (ss !! n) as [r|] eqn:E; [|done]. eapply Hset; [done|].
    by destruct (_ && _).
  - unfold apply_schedule_record_result. destruct (ss !! n) as [r|] eqn:E; [|done].
    destruct (last_run _ _) as [[i run]|]; [|done]. destruct (negb _); [done|]. by eapply Hset.
  - unfold apply_schedule_set_enabled. destruct (ss !! n) as [r|] eqn:E; [|done]. by eapply Hset.
  - unfold apply_schedule_set_enabled. destruct (ss !! n) as [r|] eqn:E; [|done]. by eapply Hset.
Qed.

Lemma fires_from calls ss name :
  claims_in_range calls →
  Sorted Z.lt (fires name ss calls) ∧
  (∀ f, List.hd_error (fires name ss calls) = Some f → cursor ss name = Some f).
Proof.
  intros Hok. revert ss. induction Hok as [|call calls Hc Hcs IH]; intros ss; [split; [constructor|done]|].
  pose proof (sched_exec_cursor ss call name Hc) as Hx. cbn [fires].
  destruct (sched_exec ss call) as [ss' out]. destruct (IH ss') as [Hs Hhd].
  destruct call; try (split; [done|intros f Hf; rewrite <-Hx; auto]).
  destruct (bool_decide _ && _); [|split; [done|intros f Hf; rewrite <-Hx; auto]].
  destruct Hx as [Hcur Hlater]. split; [|by intros f [= <-]]. constructor; [done|].
  destruct (fires name ss' calls) as [|f2 l]; constructor. apply Hlater. by apply Hhd.
Qed.


(** ** The history *)

Definition histories_bounded (ss : schedule_map) : Prop :=
  map_Forall (λ _ r, (length (history r) ≤ MAX_SCHEDULE_HISTORY)%nat) ss.

Lemma length_trim_history h : (length (trim_history h) ≤ MAX_SCHEDULE_HISTORY)%nat.
Proof.
  unfold trim_history. destruct (Nat.ltb_spec MAX_SCHEDULE_HISTORY (length h)); [|done]. rewrite length_drop. lia.
Qed.

Lemma trim_history_suffix h : ∃ h0, h = h0 ++ trim_history h.
Proof.
  unfold trim_history. destruct (MAX_SCHEDULE_HISTORY <? length h)%nat.
  - exists (take (length h - MAX_SCHEDULE_HISTORY) h). by rewrite take_drop.
  - by exists [].
Qed.

Lemma sched_exec_bounded ss call : histories_bounded ss → histories_bounded (sched_exec ss call).1.
Proof.
  intros Hb. assert (Hset : ∀ n r', (length (history r') ≤ MAX_SCHEDULE_HISTORY)%nat → histories_bounded (<[n := r']> ss)).
  { intros n r' Hr'. by apply map_Forall_insert_2. }
  assert (Hold : ∀ n r, ss !! n = Some r → (length (history r) ≤ MAX_SCHEDULE_HISTORY)%nat).
  { intros n r Hn. exact (Hb n r Hn). }
  destruct call as [n f|n f at_ms|n f at_ms|n f ok a e|n now|n now]; simpl.
  - unfold apply_schedule_claim_fire. destruct (ss !! n) as [r|] eqn:E; [|done]. do 2 (destruct (negb _); [done|]).
    apply Hset, length_trim_history.
  - unfold apply_schedule_trigger. destruct (ss !! n) as [r|] eqn:E; [|done]. destruct (has_run _ _); [done|].
    apply Hset, length_trim_history.
  - unfold apply_schedule_record_run. destruct (ss !! n) as [r|] eqn:E; [|done]. apply Hset.
    destruct (_ && _); [by eapply Hold|apply length_trim_history].
  - unfold apply_schedule_record_result. destruct (ss !! n) as [r|] eqn:E; [|done].
    destruct (last_run _ _) as [[i run]|]; [|done]. destruct (negb _); [done|]. apply Hset. simpl.
    rewrite length_insert. by eapply Hold.
  - unfold apply_schedule_set_enabled. destruct (ss !! n) as [r|] eqn:E; [|done]. apply Hset. simpl. by eapply Hold.
  - unfold apply_schedule_set_enabled. destruct (ss !! n) as [r|] eqn:E; [|done]. apply Hset. simpl. by eapply Hold.
Qed.

(** Delivery results are recorded once.  A result lands on the latest run
    of that fire; if that run is already delivered or failed, nothing changes,
    and in any case every finished run of the history stays as it is, at its
    place.  Histories stay within a hundred runs. *)
Theorem finished_runs_final (ss : schedule_map) (name : string) (fire_id_ms attempts : Z) (delivered : bool)
    (error : option string) (Hb : histories_bounded ss) :
  let '(ss', out) := sched_exec ss (SResult name fire_id_ms delivered attempts error) in
  (∀ n r i run, ss !! n = Some r → history r !! i = Some run → run_status run ≠ RunPending →
     ∃ r', ss' !! n = Some r' ∧ history r' !! i = Some run) ∧
  (flag "duplicate" out = true → ss' = ss) ∧
  histories_bounded ss'.
Proof.
  pose proof (sched_exec_bounded ss (SResult name fire_id_ms delivered attempts error) Hb) as Hb'.
  revert Hb'. cbn [sched_exec]. unfold apply_schedule_record_result.
  assert (Hid : ∀ n r i run, ss !! n = Some r → history r !! i = Some run → run_status run ≠ RunPending →
     ∃ r', ss !! n = Some r' ∧ history r' !! i = Some run) by eauto.
  destruct (ss !! name) as [r|] eqn:E; [|done].
  destruct (last_run (history r) (decimal fire_id_ms)) as [[i run]|] eqn:El; [|done].
  destruct (bool_decide (run_status run = RunPending)) eqn:Hp; simpl; [|done]. bools. intros Hb'.
  split_and!; [|done|done]. intros n r0 j run0 Hn Hj Hs. rewrite lookup_insert.
  case_decide as D; [|eauto]. subst n. rewrite E in Hn. injection Hn as <-. eexists. split; [done|]. simpl.
  rewrite list_lookup_insert_ne; [done|]. intros ->.
  unfold last_run in El. destruct (list_find _ (reverse (history r))) as [[k run1]|] eqn:Ef; [|done].
  injection El as <- ->. apply list_find_Some in Ef as (Hk & _ & _).
  assert (Hlt : (k < length (history r))%nat) by (apply lookup_lt_Some in Hk; by rewrite length_reverse in Hk).
  rewrite reverse_lookup in Hk by done.
  replace (length (history r) - S k)%nat with (length (history r) - 1 - k)%nat in Hk by lia. congruence.
Qed.

(** ** Witnesses *)

Definition hourly : ScheduleRecord :=
  mkSchedRec (mkSchedule "job" (Some "0 * * * *") None (Queue "q") ExactlyOnce 3 true (Some 3600000)) [].


Lemma finished_runs_final_witness :
  histories_bounded (sched_exec {["job" := hourly]} (SResult "job" 3600000 true 1 None)).1.
Proof.
  pose proof (finished_runs_final {["job" := hourly]} "job" 3600000 1 true None) as Hf.
  destruct (sched_exec _ _) as [ss' out]. apply Hf.
  intros k r [<- <-]%lookup_singleton_Some. simpl. lia.
Defined.
