(* ===== verification/Command.v ===== *)
(** The commands of the replicated log (src/state.rs, [enum Command]): their
    routing to a shard, their telemetry label, the protocol version each one
    needs, and the rewriting of a command to the protocol a shard has active. *)

From Stdlib Require Import Ascii.
From S2P Require Import Prelude Json Barriers Decisions Budgets RateLimit Schedules.

(** ** The log's protocols *)

Definition LEGACY_COMMAND_PROTOCOL : Z := 1.
Definition LOCK_COMMAND_PROTOCOL : Z := 2.
Definition CURRENT_COMMAND_PROTOCOL : Z := 3.
Definition COMMAND_PROTOCOL_ROUTING_KEY : string := String (ascii_of_N 0) "fiducia-command-protocol".

(** ** Commands *)

Inductive Command : Type :=
| ActivateCommandProtocol (version : Z)
| KvPut (key value : string) (ttl_ms prev_revision : option Z)
| KvDelete (key : string)
| CounterAdd (key : string) (delta : Z) (prev_revision : option Z)
| CounterSet (key : string) (value : Z) (prev_revision : option Z)
| BarrierCreate (name : string) (policy : BarrierPolicy) (expected : Z) (deadline_ms : option Z)
| BarrierArrive (name participant : string) (weight : Z) (veto : bool)
| TaskCreate (name task_type : string) (payload : Value) (deadline_ms : option Z)
| TaskClaim (name worker : string) (ttl_ms : Z)
| TaskProgress (name worker : string) (fencing_token percent : Z) (checkpoint : Value)
| TaskComplete (name worker : string) (fencing_token : Z) (result : Value)
| TaskFail (name worker : string) (fencing_token : Z) (retryable : bool)
| TaskCancel (name : string)
| EffectPrepare (name effect_type : string) (payload : Value) (risk idempotency_key : string)
    (required_approvals : Z)
| EffectApprove (name principal : string)
| EffectCommit (name : string) (result : Value)
| EffectAbort (name : string)
| HandoffOffer (name resource from to : string) (from_token : Z) (context : Value) (ttl_ms : Z)
| HandoffAccept (name to : string)
| HandoffReject (name to : string)
| DecisionPropose (name question : string) (options : list string) (policy : DecisionPolicy)
    (deadline_ms : option Z)
| DecisionVote (name voter : string) (choice : option string) (confidence : f32) (weight : Z)
    (veto : bool) (evidence : list string)
| BudgetSet (name : string) (limit : BudgetAmount)
| BudgetReserve (name reservation_id holder : string) (amount : BudgetAmount)
| BudgetCommit (name reservation_id : string) (actual : BudgetAmount)
| BudgetRelease (name reservation_id : string)
| ClaimAssert (name subject predicate : string) (value : Value) (confidence : f32) (author : string)
    (evidence : list string) (valid_until_ms : option Z)
| ClaimSupport (name agent : string)
| ClaimContest (name agent reason : string)
| ClaimResolve (name : string) (accepted : bool)
| ClaimSupersede (name superseded_by : string)
| LockAcquire (keys : list string) (holder : string) (ttl_ms : Z) (wait : bool)
    (wait_timeout_ms : option Z)
| LockAcquireV2 (keys : list string) (holder : string) (ttl_ms : Z) (wait : bool)
    (wait_timeout_ms : option Z)
| LockAcquireAttempt (keys : list string) (holder request_id : string) (ttl_ms : Z) (wait : bool)
    (wait_timeout_ms : option Z)
| LockRenew (keys : list string) (holder : string) (fencing_token ttl_ms : Z)
| LockRelease (holder : string) (fencing_token : Z)
| LockCancel (keys : list string) (holder : string)
| LockCancelAttempt (keys : list string) (holder request_id : string)
| SemaphoreAcquire (key holder : string) (limit ttl_ms : Z) (wait : bool) (wait_timeout_ms : option Z)
| SemaphoreAcquireV2 (key holder : string) (limit ttl_ms : Z) (wait : bool) (wait_timeout_ms : option Z)
| SemaphoreAcquireAttempt (key holder request_id : string) (limit ttl_ms : Z) (wait : bool)
    (wait_timeout_ms : option Z)
| SemaphoreRenew (key holder : string) (fencing_token ttl_ms : Z)
| SemaphoreRelease (key holder : string) (fencing_token : Z)
| SemaphoreCancel (key holder : string)
| SemaphoreCancelAttempt (key holder request_id : string)
| RateLimitCheck (key tenant : string) (algorithm : RateLimitAlgorithm) (limit window_ms : Z)
    (refill_per_second : option f64) (cost : Z)
| IdempotencyClaim (key owner : string) (ttl_ms : Z) (retention_ms : option Z)
    (metadata : gmap string string)
| IdempotencyComplete (key owner : string) (fencing_token : Z) (result : option Value)
| IdempotencyRenew (key owner : string) (fencing_token ttl_ms : Z)
| IdempotencyAbandon (key owner : string) (fencing_token : Z)
| ScheduleUpsert (name : string) (cron : option string) (one_shot_at_ms : option Z)
    (target : ScheduleTarget) (delivery : DeliverySemantics) (max_retries now_ms : Z)
| ScheduleRecordRun (name fire_id : string) (fired_at_ms : Z)
| ScheduleClaimFire (name : string) (fire_id_ms : Z)
| ScheduleRecordResult (name : string) (fire_id_ms : Z) (delivered : bool) (attempts : Z)
    (error : option string)
| ScheduleSetEnabled (name : string) (enabled : bool) (now_ms : Z) (catch_up : bool)
| ScheduleDelete (name : string)
| ScheduleTrigger (name : string) (fire_id_ms requested_at_ms : Z)
| ScheduleRecordResultV2 (name : string) (fire_id_ms : Z) (delivered : bool) (attempts : Z)
    (error error_class : option string) (http_status : option Z) (duration_ms completed_at_ms : Z)
    (trace_id span_id : option string)
| ElectionCampaign (name candidate : string) (ttl_ms : Z) (metadata : gmap string string)
| ElectionRenew (name candidate : string) (fencing_token : Z) (ttl_ms : option Z)
| ElectionResign (name candidate : string) (fencing_token : Z)
| ServiceRegister (service instance_id address : string) (ttl_ms : Z) (metadata : gmap string string)
| ServiceHeartbeat (service instance_id : string) (ttl_ms : option Z)
| ServiceDeregister (service instance_id : string).

(** The routing keys of the two coordinator shards, constants of the crate
    [fiducia_routing]. *)
Class Routing := {
  LOCK_DOMAIN : string;
  SERVICE_DOMAIN : string
}.

Section routing.
Context `{Routing}.

Definition routing_key (command : Command) : string :=
  match command with
  | ActivateCommandProtocol _ => COMMAND_PROTOCOL_ROUTING_KEY
  | LockAcquire _ _ _ _ _ | LockAcquireV2 _ _ _ _ _ | LockAcquireAttempt _ _ _ _ _ _
  | LockRenew _ _ _ _ | LockRelease _ _ | LockCancel _ _ | LockCancelAttempt _ _ _
  | SemaphoreAcquire _ _ _ _ _ _ | SemaphoreAcquireV2 _ _ _ _ _ _
  | SemaphoreAcquireAttempt _ _ _ _ _ _ _ | SemaphoreRenew _ _ _ _ | SemaphoreRelease _ _ _
  | SemaphoreCancel _ _ | SemaphoreCancelAttempt _ _ _ => LOCK_DOMAIN
  | KvPut key _ _ _ | KvDelete key | CounterAdd key _ _ | CounterSet key _ _
  | RateLimitCheck key _ _ _ _ _ _ | IdempotencyClaim key _ _ _ _ | IdempotencyComplete key _ _ _
  | IdempotencyRenew key _ _ _ | IdempotencyAbandon key _ _ => key
  | BarrierCreate name _ _ _ | BarrierArrive name _ _ _ => name
  | TaskCreate name _ _ _ | TaskClaim name _ _ | TaskProgress name _ _ _ _ | TaskComplete name _ _ _
  | TaskFail name _ _ _ | TaskCancel name => name
  | EffectPrepare name _ _ _ _ _ | EffectApprove name _ | EffectCommit name _ | EffectAbort name => name
  | HandoffOffer name _ _ _ _ _ _ | HandoffAccept name _ | HandoffReject name _ => name
  | DecisionPropose name _ _ _ _ | DecisionVote name _ _ _ _ _ _ => name
  | BudgetSet name _ | BudgetReserve name _ _ _ | BudgetCommit name _ _ | BudgetRelease name _ => name
  | ClaimAssert name _ _ _ _ _ _ _ | ClaimSupport name _ | ClaimContest name _ _ | ClaimResolve name _
  | ClaimSupersede name _ => name
  | ScheduleUpsert name _ _ _ _ _ _ | ScheduleRecordRun name _ _ | ScheduleClaimFire name _
  | ScheduleRecordResult name _ _ _ _ | ScheduleSetEnabled name _ _ _ | ScheduleDelete name
  | ScheduleTrigger name _ _ | ScheduleRecordResultV2 name _ _ _ _ _ _ _ _ _ _ => name
  | ElectionCampaign name _ _ _ | ElectionRenew name _ _ _ | ElectionResign name _ _ => name
  | ServiceRegister _ _ _ _ _ | ServiceHeartbeat _ _ _ | ServiceDeregister _ _ => SERVICE_DOMAIN
  end.

End routing.

(** The [op] attribute of telemetry spans. *)
Definition kind (command : Command) : string :=
  match command with
  | ActivateCommandProtocol _ => "raft.command_protocol.activate"
  | KvPut _ _ _ _ => "kv.put"
  | KvDelete _ => "kv.delete"
  | CounterAdd _ _ _ => "counter.add"
  | CounterSet _ _ _ => "counter.set"
  | BarrierCreate _ _ _ _ => "barrier.create"
  | BarrierArrive _ _ _ _ => "barrier.arrive"
  | TaskCreate _ _ _ _ => "task.create"
  | TaskClaim _ _ _ => "task.claim"
  | TaskProgress _ _ _ _ _ => "task.progress"
  | TaskComplete _ _ _ _ => "task.complete"
  | TaskFail _ _ _ _ => "task.fail"
  | TaskCancel _ => "task.cancel"
  | EffectPrepare _ _ _ _ _ _ => "effect.prepare"
  | EffectApprove _ _ => "effect.approve"
  | EffectCommit _ _ => "effect.commit"
  | EffectAbort _ => "effect.abort"
  | HandoffOffer _ _ _ _ _ _ _ => "handoff.offer"
  | HandoffAccept _ _ => "handoff.accept"
  | HandoffReject _ _ => "handoff.reject"
  | DecisionPropose _ _ _ _ _ => "decision.propose"
  | DecisionVote _ _ _ _ _ _ _ => "decision.vote"
  | BudgetSet _ _ => "budget.set"
  | BudgetReserve _ _ _ _ => "budget.reserve"
  | BudgetCommit _ _ _ => "budget.commit"
  | BudgetRelease _ _ => "budget.release"
  | ClaimAssert _ _ _ _ _ _ _ _ => "claim.assert"
  | ClaimSupport _ _ => "claim.support"
  | ClaimContest _ _ _ => "claim.contest"
  | ClaimResolve _ _ => "claim.resolve"
  | ClaimSupersede _ _ => "claim.supersede"
  | LockAcquire _ _ _ _ _ | LockAcquireV2 _ _ _ _ _ | LockAcquireAttempt _ _ _ _ _ _ => "lock.acquire"
  | LockRenew _ _ _ _ => "lock.renew"
  | LockRelease _ _ => "lock.release"
  | LockCancel _ _ | LockCancelAttempt _ _ _ => "lock.cancel"
  | SemaphoreAcquire _ _ _ _ _ _ | SemaphoreAcquireV2 _ _ _ _ _ _
  | SemaphoreAcquireAttempt _ _ _ _ _ _ _ => "semaphore.acquire"
  | SemaphoreRenew _ _ _ _ => "semaphore.renew"
  | SemaphoreRelease _ _ _ => "semaphore.release"
  | SemaphoreCancel _ _ | SemaphoreCancelAttempt _ _ _ => "semaphore.cancel"
  | RateLimitCheck _ _ _ _ _ _ _ => "ratelimit.check"
  | IdempotencyClaim _ _ _ _ _ => "idempotency.claim"
  | IdempotencyComplete _ _ _ _ => "idempotency.complete"
  | IdempotencyRenew _ _ _ _ => "idempotency.renew"
  | IdempotencyAbandon _ _ _ => "idempotency.abandon"
  | ScheduleUpsert _ _ _ _ _ _ _ => "schedule.upsert"
  | ScheduleRecordRun _ _ _ => "schedule.record_run"
  | ScheduleClaimFire _ _ => "schedule.claim_fire"
  | ScheduleRecordResult _ _ _ _ _ | ScheduleRecordResultV2 _ _ _ _ _ _ _ _ _ _ _ =>
      "schedule.record_result"
  | ScheduleSetEnabled _ true _ _ => "schedule.resume"
  | ScheduleSetEnabled _ false _ _ => "schedule.pause"
  | ScheduleDelete _ => "schedule.delete"
  | ScheduleTrigger _ _ _ => "schedule.trigger"
  | ElectionCampaign _ _ _ _ => "election.campaign"
  | ElectionRenew _ _ _ _ => "election.renew"
  | ElectionResign _ _ _ => "election.resign"
  | ServiceRegister _ _ _ _ _ => "service.register"
  | ServiceHeartbeat _ _ _ => "service.heartbeat"
  | ServiceDeregister _ _ => "service.deregister"
  end.

Definition required_protocol (command : Command) : Z :=
  match command with
  | ActivateCommandProtocol version => version
  | LockAcquireV2 _ _ _ _ _ | LockAcquireAttempt _ _ _ _ _ _ | LockRenew _ _ _ _ | LockCancel _ _
  | LockCancelAttempt _ _ _ | SemaphoreAcquireV2 _ _ _ _ _ _ | SemaphoreAcquireAttempt _ _ _ _ _ _ _
  | SemaphoreRenew _ _ _ _ | SemaphoreCancel _ _ | SemaphoreCancelAttempt _ _ _ => LOCK_COMMAND_PROTOCOL
  | ScheduleUpsert _ _ _ (Function _) _ _ _ | ScheduleSetEnabled _ _ _ _ | ScheduleDelete _
  | ScheduleTrigger _ _ _ | ScheduleRecordResultV2 _ _ _ _ _ _ _ _ _ _ _ => CURRENT_COMMAND_PROTOCOL
  | _ => LEGACY_COMMAND_PROTOCOL
  end.

Definition for_active_protocol (command : Command) (active : Z) : result Command Z :=
  let required := required_protocol command in
  if required <=? active then Ok command
  else match command with
  | LockAcquireV2 keys holder ttl_ms wait wait_timeout_ms =>
      if active <? LOCK_COMMAND_PROTOCOL then Ok (LockAcquire keys holder ttl_ms wait wait_timeout_ms)
      else Err (required_protocol command)
  | SemaphoreAcquireV2 key holder limit ttl_ms wait wait_timeout_ms =>
      if active <? LOCK_COMMAND_PROTOCOL then
        Ok (SemaphoreAcquire key holder limit ttl_ms wait wait_timeout_ms)
      else Err (required_protocol command)
  | ScheduleRecordResultV2 name fire_id_ms delivered attempts error _ _ _ _ _ _ =>
      if active <? CURRENT_COMMAND_PROTOCOL then
        Ok (ScheduleRecordResult name fire_id_ms delivered attempts error)
      else Err (required_protocol command)
  | command => Err (required_protocol command)
  end.

(** ** What a rewriting may change *)

(** A rewritten command keeps the shard and the telemetry label of the
    original, and an activated shard (protocol 1 or later) can parse it. *)
Lemma rewritten_same_operation `{Routing} command active command' :
  for_active_protocol command active = Ok command' →
  routing_key command' = routing_key command ∧ kind command' = kind command.
Proof.
  unfold for_active_protocol. case_match; [by intros [= <-]|].
  destruct command; try discriminate; case_match; try discriminate; by intros [= <-].
Qed.

Lemma rewritten_supported command active command' :
  LEGACY_COMMAND_PROTOCOL ≤ active →
  for_active_protocol command active = Ok command' → required_protocol command' ≤ active.
Proof.
  intros Hactive. unfold for_active_protocol. case_match eqn:Hr; [by intros [= <-]; lia|].
  destruct command; try discriminate; case_match; try discriminate; by intros [= <-].
Qed.

(** The commands with a historical form. *)
Definition degradable (command : Command) : bool :=
  match command with
  | LockAcquireV2 _ _ _ _ _ | SemaphoreAcquireV2 _ _ _ _ _ _
  | ScheduleRecordResultV2 _ _ _ _ _ _ _ _ _ _ _ => true
  | _ => false
  end.

(** A proposal is refused exactly when the active protocol does not know the
    command and the command has no historical form; the refusal names the
    protocol to wait for. *)
Lemma refused_exactly command active v :
  for_active_protocol command active = Err v ↔
  active < required_protocol command ∧ degradable command = false ∧ v = required_protocol command.
Proof.
  unfold for_active_protocol.
  destruct (Z.leb_spec (required_protocol command) active) as [Hle|Hgt].
  { split; [discriminate|lia]. }
  destruct command; simpl in *; try (split; [intros [= <-]; eauto | by intros (? & ? & ->)]);
    unfold LOCK_COMMAND_PROTOCOL, CURRENT_COMMAND_PROTOCOL in *;
    rewrite (proj2 (Z.ltb_lt _ _)) by lia; (split; [discriminate | by intros (_ & ? & _)]).
Qed.

(** A command offered to a shard whose committed protocol is [active] is
    either rewritten to a command that protocol can parse, with the same
    operation label and the same shard, and unchanged when the protocol
    already knows it; or refused, which happens exactly when the protocol is
    too old and the command has no historical form, and the refusal reports
    the protocol that would accept it. *)
Theorem protocol_gate `{Routing} (command : Command) (active : Z) :
  LEGACY_COMMAND_PROTOCOL ≤ active →
  match for_active_protocol command active with
  | Ok command' =>
      required_protocol command' ≤ active ∧ kind command' = kind command ∧
      routing_key command' = routing_key command ∧
      (required_protocol command ≤ active → command' = command)
  | Err v =>
      active < v ∧ v = required_protocol command ∧ degradable command = false ∧
      ∀ active', v ≤ active' → for_active_protocol command active' = Ok command
  end.
Proof.
  intros Hactive. destruct (for_active_protocol command active) as [command'|v] eqn:Hf.
  - pose proof (rewritten_same_operation _ _ _ Hf) as [? ?].
    split_and!; eauto using rewritten_supported.
    intros Hle. unfold for_active_protocol in Hf. rewrite (proj2 (Z.leb_le _ _) Hle) in Hf. by injection Hf.
  - apply refused_exactly in Hf as (Hlt & Hdeg & ->). split_and!; [done..|].
    intros active' Hle. unfold for_active_protocol. by rewrite (proj2 (Z.leb_le _ _) Hle).
Qed.

Definition plain_routing : Routing := {| LOCK_DOMAIN := "locks"; SERVICE_DOMAIN := "services" |}.

Lemma protocol_gate_witness :
  for_active_protocol (LockAcquireV2 ["a"] "h" 5 true None) 1 = Ok (LockAcquire ["a"] "h" 5 true None) ∧
  required_protocol (LockAcquire ["a"] "h" 5 true None) ≤ 1.
Proof.
  split; [reflexivity|].
  apply (@protocol_gate plain_routing (LockAcquireV2 ["a"] "h" 5 true None) 1).
  vm_compute. discriminate.
Defined.
