(* ===== verification/StateMachine.v ===== *)
(** The replicated state machine of src/state.rs: the store that collects the
    state of every component, the expiry sweep that precedes each command, and
    [apply_at], the function every replica folds over the committed log. *)

From S2P Require Import Prelude Json Fencing Fifo Cancellation Locks Semaphores Registers Barriers Tasks Effects Handoffs Decisions Budgets Claims Text Idempotency Elections Services RateLimit Schedules Command.

(** ** The store *)

Record Store : Type := mkStore {
  command_protocol : Z;
  revision : Z;
  fencing_counter : Z;
  kv : kv_map;
  counters : counter_map;
  barriers : gmap string BarrierRecord;
  tasks : task_map;
  effects : effect_map;
  handoffs : handoff_map;
  decisions : decision_map;
  budgets : budget_map;
  claims : claim_map;
  lock_table : LockManager;
  semaphore_table : gmap string Semaphore;
  lock_ledger : CancellationLedger;
  semaphore_ledger : CancellationLedger;
  rate_limits : gmap string RateLimitRecord;
  idempotency : idem_map;
  elections : election_map;
  schedules : schedule_map;
  services : service_map
}.

#[export] Instance Store_default : Inhabited Store := populate
  (mkStore LEGACY_COMMAND_PROTOCOL 0 0 ∅ ∅ ∅ ∅ ∅ ∅ ∅ ∅ ∅ no_locks ∅ empty_ledger empty_ledger ∅ ∅ ∅ ∅ ∅).

Definition set_protocol (st : Store) (v : Z) : Store :=
  mkStore v (revision st) (fencing_counter st) (kv st) (counters st) (barriers st) (tasks st)
    (effects st) (handoffs st) (decisions st) (budgets st) (claims st) (lock_table st)
    (semaphore_table st) (lock_ledger st) (semaphore_ledger st) (rate_limits st) (idempotency st)
    (elections st) (schedules st) (services st).

Definition set_revision (st : Store) (v : Z) : Store :=
  mkStore (command_protocol st) v (fencing_counter st) (kv st) (counters st) (barriers st) (tasks
    st) (effects st) (handoffs st) (decisions st) (budgets st) (claims st) (lock_table st)
    (semaphore_table st) (lock_ledger st) (semaphore_ledger st) (rate_limits st) (idempotency st)
    (elections st) (schedules st) (services st).

Definition set_locks (st : Store) (ctx : LockCtx) : Store :=
  mkStore (command_protocol st) (revision st) (next_fencing_token ctx) (kv st) (counters st)
    (barriers st) (tasks st) (effects st) (handoffs st) (decisions st) (budgets st) (claims st)
    (locks ctx) (semaphore_table st) (lock_cancellations ctx) (semaphore_ledger st) (rate_limits st)
    (idempotency st) (elections st) (schedules st) (services st).

Definition set_semaphores (st : Store) (ctx : SemCtx) : Store :=
  mkStore (command_protocol st) (revision st) (sem_counter ctx) (kv st) (counters st) (barriers st)
    (tasks st) (effects st) (handoffs st) (decisions st) (budgets st) (claims st) (lock_table st)
    (semaphores ctx) (lock_ledger st) (semaphore_cancellations ctx) (rate_limits st) (idempotency
    st) (elections st) (schedules st) (services st).

Definition set_kv (st : Store) (v : kv_map) : Store :=
  mkStore (command_protocol st) (revision st) (fencing_counter st) v (counters st) (barriers st)
    (tasks st) (effects st) (handoffs st) (decisions st) (budgets st) (claims st) (lock_table st)
    (semaphore_table st) (lock_ledger st) (semaphore_ledger st) (rate_limits st) (idempotency st)
    (elections st) (schedules st) (services st).

Definition set_counters (st : Store) (v : counter_map) : Store :=
  mkStore (command_protocol st) (revision st) (fencing_counter st) (kv st) v (barriers st) (tasks
    st) (effects st) (handoffs st) (decisions st) (budgets st) (claims st) (lock_table st)
    (semaphore_table st) (lock_ledger st) (semaphore_ledger st) (rate_limits st) (idempotency st)
    (elections st) (schedules st) (services st).

Definition set_barriers (st : Store) (v : gmap string BarrierRecord) : Store :=
  mkStore (command_protocol st) (revision st) (fencing_counter st) (kv st) (counters st) v (tasks
    st) (effects st) (handoffs st) (decisions st) (budgets st) (claims st) (lock_table st)
    (semaphore_table st) (lock_ledger st) (semaphore_ledger st) (rate_limits st) (idempotency st)
    (elections st) (schedules st) (services st).

Definition set_effects (st : Store) (v : effect_map) : Store :=
  mkStore (command_protocol st) (revision st) (fencing_counter st) (kv st) (counters st) (barriers
    st) (tasks st) v (handoffs st) (decisions st) (budgets st) (claims st) (lock_table st)
    (semaphore_table st) (lock_ledger st) (semaphore_ledger st) (rate_limits st) (idempotency st)
    (elections st) (schedules st) (services st).

Definition set_decisions (st : Store) (v : decision_map) : Store :=
  mkStore (command_protocol st) (revision st) (fencing_counter st) (kv st) (counters st) (barriers
    st) (tasks st) (effects st) (handoffs st) v (budgets st) (claims st) (lock_table st)
    (semaphore_table st) (lock_ledger st) (semaphore_ledger st) (rate_limits st) (idempotency st)
    (elections st) (schedules st) (services st).

Definition set_budgets (st : Store) (v : budget_map) : Store :=
  mkStore (command_protocol st) (revision st) (fencing_counter st) (kv st) (counters st) (barriers
    st) (tasks st) (effects st) (handoffs st) (decisions st) v (claims st) (lock_table st)
    (semaphore_table st) (lock_ledger st) (semaphore_ledger st) (rate_limits st) (idempotency st)
    (elections st) (schedules st) (services st).

Definition set_claims (st : Store) (v : claim_map) : Store :=
  mkStore (command_protocol st) (revision st) (fencing_counter st) (kv st) (counters st) (barriers
    st) (tasks st) (effects st) (handoffs st) (decisions st) (budgets st) v (lock_table st)
    (semaphore_table st) (lock_ledger st) (semaphore_ledger st) (rate_limits st) (idempotency st)
    (elections st) (schedules st) (services st).

Definition set_rate_limits (st : Store) (v : gmap string RateLimitRecord) : Store :=
  mkStore (command_protocol st) (revision st) (fencing_counter st) (kv st) (counters st) (barriers
    st) (tasks st) (effects st) (handoffs st) (decisions st) (budgets st) (claims st) (lock_table
    st) (semaphore_table st) (lock_ledger st) (semaphore_ledger st) v (idempotency st) (elections
    st) (schedules st) (services st).

Definition set_schedules (st : Store) (v : schedule_map) : Store :=
  mkStore (command_protocol st) (revision st) (fencing_counter st) (kv st) (counters st) (barriers
    st) (tasks st) (effects st) (handoffs st) (decisions st) (budgets st) (claims st) (lock_table
    st) (semaphore_table st) (lock_ledger st) (semaphore_ledger st) (rate_limits st) (idempotency
    st) (elections st) v (services st).

Definition set_services (st : Store) (v : service_map) : Store :=
  mkStore (command_protocol st) (revision st) (fencing_counter st) (kv st) (counters st) (barriers
    st) (tasks st) (effects st) (handoffs st) (decisions st) (budgets st) (claims st) (lock_table
    st) (semaphore_table st) (lock_ledger st) (semaphore_ledger st) (rate_limits st) (idempotency
    st) (elections st) (schedules st) v.

Definition set_tasks (st : Store) (c : Z) (v : task_map) : Store :=
  mkStore (command_protocol st) (revision st) c (kv st) (counters st) (barriers st) v (effects st)
    (handoffs st) (decisions st) (budgets st) (claims st) (lock_table st) (semaphore_table st)
    (lock_ledger st) (semaphore_ledger st) (rate_limits st) (idempotency st) (elections st)
    (schedules st) (services st).

Definition set_handoffs (st : Store) (c : Z) (v : handoff_map) : Store :=
  mkStore (command_protocol st) (revision st) c (kv st) (counters st) (barriers st) (tasks st)
    (effects st) v (decisions st) (budgets st) (claims st) (lock_table st) (semaphore_table st)
    (lock_ledger st) (semaphore_ledger st) (rate_limits st) (idempotency st) (elections st)
    (schedules st) (services st).

Definition set_idempotency (st : Store) (c : Z) (v : idem_map) : Store :=
  mkStore (command_protocol st) (revision st) c (kv st) (counters st) (barriers st) (tasks st)
    (effects st) (handoffs st) (decisions st) (budgets st) (claims st) (lock_table st)
    (semaphore_table st) (lock_ledger st) (semaphore_ledger st) (rate_limits st) v (elections st)
    (schedules st) (services st).

Definition set_elections (st : Store) (c : Z) (v : election_map) : Store :=
  mkStore (command_protocol st) (revision st) c (kv st) (counters st) (barriers st) (tasks st)
    (effects st) (handoffs st) (decisions st) (budgets st) (claims st) (lock_table st)
    (semaphore_table st) (lock_ledger st) (semaphore_ledger st) (rate_limits st) (idempotency st) v
    (schedules st) (services st).

Definition lock_ctx (st : Store) : LockCtx := mkLockCtx (fencing_counter st) (lock_table st) (lock_ledger st).
Definition sem_ctx (st : Store) : SemCtx :=
  mkSemCtx (fencing_counter st) (semaphore_table st) (semaphore_ledger st).

(** Every component's command returns its new state and the JSON answer; these
    put the new state back into the store. *)
Definition lift {A} (put : Store → A → Store) (st : Store) (r : A * Value) : Store * Value :=
  (put st r.1, r.2).
Definition lift_token {A} (put : Store → Z → A → Store) (st : Store) (r : Z * A * Value) : Store * Value :=
  (put st r.1.1 r.1.2, r.2).

(** ** The sweep *)

Section machine.
Context `{External, HashOrder}.

Definition expire_due (st : Store) (now : Z) : Store :=
  let st := set_kv st (kv_expire_due (kv st) now) in
  let st := set_locks st (locks_expire_due (lock_ctx st) now) in
  let st := set_semaphores st (semaphores_expire_due (sem_ctx st) now) in
  let st := set_elections st (fencing_counter st) (elections_expire_due (elections st) now) in
  let st := set_idempotency st (fencing_counter st) (idempotency_expire_due (idempotency st) now) in
  set_services st (services_expire_due (services st) now).

(** ** Commands *)

(** The arm of [ActivateCommandProtocol]. *)
Definition apply_activation (st : Store) (revision version : Z) : Store * Value :=
  if (LOCK_COMMAND_PROTOCOL <=? version) && (version <=? CURRENT_COMMAND_PROTOCOL)
     && (command_protocol st <=? version)
  then (set_protocol st version,
        json! ["activated" :- true; "command_protocol" :- version; "revision" :- revision])
  else if version =? command_protocol st
  then (st, json! ["activated" :- true; "duplicate" :- true; "command_protocol" :- command_protocol st;
                   "revision" :- revision])
  else (st, json! ["activated" :- false; "reason" :- "unsupported_or_regressive_command_protocol";
                   "requested" :- version; "command_protocol" :- command_protocol st;
                   "revision" :- revision]).

Definition dispatch (st : Store) (revision now : Z) (command : Command) : Store * Value :=
  match command with
  | ActivateCommandProtocol version => apply_activation st revision version
  | KvPut key value ttl_ms prev_revision =>
      lift set_kv st (apply_kv_put (kv st) revision now key value ttl_ms prev_revision)
  | KvDelete key => lift set_kv st (apply_kv_delete (kv st) revision key)
  | CounterAdd key delta prev_revision =>
      lift set_counters st (apply_counter_add (counters st) revision key delta prev_revision)
  | CounterSet key value prev_revision =>
      lift set_counters st (apply_counter_set (counters st) revision key value prev_revision)
  | BarrierCreate name policy expected deadline_ms =>
      lift set_barriers st (apply_barrier_create (barriers st) now name policy expected deadline_ms)
  | BarrierArrive name participant weight veto =>
      lift set_barriers st (apply_barrier_arrive (barriers st) now name participant weight veto)
  | TaskCreate name task_type payload deadline_ms =>
      lift (λ st, set_tasks st (fencing_counter st)) st
        (apply_task_create (tasks st) name task_type payload deadline_ms)
  | TaskClaim name worker ttl_ms =>
      lift_token set_tasks st (apply_task_claim (fencing_counter st) (tasks st) now name worker ttl_ms)
  | TaskProgress name worker fencing_token percent checkpoint =>
      lift (λ st, set_tasks st (fencing_counter st)) st
        (apply_task_progress (tasks st) now name worker fencing_token percent checkpoint)
  | TaskComplete name worker fencing_token result =>
      lift (λ st, set_tasks st (fencing_counter st)) st
        (apply_task_complete (tasks st) now name worker fencing_token result)
  | TaskFail name worker fencing_token retryable =>
      lift (λ st, set_tasks st (fencing_counter st)) st
        (apply_task_fail (tasks st) now name worker fencing_token retryable)
  | TaskCancel name => lift (λ st, set_tasks st (fencing_counter st)) st (apply_task_cancel (tasks st) name)
  | EffectPrepare name effect_type payload risk idempotency_key required_approvals =>
      lift set_effects st
        (apply_effect_prepare (effects st) name effect_type payload risk idempotency_key required_approvals)
  | EffectApprove name principal => lift set_effects st (apply_effect_approve (effects st) name principal)
  | EffectCommit name result => lift set_effects st (apply_effect_commit (effects st) name result)
  | EffectAbort name => lift set_effects st (apply_effect_abort (effects st) name)
  | HandoffOffer name resource from to from_token context ttl_ms =>
      lift (λ st, set_handoffs st (fencing_counter st)) st
        (apply_handoff_offer (fencing_counter st) (handoffs st) now name resource from to from_token context ttl_ms)
  | HandoffAccept name to =>
      lift_token set_handoffs st (apply_handoff_accept (fencing_counter st) (handoffs st) now name to)
  | HandoffReject name to =>
      lift (λ st, set_handoffs st (fencing_counter st)) st (apply_handoff_reject (handoffs st) now name to)
  | DecisionPropose name question options policy deadline_ms =>
      lift set_decisions st
        (apply_decision_propose (decisions st) now name question options policy deadline_ms)
  | DecisionVote name voter choice confidence weight veto evidence =>
      lift set_decisions st
        (apply_decision_vote (decisions st) now name voter choice confidence weight veto evidence)
  | BudgetSet name limit => lift set_budgets st (apply_budget_set (budgets st) name limit)
  | BudgetReserve name reservation_id holder amount =>
      lift set_budgets st (apply_budget_reserve (budgets st) name reservation_id holder amount)
  | BudgetCommit name reservation_id actual =>
      lift set_budgets st (apply_budget_commit (budgets st) name reservation_id actual)
  | BudgetRelease name reservation_id =>
      lift set_budgets st (apply_budget_release (budgets st) name reservation_id)
  | ClaimAssert name subject predicate value confidence author evidence valid_until_ms =>
      lift set_claims st
        (apply_claim_assert (claims st) name subject predicate value confidence author evidence valid_until_ms)
  | ClaimSupport name agent => lift set_claims st (apply_claim_support (claims st) name agent)
  | ClaimContest name agent reason => lift set_claims st (apply_claim_contest (claims st) name agent reason)
  | ClaimResolve name accepted => lift set_claims st (apply_claim_resolve (claims st) name accepted)
  | ClaimSupersede name superseded_by =>
      lift set_claims st (apply_claim_supersede (claims st) name superseded_by)
  | LockAcquire keys holder ttl_ms wait wait_timeout_ms =>
      lift set_locks st (apply_lock_acquire (lock_ctx st) revision now
        (mkLockAcquire keys holder ttl_ms wait wait_timeout_ms None true))
  | LockAcquireV2 keys holder ttl_ms wait wait_timeout_ms =>
      lift set_locks st (apply_lock_acquire (lock_ctx st) revision now
        (mkLockAcquire keys holder ttl_ms wait wait_timeout_ms None false))
  | LockAcquireAttempt keys holder request_id ttl_ms wait wait_timeout_ms =>
      lift set_locks st (apply_lock_acquire (lock_ctx st) revision now
        (mkLockAcquire keys holder ttl_ms wait wait_timeout_ms (Some request_id) false))
  | LockRenew keys holder fencing_token ttl_ms =>
      lift set_locks st (apply_lock_renew (lock_ctx st) revision now keys holder fencing_token ttl_ms)
  | LockRelease holder fencing_token =>
      lift set_locks st (apply_lock_release (lock_ctx st) revision now holder fencing_token)
  | LockCancel keys holder => lift set_locks st (apply_lock_cancel (lock_ctx st) revision now keys holder None)
  | LockCancelAttempt keys holder request_id =>
      lift set_locks st (apply_lock_cancel (lock_ctx st) revision now keys holder (Some request_id))
  | SemaphoreAcquire key holder limit ttl_ms wait wait_timeout_ms =>
      lift set_semaphores st (apply_semaphore_acquire (sem_ctx st) revision now
        (mkSemAcquire key holder limit ttl_ms wait wait_timeout_ms None true))
  | SemaphoreAcquireV2 key holder limit ttl_ms wait wait_timeout_ms =>
      lift set_semaphores st (apply_semaphore_acquire (sem_ctx st) revision now
        (mkSemAcquire key holder limit ttl_ms wait wait_timeout_ms None false))
  | SemaphoreAcquireAttempt key holder request_id limit ttl_ms wait wait_timeout_ms =>
      lift set_semaphores st (apply_semaphore_acquire (sem_ctx st) revision now
        (mkSemAcquire key holder limit ttl_ms wait wait_timeout_ms (Some request_id) false))
  | SemaphoreRenew key holder fencing_token ttl_ms =>
      lift set_semaphores st (apply_semaphore_renew (sem_ctx st) revision now key holder fencing_token ttl_ms)
  | SemaphoreRelease key holder fencing_token =>
      lift set_semaphores st (apply_semaphore_release (sem_ctx st) revision now key holder fencing_token)
  | SemaphoreCancel key holder =>
      lift set_semaphores st (apply_semaphore_cancel (sem_ctx st) revision now key holder None)
  | SemaphoreCancelAttempt key holder request_id =>
      lift set_semaphores st (apply_semaphore_cancel (sem_ctx st) revision now key holder (Some request_id))
  | RateLimitCheck key tenant algorithm limit window_ms refill_per_second cost =>
      lift set_rate_limits st (apply_rate_limit_check (rate_limits st) now
        (mkRateInput key tenant algorithm limit window_ms refill_per_second (Z.max cost 1)))
  | IdempotencyClaim key owner ttl_ms retention_ms metadata =>
      lift_token set_idempotency st
        (apply_idempotency_claim (fencing_counter st) (idempotency st) revision now key owner ttl_ms
           retention_ms metadata)
  | IdempotencyComplete key owner fencing_token result =>
      lift (λ st, set_idempotency st (fencing_counter st)) st
        (apply_idempotency_complete (idempotency st) revision now key owner fencing_token result)
  | IdempotencyRenew key owner fencing_token ttl_ms =>
      lift (λ st, set_idempotency st (fencing_counter st)) st
        (apply_idempotency_renew (idempotency st) revision now key owner fencing_token ttl_ms)
  | IdempotencyAbandon key owner fencing_token =>
      lift (λ st, set_idempotency st (fencing_counter st)) st
        (apply_idempotency_abandon (idempotency st) revision key owner fencing_token)
  | ScheduleUpsert name cron one_shot_at_ms target delivery max_retries now_ms =>
      lift set_schedules st
        (apply_schedule_upsert (schedules st) name cron one_shot_at_ms target delivery max_retries now_ms)
  | ScheduleRecordRun name fire_id fired_at_ms =>
      lift set_schedules st (apply_schedule_record_run (schedules st) name fire_id fired_at_ms)
  | ScheduleClaimFire name fire_id_ms =>
      lift set_schedules st (apply_schedule_claim_fire (schedules st) name fire_id_ms)
  | ScheduleRecordResult name fire_id_ms delivered attempts error =>
      lift set_schedules st (apply_schedule_record_result (schedules st) name fire_id_ms delivered attempts
        error None None None None None None)
  | ScheduleSetEnabled name enabled now_ms catch_up =>
      lift set_schedules st (apply_schedule_set_enabled (schedules st) name enabled now_ms catch_up)
  | ScheduleDelete name => lift set_schedules st (apply_schedule_delete (schedules st) name)
  | ScheduleTrigger name fire_id_ms requested_at_ms =>
      lift set_schedules st (apply_schedule_trigger (schedules st) name fire_id_ms requested_at_ms)
  | ScheduleRecordResultV2 name fire_id_ms delivered attempts error error_class http_status duration_ms
      completed_at_ms trace_id span_id =>
      lift set_schedules st (apply_schedule_record_result (schedules st) name fire_id_ms delivered attempts
        error error_class http_status (Some duration_ms) (Some completed_at_ms) trace_id span_id)
  | ElectionCampaign name candidate ttl_ms metadata =>
      lift_token set_elections st
        (apply_election_campaign (fencing_counter st) (elections st) revision now name candidate ttl_ms metadata)
  | ElectionRenew name candidate fencing_token ttl_ms =>
      lift (λ st, set_elections st (fencing_counter st)) st
        (apply_election_renew (elections st) now name candidate fencing_token ttl_ms)
  | ElectionResign name candidate fencing_token =>
      lift (λ st, set_elections st (fencing_counter st)) st
        (apply_election_resign (elections st) name candidate fencing_token)
  | ServiceRegister service instance_id address ttl_ms metadata =>
      lift set_services st
        (apply_service_register (services st) now service instance_id address ttl_ms metadata)
  | ServiceHeartbeat service instance_id ttl_ms =>
      lift set_services st (apply_service_heartbeat (services st) now service instance_id ttl_ms)
  | ServiceDeregister service instance_id =>
      lift set_services st (apply_service_deregister (services st) service instance_id)
  end.

Record ApplyResult : Type := mkApplied { applied_revision : Z; output : Value }.

Definition is_activation (command : Command) : bool :=
  match command with ActivateCommandProtocol _ => true | _ => false end.

(** What [apply_at] does before it dispatches: stamp the protocol of an
    ordinary command, sweep, and advance the revision. *)
Definition prepare (st : Store) (command : Command) (now : Z) : Store :=
  if is_activation command then st
  else
    let st := set_protocol st (Z.max (command_protocol st) (required_protocol command)) in
    let st := expire_due st now in
    set_revision st (wrap_add (revision st) 1).

Definition apply_at (st : Store) (command : Command) (proposed_at_ms : Z) : Store * ApplyResult :=
  let st := prepare st command proposed_at_ms in
  let '(st', out) := dispatch st (revision st) proposed_at_ms command in
  (st', mkApplied (revision st) out).

(** Replaying a committed log. *)
Definition apply_log (st : Store) (log : list (Command * Z)) : Store :=
  foldl (λ st e, (apply_at st e.1 e.2).1) st log.

End machine.
