(* ===== verification/Authority.v ===== *)
(** Fencing across the whole machine: every authority the store records (a lock
    grant, a semaphore permit, an idempotency claim, a leadership, a task lease,
    an accepted handoff) carries a token of the one counter, and no two
    authorities ever carry the same token. *)

From S2P Require Import Prelude Json Fencing Fifo Cancellation Locks Semaphores Registers Tasks Handoffs Idempotency Elections Services Command StateMachine.

(** ** Token families *)

(** A family says which authority, of an index type, carries which token.  One
    step of the machine may drop tokens and add tokens above the counter. *)
Record evolves {A} (c : Z) (F : A → Z → Prop) (c' : Z) (F' : A → Z → Prop) : Prop := {
  ev_counter : c ≤ c';
  ev_fresh a t : F' a t → F a t ∨ c < t ≤ c';
  ev_single a b t : F' a t → F' b t → c < t → a = b
}.

Record exclusive {A} (c : Z) (F : A → Z → Prop) : Prop := {
  ex_issued a t : F a t → t ≤ c;
  ex_single a b t : F a t → F b t → a = b
}.

Lemma evolves_sub {A} c c' (F F' : A → Z → Prop) :
  c ≤ c' → (∀ a t, F a t → t ≤ c) → (∀ a t, F' a t → F a t) → evolves c F c' F'.
Proof. intros Hc Hi Hs. split; [done|auto|]. intros a b t Ha _ Hlt. apply Hs, Hi in Ha. lia. Qed.

Lemma evolves_trans {A} c1 c2 c3 (F1 F2 F3 : A → Z → Prop) :
  evolves c1 F1 c2 F2 → evolves c2 F2 c3 F3 → evolves c1 F1 c3 F3.
Proof.
  intros [C1 N1 S1] [C2 N2 S2]. split; [lia| |].
  - intros a t [H|H]%N2; [apply N1 in H as [?|?]; [by left|right; lia]|right; lia].
  - intros a b t Ha Hb Hlt. destruct (decide (c2 < t)); [by eapply S2|].
    apply N2 in Ha as [Ha|?]; [|lia]. apply N2 in Hb as [Hb|?]; [|lia]. by eapply S1.
Qed.

Lemma evolves_exclusive {A} c c' (F F' : A → Z → Prop) :
  exclusive c F → evolves c F c' F' → exclusive c' F'.
Proof.
  intros [I S] [C N N2]. split.
  - intros a t [H%I|?]%N; lia.
  - intros a b t Ha Hb. destruct (decide (c < t)) as [|Hle]; [by eapply N2|].
    apply N in Ha as [Ha|?]; [|lia]. apply N in Hb as [Hb|?]; [|lia]. by eapply S.
Qed.

Lemma evolves_issued {A} c c' (F F' : A → Z → Prop) :
  evolves c F c' F' → (∀ a t, F a t → t ≤ c) → ∀ a t, F' a t → t ≤ c'.
Proof. intros [C N _] Hi a t [H%Hi|?]%N; lia. Qed.

(** Adding one authority with a fresh token. *)
Lemma evolves_mint {A} c t0 (a0 : A) (F F' : A → Z → Prop) :
  c < t0 → (∀ a t, F a t → t ≤ c) → (∀ a t, F' a t → F a t ∨ (a = a0 ∧ t = t0)) → evolves c F t0 F'.
Proof.
  intros Hc Hi H. split; [lia| |].
  - intros a t [?|[-> ->]]%H; [by left|right; lia].
  - intros a b t [Ha|[-> ->]]%H [Hb|[-> Hb]]%H Hlt; try (apply Hi in Ha; lia); try (apply Hi in Hb; lia).
    done.
Qed.

(** The family of a map whose records carry at most one token each. *)
Section maps.
Context {V : Type} (token : V → option Z).
Implicit Types m : gmap string V.

Definition map_carries m (k : string) (t : Z) : Prop := ∃ v, m !! k = Some v ∧ token v = Some t.

Lemma map_kept c m m' :
  (∀ k t, map_carries m k t → t ≤ c) →
  (∀ k v', m' !! k = Some v' → token v' = None ∨ ∃ v, m !! k = Some v ∧ token v' = token v) →
  evolves c (map_carries m) c (map_carries m').
Proof.
  intros Hi H. apply evolves_sub; [done..|]. intros k t (v' & Hv' & Ht).
  destruct (H _ _ Hv') as [?|(v & Hv & E)]; [congruence|]. exists v. split; congruence.
Qed.

Lemma map_replaced c m k v v' :
  (∀ k t, map_carries m k t → t ≤ c) → m !! k = Some v → token v' = token v →
  evolves c (map_carries m) c (map_carries (<[k := v']> m)).
Proof.
  intros Hi Hk E. apply map_kept; [done|]. intros k0 v0 [[-> <-]|[? H0]]%lookup_insert_Some; eauto.
Qed.

Lemma map_blank c m k v' :
  (∀ k t, map_carries m k t → t ≤ c) → token v' = None →
  evolves c (map_carries m) c (map_carries (<[k := v']> m)).
Proof.
  intros Hi E. apply map_kept; [done|]. intros k0 v0 [[-> <-]|[? H0]]%lookup_insert_Some; eauto.
Qed.

Lemma map_minted c m k v' t :
  (∀ k t, map_carries m k t → t ≤ c) → c < t → token v' = Some t →
  evolves c (map_carries m) t (map_carries (<[k := v']> m)).
Proof.
  intros Hi Hlt E. apply (evolves_mint _ _ k); [done..|].
  intros k0 t0 (v0 & [[-> <-]|[? H0]]%lookup_insert_Some & Ht0); [right|left; by exists v0].
  split; congruence.
Qed.

Lemma map_shrunk c m m' :
  (∀ k t, map_carries m k t → t ≤ c) → m' ⊆ m → evolves c (map_carries m) c (map_carries m').
Proof.
  intros Hi Hsub. apply map_kept; [done|]. intros k v' Hv'. right. exists v'. split; [|done].
  by eapply lookup_weaken.
Qed.

Lemma map_deleted c m k :
  (∀ k t, map_carries m k t → t ≤ c) → evolves c (map_carries m) c (map_carries (delete k m)).
Proof. intros. apply map_shrunk; [done|]. apply delete_subseteq. Qed.

Lemma map_untouched c c' m :
  c ≤ c' → (∀ k t, map_carries m k t → t ≤ c) → evolves c (map_carries m) c' (map_carries m).
Proof. intros. by apply evolves_sub. Qed.
End maps.

Lemma retain_sub {V} (f : string → V → bool) (m : gmap string V) : retain f m ⊆ m.
Proof. apply map_subseteq_spec. intros k v. rewrite lookup_retain_Some. by intros [? _]. Qed.

#[export] Hint Resolve map_replaced map_minted map_blank map_shrunk map_untouched Z.le_refl retain_sub
  map_deleted : fid.

(** ** Single-owner records *)

Definition task_token (r : TaskRecord) : option Z := if t_token r =? 0 then None else Some (t_token r).
Definition claim_token (r : IdempotencyRecord) : option Z := Some (i_token r).
Definition leader_token (l : Leadership) : option Z := Some (l_token l).

Section records.
Context (c : Z).

Lemma claim_task_tokens ts now name worker ttl :
  0 ≤ c → (∀ k t, map_carries task_token ts k t → t ≤ c) →
  let '(c', ts', _) := apply_task_claim c ts now name worker ttl in
  evolves c (map_carries task_token ts) c' (map_carries task_token ts').
Proof.
  intros Hc Hi. unfold apply_task_claim. destruct (next_token c) as [t|] eqn:Ht; [|eauto with fid].
  apply next_token_Some in Ht as [-> ?]. repeat case_goal; simplify_eq; try (apply map_untouched; [lia|done]).
  apply map_minted; [done|lia|]. unfold task_token. simpl. destruct (Z.eqb_spec (c + 1) 0); done || lia.
Qed.

(** The other task commands keep the token of the record they touch. *)
Lemma owner_task_tokens ts now name worker tok percent v retryable task_type deadline :
  (∀ k t, map_carries task_token ts k t → t ≤ c) →
  let same ts' := evolves c (map_carries task_token ts) c (map_carries task_token ts') in
  same (apply_task_create ts name task_type v deadline).1 ∧
  same (apply_task_progress ts now name worker tok percent v).1 ∧
  same (apply_task_complete ts now name worker tok v).1 ∧
  same (apply_task_fail ts now name worker tok retryable).1 ∧
  same (apply_task_cancel ts name).1.
Proof.
  intros Hi. unfold apply_task_create, apply_task_progress, apply_task_complete, apply_task_fail,
    apply_task_cancel, task_fenced.
  split_and!; destruct (ts !! name) eqn:E; repeat case_goal; simpl; subst; eauto with fid.
Qed.

Lemma handoff_accept_tokens hs now name to :
  (∀ k t, map_carries h_to_token hs k t → t ≤ c) →
  let '(c', hs', _) := apply_handoff_accept c hs now name to in
  evolves c (map_carries h_to_token hs) c' (map_carries h_to_token hs').
Proof.
  intros Hi. unfold apply_handoff_accept. destruct (handoff_guard _ _ _ _); [eauto with fid|].
  destruct (mint_token_above _ _) as [t|] eqn:Ht; [|eauto with fid].
  apply mint_token_above_Some in Ht as [? ?]. apply map_minted; [done|lia|done].
Qed.

Lemma handoff_other_tokens hs now name resource from to tok context ttl :
  (∀ k t, map_carries h_to_token hs k t → t ≤ c) →
  let same hs' := evolves c (map_carries h_to_token hs) c (map_carries h_to_token hs') in
  same (apply_handoff_offer c hs now name resource from to tok context ttl).1 ∧
  same (apply_handoff_reject hs now name to).1.
Proof.
  intros Hi. unfold apply_handoff_offer, apply_handoff_reject. split.
  - repeat case_goal; simpl; eauto with fid.
  - destruct (handoff_guard hs now name to) as [|r] eqn:E; simpl; [eauto with fid|].
    apply handoff_guard_inr in E as [? _]. eauto with fid.
Qed.

Lemma idempotency_claim_tokens m rev now key owner ttl ret meta :
  (∀ k t, map_carries claim_token m k t → t ≤ c) →
  let '(c', m', _) := apply_idempotency_claim c m rev now key owner ttl ret meta in
  evolves c (map_carries claim_token m) c' (map_carries claim_token m').
Proof.
  intros Hi. unfold apply_idempotency_claim. repeat case_goal; eauto with fid.
  apply map_minted; [done| |done]. by apply (mint_gt (mint := next_token)).
Qed.

Lemma idempotency_other_tokens m rev now key owner tok ttl v :
  (∀ k t, map_carries claim_token m k t → t ≤ c) →
  let same m' := evolves c (map_carries claim_token m) c (map_carries claim_token m') in
  same (apply_idempotency_complete m rev now key owner tok v).1 ∧
  same (apply_idempotency_renew m rev now key owner tok ttl).1 ∧
  same (apply_idempotency_abandon m rev key owner tok).1 ∧
  same (idempotency_expire_due m now).
Proof.
  intros Hi. unfold apply_idempotency_complete, apply_idempotency_renew, apply_idempotency_abandon.
  split_and!; try (unfold idempotency_expire_due; eauto with fid; fail);
    destruct (m !! key) eqn:E; repeat case_goal; simpl; eauto with fid.
Qed.

Lemma campaign_tokens es rev now name candidate ttl meta :
  (∀ k t, map_carries leader_token es k t → t ≤ c) →
  let '(c', es', _) := apply_election_campaign c es rev now name candidate ttl meta in
  evolves c (map_carries leader_token es) c' (map_carries leader_token es').
Proof.
  intros Hi. unfold apply_election_campaign. repeat case_goal; eauto with fid.
  apply map_minted; [done| |done]. by apply (mint_gt (mint := next_token)).
Qed.

Lemma election_other_tokens es now name candidate tok ttl :
  (∀ k t, map_carries leader_token es k t → t ≤ c) →
  let same es' := evolves c (map_carries leader_token es) c (map_carries leader_token es') in
  same (apply_election_renew es now name candidate tok ttl).1 ∧
  same (apply_election_resign es name candidate tok).1 ∧
  same (elections_expire_due es now).
Proof.
  intros Hi. unfold apply_election_renew, apply_election_resign.
  split_and!; try (unfold elections_expire_due; eauto with fid; fail).
  - destruct (es !! name) eqn:E; repeat case_goal; simpl; eauto with fid.
  - simpl. case_goal; eauto with fid.
Qed.
End records.

(** ** Lock grants *)

Definition lock_carries (m : LockManager) (a : string * list string) (t : Z) : Prop :=
  ∃ g, grants m !! t = Some g ∧ a = (g_holder g, g_keys g).

Lemma lock_family c c' m m' :
  c ≤ c' →
  (∀ t g', grants m' !! t = Some g' →
     c < t ≤ c' ∨ ∃ g, grants m !! t = Some g ∧ g_holder g' = g_holder g ∧ g_keys g' = g_keys g) →
  evolves c (lock_carries m) c' (lock_carries m').
Proof.
  intros Hc H. split; [done| |].
  - intros a t (g' & Hg' & ->). destruct (H _ _ Hg') as [?|(g & Hg & -> & ->)]; [by right|left].
    by exists g.
  - intros a b t (g1 & H1 & ->) (g2 & H2 & ->) _. congruence.
Qed.

Lemma lock_same c m : evolves c (lock_carries m) c (lock_carries m).
Proof. apply lock_family; [done|]. intros t g Hg. right. by exists g. Qed.

Lemma lock_promote_loop_tokens fuel c m now vs :
  let '(c', m', _) := lock_promote_loop fuel c m now vs in
  evolves c (lock_carries m) c' (lock_carries m').
Proof.
  revert c m vs. induction fuel as [|fuel IH]; intros c m vs; simpl; [apply lock_same|].
  pose proof (lock_same c m) as Hrefl.
  destruct (lock_first_grantable m) as [id|]; [|done].
  destruct (next_token c) as [t|] eqn:Ht; [|done]. apply next_token_Some in Ht as [-> ?].
  destruct (Fifo.get id (queue m)) as [w|]; [|done].
  specialize (IH (c + 1) (install_grant (mkLocks (held m) (grants m) (Fifo.without id (queue m)))
    (promoted_grant w (c + 1) now)) (vs ++ [promoted_value (promoted_grant w (c + 1) now)])).
  destruct (lock_promote_loop _ _ _ _ _) as [[c' m'] vs']. eapply evolves_trans, IH.
  apply lock_family; [lia|]. simpl. intros t g' [[<- _]|[? ?]]%lookup_insert_Some; [left; lia|right; eauto].
Qed.

Section lock_tokens.
Context `{External}.

Lemma lock_promote_tokens c m m0 now :
  (∀ t g, grants m !! t = Some g → grants m0 !! t = Some g) →
  let '(c', m', _) := lock_promote c m now in evolves c (lock_carries m0) c' (lock_carries m').
Proof.
  intros Hsub. unfold lock_promote. pose proof (lock_promote_loop_tokens (length (queue m)) c m now []) as H1.
  destruct (lock_promote_loop _ _ _ _ _) as [[c' m'] vs]. eapply evolves_trans, H1.
  apply lock_family; [done|]. intros t g Hg. right. exists g. by auto.
Qed.

Lemma lock_acquire_tokens s revision now input :
  let s' := (apply_lock_acquire s revision now input).1 in
  evolves (next_fencing_token s) (lock_carries (locks s)) (next_fencing_token s') (lock_carries (locks s')).
Proof.
  unfold apply_lock_acquire. case_goal; [apply lock_same|]. case_goal; [apply lock_same|].
  destruct (existing_grant _ _ _ _ _) as [[tok g]|] eqn:Hex.
  - apply lock_family; [done|]. simpl. intros t g' Hg'. right.
    destruct (in_legacy_semantics input); [|by eauto].
    unfold existing_grant in Hex. apply bind_Some in Hex as (k0 & _ & Hex).
    apply bind_Some in Hex as (tok' & _ & Hex). apply bind_Some in Hex as (g0 & Hg0 & Hex).
    case_match; [|done]. injection Hex as -> ->.
    simpl in Hg'. apply lookup_insert_Some in Hg' as [[<- <-]|[? ?]]; eauto.
  - case_goal; [|apply (lock_family _ _ (locks s)); [done|]; intros t g Hg; right; by exists g].
    destruct (next_token _) as [t0|] eqn:Ht; [|apply lock_same].
    apply next_token_Some in Ht as [-> ?]. apply lock_family; simpl; [lia|].
    intros t g' [[<- _]|[? ?]]%lookup_insert_Some; [left; lia|right; eauto].
Qed.

Lemma lock_renew_tokens s revision now keys holder tok ttl :
  let s' := (apply_lock_renew s revision now keys holder tok ttl).1 in
  evolves (next_fencing_token s) (lock_carries (locks s)) (next_fencing_token s') (lock_carries (locks s')).
Proof.
  unfold apply_lock_renew. destruct (grants (locks s) !! tok) as [g|] eqn:Hg; [|apply lock_same].
  case_goal; [apply lock_same|]. case_goal; [apply lock_same|].
  apply lock_family; simpl; [done|]. intros t g' [[<- <-]|[? ?]]%lookup_insert_Some; eauto.
Qed.

Lemma release_grant_sub m tok t g : grants (release_grant m tok) !! t = Some g → grants m !! t = Some g.
Proof. rewrite release_grants_lookup. by case_decide. Qed.

Lemma lock_release_tokens s revision now holder tok :
  let s' := (apply_lock_release s revision now holder tok).1 in
  evolves (next_fencing_token s) (lock_carries (locks s)) (next_fencing_token s') (lock_carries (locks s')).
Proof.
  unfold apply_lock_release. case_goal; [|apply lock_same]. case_goal; [apply lock_same|].
  pose proof (lock_promote_tokens (next_fencing_token s) _ _ now (release_grant_sub (locks s) tok)) as H1.
  by destruct (lock_promote _ _ _) as [[c' m'] vs].
Qed.

Lemma lock_cancel_queued_tokens s revision now keys holder rid :
  let s' := (lock_cancel_queued s revision now keys holder rid).1 in
  evolves (next_fencing_token s) (lock_carries (locks s)) (next_fencing_token s') (lock_carries (locks s')).
Proof.
  unfold lock_cancel_queued. case_goal; [repeat case_goal; apply lock_same|].
  epose proof (lock_promote_tokens (next_fencing_token s)
    (mkLocks (held (locks s)) (grants (locks s)) (Fifo.without (holder, keys) (queue (locks s))))
    (locks s) now (λ _ _ E, E)) as H1.
  by destruct (lock_promote _ _ _) as [[c' m'] vs].
Qed.

Lemma lock_cancel_tokens s revision now keys holder rid :
  let s' := (apply_lock_cancel s revision now keys holder rid).1 in
  evolves (next_fencing_token s) (lock_carries (locks s)) (next_fencing_token s') (lock_carries (locks s')).
Proof.
  unfold apply_lock_cancel. destruct rid as [r|]; [|apply lock_cancel_queued_tokens].
  case_goal; [apply lock_same|]. destruct (remember _ _ _ _) as [led []]; [|apply lock_same].
  apply (lock_cancel_queued_tokens (mkLockCtx (next_fencing_token s) (locks s) led)).
Qed.

Lemma lock_expire_tokens s now :
  let s' := locks_expire_due s now in
  evolves (next_fencing_token s) (lock_carries (locks s)) (next_fencing_token s') (lock_carries (locks s')).
Proof.
  unfold locks_expire_due.
  epose proof (lock_promote_tokens (next_fencing_token s)
    (expire_grants (expire_waiters (locks s) now) now) (locks s) now _) as H1.
  by destruct (lock_promote _ _ _) as [[c' m'] vs].
  Unshelve. intros t g. rewrite expire_grants_grants, lookup_retain_Some. by intros [? _].
Qed.
End lock_tokens.

(** ** Semaphore permits *)

Definition slot_of (s : Semaphore) (holder : string) (t : Z) : Prop :=
  ∃ slot, slot ∈ holders s ∧ s_holder slot = holder ∧ s_token slot = t.
Definition sem_carries (ss : gmap string Semaphore) (a : string * string) (t : Z) : Prop :=
  ∃ s, ss !! a.1 = Some s ∧ slot_of s a.2 t.

Section permits.
Context (c : Z) (ss : gmap string Semaphore) (Hi : ∀ a t, sem_carries ss a t → t ≤ c).

Lemma sem_kept ss' :
  (∀ key s' h t, ss' !! key = Some s' → slot_of s' h t → ∃ s, ss !! key = Some s ∧ slot_of s h t) →
  evolves c (sem_carries ss) c (sem_carries ss').
Proof. intros H. apply evolves_sub; [done..|]. intros [key h] t (s' & Hs' & Hslot). by eapply H. Qed.

Lemma sem_same : evolves c (sem_carries ss) c (sem_carries ss).
Proof. apply sem_kept. eauto. Qed.

(** Replacing a semaphore by one whose permits it already had. *)
Lemma sem_replaced key s' :
  (∀ h t, slot_of s' h t → ∃ s, ss !! key = Some s ∧ slot_of s h t) →
  evolves c (sem_carries ss) c (sem_carries (<[key := s']> ss)).
Proof. intros H. apply sem_kept. intros k s0 h t [[<- <-]|[? ?]]%lookup_insert_Some; eauto. Qed.

Lemma sem_minted key s' h0 t0 :
  c < t0 →
  (∀ h t, slot_of s' h t → (h = h0 ∧ t = t0) ∨ ∃ s, ss !! key = Some s ∧ slot_of s h t) →
  evolves c (sem_carries ss) t0 (sem_carries (<[key := s']> ss)).
Proof.
  intros Hlt H. apply (evolves_mint _ _ (key, h0)); [done..|].
  intros [k h] t (s0 & Hk & Hslot). simpl in *. apply lookup_insert_Some in Hk as [[<- <-]|[? ?]].
  - apply H in Hslot as [[-> ->]|(s & ? & ?)]; [by right|left; by exists s].
  - left. by exists s0.
Qed.
End permits.

Lemma slot_of_snoc l hs slot q h t :
  slot_of (mkSem l (hs ++ [slot]) q) h t →
  (h = s_holder slot ∧ t = s_token slot) ∨ ∃ slot', slot' ∈ hs ∧ s_holder slot' = h ∧ s_token slot' = t.
Proof.
  intros (x & [Hx|Hx%list_elem_of_singleton]%elem_of_app & <- & <-); [right; by exists x|left; by subst].
Qed.

Lemma sem_promote_loop_tokens fuel c ss key s now vs :
  (∀ a t, sem_carries (<[key := s]> ss) a t → t ≤ c) →
  let '(c', s', _) := sem_promote_loop fuel c s now vs in
  evolves c (sem_carries (<[key := s]> ss)) c' (sem_carries (<[key := s']> ss)).
Proof.
  revert c s vs. induction fuel as [|fuel IH]; intros c s vs Hi; simpl; [by apply sem_same|].
  case_goal; [by apply sem_same|].
  destruct (next_token c) as [t|] eqn:Ht; [|by apply sem_same]. apply next_token_Some in Ht as [-> ?].
  destruct (Fifo.pop_front _) as [q [[id w]|]]; [|by apply sem_same].
  set (s1 := mkSem _ (_ ++ [_]) q).
  assert (H1 : evolves c (sem_carries (<[key := s]> ss)) (c + 1) (sem_carries (<[key := s1]> ss))).
  { rewrite <-(insert_insert_eq ss key s1 s).
    apply (sem_minted c _ Hi key s1 (p_holder w)); [lia|].
    intros h t [[-> ->]|(x & Hx)]%slot_of_snoc; [by left|right].
    exists s. split; [apply lookup_insert_eq|by exists x]. }
  specialize (IH (c + 1) s1 (vs ++ [slot_value (promoted_slot w (c + 1) now)])).
  specialize (IH (evolves_issued _ _ _ _ H1 Hi)).
  destruct (sem_promote_loop _ _ _ _ _) as [[c' s'] vs']. by eapply evolves_trans.
Qed.

Lemma semaphore_promote_tokens c ss key now :
  (∀ a t, sem_carries ss a t → t ≤ c) →
  let '(c', ss', _) := semaphore_promote c ss key now in
  evolves c (sem_carries ss) c' (sem_carries ss').
Proof.
  intros Hi. unfold semaphore_promote. destruct (ss !! key) as [s|] eqn:Hs; [|by apply sem_same].
  pose proof (sem_promote_loop_tokens (length (sem_queue s)) c ss key s now []) as H1.
  rewrite (insert_id _ _ _ Hs) in H1. specialize (H1 Hi).
  by destruct (sem_promote_loop _ _ _ _ _) as [[c' s'] vs].
Qed.

Lemma semaphores_promote_tokens `{HashOrder} c ss now :
  (∀ a t, sem_carries ss a t → t ≤ c) →
  let '(c', ss') := semaphores_promote c ss now in evolves c (sem_carries ss) c' (sem_carries ss').
Proof.
  unfold semaphores_promote. generalize (hash_keys ss) as keys. intros keys. revert c ss.
  induction keys as [|k keys IH]; intros c ss Hi; simpl; [by apply sem_same|].
  pose proof (semaphore_promote_tokens c ss k now Hi) as H1.
  destruct (semaphore_promote c ss k now) as [[c1 ss1] vs]. simpl in *.
  specialize (IH c1 ss1 (evolves_issued _ _ _ _ H1 Hi)).
  destruct (foldl _ _ _) as [c' ss']. by eapply evolves_trans.
Qed.

Lemma semaphores_expire_tokens `{HashOrder} ctx now :
  (∀ a t, sem_carries (semaphores ctx) a t → t ≤ sem_counter ctx) →
  let ctx' := semaphores_expire_due ctx now in
  evolves (sem_counter ctx) (sem_carries (semaphores ctx)) (sem_counter ctx') (sem_carries (semaphores ctx')).
Proof.
  intros Hi. unfold semaphores_expire_due.
  assert (H1 : evolves (sem_counter ctx) (sem_carries (semaphores ctx)) (sem_counter ctx)
                 (sem_carries (expire_semaphore now <$> semaphores ctx))).
  { apply sem_kept; [done|]. intros key s' h t Hs' Hslot. rewrite lookup_fmap in Hs'.
    apply fmap_Some in Hs' as (s & Hs & ->). exists s. split; [done|].
    destruct Hslot as (x & [_ Hx]%list_elem_of_filter & Hrest). by exists x. }
  pose proof (semaphores_promote_tokens _ _ now (evolves_issued _ _ _ _ H1 Hi)) as H2.
  destruct (semaphores_promote _ _ _) as [c' ss']. by eapply evolves_trans.
Qed.

Section permit_commands.
Context `{External} (ctx : SemCtx) (Hi : ∀ a t, sem_carries (semaphores ctx) a t → t ≤ sem_counter ctx).

Abbreviation sem_evolves ctx' :=
  (evolves (sem_counter ctx) (sem_carries (semaphores ctx)) (sem_counter ctx') (sem_carries (semaphores ctx'))).

(** Legacy acquires, which may lower the limit, included. *)
Lemma sem_acquire_tokens revision now input : sem_evolves (apply_semaphore_acquire ctx revision now input).1.
Proof.
  unfold apply_semaphore_acquire. case_goal; [by apply sem_same|]. case_goal; [by apply sem_same|].
  set (sem0 := default _ (semaphores ctx !! sa_key input)).
  set (sem := if sa_legacy input then _ else sem0).
  assert (Hsem : ∀ h t, slot_of sem h t → ∃ s, semaphores ctx !! sa_key input = Some s ∧ slot_of s h t).
  { intros h t Hslot. assert (H0 : slot_of sem0 h t) by (by destruct (sa_legacy input)).
    unfold sem0 in H0. destruct (semaphores ctx !! sa_key input) as [s|]; [by exists s|].
    by destruct H0 as (x & Hx%not_elem_of_nil & _). }
  case_goal; [by apply sem_replaced|]. case_goal; [|by apply sem_replaced].
  destruct (next_token _) as [t|] eqn:Ht; [|by apply sem_replaced]. apply next_token_Some in Ht as [-> ?].
  apply (sem_minted _ _ Hi _ _ (sa_holder input)); [simpl; lia|].
  intros h t [[-> ->]|(x & Hx)]%slot_of_snoc; [by left|right]. apply Hsem. by exists x.
Qed.

Lemma update_slot_of tok f hs x :
  (∀ s, s_holder (f s) = s_holder s ∧ s_token (f s) = s_token s) → x ∈ update_slot tok f hs →
  ∃ y, y ∈ hs ∧ s_holder y = s_holder x ∧ s_token y = s_token x.
Proof.
  intros Hf. unfold update_slot. destruct (list_find _ _) as [[i y]|] eqn:E; [|by exists x].
  apply list_find_Some in E as (Hy & _). intros Hx. apply list_elem_of_lookup in Hx as [j Hj].
  apply list_lookup_insert_Some in Hj as [(<- & <- & _)|[_ Hj]].
  - exists y. destruct (Hf y). split; [by eapply list_elem_of_lookup_2|done].
  - exists x. split; [by eapply list_elem_of_lookup_2|done].
Qed.

Lemma sem_renew_tokens revision now key holder tok ttl :
  sem_evolves (apply_semaphore_renew ctx revision now key holder tok ttl).1.
Proof.
  unfold apply_semaphore_renew. destruct (semaphores ctx !! key) as [sem|] eqn:Hs; [|by apply sem_same].
  case_goal; [|by apply sem_same]. case_goal; [by apply sem_same|].
  apply sem_replaced; [done|]. intros h t (x & Hx & <- & <-). exists sem. split; [done|].
  by eapply update_slot_of in Hx as (y & Hy & ? & ?); [exists y|].
Qed.

Lemma sem_release_tokens revision now key holder tok :
  sem_evolves (apply_semaphore_release ctx revision now key holder tok).1.
Proof.
  unfold apply_semaphore_release. destruct (semaphores ctx !! key) as [sem|] eqn:Hs; [|by apply sem_same].
  set (ss := <[key := _]> (semaphores ctx)).
  assert (H1 : evolves (sem_counter ctx) (sem_carries (semaphores ctx)) (sem_counter ctx) (sem_carries ss)).
  { apply sem_replaced; [done|]. intros h t (x & [_ Hx]%list_elem_of_filter & Hrest).
    exists sem. split; [done|by exists x]. }
  case_goal; [done|].
  pose proof (semaphore_promote_tokens _ ss key now (evolves_issued _ _ _ _ H1 Hi)) as H2.
  destruct (semaphore_promote _ _ _ _) as [[c' ss'] vs]. by eapply evolves_trans.
Qed.
End permit_commands.

Section permit_cancel.
Context `{External}.

Lemma sem_cancel_queued_tokens ctx revision now key holder rid :
  (∀ a t, sem_carries (semaphores ctx) a t → t ≤ sem_counter ctx) →
  let ctx' := (sem_cancel_queued ctx revision now key holder rid).1 in
  evolves (sem_counter ctx) (sem_carries (semaphores ctx)) (sem_counter ctx') (sem_carries (semaphores ctx')).
Proof.
  intros Hi. unfold sem_cancel_queued.
  match goal with |- context [match ?x with Some _ => _ | None => _ end] => destruct x as [sem|] eqn:Hx end;
    [|repeat case_goal; by apply sem_same].
  apply bind_Some in Hx as (sem0 & Hs & Hx). apply bind_Some in Hx as (w & _ & Hx).
  case_match; [|done]. injection Hx as ->.
  set (ss := <[key := _]> (semaphores ctx)).
  assert (H1 : evolves (sem_counter ctx) (sem_carries (semaphores ctx)) (sem_counter ctx) (sem_carries ss)).
  { apply sem_replaced; [done|]. intros h t Hslot. by exists sem. }
  pose proof (semaphore_promote_tokens _ ss key now (evolves_issued _ _ _ _ H1 Hi)) as H2.
  destruct (semaphore_promote _ _ _ _) as [[c' ss'] vs]. by eapply evolves_trans.
Qed.

Lemma sem_cancel_tokens ctx revision now key holder rid :
  (∀ a t, sem_carries (semaphores ctx) a t → t ≤ sem_counter ctx) →
  let ctx' := (apply_semaphore_cancel ctx revision now key holder rid).1 in
  evolves (sem_counter ctx) (sem_carries (semaphores ctx)) (sem_counter ctx') (sem_carries (semaphores ctx')).
Proof.
  intros Hi. unfold apply_semaphore_cancel. destruct rid as [r|]; [|by apply sem_cancel_queued_tokens].
  case_goal; [by apply sem_same|]. destruct (remember _ _ _ _) as [led []]; [|by apply sem_same].
  by apply (sem_cancel_queued_tokens (mkSemCtx (sem_counter ctx) (semaphores ctx) led)).
Qed.
End permit_cancel.

(** ** The whole store *)

Inductive authority : Type :=
| ALock (holder_keys : string * list string)
| APermit (key_holder : string * string)
| AClaim (key : string)
| ALeader (name : string)
| ATask (name : string)
| AHandoff (name : string).

Definition carries (st : Store) (a : authority) (t : Z) : Prop :=
  match a with
  | ALock a => lock_carries (lock_table st) a t
  | APermit a => sem_carries (semaphore_table st) a t
  | AClaim key => map_carries claim_token (idempotency st) key t
  | ALeader name => map_carries leader_token (elections st) name t
  | ATask name => map_carries task_token (tasks st) name t
  | AHandoff name => map_carries h_to_token (handoffs st) name t
  end.

Abbreviation issued st := (∀ a t, carries st a t → t ≤ fencing_counter st).
Definition store_evolves (st st' : Store) : Prop :=
  evolves (fencing_counter st) (carries st) (fencing_counter st') (carries st').

(** A step of one component is a step of the store. *)
Lemma evolves_lift {A B} (inj : A → B) c c' (F F' : A → Z → Prop) (G G' : B → Z → Prop) :
  (∀ b t, G b t → t ≤ c) → evolves c F c' F' → (∀ a t, F a t → G (inj a) t) →
  (∀ b t, G' b t → (∃ a, b = inj a ∧ F' a t) ∨ G b t) → evolves c G c' G'.
Proof.
  intros Hi [C N S] HF HG. split; [done| |].
  - intros b t [(a & -> & [?|?]%N)|?]%HG; auto.
  - intros b1 b2 t [(a1 & -> & H1)|H1%Hi]%HG [(a2 & -> & H2)|H2%Hi]%HG Hlt; [|lia..].
    f_equal. by eapply S.
Qed.

Ltac lift_family inj :=
  intros; eapply (evolves_lift inj);
    [eassumption | eassumption | by auto | by intros [] t; simpl; eauto].

Section lifting.
Context (st : Store) (Hi : issued st).

Lemma same_authority st' :
  fencing_counter st' = fencing_counter st → (∀ a t, carries st' a t → carries st a t) → store_evolves st st'.
Proof. intros E H. unfold store_evolves. rewrite E. by apply evolves_sub. Qed.

Lemma lift_locks ctx :
  evolves (fencing_counter st) (lock_carries (lock_table st)) (next_fencing_token ctx) (lock_carries (locks ctx)) →
  store_evolves st (set_locks st ctx).
Proof. lift_family ALock. Qed.

Lemma lift_semaphores ctx :
  evolves (fencing_counter st) (sem_carries (semaphore_table st)) (sem_counter ctx)
    (sem_carries (semaphores ctx)) →
  store_evolves st (set_semaphores st ctx).
Proof. lift_family APermit. Qed.

Lemma lift_idempotency c' m :
  evolves (fencing_counter st) (map_carries claim_token (idempotency st)) c' (map_carries claim_token m) →
  store_evolves st (set_idempotency st c' m).
Proof. lift_family AClaim. Qed.

Lemma lift_elections c' m :
  evolves (fencing_counter st) (map_carries leader_token (elections st)) c' (map_carries leader_token m) →
  store_evolves st (set_elections st c' m).
Proof. lift_family ALeader. Qed.

Lemma lift_tasks c' m :
  evolves (fencing_counter st) (map_carries task_token (tasks st)) c' (map_carries task_token m) →
  store_evolves st (set_tasks st c' m).
Proof. lift_family ATask. Qed.

Lemma lift_handoffs c' m :
  evolves (fencing_counter st) (map_carries h_to_token (handoffs st)) c' (map_carries h_to_token m) →
  store_evolves st (set_handoffs st c' m).
Proof. lift_family AHandoff. Qed.
End lifting.

(** The issued bound, component by component. *)
Lemma issued_parts st :
  issued st →
  (∀ a t, sem_carries (semaphore_table st) a t → t ≤ fencing_counter st) ∧
  (∀ k t, map_carries claim_token (idempotency st) k t → t ≤ fencing_counter st) ∧
  (∀ k t, map_carries leader_token (elections st) k t → t ≤ fencing_counter st) ∧
  (∀ k t, map_carries task_token (tasks st) k t → t ≤ fencing_counter st) ∧
  (∀ k t, map_carries h_to_token (handoffs st) k t → t ≤ fencing_counter st).
Proof.
  intros Hi. split_and!; intros a t.
  - apply (Hi (APermit a)).
  - apply (Hi (AClaim a)).
  - apply (Hi (ALeader a)).
  - apply (Hi (ATask a)).
  - apply (Hi (AHandoff a)).
Qed.

Section machine.
Context `{External, HashOrder}.

Lemma expire_due_evolves st now : issued st → store_evolves st (expire_due st now).
Proof.
  intros Hi. unfold expire_due.
  set (st1 := set_kv st _). assert (H1 : store_evolves st st1) by (by apply same_authority).
  set (st2 := set_locks st1 _).
  assert (H2 : store_evolves st1 st2) by (apply lift_locks, (lock_expire_tokens (lock_ctx st1)); exact Hi).
  pose proof (evolves_trans _ _ _ _ _ _ H1 H2) as H12. pose proof (evolves_issued _ _ _ _ H12 Hi) as Hi2.
  set (st3 := set_semaphores st2 _).
  assert (H3 : store_evolves st2 st3).
  { apply lift_semaphores; [done|]. by apply (semaphores_expire_tokens (sem_ctx st2)), issued_parts. }
  pose proof (evolves_trans _ _ _ _ _ _ H12 H3) as H13. pose proof (evolves_issued _ _ _ _ H13 Hi) as Hi3.
  eapply evolves_trans; [exact H13|]. apply same_authority; [done..|].
  intros [] t; simpl; try done; by intros (v & [? _]%lookup_retain_Some & ?); exists v.
Qed.

(** The commands that mint or move authority; every other command is the last
    case. *)
Lemma dispatch_evolves st revision now command :
  0 ≤ fencing_counter st → issued st → store_evolves st (dispatch st revision now command).1.
Proof.
  intros Hc Hi. pose proof (issued_parts _ Hi) as (Hs & Hm & He & Ht & Hh).
  destruct command; cbn [dispatch lift fst]; try (by apply same_authority).
  - unfold apply_activation. repeat case_goal; by apply same_authority.
  - by apply lift_tasks, (owner_task_tokens _ _ 0 name "" 0 0 payload true task_type deadline_ms).
  - pose proof (claim_task_tokens _ (tasks st) now name worker ttl_ms Hc Ht) as H1.
    unfold lift_token. destruct (apply_task_claim _ _ _ _ _ _) as [[c' m'] v]. by apply lift_tasks.
  - by apply lift_tasks, (owner_task_tokens _ _ now name worker fencing_token percent checkpoint true "" None).
  - by apply lift_tasks, (owner_task_tokens _ _ now name worker fencing_token 0 result true "" None).
  - by apply lift_tasks, (owner_task_tokens _ _ now name worker fencing_token 0 JNull retryable "" None).
  - by apply lift_tasks, (owner_task_tokens _ _ now name "" 0 0 JNull true "" None).
  - by apply lift_handoffs, (handoff_other_tokens _ _ now name resource from to from_token context ttl_ms).
  - pose proof (handoff_accept_tokens _ (handoffs st) now name to Hh) as H1.
    unfold lift_token. destruct (apply_handoff_accept _ _ _ _ _) as [[c' m'] v]. by apply lift_handoffs.
  - by apply lift_handoffs, (handoff_other_tokens _ _ now name "" "" to 0 JNull 0).
  - by apply lift_locks, (lock_acquire_tokens (lock_ctx st)).
  - by apply lift_locks, (lock_acquire_tokens (lock_ctx st)).
  - by apply lift_locks, (lock_acquire_tokens (lock_ctx st)).
  - by apply lift_locks, (lock_renew_tokens (lock_ctx st)).
  - by apply lift_locks, (lock_release_tokens (lock_ctx st)).
  - by apply lift_locks, (lock_cancel_tokens (lock_ctx st)).
  - by apply lift_locks, (lock_cancel_tokens (lock_ctx st)).
  - by apply lift_semaphores, (sem_acquire_tokens (sem_ctx st)).
  - by apply lift_semaphores, (sem_acquire_tokens (sem_ctx st)).
  - by apply lift_semaphores, (sem_acquire_tokens (sem_ctx st)).
  - by apply lift_semaphores, (sem_renew_tokens (sem_ctx st)).
  - by apply lift_semaphores, (sem_release_tokens (sem_ctx st)).
  - by apply lift_semaphores, (sem_cancel_tokens (sem_ctx st)).
  - by apply lift_semaphores, (sem_cancel_tokens (sem_ctx st)).
  - pose proof (idempotency_claim_tokens _ (idempotency st) revision now key owner ttl_ms retention_ms metadata Hm)
      as H1.
    unfold lift_token. destruct (apply_idempotency_claim _ _ _ _ _ _ _ _ _) as [[c' m'] v].
    by apply lift_idempotency.
  - by apply lift_idempotency, (idempotency_other_tokens _ _ revision now key owner fencing_token 0 result).
  - by apply lift_idempotency, (idempotency_other_tokens _ _ revision now key owner fencing_token ttl_ms None).
  - by apply lift_idempotency, (idempotency_other_tokens _ _ revision now key owner fencing_token 0 None).
  - pose proof (campaign_tokens _ (elections st) revision now name candidate ttl_ms metadata He) as H1.
    unfold lift_token. destruct (apply_election_campaign _ _ _ _ _ _ _ _) as [[c' m'] v].
    by apply lift_elections.
  - by apply lift_elections, (election_other_tokens _ _ now name candidate fencing_token ttl_ms).
  - by apply lift_elections, (election_other_tokens _ _ now name candidate fencing_token None).
Qed.

Lemma prepare_evolves st command now : issued st → store_evolves st (prepare st command now).
Proof.
  intros Hi. unfold prepare. case_goal; [by apply same_authority|].
  set (st1 := set_protocol _ _). assert (H1 : store_evolves st st1) by (by apply same_authority).
  pose proof (evolves_issued _ _ _ _ H1 Hi) as Hi1. clearbody st1.
  pose proof (expire_due_evolves st1 now Hi1) as H2. revert H2. generalize (expire_due st1 now) as st2.
  intros st2 H2. pose proof (evolves_trans _ _ _ _ _ _ H1 H2) as H12.
  eapply evolves_trans; [exact H12|]. apply same_authority; [|done..].
  exact (evolves_issued _ _ _ _ H12 Hi).
Qed.

Lemma apply_at_evolves st command now :
  0 ≤ fencing_counter st → issued st → store_evolves st (apply_at st command now).1.
Proof.
  intros Hc Hi. pose proof (prepare_evolves st command now Hi) as H1.
  pose proof (evolves_issued _ _ _ _ H1 Hi) as Hi1. pose proof (ev_counter _ _ _ _ H1) as Hc1.
  unfold apply_at. set (st1 := prepare st command now) in *.
  assert (H2 : store_evolves st1 (dispatch st1 (StateMachine.revision st1) now command).1).
  { apply dispatch_evolves; [lia|done]. }
  destruct (dispatch _ _ _ _) as [st2 out]. by eapply evolves_trans.
Qed.

Lemma apply_log_evolves log st :
  0 ≤ fencing_counter st → issued st → store_evolves st (apply_log st log).
Proof.
  revert st. induction log as [|[command now] log IH]; intros st Hc Hi; simpl; [by apply same_authority|].
  pose proof (apply_at_evolves st command now Hc Hi) as H1.
  eapply evolves_trans; [exact H1|]. apply IH; [|by eapply evolves_issued].
  pose proof (ev_counter _ _ _ _ H1). lia.
Qed.

Lemma empty_store_exclusive : exclusive (fencing_counter inhabitant) (carries inhabitant).
Proof.
  assert (∀ a t, ¬ carries inhabitant a t).
  { intros [[]|[]| | | |] t; simpl; intros (v & Hv & _); vm_compute in Hv; discriminate. }
  split; intros; exfalso; by eapply H1.
Qed.

(** C11: After any committed log, legacy commands included, no fencing token is
    carried by two authorities: a lock grant, a semaphore permit, an
    idempotency claim, a leadership, a task lease and an accepted handoff with
    the same token are one and the same, and every token in use was issued by
    the shared counter. *)
Theorem fencing_tokens_exclusive (log : list (Command * Z)) :
  let st := apply_log inhabitant log in
  (∀ a b t, carries st a t → carries st b t → a = b) ∧
  (∀ a t, carries st a t → t ≤ fencing_counter st).
Proof.
  intros st. pose proof empty_store_exclusive as E.
  assert (Hev : store_evolves inhabitant st).
  { apply apply_log_evolves; [done|]. apply (ex_issued _ _ E). }
  destruct (evolves_exclusive _ _ _ _ E Hev). done.
Qed.

Lemma outranks log more a b t u :
  carries (apply_log inhabitant log) a t → carries (apply_log inhabitant (log ++ more)) b u →
  carries (apply_log inhabitant log) b u ∨ t < u.
Proof.
  intros Ha Hb. pose proof empty_store_exclusive as E.
  assert (H1 : store_evolves inhabitant (apply_log inhabitant log)).
  { apply apply_log_evolves; [done|]. apply (ex_issued _ _ E). }
  pose proof (evolves_exclusive _ _ _ _ E H1) as [Hi _]. pose proof (ev_counter _ _ _ _ H1) as Hc.
  pose proof (apply_log_evolves more _ Hc Hi) as H2.
  unfold apply_log in Hb. rewrite foldl_app in Hb.
  destruct (ev_fresh _ _ _ _ H2 _ _ Hb) as [?|?]; [by left|right]. apply Hi in Ha. lia.
Qed.

(** Fencing is global in time: an authority that appears in the store after
    a log was extended carries either the token it already had or one above
    every token that any authority of the earlier store carried, whatever the
    two primitives are. *)
Theorem later_authority_outranks (log more : list (Command * Z)) (a b : authority) (t u : Z)
    (Ha : carries (apply_log inhabitant log) a t)
    (Hb : carries (apply_log inhabitant (log ++ more)) b u) :
  carries (apply_log inhabitant log) b u ∨ t < u.
Proof. by eapply outranks. Qed.
End machine.

(** A lock granted, released, and a semaphore permit taken after it. *)
Definition demo_log : list (Command * Z) := [(LockAcquireV2 ["a"; "b"] "h" 50 true None, 10)].
Definition demo_more : list (Command * Z) :=
  [(LockRelease "h" 1, 20); (SemaphoreAcquireV2 "s" "w" 2 50 true None, 30)].

Lemma later_authority_outranks_witness :
  let st := @apply_log plain_external identity_order inhabitant demo_log in
  carries st (APermit ("s", "w")) 2 ∨ 1 < 2.
Proof.
  refine (@later_authority_outranks plain_external identity_order demo_log demo_more
    (ALock ("h", ["a"; "b"])) (APermit ("s", "w")) 1 2 _ _).
  - eexists. split; vm_compute; reflexivity.
  - eexists. split; [vm_compute; reflexivity|]. eexists. split; [left|]. split; reflexivity.
Defined.
