(* ===== verification/MachineTheorems.v ===== *)
(** What [apply_at] guarantees of every committed log: the lock table stays
    consistent and mutually exclusive next to every other primitive that mints
    from the same counter, hardened semaphores stay within their limits, the
    command protocol never regresses, and the revision counts the commands. *)

From S2P Require Import Prelude Json Fencing Fifo Cancellation Locks Semaphores Registers Tasks Handoffs Idempotency Elections Services RateLimit Schedules Command StateMachine Authority.

Section machine.
Context `{External, HashOrder}.

(** ** Locks and semaphores under a counter that others move *)

Lemma lock_ctx_inv_counter c c' m l :
  lock_ctx_inv (mkLockCtx c m l) → c ≤ c' → lock_ctx_inv (mkLockCtx c' m l).
Proof.
  intros [Hc Hl Hled Hset] Hle. simpl in *. split; simpl; [lia|by eapply lock_inv_counter|done|].
  destruct Hset; [by left|right; simpl in *; lia].
Qed.

Lemma sem_ctx_inv_counter c c' ss l :
  sem_ctx_inv (mkSemCtx c ss l) → c ≤ c' → sem_ctx_inv (mkSemCtx c' ss l).
Proof.
  intros [Hc [Hsem Hdis] Hset Hled] Hle. simpl in *. split; simpl; [lia| | |done].
  - split; [|done]. intros key s Hs. destruct (Hsem key s Hs) as [? ? ? Hiss ? ? ? ?]. split; try done.
    intros t Ht%Hiss. lia.
  - intros key s Hs. destruct (Hset key s Hs) as [?|[?|?]]; [by left|by right; left|right; right; lia].
Qed.

(** The commands outside the lock service leave its part of the store alone. *)
Definition touches_locks (command : Command) : bool :=
  match command with
  | LockAcquire _ _ _ _ _ | LockAcquireV2 _ _ _ _ _ | LockAcquireAttempt _ _ _ _ _ _
  | LockRenew _ _ _ _ | LockRelease _ _ | LockCancel _ _ | LockCancelAttempt _ _ _ => true
  | _ => false
  end.
Definition touches_semaphores (command : Command) : bool :=
  match command with
  | SemaphoreAcquire _ _ _ _ _ _ | SemaphoreAcquireV2 _ _ _ _ _ _ | SemaphoreAcquireAttempt _ _ _ _ _ _ _
  | SemaphoreRenew _ _ _ _ | SemaphoreRelease _ _ _ | SemaphoreCancel _ _ | SemaphoreCancelAttempt _ _ _ => true
  | _ => false
  end.

Lemma dispatch_frame st revision now command :
  let st' := (dispatch st revision now command).1 in
  (touches_locks command = false → lock_table st' = lock_table st ∧ lock_ledger st' = lock_ledger st) ∧
  (touches_semaphores command = false →
     semaphore_table st' = semaphore_table st ∧ semaphore_ledger st' = semaphore_ledger st).
Proof.
  destruct command; cbn [dispatch lift lift_token fst touches_locks touches_semaphores]; try done.
  unfold apply_activation. by repeat case_goal.
Qed.

Lemma lock_ctx_set st ctx : lock_ctx (set_locks st ctx) = ctx.
Proof. by destruct ctx. Qed.
Lemma sem_ctx_set st ctx : sem_ctx (set_semaphores st ctx) = ctx.
Proof. by destruct ctx. Qed.

Record store_inv (st : Store) : Prop := {
  so_counter : 0 ≤ fencing_counter st;
  so_issued : issued st;
  so_locks : lock_ctx_inv (lock_ctx st)
}.

Lemma dispatch_locks st revision now command :
  store_inv st → lock_ctx_inv (lock_ctx (dispatch st revision now command).1).
Proof.
  intros [Hc Hi HL]. destruct (touches_locks command) eqn:Ht.
  - destruct command; try discriminate; cbn [dispatch lift fst];
      rewrite lock_ctx_set;
      first [apply (acquire_inv _ revision now _ HL) | apply (renew_inv _ revision now _ _ _ _ HL)
            | apply (release_inv _ revision now _ _ HL) | apply (cancel_inv _ revision now _ _ _ HL)].
  - destruct (proj1 (dispatch_frame st revision now command) Ht) as [E1 E2].
    pose proof (ev_counter _ _ _ _ (dispatch_evolves st revision now command Hc Hi)) as Hle.
    unfold lock_ctx. rewrite E1, E2. by eapply lock_ctx_inv_counter.
Qed.

(** The sweep settles the lock table first; the semaphores that follow only
    move the counter. *)
Lemma expire_due_locks st now : store_inv st → lock_ctx_inv (lock_ctx (expire_due st now)).
Proof.
  intros [Hc Hi HL]. unfold expire_due. set (st1 := set_kv st _).
  set (st2 := set_locks st1 _). set (st3 := set_semaphores st2 _).
  destruct (expire_inv (lock_ctx st1) now) as [HL2 Hle2];
    [exact Hc|exact (lc_locks _ HL)|exact (lc_ledger _ HL)|].
  assert (H2 : store_evolves st1 st2) by (apply lift_locks, (lock_expire_tokens (lock_ctx st1)); exact Hi).
  pose proof (evolves_issued _ _ _ _ H2 Hi) as Hi2.
  assert (H3 : store_evolves st2 st3).
  { apply lift_semaphores; [done|]. by apply (semaphores_expire_tokens (sem_ctx st2)), issued_parts. }
  apply (lock_ctx_inv_counter (fencing_counter st2)); [|exact (ev_counter _ _ _ _ H3)].
  by rewrite <-(lock_ctx_set st1 (locks_expire_due _ _)) in HL2.
Qed.

Lemma prepare_inv st command now : store_inv st → store_inv (prepare st command now).
Proof.
  intros I. pose proof (prepare_evolves st command now (so_issued _ I)) as H1. split.
  - pose proof (ev_counter _ _ _ _ H1). pose proof (so_counter _ I). lia.
  - exact (evolves_issued _ _ _ _ H1 (so_issued _ I)).
  - unfold prepare. destruct (is_activation command); [apply I|].
    set (st1 := set_protocol _ _). assert (I1 : store_inv st1) by (by destruct I).
    pose proof (expire_due_locks st1 now I1) as H2. by destruct (expire_due st1 now).
Qed.

Lemma apply_at_inv st command now : store_inv st → store_inv (apply_at st command now).1.
Proof.
  intros I. pose proof (apply_at_evolves st command now (so_counter _ I) (so_issued _ I)) as Hev.
  split.
  - pose proof (ev_counter _ _ _ _ Hev). pose proof (so_counter _ I). lia.
  - exact (evolves_issued _ _ _ _ Hev (so_issued _ I)).
  - pose proof (prepare_inv st command now I) as I1.
    unfold apply_at. pose proof (dispatch_locks _ (revision (prepare st command now)) now command I1) as H1.
    by destruct (dispatch _ _ _ _).
Qed.

Lemma empty_store_inv : store_inv inhabitant.
Proof.
  split; [done|apply (ex_issued _ _ empty_store_exclusive)|].
  split; simpl; [done|apply lock_inv_empty|apply ledger_inv_empty|left; by intros [|] ? ? ?].
Qed.

Lemma apply_log_inv log st : store_inv st → store_inv (apply_log st log).
Proof. revert st. induction log as [|[command now] log IH]; intros st I; simpl; eauto using apply_at_inv. Qed.

Lemma locks_exclusive (log : list (Command * Z)) :
  let st := apply_log inhabitant log in
  let m := lock_table st in
  (∀ t1 t2 g1 g2 k, grants m !! t1 = Some g1 → grants m !! t2 = Some g2 →
     k ∈ g_keys g1 → k ∈ g_keys g2 → t1 = t2 ∧ g1 = g2) ∧
  (∀ k t, held m !! k = Some t ↔ ∃ g, grants m !! t = Some g ∧ k ∈ g_keys g) ∧
  settled (fencing_counter st) m.
Proof.
  intros st m. destruct (so_locks _ (apply_log_inv log _ empty_store_inv)) as [_ I _ Hset].
  fold st in I, Hset. split_and!; [| |done].
  - intros t1 t2 g1 g2 k H1 H2 K1 K2. pose proof (li_union _ _ I _ _ _ H1 K1) as E1.
    pose proof (li_union _ _ I _ _ _ H2 K2) as E2. rewrite E1 in E2. injection E2 as <-.
    split; [done|]. simpl in *. congruence.
  - intros k t. split; [apply (li_held _ _ I)|]. intros (g & Hg & Hk). exact (li_union _ _ I _ _ _ Hg Hk).
Qed.

(** C10: After any committed log, two lock grants never share a key: the held
    index and the grants describe the same ownership, every member key of a
    grant is held by it, and whoever still waits is blocked by a held key or by
    an earlier waiter for the same key (unless the token space is used up). *)
Theorem lock_mutual_exclusion (log : list (Command * Z)) :
  let st := apply_log inhabitant log in
  let m := lock_table st in
  (∀ t1 t2 g1 g2 k, grants m !! t1 = Some g1 → grants m !! t2 = Some g2 →
     k ∈ g_keys g1 → k ∈ g_keys g2 → t1 = t2 ∧ g1 = g2) ∧
  (∀ k t, held m !! k = Some t ↔ ∃ g, grants m !! t = Some g ∧ k ∈ g_keys g) ∧
  settled (fencing_counter st) m.
Proof. apply locks_exclusive. Qed.

(** ** Semaphores of hardened logs *)

(** Everything but the legacy acquire, which may lower the limit of a live
    semaphore. *)
Definition hardened (command : Command) : Prop :=
  match command with
  | SemaphoreAcquire _ _ _ _ _ _ => False
  | SemaphoreAcquireV2 _ _ limit _ _ _ | SemaphoreAcquireAttempt _ _ _ limit _ _ _ => is_u32 limit
  | _ => True
  end.

Lemma dispatch_semaphores st revision now command :
  store_inv st → hardened command → sem_ctx_inv (sem_ctx st) →
  sem_ctx_inv (sem_ctx (dispatch st revision now command).1).
Proof.
  intros [Hc Hi _] Hh HS. destruct (touches_semaphores command) eqn:Ht.
  - destruct command; try discriminate; try done; cbn [dispatch lift fst]; rewrite sem_ctx_set;
      first [by apply (sem_acquire_inv _ revision now _ HS) | apply (sem_renew_inv _ revision now _ _ _ _ HS)
            | apply (sem_release_inv _ revision now _ _ _ HS) | apply (sem_cancel_inv _ revision now _ _ _ HS)].
  - destruct (proj2 (dispatch_frame st revision now command) Ht) as [E1 E2].
    pose proof (ev_counter _ _ _ _ (dispatch_evolves st revision now command Hc Hi)) as Hle.
    unfold sem_ctx. rewrite E1, E2. by eapply sem_ctx_inv_counter.
Qed.

Lemma expire_due_semaphores st now :
  store_inv st → sem_ctx_inv (sem_ctx st) → sem_ctx_inv (sem_ctx (expire_due st now)).
Proof.
  intros [Hc Hi HL] HS. unfold expire_due. set (st1 := set_kv st _). set (st2 := set_locks st1 _).
  assert (H2 : store_evolves st1 st2) by (apply lift_locks, (lock_expire_tokens (lock_ctx st1)); exact Hi).
  assert (HS2 : sem_ctx_inv (sem_ctx st2)).
  { apply (sem_ctx_inv_counter (fencing_counter st1)); [exact HS|exact (ev_counter _ _ _ _ H2)]. }
  destruct (sem_expire_inv (sem_ctx st2) now (sx_counter _ HS2) (sx_sems _ HS2) (sx_ledger _ HS2)) as [HS3 _].
  by rewrite <-(sem_ctx_set st2 (semaphores_expire_due _ _)) in HS3.
Qed.

Lemma apply_at_semaphores st command now :
  store_inv st → hardened command → sem_ctx_inv (sem_ctx st) →
  sem_ctx_inv (sem_ctx (apply_at st command now).1).
Proof.
  intros I Hh HS. pose proof (prepare_inv st command now I) as I1.
  assert (HS1 : sem_ctx_inv (sem_ctx (prepare st command now))).
  { unfold prepare. destruct (is_activation command); [done|].
    set (st1 := set_protocol _ _). assert (I2 : store_inv st1) by (by destruct I).
    pose proof (expire_due_semaphores st1 now I2 HS) as H2. by destruct (expire_due st1 now). }
  unfold apply_at.
  pose proof (dispatch_semaphores _ (revision (prepare st command now)) now command I1 Hh HS1) as H1.
  by destruct (dispatch _ _ _ _).
Qed.

Lemma apply_log_semaphores log st :
  store_inv st → Forall (λ e, hardened e.1) log → sem_ctx_inv (sem_ctx st) →
  sem_ctx_inv (sem_ctx (apply_log st log)).
Proof.
  revert st. induction log as [|[command now] log IH]; intros st I Hlog HS; simpl; [done|].
  inversion Hlog; subst. apply IH; [by apply apply_at_inv|done|by apply apply_at_semaphores].
Qed.

(** C23: In every log without the legacy acquire, whatever other primitives mint
    from the counter, a semaphore never admits more holders than its limit, no
    attempt holds two permits, and nobody is queued while a permit is free
    (unless the token space is used up). *)
Theorem semaphore_limit_respected (log : list (Command * Z)) (key : string) (s : Semaphore)
    (Hlog : Forall (λ e, hardened e.1) log)
    (Hs : semaphore_table (apply_log inhabitant log) !! key = Some s) :
  Z.of_nat (length (holders s)) ≤ limit s ∧
  NoDup ((λ x, (s_holder x, s_request x)) <$> holders s) ∧
  (sem_queue s = [] ∨ Z.of_nat (length (holders s)) = limit s ∨
   MAX_FENCING_TOKEN ≤ fencing_counter (apply_log inhabitant log)).
Proof.
  destruct (apply_log_semaphores log inhabitant empty_store_inv Hlog) as [_ [Hsem _] Hset _].
  { split; simpl; [done|split; done|done|apply ledger_inv_empty]. }
  destruct (Hsem key s Hs) as [_ Hcap _ _ _ _ Hatt _]. split_and!; [done..|].
  destruct (Hset key s Hs) as [?|[?|?]]; [by left|right; left; lia|by right; right].
Qed.

(** ** The command protocol *)

Lemma required_protocol_range command :
  is_activation command = false → LEGACY_COMMAND_PROTOCOL ≤ required_protocol command ≤ CURRENT_COMMAND_PROTOCOL.
Proof. destruct command; try done; simpl; [..|destruct target]; done. Qed.

Lemma dispatch_protocol st revision now command :
  is_activation command = false → command_protocol (dispatch st revision now command).1 = command_protocol st.
Proof. by destruct command. Qed.

Lemma apply_at_protocol st command now :
  command_protocol (apply_at st command now).1 =
  match command with
  | ActivateCommandProtocol v =>
      if (LOCK_COMMAND_PROTOCOL <=? v) && (v <=? CURRENT_COMMAND_PROTOCOL) && (command_protocol st <=? v)
      then v else command_protocol st
  | _ => Z.max (command_protocol st) (required_protocol command)
  end.
Proof.
  unfold apply_at. destruct (is_activation command) eqn:Ha.
  - destruct command; try discriminate. unfold prepare. simpl. unfold apply_activation. by repeat case_goal.
  - assert (E : command_protocol (prepare st command now) = Z.max (command_protocol st) (required_protocol command)).
    { unfold prepare. by rewrite Ha. }
    pose proof (dispatch_protocol (prepare st command now) (revision (prepare st command now)) now command Ha) as E2.
    rewrite E in E2. destruct (dispatch _ _ _ _) as [st' out]. simpl in *. rewrite E2. by destruct command.
Qed.

Lemma apply_at_protocol_bounds st command now :
  LEGACY_COMMAND_PROTOCOL ≤ command_protocol st ≤ CURRENT_COMMAND_PROTOCOL →
  command_protocol st ≤ command_protocol (apply_at st command now).1 ≤ CURRENT_COMMAND_PROTOCOL ∧
  (is_activation command = false → required_protocol command ≤ command_protocol (apply_at st command now).1).
Proof.
  intros Hst. rewrite apply_at_protocol. destruct (is_activation command) eqn:Ha.
  - destruct command; try discriminate. split; [|done].
    case_goal; bools; lia.
  - pose proof (required_protocol_range _ Ha). destruct command; try discriminate; lia.
Qed.

(** The command protocol of a shard stays between 1 and 3 and never
    regresses: extending a log never lowers it, and it is at least the protocol
    every applied command needs, so a snapshot of the state is stamped with a
    protocol that can parse everything the state was built from. *)
Theorem protocol_never_regresses (log more : list (Command * Z)) :
  let p := command_protocol (apply_log inhabitant log) in
  LEGACY_COMMAND_PROTOCOL ≤ p ≤ CURRENT_COMMAND_PROTOCOL ∧
  p ≤ command_protocol (apply_log inhabitant (log ++ more)) ∧
  ∀ command now, (command, now) ∈ log → is_activation command = false → required_protocol command ≤ p.
Proof.
  assert (Hmono : ∀ log st, LEGACY_COMMAND_PROTOCOL ≤ command_protocol st ≤ CURRENT_COMMAND_PROTOCOL →
    command_protocol st ≤ command_protocol (apply_log st log) ≤ CURRENT_COMMAND_PROTOCOL ∧
    ∀ command now, (command, now) ∈ log → is_activation command = false →
      required_protocol command ≤ command_protocol (apply_log st log)).
  { induction log0 as [|[cmd now0] l IH]; intros st Hst; simpl.
    { split; [lia|]. intros command now Hin. by apply not_elem_of_nil in Hin. }
    destruct (apply_at_protocol_bounds st cmd now0 Hst) as [Hb Hreq].
    destruct (IH (apply_at st cmd now0).1) as [Hb2 Hin2]; [lia|]. split; [lia|].
    intros command now [[= <- <-]|Hin]%elem_of_cons Ha; [specialize (Hreq Ha); lia|by eapply Hin2]. }
  intros p. destruct (Hmono log inhabitant ltac:(done)) as [Hb Hin].
  assert (Hb' : LEGACY_COMMAND_PROTOCOL ≤ p ≤ CURRENT_COMMAND_PROTOCOL) by (unfold p; simpl in *; lia).
  split_and!; [lia|lia| |done].
  unfold apply_log at 1. rewrite foldl_app. by apply Hmono.
Qed.
End machine.

Definition sem_log : list (Command * Z) :=
  [(LockAcquireV2 ["a"] "h" 50 true None, 10); (SemaphoreAcquireV2 "s" "w" 1 50 true None, 11);
   (SemaphoreAcquireV2 "s" "x" 1 50 true None, 12)].

Lemma semaphore_limit_respected_witness :
  ∃ s, semaphore_table (@apply_log plain_external identity_order inhabitant sem_log) !! "s" = Some s ∧
       Z.of_nat (length (holders s)) ≤ limit s.
Proof.
  eexists. split; [vm_compute; reflexivity|].
  eapply (@semaphore_limit_respected plain_external identity_order sem_log "s").
  - repeat constructor; vm_compute; intros; discriminate.
  - vm_compute. reflexivity.
Defined.
