(* ===== verification/Validate.v ===== *)
(** Input bounds of src/validate.rs: what the HTTP handlers check before a
    command is proposed, and the check of a holder as it is stored. *)

From Stdlib Require Import SpecFloat.
From S2P Require Import Prelude Json Fencing Text Cancellation Budgets RateLimit.

(** ** Limits *)

Definition MAX_LOCK_KEYS : nat := 256.
Definition MAX_KEY_BYTES : Z := 1024.
Definition MAX_HOLDER_BYTES : Z := 512.
Definition MAX_ORG_BYTES : Z := 128.
Definition MAX_REQUEST_ID_BYTES : Z := 128.
Definition MAX_NAME_BYTES : Z := 1024.
Definition MAX_ADDRESS_BYTES : Z := 2048.
Definition MAX_TTL_MS : Z := 24 * 60 * 60 * 1000.
Definition MAX_WAIT_TIMEOUT_MS : Z := MAX_TTL_MS.
Definition MAX_SEMAPHORE_LIMIT : Z := 1000000.
Definition MAX_WEIGHT : Z := 1000000000000.
Definition MAX_BUDGET_AMOUNT : Z := 1000000000000000.
Definition MAX_METADATA_ENTRIES : nat := 64.
Definition MAX_METADATA_KEY_BYTES : Z := 256.
Definition MAX_METADATA_VALUE_BYTES : Z := 4096.
Definition MAX_RATE_LIMIT_SEGMENT_BYTES : Z := 256.
Definition MAX_RATE_LIMIT_LIMIT : Z := 1000000.
Definition MAX_RATE_LIMIT_COST : Z := 1000000.
Definition MAX_IDEMPOTENCY_TTL_MS : Z := 30 * 24 * 60 * 60 * 1000.

Record Rejection : Type := mkRejection { code : string; detail : string }.

Abbreviation checked := (result unit Rejection).

(** [str::len], in bytes. *)
Definition byte_len (s : string) : Z := Z.of_nat (String.length s).

(** The body of a [for] loop that may reject. *)
Fixpoint check_each {A} (f : A → checked) (l : list A) : checked :=
  match l with
  | [] => Ok tt
  | x :: l => try! _ := f x in check_each f l
  end.

(** [if let Some(x) = o { f(x)?; }] *)
Definition check_some {A} (f : A → checked) (o : option A) : checked :=
  match o with Some x => f x | None => Ok tt end.

(** ** Fields *)

Definition check_str (label value : string) (max : Z) (allow_empty : bool) : checked :=
  if negb allow_empty && String.eqb value "" then
    Err (mkRejection "empty_field" (label +:+ " must not be empty"))
  else if max <? byte_len value then
    Err (mkRejection "field_too_long"
      (label +:+ " exceeds " +:+ decimal max +:+ " bytes (" +:+ decimal (byte_len value) +:+ " given)"))
  else Ok tt.

Definition check_holder (value : string) : checked :=
  try! _ := check_str "holder" value MAX_HOLDER_BYTES false in
  if is_blank value || has_control value then
    Err (mkRejection "invalid_holder"
      "holder must contain a non-whitespace character and no control characters")
  else Ok tt.

Definition acquisition_request_id (request_id : option string) : checked :=
  match request_id with
  | None => Ok tt
  | Some request_id =>
      try! _ := check_str "request_id" request_id MAX_REQUEST_ID_BYTES false in
      if is_blank request_id || has_control request_id then
        Err (mkRejection "invalid_request_id"
          "request_id must contain a non-whitespace character and no control characters")
      else Ok tt
  end.

Definition check_ttl (ttl_ms : Z) : checked :=
  if ttl_ms =? 0 then Err (mkRejection "invalid_ttl" "ttl_ms must be greater than zero")
  else if MAX_TTL_MS <? ttl_ms then
    Err (mkRejection "ttl_too_large" ("ttl_ms exceeds the " +:+ decimal MAX_TTL_MS +:+ " ms (24h) ceiling"))
  else Ok tt.

Definition idempotency_ttl (label : string) (ttl_ms : Z) : checked :=
  if ttl_ms =? 0 then Err (mkRejection "invalid_ttl" (label +:+ " must be greater than zero"))
  else if MAX_IDEMPOTENCY_TTL_MS <? ttl_ms then
    Err (mkRejection "ttl_too_large"
      (label +:+ " exceeds the " +:+ decimal MAX_IDEMPOTENCY_TTL_MS +:+ " ms (30d) ceiling"))
  else Ok tt.

Definition ttl (ttl_ms : Z) : checked := check_ttl ttl_ms.

Definition check_wait_timeout (wait_timeout_ms : Z) : checked :=
  if wait_timeout_ms =? 0 then
    Err (mkRejection "invalid_wait_timeout" "wait_timeout_ms must be greater than zero")
  else if MAX_WAIT_TIMEOUT_MS <? wait_timeout_ms then
    Err (mkRejection "wait_timeout_too_large"
      ("wait_timeout_ms exceeds the " +:+ decimal MAX_WAIT_TIMEOUT_MS +:+ " ms (24h) ceiling"))
  else Ok tt.

Definition check_required_holder (holder : option string) : checked :=
  match holder with
  | None => Err (mkRejection "missing_holder" "holder is required and must not be empty")
  | Some holder => check_holder holder
  end.

Definition validate_fencing_token (fencing_token : Z) : checked :=
  if (fencing_token =? 0) || (MAX_FENCING_TOKEN <? fencing_token) then
    Err (mkRejection "invalid_fencing_token"
      ("fencing_token must be between 1 and " +:+ decimal MAX_FENCING_TOKEN +:+ " inclusive"))
  else Ok tt.

(** The entries of a [HashMap] in its iteration order. *)
Definition check_metadata `{HashOrder} (metadata : gmap string string) : checked :=
  if bool_decide (MAX_METADATA_ENTRIES < size metadata)%nat then
    Err (mkRejection "too_much_metadata"
      ("metadata has " +:+ decimal (Z.of_nat (size metadata)) +:+ " entries; max is "
         +:+ decimal (Z.of_nat MAX_METADATA_ENTRIES)))
  else
    check_each (λ k,
      try! _ := check_str "metadata key" k MAX_METADATA_KEY_BYTES false in
      check_str "metadata value" (default "" (metadata !! k)) MAX_METADATA_VALUE_BYTES true)
      (hash_keys metadata).

(** ** Requests *)

Definition check_key_count (keys : list string) : checked :=
  if bool_decide (MAX_LOCK_KEYS < length keys)%nat then
    Err (mkRejection "too_many_keys"
      ("union lock has " +:+ decimal (Z.of_nat (length keys)) +:+ " keys; max is "
         +:+ decimal (Z.of_nat MAX_LOCK_KEYS)))
  else Ok tt.

Definition check_lock_keys (keys : list string) : checked :=
  check_each (λ key, check_str "lock key" key MAX_KEY_BYTES false) keys.

Definition check_keys_given (keys : list string) : checked :=
  if bool_decide (keys = []) then Err (mkRejection "no_keys" "provide `keys` or `key`") else Ok tt.

Definition lock_acquire (keys : list string) (holder : option string) (ttl_ms wait_timeout_ms : option Z) :
    checked :=
  try! _ := check_key_count keys in
  try! _ := check_lock_keys keys in
  try! _ := check_required_holder holder in
  try! _ := check_some check_ttl ttl_ms in
  check_some check_wait_timeout wait_timeout_ms.

Definition lock_release (holder : string) : checked := check_holder holder.

Definition lock_renew (keys : list string) (holder : string) (fencing_token : Z) (ttl_ms : option Z) : checked :=
  try! _ := check_keys_given keys in
  try! _ := check_key_count keys in
  try! _ := check_lock_keys keys in
  try! _ := check_holder holder in
  try! _ := validate_fencing_token fencing_token in
  check_some check_ttl ttl_ms.

Definition lock_cancel (keys : list string) (holder : string) : checked :=
  try! _ := check_keys_given keys in
  try! _ := check_key_count keys in
  try! _ := check_lock_keys keys in
  check_holder holder.

Definition semaphore_acquire (key : string) (holder : option string) (limit : Z)
    (ttl_ms wait_timeout_ms : option Z) : checked :=
  try! _ := check_str "semaphore key" key MAX_KEY_BYTES false in
  try! _ := check_required_holder holder in
  if limit =? 0 then Err (mkRejection "invalid_limit" "semaphore limit must be greater than zero")
  else if MAX_SEMAPHORE_LIMIT <? limit then
    Err (mkRejection "limit_too_large"
      ("semaphore limit " +:+ decimal limit +:+ " exceeds " +:+ decimal MAX_SEMAPHORE_LIMIT))
  else
    try! _ := check_some check_ttl ttl_ms in
    check_some check_wait_timeout wait_timeout_ms.

Definition semaphore_holder (key holder : string) : checked :=
  try! _ := check_str "semaphore key" key MAX_KEY_BYTES false in
  check_holder holder.

Definition semaphore_renew (key holder : string) (fencing_token : Z) (ttl_ms : option Z) : checked :=
  try! _ := semaphore_holder key holder in
  try! _ := validate_fencing_token fencing_token in
  check_some check_ttl ttl_ms.

Definition counter (key : string) : checked := check_str "counter key" key MAX_KEY_BYTES false.
Definition barrier (name : string) : checked := check_str "barrier name" name MAX_NAME_BYTES false.

Definition check_weight (weight : Z) : checked :=
  if MAX_WEIGHT <? weight then
    Err (mkRejection "weight_too_large" ("weight " +:+ decimal weight +:+ " exceeds " +:+ decimal MAX_WEIGHT))
  else Ok tt.

Definition barrier_arrive (name participant : string) (weight : Z) : checked :=
  try! _ := check_str "barrier name" name MAX_NAME_BYTES false in
  try! _ := check_str "participant" participant MAX_HOLDER_BYTES false in
  check_weight weight.

Definition task (name : string) (worker : option string) : checked :=
  try! _ := check_str "task name" name MAX_NAME_BYTES false in
  check_some (λ worker, check_str "worker" worker MAX_HOLDER_BYTES false) worker.

Definition handoff (name : string) (from to : option string) : checked :=
  try! _ := check_str "handoff name" name MAX_NAME_BYTES false in
  try! _ := check_some (λ from, check_str "from" from MAX_HOLDER_BYTES false) from in
  check_some (λ to, check_str "to" to MAX_HOLDER_BYTES false) to.

Definition budget (name : string) (reservation_id holder : option string) : checked :=
  try! _ := check_str "budget name" name MAX_NAME_BYTES false in
  try! _ := check_some (λ id, check_str "reservation_id" id MAX_NAME_BYTES false) reservation_id in
  check_some (λ holder, check_str "holder" holder MAX_HOLDER_BYTES false) holder.

Definition budget_amount (amount : BudgetAmount) : checked :=
  check_each (λ axis : string * option Z,
      if is_some_and axis.2 (λ value, MAX_BUDGET_AMOUNT <? value) then
        Err (mkRejection "amount_too_large" (axis.1 +:+ " exceeds " +:+ decimal MAX_BUDGET_AMOUNT))
      else Ok tt)
    [("usd_micros", usd_micros amount); ("tokens", tokens amount); ("tool_calls", tool_calls amount)].

Definition claim (name : string) (actor : option string) : checked :=
  try! _ := check_str "claim name" name MAX_NAME_BYTES false in
  check_some (λ actor, check_str "actor" actor MAX_HOLDER_BYTES false) actor.

Definition decision (name : string) (voter : option string) : checked :=
  try! _ := check_str "decision name" name MAX_NAME_BYTES false in
  check_some (λ voter, check_str "voter" voter MAX_HOLDER_BYTES false) voter.

Definition decision_vote (name voter : string) (weight : Z) : checked :=
  try! _ := decision name (Some voter) in
  check_weight weight.

Definition effect (name : string) (principal : option string) : checked :=
  try! _ := check_str "effect name" name MAX_NAME_BYTES false in
  check_some (λ principal, check_str "principal" principal MAX_HOLDER_BYTES false) principal.

Definition check_path_segment (label value : string) : checked :=
  try! _ := check_str label value MAX_RATE_LIMIT_SEGMENT_BYTES false in
  if has_control value || has_whitespace value then
    Err (mkRejection "invalid_field" (label +:+ " must not contain control or whitespace characters"))
  else Ok tt.

Definition rate_limit (tenant key : string) : checked :=
  try! _ := check_path_segment "tenant" tenant in
  check_path_segment "key" key.

(** [!refill.is_finite() || refill <= 0.0] *)
Definition bad_refill (refill : f64) : bool :=
  match refill with
  | S754_finite false _ _ => false
  | _ => true
  end.

Definition rate_limit_params (limit window_ms cost : Z) (refill_per_second : option f64) : checked :=
  if limit =? 0 then Err (mkRejection "invalid_limit" "rate limit must be greater than zero")
  else if MAX_RATE_LIMIT_LIMIT <? limit then
    Err (mkRejection "limit_too_large"
      ("rate limit " +:+ decimal limit +:+ " exceeds " +:+ decimal MAX_RATE_LIMIT_LIMIT))
  else if window_ms =? 0 then Err (mkRejection "invalid_window" "window_ms must be greater than zero")
  else if cost =? 0 then Err (mkRejection "invalid_cost" "cost must be greater than zero")
  else if MAX_RATE_LIMIT_COST <? cost then
    Err (mkRejection "cost_too_large" ("cost " +:+ decimal cost +:+ " exceeds " +:+ decimal MAX_RATE_LIMIT_COST))
  else check_some (λ refill,
    if bad_refill refill then
      Err (mkRejection "invalid_refill" "refill_per_second must be a finite number greater than zero")
    else Ok tt) refill_per_second.

Definition service_register `{HashOrder} (service instance_id address : string) (ttl_ms : Z)
    (metadata : gmap string string) : checked :=
  try! _ := check_str "service" service MAX_NAME_BYTES false in
  try! _ := check_str "instance_id" instance_id MAX_HOLDER_BYTES false in
  try! _ := check_str "address" address MAX_ADDRESS_BYTES false in
  try! _ := check_ttl ttl_ms in
  check_metadata metadata.

Definition election_campaign `{HashOrder} (name candidate : string) (ttl_ms : Z)
    (metadata : gmap string string) : checked :=
  try! _ := check_str "election name" name MAX_NAME_BYTES false in
  try! _ := check_str "candidate" candidate MAX_HOLDER_BYTES false in
  try! _ := check_ttl ttl_ms in
  check_metadata metadata.

(** ** Stored holders *)

(** [str::split_once] on a string delimiter. *)
Fixpoint split_once_str (p s : string) : option (string * string) :=
  match strip_prefix p s with
  | Some rest => Some (EmptyString, rest)
  | None => match s with
            | EmptyString => None
            | String a s => prod_map (String a) id <$> split_once_str p s
            end
  end.

Definition valid_holder_component (value : string) : bool :=
  negb (String.eqb value "") && (byte_len value <=? MAX_HOLDER_BYTES) && negb (is_blank value)
  && negb (has_control value).

Definition valid_stored_holder `{External} (value : string) : bool :=
  match strip_prefix ORG_SCOPE_DELIM value with
  | None => valid_holder_component value
  | Some scoped =>
      match split_once_str ORG_SCOPE_DELIM scoped with
      | None => false
      | Some (org, holder) =>
          negb (String.eqb org "") && (byte_len org <=? MAX_ORG_BYTES)
          && negb (has_control org || has_whitespace org) && valid_holder_component holder
      end
  end.
