(* ===== verification/Snapshot.v ===== *)
(** Snapshots of src/state.rs: the checks a deserialised store must pass before
    it becomes live ([validate_restored]), and the stamped envelope written by
    [snapshot] and read back by [restore]. *)

From Stdlib Require Import Ascii.
From S2P Require Import Prelude Json Fencing Fifo Cancellation Locks Semaphores Tasks Handoffs Text Idempotency Elections Command StateMachine Authority Validate.

(** ** Referenced tokens *)

Definition max_list (l : list Z) : Z := foldl Z.max 0 l.

Definition referenced_tokens (st : Store) : list Z :=
  mbind (M := list) (λ e : Z * LockGrant, [e.1; g_token e.2]) (map_to_list (grants (lock_table st)))
  ++ (map_to_list (held (lock_table st))).*2
  ++ mbind (M := list) (λ e : string * Semaphore, slot_tokens e.2) (map_to_list (semaphore_table st))
  ++ ((i_token ∘ snd) <$> map_to_list (idempotency st))
  ++ ((l_token ∘ snd) <$> map_to_list (elections st))
  ++ ((t_token ∘ snd) <$> map_to_list (tasks st))
  ++ mbind (M := list) (λ e : string * HandoffRecord,
       h_from_token e.2 :: match h_to_token e.2 with Some t => [t] | None => [] end)
       (map_to_list (handoffs st)).

Definition max_referenced_fencing_token (st : Store) : Z := max_list (referenced_tokens st).

(** ** Validation *)

(** One constructor per message of [validate_restored]; the names and numbers
    the messages quote are left out. *)
Inductive RestoreError : Type :=
| UnsupportedProtocol
| ReferencedTokenTooLarge
| CounterTooLarge
| CounterBelowReferenced
| HeldWithoutGrant
| HeldOutsideGrant
| GrantMisindexed
| GrantHolder
| GrantKeys
| GrantRequest
| GrantKeyNotHeld
| QueueMisindexed
| QueueRequest
| QueueGranted
| SemaphoreShape
| SemaphoreHolder
| SemaphoreWaiter
| LedgerInvalid (message : string).

Abbreviation verdict := (result unit RestoreError).

Definition ensure (b : bool) (e : RestoreError) : verdict := if b then Ok tt else Err e.

(** A loop whose body may return an error. *)
Fixpoint all_ok {A} (f : A → verdict) (l : list A) : verdict :=
  match l with
  | [] => Ok tt
  | x :: l => try! _ := f x in all_ok f l
  end.

Section validation.
Context `{External}.

Definition request_ok (request_id : option string) : bool :=
  negb (is_some_and request_id (λ r,
    is_blank r || (MAX_REQUEST_ID_BYTES <? byte_len r) || has_control r)).

Definition keys_ok (keys : list string) : bool :=
  negb (bool_decide (keys = []) || bool_decide (MAX_LOCK_KEYS < length keys)%nat
        || negb (bool_decide (canonical_keys keys = keys))
        || existsb (λ key, String.eqb key "" || (MAX_KEY_BYTES <? byte_len key)) keys).

Definition lease_ok (ttl_ms requested_ms : Z) (wait_expires_ms : option Z) : bool :=
  negb ((ttl_ms =? 0) || (MAX_TTL_MS <? ttl_ms)
        || is_some_and wait_expires_ms (λ expires, expires <? requested_ms)).

Definition validate_held (m : LockManager) (e : string * Z) : verdict :=
  match grants m !! e.2 with
  | None => Err HeldWithoutGrant
  | Some grant => ensure (bool_decide (e.1 ∈ g_keys grant)) HeldOutsideGrant
  end.

Definition validate_grant (m : LockManager) (e : Z * LockGrant) : verdict :=
  let '(token, grant) := e in
  try! _ := ensure (negb ((token =? 0) || negb (g_token grant =? token))) GrantMisindexed in
  try! _ := ensure (valid_stored_holder (g_holder grant)) GrantHolder in
  try! _ := ensure (keys_ok (g_keys grant)) GrantKeys in
  try! _ := ensure (request_ok (g_request grant)) GrantRequest in
  all_ok (λ key, ensure (bool_decide (held m !! key = Some token)) GrantKeyNotHeld) (g_keys grant).

Definition validate_queued (m : LockManager) (e : lock_id * QueuedLock) : verdict :=
  let '((indexed_holder, indexed_keys), queued) := e in
  try! _ := ensure (bool_decide (indexed_holder = w_holder queued)
                    && bool_decide (indexed_keys = w_keys queued)) QueueMisindexed in
  try! _ := ensure (valid_stored_holder (w_holder queued) && keys_ok (w_keys queued)
                    && lease_ok (w_ttl queued) (w_requested queued) (w_expires queued)
                    && request_ok (w_request queued)) QueueRequest in
  ensure (negb (existsb (λ g : Z * LockGrant,
            bool_decide (g_holder g.2 = w_holder queued) && bool_decide (g_keys g.2 = w_keys queued)
            && bool_decide (g_request g.2 = w_request queued)) (map_to_list (grants m)))) QueueGranted.

(** The loop over the slots keeps the holders and the tokens seen so far. *)
Fixpoint validate_slots (holders : gset string) (tokens : gset Z) (slots : list SemaphoreSlot) : verdict :=
  match slots with
  | [] => Ok tt
  | slot :: slots =>
      if negb (valid_stored_holder (s_holder slot)) || (s_token slot =? 0)
         || bool_decide (s_holder slot ∈ holders) || bool_decide (s_token slot ∈ tokens)
         || negb (request_ok (s_request slot))
      then Err SemaphoreHolder
      else validate_slots ({[s_holder slot]} ∪ holders) ({[s_token slot]} ∪ tokens) slots
  end.

Definition validate_waiter (sem : Semaphore) (e : string * QueuedPermit) : verdict :=
  let '(indexed_holder, queued) := e in
  ensure (bool_decide (indexed_holder = p_holder queued) && valid_stored_holder (p_holder queued)
          && negb (existsb (λ slot, bool_decide (s_holder slot = p_holder queued)) (holders sem))
          && lease_ok (p_ttl queued) (p_requested queued) (p_expires queued)
          && request_ok (p_request queued)) SemaphoreWaiter.

Definition validate_semaphore (e : string * Semaphore) : verdict :=
  let '(key, sem) := e in
  try! _ := ensure (negb (String.eqb key "" || (MAX_KEY_BYTES <? byte_len key) || (limit sem =? 0)
                          || (MAX_SEMAPHORE_LIMIT <? limit sem)
                          || (limit sem <? Z.of_nat (length (holders sem))))) SemaphoreShape in
  try! _ := validate_slots ∅ ∅ (holders sem) in
  all_ok (validate_waiter sem) (sem_queue sem).

Definition validate_ledger (label : string) (l : CancellationLedger) : verdict :=
  match validate l label with Ok _ => Ok tt | Err message => Err (LedgerInvalid message) end.

Definition validate_locks (m : LockManager) : verdict :=
  try! _ := all_ok (validate_held m) (map_to_list (held m)) in
  try! _ := all_ok (validate_grant m) (map_to_list (grants m)) in
  all_ok (validate_queued m) (queue m).

Definition validate_restored (st : Store) : verdict :=
  try! _ := ensure ((LEGACY_COMMAND_PROTOCOL <=? command_protocol st)
                    && (command_protocol st <=? CURRENT_COMMAND_PROTOCOL)) UnsupportedProtocol in
  let floor := max_referenced_fencing_token st in
  try! _ := ensure (negb (MAX_FENCING_TOKEN <? floor)) ReferencedTokenTooLarge in
  try! _ := ensure (negb (MAX_FENCING_TOKEN <? fencing_counter st)) CounterTooLarge in
  try! _ := ensure (negb (fencing_counter st <? floor)) CounterBelowReferenced in
  try! _ := validate_locks (lock_table st) in
  try! _ := all_ok validate_semaphore (map_to_list (semaphore_table st)) in
  try! _ := validate_ledger "lock" (lock_ledger st) in
  validate_ledger "semaphore" (semaphore_ledger st).
End validation.

(** ** The envelope *)

(** What the code takes from the crate [serde_json]; byte strings are strings. *)
Class Serde := {
  serde_error : Type;
  to_vec : Store → result string serde_error;
  from_slice : string → result Store serde_error
}.

(** An error of [serde_json] itself, or one the code makes with [custom]. *)
Inductive SnapshotError `{Serde} : Type :=
| SerdeFailed (e : serde_error)
| ProtocolNotSupported
| StampDisagrees
| StateRejected (e : RestoreError).

Definition nul : string := String (ascii_of_nat 0) "".
Definition newline : string := String (ascii_of_nat 10) "".
Definition PREVIOUS_PROTOCOL_SNAPSHOT_MAGIC : string := "FIDUCIA-STATE-MACHINE" +:+ nul +:+ "V2" +:+ newline.
Definition CURRENT_PROTOCOL_SNAPSHOT_MAGIC : string := "FIDUCIA-STATE-MACHINE" +:+ nul +:+ "V3" +:+ newline.

Definition serde_result `{Serde} {A} (r : result A serde_error) : result A SnapshotError :=
  match r with Ok a => Ok a | Err e => Err (SerdeFailed e) end.

Section envelope.
Context `{External, Serde}.

Definition snapshot (st : Store) : result string SnapshotError :=
  try! payload := serde_result (to_vec st) in
  if command_protocol st =? LEGACY_COMMAND_PROTOCOL then Ok payload
  else if command_protocol st =? LOCK_COMMAND_PROTOCOL then Ok (PREVIOUS_PROTOCOL_SNAPSHOT_MAGIC +:+ payload)
  else if command_protocol st =? CURRENT_COMMAND_PROTOCOL then Ok (CURRENT_PROTOCOL_SNAPSHOT_MAGIC +:+ payload)
  else Err ProtocolNotSupported.

(** The stamp of an envelope and its payload. *)
Definition open_envelope (bytes : string) : option Z * string :=
  match strip_prefix CURRENT_PROTOCOL_SNAPSHOT_MAGIC bytes with
  | Some payload => (Some CURRENT_COMMAND_PROTOCOL, payload)
  | None =>
      match strip_prefix PREVIOUS_PROTOCOL_SNAPSHOT_MAGIC bytes with
      | Some payload => (Some LOCK_COMMAND_PROTOCOL, payload)
      | None => (None, bytes)
      end
  end.

Definition expected_stamp (protocol : Z) : option Z :=
  if protocol =? LEGACY_COMMAND_PROTOCOL then None
  else if protocol =? LOCK_COMMAND_PROTOCOL then Some LOCK_COMMAND_PROTOCOL
  else if protocol =? CURRENT_COMMAND_PROTOCOL then Some CURRENT_COMMAND_PROTOCOL
  else None.

(** [Ok st] replaces the live store by [st]; an error leaves it alone. *)
Definition restore (bytes : string) : result Store SnapshotError :=
  let '(stamp, payload) := open_envelope bytes in
  try! restored := serde_result (from_slice payload) in
  if negb (bool_decide (stamp = expected_stamp (command_protocol restored))) then
    Err StampDisagrees
  else match validate_restored restored with
       | Ok _ => Ok restored
       | Err e => Err (StateRejected e)
       end.
End envelope.

(** ** Loops and checks *)

Lemma ensure_Ok b e : ensure b e = Ok tt ↔ b = true.
Proof. by destruct b. Qed.

Lemma try_Ok {A B E} (r : result A E) (f : A → result B E) b :
  result_bind r f = Ok b ↔ ∃ a, r = Ok a ∧ f a = Ok b.
Proof. destruct r; simpl; split; [eauto|by intros (? & [= ->] & ?)|done|by intros (? & ? & ?)]. Qed.

Lemma all_ok_Ok {A} (f : A → verdict) l : all_ok f l = Ok tt ↔ ∀ x, x ∈ l → f x = Ok tt.
Proof.
  induction l as [|x l IH]; simpl.
  - split; [|done]. by intros _ x Hx%not_elem_of_nil.
  - rewrite try_Ok. split.
    + intros ([] & Hx & Hl) y [->|Hy]%elem_of_cons; [done|by apply IH].
    + intros Hall. exists tt. split; [apply Hall; left|]. apply IH. intros y Hy. apply Hall. by right.
Qed.

(** Split an accepting chain of checks into its checks. *)
Ltac checks H :=
  repeat match type of H with
  | result_bind _ _ = Ok _ =>
      let E := fresh "Hok" in apply try_Ok in H as ([] & E & H); try rewrite ensure_Ok in E
  | ensure _ _ = Ok tt => rewrite ensure_Ok in H
  end.

Lemma max_list_ge l x : x ∈ l → x ≤ max_list l.
Proof.
  unfold max_list. enough (Hgen : ∀ acc, acc ≤ foldl Z.max acc l ∧ (x ∈ l → x ≤ foldl Z.max acc l)).
  { apply Hgen. }
  induction l as [|y l IH]; intros acc; simpl.
  - split; [done|]. by intros Hx%not_elem_of_nil.
  - destruct (IH (Z.max acc y)) as [H1 H2]. split; [lia|].
    intros [->|Hx]%elem_of_cons; [lia|auto].
Qed.

(** ** What an accepted store guarantees *)

Section soundness.
Context `{External}.

Lemma keys_ok_canonical keys : keys_ok keys = true → canonical keys.
Proof. unfold keys_ok. intros Hk. bools. by split. Qed.

Lemma validate_locks_sound c m :
  validate_locks m = Ok tt → Fifo.wf (queue m) →
  (∀ t g, grants m !! t = Some g → 0 ≤ t ≤ c) → lock_inv c m.
Proof.
  intros Hv Hwf Hbound. unfold validate_locks in Hv. checks Hv.
  rewrite all_ok_Ok in Hok. rewrite all_ok_Ok in Hok0. rewrite all_ok_Ok in Hv.
  assert (Hgrant : ∀ t g, grants m !! t = Some g → g_token g = t ∧ t ≠ 0 ∧ canonical (g_keys g) ∧
                    ∀ k, k ∈ g_keys g → held m !! k = Some t).
  { intros t g Hg. apply elem_of_map_to_list, Hok0 in Hg. unfold validate_grant in Hg. checks Hg. bools.
    rewrite all_ok_Ok in Hg. split_and!; [done..|by apply keys_ok_canonical|].
    intros k Hk. apply Hg in Hk. rewrite ensure_Ok in Hk. by bools. }
  split.
  - intros k t Hk. apply elem_of_map_to_list, Hok in Hk. unfold validate_held in Hk. simpl in Hk.
    destruct (grants m !! t) as [g|]; [|done]. rewrite ensure_Ok in Hk. bools. eauto.
  - intros t g Hg. destruct (Hgrant t g Hg) as (? & ? & ? & _). pose proof (Hbound t g Hg). split_and!; done || lia.
  - intros t g k Hg Hk. by apply (Hgrant t g Hg).
  - done.
  - intros [h ks] w Hw. apply Hv in Hw. unfold validate_queued in Hw. checks Hw. bools. subst.
    split; [done|by apply keys_ok_canonical].
  - intros t g [h ks] w Hg Hw E1 E2 E3. apply Hv in Hw. unfold validate_queued in Hw. checks Hw. bools.
    apply not_true_iff_false in Hw. apply Hw, existsb_exists. exists (t, g).
    split; [by apply list_elem_of_In, elem_of_map_to_list|]. simpl.
    rewrite !bool_decide_eq_true_2; done.
Qed.

(** Every token an authority carries is among the referenced ones. *)
Lemma carries_referenced st a t :
  (∀ t g, grants (lock_table st) !! t = Some g → g_token g = t) →
  carries st a t → t ∈ referenced_tokens st.
Proof.
  intros Htok Ha. unfold referenced_tokens. rewrite !elem_of_app. destruct a; simpl in Ha.
  - destruct Ha as (g & Hg & _). left. apply list_elem_of_bind. exists (t, g).
    split; [left|by apply elem_of_map_to_list].
  - destruct Ha as (s & Hs & slot & Hslot & _ & <-). right; right; left. apply list_elem_of_bind.
    exists (key_holder.1, s). split; [|by apply elem_of_map_to_list].
    apply list_elem_of_fmap. by exists slot.
  - destruct Ha as (r & Hr & [= <-]). right; right; right; left. apply list_elem_of_fmap.
    exists (key, r). split; [done|by apply elem_of_map_to_list].
  - destruct Ha as (r & Hr & [= <-]). right; right; right; right; left. apply list_elem_of_fmap.
    exists (name, r). split; [done|by apply elem_of_map_to_list].
  - destruct Ha as (r & Hr & E). unfold task_token in E. case_match; [done|]. injection E as <-.
    right; right; right; right; right; left. apply list_elem_of_fmap.
    exists (name, r). split; [done|by apply elem_of_map_to_list].
  - destruct Ha as (r & Hr & E). do 6 right. apply list_elem_of_bind. exists (name, r).
    split; [simpl; rewrite E; right; left|by apply elem_of_map_to_list].
Qed.

Lemma validate_slots_NoDup hs ts slots :
  validate_slots hs ts slots = Ok tt →
  NoDup (s_token <$> slots) ∧ ∀ slot, slot ∈ slots → s_token slot ∉ ts.
Proof.
  revert hs ts. induction slots as [|slot slots IH]; intros hs ts Hv; cbn [validate_slots] in Hv.
  - split; [constructor|]. by intros slot Hs%not_elem_of_nil.
  - destruct (_ || _) eqn:Hbad in Hv; [done|]. bools. destruct (IH _ _ Hv) as [Hnd Hfresh]. split.
    + rewrite fmap_cons. constructor; [|done]. intros (x & E & Hx)%list_elem_of_fmap.
      apply (Hfresh x Hx). rewrite <-E. apply elem_of_union_l, elem_of_singleton_2. done.
    + intros x [->|Hx]%elem_of_cons; [done|]. intros Ht. apply (Hfresh x Hx). by apply elem_of_union_r.
Qed.

(** A snapshot that passes the restore checks cannot serve wrong authority:
    the lock table satisfies the whole invariant of the live one, every token
    any primitive carries lies at or below the restored counter, so a token is
    never issued twice, every semaphore is within its limit with distinct
    tokens, and the counter and the protocol are in range. *)
Theorem restored_state_sound (st : Store)
    (Hok : validate_restored st = Ok tt)
    (Hqueue : Fifo.wf (queue (lock_table st)))
    (Hu64 : ∀ t g, grants (lock_table st) !! t = Some g → 0 ≤ t) :
  lock_inv (fencing_counter st) (lock_table st) ∧
  (∀ a t, carries st a t → t ≤ fencing_counter st) ∧
  (∀ key s, semaphore_table st !! key = Some s →
     Z.of_nat (length (holders s)) ≤ limit s ∧ NoDup (slot_tokens s)) ∧
  fencing_counter st ≤ MAX_FENCING_TOKEN ∧
  LEGACY_COMMAND_PROTOCOL ≤ command_protocol st ≤ CURRENT_COMMAND_PROTOCOL.
Proof.
  unfold validate_restored in Hok. checks Hok. bools.
  assert (Hmax : ∀ t, t ∈ referenced_tokens st → t ≤ fencing_counter st).
  { intros t Ht%max_list_ge. unfold max_referenced_fencing_token in *. lia. }
  assert (Hlocks : lock_inv (fencing_counter st) (lock_table st)).
  { apply validate_locks_sound; [done..|]. intros t g Hg. split; [by eapply Hu64|]. apply Hmax.
    unfold referenced_tokens. rewrite elem_of_app. left. apply list_elem_of_bind. exists (t, g).
    split; [left|by apply elem_of_map_to_list]. }
  split_and!; try done || lia.
  - intros a t Ha. apply Hmax. apply (carries_referenced st a); [|done].
    intros t' g Hg. by apply (li_grant _ _ Hlocks).
  - intros key s Hs. rewrite all_ok_Ok in Hok5. apply elem_of_map_to_list, Hok5 in Hs.
    unfold validate_semaphore in Hs. checks Hs. bools. split; [lia|].
    by apply validate_slots_NoDup in Hok7 as [? _].
Qed.
End soundness.

(** Two requests of one organisation, granted and queued. *)
Definition saved_log : list (Command * Z) :=
  [(LockAcquireV2 ["a"; "b"] "h" 50 true None, 10); (LockAcquireV2 ["b"; "c"] "i" 50 true None, 11);
   (SemaphoreAcquireV2 "s" "h" 2 50 true None, 12)].
Definition saved : Store := @apply_log plain_external identity_order inhabitant saved_log.

Lemma restored_state_sound_witness :
  @validate_restored plain_external saved = Ok tt ∧ lock_inv 2 (lock_table saved).
Proof.
  assert (Hok : @validate_restored plain_external saved = Ok tt) by (vm_compute; reflexivity).
  split; [exact Hok|].
  apply (@restored_state_sound plain_external saved Hok).
  - unfold Fifo.wf. vm_compute. repeat constructor. intros Hin. by apply not_elem_of_nil in Hin.
  - intros t g Hg. apply elem_of_map_to_list in Hg.
    replace (map_to_list (grants (lock_table saved))) with [(1, mkGrant "h" ["a"; "b"] 1 60 None)] in Hg
      by (vm_compute; reflexivity).
    apply list_elem_of_singleton in Hg. injection Hg as -> _. done.
Defined.

(** ** The envelope *)

Definition stamp_of (protocol : Z) : string :=
  if protocol =? LOCK_COMMAND_PROTOCOL then PREVIOUS_PROTOCOL_SNAPSHOT_MAGIC
  else if protocol =? CURRENT_COMMAND_PROTOCOL then CURRENT_PROTOCOL_SNAPSHOT_MAGIC
  else "".

Lemma strip_prefix_Some p s rest : strip_prefix p s = Some rest ↔ s = p +:+ rest.
Proof.
  revert s. induction p as [|a p IH]; intros s; simpl.
  - split; [by intros [= ->]|by intros ->].
  - destruct s as [|b s]; [done|]. destruct (Ascii.eqb_spec a b) as [->|Hne].
    + rewrite IH. split; [by intros ->|by intros [= ->]].
    + split; [done|by intros [= -> _]].
Qed.

Section roundtrip.
Context `{External, Serde}.

Lemma open_envelope_stamp bytes stamp payload p :
  open_envelope bytes = (stamp, payload) → stamp = expected_stamp p → bytes = stamp_of p +:+ payload.
Proof.
  unfold open_envelope, expected_stamp, stamp_of.
  destruct (strip_prefix CURRENT_PROTOCOL_SNAPSHOT_MAGIC bytes) as [p3|] eqn:E3.
  { apply strip_prefix_Some in E3 as ->. intros [= <- <-]. repeat case_match; bools; subst; done. }
  destruct (strip_prefix PREVIOUS_PROTOCOL_SNAPSHOT_MAGIC bytes) as [p2|] eqn:E2.
  { apply strip_prefix_Some in E2 as ->. intros [= <- <-]. repeat case_match; bools; subst; done. }
  intros [= <- <-]. repeat case_match; bools; subst; done.
Qed.

(** Only a faithful snapshot becomes live: whatever bytes [restore]
    accepts are the stamp of the restored store's own protocol followed by a
    payload that deserialises to it, and the store passed validation.  In
    particular a store that a newer protocol wrote is never accepted without
    its stamp. *)
Theorem restore_accepts_only (bytes : string) (st : Store) (Hok : restore bytes = Ok st) :
  ∃ payload, bytes = stamp_of (command_protocol st) +:+ payload ∧
    from_slice payload = Ok st ∧ validate_restored st = Ok tt.
Proof.
  unfold restore in Hok. destruct (open_envelope bytes) as [stamp payload] eqn:E.
  apply try_Ok in Hok as (restored & Hr & Hok). unfold serde_result in Hr.
  destruct (from_slice payload) as [r|] eqn:Hf; [|done]. injection Hr as ->.
  destruct (bool_decide _) eqn:Hs in Hok; [|done]. bools. simpl in Hok.
  destruct (validate_restored restored) as [[]|] eqn:Hv; [|done]. injection Hok as ->.
  exists payload. split_and!; [|done..]. by eapply open_envelope_stamp.
Qed.

(** A snapshot restores to the state it was taken from: if [serde_json]
    writes the store as a JSON object and reads that object back as the same
    store, and the store passes validation, then [snapshot] succeeds and
    [restore] of its bytes yields the store. *)
Theorem restore_snapshot (st : Store) (payload rest : string)
    (Hser : to_vec st = Ok payload) (Hobject : payload = String "{"%char rest)
    (Hde : from_slice payload = Ok st) (Hvalid : validate_restored st = Ok tt) :
  ∃ bytes, snapshot st = Ok bytes ∧ restore bytes = Ok st.
Proof.
  assert (Hp : command_protocol st = 1 ∨ command_protocol st = 2 ∨ command_protocol st = 3).
  { unfold validate_restored in Hvalid. checks Hvalid. bools.
    unfold LEGACY_COMMAND_PROTOCOL, CURRENT_COMMAND_PROTOCOL in *. lia. }
  exists (stamp_of (command_protocol st) +:+ payload).
  assert (Hopen : open_envelope (stamp_of (command_protocol st) +:+ payload) =
                  (expected_stamp (command_protocol st), payload)).
  { unfold open_envelope. destruct Hp as [->|[->| ->]]; subst payload; reflexivity. }
  split.
  - unfold snapshot. rewrite Hser. simpl. destruct Hp as [E|[E|E]]; rewrite E; reflexivity.
  - unfold restore. rewrite Hopen, Hde. simpl. by rewrite bool_decide_eq_true_2, Hvalid.
Qed.
End roundtrip.

(** A serialiser that knows one store. *)
Definition saved_serde : Serde :=
  {| serde_error := unit; to_vec _ := Ok "{}"; from_slice _ := Ok saved |}.

Lemma restore_snapshot_witness :
  ∃ bytes, @snapshot saved_serde saved = Ok bytes ∧ @restore plain_external saved_serde bytes = Ok saved.
Proof.
  apply (@restore_snapshot plain_external saved_serde saved "{}" "}"); [reflexivity..|].
  vm_compute. reflexivity.
Defined.

Lemma restore_accepts_only_witness :
  ∃ payload, PREVIOUS_PROTOCOL_SNAPSHOT_MAGIC +:+ "{}" = PREVIOUS_PROTOCOL_SNAPSHOT_MAGIC +:+ payload ∧
    @validate_restored plain_external saved = Ok tt.
Proof.
  destruct (@restore_accepts_only plain_external saved_serde (PREVIOUS_PROTOCOL_SNAPSHOT_MAGIC +:+ "{}") saved)
    as (payload & E & _ & Hv); [vm_compute; reflexivity|].
  exists payload. split; [exact E|exact Hv].
Defined.

(** ** Reachable states that cannot be restored *)

(** One holder may hold two permits of a semaphore under two attempt
    identities, or hold one and wait for another; both requests pass input
    validation and the machine grants or queues them, but the restore checks
    reject every snapshot of that state. *)
Theorem repeat_semaphore_holder_unrestorable :
  let st limit := @apply_log plain_external identity_order inhabitant
    [(SemaphoreAcquireAttempt "s" "w" "r1" limit 1000 true None, 10);
     (SemaphoreAcquireAttempt "s" "w" "r2" limit 1000 true None, 11)] in
  semaphore_acquire "s" (Some "w") 2 (Some 1000) None = Ok tt ∧
  acquisition_request_id (Some "r1") = Ok tt ∧ acquisition_request_id (Some "r2") = Ok tt ∧
  @validate_restored plain_external (st 2) = Err SemaphoreHolder ∧
  @validate_restored plain_external (st 1) = Err SemaphoreWaiter.
Proof. vm_compute. split_and!; reflexivity. Qed.

(** A handoff offer records the offerer's token without raising the
    counter, although tokens of other shards may lie above it; until the offer
    is accepted, the restore checks reject every snapshot of the shard. *)
Theorem foreign_handoff_offer_unrestorable :
  let st := @apply_log plain_external identity_order inhabitant
    [(HandoffOffer "n" "db" "a" "b" 500 JNull 1000, 10)] in
  is_Some (handoffs st !! "n") ∧ @validate_restored plain_external st = Err CounterBelowReferenced.
Proof. vm_compute. split; [by eexists|reflexivity]. Qed.
