(* ===== verification/OrgScope.v ===== *)
(** Tenant isolation of src/org_scope.rs: the validated organisation of a
    request, the private key space of an organisation, and the filter that
    removes the prefix from every identity of a response. *)

From Stdlib Require Import Ascii.
From S2P Require Import Prelude Json Text Cancellation Validate Snapshot.

(** What the code takes from the crate [fiducia_routing], with what its
    documentation says of it: [\x01<org>\x01<key>], delimited by SOH. *)
Class Scoping `{External} := {
  org_scope_prefix : string → string;
  org_scoped_key : string → string → string
}.

Class ScopingLaws `{Scoping} : Prop := {
  delim_is_soh : ORG_SCOPE_DELIM = String (ascii_of_nat 1) "";
  prefix_format org : org_scope_prefix org = ORG_SCOPE_DELIM +:+ org +:+ ORG_SCOPE_DELIM;
  scoped_format org key : org_scoped_key org key = org_scope_prefix org +:+ key
}.

Section scope.
Context `{Scoping}.

Definition valid_org (value : string) : bool :=
  negb (String.eqb value "") && (byte_len value <=? MAX_ORG_BYTES)
  && negb (has_control value || has_whitespace value).

Definition scope (org key : string) : string := org_scoped_key org key.
Definition unscope (org scoped : string) : option string := strip_prefix (org_scope_prefix org) scoped.
Definition scope_all (org : string) (keys : list string) : list string := scope org <$> keys.

Definition IDENTITY_FIELDS : list string :=
  ["key"; "keys"; "held_keys"; "conflicts"; "name"; "tenant"; "service"; "holder"; "superseded_by";
   "idempotency_key"].

Definition OPAQUE_FIELDS : list string :=
  ["value"; "payload"; "result"; "context"; "checkpoint"; "metadata"; "evidence"; "target"].

Definition contains (l : list string) (x : string) : bool := existsb (String.eqb x) l.

(** [unscope_value], which rewrites in place and reports [false] on a foreign
    identity: here [None] instead of [false]. *)
Fixpoint unscope_value (org : string) (value : Value) (identity : bool) : option Value :=
  match value with
  | JStr text =>
      if identity && String.prefix ORG_SCOPE_DELIM text then JStr <$> unscope org text else Some (JStr text)
  | JArr items =>
      JArr <$> (fix all (l : list Value) : option (list Value) :=
        match l with
        | [] => Some []
        | item :: l =>
            item ← unscope_value org item identity;
            l ← all l;
            Some (item :: l)
        end) items
  | JObj fields =>
      JObj <$> (fix all (l : list (string * Value)) : option (list (string * Value)) :=
        match l with
        | [] => Some []
        | (field, child) :: l =>
            child ← (if contains OPAQUE_FIELDS field then Some child
                     else unscope_value org child (contains IDENTITY_FIELDS field));
            l ← all l;
            Some ((field, child) :: l)
        end) fields
  | other => Some other
  end.

Definition is_exempt (path : string) : bool :=
  contains ["/status"; "/observe/shards"; "/observe/metrics"; "/v1/status"; "/v1/observe/shards";
            "/v1/observe/metrics"] path.

(** The decision of the [require_org] middleware. *)
Inductive OrgDecision : Type :=
| Exempt
| Scoped (org : string)
| Rejected (code : string).

Definition require_org (path : string) (header : option string) : OrgDecision :=
  if is_exempt path then Exempt
  else match header with
       | Some org => if valid_org org then Scoped org else Rejected "invalid_org"
       | None => Rejected "missing_org"
       end.

End scope.

#[global] Arguments contains : simpl never.

(** ** Strings *)

Lemma append_cons a s t : String a s +:+ t = String a (s +:+ t).
Proof. done. Qed.

Lemma append_assoc s t u : (s +:+ t) +:+ u = s +:+ (t +:+ u).
Proof. induction s as [|a s IH]; [done|]. rewrite !append_cons. by rewrite IH. Qed.

Lemma length_append s t : String.length (s +:+ t) = (String.length s + String.length t)%nat.
Proof. induction s as [|a s IH]; [done|]. rewrite append_cons. simpl. by rewrite IH. Qed.

Lemma has_control_app s t : has_control s = true → has_control (s +:+ t) = true.
Proof.
  induction s as [|a s IH]; [done|]. rewrite append_cons. cbn [has_control].
  intros [Hc|Hs]%orb_true_iff; apply orb_true_iff; [left|right; auto].
  unfold control_at in *. destruct s as [|b s]; [|done]. simpl in *.
  rewrite orb_false_r in Hc. rewrite Hc. done.
Qed.

(** SOH is a control character, wherever it stands. *)
Lemma soh_is_control s t : has_control (s +:+ String (ascii_of_nat 1) t) = true.
Proof.
  induction s as [|a s IH]; [done|]. rewrite append_cons. cbn [has_control]. rewrite IH. apply orb_true_r.
Qed.

Lemma app_soh_inj a b k k' :
  has_control a = false → has_control b = false →
  a +:+ String (ascii_of_nat 1) k = b +:+ String (ascii_of_nat 1) k' → a = b ∧ k = k'.
Proof.
  revert b. induction a as [|x a IH]; intros [|y b] Ha Hb E.
  - by injection E.
  - rewrite append_cons in E. injection E as <- E. done.
  - rewrite append_cons in E. injection E as -> E. done.
  - rewrite !append_cons in E. injection E as -> E. cbn [has_control] in *. bools.
    destruct (IH b) as [-> ->]; done.
Qed.

(** ** Key spaces *)

Section isolation.
Context `{ScopingLaws}.

Lemma valid_org_no_control org : valid_org org = true → has_control org = false.
Proof. unfold valid_org. intros Hv. by bools. Qed.

Lemma scope_format org key :
  scope org key = String (ascii_of_nat 1) (org +:+ String (ascii_of_nat 1) key).
Proof.
  unfold scope. rewrite scoped_format, prefix_format, delim_is_soh.
  by rewrite !append_assoc.
Qed.

Lemma unscope_Some org s k : unscope org s = Some k ↔ s = scope org k.
Proof. unfold unscope, scope. by rewrite scoped_format, strip_prefix_Some. Qed.

Lemma scope_inj a b k k' :
  valid_org a = true → valid_org b = true → scope a k = scope b k' → a = b ∧ k = k'.
Proof.
  rewrite !scope_format. intros Ha%valid_org_no_control Hb%valid_org_no_control E. injection E as E.
  by apply app_soh_inj.
Qed.

(** Organisations have disjoint private key spaces, whatever characters
    the caller's keys contain: a key scoped by one valid organisation is read
    back by that organisation as it was given, and is invisible to every other
    one; and no two (organisation, key) pairs share a scoped key. *)
Theorem org_isolation (a b k k' : string) (Ha : valid_org a = true) (Hb : valid_org b = true) :
  unscope b (scope a k) = (if decide (a = b) then Some k else None) ∧
  (scope a k = scope b k' → a = b ∧ k = k').
Proof.
  split; [|by apply scope_inj]. case_decide as Hab.
  - subst. by apply unscope_Some.
  - destruct (unscope b (scope a k)) as [k0|] eqn:E; [|done].
    apply unscope_Some, scope_inj in E as [? _]; done.
Qed.

(** Every holder the handlers accept is stored in a form the restore
    checks accept: scoping a validated holder by a validated organisation
    always gives a valid stored holder. *)
Theorem scoped_holder_restorable (org holder : string)
    (Horg : valid_org org = true) (Hholder : check_holder holder = Ok tt) :
  valid_stored_holder (scope org holder) = true.
Proof.
  assert (Hc : valid_holder_component holder = true).
  { unfold check_holder, check_str in Hholder. unfold valid_holder_component.
    destruct (String.eqb holder "") eqn:E1; [done|]. simpl in Hholder.
    destruct (MAX_HOLDER_BYTES <? byte_len holder) eqn:E2; [done|]. simpl in Hholder.
    destruct (is_blank holder || has_control holder) eqn:E3; [done|].
    apply orb_false_iff in E3 as [-> ->]. rewrite (proj2 (Z.leb_le _ _)); [done|]. bools. lia. }
  unfold valid_stored_holder. rewrite scope_format, delim_is_soh. simpl.
  assert (Hsplit : ∀ o, has_control o = false →
    split_once_str (String (ascii_of_nat 1) "") (o +:+ String (ascii_of_nat 1) holder) = Some (o, holder)).
  { induction o as [|x o IH]; [done|]. cbn [has_control]. intros Ho. bools. rewrite append_cons.
    cbn [split_once_str strip_prefix]. destruct (Ascii.eqb_spec (ascii_of_nat 1) x) as [<-|]; [done|].
    by rewrite IH. }
  rewrite Hsplit by (by apply valid_org_no_control). rewrite Hc. unfold valid_org in Horg.
  by rewrite Horg.
Qed.
End isolation.

(** ** Responses *)

(** The strings the filter treats as identities, in order, and the rewriting of
    each of them, as two plain traversals. *)
Fixpoint identities (identity : bool) (value : Value) : list string :=
  match value with
  | JStr text => if identity then [text] else []
  | JArr items => mbind (M := list) (identities identity) items
  | JObj fields =>
      mbind (M := list) (λ e : string * Value,
        if contains OPAQUE_FIELDS e.1 then [] else identities (contains IDENTITY_FIELDS e.1) e.2) fields
  | _ => []
  end.

Fixpoint map_identities (f : string → string) (identity : bool) (value : Value) : Value :=
  match value with
  | JStr text => JStr (if identity then f text else text)
  | JArr items => JArr (map_identities f identity <$> items)
  | JObj fields =>
      JObj ((λ e : string * Value,
        (e.1, if contains OPAQUE_FIELDS e.1 then e.2
              else map_identities f (contains IDENTITY_FIELDS e.1) e.2)) <$> fields)
  | other => other
  end.

Section responses.
Context `{ScopingLaws}.

(** An identity is foreign when it is scoped, but not by this organisation. *)
Definition foreign (org text : string) : bool :=
  String.prefix ORG_SCOPE_DELIM text && bool_decide (unscope org text = None).
Definition caller_name (org text : string) : string :=
  if String.prefix ORG_SCOPE_DELIM text then default text (unscope org text) else text.

Lemma unscope_value_arr org items identity :
  unscope_value org (JArr items) identity =
  JArr <$> mapM (λ item, unscope_value org item identity) items.
Proof. reflexivity. Qed.

Lemma unscope_value_obj org fields identity :
  unscope_value org (JObj fields) identity =
  JObj <$> mapM (λ e : string * Value,
    child ← (if contains OPAQUE_FIELDS e.1 then Some e.2
             else unscope_value org e.2 (contains IDENTITY_FIELDS e.1));
    Some (e.1, child)) fields.
Proof.
  simpl. f_equal. induction fields as [|[k v] l IH]; [done|]. simpl.
  destruct (if contains OPAQUE_FIELDS k then _ else _); [|done]. simpl. by rewrite IH.
Qed.

(** Mapping a partial function that fails exactly on the elements with a
    foreign identity. *)
Lemma mapM_guarded {A B} (f : A → option B) (g : A → B) (ids : A → list string) (bad : string → bool) l :
  Forall (λ x, f x = if existsb bad (ids x) then None else Some (g x)) l →
  mapM f l = if existsb bad (mbind (M := list) ids l) then None else Some (g <$> l).
Proof.
  induction 1 as [|x l Hx _ IH]; [done|]. cbn [mapM mbind list_bind option_bind]. rewrite existsb_app, Hx.
  simpl. destruct (existsb bad (ids x)); [done|]. simpl. rewrite IH. simpl.
  by destruct (existsb bad _).
Qed.

Lemma unscope_value_spec org value identity :
  unscope_value org value identity =
  if existsb (foreign org) (identities identity value) then None
  else Some (map_identities (caller_name org) identity value).
Proof.
  revert identity. induction value as [|b|n|bits|s|l IH|fields IH] using value_ind'; intros identity; try done.
  - simpl. destruct identity; [|done]. simpl. unfold foreign, caller_name.
    destruct (String.prefix ORG_SCOPE_DELIM s); [|done]. simpl.
    by destruct (unscope org s).
  - rewrite unscope_value_arr.
    rewrite (mapM_guarded _ (map_identities (caller_name org) identity) (identities identity) (foreign org)).
    + simpl. by destruct (existsb _ _).
    + eapply Forall_impl; [exact IH|]. intros v Hv. apply Hv.
  - rewrite unscope_value_obj.
    rewrite (mapM_guarded _ (λ e : string * Value,
        (e.1, if contains OPAQUE_FIELDS e.1 then e.2
              else map_identities (caller_name org) (contains IDENTITY_FIELDS e.1) e.2))
      (λ e : string * Value, if contains OPAQUE_FIELDS e.1 then [] else identities (contains IDENTITY_FIELDS e.1) e.2)
      (foreign org)).
    + simpl. by destruct (existsb _ _).
    + eapply Forall_impl; [exact IH|]. intros [k v] Hv. simpl in *.
      destruct (contains OPAQUE_FIELDS k); [done|]. rewrite Hv. by destruct (existsb _ _).
Qed.

(** C26: A response never leaks another tenant's identity.  The filter refuses
    a response exactly when one of its identity fields carries the scope of
    another organisation; otherwise every identity of the organisation is
    replaced by the name the caller knows, unscoped identities and everything
    that is not an identity, opaque payloads included, stay as they were. *)
Theorem response_filter_exact (org : string) (value : Value) (Horg : valid_org org = true) :
  (unscope_value org value false = None ↔
     ∃ text, text ∈ identities false value ∧ String.prefix ORG_SCOPE_DELIM text = true ∧
             ∀ key, text ≠ scope org key) ∧
  (∀ value', unscope_value org value false = Some value' →
     value' = map_identities (caller_name org) false value ∧
     ∀ key, caller_name org (scope org key) = key).
Proof.
  rewrite unscope_value_spec. destruct (existsb _ _) eqn:E; (split; [split|]); try done.
  - intros _. apply existsb_exists in E as (text & Hin & Hf). exists text. unfold foreign in Hf. bools.
    split_and!; [by apply list_elem_of_In|done|]. intros key Hk. apply unscope_Some in Hk. congruence.
  - intros (text & Hin & Hp & Hno). assert (Hbad : existsb (foreign org) (identities false value) = true).
    { apply existsb_exists. exists text. split; [by apply list_elem_of_In|]. unfold foreign. rewrite Hp. simpl.
      apply bool_decide_eq_true. destruct (unscope org text) as [k|] eqn:Hk; [|done].
      apply unscope_Some in Hk. by apply Hno in Hk. }
    congruence.
  - intros value' [= <-]. split; [done|]. intros key. unfold caller_name.
    assert (Hk : unscope org (scope org key) = Some key) by (by apply unscope_Some).
    rewrite Hk, scope_format, delim_is_soh. by destruct (org +:+ _).
Qed.
End responses.

(** The format [fiducia_routing] documents. *)
Definition plain_scoping : @Scoping plain_external :=
  {| org_scope_prefix org := @ORG_SCOPE_DELIM plain_external +:+ org +:+ @ORG_SCOPE_DELIM plain_external;
     org_scoped_key org key :=
       (@ORG_SCOPE_DELIM plain_external +:+ org +:+ @ORG_SCOPE_DELIM plain_external) +:+ key |}.

Lemma plain_scoping_laws : @ScopingLaws plain_external plain_scoping.
Proof. by split. Qed.

Lemma org_isolation_witness :
  @unscope plain_external plain_scoping "org_victim"
    (@scope plain_external plain_scoping "org_9"
       (String (ascii_of_nat 1) "org_victim" +:+ String (ascii_of_nat 1) "secret")) = None.
Proof.
  refine (proj1 (@org_isolation plain_external plain_scoping plain_scoping_laws "org_9" "org_victim" _ "" _ _));
    vm_compute; reflexivity.
Defined.

Lemma scoped_holder_restorable_witness :
  @valid_stored_holder plain_external (@scope plain_external plain_scoping "org_9" "worker") = true.
Proof.
  apply (@scoped_holder_restorable plain_external plain_scoping plain_scoping_laws); vm_compute; reflexivity.
Defined.

Lemma response_filter_exact_witness :
  let scope := @scope plain_external plain_scoping in
  @unscope_value plain_external plain_scoping "org_9"
    (json! ["key" :- scope "org_9" "visible"; "payload" :- scope "other" "data"]) false
  = Some (json! ["key" :- "visible"; "payload" :- scope "other" "data"]) ∧
  @caller_name plain_external plain_scoping "org_9" (scope "org_9" "visible") = "visible".
Proof.
  split; [vm_compute; reflexivity|].
  refine (proj2 (proj2 (@response_filter_exact plain_external plain_scoping plain_scoping_laws "org_9" JNull _)
    JNull _) _); vm_compute; reflexivity.
Defined.
