(* ===== verification/LockApi.v ===== *)
(** The write handlers of src/locks.rs and src/semaphore.rs: from a request
    body and the organisation of the caller to the command that is proposed, or
    to the rejection that is returned instead. *)

From S2P Require Import Prelude Json Fencing Fifo Text Cancellation Locks Semaphores Command StateMachine Validate Snapshot OrgScope.

(** ** Locks *)

Module LockApi.

Record AcquireBody : Type := mkAcquireBody {
  keys : option (list string);
  key : option string;
  holder : option string;
  request_id : option string;
  ttl_ms : option Z;
  wait : option bool;
  wait_timeout_ms : option Z
}.

(** [keys.or_else(|| key.map(|k| vec![k])).unwrap_or_default()] *)
Definition body_keys (keys : option (list string)) (key : option string) : list string :=
  match keys, key with
  | Some ks, _ => ks
  | None, Some k => [k]
  | None, None => []
  end.

Section handlers.
Context `{Scoping}.

Definition acquire (org : string) (ks : list string) (body : AcquireBody) : Command :=
  let holder := default "" (holder body) in
  let scoped_keys := scope_all org ks in
  let scoped_holder := scope org holder in
  match request_id body with
  | Some request_id =>
      LockAcquireAttempt scoped_keys scoped_holder request_id (default 30000 (ttl_ms body))
        (default false (wait body)) (wait_timeout_ms body)
  | None =>
      LockAcquireV2 scoped_keys scoped_holder (default 30000 (ttl_ms body))
        (default false (wait body)) (wait_timeout_ms body)
  end.

Definition acquire_union (org : string) (body : AcquireBody) : result Command Rejection :=
  let ks := body_keys (keys body) (key body) in
  if bool_decide (ks = []) then Err (mkRejection "no_keys" "provide `keys` or `key`")
  else
    try! _ := lock_acquire ks (holder body) (ttl_ms body) (wait_timeout_ms body) in
    try! _ := acquisition_request_id (request_id body) in
    Ok (acquire org ks body).

Definition renew_token (org : string) (ks : option (list string)) (k : option string) (holder : string)
    (fencing_token : Z) (ttl : option Z) : result Command Rejection :=
  let ks := body_keys ks k in
  try! _ := lock_renew ks holder fencing_token ttl in
  Ok (LockRenew (scope_all org ks) (scope org holder) fencing_token (default 30000 ttl)).

Definition release_token (org holder : string) (fencing_token : Z) : result Command Rejection :=
  try! _ := lock_release holder in
  try! _ := validate_fencing_token fencing_token in
  Ok (LockRelease (scope org holder) fencing_token).

Definition cancel_waiter (org : string) (ks : option (list string)) (k : option string) (holder : string)
    (request_id : option string) : result Command Rejection :=
  let ks := body_keys ks k in
  try! _ := lock_cancel ks holder in
  try! _ := acquisition_request_id request_id in
  Ok (match request_id with
      | Some r => LockCancelAttempt (scope_all org ks) (scope org holder) r
      | None => LockCancel (scope_all org ks) (scope org holder)
      end).
End handlers.
End LockApi.

(** ** Semaphores *)

Module SemaphoreApi.

Record AcquireBody : Type := mkAcquireBody {
  key : string;
  holder : option string;
  request_id : option string;
  limit : Z;
  ttl_ms : option Z;
  wait : option bool;
  wait_timeout_ms : option Z
}.

Section handlers.
Context `{Scoping}.

Definition acquire (org : string) (body : AcquireBody) : result Command Rejection :=
  try! _ := semaphore_acquire (key body) (holder body) (limit body) (ttl_ms body) (wait_timeout_ms body) in
  try! _ := acquisition_request_id (request_id body) in
  let holder := scope org (default "" (holder body)) in
  let key := scope org (key body) in
  Ok (match request_id body with
      | Some request_id =>
          SemaphoreAcquireAttempt key holder request_id (limit body) (default 30000 (ttl_ms body))
            (default false (wait body)) (wait_timeout_ms body)
      | None =>
          SemaphoreAcquireV2 key holder (limit body) (default 30000 (ttl_ms body))
            (default false (wait body)) (wait_timeout_ms body)
      end).

Definition renew (org key holder : string) (fencing_token : Z) (ttl : option Z) : result Command Rejection :=
  try! _ := semaphore_renew key holder fencing_token ttl in
  Ok (SemaphoreRenew (scope org key) (scope org holder) fencing_token (default 30000 ttl)).

Definition release (org key holder : string) (fencing_token : Z) : result Command Rejection :=
  try! _ := semaphore_holder key holder in
  try! _ := validate_fencing_token fencing_token in
  Ok (SemaphoreRelease (scope org key) (scope org holder) fencing_token).

Definition cancel (org key holder : string) (request_id : option string) : result Command Rejection :=
  try! _ := semaphore_holder key holder in
  try! _ := acquisition_request_id request_id in
  Ok (match request_id with
      | Some r => SemaphoreCancelAttempt (scope org key) (scope org holder) r
      | None => SemaphoreCancel (scope org key) (scope org holder)
      end).
End handlers.
End SemaphoreApi.

(** ** Keys that become too long *)

(** A 1024-byte key is accepted at the door; scoped, it is longer than the
    restore checks allow. *)
Fixpoint repeat_char (n : nat) : string :=
  match n with O => "" | S n => String (Ascii.ascii_of_nat 120) (repeat_char n) end.

Definition long_body : LockApi.AcquireBody :=
  LockApi.mkAcquireBody None (Some (repeat_char 1024)) (Some "w") None None None None.

(** The handler accepts a lock on a key of 1024 bytes and the machine
    grants it, but the grant stores the key with its tenant prefix, and the
    restore checks, which bound the stored key by the same 1024 bytes, reject
    every snapshot taken while the lock is held. *)
Theorem longest_lock_key_unrestorable :
  ∃ command, @LockApi.acquire_union plain_external plain_scoping "org_9" long_body = Ok command ∧
    let '(st, out) := @apply_at plain_external identity_order inhabitant command 10 in
    flag "acquired" (output out) = true ∧
    @validate_restored plain_external st = Err GrantKeys.
Proof. eexists. split; [vm_compute; reflexivity|]. vm_compute. split; reflexivity. Qed.
