(* ===== verification/Restorable.v ===== *)
(** Completeness of the restore checks for the lock table: whatever validated
    lock requests were applied, next to any other commands, the lock table of
    the store passes [validate_restored]. *)

From S2P Require Import Prelude Json Fencing Fifo Text Cancellation Locks Semaphores Command StateMachine Authority MachineTheorems Validate Snapshot OrgScope LockApi.

Section entries.
Context `{External}.

(** ** Entries the checks accept *)

Definition entry_ok (holder : string) (keys : list string) (request : option string) : bool :=
  valid_stored_holder holder && keys_ok keys && request_ok request.

Record entries_ok (m : LockManager) : Prop := {
  eo_grant t g : grants m !! t = Some g → entry_ok (g_holder g) (g_keys g) (g_request g) = true;
  eo_queue id w : (id, w) ∈ queue m →
    entry_ok (w_holder w) (w_keys w) (w_request w) = true ∧ lease_ok (w_ttl w) (w_requested w) (w_expires w) = true
}.

Lemma entries_ok_empty : entries_ok no_locks.
Proof. split; [intros t g Hg; simpl in Hg; by apply lookup_empty_Some in Hg|by intros id w Hw%not_elem_of_nil]. Qed.

Lemma entries_ok_sub m m' :
  entries_ok m → (∀ t g, grants m' !! t = Some g → grants m !! t = Some g) →
  (∀ e, e ∈ queue m' → e ∈ queue m) → entries_ok m'.
Proof. intros [Hg Hq] H1 H2. split; eauto. Qed.

Lemma entries_ok_install m g :
  entries_ok m → entry_ok (g_holder g) (g_keys g) (g_request g) = true → entries_ok (install_grant m g).
Proof.
  intros [Hg Hq] Hok. split; [|done]. simpl. intros t g' [[_ <-]|[_ Hg']]%lookup_insert_Some; eauto.
Qed.

Lemma entries_ok_lease m t g lease :
  entries_ok m → grants m !! t = Some g →
  entries_ok (mkLocks (held m) (<[t := with_lease g lease]> (grants m)) (queue m)).
Proof.
  intros [Hg Hq] Ht. split; [|done]. simpl. intros t' g' [[_ <-]|[_ Hg']]%lookup_insert_Some; [|eauto].
  exact (Hg _ _ Ht).
Qed.

(** A promoted waiter passes its own entry on. *)
Lemma lock_promote_loop_entries fuel c m now vs :
  entries_ok m → let '(_, m', _) := lock_promote_loop fuel c m now vs in entries_ok m'.
Proof.
  revert c m vs. induction fuel as [|fuel IH]; intros c m vs Hm; simpl; [done|].
  destruct (lock_first_grantable m) as [id|]; [|done]. destruct (next_token c) as [t|]; [|done].
  destruct (Fifo.get id (queue m)) as [w|] eqn:Hw; [|done].
  apply IH, entries_ok_install.
  - eapply entries_ok_sub; [done..|]. simpl. intros e He. by apply list_elem_of_filter in He as [_ ?].
  - apply Fifo.get_elem_of in Hw. by apply (eo_queue _ Hm) in Hw as [? _].
Qed.

Lemma lock_promote_entries c m now :
  entries_ok m → let '(_, m', _) := lock_promote c m now in entries_ok m'.
Proof. apply lock_promote_loop_entries. Qed.

(** ** Requests whose entries the checks accept *)

Definition request_good (keys : list string) (holder : string) (request : option string) (ttl : Z)
    (timeout : option Z) : Prop :=
  valid_stored_holder holder = true ∧ (length keys ≤ MAX_LOCK_KEYS)%nat ∧
  (∀ k, k ∈ keys → byte_len k ≤ MAX_KEY_BYTES) ∧ request_ok request = true ∧
  0 < ttl ≤ MAX_TTL_MS ∧ (∀ t, timeout = Some t → 0 ≤ t).

(** Canonicalising keeps the bounds, and drops the empty key. *)
Lemma canonical_keys_ok keys :
  canonical_keys keys ≠ [] → (length keys ≤ MAX_LOCK_KEYS)%nat →
  (∀ k, k ∈ keys → byte_len k ≤ MAX_KEY_BYTES) → keys_ok (canonical_keys keys) = true.
Proof.
  intros Hne Hlen Hbytes. unfold keys_ok. apply negb_true_iff. rewrite !orb_false_iff. split_and!.
  - by apply bool_decide_eq_false.
  - apply bool_decide_eq_false. pose proof (length_canonical_keys keys). lia.
  - apply negb_false_iff, bool_decide_eq_true, canonical_keys_idemp.
  - apply not_true_is_false. intros (k & Hin & Hbad)%existsb_exists.
    apply list_elem_of_In, elem_of_canonical_keys in Hin as [Hin Hk].
    apply orb_true_iff in Hbad as [He|Hl]; [by apply String.eqb_eq in He|].
    apply Hbytes in Hin. apply Z.ltb_lt in Hl. lia.
Qed.

Lemma lease_ok_fresh ttl now expires :
  0 < ttl ≤ MAX_TTL_MS → (∀ t, expires = Some t → now ≤ t) → lease_ok ttl now expires = true.
Proof.
  intros Httl He. unfold lease_ok. rewrite (proj2 (Z.eqb_neq _ _)), (proj2 (Z.ltb_ge _ _)) by lia. simpl.
  destruct expires as [t|]; [|done]. simpl. by apply negb_true_iff, Z.ltb_ge, He.
Qed.

Lemma acquire_entries s revision now input :
  entries_ok (locks s) → is_u64 now →
  request_good (in_keys input) (in_holder input) (in_request_id input) (in_ttl_ms input) (in_wait_timeout_ms input) →
  entries_ok (locks (apply_lock_acquire s revision now input).1).
Proof.
  intros Hm Hnow (Hh & Hlen & Hbytes & Hreq & Httl & Hwait). unfold apply_lock_acquire.
  case_bool_decide as Hne; [done|]. set (keys := canonical_keys (in_keys input)) in *.
  assert (Hentry : entry_ok (in_holder input) keys (in_request_id input) = true).
  { pose proof (canonical_keys_ok (in_keys input) Hne Hlen Hbytes) as Hk. fold keys in Hk.
    unfold entry_ok. by rewrite Hh, Hreq, Hk. }
  case_goal; [done|].
  destruct (existing_grant _ _ _ _ _) as [[tok g]|] eqn:Hex.
  { simpl. destruct (in_legacy_semantics input); [|done]. apply entries_ok_lease; [done|].
    unfold existing_grant in Hex. apply bind_Some in Hex as (k0 & _ & Hex).
    apply bind_Some in Hex as (tok' & _ & Hex). apply bind_Some in Hex as (g0 & Hg0 & Hex).
    case_match; [|done]. by injection Hex as -> ->. }
  case_goal; [by case_goal; [apply entries_ok_install|]|]. simpl.
  split; [apply (eo_grant _ Hm)|]. simpl. intros id w Hw. case_match; [|by apply (eo_queue _ Hm) in Hw].
  unfold Fifo.push_back in Hw. case_match; [by apply (eo_queue _ Hm) in Hw|]. simpl in Hw.
  apply elem_of_app in Hw as [Hw|Hw%list_elem_of_singleton]; [by apply (eo_queue _ Hm) in Hw|].
  injection Hw as -> ->. split; [done|]. simpl. apply lease_ok_fresh; [done|].
  destruct (in_legacy_semantics input); [done|]. intros u [= <-]. apply sat_add_ge_l; [done|].
  destruct (in_wait_timeout_ms input) as [t|]; simpl; [by apply Hwait|]. unfold DEFAULT_WAIT_TIMEOUT_MS. lia.
Qed.

Lemma renew_entries s revision now keys holder tok ttl :
  entries_ok (locks s) → entries_ok (locks (apply_lock_renew s revision now keys holder tok ttl).1).
Proof.
  intros Hm. unfold apply_lock_renew. destruct (grants (locks s) !! tok) as [g|] eqn:Hg; [|done].
  case_goal; [done|]. case_goal; [done|]. by apply entries_ok_lease.
Qed.

Lemma release_entries s revision now holder tok :
  entries_ok (locks s) → entries_ok (locks (apply_lock_release s revision now holder tok).1).
Proof.
  intros Hm. unfold apply_lock_release. case_goal; [|done]. case_goal; [done|].
  pose proof (lock_promote_entries (next_fencing_token s) (release_grant (locks s) tok) now) as H1.
  destruct (lock_promote _ _ _) as [[c' m'] vs]. apply H1.
  eapply entries_ok_sub; [done|apply release_grant_sub|].
  intros e. unfold release_grant. by case_match.
Qed.

Lemma cancel_queued_entries s revision now keys holder rid :
  entries_ok (locks s) → entries_ok (locks (lock_cancel_queued s revision now keys holder rid).1).
Proof.
  intros Hm. unfold lock_cancel_queued. case_goal; [by repeat case_goal|].
  pose proof (lock_promote_entries (next_fencing_token s)
    (mkLocks (held (locks s)) (grants (locks s)) (Fifo.without (holder, keys) (queue (locks s)))) now) as H1.
  destruct (lock_promote _ _ _) as [[c' m'] vs]. apply H1. eapply entries_ok_sub; [done..|].
  simpl. intros e He. by apply Fifo.elem_of_without in He as [? _].
Qed.

Lemma cancel_entries s revision now keys holder rid :
  entries_ok (locks s) → entries_ok (locks (apply_lock_cancel s revision now keys holder rid).1).
Proof.
  intros Hm. unfold apply_lock_cancel. destruct rid as [r|]; [|by apply cancel_queued_entries].
  case_goal; [done|]. destruct (remember _ _ _ _) as [led []]; [|done].
  by apply (cancel_queued_entries (mkLockCtx (next_fencing_token s) (locks s) led)).
Qed.

Lemma expire_entries s now : entries_ok (locks s) → entries_ok (locks (locks_expire_due s now)).
Proof.
  intros Hm. unfold locks_expire_due.
  pose proof (lock_promote_entries (next_fencing_token s)
    (expire_grants (expire_waiters (locks s) now) now) now) as H1.
  destruct (lock_promote _ _ _) as [[c' m'] vs]. apply H1. eapply entries_ok_sub; [exact Hm| |].
  - intros t g. rewrite expire_grants_grants, lookup_retain_Some. by intros [? _].
  - intros e He. unfold expire_grants in He. rewrite foldl_release_queue in He. unfold expire_waiters in He. simpl in He.
    rewrite foldl_without in He. by apply list_elem_of_filter in He as [_ ?].
Qed.

(** The checks on a consistent table of acceptable entries all pass. *)
Lemma validate_locks_complete c m : lock_inv c m → entries_ok m → validate_locks m = Ok tt.
Proof.
  intros I [Hg Hq]. unfold validate_locks. apply try_Ok. exists tt. split.
  { apply all_ok_Ok. intros [k t] Hin%elem_of_map_to_list. unfold validate_held. simpl.
    destruct (li_held _ _ I _ _ Hin) as (g & -> & Hk). by rewrite bool_decide_eq_true_2. }
  apply try_Ok. exists tt. split; apply all_ok_Ok.
  - intros [t g] Hin%elem_of_map_to_list. destruct (li_grant _ _ I _ _ Hin) as (Ht & Hpos & _).
    pose proof (Hg _ _ Hin) as Hok. unfold entry_ok in Hok. bools. unfold validate_grant.
    rewrite (proj2 (Z.eqb_neq t 0)), (proj2 (Z.eqb_eq _ _)) by (done || lia). simpl.
    rewrite H0, H1, H2. simpl. apply all_ok_Ok. intros k Hk.
    rewrite (li_union _ _ I _ _ _ Hin Hk). by rewrite bool_decide_eq_true_2.
  - intros [[h ks] w] Hin. destruct (li_entry _ _ I _ _ Hin) as [[= -> ->] _].
    destruct (Hq _ _ Hin) as [Hok Hlease]. unfold entry_ok in Hok. bools. unfold validate_queued.
    rewrite !bool_decide_eq_true_2 by done. simpl. rewrite H0, H1, H2, Hlease. simpl.
    apply ensure_Ok, negb_true_iff, not_true_is_false. intros ([t g] & Hg' & Hsame)%existsb_exists.
    apply list_elem_of_In, elem_of_map_to_list in Hg'. bools. simpl in *.
    by eapply (li_attempt _ _ I).
Qed.
End entries.

(** ** Whole logs *)

Section logs.
Context `{External, HashOrder}.

Definition good_command (command : Command) : Prop :=
  match command with
  | LockAcquire keys holder ttl_ms _ timeout | LockAcquireV2 keys holder ttl_ms _ timeout =>
      request_good keys holder None ttl_ms timeout
  | LockAcquireAttempt keys holder request ttl_ms _ timeout =>
      request_good keys holder (Some request) ttl_ms timeout
  | _ => True
  end.

Lemma dispatch_entries st revision now command :
  entries_ok (lock_table st) → good_command command → is_u64 now →
  entries_ok (lock_table (dispatch st revision now command).1).
Proof.
  intros Hm Hgood Hnow. destruct (touches_locks command) eqn:Ht.
  - destruct command; try discriminate; cbn [dispatch lift fst].
    1-3: by apply (acquire_entries (lock_ctx st)).
    + by apply (renew_entries (lock_ctx st)).
    + by apply (release_entries (lock_ctx st)).
    + by apply (cancel_entries (lock_ctx st)).
    + by apply (cancel_entries (lock_ctx st)).
  - destruct (proj1 (dispatch_frame st revision now command) Ht) as [-> _]. done.
Qed.

Lemma apply_at_entries st command now :
  entries_ok (lock_table st) → good_command command → is_u64 now →
  entries_ok (lock_table (apply_at st command now).1).
Proof.
  intros Hm Hgood Hnow. unfold apply_at.
  assert (H1 : entries_ok (lock_table (prepare st command now))).
  { unfold prepare. destruct (is_activation command); [done|].
    by apply (expire_entries (lock_ctx st) now). }
  pose proof (dispatch_entries _ (revision (prepare st command now)) now command H1 Hgood Hnow) as H2.
  by destruct (dispatch _ _ _ _).
Qed.

Lemma apply_log_entries log st :
  entries_ok (lock_table st) → Forall (λ e, good_command e.1 ∧ is_u64 e.2) log →
  entries_ok (lock_table (apply_log st log)).
Proof.
  revert st. induction log as [|[command now] log IH]; intros st Hm Hlog; simpl; [done|].
  inversion Hlog as [|? ? [? ?]]; subst. apply IH; [by apply apply_at_entries|done].
Qed.
End logs.

(** ** Requests of the lock handler *)

Section handlers.
Context `{ScopingLaws}.

Lemma byte_len_scope org key : byte_len (scope org key) = byte_len org + byte_len key + 2.
Proof.
  rewrite scope_format. unfold byte_len. cbn [String.length]. rewrite length_append.
  cbn [String.length]. lia.
Qed.

(** Numbers of a request body are unsigned. *)
Definition body_unsigned (body : LockApi.AcquireBody) : Prop :=
  (∀ t, LockApi.ttl_ms body = Some t → 0 ≤ t) ∧ (∀ t, LockApi.wait_timeout_ms body = Some t → 0 ≤ t).

(** The keys leave room for the tenant prefix. *)
Definition room_for_scope (org : string) (body : LockApi.AcquireBody) : Prop :=
  ∀ k, k ∈ LockApi.body_keys (LockApi.keys body) (LockApi.key body) → byte_len org + byte_len k + 2 ≤ MAX_KEY_BYTES.

Lemma check_ttl_Ok ttl : check_ttl ttl = Ok tt → 0 ≤ ttl → 0 < ttl ≤ MAX_TTL_MS.
Proof. unfold check_ttl. case_match; [done|]. case_match; [done|]. bools. lia. Qed.

Lemma request_id_Ok r : acquisition_request_id r = Ok tt → request_ok r = true.
Proof.
  unfold acquisition_request_id, request_ok. destruct r as [r|]; [|done]. unfold check_str. simpl.
  case_match; [done|]. case_match; [done|]. simpl.
  destruct (is_blank r), (has_control r); simpl; done.
Qed.

Lemma acquire_union_good org body command :
  valid_org org = true → body_unsigned body → room_for_scope org body →
  LockApi.acquire_union org body = Ok command → good_command command.
Proof.
  intros Horg [Httl Htimeout] Hroom Hok. unfold LockApi.acquire_union in Hok. case_bool_decide; [done|].
  apply try_Ok in Hok as ([] & Hlock & Hok). apply try_Ok in Hok as ([] & Hreq & Hok). injection Hok as <-.
  unfold lock_acquire in Hlock. apply try_Ok in Hlock as ([] & Hcount & Hlock).
  apply try_Ok in Hlock as ([] & _ & Hlock). apply try_Ok in Hlock as ([] & Hholder & Hlock).
  apply try_Ok in Hlock as ([] & Httl' & _).
  unfold check_required_holder in Hholder. destruct (LockApi.holder body) as [h|] eqn:Eh; [|done].
  set (ks := LockApi.body_keys _ _) in *.
  assert (Hgood : request_good (scope_all org ks) (scope org h) (LockApi.request_id body)
                    (default 30000 (LockApi.ttl_ms body)) (LockApi.wait_timeout_ms body)).
  { split_and!; try done.
    - by apply scoped_holder_restorable.
    - unfold scope_all. rewrite length_fmap. unfold check_key_count in Hcount. case_bool_decide; [done|lia].
    - intros k (k0 & -> & Hk)%list_elem_of_fmap. rewrite byte_len_scope. by apply Hroom.
    - by apply request_id_Ok.
    - destruct (LockApi.ttl_ms body) as [t|]; simpl in *; [|done].
      by destruct (check_ttl_Ok t Httl' (Httl t eq_refl)).
    - destruct (LockApi.ttl_ms body) as [t|]; simpl in *; [|done].
      by destruct (check_ttl_Ok t Httl' (Httl t eq_refl)). }
  unfold LockApi.acquire. rewrite Eh. by destruct (LockApi.request_id body).
Qed.

Context `{HashOrder}.

(** The lock acquires of a log come from the handler, with keys that leave room
    for the prefix; every other command is unrestricted. *)
Definition client_command (command : Command) : Prop :=
  match command with
  | LockAcquire _ _ _ _ _ => False
  | LockAcquireV2 _ _ _ _ _ | LockAcquireAttempt _ _ _ _ _ _ =>
      ∃ org body, valid_org org = true ∧ body_unsigned body ∧ room_for_scope org body ∧
        LockApi.acquire_union org body = Ok command
  | _ => True
  end.

(** If every lock acquire of the log was accepted by the handler for a valid
    organisation, with keys whose scoped form fits the stored bound, the lock
    table passes all restore checks at any point of the log. *)
Lemma client_locks_restorable (log : list (Command * Z))
    (Hlog : Forall (λ e, client_command e.1 ∧ is_u64 e.2) log) :
  validate_locks (lock_table (apply_log inhabitant log)) = Ok tt.
Proof.
  eapply validate_locks_complete.
  - apply (lc_locks _ (so_locks _ (apply_log_inv log _ empty_store_inv))).
  - apply apply_log_entries; [apply entries_ok_empty|].
    eapply Forall_impl; [exact Hlog|]. intros [command now] [Hc Hnow]. split; [|done]. simpl in *.
    destruct command; try done; destruct Hc as (org & body & ? & ? & ? & ?); by eapply acquire_union_good.
Qed.
End handlers.

Definition demo_body : LockApi.AcquireBody :=
  LockApi.mkAcquireBody (Some ["orders/42"; "inv/7"]) None (Some "worker-a") None (Some 30000) (Some true) None.
