(* ===== verification/RestorableStore.v ===== *)
(** Completeness of the restore checks for the whole store: the states clients
    bring a shard into survive a snapshot and a restore.  [Restorable] shows it
    of the lock table; here the semaphores, the token counter and the tokens
    every primitive refers to. *)

From S2P Require Import Prelude Json Fencing Fifo Text Cancellation Locks Semaphores Tasks Handoffs Idempotency Elections Command StateMachine Authority MachineTheorems Validate Snapshot LockApi Restorable OrgScope.

(** ** Semaphores the checks accept *)

Section permits.
Context `{External} (asked : string → string → option string → Prop).

(** What a slot or a queue entry records of its request. *)
Definition permit_ok (key holder : string) (request : option string) : Prop :=
  valid_stored_holder holder = true ∧ request_ok request = true ∧ asked key holder request.

Definition good_waiter (key : string) (w : QueuedPermit) : Prop :=
  permit_ok key (p_holder w) (p_request w) ∧ lease_ok (p_ttl w) (p_requested w) (p_expires w) = true.

Record good_semaphore (key : string) (s : Semaphore) : Prop := {
  gs_key : key ≠ "" ∧ byte_len key ≤ MAX_KEY_BYTES;
  gs_limit : 0 < limit s ≤ MAX_SEMAPHORE_LIMIT;
  gs_slot slot : slot ∈ holders s → permit_ok key (s_holder slot) (s_request slot);
  gs_queue id w : (id, w) ∈ sem_queue s → good_waiter key w
}.

Definition good_table (ss : gmap string Semaphore) : Prop := map_Forall good_semaphore ss.

Lemma good_semaphore_sub key s hs q :
  good_semaphore key s →
  (∀ slot, slot ∈ hs → ∃ slot0, slot0 ∈ holders s ∧ s_holder slot0 = s_holder slot ∧ s_request slot0 = s_request slot) →
  (∀ e, e ∈ q → e ∈ sem_queue s) → good_semaphore key (mkSem (limit s) hs q).
Proof.
  intros [Hk Hl Hs Hq] H1 H2. split; [done..| |]; simpl.
  - intros slot (slot0 & Hin & <- & <-)%H1. eauto.
  - intros id w Hw%H2. eauto.
Qed.

Lemma good_semaphore_grant key s slot :
  good_semaphore key s → permit_ok key (s_holder slot) (s_request slot) →
  good_semaphore key (mkSem (limit s) (holders s ++ [slot]) (sem_queue s)).
Proof. intros [Hk Hl Hs Hq] Hok. split; [done..| |done]. simpl. intros x [Hx|Hx%list_elem_of_singleton]%elem_of_app; subst; eauto. Qed.

Lemma sem_promote_loop_good fuel c key s now vs :
  good_semaphore key s → good_semaphore key (sem_promote_loop fuel c s now vs).1.2.
Proof.
  revert c s vs. induction fuel as [|fuel IH]; intros c s vs Hs; simpl; [done|].
  case_goal; [done|]. destruct (next_token c) as [t|]; [|done]. destruct (sem_queue s) as [|[id w] q] eqn:Eq; [done|]. simpl.
  apply IH. assert (Hw : good_waiter key w) by (eapply (gs_queue _ _ Hs); rewrite Eq; left).
  apply (good_semaphore_grant key (mkSem (limit s) (holders s) q)); [|apply Hw].
  eapply good_semaphore_sub; [done|by eauto|]. rewrite Eq. by right.
Qed.

Lemma good_table_insert ss key s : good_table ss → good_semaphore key s → good_table (<[key := s]> ss).
Proof. intros Hss Hs. by apply map_Forall_insert_2. Qed.

Lemma semaphore_promote_good c ss key now : good_table ss → good_table (semaphore_promote c ss key now).1.2.
Proof.
  intros Hss. unfold semaphore_promote. destruct (ss !! key) as [s|] eqn:Hs; [|done].
  pose proof (sem_promote_loop_good (length (sem_queue s)) c key s now [] (Hss _ _ Hs)) as H1.
  destruct (sem_promote_loop _ _ _ _ _) as [[c' s'] vs]. by apply good_table_insert.
Qed.

Lemma semaphores_promote_good `{HashOrder} c ss now : good_table ss → good_table (semaphores_promote c ss now).2.
Proof.
  intros Hss. unfold semaphores_promote. generalize (hash_keys ss) as ks. intros ks. revert c ss Hss.
  induction ks as [|key ks IH]; intros c ss Hss; simpl; [done|].
  pose proof (semaphore_promote_good c ss key now Hss) as H1. destruct (semaphore_promote _ _ _ _) as [[c' ss'] vs]. by apply IH.
Qed.

Lemma expire_semaphore_good key now s : good_semaphore key s → good_semaphore key (expire_semaphore now s).
Proof.
  intros Hs. unfold expire_semaphore. apply good_semaphore_sub; [done| |].
  - intros slot [_ ?]%list_elem_of_filter. eauto.
  - intros e He. eapply elem_of_sublist; [exact He|apply sublist_foldl_without].
Qed.

Lemma semaphores_expire_good `{HashOrder} ctx now :
  good_table (semaphores ctx) → good_table (semaphores (semaphores_expire_due ctx now)).
Proof.
  intros Hss. unfold semaphores_expire_due.
  pose proof (semaphores_promote_good (sem_counter ctx) (expire_semaphore now <$> semaphores ctx) now) as H1.
  destruct (semaphores_promote _ _ _) as [c' ss']. apply H1. intros key s (s0 & <- & Hs0)%lookup_fmap_Some.
  by apply expire_semaphore_good, Hss.
Qed.

(** ** Requests whose permits the checks accept *)

Definition permit_good (key holder : string) (request : option string) (lim ttl : Z) (timeout : option Z) : Prop :=
  key ≠ "" ∧ byte_len key ≤ MAX_KEY_BYTES ∧ 0 < lim ≤ MAX_SEMAPHORE_LIMIT ∧ permit_ok key holder request ∧
  0 < ttl ≤ MAX_TTL_MS ∧ (∀ t, timeout = Some t → 0 ≤ t).

Lemma acquire_good ctx revision now input :
  good_table (semaphores ctx) → is_u64 now → sa_legacy input = false →
  permit_good (sa_key input) (sa_holder input) (sa_request_id input) (sa_limit input) (sa_ttl_ms input) (sa_wait_timeout_ms input) →
  good_table (semaphores (apply_semaphore_acquire ctx revision now input).1).
Proof.
  intros Hss Hnow Hleg (Hk & Hb & Hl & Hok & Httl & Hwait). unfold apply_semaphore_acquire. rewrite Hleg. cbn [negb andb orb].
  case_goal; [done|]. case_goal; [done|].
  set (sem := default _ (semaphores ctx !! sa_key input)).
  assert (Hsem : good_semaphore (sa_key input) sem).
  { unfold sem. destruct (semaphores ctx !! sa_key input) as [s|] eqn:Es; simpl; [by apply Hss in Es|]. split; simpl; set_solver. }
  clearbody sem. case_goal; [by apply good_table_insert|].
  case_goal; [by case_goal; [apply good_table_insert, good_semaphore_grant|apply good_table_insert]|].
  apply good_table_insert; [done|]. destruct Hsem as [? ? Hslot Hq]. split; [done..|]. cbn [sem_queue]. intros id w Hw.
  case_match; [|eauto]. unfold Fifo.push_back in Hw. case_match; [eauto|]. simpl in Hw.
  apply elem_of_app in Hw as [Hw|Hw%list_elem_of_singleton]; [eauto|]. injection Hw as -> ->. split; [done|]. simpl.
  apply lease_ok_fresh; [done..|]. intros u [= <-]. apply sat_add_ge_l; [done|].
  destruct (sa_wait_timeout_ms input) as [t|]; simpl; [by apply Hwait|]. unfold DEFAULT_WAIT_TIMEOUT_MS. lia.
Qed.

Lemma renew_good ctx revision now key holder tok ttl :
  good_table (semaphores ctx) → good_table (semaphores (apply_semaphore_renew ctx revision now key holder tok ttl).1).
Proof.
  intros Hss. unfold apply_semaphore_renew. destruct (semaphores ctx !! key) as [s|] eqn:Hs; [|done].
  case_goal; [|done]. case_goal; [done|]. apply good_table_insert; [done|]. eapply good_semaphore_sub; [by apply Hss|..]; [|done].
  intros slot Hin. unfold update_slot in Hin. destruct (list_find _ _) as [[i x]|] eqn:Hf; [|eauto].
  apply list_find_Some in Hf as (Hx & _ & _). apply list_elem_of_lookup in Hin as [j Hj].
  apply list_lookup_insert_Some in Hj as [(_ & <- & _)|[_ Hj]]; eauto using list_elem_of_lookup_2.
Qed.

Lemma release_good ctx revision now key holder tok :
  good_table (semaphores ctx) → good_table (semaphores (apply_semaphore_release ctx revision now key holder tok).1).
Proof.
  intros Hss. unfold apply_semaphore_release. destruct (semaphores ctx !! key) as [s|] eqn:Hs; [|done].
  set (kept := filter _ _).
  assert (H1 : good_table (<[key := mkSem (limit s) kept (sem_queue s)]> (semaphores ctx))).
  { apply good_table_insert; [done|]. eapply good_semaphore_sub; [by apply Hss| |done]. intros slot [_ ?]%list_elem_of_filter. eauto. }
  case_goal; [done|]. pose proof (semaphore_promote_good (sem_counter ctx) _ key now H1) as H2.
  by destruct (semaphore_promote _ _ _ _) as [[c' ss'] vs].
Qed.

Lemma cancel_queued_good ctx revision now key holder rid :
  good_table (semaphores ctx) → good_table (semaphores (sem_cancel_queued ctx revision now key holder rid).1).
Proof.
  intros Hss. unfold sem_cancel_queued. destruct (sem ← _; _) as [sem|] eqn:E; [|by repeat case_goal].
  apply bind_Some in E as (s & Hs & (w & _ & E)%bind_Some). case_match; [|done]. injection E as ->.
  assert (H1 : good_table (<[key := mkSem (limit sem) (holders sem) (Fifo.without holder (sem_queue sem))]> (semaphores ctx))).
  { apply good_table_insert; [done|]. eapply good_semaphore_sub; [by apply Hss|by eauto|]. intros e He. by apply Fifo.elem_of_without in He as [? _]. }
  pose proof (semaphore_promote_good (sem_counter ctx) _ key now H1) as H2.
  by destruct (semaphore_promote _ _ _ _) as [[c' ss'] vs].
Qed.

Lemma cancel_good ctx revision now key holder rid :
  good_table (semaphores ctx) → good_table (semaphores (apply_semaphore_cancel ctx revision now key holder rid).1).
Proof.
  intros Hss. unfold apply_semaphore_cancel. destruct rid as [r|]; [|by apply cancel_queued_good].
  case_goal; [done|]. destruct (remember _ _ _ _) as [led []]; [|done].
  by apply (cancel_queued_good (mkSemCtx (sem_counter ctx) (semaphores ctx) led)).
Qed.

(** ** The checks on such a semaphore pass *)

Hypothesis one_identity : ∀ key holder r1 r2, asked key holder r1 → asked key holder r2 → r1 = r2.

Lemma validate_slots_complete key hs ts slots :
  (∀ slot, slot ∈ slots → permit_ok key (s_holder slot) (s_request slot) ∧ s_token slot ≠ 0 ∧ s_token slot ∉ ts ∧ s_holder slot ∉ hs) →
  NoDup (s_token <$> slots) → NoDup (s_holder <$> slots) → validate_slots hs ts slots = Ok tt.
Proof.
  revert hs ts. induction slots as [|slot slots IH]; intros hs ts Hall Ht Hh; cbn [validate_slots]; [done|].
  rewrite fmap_cons in Ht. rewrite fmap_cons in Hh. apply NoDup_cons in Ht as [Ht1 Ht2]. apply NoDup_cons in Hh as [Hh1 Hh2].
  destruct (Hall slot) as ((Hv & Hr & _) & Hz & H1 & H2); [left|].
  rewrite Hv, Hr, (proj2 (Z.eqb_neq _ _) Hz), !bool_decide_eq_false_2 by done. simpl.
  apply IH; [|done..]. intros x Hx. destruct (Hall x) as (? & ? & Hx1 & Hx2); [by right|]. split_and!; [done..| |].
  - rewrite not_elem_of_union, not_elem_of_singleton. split; [|done]. intros E. apply Ht1. rewrite <-E. by apply list_elem_of_fmap_2.
  - rewrite not_elem_of_union, not_elem_of_singleton. split; [|done]. intros E. apply Hh1. rewrite <-E. by apply list_elem_of_fmap_2.
Qed.

(** Under one identity per holder, distinct attempts are distinct holders. *)
Lemma holders_distinct key s : good_semaphore key s → NoDup ((λ x, (s_holder x, s_request x)) <$> holders s) → NoDup (s_holder <$> holders s).
Proof.
  intros Hs. generalize (gs_slot _ _ Hs). generalize (holders s) as l. induction l as [|x l IH]; intros Hall Hnd; [constructor|].
  rewrite fmap_cons in *. apply NoDup_cons in Hnd as [Hni Hnd]. constructor; [|apply IH; [|done]; intros y Hy; apply Hall; by right].
  intros (y & E & Hy)%list_elem_of_fmap. apply Hni, list_elem_of_fmap. exists y. split; [|done]. f_equal; [done|].
  destruct (Hall x) as (_ & _ & Hx); [left|]. destruct (Hall y) as (_ & _ & Hy'); [by right|]. rewrite E in Hx. by eapply one_identity.
Qed.

Lemma validate_semaphore_complete c key s : sem_inv c s → good_semaphore key s → validate_semaphore (key, s) = Ok tt.
Proof.
  intros I Hs. destruct (gs_key _ _ Hs) as [Hk Hb]. destruct (gs_limit _ _ Hs) as [Hl1 Hl2]. pose proof (si_capacity _ _ I) as Hcap. unfold validate_semaphore.
  apply try_Ok. exists tt. split; [|apply try_Ok; exists tt; split].
  - apply ensure_Ok, negb_true_iff. rewrite (proj2 (String.eqb_neq _ _) Hk), !orb_false_iff, !Z.ltb_ge, Z.eqb_neq. lia.
  - apply (validate_slots_complete key); [|apply I|by eapply holders_distinct, I]. intros slot Hin. split_and!; [by apply Hs| |set_solver..].
    pose proof (si_issued _ _ I (s_token slot)) as Hi. destruct Hi; [by apply list_elem_of_fmap_2|lia].
  - apply all_ok_Ok. intros [id w] Hw. pose proof (si_entry _ _ I _ _ Hw) as ->. destruct (gs_queue _ _ Hs _ _ Hw) as [(Hv & Hr & Ha) Hlease].
    unfold validate_waiter. rewrite bool_decide_eq_true_2, Hv, Hr, Hlease by done. simpl. rewrite !andb_true_r.
    apply ensure_Ok, negb_true_iff, not_true_is_false. intros (slot & Hslot%list_elem_of_In & E%bool_decide_eq_true)%existsb_exists.
    apply (si_attempt _ _ I slot _ w Hslot Hw E). destruct (gs_slot _ _ Hs slot Hslot) as (_ & _ & Hx). rewrite E in Hx. by eapply one_identity.
Qed.
End permits.

(** ** The counter stays in range *)

Section counter.
Context `{External, HashOrder}.
Abbreviation capped c := (c ≤ MAX_FENCING_TOKEN).

(** Case analysis down to the mint, which is checked. *)
Ltac capped_cases :=
  repeat case_goal; cbn; try done;
  match goal with
  | E : next_token _ = Some _ |- _ => apply next_token_Some in E as [-> ?]; lia
  | E : mint_token_above _ _ = Some _ |- _ => apply mint_token_above_Some in E as [_ ?]; lia
  end.

Lemma lock_promote_loop_capped fuel c m now vs : capped c → capped (lock_promote_loop fuel c m now vs).1.1.
Proof.
  revert c m vs. induction fuel as [|fuel IH]; intros c m vs Hc; simpl; [done|]. case_goal; [|done].
  destruct (next_token c) as [t|] eqn:Ht; [|done]. apply next_token_Some in Ht as [-> ?]. case_goal; [|done]. apply IH. lia.
Qed.

Lemma sem_promote_loop_capped fuel c s now vs : capped c → capped (sem_promote_loop fuel c s now vs).1.1.
Proof.
  revert c s vs. induction fuel as [|fuel IH]; intros c s vs Hc; simpl; [done|]. case_goal; [done|].
  destruct (next_token c) as [t|] eqn:Ht; [|done]. apply next_token_Some in Ht as [-> ?].
  destruct (Fifo.pop_front (sem_queue s)) as [q [[id w]|]]; [|done]. apply IH. lia.
Qed.

Lemma semaphore_promote_capped c ss key now : capped c → capped (semaphore_promote c ss key now).1.1.
Proof.
  intros Hc. unfold semaphore_promote. destruct (ss !! key) as [s|]; [|done].
  pose proof (sem_promote_loop_capped (length (sem_queue s)) c s now [] Hc) as H1. by destruct (sem_promote_loop _ _ _ _ _) as [[c' s'] vs].
Qed.

Lemma semaphores_promote_capped c ss now : capped c → capped (semaphores_promote c ss now).1.
Proof.
  unfold semaphores_promote. generalize (hash_keys ss) as ks. intros ks. revert c ss.
  induction ks as [|key ks IH]; intros c ss Hc; simpl; [done|].
  pose proof (semaphore_promote_capped c ss key now Hc) as H1. destruct (semaphore_promote _ _ _ _) as [[c' ss'] vs]. by apply IH.
Qed.

Lemma lock_command_capped s revision now :
  capped (next_fencing_token s) →
  (∀ input, capped (next_fencing_token (apply_lock_acquire s revision now input).1)) ∧
  (∀ holder tok, capped (next_fencing_token (apply_lock_release s revision now holder tok).1)) ∧
  (∀ keys holder rid, capped (next_fencing_token (apply_lock_cancel s revision now keys holder rid).1)) ∧
  capped (next_fencing_token (locks_expire_due s now)).
Proof.
  intros Hc. assert (Hp : ∀ m, capped (lock_promote (next_fencing_token s) m now).1.1) by (intros m; by apply lock_promote_loop_capped).
  assert (Hq : ∀ led keys holder rid, capped (next_fencing_token (lock_cancel_queued (mkLockCtx (next_fencing_token s) (locks s) led) revision now keys holder rid).1)).
  { intros led keys holder rid. unfold lock_cancel_queued. cbn [next_fencing_token locks]. case_goal; [by repeat case_goal|].
    specialize (Hp (mkLocks (held (locks s)) (grants (locks s)) (Fifo.without (holder, keys) (queue (locks s))))).
    by destruct (lock_promote _ _ _) as [[c' m'] vs]. }
  split_and!.
  - intros input. unfold apply_lock_acquire. capped_cases.
  - intros holder tok. unfold apply_lock_release. case_goal; [|done]. case_goal; [done|]. specialize (Hp (release_grant (locks s) tok)).
    by destruct (lock_promote _ _ _) as [[c' m'] vs].
  - intros keys holder rid. unfold apply_lock_cancel. destruct rid as [r|].
    + case_goal; [done|]. destruct (remember _ _ _ _) as [led []]; [apply Hq|done].
    + specialize (Hq (lock_cancellations s) (canonical_keys keys) holder None). by destruct s.
  - unfold locks_expire_due. specialize (Hp (expire_grants (expire_waiters (locks s) now) now)).
    by destruct (lock_promote _ _ _) as [[c' m'] vs].
Qed.

Lemma semaphore_command_capped ctx revision now :
  capped (sem_counter ctx) →
  (∀ input, capped (sem_counter (apply_semaphore_acquire ctx revision now input).1)) ∧
  (∀ key holder tok ttl, capped (sem_counter (apply_semaphore_renew ctx revision now key holder tok ttl).1)) ∧
  (∀ key holder tok, capped (sem_counter (apply_semaphore_release ctx revision now key holder tok).1)) ∧
  (∀ key holder rid, capped (sem_counter (apply_semaphore_cancel ctx revision now key holder rid).1)) ∧
  capped (sem_counter (semaphores_expire_due ctx now)).
Proof.
  intros Hc. assert (Hp : ∀ ss key, capped (semaphore_promote (sem_counter ctx) ss key now).1.1) by (intros ss key; by apply semaphore_promote_capped).
  assert (Hq : ∀ led key holder rid, capped (sem_counter (sem_cancel_queued (mkSemCtx (sem_counter ctx) (semaphores ctx) led) revision now key holder rid).1)).
  { intros led key holder rid. unfold sem_cancel_queued. cbn [sem_counter semaphores semaphore_cancellations].
    destruct (sem ← _; _) as [sem|]; [|by repeat case_goal].
    specialize (Hp (<[key := mkSem (limit sem) (holders sem) (Fifo.without holder (sem_queue sem))]> (semaphores ctx)) key).
    by destruct (semaphore_promote _ _ _ _) as [[c' m'] vs]. }
  split_and!.
  - intros input. unfold apply_semaphore_acquire. capped_cases.
  - intros key holder tok ttl. unfold apply_semaphore_renew. by repeat case_goal.
  - intros key holder tok. unfold apply_semaphore_release. destruct (semaphores ctx !! key) as [sem|]; [|done]. set (ss := <[key := _]> _). case_goal; [done|].
    specialize (Hp ss key). by destruct (semaphore_promote _ _ _ _) as [[c' m'] vs].
  - intros key holder rid. unfold apply_semaphore_cancel. destruct rid as [r|].
    + case_goal; [done|]. destruct (remember _ _ _ _) as [led []]; [apply Hq|done].
    + specialize (Hq (semaphore_cancellations ctx) key holder None). by destruct ctx.
  - unfold semaphores_expire_due. pose proof (semaphores_promote_capped (sem_counter ctx) (expire_semaphore now <$> semaphores ctx) now Hc) as H1.
    by destruct (semaphores_promote _ _ _) as [c' ss'].
Qed.

Lemma dispatch_capped st revision now command :
  capped (fencing_counter st) → capped (fencing_counter (dispatch st revision now command).1).
Proof.
  intros Hc. pose proof (lock_command_capped (lock_ctx st) revision now Hc) as (L1 & L2 & L3 & _).
  pose proof (semaphore_command_capped (sem_ctx st) revision now Hc) as (S1 & S2 & S3 & S4 & _).
  destruct command; cbn [dispatch lift fst]; try done;
    first [apply L1|apply L2|apply L3|apply S1|apply S2|apply S3|apply S4|
           unfold apply_activation, apply_lock_renew; by repeat case_goal|
           unfold lift_token, apply_task_claim, apply_handoff_accept, apply_idempotency_claim, apply_election_campaign; capped_cases].
Qed.

Lemma apply_log_capped log st : capped (fencing_counter st) → capped (fencing_counter (apply_log st log)).
Proof.
  revert st. induction log as [|[command now] log IH]; intros st Hc; simpl; [done|]. apply IH. unfold apply_at.
  assert (Hp : capped (fencing_counter (prepare st command now))).
  { unfold prepare. case_goal; [done|]. set (st1 := set_protocol _ _). unfold expire_due. set (st2 := set_kv st1 _). set (st3 := set_locks st2 _).
    pose proof (lock_command_capped (lock_ctx st2) 0 now Hc) as (_ & _ & _ & H1).
    exact (proj2 (proj2 (proj2 (proj2 (semaphore_command_capped (sem_ctx st3) 0 now H1))))). }
  pose proof (dispatch_capped _ (revision (prepare st command now)) now command Hp) as H1. by destruct (dispatch _ _ _ _).
Qed.
End counter.

(** ** Tokens the store refers to *)

Section references.
Context `{External, HashOrder}.

(** An open or settled handoff names a token that was issued. *)
Definition offers_ok (st : Store) : Prop := map_Forall (λ _ r, h_from_token r ≤ fencing_counter st) (handoffs st).

Definition offer_known (st : Store) (command : Command) : Prop :=
  match command with HandoffOffer _ _ _ _ from_token _ _ => from_token ≤ fencing_counter st | _ => True end.

(** Every offer of a log names a token that was issued by then. *)
Fixpoint offers_known (st : Store) (log : list (Command * Z)) : Prop :=
  match log with
  | [] => True
  | (command, now) :: log => offer_known st command ∧ offers_known (apply_at st command now).1 log
  end.

Lemma offers_ok_map c c' (hs hs' : handoff_map) :
  c ≤ c' → map_Forall (λ _ r, h_from_token r ≤ c) hs →
  (∀ name r, hs' !! name = Some r → hs !! name = Some r ∨ h_from_token r ≤ c') →
  map_Forall (λ _ r, h_from_token r ≤ c') hs'.
Proof. intros Hc Hall Hsub name r [Hr%Hall|Hr]%Hsub; lia. Qed.

Lemma dispatch_offers st revision now command :
  store_inv st → offers_ok st → offer_known st command → offers_ok (dispatch st revision now command).1.
Proof.
  intros I Ho Hk. pose proof (ev_counter _ _ _ _ (dispatch_evolves st revision now command (so_counter _ I) (so_issued _ I))) as Hle.
  unfold offers_ok in *. eapply offers_ok_map; [exact Hle|exact Ho|]. intros name r.
  destruct command; cbn [dispatch lift fst]; try (by left);
    try (unfold apply_activation, lift_token; repeat case_goal; by left).
  - unfold apply_handoff_offer. cbn [offer_known] in Hk. repeat case_goal; cbn; try (by left);
      (intros [[_ <-]|[_ ?]]%lookup_insert_Some; [by right|by left]).
  - unfold lift_token, apply_handoff_accept. destruct (handoff_guard _ _ _ _) as [|r0] eqn:E; [by left|].
    apply handoff_guard_inr in E as [E _]. case_goal; [|by left]. cbn. intros [[<- <-]|[_ ?]]%lookup_insert_Some; [|by left].
    right. cbn. apply Ho in E. cbn in E. apply mint_token_above_Some in Heqo as [-> _]. lia.
  - unfold apply_handoff_reject. destruct (handoff_guard _ _ _ _) as [|r0] eqn:E; [by left|].
    apply handoff_guard_inr in E as [E _]. cbn. intros [[<- <-]|[_ ?]]%lookup_insert_Some; [|by left]. right. by apply Ho in E.
Qed.

Lemma apply_at_offers st command now :
  store_inv st → offers_ok st → offer_known st command → offers_ok (apply_at st command now).1.
Proof.
  intros I Ho Hk. pose proof (prepare_inv st command now I) as I1.
  pose proof (ev_counter _ _ _ _ (prepare_evolves st command now (so_issued _ I))) as Hle.
  assert (Ho1 : offers_ok (prepare st command now)).
  { eapply offers_ok_map; [exact Hle|exact Ho|]. intros name r. unfold prepare. case_goal; by left. }
  assert (Hk1 : offer_known (prepare st command now) command) by (destruct command; try done; simpl in *; lia).
  pose proof (dispatch_offers _ (revision (prepare st command now)) now command I1 Ho1 Hk1) as H1.
  unfold apply_at. by destruct (dispatch _ _ _ _).
Qed.

Lemma apply_log_offers log st : store_inv st → offers_ok st → offers_known st log → offers_ok (apply_log st log).
Proof.
  revert st. induction log as [|[command now] log IH]; intros st I Ho Hk; simpl; [done|]. destruct Hk as [Hk Hks].
  apply IH; [by apply apply_at_inv|by apply apply_at_offers|done].
Qed.

Lemma max_list_le l c : 0 ≤ c → (∀ x, x ∈ l → x ≤ c) → max_list l ≤ c.
Proof.
  unfold max_list. generalize 0 as acc. induction l as [|y l IH]; intros acc Hc Hall; simpl; [done|].
  apply IH; [|intros x Hx; apply Hall; by right]. specialize (Hall y (list_elem_of_here _ _)). lia.
Qed.

(** No part of the store refers to a token above the counter. *)
Lemma referenced_below st : store_inv st → offers_ok st → max_referenced_fencing_token st ≤ fencing_counter st.
Proof.
  intros I Ho. pose proof (lc_locks _ (so_locks _ I)) as L. pose proof (so_issued _ I) as Hi. simpl in L.
  destruct (issued_parts _ Hi) as (Hs & Hm & He & Ht & Hh). apply max_list_le; [apply I|].
  intros t. unfold referenced_tokens. rewrite !elem_of_app.
  intros [([t' g] & Hin & Hg%elem_of_map_to_list)%list_elem_of_bind|[Hx|[Hx|[Hx|[Hx|[Hx|Hx]]]]]].
  - destruct (li_grant _ _ L _ _ Hg) as (E & Hpos & _). simpl in Hin. set_solver by lia.
  - apply list_elem_of_fmap in Hx as ([k t'] & -> & Hk%elem_of_map_to_list). destruct (li_held _ _ L _ _ Hk) as (g & Hg & _).
    destruct (li_grant _ _ L _ _ Hg) as (_ & ? & _). simpl. lia.
  - apply list_elem_of_bind in Hx as ([key s] & (slot & -> & Hin)%list_elem_of_fmap & Hk%elem_of_map_to_list).
    apply (Hs (key, s_holder slot)). exists s. split; [done|]. by exists slot.
  - apply list_elem_of_fmap in Hx as ([key r] & -> & Hk%elem_of_map_to_list). apply (Hm key). by exists r.
  - apply list_elem_of_fmap in Hx as ([key r] & -> & Hk%elem_of_map_to_list). apply (He key). by exists r.
  - apply list_elem_of_fmap in Hx as ([key r] & -> & Hk%elem_of_map_to_list). simpl. destruct (Z.eqb_spec (t_token r) 0) as [->|Hne]; [apply I|].
    apply (Ht key). exists r. split; [done|]. unfold task_token. by rewrite (proj2 (Z.eqb_neq _ _) Hne).
  - apply list_elem_of_bind in Hx as ([name r] & Hin & Hk%elem_of_map_to_list). simpl in Hin. apply elem_of_cons in Hin as [->|Hin]; [by eapply Ho|].
    destruct (h_to_token r) as [u|] eqn:E; [|by apply not_elem_of_nil in Hin]. apply list_elem_of_singleton in Hin as ->. apply (Hh name). by exists r.
Qed.
End references.

(** ** Whole logs *)

(** The identity under which a command asks for a permit. *)
Definition permit_request (command : Command) : option (string * string * option string) :=
  match command with
  | SemaphoreAcquireV2 key holder _ _ _ _ => Some (key, holder, None)
  | SemaphoreAcquireAttempt key holder request _ _ _ _ => Some (key, holder, Some request)
  | _ => None
  end.

Definition asked_in (log : list (Command * Z)) (key holder : string) (request : option string) : Prop :=
  ∃ command now, (command, now) ∈ log ∧ permit_request command = Some (key, holder, request).

(** A holder asks a semaphore under one request identity. *)
Definition one_identity (log : list (Command * Z)) : Prop :=
  ∀ key holder r1 r2, asked_in log key holder r1 → asked_in log key holder r2 → r1 = r2.

Section logs.
Context `{External, HashOrder} (asked : string → string → option string → Prop).

Definition good_permit_command (command : Command) : Prop :=
  match command with
  | SemaphoreAcquire _ _ _ _ _ _ => False
  | SemaphoreAcquireV2 key holder limit ttl_ms _ timeout => permit_good asked key holder None limit ttl_ms timeout
  | SemaphoreAcquireAttempt key holder request limit ttl_ms _ timeout => permit_good asked key holder (Some request) limit ttl_ms timeout
  | _ => True
  end.

Lemma dispatch_permits st revision now command :
  good_table asked (semaphore_table st) → good_permit_command command → is_u64 now →
  good_table asked (semaphore_table (dispatch st revision now command).1).
Proof.
  intros Hm Hgood Hnow. destruct (touches_semaphores command) eqn:Ht.
  - destruct command; try discriminate; try done; cbn [dispatch lift fst];
      first [by apply (acquire_good asked (sem_ctx st)) | by apply (renew_good asked (sem_ctx st))
            | by apply (release_good asked (sem_ctx st)) | by apply (cancel_good asked (sem_ctx st))].
  - by destruct (proj2 (dispatch_frame st revision now command) Ht) as [-> _].
Qed.

Lemma apply_log_permits log st :
  good_table asked (semaphore_table st) → Forall (λ e, good_permit_command e.1 ∧ is_u64 e.2) log →
  good_table asked (semaphore_table (apply_log st log)).
Proof.
  revert st. induction log as [|[command now] log IH]; intros st Hm Hlog; simpl; [done|].
  inversion Hlog as [|? ? [Hgood Hnow]]; subst. apply IH; [|done]. unfold apply_at.
  assert (Hprep : good_table asked (semaphore_table (prepare st command now))).
  { unfold prepare. destruct (is_activation command); [done|]. set (st1 := set_protocol _ _). unfold expire_due. set (st2 := set_kv st1 _). set (st3 := set_locks st2 _).
    exact (semaphores_expire_good asked (sem_ctx st3) now Hm). }
  pose proof (dispatch_permits _ (revision (prepare st command now)) now command Hprep Hgood Hnow) as Hd. by destruct (dispatch _ _ _ _).
Qed.
End logs.

Section handlers.
Context `{ScopingLaws, HashOrder, Serde}.

(** Numbers of the body are unsigned, and the key leaves room for the prefix. *)
Definition permit_body_ok (org : string) (body : SemaphoreApi.AcquireBody) : Prop :=
  0 ≤ SemaphoreApi.limit body ∧ (∀ t, SemaphoreApi.ttl_ms body = Some t → 0 ≤ t) ∧
  (∀ t, SemaphoreApi.wait_timeout_ms body = Some t → 0 ≤ t) ∧ byte_len org + byte_len (SemaphoreApi.key body) + 2 ≤ MAX_KEY_BYTES.

(** The permit acquires of a log come from the handler. *)
Definition client_permit (command : Command) : Prop :=
  match command with
  | SemaphoreAcquire _ _ _ _ _ _ => False
  | SemaphoreAcquireV2 _ _ _ _ _ _ | SemaphoreAcquireAttempt _ _ _ _ _ _ _ =>
      ∃ org body, valid_org org = true ∧ permit_body_ok org body ∧ SemaphoreApi.acquire org body = Ok command
  | _ => True
  end.

Lemma acquire_permit_good (asked : string → string → option string → Prop) org body command :
  valid_org org = true → permit_body_ok org body → SemaphoreApi.acquire org body = Ok command →
  (∀ key holder r, permit_request command = Some (key, holder, r) → asked key holder r) →
  good_permit_command asked command ∧ hardened command.
Proof.
  intros Horg (Hlim & Httl & Htimeout & Hroom) Hok Hasked. unfold SemaphoreApi.acquire in Hok.
  apply try_Ok in Hok as ([] & Hsem & Hok). apply try_Ok in Hok as ([] & Hreq%request_id_Ok & Hok). injection Hok as <-.
  unfold semaphore_acquire in Hsem. apply try_Ok in Hsem as ([] & _ & Hsem). apply try_Ok in Hsem as ([] & Hholder & Hsem).
  destruct (SemaphoreApi.limit body =? 0) eqn:E1; [done|]. destruct (MAX_SEMAPHORE_LIMIT <? SemaphoreApi.limit body) eqn:E2; [done|].
  apply Z.eqb_neq in E1. apply Z.ltb_ge in E2. apply try_Ok in Hsem as ([] & Httl' & _).
  unfold check_required_holder in Hholder. destruct (SemaphoreApi.holder body) as [h|] eqn:Eh; [|done]. cbn [default id from_option] in *.
  assert (Hgood : ∀ r, SemaphoreApi.request_id body = r → asked (scope org (SemaphoreApi.key body)) (scope org h) r →
    permit_good asked (scope org (SemaphoreApi.key body)) (scope org h) r (SemaphoreApi.limit body)
      (default 30000 (SemaphoreApi.ttl_ms body)) (SemaphoreApi.wait_timeout_ms body)).
  { intros r <- Hr. split_and!; try done.
    - by rewrite scope_format.
    - by rewrite byte_len_scope.
    - lia.
    - split; [by apply scoped_holder_restorable|done].
    - destruct (SemaphoreApi.ttl_ms body) as [t|]; simpl in *; [|done]. by destruct (check_ttl_Ok t Httl' (Httl t eq_refl)).
    - destruct (SemaphoreApi.ttl_ms body) as [t|]; simpl in *; [|done]. by destruct (check_ttl_Ok t Httl' (Httl t eq_refl)). }
  assert (is_u32 (SemaphoreApi.limit body)) by (unfold is_u32, U32_MAX, MAX_SEMAPHORE_LIMIT in *; lia).
  destruct (SemaphoreApi.request_id body) as [r|] eqn:Er; (split; [|done]); apply Hgood; try done; by apply Hasked.
Qed.

Lemma client_semaphores_restorable (log : list (Command * Z)) :
  Forall (λ e, client_permit e.1 ∧ is_u64 e.2) log → one_identity log →
  let st := apply_log inhabitant log in
  all_ok validate_semaphore (map_to_list (semaphore_table st)) = Ok tt ∧ validate_ledger "semaphore" (semaphore_ledger st) = Ok tt.
Proof.
  intros Hlog Hone st.
  assert (Hgood : Forall (λ e, (good_permit_command (asked_in log) e.1 ∧ is_u64 e.2) ∧ hardened e.1) log).
  { apply Forall_forall. intros [command now] Hin. pose proof (proj1 (Forall_forall _ _) Hlog _ Hin) as [Hc Hnow]. simpl in *.
    enough (good_permit_command (asked_in log) command ∧ hardened command) by tauto.
    destruct command; try done; destruct Hc as (org & body & ? & ? & ?);
      (eapply acquire_permit_good; [done..|]; intros key' holder' r Hr; eexists _, now; split; [exact Hin|exact Hr]). }
  apply Forall_and in Hgood as [Hgood Hhard].
  pose proof (apply_log_permits (asked_in log) log inhabitant (map_Forall_empty _) Hgood) as Hperm.
  destruct (apply_log_semaphores log inhabitant empty_store_inv Hhard) as [_ [Hsem _] _ Hled].
  { split; simpl; [done|split; done|done|apply ledger_inv_empty]. }
  split; [|unfold validate_ledger; by rewrite validate_complete].
  apply all_ok_Ok. intros [key s] Hs%elem_of_map_to_list. eapply (validate_semaphore_complete (asked_in log) Hone); [by eapply Hsem|by apply Hperm].
Qed.

(** C20: The states clients bring a shard into survive a restart.  If every lock
    and permit acquire of the log was accepted by its handler for a valid
    organisation, with keys whose scoped form fits the stored bound, if a holder
    asks a semaphore under one request identity, and if handoffs are offered for
    tokens that were issued, then at any point of the log, whatever other
    commands it holds, the store passes every restore check, and when
    [serde_json] writes it as an object and reads that object back, [snapshot]
    succeeds and [restore] of its bytes is the store. *)
Theorem client_store_restorable (log : list (Command * Z)) (payload rest : string)
    (Hlog : Forall (λ e, (client_command e.1 ∧ client_permit e.1) ∧ is_u64 e.2) log)
    (Hone : one_identity log) (Hoffers : offers_known inhabitant log)
    (Hser : to_vec (apply_log inhabitant log) = Ok payload) (Hobject : payload = String (Ascii.ascii_of_nat 123) rest)
    (Hde : from_slice payload = Ok (apply_log inhabitant log)) :
  validate_restored (apply_log inhabitant log) = Ok tt ∧
  ∃ bytes, snapshot (apply_log inhabitant log) = Ok bytes ∧ restore bytes = Ok (apply_log inhabitant log).
Proof.
  enough (Hv : validate_restored (apply_log inhabitant log) = Ok tt) by (split; [done|by eapply restore_snapshot]).
  clear Hser Hobject Hde. set (st := apply_log inhabitant log). pose proof (apply_log_inv log _ empty_store_inv) as I. fold st in I.
  destruct (client_semaphores_restorable log) as [Hsem Hsled]; [eapply Forall_impl; [exact Hlog|]; intros e [[? ?] ?]; by split|done|].
  assert (Hcap : fencing_counter st ≤ MAX_FENCING_TOKEN) by (apply apply_log_capped; vm_compute; discriminate).
  pose proof (referenced_below st I (apply_log_offers log inhabitant empty_store_inv (map_Forall_empty _) Hoffers)) as Href.
  assert (Hlocks : validate_locks (lock_table st) = Ok tt).
  { apply client_locks_restorable. eapply Forall_impl; [exact Hlog|]; intros e [[? ?] ?]; by split. }
  destruct (protocol_never_regresses log []) as (Hp & _). fold st in Hsem, Hsled, Hp.
  unfold validate_restored. rewrite (proj2 (Z.leb_le _ _)), (proj2 (Z.leb_le _ _)) by lia. cbn [ensure andb result_bind].
  rewrite !(proj2 (Z.ltb_ge _ _)) by lia. cbn [ensure negb result_bind].
  rewrite Hlocks. cbn [result_bind]. rewrite Hsem. cbn [result_bind].
  unfold validate_ledger at 1. by rewrite (validate_complete _ _ (lc_ledger _ (so_locks _ I))).
Qed.
End handlers.

(** A lock, two permits of different holders, a task lease and its handoff. *)
Definition demo_lock : LockApi.AcquireBody :=
  LockApi.mkAcquireBody (Some ["orders/42"; "inv/7"]) None (Some "worker-a") None (Some 30000) (Some true) None.
Definition demo_permit (holder : string) : SemaphoreApi.AcquireBody :=
  SemaphoreApi.mkAcquireBody "pool" (Some holder) (Some "r1") 1 (Some 30000) (Some true) None.
Definition command_of (r : result Command Rejection) : Command :=
  match r with Ok command => command | Err _ => KvDelete "" end.
Definition demo_lock_command : Command := command_of (@LockApi.acquire_union plain_external plain_scoping "org_9" demo_lock).
Definition demo_permit_command (holder : string) : Command :=
  command_of (@SemaphoreApi.acquire plain_external plain_scoping "org_9" (demo_permit holder)).
Definition client_log : list (Command * Z) :=
  [(demo_lock_command, 10); (demo_permit_command "a", 11); (demo_permit_command "b", 12);
   (TaskCreate "t" "build" JNull None, 13); (TaskClaim "t" "a" 5000, 14); (HandoffOffer "h" "t" "a" "b" 3 JNull 1000, 15)].
Definition client_store : Store := @apply_log plain_external identity_order inhabitant client_log.
Definition client_serde : Serde := {| serde_error := unit; to_vec _ := Ok "{}"; from_slice _ := Ok client_store |}.

Lemma client_log_ok :
  Forall (λ e, (@client_command plain_external plain_scoping e.1 ∧ @client_permit plain_external plain_scoping e.1) ∧ is_u64 e.2) client_log.
Proof.
  assert (Hp : ∀ h, h = "a" ∨ h = "b" → permit_body_ok "org_9" (demo_permit h)).
  { intros h _. unfold permit_body_ok. simpl. split_and!; [done|by intros t [= <-]|done|done]. }
  unfold client_log. repeat constructor; try done.
  - exists "org_9", demo_lock. split; [vm_compute; reflexivity|]. split; [|split; [|vm_compute; reflexivity]].
    + split; intros t E; [injection E as <-|discriminate E]. done.
    + intros k Hk. unfold LockApi.body_keys, demo_lock in Hk. simpl in Hk.
      apply elem_of_cons in Hk as [->|Hk]; [done|]. by apply list_elem_of_singleton in Hk as ->.
  - exists "org_9", (demo_permit "a"). split; [vm_compute; reflexivity|]. split; [by apply Hp; left|vm_compute; reflexivity].
  - exists "org_9", (demo_permit "b"). split; [vm_compute; reflexivity|]. split; [by apply Hp; right|vm_compute; reflexivity].
Qed.

Lemma client_log_identities : one_identity client_log.
Proof.
  assert (Hr : ∀ key holder r, asked_in client_log key holder r → r = Some "r1").
  { intros key holder r (command & now & Hin & E). unfold client_log in Hin. rewrite !elem_of_cons, elem_of_nil in Hin.
    repeat destruct Hin as [Hin|Hin]; try done; injection Hin as -> ->; vm_compute in E; try discriminate; by injection E as <- <- <-. }
  intros key holder r1 r2 ->%Hr ->%Hr. done.
Qed.

Lemma client_store_restorable_witness :
  ∃ bytes, @snapshot client_serde client_store = Ok bytes ∧ @restore plain_external client_serde bytes = Ok client_store.
Proof.
  apply (@client_store_restorable plain_external plain_scoping plain_scoping_laws identity_order client_serde client_log "{}" "}").
  - exact client_log_ok.
  - exact client_log_identities.
  - repeat split; try (vm_compute; discriminate).
  - reflexivity.
  - reflexivity.
  - reflexivity.
Defined.
