(* ===== verification/Views.v ===== *)
(** The read views of src/state.rs over locks and semaphores: what a reader is
    shown at a clock, without expiring, promoting or minting anything. *)

From S2P Require Import Prelude Json Fencing Fifo Cancellation Locks LockTheorems Semaphores Command StateMachine Authority MachineTheorems.

(** ** Views *)

Record LockWaiter : Type := mkWaiter {
  v_holder : string;
  v_keys : list string;
  v_requested : Z;
  v_expires : option Z
}.

Record LockState : Type := mkLockState {
  lv_key : string;
  lv_holder : option string;
  lv_token : option Z;
  lv_lease : option Z;
  lv_held_keys : list string;
  lv_wait_queue : list LockWaiter
}.

Record LockHolding : Type := mkHolding {
  lh_holder : string;
  lh_keys : list string;
  lh_token : Z;
  lh_lease : Z
}.

Record LockInventory : Type := mkInventory {
  inv_held : list LockHolding;
  inv_wait_queue : list LockWaiter
}.

Record SemaphoreHolder : Type := mkSemHolder {
  sh_holder : string;
  sh_token : Z;
  sh_lease : Z
}.

Record SemaphoreState : Type := mkSemState {
  sv_key : string;
  sv_limit : Z;
  sv_holders : list SemaphoreHolder;
  sv_available : Z;
  sv_wait_queue : list LockWaiter
}.

Definition lock_waiter (w : QueuedLock) : LockWaiter :=
  mkWaiter (w_holder w) (w_keys w) (w_requested w) (w_expires w).

Definition live_grant (m : LockManager) (now : Z) (key : string) : option LockGrant :=
  t ← held m !! key; g ← grants m !! t; if now <? g_lease g then Some g else None.

Definition lock_snapshot_live_at (m : LockManager) (key : string) (now : Z) : LockState :=
  let grant := live_grant m now key in
  mkLockState key (g_holder <$> grant) (g_token <$> grant) (g_lease <$> grant)
    (default [] (g_keys <$> grant))
    ((λ e, lock_waiter e.2) <$>
       filter (λ e, waiter_is_live (w_expires e.2) now = true ∧ key ∈ w_keys e.2) (queue m)).

Definition holding (g : LockGrant) : LockHolding := mkHolding (g_holder g) (g_keys g) (g_token g) (g_lease g).
Definition token_le (a b : LockHolding) : Prop := lh_token a ≤ lh_token b.
#[export] Instance token_le_dec a b : Decision (token_le a b) := Z_le_dec (lh_token a) (lh_token b).

Definition lock_inventory_live_at (m : LockManager) (now : Z) : LockInventory :=
  mkInventory
    (merge_sort token_le (holding <$> filter (λ g, now < g_lease g) (map_to_list (grants m)).*2))
    ((λ e, lock_waiter e.2) <$> filter (λ e, waiter_is_live (w_expires e.2) now = true) (queue m)).

Definition semaphore_snapshot_live_at (ss : gmap string Semaphore) (key : string) (now : Z) : SemaphoreState :=
  match ss !! key with
  | None => mkSemState key 0 [] 0 []
  | Some sem =>
      let live := filter (λ slot, now < s_lease slot) (holders sem) in
      mkSemState key (limit sem)
        ((λ slot, mkSemHolder (s_holder slot) (s_token slot) (s_lease slot)) <$> live)
        (sat_sub (limit sem) (as_u32 (Z.of_nat (length live))))
        ((λ e, mkWaiter (p_holder e.2) [key] (p_requested e.2) (p_expires e.2)) <$>
           filter (λ e, waiter_is_live (p_expires e.2) now = true) (sem_queue sem))
  end.

Definition semaphore_inventory_live_at (ss : gmap string Semaphore) (now : Z) : list SemaphoreState :=
  (λ key, semaphore_snapshot_live_at ss key now) <$> (btree_iter ss).*1.

(** ** What a view promises *)

(** Promotion keeps the grants that are there. *)
Lemma promote_step_keeps now s s' t g :
  promote_step now s s' → lock_inv s.1 s.2 → grants s.2 !! t = Some g → grants s'.2 !! t = Some g.
Proof.
  inversion 1 as [c m q1 id w q2 Hq Hw Hc]; subst. simpl. intros I Hg.
  destruct (li_grant _ _ I _ _ Hg) as (_ & Ht & _). rewrite lookup_insert_ne; [done|lia].
Qed.

Lemma promote_steps_keep now s s' t g :
  rtc (promote_step now) s s' → 0 ≤ s.1 → lock_inv s.1 s.2 → grants s.2 !! t = Some g → grants s'.2 !! t = Some g.
Proof.
  induction 1 as [|[c1 m1] [c2 m2] s3 Hstep _ IH]; intros Hc I Hg; [done|].
  destruct (promote_step_inv _ _ _ _ _ Hstep Hc I) as [I2 Hlt]. simpl in *.
  apply IH; [lia|done|]. exact (promote_step_keeps _ _ _ _ _ Hstep I Hg).
Qed.

Lemma live_grant_Some m now key g :
  live_grant m now key = Some g ↔ ∃ t, held m !! key = Some t ∧ grants m !! t = Some g ∧ now < g_lease g.
Proof.
  unfold live_grant. rewrite bind_Some. split.
  - intros (t & Ht & (g' & Hg & E)%bind_Some). case_match; [|done]. injection E as ->. bools. eauto.
  - intros (t & Ht & Hg & Hlt). exists t. split; [done|]. apply bind_Some. exists g. split; [done|].
    by rewrite (proj2 (Z.ltb_lt _ _) Hlt).
Qed.

Section views.
Context `{External}.

(** The grants after the sweep of a clock are the live ones, and newer ones. *)
Lemma swept_grants s now :
  lock_ctx_inv s →
  let m' := locks (locks_expire_due s now) in
  (∀ t g, grants (locks s) !! t = Some g → now < g_lease g → grants m' !! t = Some g) ∧
  (∀ t g, grants (locks s) !! t = Some g → g_lease g ≤ now → grants m' !! t = None).
Proof.
  intros [Hc I L _]. unfold locks_expire_due.
  set (m0 := expire_grants (expire_waiters (locks s) now) now).
  assert (I0 : lock_inv (next_fencing_token s) m0).
  { apply foldl_release_inv, subqueue_inv; [done|]. rewrite foldl_without. apply sublist_filter. }
  assert (Hg0 : ∀ t g, grants m0 !! t = Some g ↔ grants (locks s) !! t = Some g ∧ now < g_lease g).
  { intros t g. unfold m0. rewrite expire_grants_grants, lookup_retain_Some. simpl. by rewrite Z.ltb_lt. }
  pose proof (lock_promote_steps (next_fencing_token s) m0 now (li_queue _ _ I0)) as Hsteps.
  pose proof (lock_promote_tokens (next_fencing_token s) m0 m0 now (λ _ _ E, E)) as Htok.
  destruct (lock_promote _ m0 now) as [[c' m'] vs]. destruct Hsteps as [Hsteps _]. simpl. split.
  - intros t g Hg Hlt. apply (promote_steps_keep now _ _ t g Hsteps Hc I0). by apply Hg0.
  - intros t g Hg Hle. apply eq_None_not_Some. intros [g' Hg'].
    destruct (ev_fresh _ _ _ _ Htok (g_holder g', g_keys g') t) as [(g0 & Hg0' & _)|Hlt]; [by exists g'| |].
    + apply Hg0 in Hg0' as [Hsame ?]. rewrite Hg in Hsame. injection Hsame as ->. lia.
    + destruct (li_grant _ _ I _ _ Hg) as (_ & Hrange & _). lia.
Qed.

(** A read never shows authority that is gone, nor hides authority that is
    there: when the view of a key at a clock names a token, its holder, lease
    and union are those of the live grant over the key, and the sweep of that
    clock confirms the grant; when it names none, every grant over the key has
    lapsed and the sweep removes it. *)
Theorem lock_view_confirmed (s : LockCtx) (key : string) (now : Z) (Hinv : lock_ctx_inv s) :
  let v := lock_snapshot_live_at (locks s) key now in
  let m' := locks (locks_expire_due s now) in
  match lv_token v with
  | Some t => ∃ g, grants (locks s) !! t = Some g ∧ key ∈ g_keys g ∧ now < g_lease g ∧
      lv_holder v = Some (g_holder g) ∧ lv_lease v = Some (g_lease g) ∧ lv_held_keys v = g_keys g ∧
      grants m' !! t = Some g ∧ held m' !! key = Some t
  | None => ∀ t g, grants (locks s) !! t = Some g → key ∈ g_keys g → g_lease g ≤ now ∧ grants m' !! t = None
  end.
Proof.
  intros v m'. destruct (swept_grants s now Hinv) as [Hkeep Hdrop].
  pose proof (lc_locks _ Hinv) as I.
  destruct (expire_inv s now (lc_counter _ Hinv) I (lc_ledger _ Hinv)) as [[_ I' _ _] _].
  unfold v, lock_snapshot_live_at. simpl. destruct (live_grant (locks s) now key) as [g|] eqn:E; simpl.
  - apply live_grant_Some in E as (t & Ht & Hg & Hlt).
    destruct (li_grant _ _ I _ _ Hg) as (Hgt & _). rewrite Hgt.
    destruct (li_held _ _ I _ _ Ht) as (g' & Hg' & Hk). rewrite Hg in Hg'. injection Hg' as <-.
    exists g. split_and!; try done; [by apply Hkeep|]. eapply (li_union _ _ I'); [by apply Hkeep|done].
  - intros t g Hg Hk. assert (Hle : g_lease g ≤ now).
    { apply Z.nlt_ge. intros Hlt. assert (Hs : live_grant (locks s) now key = Some g); [|congruence].
      apply live_grant_Some. exists t. split; [|done]. by apply (li_union _ _ I _ _ _ Hg Hk). }
    split; [done|by eapply Hdrop].
Qed.
End views.

(** The inventory lists the live grants, each once, in the order of tokens. *)
Lemma lock_inventory_exact c m now :
  lock_inv c m →
  (∀ h, h ∈ inv_held (lock_inventory_live_at m now) ↔
     ∃ t g, grants m !! t = Some g ∧ now < g_lease g ∧ h = holding g) ∧
  StronglySorted token_le (inv_held (lock_inventory_live_at m now)).
Proof.
  intros I. split.
  - intros h. simpl. rewrite merge_sort_Permutation, list_elem_of_fmap. split.
    + intros (g & -> & (Hlt & Hin)%list_elem_of_filter).
      apply list_elem_of_fmap in Hin as ([t g'] & -> & Hin%elem_of_map_to_list). eauto.
    + intros (t & g & Hg & Hlt & ->). exists g. split; [done|]. apply list_elem_of_filter. split; [done|].
      apply list_elem_of_fmap. exists (t, g). split; [done|by apply elem_of_map_to_list].
  - simpl. apply Sorted_StronglySorted; [intros a b c'; unfold token_le; lia|].
    apply Sorted_merge_sort. intros a b. unfold token_le. lia.
Qed.

(** A held and a lapsed grant. *)
Lemma lock_view_confirmed_witness :
  lv_token (lock_snapshot_live_at (locks ctx2) "a" 100) = Some 1 ∧
  ∃ g, grants (locks (locks_expire_due ctx2 100)) !! 1 = Some g.
Proof.
  split; [vm_compute; reflexivity|].
  pose proof (lock_view_confirmed ctx2 "a" 100 ctx2_inv) as Hv.
  replace (lv_token (lock_snapshot_live_at (locks ctx2) "a" 100)) with (Some 1) in Hv by (vm_compute; reflexivity).
  destruct Hv as (g & _ & _ & _ & _ & _ & _ & Hg & _). exists g. exact Hg.
Defined.
