(* ===== verification/RaftTypes.v ===== *)
(** The data of the Raft plane: [Role] and [LogEntry] of src/consensus.rs and
    the wire types of src/transport.rs. *)

From S2P Require Import Prelude Json Command.

Inductive Role : Type := Follower | Candidate | Leader.

#[export] Instance Role_eq_dec : EqDecision Role.
Proof. solve_decision. Defined.

(** A command is [None] for the no-op of a new leader. *)
Record LogEntry : Type := mkEntry {
  e_term : Z;
  e_index : Z;
  e_proposed_at_ms : Z;
  e_command : option Command
}.

(** ** Messages *)

Record AppendEntriesReq : Type := mkAppendReq {
  ar_term : Z;
  ar_leader_id : string;
  ar_prev_log_index : Z;
  ar_prev_log_term : Z;
  ar_entries : list LogEntry;
  ar_leader_commit : Z;
  ar_command_protocol : Z
}.

Record AppendEntriesResp : Type := mkAppendResp {
  as_term : Z;
  as_success : bool;
  as_match_index : Z;
  as_command_protocol : Z
}.

Record InstallSnapshotReq : Type := mkSnapshotReq {
  sr_term : Z;
  sr_leader_id : string;
  sr_last_included_index : Z;
  sr_last_included_term : Z;
  sr_state : string
}.

Record InstallSnapshotResp : Type := mkSnapshotResp {
  ss_term : Z;
  ss_success : bool;
  ss_match_index : Z
}.

Record RequestVoteReq : Type := mkVoteReq {
  vr_term : Z;
  vr_candidate_id : string;
  vr_last_log_index : Z;
  vr_last_log_term : Z;
  vr_pre_vote : bool
}.

Record RequestVoteResp : Type := mkVoteResp {
  vs_term : Z;
  vs_granted : bool
}.
