(* ===== verification/RaftSpec.v ===== *)
(** What a Raft group promises, without messages, timers or disks: members hold
    a term, a vote, a role and a log, and a history records who led each term
    with which log, which ballots elected the leaders, and which prefixes were
    acknowledged.  [spec_step] lists the moves the protocol allows.  The file
    proves the protocol safe: one leader per term, matching logs, complete
    leaders, and committed prefixes that never disagree. *)

From stdpp Require Import functions.
From S2P Require Import Prelude Json Command RaftTypes.

(** ** Logs *)

(** The term at a 1-based index, 0 outside the log. *)
Definition log_term (l : list LogEntry) (i : nat) : Z :=
  match i with O => 0 | S k => from_option e_term 0 (l !! k) end.
Definition last_term (l : list LogEntry) : Z := log_term l (length l).

(** [RequestVote]'s comparison: the first log is at least as up to date. *)
Definition up_to_date (candidate voter : list LogEntry) : Prop :=
  last_term voter < last_term candidate ∨
  last_term candidate = last_term voter ∧ (length voter ≤ length candidate)%nat.

Definition indexed (l : list LogEntry) : Prop := ∀ k e, l !! k = Some e → e_index e = Z.of_nat k + 1.
Definition ascending (l : list LogEntry) : Prop :=
  ∀ i j a b, l !! i = Some a → l !! j = Some b → (i ≤ j)%nat → e_term a ≤ e_term b.
Definition terms_le (l : list LogEntry) (t : Z) : Prop := ∀ e, e ∈ l → 1 ≤ e_term e ≤ t.

(** ** The state *)

Record Peer : Type := mkPeer {
  p_term : Z;
  p_vote : option string;
  p_role : Role;
  p_log : list LogEntry;
  p_commit : nat
}.

Record Hist : Type := mkHist {
  peer : string → Peer;
  leads : gmap Z (string * list LogEntry);
  ballots : list (string * Z * string * list LogEntry);
  late : list (string * Z * string);
  acks : list (string * Z * nat)
}.

Definition set_peer (h : Hist) (n : string) (p : Peer) : Hist :=
  mkHist (<[n := p]> (peer h)) (leads h) (ballots h) (late h) (acks h).
Definition cast (h : Hist) (n : string) (t : Z) (c : string) (l : list LogEntry) : Hist :=
  mkHist (peer h) (leads h) ((n, t, c, l) :: ballots h) (late h) (acks h).
Definition cast_late (h : Hist) (n : string) (t : Z) (c : string) : Hist :=
  mkHist (peer h) (leads h) (ballots h) ((n, t, c) :: late h) (acks h).
Definition lead (h : Hist) (t : Z) (c : string) (l : list LogEntry) : Hist :=
  mkHist (peer h) (<[t := (c, l)]> (leads h)) (ballots h) (late h) (acks h).
Definition acknowledge (h : Hist) (n : string) (t : Z) (i : nat) : Hist :=
  mkHist (peer h) (leads h) (ballots h) (late h) ((n, t, i) :: acks h).

Definition with_term (p : Peer) (t : Z) (v : option string) (r : Role) : Peer := mkPeer t v r (p_log p) (p_commit p).
Definition with_vote (p : Peer) (v : option string) : Peer := mkPeer (p_term p) v (p_role p) (p_log p) (p_commit p).
Definition with_role (p : Peer) (r : Role) : Peer := mkPeer (p_term p) (p_vote p) r (p_log p) (p_commit p).
Definition with_log (p : Peer) (l : list LogEntry) : Peer := mkPeer (p_term p) (p_vote p) (p_role p) l (p_commit p).
Definition with_commit (p : Peer) (i : nat) : Peer := mkPeer (p_term p) (p_vote p) (p_role p) (p_log p) i.

Definition initial_peer : Peer := mkPeer 1 None Follower [] 0.
Definition initial_hist : Hist := mkHist (λ _, initial_peer) ∅ [] [] [].

(** The member gave its vote, before or after the term had a leader. *)
Definition voted (h : Hist) (n : string) (t : Z) (c : string) : Prop :=
  (∃ l, (n, t, c, l) ∈ ballots h) ∨ (n, t, c) ∈ late h.

(** The member acknowledged at least the first [k] entries in that term. *)
Definition acked (h : Hist) (n : string) (t : Z) (k : nat) : Prop := ∃ i, (k ≤ i)%nat ∧ (n, t, i) ∈ acks h.

Section protocol.
Context (members : gset string).

Definition quorum (Q : gset string) : Prop := Q ⊆ members ∧ (size members < 2 * size Q)%nat.

(** A prefix is committed by term [t] when a quorum acknowledged, in that term,
    a prefix of its leader's log that covers it and ends in an entry of [t]. *)
Definition committed_by (h : Hist) (t : Z) (l : list LogEntry) : Prop :=
  ∃ c L k Q, leads h !! t = Some (c, L) ∧ quorum Q ∧ (∀ m, m ∈ Q → acked h m t k) ∧
    log_term L k = t ∧ l `prefix_of` take k L.

(** The logs agree up to [i]. *)
Definition agree (i : nat) (l L : list LogEntry) : Prop := (i ≤ length l)%nat ∧ take i l = take i L.

(** [spec_step h n h']: member [n] moves. *)
Inductive spec_step (h : Hist) (n : string) : Hist → Prop :=
| spec_raise t (Ht : p_term (peer h n) < t) :
    spec_step h n (set_peer h n (with_term (peer h n) t None Follower))
| spec_follow :
    spec_step h n (set_peer h n (with_role (peer h n) Follower))
| spec_campaign (Hn : n ∈ members) :
    spec_step h n (cast (set_peer h n (with_term (peer h n) (p_term (peer h n) + 1) (Some n) Candidate))
                   n (p_term (peer h n) + 1) n (p_log (peer h n)))
| spec_vote c clog (Hn : n ∈ members) (Hne : n ≠ c) (Hv : p_vote (peer h n) = None)
    (Hl : leads h !! p_term (peer h n) = None)
    (Hc : (c, p_term (peer h n), c, clog) ∈ ballots h) (Hu : up_to_date clog (p_log (peer h n))) :
    spec_step h n (cast (set_peer h n (with_vote (peer h n) (Some c))) n (p_term (peer h n)) c (p_log (peer h n)))
| spec_vote_late c (Hv : p_vote (peer h n) = None) (Hl : is_Some (leads h !! p_term (peer h n))) :
    spec_step h n (cast_late (set_peer h n (with_vote (peer h n) (Some c))) n (p_term (peer h n)) c)
| spec_lead Q (Hr : p_role (peer h n) = Candidate) (HQ : quorum Q)
    (Hb : ∀ m, m ∈ Q → voted h m (p_term (peer h n)) n) :
    spec_step h n (lead (set_peer h n (with_role (peer h n) Leader)) (p_term (peer h n)) n (p_log (peer h n)))
| spec_append e (Hr : p_role (peer h n) = Leader) (Ht : e_term e = p_term (peer h n))
    (Hi : e_index e = Z.of_nat (length (p_log (peer h n))) + 1) :
    spec_step h n (lead (set_peer h n (with_log (peer h n) (p_log (peer h n) ++ [e])))
                   (p_term (peer h n)) n (p_log (peer h n) ++ [e]))
| spec_accept c L j (Hl : leads h !! p_term (peer h n) = Some (c, L)) (Hr : p_role (peer h n) = Follower)
    (Hj : (j ≤ length L)%nat) (Hkeep : ∀ i, agree i (p_log (peer h n)) L → (i ≤ j)%nat) :
    spec_step h n (set_peer h n (with_log (peer h n) (take j L)))
| spec_ack c L i (Hn : n ∈ members) (Hl : leads h !! p_term (peer h n) = Some (c, L))
    (Hi : agree i (p_log (peer h n)) L) :
    spec_step h n (acknowledge h n (p_term (peer h n)) i)
| spec_commit t i (Ht : t ≤ p_term (peer h n)) (Hle : (p_commit (peer h n) ≤ i ≤ length (p_log (peer h n)))%nat)
    (Hc : committed_by h t (take i (p_log (peer h n)))) :
    spec_step h n (set_peer h n (with_commit (peer h n) i)).

(** ** The invariant *)

(** Every entry of a log sits on the log of the leader of its term. *)
Definition on_path (h : Hist) (l : list LogEntry) : Prop :=
  ∀ k e, l !! k = Some e → ∃ c L, leads h !! e_term e = Some (c, L) ∧ take (S k) l = take (S k) L.

(** The leaders of the terms after [t] up to [t'] keep the first [k] entries of
    the leader of [t]. *)
Definition good (h : Hist) (t : Z) (k : nat) (t' : Z) (L : list LogEntry) : Prop :=
  ∀ t'' c'' L'', t < t'' ≤ t' → leads h !! t'' = Some (c'', L'') → take k L'' = take k L.

Record spec_inv (h : Hist) : Prop := {
  si_peer n : 1 ≤ p_term (peer h n) ∧ terms_le (p_log (peer h n)) (p_term (peer h n)) ∧
    on_path h (p_log (peer h n)) ∧ indexed (p_log (peer h n)) ∧ ascending (p_log (peer h n));
  si_ballot n t c l : (n, t, c, l) ∈ ballots h →
    n ∈ members ∧ 2 ≤ t ∧ t ≤ p_term (peer h n) ∧ (t = p_term (peer h n) → p_vote (peer h n) = Some c) ∧
    on_path h l ∧ terms_le l (t - 1) ∧ ∃ clog, (c, t, c, clog) ∈ ballots h ∧ up_to_date clog l;
  si_late n t c : (n, t, c) ∈ late h →
    t ≤ p_term (peer h n) ∧ (t = p_term (peer h n) → p_vote (peer h n) = Some c) ∧ is_Some (leads h !! t);
  si_voted n c : p_vote (peer h n) = Some c → voted h n (p_term (peer h n)) c;
  si_unique n t c c' : voted h n t c → voted h n t c' → c = c';
  si_self c t l l' : (c, t, c, l) ∈ ballots h → (c, t, c, l') ∈ ballots h → l = l';
  si_candidate n : p_role (peer h n) = Candidate →
    (n, p_term (peer h n), n, p_log (peer h n)) ∈ ballots h ∧ (∀ L, leads h !! p_term (peer h n) ≠ Some (n, L));
  si_leader n : p_role (peer h n) = Leader → leads h !! p_term (peer h n) = Some (n, p_log (peer h n));
  si_lead t c L : leads h !! t = Some (c, L) →
    2 ≤ t ∧ terms_le L t ∧ on_path h L ∧ indexed L ∧ ascending L ∧
    ∃ clog Q, (c, t, c, clog) ∈ ballots h ∧ clog `prefix_of` L ∧ (∀ k e, L !! k = Some e → (length clog ≤ k)%nat → e_term e = t) ∧
      quorum Q ∧ ∀ m, m ∈ Q → ∃ l, (m, t, c, l) ∈ ballots h;
  si_ack n t k : (n, t, k) ∈ acks h → n ∈ members ∧ t ≤ p_term (peer h n) ∧ ∃ c L, leads h !! t = Some (c, L) ∧ (k ≤ length L)%nat;
  si_hold n t k c L : acked h n t k → leads h !! t = Some (c, L) → good h t k (p_term (peer h n)) L →
    take k (p_log (peer h n)) = take k L;
  si_vote n t k c L t' c' l : acked h n t k → leads h !! t = Some (c, L) → (n, t', c', l) ∈ ballots h → t < t' →
    good h t k (t' - 1) L → take k l = take k L;
  si_commit n : (p_commit (peer h n) ≤ length (p_log (peer h n)))%nat ∧
    (p_commit (peer h n) = O ∨ ∃ t, t ≤ p_term (peer h n) ∧ committed_by h t (take (p_commit (peer h n)) (p_log (peer h n))))
}.

(** ** Facts about logs *)

Lemma take_agree_le i j (l L : list LogEntry) : (i ≤ j)%nat → take j l = take j L → take i l = take i L.
Proof. intros Hij E. rewrite <- (Nat.min_l i j Hij), <- !firstn_firstn, E. done. Qed.

Lemma take_agree_length i (l L : list LogEntry) : take i l = take i L → (i ≤ length l)%nat → (i ≤ length L)%nat.
Proof. intros E Hi. apply (f_equal length) in E. rewrite !length_take in E. lia. Qed.

Lemma take_agree_lookup i k (l L : list LogEntry) : take i l = take i L → (k < i)%nat → l !! k = L !! k.
Proof. intros E Hk. by rewrite <- (lookup_take_lt l i k), <- (lookup_take_lt L i k), E by done. Qed.

Lemma prefix_take_le k (l L : list LogEntry) : l `prefix_of` L → (k ≤ length l)%nat → take k L = take k l.
Proof. intros [m ->] Hk. by apply take_app_le. Qed.

Lemma prefix_of_take k (l L : list LogEntry) : l `prefix_of` take k L → (length l ≤ k)%nat ∧ l = take (length l) L.
Proof.
  intros [m E]. assert (Hlen : (length l ≤ k)%nat).
  { apply (f_equal length) in E. rewrite length_take, length_app in E. lia. }
  split; [done|]. rewrite <- (Nat.min_l (length l) k), <- firstn_firstn, E by done.
  by rewrite take_app_length.
Qed.

Lemma log_term_lookup l i t : log_term l i = t → 1 ≤ t → ∃ k e, i = S k ∧ l !! k = Some e ∧ e_term e = t.
Proof.
  destruct i as [|k]; simpl; [lia|]. destruct (l !! k) as [e|] eqn:E; simpl; [eauto 6|lia].
Qed.

Lemma last_term_lookup l : 1 ≤ last_term l → ∃ e, l !! (length l - 1)%nat = Some e ∧ e_term e = last_term l.
Proof.
  unfold last_term. intros H. destruct (log_term_lookup l (length l) _ eq_refl H) as (k & e & Hk & He & Ht).
  exists e. split; [|done]. by replace (length l - 1)%nat with k by lia.
Qed.

Lemma terms_le_take l t j : terms_le l t → terms_le (take j l) t.
Proof. intros H e He. apply H. apply list_elem_of_lookup in He as [i [Hi _]%lookup_take_Some]. by eapply list_elem_of_lookup_2. Qed.

Lemma terms_le_mono l t t' : terms_le l t → t ≤ t' → terms_le l t'.
Proof. intros H Ht e He. specialize (H e He). lia. Qed.

Lemma indexed_take l j : indexed l → indexed (take j l).
Proof. intros H k e [? ?]%lookup_take_Some. by apply H. Qed.

Lemma ascending_take l j : ascending l → ascending (take j l).
Proof. intros H i k a b [? ?]%lookup_take_Some [? ?]%lookup_take_Some. by apply H. Qed.

Lemma on_path_take h l j : on_path h l → on_path h (take j l).
Proof.
  intros H k e [Hk Hj]%lookup_take_Some. destruct (H k e Hk) as (c & L & HL & E). exists c, L. split; [done|].
  rewrite firstn_firstn, Nat.min_l by lia. done.
Qed.

Lemma indexed_snoc l e : indexed l → e_index e = Z.of_nat (length l) + 1 → indexed (l ++ [e]).
Proof.
  intros H He k x [Hk|[Hk Hx]]%lookup_app_Some; [by apply H|]. apply list_lookup_singleton_Some in Hx as [? <-]. lia.
Qed.

Lemma ascending_snoc l e : ascending l → terms_le l (e_term e) → ascending (l ++ [e]).
Proof.
  intros H Hle i j a b Ha Hb Hij. apply lookup_app_Some in Ha as [Ha|[Hi Ha]], Hb as [Hb|[Hj Hb]].
  - by eapply H.
  - apply list_lookup_singleton_Some in Hb as [_ <-]. apply list_elem_of_lookup_2 in Ha. apply Hle in Ha. lia.
  - apply lookup_lt_Some in Hb. lia.
  - apply list_lookup_singleton_Some in Ha as [_ <-], Hb as [_ <-]. lia.
Qed.

Lemma up_to_date_refl l : up_to_date l l.
Proof. right. done. Qed.

(** ** Safety *)

Lemma quorum_meet Q1 Q2 : quorum Q1 → quorum Q2 → ∃ m, m ∈ Q1 ∧ m ∈ Q2.
Proof.
  intros [S1 N1] [S2 N2]. destruct (decide (Q1 ∩ Q2 = ∅)) as [E|E].
  - assert (size (Q1 ∪ Q2) ≤ size members)%nat by (apply subseteq_size; set_solver).
    rewrite size_union in * by set_solver. lia.
  - apply set_choose_L in E as [m Hm]. exists m. set_solver.
Qed.

(** At most one member ever leads a term. *)
Lemma one_candidate_elected h t c c' Q Q' :
  spec_inv h → quorum Q → quorum Q' → (∀ m, m ∈ Q → voted h m t c) → (∀ m, m ∈ Q' → voted h m t c') → c = c'.
Proof.
  intros I HQ HQ' Hb Hb'. destruct (quorum_meet Q Q' HQ HQ') as (m & H1 & H2). eapply si_unique; eauto.
Qed.

Lemma no_vote_yet h n : spec_inv h → p_vote (peer h n) = None → ∀ c, ¬ voted h n (p_term (peer h n)) c.
Proof.
  intros I Hv c [[l Hb]|Hl].
  - apply (si_ballot _ I) in Hb as (_ & _ & _ & E & _). rewrite E in Hv; done.
  - apply (si_late _ I) in Hl as (_ & E & _). rewrite E in Hv; done.
Qed.

Lemma no_vote_later h n t : spec_inv h → p_term (peer h n) < t → ∀ c, ¬ voted h n t c.
Proof.
  intros I Ht c [[l Hb]|Hl].
  - apply (si_ballot _ I) in Hb as (_ & _ & ? & _). lia.
  - apply (si_late _ I) in Hl as (? & _). lia.
Qed.

(** A log on the path that ends above [t] is longer than a common prefix of
    entries of terms up to [t]. *)
Lemma path_ascending h l : spec_inv h → on_path h l → ascending l.
Proof.
  intros I Hp i j a b Ha Hb Hij. destruct (Hp j b Hb) as (c & L & HL & E).
  destruct (si_lead _ I _ _ _ HL) as (_ & _ & _ & _ & Hasc & _).
  apply (Hasc i j); [| |done].
  - rewrite <- (take_agree_lookup (S j) i l L) by (done || lia). done.
  - rewrite <- (take_agree_lookup (S j) j l L) by (done || lia). done.
Qed.

Lemma leader_completeness h t c L k Q :
  spec_inv h → leads h !! t = Some (c, L) → quorum Q → (∀ m, m ∈ Q → acked h m t k) → log_term L k = t →
  ∀ t' c' L', t < t' → leads h !! t' = Some (c', L') → take k L' = take k L.
Proof.
  intros I HL HQ Hack Hk t'. destruct (si_lead _ I _ _ _ HL) as (Ht2 & HtL & _).
  destruct (log_term_lookup L k t Hk ltac:(lia)) as (k0 & ek & Ek & Hek & Htk).
  assert (HkL : (k ≤ length L)%nat) by (apply lookup_lt_Some in Hek; lia).
  induction t' as [t' IH] using (well_founded_induction (Z.lt_wf t)). intros c' L' Htt HL'.
  assert (Hgood : good h t k (t' - 1) L).
  { intros t'' c'' L'' Hr HL''. apply (IH t'' ltac:(lia) c'' L''); [lia|done]. }
  destruct (si_lead _ I _ _ _ HL') as (_ & _ & _ & _ & _ & clog & Q' & Hself & Hpre & _ & HQ' & Hb).
  destruct (quorum_meet Q Q' HQ HQ') as (m & H1 & H2). destruct (Hb m H2) as [l Hl].
  pose proof (si_vote _ I _ _ _ _ _ _ _ _ (Hack m H1) HL Hl Htt Hgood) as El.
  destruct (si_ballot _ I _ _ _ _ Hl) as (_ & _ & _ & _ & Hpl & _ & clog' & Hself' & Hutd).
  rewrite <- (si_self _ I _ _ _ _ Hself Hself') in Hutd. clear clog' Hself'.
  assert (Hkl : (k ≤ length l)%nat) by (by apply (take_agree_length k L l)).
  assert (Hlast : t ≤ last_term l).
  { rewrite <- (take_agree_lookup k k0 l L El ltac:(lia)) in Hek. unfold last_term.
    destruct (lookup_lt_is_Some_2 l (length l - 1)%nat ltac:(lia)) as [el Hel].
    replace (length l) with (S (length l - 1)) by lia. simpl. rewrite Hel. simpl.
    pose proof (path_ascending h l I Hpl k0 (length l - 1)%nat ek el Hek Hel ltac:(lia)). lia. }
  destruct (last_term_lookup clog) as (es & Hes & Hts); [destruct Hutd; lia|].
  destruct (si_ballot _ I _ _ _ _ Hself) as (_ & _ & _ & _ & Hpc & Htc & _).
  destruct (Hpc _ _ Hes) as (cs & Ls & HLs & Es). rewrite Hts in HLs.
  assert (Hne : (0 < length clog)%nat) by (apply lookup_lt_Some in Hes; lia).
  replace (S (length clog - 1)) with (length clog) in Es by lia.
  enough ((k ≤ length clog)%nat ∧ take k clog = take k L) as [Hkc <-] by (by apply prefix_take_le).
  destruct (decide (last_term clog = t)) as [E|E].
  - rewrite E, HL in HLs. injection HLs as <- <-. destruct Hutd as [?|[_ Hle]]; [lia|]. split; [lia|].
    by apply (take_agree_le k (length clog)); [lia|].
  - assert (Hts' : last_term clog ≤ t' - 1) by (rewrite <- Hts; apply Htc; by eapply list_elem_of_lookup_2).
    assert (Hlt : t < last_term clog) by (destruct Hutd; lia).
    pose proof (IH (last_term clog) ltac:(lia) cs Ls Hlt HLs) as EL.
    assert (Hkc : (k ≤ length clog)%nat).
    { apply Nat.nlt_ge. intros Hc. rewrite (take_agree_lookup _ _ clog Ls Es) in Hes by lia.
      rewrite (take_agree_lookup k _ Ls L EL) in Hes by lia. apply list_elem_of_lookup_2, HtL in Hes. lia. }
    split; [done|]. rewrite <- EL. by apply (take_agree_le k (length clog)).
Qed.

(** Committed prefixes never disagree: one extends the other, and every later
    leader has both. *)
Lemma committed_in_leader h t l t' c' L' :
  spec_inv h → committed_by h t l → t ≤ t' → leads h !! t' = Some (c', L') → l `prefix_of` L'.
Proof.
  intros I (c & L & k & Q & HL & HQ & Ha & Hk & Hpre) Hle HL'.
  etrans; [exact Hpre|]. destruct (decide (t = t')) as [->|].
  - rewrite HL in HL'. injection HL' as <- <-. apply prefix_take.
  - rewrite <- (leader_completeness h t c L k Q I HL HQ Ha Hk t' c' L' ltac:(lia) HL'). apply prefix_take.
Qed.

Lemma committed_leader h t l : committed_by h t l → ∃ c L, leads h !! t = Some (c, L).
Proof. intros (c & L & _ & _ & HL & _). eauto. Qed.

Lemma committed_comparable h t l t' l' :
  spec_inv h → committed_by h t l → committed_by h t' l' → l `prefix_of` l' ∨ l' `prefix_of` l.
Proof.
  intros I H H'. destruct (decide (t ≤ t')).
  - destruct (committed_leader _ _ _ H') as (c & L & HL).
    eapply prefix_weak_total; eapply committed_in_leader; eauto; lia.
  - destruct (committed_leader _ _ _ H) as (c & L & HL).
    eapply prefix_weak_total; eapply committed_in_leader; eauto; lia.
Qed.

(** ** Preservation *)

(** Moves that change one member and may cast a ballot for it. *)
Lemma frame h n p bs ls :
  spec_inv h →
  p_term (peer h n) ≤ p_term p → terms_le (p_log p) (p_term p) → on_path h (p_log p) → indexed (p_log p) →
  ascending (p_log p) →
  (p_term p = p_term (peer h n) → p_vote (peer h n) ≠ None → p_vote p = p_vote (peer h n)) →
  (∀ c, p_vote p = Some c → voted h n (p_term p) c ∨ bs = [(n, p_term p, c, p_log p)] ∨ ls = [(n, p_term p, c)]) →
  (p_role p = Candidate → (n, p_term p, n, p_log p) ∈ bs ++ ballots h ∧ (∀ L, leads h !! p_term p ≠ Some (n, L))) →
  (p_role p = Leader → leads h !! p_term p = Some (n, p_log p)) →
  (∀ t k c L, acked h n t k → leads h !! t = Some (c, L) → good h t k (p_term p) L →
     take k (p_log p) = take k L) →
  ((p_commit p ≤ length (p_log p))%nat ∧
     (p_commit p = O ∨ ∃ t, t ≤ p_term p ∧ committed_by h t (take (p_commit p) (p_log p)))) →
  (bs = [] ∧ ls = []
   ∨ (∃ c, bs = [] ∧ ls = [(n, p_term p, c)] ∧ p_vote p = Some c ∧ is_Some (leads h !! p_term p) ∧
        (∀ c', ¬ voted h n (p_term p) c'))
   ∨ (∃ c, bs = [(n, p_term p, c, p_log p)] ∧ ls = [] ∧ n ∈ members ∧ 2 ≤ p_term p ∧ p_vote p = Some c ∧
     (∀ c', ¬ voted h n (p_term p) c') ∧ terms_le (p_log p) (p_term p - 1) ∧
     (∃ clog, (c, p_term p, c, clog) ∈ bs ++ ballots h ∧ up_to_date clog (p_log p)) ∧
     (∀ t k c L, acked h n t k → leads h !! t = Some (c, L) → t < p_term p → good h t k (p_term p - 1) L →
        take k (p_log p) = take k L))) →
  spec_inv (mkHist (<[n := p]> (peer h)) (leads h) (bs ++ ballots h) (ls ++ late h) (acks h)).
Proof.
  intros I Hterm Htl Hop Hix Hasc Hvote Hvoted Hcand Hlead Hhold Hcommit Hbs.
  assert (Hnew : ∀ m t c l, (m, t, c, l) ∈ bs ++ ballots h → (m, t, c, l) ∈ ballots h ∨
    m = n ∧ t = p_term p ∧ l = p_log p ∧ bs = [(n, p_term p, c, p_log p)]).
  { intros m t c l [Hin|Hin]%elem_of_app; [|by left].
    destruct Hbs as [(-> & _)|[(c0 & -> & _)|(c0 & -> & _)]]; [by apply elem_of_nil in Hin..|].
    apply list_elem_of_singleton in Hin as [= -> -> -> ->]. by right. }
  assert (Hlate : ∀ m t c, (m, t, c) ∈ ls ++ late h → (m, t, c) ∈ late h ∨
    m = n ∧ t = p_term p ∧ ls = [(n, p_term p, c)]).
  { intros m t c [Hin|Hin]%elem_of_app; [|by left].
    destruct Hbs as [(_ & ->)|[(c0 & _ & -> & _)|(c0 & _ & -> & _)]]; [by apply elem_of_nil in Hin| |by apply elem_of_nil in Hin].
    apply list_elem_of_singleton in Hin as [= -> -> ->]. by right. }
  assert (Hkeep : ∀ m t c, voted h m t c → voted (mkHist (<[n := p]> (peer h)) (leads h) (bs ++ ballots h) (ls ++ late h) (acks h)) m t c).
  { intros m t c [[l Hl]|Hl]; [left; exists l|right]; by apply elem_of_app; right. }
  set (h' := mkHist _ _ _ _ _) in *.
  assert (Hv' : ∀ m t c, voted h' m t c → voted h m t c ∨
    m = n ∧ t = p_term p ∧ p_vote p = Some c ∧ ∀ c', ¬ voted h n (p_term p) c').
  { intros m t c [[l Hl]|Hl].
    - destruct (Hnew _ _ _ _ Hl) as [?|(-> & -> & -> & E)]; [left; left; eauto|right].
      destruct Hbs as [(E0 & _)|[(c0 & E0 & _)|(c0 & E0 & _ & _ & _ & Hv & Hno & _)]]; [congruence..|].
      rewrite E0 in E. injection E as ->. done.
    - destruct (Hlate _ _ _ Hl) as [?|(-> & -> & E)]; [left; by right|right].
      destruct Hbs as [(_ & E0)|[(c0 & _ & E0 & Hv & _ & Hno)|(c0 & _ & E0 & _)]]; [congruence| |congruence].
      rewrite E0 in E. injection E as ->. done. }
  constructor; change (ballots h') with (bs ++ ballots h); change (late h') with (ls ++ late h);
    change (peer h') with (<[n := p]> (peer h)); change (leads h') with (leads h).
  - intros m. destruct (decide (m = n)) as [->|]; [rewrite fn_lookup_insert|rewrite fn_lookup_insert_ne by done].
    + destruct (si_peer _ I n). split_and!; try done. lia.
    + apply (si_peer _ I).
  - intros m t c l Hin. destruct (Hnew m t c l Hin) as [Hold|(-> & -> & -> & Ebs)].
    + destruct (si_ballot _ I _ _ _ _ Hold) as (? & ? & ? & Hv & ? & ? & clog & ? & ?). split_and!; try done.
      * destruct (decide (m = n)) as [->|]; [rewrite fn_lookup_insert; lia|by rewrite fn_lookup_insert_ne].
      * destruct (decide (m = n)) as [->|]; [rewrite fn_lookup_insert|by rewrite fn_lookup_insert_ne].
        intros ->. assert (E : p_term p = p_term (peer h n)) by lia. rewrite Hvote, Hv by (rewrite ?Hv; done). done.
      * exists clog. split; [by apply elem_of_app; right|done].
    + destruct Hbs as [(E0 & _)|[(c0 & E0 & _)|(c0 & E0 & _ & Hn & H2 & Hv & _ & Htl' & Hc & _)]]; [congruence..|].
      rewrite E0 in Ebs. injection Ebs as ->. rewrite fn_lookup_insert. split_and!; done.
  - intros m t c Hin. destruct (Hlate _ _ _ Hin) as [Hold|(-> & -> & E)].
    + destruct (si_late _ I _ _ _ Hold) as (? & Hv & ?). split_and!; try done.
      * destruct (decide (m = n)) as [->|]; [rewrite fn_lookup_insert; lia|by rewrite fn_lookup_insert_ne].
      * destruct (decide (m = n)) as [->|]; [rewrite fn_lookup_insert|by rewrite fn_lookup_insert_ne].
        intros ->. assert (E : p_term p = p_term (peer h n)) by lia. rewrite Hvote, Hv by (rewrite ?Hv; done). done.
    + destruct Hbs as [(_ & E0)|[(c0 & _ & E0 & Hv & Hs & _)|(c0 & _ & E0 & _)]]; [congruence| |congruence].
      rewrite E0 in E. injection E as ->. rewrite fn_lookup_insert. split_and!; done.
  - intros m c. destruct (decide (m = n)) as [->|]; [rewrite fn_lookup_insert|rewrite fn_lookup_insert_ne by done].
    + intros Hv. destruct (Hvoted c Hv) as [?|[->| ->]]; [by apply Hkeep|left; eexists; by left|right; by left].
    + intros Hv. by apply Hkeep, (si_voted _ I).
  - intros m t c c' H1 H2.
    destruct (Hv' _ _ _ H1) as [O1|(-> & -> & E1 & No1)], (Hv' _ _ _ H2) as [O2|(E2 & E3 & E4 & No2)].
    + by eapply si_unique.
    + rewrite E2, E3 in O1. by apply No2 in O1.
    + by apply No1 in O2.
    + congruence.
  - intros c t l l' H1 H2.
    destruct (Hnew _ _ _ _ H1) as [O1|(-> & -> & -> & E1)], (Hnew _ _ _ _ H2) as [O2|(E2 & E3 & -> & E4)].
    + by eapply si_self.
    + rewrite E2, E3 in O1. destruct Hbs as [(E0 & _)|[(c0 & E0 & _)|(c0 & E0 & _ & _ & _ & _ & Hno & _)]]; [congruence..|].
      destruct (Hno n). left. eauto.
    + destruct Hbs as [(E0 & _)|[(c0 & E0 & _)|(c0 & E0 & _ & _ & _ & _ & Hno & _)]]; [congruence..|].
      destruct (Hno n). left. eauto.
    + done.
  - intros m Hr. destruct (decide (m = n)) as [->|]; [rewrite fn_lookup_insert in *|rewrite fn_lookup_insert_ne in * by done].
    + by apply Hcand.
    + destruct (si_candidate _ I m Hr). split; [by apply elem_of_app; right|done].
  - intros m Hr. destruct (decide (m = n)) as [->|]; [rewrite fn_lookup_insert in *|rewrite fn_lookup_insert_ne in * by done].
    + by apply Hlead.
    + by apply (si_leader _ I).
  - intros t c L HL. destruct (si_lead _ I _ _ _ HL) as (? & ? & ? & ? & ? & clog & Q & ? & ? & ? & ? & Hb).
    split_and!; try done. exists clog, Q. split_and!; try done; [by apply elem_of_app; right|].
    intros m Hm. destruct (Hb m Hm) as [l Hl]. exists l. by apply elem_of_app; right.
  - intros m t k Hin. destruct (si_ack _ I _ _ _ Hin) as (? & ? & ?). split_and!; try done.
    destruct (decide (m = n)) as [->|]; [rewrite fn_lookup_insert; lia|by rewrite fn_lookup_insert_ne].
  - intros m t k c L Hin HL. destruct (decide (m = n)) as [->|]; [rewrite fn_lookup_insert|rewrite fn_lookup_insert_ne by done].
    + exact (Hhold t k c L Hin HL).
    + exact (si_hold _ I m t k c L Hin HL).
  - intros m t k c L t' c' l Hin HL Hb Hlt Hg. destruct (Hnew _ _ _ _ Hb) as [Ob|(-> & -> & -> & E1)].
    + exact (si_vote _ I _ _ _ _ _ _ _ _ Hin HL Ob Hlt Hg).
    + destruct Hbs as [(E0 & _)|[(c0 & E0 & _)|(c0 & E0 & _ & _ & _ & _ & _ & _ & _ & Hv)]]; [congruence..|].
      exact (Hv t k c L Hin HL Hlt Hg).
  - intros m. destruct (decide (m = n)) as [->|]; [by rewrite fn_lookup_insert|rewrite fn_lookup_insert_ne by done].
    apply (si_commit _ I).
Qed.

(** A member whose log, commit and role stay keeps the invariant under a higher
    term. *)
Lemma good_le h t k t1 t2 L : good h t k t2 L → t1 ≤ t2 → good h t k t1 L.
Proof. intros H Hle t'' c'' L'' Hr. apply (H t'' c''). lia. Qed.

Lemma commit_later h n t : spec_inv h → p_term (peer h n) ≤ t →
  (p_commit (peer h n) ≤ length (p_log (peer h n)))%nat ∧
  (p_commit (peer h n) = O ∨ ∃ t', t' ≤ t ∧ committed_by h t' (take (p_commit (peer h n)) (p_log (peer h n)))).
Proof.
  intros I Ht. destruct (si_commit _ I n) as [? [?|(t' & ? & ?)]]; (split; [done|]); [by left|right]. exists t'. split; [lia|done].
Qed.

Lemma raise_inv h n t v r bs :
  spec_inv h → p_term (peer h n) < t → r ≠ Leader →
  (r = Candidate → t = p_term (peer h n) + 1 ∧ v = Some n ∧ n ∈ members ∧ bs = [(n, t, n, p_log (peer h n))]) →
  (r = Follower → v = None ∧ bs = []) →
  spec_inv (mkHist (<[n := with_term (peer h n) t v r]> (peer h)) (leads h) (bs ++ ballots h) ([] ++ late h) (acks h)).
Proof.
  intros I Ht Hr Hc Hf. destruct (si_peer _ I n) as (? & Htl & ? & ? & ?).
  pose proof (no_vote_later h n t I Ht) as Hno.
  apply frame; simpl; try done.
  - lia.
  - apply (terms_le_mono _ _ _ Htl). lia.
  - lia.
  - intros c Hv. destruct r; [destruct (Hf eq_refl); congruence| |done]. right. left.
    destruct (Hc eq_refl) as (_ & -> & _ & ->). congruence.
  - intros E. destruct (Hc E) as (-> & _ & _ & ->). split; [by left|].
    intros L HL. apply (si_lead _ I) in HL as (_ & _ & _ & _ & _ & clog & Q & Hs & _). destruct (Hno n). left. eauto.
  - intros t' k c L Hin HL Hg. eapply si_hold; [done..|]. eapply good_le; [done|lia].
  - apply commit_later; [done|lia].
  - destruct r; [left; split; [by apply Hf|done]|right; right|done].
    destruct (Hc eq_refl) as (-> & -> & Hn & ->). exists n. split_and!; try done.
    + lia.
    + apply (terms_le_mono _ _ _ Htl). lia.
    + exists (p_log (peer h n)). split; [by left|apply up_to_date_refl].
    + intros t' k c L Hin HL _ Hg. eapply si_hold; [done..|]. eapply good_le; [done|lia].
Qed.

Lemma no_leader_terms h n : spec_inv h → leads h !! p_term (peer h n) = None →
  terms_le (p_log (peer h n)) (p_term (peer h n) - 1).
Proof.
  intros I Hl e He. destruct (si_peer _ I n) as (_ & Htl & Hop & _). destruct (Htl e He). split; [done|].
  apply list_elem_of_lookup in He as [k Hk]. destruct (Hop k e Hk) as (c & L & HL & _).
  destruct (decide (e_term e = p_term (peer h n))) as [E|]; [|lia]. rewrite E in HL. congruence.
Qed.

Lemma vote_inv h n c clog :
  spec_inv h → n ∈ members → p_vote (peer h n) = None → leads h !! p_term (peer h n) = None →
  (c, p_term (peer h n), c, clog) ∈ ballots h → up_to_date clog (p_log (peer h n)) →
  spec_inv (mkHist (<[n := with_vote (peer h n) (Some c)]> (peer h)) (leads h)
    ([(n, p_term (peer h n), c, p_log (peer h n))] ++ ballots h) ([] ++ late h) (acks h)).
Proof.
  intros I Hn Hv Hl Hc Hu. destruct (si_peer _ I n) as (? & ? & ? & ? & ?). apply frame; simpl; try done.
  - intros c' [= <-]. auto.
  - intros Hr. destruct (si_candidate _ I n Hr) as [Hb HL]. split; [by right|done].
  - apply (si_leader _ I).
  - intros t k c' L Hin HL Hg. by eapply si_hold.
  - apply commit_later; [done|lia].
  - right. right. exists c. split_and!; try done.
    + by apply (si_ballot _ I) in Hc as (_ & ? & _).
    + by apply no_vote_yet.
    + by apply no_leader_terms.
    + exists clog. split; [by right|done].
    + intros t k c' L Hin HL _ Hg. eapply si_hold; [done..|]. intros t'' c'' L'' Hr HL''.
      destruct (decide (t'' = p_term (peer h n))) as [->|]; [congruence|]. apply (Hg t'' c''); [lia|done].
Qed.

Lemma follow_inv h n : spec_inv h → spec_inv (set_peer h n (with_role (peer h n) Follower)).
Proof.
  intros I. destruct (si_peer _ I n) as (? & ? & ? & ? & ?). apply (frame h n _ [] []); simpl; try done.
  - intros c Hv. left. by apply (si_voted _ I).
  - intros t k c' L Hin HL Hg. by eapply si_hold.
  - apply commit_later; [done|lia].
  - by left.
Qed.

Lemma vote_late_inv h n c :
  spec_inv h → p_vote (peer h n) = None → is_Some (leads h !! p_term (peer h n)) →
  spec_inv (cast_late (set_peer h n (with_vote (peer h n) (Some c))) n (p_term (peer h n)) c).
Proof.
  intros I Hv Hl. destruct (si_peer _ I n) as (? & ? & ? & ? & ?).
  apply (frame h n _ [] [(n, p_term (peer h n), c)]); simpl; try done.
  - intros c' [= <-]. auto.
  - apply (si_candidate _ I).
  - apply (si_leader _ I).
  - intros t k c' L Hin HL Hg. by eapply si_hold.
  - apply commit_later; [done|lia].
  - right. left. exists c. split_and!; try done. by apply no_vote_yet.
Qed.

(** The committed prefix of a member is on the log of the leader of its term. *)
Lemma commit_agrees h n c L :
  spec_inv h → leads h !! p_term (peer h n) = Some (c, L) → agree (p_commit (peer h n)) (p_log (peer h n)) L.
Proof.
  intros I HL. destruct (si_commit _ I n) as [Hle Hc]. split; [done|]. destruct Hc as [E|(t & Ht & Hc)]; [by rewrite E|].
  destruct (committed_in_leader h t _ _ _ _ I Hc Ht HL) as [m E]. rewrite E, take_app_le.
  - by rewrite firstn_firstn, Nat.min_id.
  - rewrite length_take. lia.
Qed.

Lemma acked_bound h n t k c L : spec_inv h → acked h n t k → leads h !! t = Some (c, L) →
  t ≤ p_term (peer h n) ∧ (k ≤ length L)%nat.
Proof.
  intros I (i & Hi & Hin) HL. destruct (si_ack _ I _ _ _ Hin) as (_ & Hle & c1 & L1 & HL1 & Hk).
  rewrite HL in HL1. injection HL1 as <- <-. lia.
Qed.

Lemma accept_inv h n c L j :
  spec_inv h → leads h !! p_term (peer h n) = Some (c, L) → p_role (peer h n) = Follower → (j ≤ length L)%nat →
  (∀ i, agree i (p_log (peer h n)) L → (i ≤ j)%nat) → spec_inv (set_peer h n (with_log (peer h n) (take j L))).
Proof.
  intros I HL Hr Hj Hkeep. destruct (si_lead _ I _ _ _ HL) as (? & ? & ? & ? & ? & _).
  apply (frame h n _ [] []); simpl; try done.
  - by apply terms_le_take.
  - by apply on_path_take.
  - by apply indexed_take.
  - by apply ascending_take.
  - intros c' Hv. left. by apply (si_voted _ I).
  - intros Hc. congruence.
  - intros Hc. congruence.
  - intros t k c' L' Hin HL' Hg. pose proof (si_hold _ I _ _ _ _ _ Hin HL' Hg) as E.
    destruct (acked_bound h n t k c' L' I Hin HL') as [Hle Hk].
    assert (Hkl : (k ≤ length (p_log (peer h n)))%nat) by (by apply (take_agree_length k L')).
    assert (EL : take k L = take k L').
    { destruct (decide (t = p_term (peer h n))) as [->|]; [congruence|]. apply (Hg (p_term (peer h n)) c); [lia|done]. }
    rewrite <- EL, firstn_firstn, Nat.min_l; [done|]. apply Hkeep. split; [done|congruence].
  - destruct (commit_agrees h n c L I HL) as [Hle E]. pose proof (Hkeep _ (conj Hle E)) as Hcj.
    split; [rewrite length_take; lia|]. destruct (si_commit _ I n) as [_ [?|(t & Ht & Hc)]]; [by left|right].
    exists t. split; [done|]. by rewrite firstn_firstn, Nat.min_l, <- E.
  - by left.
Qed.

Lemma commit_inv h n t i :
  spec_inv h → t ≤ p_term (peer h n) → (i ≤ length (p_log (peer h n)))%nat →
  committed_by h t (take i (p_log (peer h n))) → spec_inv (set_peer h n (with_commit (peer h n) i)).
Proof.
  intros I Ht Hi Hc. destruct (si_peer _ I n) as (? & ? & ? & ? & ?). apply (frame h n _ [] []); simpl; try done.
  - intros c' Hv. left. by apply (si_voted _ I).
  - apply (si_candidate _ I).
  - apply (si_leader _ I).
  - intros t' k c' L Hin HL Hg. by eapply si_hold.
  - eauto.
  - by left.
Qed.

Lemma acked_acknowledge h n t i m t' k :
  acked (acknowledge h n t i) m t' k ↔ acked h m t' k ∨ m = n ∧ t' = t ∧ (k ≤ i)%nat.
Proof.
  split.
  - intros (j & Hj & [[= -> -> ->]|Hin]%elem_of_cons); [by right|left; by exists j].
  - intros [(j & Hj & Hin)|(-> & -> & Hk)]; [exists j|exists i]; (split; [done|]); [by right|by left].
Qed.

Lemma committed_by_acks h n t i t' l : committed_by h t' l → committed_by (acknowledge h n t i) t' l.
Proof.
  intros (c & L & k & Q & ? & ? & Ha & ? & ?). exists c, L, k, Q. split_and!; try done.
  intros m Hm. apply acked_acknowledge. left. by apply Ha.
Qed.

Lemma ack_inv h n c L i :
  spec_inv h → n ∈ members → leads h !! p_term (peer h n) = Some (c, L) → agree i (p_log (peer h n)) L →
  spec_inv (acknowledge h n (p_term (peer h n)) i).
Proof.
  intros I Hn HL [Hi E]. pose proof (take_agree_length _ _ _ E Hi) as HiL.
  constructor; simpl; try apply I.
  - intros m t k [[= -> -> ->]|Hin]%elem_of_cons; [|by apply (si_ack _ I)]. split_and!; [done|lia|eauto].
  - intros m t k c' L' Hin HL' Hg. apply acked_acknowledge in Hin as [Hin|(-> & -> & Hk)]; [exact (si_hold _ I _ _ _ _ _ Hin HL' Hg)|].
    rewrite HL in HL'. injection HL' as <- <-. by apply (take_agree_le k i).
  - intros m t k c' L' t' cc l Hin HL' Hb Hlt Hg.
    apply acked_acknowledge in Hin as [Hin|(-> & -> & Hk)]; [exact (si_vote _ I _ _ _ _ _ _ _ _ Hin HL' Hb Hlt Hg)|].
    apply (si_ballot _ I) in Hb as (_ & _ & ? & _). lia.
  - intros m. destruct (si_commit _ I m) as [? [?|(t & ? & ?)]]; (split; [done|]); [by left|right].
    exists t. split; [done|by apply committed_by_acks].
Qed.

(** *** Leader logs grow *)

(** The leader logs of [h'] extend those of [h] by entries of their terms. *)
Definition leads_le (h h' : Hist) : Prop :=
  ∀ t c L, leads h !! t = Some (c, L) → ∃ L', leads h' !! t = Some (c, L') ∧ L `prefix_of` L' ∧
    ∀ k e, L' !! k = Some e → (length L ≤ k)%nat → e_term e = t.

Lemma on_path_mono h h' l : leads_le h h' → on_path h l → on_path h' l.
Proof.
  intros Hle Hp k e Hk. destruct (Hp k e Hk) as (c & L & HL & E). destruct (Hle _ _ _ HL) as (L' & HL' & Hpre & _).
  exists c, L'. split; [done|]. rewrite E. symmetry. apply prefix_take_le; [done|].
  apply (take_agree_length _ l); [done|]. apply lookup_lt_Some in Hk. lia.
Qed.

Lemma good_anti h h' t k t' L :
  leads_le h h' → terms_le L t → (k ≤ length L)%nat → good h' t k t' L → good h t k t' L.
Proof.
  intros Hle Htl Hk Hg t'' c'' L'' Hr HL''. destruct (Hle _ _ _ HL'') as (L2 & HL2 & Hpre & Hnew).
  pose proof (Hg t'' c'' L2 Hr HL2) as E. destruct (decide (k ≤ length L'')%nat) as [Hd|Hd].
  - by rewrite <- (prefix_take_le k L'' L2 Hpre Hd).
  - exfalso. assert (Hk2 : (k ≤ length L2)%nat) by (by apply (take_agree_length k L)).
    destruct (lookup_lt_is_Some_2 L2 (length L'') ltac:(lia)) as [e He].
    pose proof (Hnew _ _ He ltac:(lia)). rewrite (take_agree_lookup k _ L2 L E) in He by lia.
    apply list_elem_of_lookup_2, Htl in He. lia.
Qed.

Lemma committed_by_mono h h' t l : leads_le h h' → acks h' = acks h → 1 ≤ t → committed_by h t l → committed_by h' t l.
Proof.
  intros Hle Ha Ht (c & L & k & Q & HL & HQ & Hm & Hk & Hpre). destruct (Hle _ _ _ HL) as (L' & HL' & Hp & _).
  destruct (log_term_lookup L k t Hk Ht) as (k0 & e & -> & He & Hte).
  exists c, L', (S k0), Q. split_and!; try done.
  - intros m Hq. destruct (Hm m Hq) as (i & Hi & Hin). exists i. by rewrite Ha.
  - simpl. by rewrite (prefix_lookup_Some _ _ _ _ He Hp).
  - rewrite (prefix_take_le _ L L') by (done || (apply lookup_lt_Some in He; lia)). done.
Qed.

(** A member that leads its term, newly or with a longer log. *)
Lemma grow_inv h n l :
  spec_inv h →
  (p_log (peer h n) = l ∧ leads h !! p_term (peer h n) = None ∧ 2 ≤ p_term (peer h n) ∧
     (n, p_term (peer h n), n, l) ∈ ballots h ∧
     (∃ Q, quorum Q ∧ ∀ m, m ∈ Q → ∃ v, (m, p_term (peer h n), n, v) ∈ ballots h)
   ∨ leads h !! p_term (peer h n) = Some (n, p_log (peer h n)) ∧
     ∃ e, l = p_log (peer h n) ++ [e] ∧ e_term e = p_term (peer h n) ∧
       e_index e = Z.of_nat (length (p_log (peer h n))) + 1) →
  spec_inv (lead (set_peer h n (mkPeer (p_term (peer h n)) (p_vote (peer h n)) Leader l (p_commit (peer h n))))
    (p_term (peer h n)) n l).
Proof.
  set (T := p_term (peer h n)). intros I Hcase.
  set (h' := lead _ _ _ _). destruct (si_peer _ I n) as (Hpos & Htl & Hop & Hix & Hasc). fold T in Hpos, Htl.
  assert (Hpre : p_log (peer h n) `prefix_of` l).
  { destruct Hcase as [[-> _]|(_ & e & -> & _)]; [done|by apply prefix_app_r]. }
  assert (Hle : leads_le h h').
  { intros t c L HL. destruct (decide (t = T)) as [->|Hne].
    - destruct Hcase as [(_ & HN & _)|(HT & e & -> & He & _)]; [congruence|]. rewrite HT in HL. injection HL as <- <-.
      exists (p_log (peer h n) ++ [e]). split_and!; [by apply lookup_insert_eq|by apply prefix_app_r|].
      intros k x [Hk|[_ Hx]]%lookup_app_Some Hlen; [apply lookup_lt_Some in Hk; lia|].
      by apply list_lookup_singleton_Some in Hx as [_ <-].
    - exists L. split_and!; [by rewrite <- HL; apply lookup_insert_ne|done|]. intros k e Hk. apply lookup_lt_Some in Hk. lia. }
  assert (HT' : leads h' !! T = Some (n, l)) by apply lookup_insert_eq.
  assert (Hother : ∀ t, t ≠ T → leads h' !! t = leads h !! t) by (intros t Ht; by apply lookup_insert_ne).
  assert (Hold : ∀ t k m, acked h m t k → ∃ c L L', leads h !! t = Some (c, L) ∧ leads h' !! t = Some (c, L') ∧
    (k ≤ length L)%nat ∧ take k L' = take k L ∧ terms_le L t).
  { intros t k m (i & Hki & Hin). destruct (si_ack _ I _ _ _ Hin) as (_ & _ & c & L & HL & Hk).
    destruct (Hle _ _ _ HL) as (L' & HL' & Hp & _). exists c, L, L'. split_and!; try done.
    - lia.
    - apply prefix_take_le; [done|lia].
    - by apply (si_lead _ I) in HL as (_ & ? & _). }
  assert (Hgood : ∀ t k m t' c L', acked h m t k → leads h' !! t = Some (c, L') → good h' t k t' L' →
    ∃ L, leads h !! t = Some (c, L) ∧ good h t k t' L ∧ take k L' = take k L).
  { intros t k m t' c L' Hin HL' Hg. destruct (Hold _ _ _ Hin) as (c0 & L & L2 & HL & HL2 & Hk & E & Ht).
    rewrite HL' in HL2. injection HL2 as <- <-. exists L. split_and!; try done.
    apply (good_anti h h'); [done..|]. intros t'' c'' L'' Hr HL''. rewrite <- E. by apply (Hg t'' c''). }
  assert (terms_le l T ∧ on_path h' l ∧ indexed l ∧ ascending l) as (Hl1 & Hl2 & Hl3 & Hl4).
  { destruct Hcase as [[<- _]|(HT & e & -> & He & Hie)].
    - split_and!; try done. by apply (on_path_mono h).
    - split_and!.
      + intros x [Hx|Hx]%elem_of_app; [by apply Htl|]. apply list_elem_of_singleton in Hx as ->. lia.
      + intros k x [Hk|[Hk Hx]]%lookup_app_Some.
        * destruct (on_path_mono h h' _ Hle Hop k x Hk) as (c & L & HL & E). exists c, L. split; [done|].
          rewrite take_app_le; [done|]. apply lookup_lt_Some in Hk. lia.
        * apply list_lookup_singleton_Some in Hx as [_ <-]. rewrite He. eauto.
      + by apply indexed_snoc.
      + apply ascending_snoc; [done|]. by rewrite He. }
  assert (Hack : ∀ m t k, acked h' m t k → acked h m t k) by done.
  constructor; change (ballots h') with (ballots h); change (acks h') with (acks h); change (late h') with (late h);
    change (peer h') with (<[n := mkPeer T (p_vote (peer h n)) Leader l (p_commit (peer h n))]> (peer h)).
  - intros m. destruct (decide (m = n)) as [->|]; [rewrite fn_lookup_insert; done|rewrite fn_lookup_insert_ne by done].
    destruct (si_peer _ I m) as (? & ? & ? & ? & ?). split_and!; try done. by apply (on_path_mono h).
  - intros m t c v Hin. destruct (si_ballot _ I _ _ _ _ Hin) as (? & ? & ? & ? & ? & ? & ?).
    split_and!; try done; [| |by apply (on_path_mono h)].
    + destruct (decide (m = n)) as [->|]; [by rewrite fn_lookup_insert|by rewrite fn_lookup_insert_ne].
    + destruct (decide (m = n)) as [->|]; [by rewrite fn_lookup_insert|by rewrite fn_lookup_insert_ne].
  - intros m t c Hin. destruct (si_late _ I _ _ _ Hin) as (? & ? & [[c0 L0] HL0]). split_and!.
    + destruct (decide (m = n)) as [->|]; [by rewrite fn_lookup_insert|by rewrite fn_lookup_insert_ne].
    + destruct (decide (m = n)) as [->|]; [by rewrite fn_lookup_insert|by rewrite fn_lookup_insert_ne].
    + destruct (Hle _ _ _ HL0) as (L' & HL' & _). eauto.
  - intros m c. destruct (decide (m = n)) as [->|]; [rewrite fn_lookup_insert; apply (si_voted _ I)|rewrite fn_lookup_insert_ne by done; apply (si_voted _ I)].
  - exact (si_unique _ I).
  - exact (si_self _ I).
  - intros m. destruct (decide (m = n)) as [->|]; [by rewrite fn_lookup_insert|rewrite fn_lookup_insert_ne by done].
    intros Hr. destruct (si_candidate _ I m Hr) as [? HL]. split; [done|]. intros L.
    destruct (decide (p_term (peer h m) = T)) as [E|]; [rewrite E|]; rewrite ?HT', ?Hother by done; [congruence|apply HL].
  - intros m. destruct (decide (m = n)) as [->|]; [rewrite fn_lookup_insert; simpl; intros _; apply HT'|rewrite fn_lookup_insert_ne by done].
    intros Hr. apply (si_leader _ I) in Hr. rewrite Hother; [done|]. intros E. rewrite E in Hr.
    destruct Hcase as [(_ & HN & _)|(HN & _)]; fold T in HN; congruence.
  - intros t c L. destruct (decide (t = T)) as [->|Hne].
    + rewrite HT'. intros [= <- <-]. destruct Hcase as [(El & HN & H2 & Hself & Q & HQ & Hb)|(HT & e & -> & He & Hie)].
      * split_and!; try done. exists l, Q. split_and!; try done. intros k e Hk Hlen. apply lookup_lt_Some in Hk. lia.
      * destruct (si_lead _ I _ _ _ HT) as (? & _ & _ & _ & _ & clog & Q & ? & Hp & Hn & ? & ?).
        split_and!; try done. exists clog, Q. split_and!; try done; [by apply prefix_app_r|].
        intros k x [Hk|[Hk Hx]]%lookup_app_Some Hlen; [by eapply Hn|]. by apply list_lookup_singleton_Some in Hx as [_ <-].
    + rewrite Hother by done. intros HL. destruct (si_lead _ I _ _ _ HL) as (? & ? & ? & ? & ? & ?). split_and!; try done.
      by apply (on_path_mono h).
  - intros m t k Hin. destruct (Hold t k m) as (c & L & L' & HL & HL' & Hk & E & _); [by exists k|].
    destruct (si_ack _ I _ _ _ Hin) as (? & ? & _). split_and!; [done| |].
    + destruct (decide (m = n)) as [->|]; [by rewrite fn_lookup_insert|by rewrite fn_lookup_insert_ne].
    + exists c, L'. split; [done|]. by apply (take_agree_length k L).
  - intros m t k c L' Hin HL' Hg.
    destruct (decide (m = n)) as [->|]; [rewrite fn_lookup_insert in *|rewrite fn_lookup_insert_ne in * by done]; simpl in *.
    + destruct (Hgood t k n _ c L' Hin HL' Hg) as (L & HL & Hg' & E).
      pose proof (si_hold _ I _ _ _ _ _ Hin HL Hg') as E'. rewrite E, <- E'. apply prefix_take_le; [done|].
      destruct (Hold _ _ _ Hin) as (c1 & L1 & _ & HL1 & _ & Hk & _). rewrite HL in HL1. injection HL1 as <- <-.
      by apply (take_agree_length k L).
    + destruct (Hgood t k m _ c L' Hin HL' Hg) as (L & HL & Hg' & E).
      rewrite E. exact (si_hold _ I _ _ _ _ _ Hin HL Hg').
  - intros m t k c L' t' c' v Hin HL' Hb Hlt Hg. destruct (Hgood t k m _ c L' Hin HL' Hg) as (L & HL & Hg' & E).
    rewrite E. exact (si_vote _ I _ _ _ _ _ _ _ _ Hin HL Hb Hlt Hg').
  - assert (Hc : ∀ m t i, committed_by h t (take i (p_log (peer h m))) → committed_by h' t (take i (p_log (peer h m)))).
    { intros m t i Hc. apply (committed_by_mono h); [done..| |done]. destruct (committed_leader _ _ _ Hc) as (c & L & HL).
      apply (si_lead _ I) in HL as (? & _). lia. }
    intros m. destruct (si_commit _ I m) as [Hlen Hm].
    destruct (decide (m = n)) as [->|]; [rewrite fn_lookup_insert|rewrite fn_lookup_insert_ne by done]; simpl.
    + split; [apply prefix_length in Hpre; lia|]. destruct Hm as [?|(t & ? & Hm)]; [by left|right]. exists t. split; [done|].
      rewrite (prefix_take_le _ _ _ Hpre Hlen). by apply Hc.
    + split; [done|]. destruct Hm as [?|(t & ? & Hm)]; [by left|right]. exists t. split; [done|by apply Hc].
Qed.

Lemma candidate_not_led h n Q : spec_inv h → p_role (peer h n) = Candidate → quorum Q →
  (∀ m, m ∈ Q → voted h m (p_term (peer h n)) n) → leads h !! p_term (peer h n) = None.
Proof.
  intros I Hr HQ Hb. destruct (si_candidate _ I n Hr) as [_ HnL].
  destruct (leads h !! p_term (peer h n)) as [[c L]|] eqn:HL; [|done]. exfalso.
  destruct (si_lead _ I _ _ _ HL) as (_ & _ & _ & _ & _ & _ & Q' & _ & _ & _ & HQ' & Hb').
  apply (HnL L). by rewrite (one_candidate_elected h _ n c Q Q' I HQ HQ' Hb) by (intros m Hm; left; by apply Hb').
Qed.

Lemma spec_step_inv h n h' : spec_inv h → spec_step h n h' → spec_inv h'.
Proof.
  intros I. destruct 1.
  - by apply (raise_inv h n t None Follower []).
  - by apply follow_inv.
  - apply (raise_inv h n (p_term (peer h n) + 1) (Some n) Candidate [(n, p_term (peer h n) + 1, n, p_log (peer h n))]); try done; lia.
  - by apply (vote_inv h n c clog).
  - by apply vote_late_inv.
  - destruct (si_candidate _ I n Hr) as [Hself _]. apply grow_inv; [done|]. left.
    pose proof (candidate_not_led h n Q I Hr HQ Hb) as Hnone.
    split_and!; eauto.
    + by apply (si_ballot _ I) in Hself as (_ & ? & _).
    + exists Q. split; [done|]. intros m Hm. destruct (Hb m Hm) as [?|Hl]; [done|].
      apply (si_late _ I) in Hl as (_ & _ & [x Hx]). congruence.
  - unfold with_log. rewrite Hr. apply grow_inv; [done|]. right. split; [by apply (si_leader _ I)|eauto].
  - by apply (accept_inv h n c L).
  - by eapply ack_inv.
  - eapply commit_inv; [done..|lia|done].
Qed.

Lemma initial_inv : spec_inv initial_hist.
Proof.
  assert (Hno : ∀ A (x : A), x ∉ []) by (intros A x; apply not_elem_of_nil).
  constructor; simpl.
  - intros n. split_and!; [lia|intros e He; by apply Hno in He|by intros ? ?|by intros ? ?|by intros ? ?].
  - intros n t c l Hin. by apply Hno in Hin.
  - intros n t c Hin. by apply Hno in Hin.
  - done.
  - intros n t c c' [[l Hin]|Hin]; by apply Hno in Hin.
  - intros c t l l' Hin. by apply Hno in Hin.
  - done.
  - done.
  - intros t c L HL. by rewrite lookup_empty in HL.
  - intros n t k Hin. by apply Hno in Hin.
  - intros n t k c L (i & _ & Hin). by apply Hno in Hin.
  - intros n t k c L t' c' l (i & _ & Hin). by apply Hno in Hin.
  - intros n. split; [lia|by left].
Qed.

(** ** What moves preserve *)

Record extends (n : string) (h h' : Hist) : Prop := {
  ex_peer m : m ≠ n → peer h' m = peer h m;
  ex_leads : leads_le h h';
  ex_ballots b : b ∈ ballots h → b ∈ ballots h';
  ex_late b : b ∈ late h → b ∈ late h';
  ex_acks b : b ∈ acks h → b ∈ acks h'
}.

Lemma leads_le_refl h : leads_le h h.
Proof. intros t c L HL. exists L. split_and!; [done|done|]. intros k e Hk. apply lookup_lt_Some in Hk. lia. Qed.

Lemma extends_refl n h : extends n h h.
Proof. constructor; try done. apply leads_le_refl. Qed.

Lemma extends_trans n h1 h2 h3 : extends n h1 h2 → extends n h2 h3 → extends n h1 h3.
Proof.
  intros E1 E2. constructor.
  - intros m Hm. by rewrite (ex_peer _ _ _ E2 m Hm), (ex_peer _ _ _ E1 m Hm).
  - intros t c L HL. destruct (ex_leads _ _ _ E1 _ _ _ HL) as (L2 & HL2 & P2 & N2).
    destruct (ex_leads _ _ _ E2 _ _ _ HL2) as (L3 & HL3 & P3 & N3). exists L3. split_and!; [done|by etrans|].
    intros k e Hk Hlen. destruct (decide (k < length L2)%nat) as [Hlt|]; [|apply (N3 k e Hk); lia].
    destruct (lookup_lt_is_Some_2 L2 k Hlt) as [e2 He2].
    pose proof (prefix_lookup_Some _ _ _ _ He2 P3) as He3. rewrite Hk in He3. injection He3 as ->. by apply (N2 k e2).
  - intros b Hb. by apply (ex_ballots _ _ _ E2), (ex_ballots _ _ _ E1).
  - intros b Hb. by apply (ex_late _ _ _ E2), (ex_late _ _ _ E1).
  - intros b Hb. by apply (ex_acks _ _ _ E2), (ex_acks _ _ _ E1).
Qed.

Lemma lead_extends h n p l : (leads h !! p_term (peer h n) = None ∨
    leads h !! p_term (peer h n) = Some (n, p_log (peer h n)) ∧ ∃ e, l = p_log (peer h n) ++ [e] ∧ e_term e = p_term (peer h n)) →
  extends n h (lead (set_peer h n p) (p_term (peer h n)) n l).
Proof.
  intros Hc. constructor; try done.
  - intros m Hm. simpl. by rewrite fn_lookup_insert_ne.
  - intros t c L HL. simpl. destruct (decide (t = p_term (peer h n))) as [->|Hne].
    + destruct Hc as [?|(HT & e & -> & He)]; [congruence|]. rewrite HT in HL. injection HL as <- <-.
      exists (p_log (peer h n) ++ [e]). split_and!; [by apply lookup_insert_eq|by apply prefix_app_r|].
      intros k x [Hk|[_ Hx]]%lookup_app_Some Hlen; [apply lookup_lt_Some in Hk; lia|].
      by apply list_lookup_singleton_Some in Hx as [_ <-].
    + exists L. split_and!; [by rewrite lookup_insert_ne|done|]. intros k e Hk. apply lookup_lt_Some in Hk. lia.
Qed.

Lemma frame_extends h n p bs ls :
  extends n h (mkHist (<[n := p]> (peer h)) (leads h) (bs ++ ballots h) (ls ++ late h) (acks h)).
Proof.
  constructor; simpl.
  - intros m Hm. by rewrite fn_lookup_insert_ne.
  - exact (leads_le_refl h).
  - intros b Hb. by apply elem_of_app; right.
  - intros b Hb. by apply elem_of_app; right.
  - done.
Qed.

Lemma spec_step_extends h n h' : spec_inv h → spec_step h n h' → extends n h h'.
Proof.
  intros I. destruct 1.
  - apply (frame_extends h n _ [] []).
  - apply (frame_extends h n _ [] []).
  - apply (frame_extends h n _ [_] []).
  - apply (frame_extends h n _ [_] []).
  - apply (frame_extends h n _ [] [_]).
  - apply lead_extends. left. by apply (candidate_not_led h n Q).
  - apply lead_extends. right. split; [by apply (si_leader _ I)|eauto].
  - apply (frame_extends h n _ [] []).
  - constructor; try done; [exact (leads_le_refl h)|]. intros b Hb. by right.
  - apply (frame_extends h n _ [] []).
Qed.

(** Zero or more moves of one member. *)
Definition moves (n : string) : Hist → Hist → Prop := rtc (λ h h', spec_step h n h').

Lemma moves_ok h n h' : spec_inv h → moves n h h' → spec_inv h' ∧ extends n h h'.
Proof.
  intros I Hm. revert I. induction Hm as [h|h h1 h2 Hs _ IH]; intros I; [split; [done|apply extends_refl]|].
  destruct (IH (spec_step_inv _ _ _ I Hs)) as [I2 E2]. split; [done|].
  eapply extends_trans; [by eapply spec_step_extends|done].
Qed.

Lemma voted_mono n h h' m t c : extends n h h' → voted h m t c → voted h' m t c.
Proof. intros E [[l Hl]|Hl]; [left; exists l; by apply (ex_ballots _ _ _ E)|right; by apply (ex_late _ _ _ E)]. Qed.

Lemma acked_mono n h h' m t k : extends n h h' → acked h m t k → acked h' m t k.
Proof. intros E (i & Hi & Hin). exists i. split; [done|by apply (ex_acks _ _ _ E)]. Qed.

Lemma committed_mono n h h' t l : spec_inv h → extends n h h' → committed_by h t l → committed_by h' t l.
Proof.
  intros I E Hc. destruct Hc as (c & L & k & Q & HL & HQ & Hm & Hk & Hpre).
  destruct (ex_leads _ _ _ E _ _ _ HL) as (L' & HL' & Hp & _).
  destruct (si_lead _ I _ _ _ HL) as (Ht & _).
  destruct (log_term_lookup L k t Hk ltac:(lia)) as (k0 & e & -> & He & Hte).
  exists c, L', (S k0), Q. split_and!; try done.
  - intros m Hq. by eapply acked_mono; [|apply Hm].
  - simpl. by rewrite (prefix_lookup_Some _ _ _ _ He Hp).
  - rewrite (prefix_take_le _ L L') by (done || (apply lookup_lt_Some in He; lia)). done.
Qed.

Definition spec_any (h h' : Hist) : Prop := ∃ n, spec_step h n h'.
Definition spec_reachable : Hist → Prop := rtc spec_any initial_hist.

Lemma reachable_inv h : spec_reachable h → spec_inv h.
Proof. apply rtc_ind_r; [apply initial_inv|]. intros ? ? _ [n Hs] I. by eapply spec_step_inv. Qed.
End protocol.
