(* ===== verification/Persist.v ===== *)
(** Durable storage of one shard, src/persist.rs: the [meta], [log] and
    [snapshot] files, the operations that write them, and the recovery that
    reads them back.  A write can fail half-way; which part of it reached the
    disk is an input ([Outcome]) of the operations. *)

From Stdlib Require Import Ascii.
From S2P Require Import Prelude Json Text Command RaftTypes.

(** ** Records and their encoding *)

Definition LF : ascii := "010"%char.

Record Meta : Type := mkMeta {
  m_current_term : Z;
  m_voted_for : option string;
  m_commit_index : Z
}.

Record PersistedSnapshot : Type := mkPersisted {
  last_included_index : Z;
  last_included_term : Z;
  ps_state : string
}.

Record Recovered : Type := mkRecovered {
  r_current_term : Z;
  r_voted_for : option string;
  r_commit_index : Z;
  r_log : list LogEntry;
  r_snapshot : option PersistedSnapshot
}.

Definition no_recovery : Recovered := mkRecovered 0 None 0 [] None.

(** What the code takes from the crate [serde_json]; byte strings are strings. *)
Class DiskFormat := {
  meta_to_vec : Meta → option string;
  meta_from_slice : string → option Meta;
  entry_to_vec : LogEntry → option string;
  entry_from_slice : string → option LogEntry;
  snapshot_to_vec : PersistedSnapshot → option string;
  snapshot_from_slice : string → option PersistedSnapshot
}.

(** A record reads back, its numbers are [u64], its text is one line, and no
    proper prefix of the text of a log entry is a record. *)
Class DiskLaws `{DiskFormat} : Prop := {
  meta_reads_back m b : meta_to_vec m = Some b → b ≠ "" ∧ meta_from_slice b = Some m;
  snapshot_reads_back s b : snapshot_to_vec s = Some b → b ≠ "" ∧ snapshot_from_slice b = Some s;
  entry_reads_back e b : entry_to_vec e = Some b → b ≠ "" ∧ entry_from_slice b = Some e;
  entry_one_line e b : entry_to_vec e = Some b → split_on LF b = [b];
  entry_torn e b b1 b2 : entry_to_vec e = Some b → b = b1 +:+ b2 → b2 ≠ "" → entry_from_slice b1 = None;
  entry_in_range b e : entry_from_slice b = Some e → is_u64 (e_term e) ∧ is_u64 (e_index e);
  meta_in_range b m : meta_from_slice b = Some m → is_u64 (m_current_term m) ∧ is_u64 (m_commit_index m);
  snapshot_in_range b s : snapshot_from_slice b = Some s → is_u64 (last_included_index s) ∧ is_u64 (last_included_term s)
}.

Section store.
Context `{DiskFormat}.

(** ** Files *)

Record Files : Type := mkFiles {
  f_meta : option string;
  f_log : option string;
  f_snapshot : option string
}.

(** How a write ends.  [Failed n] is an error after the first [n] units of the
    write reached the disk: bytes for an append, the whole new file for the
    writes that replace a file by renaming. *)
Inductive Outcome : Type := Done | Failed (written : nat).

Record ShardStore : Type := mkStore {
  files : Files;
  durable_len : nat;
  outcomes : list Outcome
}.

Definition with_files (s : ShardStore) (f : Files) : ShardStore := mkStore f (durable_len s) (outcomes s).
Definition with_durable (s : ShardStore) (n : nat) : ShardStore := mkStore (files s) n (outcomes s).
Definition with_outcomes (s : ShardStore) (os : list Outcome) : ShardStore := mkStore (files s) (durable_len s) os.

Definition next_outcome (s : ShardStore) : Outcome * ShardStore :=
  match outcomes s with
  | [] => (Done, s)
  | o :: os => (o, with_outcomes s os)
  end.

(** ** Writes *)

(** The write-tmp, fsync, rename, fsync(dir) sequence: the live file is the old
    or the new one. *)
Definition replace_file (s : ShardStore) (put : Files → Files) : ShardStore * bool :=
  let '(o, s) := next_outcome s in
  match o with
  | Done => (with_files s (put (files s)), true)
  | Failed O => (s, false)
  | Failed (S _) => (with_files s (put (files s)), false)
  end.

Definition put_meta (b : string) (f : Files) : Files := mkFiles (Some b) (f_log f) (f_snapshot f).
Definition put_log (b : string) (f : Files) : Files := mkFiles (f_meta f) (Some b) (f_snapshot f).
Definition put_snapshot (b : string) (f : Files) : Files := mkFiles (f_meta f) (f_log f) (Some b).

Definition save_meta (s : ShardStore) (current_term : Z) (voted_for : option string) (commit_index : Z) : ShardStore * bool :=
  match meta_to_vec (mkMeta current_term voted_for commit_index) with
  | None => (s, false)
  | Some bytes => replace_file s (put_meta bytes)
  end.

(** One JSON record per line. *)
Fixpoint encode_entries (log : list LogEntry) : option string :=
  match log with
  | [] => Some ""
  | entry :: log =>
      line ← entry_to_vec entry;
      rest ← encode_entries log;
      Some (line +:+ String LF rest)
  end.

Definition append_tail (s : ShardStore) (log : list LogEntry) : ShardStore * bool :=
  if Nat.leb (length log) (durable_len s) then (s, true)
  else match encode_entries (drop (durable_len s) log) with
       | None => (s, false)
       | Some buf =>
           let '(o, s) := next_outcome s in
           let file := default "" (f_log (files s)) in
           match o with
           | Done => (with_durable (with_files s (put_log (file +:+ buf) (files s))) (length log), true)
           | Failed n => (with_files s (put_log (file +:+ truncate buf n) (files s)), false)
           end
       end.

Definition rewrite_log (s : ShardStore) (log : list LogEntry) : ShardStore * bool :=
  match encode_entries log with
  | None => (s, false)
  | Some buf =>
      let '(s, ok) := replace_file s (put_log buf) in
      if ok then (with_durable s (length log), true) else (s, false)
  end.

Definition save_snapshot (s : ShardStore) (snapshot : PersistedSnapshot) (remaining_log : list LogEntry) : ShardStore * bool :=
  match snapshot_to_vec snapshot with
  | None => (s, false)
  | Some bytes =>
      let '(s, ok) := replace_file s (put_snapshot bytes) in
      if ok then rewrite_log s remaining_log else (s, false)
  end.

(** ** Recovery *)

Inductive OpenError : Type :=
| OpenIo
| InvalidMeta
| InvalidSnapshot
| VoteInTermZero
| SnapshotMismatch
| EmptyRecord
| InvalidRecord
| ZeroIndexOrTerm
| TermDescends
| IndexOverflow
| IndexGap
| SnapshotTermDisagrees
| SuffixOverflow
| SuffixGap
| MetaMissing
| TermExceedsMeta
| CommitExceedsTail.

Definition read_optional_json {A} (parse : string → option A) (err : OpenError) (file : option string) : result (option A) OpenError :=
  match file with
  | None => Ok None
  | Some "" => Err err
  | Some bytes => match parse bytes with Some a => Ok (Some a) | None => Err err end
  end.

Definition ends_with_newline (s : string) : bool :=
  match String.get (String.length s - 1) s with Some a => Ascii.eqb a LF | None => false end.

Section scan.
Context (snapshot_index snapshot_term : Z) (empty_file terminated : bool).

(** The checks on one parsed record, and the suffix it belongs to. *)
Definition check_entry (previous : option (Z * Z)) (log : list LogEntry) (entry : LogEntry) : result (list LogEntry) OpenError :=
  if (e_index entry =? 0) || (e_term entry =? 0) then Err ZeroIndexOrTerm
  else if is_some_and previous (λ p, e_term entry <? p.2) then Err TermDescends
  else
    try! _ := match previous with
              | None => Ok tt
              | Some p => match checked_add p.1 1 with
                          | None => Err IndexOverflow
                          | Some expected => if e_index entry =? expected then Ok tt else Err IndexGap
                          end
              end in
    if (e_index entry =? snapshot_index) && negb (e_term entry =? snapshot_term) then Err SnapshotTermDisagrees
    else if snapshot_index <? e_index entry then
      match checked_add snapshot_index (Z.of_nat (length log)) ≫= λ i, checked_add i 1 with
      | None => Err SuffixOverflow
      | Some expected => if e_index entry =? expected then Ok (log ++ [entry]) else Err SuffixGap
      end
    else Ok log.

Fixpoint scan_lines (previous : option (Z * Z)) (log : list LogEntry) (lines : list string) : result (list LogEntry) OpenError :=
  match lines with
  | [] => Ok log
  | line :: lines' =>
      let is_last := bool_decide (lines' = []) in
      if String.eqb line "" then
        if is_last && (terminated || empty_file) then scan_lines previous log lines' else Err EmptyRecord
      else match entry_from_slice line with
           | None => if is_last && negb terminated then Ok log else Err InvalidRecord
           | Some entry =>
               try! log := check_entry previous log entry in
               scan_lines (Some (e_index entry, e_term entry)) log lines'
           end
  end.
End scan.

Definition log_tail (snapshot_index : Z) (log : list LogEntry) : Z := from_option e_index snapshot_index (last log).

(** The part of [ShardStore::open] that only reads. *)
Definition recover (f : Files) : result (Recovered * bool) OpenError :=
  try! persisted_meta := read_optional_json meta_from_slice InvalidMeta (f_meta f) in
  let meta_was_missing := bool_decide (persisted_meta = None) in
  let meta := default (mkMeta 0 None 0) persisted_meta in
  if (m_current_term meta =? 0) && negb (bool_decide (m_voted_for meta = None)) then Err VoteInTermZero
  else
    try! snapshot := read_optional_json snapshot_from_slice InvalidSnapshot (f_snapshot f) in
    let snapshot_index := from_option last_included_index 0 snapshot in
    let snapshot_term := from_option last_included_term 0 snapshot in
    if negb (Bool.eqb (snapshot_index =? 0) (snapshot_term =? 0)) then Err SnapshotMismatch
    else
      let log_bytes := default "" (f_log f) in
      let terminated := ends_with_newline log_bytes in
      try! log := scan_lines snapshot_index snapshot_term (String.eqb log_bytes "") terminated None [] (split_on LF log_bytes) in
      let durable_tail := log_tail snapshot_index log in
      if meta_was_missing && (negb (bool_decide (snapshot = None)) || negb (bool_decide (log = []))) then Err MetaMissing
      else if (m_current_term meta <? snapshot_term) || existsb (λ e, m_current_term meta <? e_term e) log then Err TermExceedsMeta
      else if durable_tail <? m_commit_index meta then Err CommitExceedsTail
      else Ok (mkRecovered (m_current_term meta) (m_voted_for meta) (Z.max (m_commit_index meta) snapshot_index) log snapshot,
               meta_was_missing).

(** [ShardStore::open]: recover, then write the canonical log and, for a new
    shard, an empty hard state. *)
Definition open (s : ShardStore) : ShardStore * result Recovered OpenError :=
  let '(o, s) := next_outcome s in
  match o with
  | Failed _ => (s, Err OpenIo)
  | Done =>
      match recover (files s) with
      | Err e => (s, Err e)
      | Ok (recovered, meta_was_missing) =>
          let '(s, ok) := rewrite_log (with_durable s 0) (r_log recovered) in
          if negb ok then (s, Err OpenIo)
          else if meta_was_missing then
            let '(s, ok) := save_meta s 0 None 0 in
            if ok then (s, Ok recovered) else (s, Err OpenIo)
          else (s, Ok recovered)
      end
  end.
End store.
