(* ===== verification/RaftCallback.v ===== *)
(** Which replies a leader believes: src/raft_callback.rs, src/raft_reply.rs and
    the reply checks of src/transport.rs. *)

From S2P Require Import Prelude Json Command RaftTypes.

(** ** Callbacks *)

(** An [Instant] is a number of nanoseconds. *)
Record RequestStamp : Type := mkStamp {
  rs_term : Z;
  rs_sequence : Z;
  rs_sent_at : Z
}.

#[export] Instance RequestStamp_eq_dec : EqDecision RequestStamp.
Proof. solve_decision. Defined.

Inductive CallbackAdmission : Type :=
| HigherTerm (term : Z)
| Current
| Ignore.

Definition classify_callback (current_term : Z) (active : option RequestStamp) (request : RequestStamp)
    (response_term : option Z) (now : Z) : CallbackAdmission :=
  let admission :=
    if negb (bool_decide (active = Some request)) || negb (rs_term request =? current_term) || (now <? rs_sent_at request)
    then Ignore else Current in
  match response_term with
  | Some term => if current_term <? term then HigherTerm term else admission
  | None => admission
  end.

(** [age] and [window] are durations; a missing age is no evidence. *)
Definition contact_is_fresh (age : option Z) (window : Z) : bool := is_some_and age (λ age, age <? window).

Definition advance_contact (previous : option Z) (sent_at : Z) : Z :=
  match previous with Some previous => Z.max previous sent_at | None => sent_at end.

Definition acknowledged_prefix (known requested reported : Z) : option (Z * Z) :=
  if reported <? requested then None
  else let matched := Z.max known requested in Some (matched, sat_add matched 1).

(** ** Replies *)

Inductive ReplyAdmission : Type :=
| IgnoreReply
| ObserveHigherTerm
| Deliver.

Definition admit_replication_reply (request_term requested_index response_term : Z) (success : bool) (reported_index : Z) : ReplyAdmission :=
  match response_term ?= request_term with
  | Lt => IgnoreReply
  | Gt => ObserveHigherTerm
  | Eq => if success && (reported_index <? requested_index) then IgnoreReply else Deliver
  end.

(** [Transport::append_entries] and [Transport::install_snapshot], from the
    answer the peer gave (if one arrived) to the answer the actor sees. *)
Definition transport_append (req : AppendEntriesReq) (answer : option AppendEntriesResp) : option AppendEntriesResp :=
  requested_index ← checked_add (ar_prev_log_index req) (Z.of_nat (length (ar_entries req)));
  response ← answer;
  match admit_replication_reply (ar_term req) requested_index (as_term response) (as_success response) (as_match_index response) with
  | IgnoreReply => None
  | ObserveHigherTerm => Some (mkAppendResp (as_term response) false (as_match_index response) LEGACY_COMMAND_PROTOCOL)
  | Deliver => Some response
  end.

Definition transport_snapshot (req : InstallSnapshotReq) (answer : option InstallSnapshotResp) : option InstallSnapshotResp :=
  response ← answer;
  match admit_replication_reply (sr_term req) (sr_last_included_index req) (ss_term response) (ss_success response) (ss_match_index response) with
  | IgnoreReply => None
  | ObserveHigherTerm => Some (mkSnapshotResp (ss_term response) false (ss_match_index response))
  | Deliver => Some response
  end.

(** ** What an admitted reply proves *)

(** A success the actor sees answers this request in its own term and covers the
    prefix it offered. *)
Lemma transport_append_success req answer resp :
  transport_append req answer = Some resp → as_success resp = true →
  answer = Some resp ∧ as_term resp = ar_term req ∧
  ar_prev_log_index req + Z.of_nat (length (ar_entries req)) ≤ as_match_index resp.
Proof.
  unfold transport_append. intros (i & Hi & (r & Hr & Hm)%bind_Some)%bind_Some Hs.
  apply checked_add_Some in Hi as [-> _]. revert Hm. unfold admit_replication_reply.
  destruct (Z.compare_spec (as_term r) (ar_term req)); [|done|].
  - case_goal; [done|]. intros [= ->]. rewrite Hs in *. bools. destruct_or!; [done|]. bools. split_and!; [done|done|lia].
  - by intros [= <-].
Qed.

Lemma transport_snapshot_success req answer resp :
  transport_snapshot req answer = Some resp → ss_success resp = true →
  answer = Some resp ∧ ss_term resp = sr_term req ∧ sr_last_included_index req ≤ ss_match_index resp.
Proof.
  unfold transport_snapshot. intros (r & Hr & Hm)%bind_Some Hs. revert Hm. unfold admit_replication_reply.
  destruct (Z.compare_spec (ss_term r) (sr_term req)); [|done|].
  - case_goal; [done|]. intros [= ->]. rewrite Hs in *. bools. destruct_or!; [done|]. bools. split_and!; [done|done|lia].
  - by intros [= <-].
Qed.
