(* ===== verification/RaftConfig.v ===== *)
(** Configuration of the Raft plane: [RaftTiming], [resolve_peers] and [Rng] of
    src/consensus.rs, and the limits of src/peer_config.rs.  The process
    environment is a function from names to values. *)

From Stdlib Require Import Ascii.
From S2P Require Import Prelude Text.

Definition Environment : Type := string → option string.

(** [str::parse::<u64>] and, on a 64-bit machine, [str::parse::<usize>]. *)
Definition parse_u64 (s : string) : option Z :=
  match s with
  | EmptyString => None
  | String a s' =>
      if Ascii.eqb a "+" then match s' with EmptyString => None | _ => parse_digits U64_MAX 0 s' end
      else parse_digits U64_MAX 0 s
  end.

(** [u64::saturating_mul], [u64::wrapping_mul]. *)
Definition sat_mul (a b : Z) : Z := Z.min (a * b) U64_MAX.
Definition wrap_mul (a b : Z) : Z := (a * b) mod (U64_MAX + 1).

(** A [Duration] is a number of nanoseconds. *)
Definition from_millis (ms : Z) : Z := ms * 1000000.
Definition as_millis (d : Z) : Z := d / 1000000.
Definition as_u64 (z : Z) : Z := z mod (U64_MAX + 1).

(** ** Timing *)

Record RaftTiming : Type := mkTiming {
  tick : Z;
  heartbeat : Z;
  election_min_ms : Z;
  election_jitter_ms : Z;
  pre_vote : bool;
  check_quorum : bool;
  snapshot_threshold : Z
}.

Definition default_timing : RaftTiming := mkTiming (from_millis 20) (from_millis 50) 150 150 true true 1024.

Definition sanitized (t : RaftTiming) : RaftTiming :=
  let tick := if tick t =? 0 then from_millis 1 else tick t in
  let heartbeat := if heartbeat t =? 0 then from_millis 1 else heartbeat t in
  let tick := if heartbeat <? tick then heartbeat else tick in
  let heartbeat_ms := as_u64 (as_millis heartbeat) in
  let floor := Z.max (sat_mul heartbeat_ms 2) 1 in
  let election_min_ms := if election_min_ms t <? floor then floor else election_min_ms t in
  mkTiming tick heartbeat election_min_ms (election_jitter_ms t) (pre_vote t) (check_quorum t) (snapshot_threshold t).

Definition env_ms (env : Environment) (var : string) (dflt : Z) : Z := default dflt (env var ≫= parse_u64).

Definition env_switch (env : Environment) (var : string) (dflt : bool) : bool :=
  match env var with
  | Some s => let s := to_ascii_lowercase (trim s) in
              negb (String.eqb s "0" || String.eqb s "false" || String.eqb s "off")
  | None => dflt
  end.

Definition from_env (env : Environment) : RaftTiming :=
  let d := default_timing in
  sanitized (mkTiming
    (from_millis (env_ms env "FIDUCIA_RAFT_TICK_MS" (as_u64 (as_millis (tick d)))))
    (from_millis (env_ms env "FIDUCIA_RAFT_HEARTBEAT_MS" (as_u64 (as_millis (heartbeat d)))))
    (env_ms env "FIDUCIA_RAFT_ELECTION_MIN_MS" (election_min_ms d))
    (env_ms env "FIDUCIA_RAFT_ELECTION_JITTER_MS" (election_jitter_ms d))
    (env_switch env "FIDUCIA_RAFT_PREVOTE" (pre_vote d))
    (env_switch env "FIDUCIA_RAFT_CHECK_QUORUM" (check_quorum d))
    (env_ms env "FIDUCIA_RAFT_SNAPSHOT_THRESHOLD" (snapshot_threshold d))).

(** ** Membership *)

Record NodeConfig : Type := mkNodeConfig {
  node_id_of : string;
  peers_of : list string;
  shard_count : Z;
  data_dir : option string
}.

(** [filter(|p| seen.insert(p.clone()))] *)
Fixpoint keep_first (seen : gset string) (ps : list string) : list string :=
  match ps with
  | [] => []
  | p :: ps => if decide (p ∈ seen) then keep_first seen ps else p :: keep_first ({[p]} ∪ seen) ps
  end.

Definition resolve_peers (raw : list string) (self_id : string) : list string :=
  keep_first ∅ (List.filter (λ p, negb (String.eqb p "") && negb (String.eqb p self_id)) (trim <$> raw)).

Definition node_config (env : Environment) : NodeConfig :=
  let node_id := default "node-a" (env "FIDUCIA_NODE_ID") in
  mkNodeConfig node_id
    (resolve_peers (default [] (split_on "," <$> env "FIDUCIA_PEERS")) node_id)
    (Z.max (default 16 (env "FIDUCIA_SHARD_COUNT" ≫= parse_u32)) 1)
    (Some (default "/var/lib/fiducia" (env "FIDUCIA_DATA_DIR"))).

(** ** Peer plane limits *)

Definition DEFAULT_MAX_BODY_BYTES : Z := 256 * 1024 * 1024.
Definition DEFAULT_APPEND_MAX_BYTES : Z := 8 * 1024 * 1024.
Definition DEFAULT_APPEND_MAX_ENTRIES : Z := 64.
Definition DEFAULT_RPC_TIMEOUT_MS : Z := 10000.
Definition DEFAULT_SNAPSHOT_TIMEOUT_MS : Z := 120000.

Definition usize_env (env : Environment) (name : string) (dflt : Z) : Z :=
  match env name ≫= parse_u64 with
  | Some value => if 0 <? value then value else dflt
  | None => dflt
  end.
Definition u64_env : Environment → string → Z → Z := usize_env.

Definition max_body_bytes (env : Environment) : Z := usize_env env "FIDUCIA_RAFT_PEER_MAX_BODY_BYTES" DEFAULT_MAX_BODY_BYTES.
Definition append_max_entries (env : Environment) : Z := usize_env env "FIDUCIA_RAFT_APPEND_MAX_ENTRIES" DEFAULT_APPEND_MAX_ENTRIES.
Definition append_max_bytes (env : Environment) : Z :=
  Z.min (usize_env env "FIDUCIA_RAFT_APPEND_MAX_BYTES" DEFAULT_APPEND_MAX_BYTES) (max_body_bytes env).
Definition rpc_timeout (env : Environment) : Z := from_millis (u64_env env "FIDUCIA_RAFT_RPC_TIMEOUT_MS" DEFAULT_RPC_TIMEOUT_MS).
Definition snapshot_timeout (env : Environment) : Z :=
  from_millis (u64_env env "FIDUCIA_RAFT_SNAPSHOT_TIMEOUT_MS" DEFAULT_SNAPSHOT_TIMEOUT_MS).

(** ** Random election timeouts *)

Definition Rng : Type := Z.

Fixpoint mix_bytes (h : Z) (s : string) : Z :=
  match s with
  | EmptyString => h
  | String a s => mix_bytes (wrap_mul (Z.lxor h (Z.of_N (byte_at a))) 0x100000001b3) s
  end.

Definition seeded (node_id : string) (shard nanos : Z) : Rng :=
  Z.lor (Z.lxor (Z.lxor (mix_bytes 0xcbf29ce484222325 node_id) shard) nanos) 1.

Definition next_u64 (rng : Rng) : Z * Rng :=
  let rng := wrap_add rng 0x9E3779B97F4A7C15 in
  let z := wrap_mul (Z.lxor rng (Z.shiftr rng 30)) 0xBF58476D1CE4E5B9 in
  let z := wrap_mul (Z.lxor z (Z.shiftr z 27)) 0x94D049BB133111EB in
  (Z.lxor z (Z.shiftr z 31), rng).

Definition below (rng : Rng) (bound : Z) : Z * Rng :=
  if bound =? 0 then (0, rng)
  else let '(z, rng) := next_u64 rng in (z mod bound, rng).

(** ** What configuration guarantees *)

Lemma keep_first_spec seen ps :
  NoDup (keep_first seen ps) ∧ ∀ p, p ∈ keep_first seen ps ↔ p ∈ ps ∧ p ∉ seen.
Proof.
  revert seen. induction ps as [|q ps IH]; intros seen; simpl.
  - split; [constructor|]. set_solver.
  - destruct (decide (q ∈ seen)) as [Hq|Hq].
    + destruct (IH seen) as [Hn Hs]. split; [done|]. intros p. rewrite Hs. set_solver.
    + destruct (IH ({[q]} ∪ seen)) as [Hn Hs]. split.
      * constructor; [|done]. rewrite Hs. set_solver.
      * intros p. rewrite elem_of_cons, Hs. destruct (decide (p = q)); set_solver.
Qed.

(** The peers are the distinct other members, so that with this node they are
    exactly the group whose majority is counted. *)
Lemma resolve_peers_distinct raw self_id :
  NoDup (self_id :: resolve_peers raw self_id) ∧
  ∀ p, p ∈ resolve_peers raw self_id ↔ p ∈ trim <$> raw ∧ p ≠ "" ∧ p ≠ self_id.
Proof.
  unfold resolve_peers. set (fs := List.filter _ _). destruct (keep_first_spec ∅ fs) as [Hn Hs].
  assert (Hin : ∀ p, p ∈ keep_first ∅ fs ↔ p ∈ trim <$> raw ∧ p ≠ "" ∧ p ≠ self_id).
  { intros p. rewrite Hs. unfold fs. rewrite list_elem_of_In, List.filter_In, <- list_elem_of_In.
    rewrite andb_true_iff, !negb_true_iff, !String.eqb_neq. set_solver. }
  split; [|done]. constructor; [|done]. rewrite Hin. intros (_ & _ & ?). done.
Qed.

(** A node always runs with timers that can work: no timer is zero, a tick is at
    least as fine as a heartbeat, and the election timeout is at least two
    heartbeats, whatever the environment says. *)
Lemma sanitized_timers t :
  0 ≤ tick t → 0 ≤ heartbeat t → as_millis (heartbeat t) ≤ U64_MAX →
  let s := sanitized t in
  0 < tick s ≤ heartbeat s ∧ Z.min (2 * as_millis (heartbeat s)) U64_MAX ≤ election_min_ms s ∧
  1 ≤ election_min_ms s ∧ sanitized s = s.
Proof.
  intros Ht Hh Hm. unfold sanitized. cbv zeta. simpl.
  set (hb := if heartbeat t =? 0 then from_millis 1 else heartbeat t).
  assert (Hhb : 0 < hb ∧ 0 ≤ as_millis hb ≤ U64_MAX).
  { unfold hb. destruct (Z.eqb_spec (heartbeat t) 0); [done|]. split; [lia|]. split; [|done]. apply Z.div_pos; lia. }
  set (tk := if tick t =? 0 then from_millis 1 else tick t).
  assert (Htk : 0 < tk) by (unfold tk; destruct (Z.eqb_spec (tick t) 0); [done|lia]).
  assert (Eu : as_u64 (as_millis hb) = as_millis hb) by (unfold as_u64; apply Z.mod_small; lia).
  set (tk' := if hb <? tk then hb else tk). assert (Htk' : 0 < tk' ≤ hb) by (unfold tk'; destruct (Z.ltb_spec hb tk); lia).
  rewrite Eu. unfold sat_mul. set (fl := Z.max (Z.min (as_millis hb * 2) U64_MAX) 1).
  assert (Hfl : 1 ≤ fl ∧ Z.min (2 * as_millis hb) U64_MAX ≤ fl) by (unfold fl; lia).
  rewrite (proj2 (Z.eqb_neq hb 0)), (proj2 (Z.eqb_neq tk' 0)), Eu by lia. fold fl.
  rewrite (proj2 (Z.ltb_ge hb tk')) by lia.
  destruct (Z.ltb_spec (election_min_ms t) fl) as [Hlt|Hge].
  - rewrite (proj2 (Z.ltb_ge fl fl)) by lia. split_and!; (done || lia).
  - rewrite (proj2 (Z.ltb_ge (election_min_ms t) fl)) by lia. split_and!; (done || lia).
Qed.

Lemma below_range rng bound : 0 < bound → 0 ≤ (below rng bound).1 < bound.
Proof.
  intros Hb. unfold below. rewrite (proj2 (Z.eqb_neq bound 0)) by lia.
  destruct (next_u64 rng) as [z r]. simpl. by apply Z.mod_pos_bound.
Qed.
