(* ===== verification/ShardActor.v ===== *)
(** The shard actor of src/consensus.rs: one member of one Raft group, with its
    timers, its log, its durable store and its state machine.  A method that
    takes [&mut self] is a function on [ShardActor]; what it hands to other
    tasks is collected in three fields: [outbox] (the RPCs it spawned),
    [answers] (the replies to waiting clients) and [changes] (the events it
    published).  The clocks and the batch limits a call reads are its [Env]. *)

From S2P Require Import Prelude Json Text Command StateMachine RaftTypes RaftConfig RaftCallback Persist.

(** ** The state machine and the wire *)

(** What the actor needs of the state machine it replicates. *)
Class Machine := {
  mstate : Type;
  machine_new : mstate;
  machine_apply : mstate → Command → Z → mstate * ApplyResult;
  machine_snapshot : mstate → option string;
  machine_restore : string → option mstate;
  machine_protocol : mstate → Z
}.

(** The length of the JSON text of a request, of the crate [serde_json]. *)
Class Wire := { append_body_len : AppendEntriesReq → option Z }.

(** ** Data *)

Record LeaderState : Type := mkLeader {
  next_index : gmap string Z;
  match_index : gmap string Z;
  in_flight : gmap string bool;
  pending_requests : gmap string RequestStamp;
  request_sequence : Z;
  last_contact : gmap string Z;
  peer_command_protocol : gmap string Z
}.

Definition no_leader_state : LeaderState := mkLeader ∅ ∅ ∅ ∅ 0 ∅ ∅.

Definition set_next_index (v : gmap string Z) (l : LeaderState) : LeaderState :=
  mkLeader v (match_index l) (in_flight l) (pending_requests l) (request_sequence l) (last_contact l) (peer_command_protocol l).
Definition set_match_index (v : gmap string Z) (l : LeaderState) : LeaderState :=
  mkLeader (next_index l) v (in_flight l) (pending_requests l) (request_sequence l) (last_contact l) (peer_command_protocol l).
Definition set_in_flight (v : gmap string bool) (l : LeaderState) : LeaderState :=
  mkLeader (next_index l) (match_index l) v (pending_requests l) (request_sequence l) (last_contact l) (peer_command_protocol l).
Definition set_pending_requests (v : gmap string RequestStamp) (l : LeaderState) : LeaderState :=
  mkLeader (next_index l) (match_index l) (in_flight l) v (request_sequence l) (last_contact l) (peer_command_protocol l).
Definition set_request_sequence (v : Z) (l : LeaderState) : LeaderState :=
  mkLeader (next_index l) (match_index l) (in_flight l) (pending_requests l) v (last_contact l) (peer_command_protocol l).
Definition set_last_contact (v : gmap string Z) (l : LeaderState) : LeaderState :=
  mkLeader (next_index l) (match_index l) (in_flight l) (pending_requests l) (request_sequence l) v (peer_command_protocol l).
Definition set_peer_command_protocol (v : gmap string Z) (l : LeaderState) : LeaderState :=
  mkLeader (next_index l) (match_index l) (in_flight l) (pending_requests l) (request_sequence l) (last_contact l) v.

(** A oneshot channel is the number of the client that waits on it. *)
Record PendingProposal : Type := mkPending {
  started_at : Z;
  resp : Z
}.

Record ProposeOutcome : Type := mkOutcome {
  o_shard : Z;
  o_log_index : Z;
  o_revision : Z;
  o_output : Value
}.

Inductive ProposeError : Type :=
| NotLeader (shard : Z) (leader : option string)
| Unavailable (shard : Z).

Record ShardMetrics : Type := mkMetrics {
  append_rtt_ms_last : option Z;
  quorum_rtt_ms_last : option Z;
  follower_lag_max : Z;
  leader_transfer_count : Z
}.

Record ChangeEvent : Type := mkChange {
  scope : string;
  change_kind : string;
  change_key : string;
  change_revision : Z;
  detail : option Value
}.

(** An RPC the actor spawned.  The stamp and [up_to] stay with the sender. *)
Inductive Rpc : Type :=
| RpcVote (to : string) (req : RequestVoteReq)
| RpcAppend (to : string) (request : RequestStamp) (up_to : Z) (req : AppendEntriesReq)
| RpcSnapshot (to : string) (request : RequestStamp) (up_to : Z) (req : InstallSnapshotReq).

(** What a call reads of the world: [Instant::now], [now_ms], and the limits of
    peer_config.rs. *)
Record Env : Type := mkEnv {
  now : Z;
  wall_ms : Z;
  max_entries : Z;
  max_bytes : Z
}.

Section actor.
Context `{DiskFormat, Machine, Wire}.

Record ShardActor : Type := mkActor {
  shard_id : Z;
  node_id : string;
  peers : list string;
  members : nat;
  role : Role;
  current_term : Z;
  voted_for : option string;
  leader_id : option string;
  snapshot_index : Z;
  snapshot_term : Z;
  snapshot_state : string;
  log : list LogEntry;
  commit_index : Z;
  last_applied : Z;
  store : option ShardStore;
  storage_fault : option string;
  votes : gset string;
  campaign_started_at : Z;
  pre_votes : gset string;
  pre_vote_term : Z;
  leader : option LeaderState;
  timing : RaftTiming;
  election_deadline : Z;
  heartbeat_deadline : Z;
  last_leader_contact : Z;
  rng : Rng;
  pending : gmap Z PendingProposal;
  state : mstate;
  metrics : ShardMetrics;
  changes : list ChangeEvent;
  answers : list (Z * result ProposeOutcome ProposeError);
  outbox : list Rpc
}.

Definition set_role (v : Role) (a : ShardActor) : ShardActor :=
  mkActor (shard_id a) (node_id a) (peers a) (members a) v (current_term a) (voted_for a) (leader_id a)
    (snapshot_index a) (snapshot_term a) (snapshot_state a) (log a) (commit_index a) (last_applied a)
    (store a) (storage_fault a) (votes a) (campaign_started_at a) (pre_votes a) (pre_vote_term a)
    (leader a) (timing a) (election_deadline a) (heartbeat_deadline a) (last_leader_contact a) (rng a)
    (pending a) (state a) (metrics a) (changes a) (answers a) (outbox a).
Definition set_current_term (v : Z) (a : ShardActor) : ShardActor :=
  mkActor (shard_id a) (node_id a) (peers a) (members a) (role a) v (voted_for a) (leader_id a)
    (snapshot_index a) (snapshot_term a) (snapshot_state a) (log a) (commit_index a) (last_applied a)
    (store a) (storage_fault a) (votes a) (campaign_started_at a) (pre_votes a) (pre_vote_term a)
    (leader a) (timing a) (election_deadline a) (heartbeat_deadline a) (last_leader_contact a) (rng a)
    (pending a) (state a) (metrics a) (changes a) (answers a) (outbox a).
Definition set_voted_for (v : option string) (a : ShardActor) : ShardActor :=
  mkActor (shard_id a) (node_id a) (peers a) (members a) (role a) (current_term a) v (leader_id a)
    (snapshot_index a) (snapshot_term a) (snapshot_state a) (log a) (commit_index a) (last_applied a)
    (store a) (storage_fault a) (votes a) (campaign_started_at a) (pre_votes a) (pre_vote_term a)
    (leader a) (timing a) (election_deadline a) (heartbeat_deadline a) (last_leader_contact a) (rng a)
    (pending a) (state a) (metrics a) (changes a) (answers a) (outbox a).
Definition set_leader_id (v : option string) (a : ShardActor) : ShardActor :=
  mkActor (shard_id a) (node_id a) (peers a) (members a) (role a) (current_term a) (voted_for a) v
    (snapshot_index a) (snapshot_term a) (snapshot_state a) (log a) (commit_index a) (last_applied a)
    (store a) (storage_fault a) (votes a) (campaign_started_at a) (pre_votes a) (pre_vote_term a)
    (leader a) (timing a) (election_deadline a) (heartbeat_deadline a) (last_leader_contact a) (rng a)
    (pending a) (state a) (metrics a) (changes a) (answers a) (outbox a).
Definition set_snapshot_index (v : Z) (a : ShardActor) : ShardActor :=
  mkActor (shard_id a) (node_id a) (peers a) (members a) (role a) (current_term a) (voted_for a)
    (leader_id a) v (snapshot_term a) (snapshot_state a) (log a) (commit_index a) (last_applied a)
    (store a) (storage_fault a) (votes a) (campaign_started_at a) (pre_votes a) (pre_vote_term a)
    (leader a) (timing a) (election_deadline a) (heartbeat_deadline a) (last_leader_contact a) (rng a)
    (pending a) (state a) (metrics a) (changes a) (answers a) (outbox a).
Definition set_snapshot_term (v : Z) (a : ShardActor) : ShardActor :=
  mkActor (shard_id a) (node_id a) (peers a) (members a) (role a) (current_term a) (voted_for a)
    (leader_id a) (snapshot_index a) v (snapshot_state a) (log a) (commit_index a) (last_applied a)
    (store a) (storage_fault a) (votes a) (campaign_started_at a) (pre_votes a) (pre_vote_term a)
    (leader a) (timing a) (election_deadline a) (heartbeat_deadline a) (last_leader_contact a) (rng a)
    (pending a) (state a) (metrics a) (changes a) (answers a) (outbox a).
Definition set_snapshot_state (v : string) (a : ShardActor) : ShardActor :=
  mkActor (shard_id a) (node_id a) (peers a) (members a) (role a) (current_term a) (voted_for a)
    (leader_id a) (snapshot_index a) (snapshot_term a) v (log a) (commit_index a) (last_applied a)
    (store a) (storage_fault a) (votes a) (campaign_started_at a) (pre_votes a) (pre_vote_term a)
    (leader a) (timing a) (election_deadline a) (heartbeat_deadline a) (last_leader_contact a) (rng a)
    (pending a) (state a) (metrics a) (changes a) (answers a) (outbox a).
Definition set_log (v : list LogEntry) (a : ShardActor) : ShardActor :=
  mkActor (shard_id a) (node_id a) (peers a) (members a) (role a) (current_term a) (voted_for a)
    (leader_id a) (snapshot_index a) (snapshot_term a) (snapshot_state a) v (commit_index a)
    (last_applied a) (store a) (storage_fault a) (votes a) (campaign_started_at a) (pre_votes a)
    (pre_vote_term a) (leader a) (timing a) (election_deadline a) (heartbeat_deadline a)
    (last_leader_contact a) (rng a) (pending a) (state a) (metrics a) (changes a) (answers a) (outbox a).
Definition set_commit_index (v : Z) (a : ShardActor) : ShardActor :=
  mkActor (shard_id a) (node_id a) (peers a) (members a) (role a) (current_term a) (voted_for a)
    (leader_id a) (snapshot_index a) (snapshot_term a) (snapshot_state a) (log a) v (last_applied a)
    (store a) (storage_fault a) (votes a) (campaign_started_at a) (pre_votes a) (pre_vote_term a)
    (leader a) (timing a) (election_deadline a) (heartbeat_deadline a) (last_leader_contact a) (rng a)
    (pending a) (state a) (metrics a) (changes a) (answers a) (outbox a).
Definition set_last_applied (v : Z) (a : ShardActor) : ShardActor :=
  mkActor (shard_id a) (node_id a) (peers a) (members a) (role a) (current_term a) (voted_for a)
    (leader_id a) (snapshot_index a) (snapshot_term a) (snapshot_state a) (log a) (commit_index a) v
    (store a) (storage_fault a) (votes a) (campaign_started_at a) (pre_votes a) (pre_vote_term a)
    (leader a) (timing a) (election_deadline a) (heartbeat_deadline a) (last_leader_contact a) (rng a)
    (pending a) (state a) (metrics a) (changes a) (answers a) (outbox a).
Definition set_store (v : option ShardStore) (a : ShardActor) : ShardActor :=
  mkActor (shard_id a) (node_id a) (peers a) (members a) (role a) (current_term a) (voted_for a)
    (leader_id a) (snapshot_index a) (snapshot_term a) (snapshot_state a) (log a) (commit_index a)
    (last_applied a) v (storage_fault a) (votes a) (campaign_started_at a) (pre_votes a) (pre_vote_term
    a) (leader a) (timing a) (election_deadline a) (heartbeat_deadline a) (last_leader_contact a) (rng
    a) (pending a) (state a) (metrics a) (changes a) (answers a) (outbox a).
Definition set_storage_fault (v : option string) (a : ShardActor) : ShardActor :=
  mkActor (shard_id a) (node_id a) (peers a) (members a) (role a) (current_term a) (voted_for a)
    (leader_id a) (snapshot_index a) (snapshot_term a) (snapshot_state a) (log a) (commit_index a)
    (last_applied a) (store a) v (votes a) (campaign_started_at a) (pre_votes a) (pre_vote_term a)
    (leader a) (timing a) (election_deadline a) (heartbeat_deadline a) (last_leader_contact a) (rng a)
    (pending a) (state a) (metrics a) (changes a) (answers a) (outbox a).
Definition set_votes (v : gset string) (a : ShardActor) : ShardActor :=
  mkActor (shard_id a) (node_id a) (peers a) (members a) (role a) (current_term a) (voted_for a)
    (leader_id a) (snapshot_index a) (snapshot_term a) (snapshot_state a) (log a) (commit_index a)
    (last_applied a) (store a) (storage_fault a) v (campaign_started_at a) (pre_votes a) (pre_vote_term
    a) (leader a) (timing a) (election_deadline a) (heartbeat_deadline a) (last_leader_contact a) (rng
    a) (pending a) (state a) (metrics a) (changes a) (answers a) (outbox a).
Definition set_campaign_started_at (v : Z) (a : ShardActor) : ShardActor :=
  mkActor (shard_id a) (node_id a) (peers a) (members a) (role a) (current_term a) (voted_for a)
    (leader_id a) (snapshot_index a) (snapshot_term a) (snapshot_state a) (log a) (commit_index a)
    (last_applied a) (store a) (storage_fault a) (votes a) v (pre_votes a) (pre_vote_term a) (leader a)
    (timing a) (election_deadline a) (heartbeat_deadline a) (last_leader_contact a) (rng a) (pending a)
    (state a) (metrics a) (changes a) (answers a) (outbox a).
Definition set_pre_votes (v : gset string) (a : ShardActor) : ShardActor :=
  mkActor (shard_id a) (node_id a) (peers a) (members a) (role a) (current_term a) (voted_for a)
    (leader_id a) (snapshot_index a) (snapshot_term a) (snapshot_state a) (log a) (commit_index a)
    (last_applied a) (store a) (storage_fault a) (votes a) (campaign_started_at a) v (pre_vote_term a)
    (leader a) (timing a) (election_deadline a) (heartbeat_deadline a) (last_leader_contact a) (rng a)
    (pending a) (state a) (metrics a) (changes a) (answers a) (outbox a).
Definition set_pre_vote_term (v : Z) (a : ShardActor) : ShardActor :=
  mkActor (shard_id a) (node_id a) (peers a) (members a) (role a) (current_term a) (voted_for a)
    (leader_id a) (snapshot_index a) (snapshot_term a) (snapshot_state a) (log a) (commit_index a)
    (last_applied a) (store a) (storage_fault a) (votes a) (campaign_started_at a) (pre_votes a) v
    (leader a) (timing a) (election_deadline a) (heartbeat_deadline a) (last_leader_contact a) (rng a)
    (pending a) (state a) (metrics a) (changes a) (answers a) (outbox a).
Definition set_leader (v : option LeaderState) (a : ShardActor) : ShardActor :=
  mkActor (shard_id a) (node_id a) (peers a) (members a) (role a) (current_term a) (voted_for a)
    (leader_id a) (snapshot_index a) (snapshot_term a) (snapshot_state a) (log a) (commit_index a)
    (last_applied a) (store a) (storage_fault a) (votes a) (campaign_started_at a) (pre_votes a)
    (pre_vote_term a) v (timing a) (election_deadline a) (heartbeat_deadline a) (last_leader_contact a)
    (rng a) (pending a) (state a) (metrics a) (changes a) (answers a) (outbox a).
Definition set_election_deadline (v : Z) (a : ShardActor) : ShardActor :=
  mkActor (shard_id a) (node_id a) (peers a) (members a) (role a) (current_term a) (voted_for a)
    (leader_id a) (snapshot_index a) (snapshot_term a) (snapshot_state a) (log a) (commit_index a)
    (last_applied a) (store a) (storage_fault a) (votes a) (campaign_started_at a) (pre_votes a)
    (pre_vote_term a) (leader a) (timing a) v (heartbeat_deadline a) (last_leader_contact a) (rng a)
    (pending a) (state a) (metrics a) (changes a) (answers a) (outbox a).
Definition set_heartbeat_deadline (v : Z) (a : ShardActor) : ShardActor :=
  mkActor (shard_id a) (node_id a) (peers a) (members a) (role a) (current_term a) (voted_for a)
    (leader_id a) (snapshot_index a) (snapshot_term a) (snapshot_state a) (log a) (commit_index a)
    (last_applied a) (store a) (storage_fault a) (votes a) (campaign_started_at a) (pre_votes a)
    (pre_vote_term a) (leader a) (timing a) (election_deadline a) v (last_leader_contact a) (rng a)
    (pending a) (state a) (metrics a) (changes a) (answers a) (outbox a).
Definition set_last_leader_contact (v : Z) (a : ShardActor) : ShardActor :=
  mkActor (shard_id a) (node_id a) (peers a) (members a) (role a) (current_term a) (voted_for a)
    (leader_id a) (snapshot_index a) (snapshot_term a) (snapshot_state a) (log a) (commit_index a)
    (last_applied a) (store a) (storage_fault a) (votes a) (campaign_started_at a) (pre_votes a)
    (pre_vote_term a) (leader a) (timing a) (election_deadline a) (heartbeat_deadline a) v (rng a)
    (pending a) (state a) (metrics a) (changes a) (answers a) (outbox a).
Definition set_rng (v : Rng) (a : ShardActor) : ShardActor :=
  mkActor (shard_id a) (node_id a) (peers a) (members a) (role a) (current_term a) (voted_for a)
    (leader_id a) (snapshot_index a) (snapshot_term a) (snapshot_state a) (log a) (commit_index a)
    (last_applied a) (store a) (storage_fault a) (votes a) (campaign_started_at a) (pre_votes a)
    (pre_vote_term a) (leader a) (timing a) (election_deadline a) (heartbeat_deadline a)
    (last_leader_contact a) v (pending a) (state a) (metrics a) (changes a) (answers a) (outbox a).
Definition set_pending (v : gmap Z PendingProposal) (a : ShardActor) : ShardActor :=
  mkActor (shard_id a) (node_id a) (peers a) (members a) (role a) (current_term a) (voted_for a)
    (leader_id a) (snapshot_index a) (snapshot_term a) (snapshot_state a) (log a) (commit_index a)
    (last_applied a) (store a) (storage_fault a) (votes a) (campaign_started_at a) (pre_votes a)
    (pre_vote_term a) (leader a) (timing a) (election_deadline a) (heartbeat_deadline a)
    (last_leader_contact a) (rng a) v (state a) (metrics a) (changes a) (answers a) (outbox a).
Definition set_state (v : mstate) (a : ShardActor) : ShardActor :=
  mkActor (shard_id a) (node_id a) (peers a) (members a) (role a) (current_term a) (voted_for a)
    (leader_id a) (snapshot_index a) (snapshot_term a) (snapshot_state a) (log a) (commit_index a)
    (last_applied a) (store a) (storage_fault a) (votes a) (campaign_started_at a) (pre_votes a)
    (pre_vote_term a) (leader a) (timing a) (election_deadline a) (heartbeat_deadline a)
    (last_leader_contact a) (rng a) (pending a) v (metrics a) (changes a) (answers a) (outbox a).
Definition set_metrics (v : ShardMetrics) (a : ShardActor) : ShardActor :=
  mkActor (shard_id a) (node_id a) (peers a) (members a) (role a) (current_term a) (voted_for a)
    (leader_id a) (snapshot_index a) (snapshot_term a) (snapshot_state a) (log a) (commit_index a)
    (last_applied a) (store a) (storage_fault a) (votes a) (campaign_started_at a) (pre_votes a)
    (pre_vote_term a) (leader a) (timing a) (election_deadline a) (heartbeat_deadline a)
    (last_leader_contact a) (rng a) (pending a) (state a) v (changes a) (answers a) (outbox a).
Definition set_changes (v : list ChangeEvent) (a : ShardActor) : ShardActor :=
  mkActor (shard_id a) (node_id a) (peers a) (members a) (role a) (current_term a) (voted_for a)
    (leader_id a) (snapshot_index a) (snapshot_term a) (snapshot_state a) (log a) (commit_index a)
    (last_applied a) (store a) (storage_fault a) (votes a) (campaign_started_at a) (pre_votes a)
    (pre_vote_term a) (leader a) (timing a) (election_deadline a) (heartbeat_deadline a)
    (last_leader_contact a) (rng a) (pending a) (state a) (metrics a) v (answers a) (outbox a).
Definition set_answers (v : list (Z * result ProposeOutcome ProposeError)) (a : ShardActor) : ShardActor :=
  mkActor (shard_id a) (node_id a) (peers a) (members a) (role a) (current_term a) (voted_for a)
    (leader_id a) (snapshot_index a) (snapshot_term a) (snapshot_state a) (log a) (commit_index a)
    (last_applied a) (store a) (storage_fault a) (votes a) (campaign_started_at a) (pre_votes a)
    (pre_vote_term a) (leader a) (timing a) (election_deadline a) (heartbeat_deadline a)
    (last_leader_contact a) (rng a) (pending a) (state a) (metrics a) (changes a) v (outbox a).
Definition set_outbox (v : list Rpc) (a : ShardActor) : ShardActor :=
  mkActor (shard_id a) (node_id a) (peers a) (members a) (role a) (current_term a) (voted_for a)
    (leader_id a) (snapshot_index a) (snapshot_term a) (snapshot_state a) (log a) (commit_index a)
    (last_applied a) (store a) (storage_fault a) (votes a) (campaign_started_at a) (pre_votes a)
    (pre_vote_term a) (leader a) (timing a) (election_deadline a) (heartbeat_deadline a)
    (last_leader_contact a) (rng a) (pending a) (state a) (metrics a) (changes a) (answers a) v.

Section methods.
Context (e : Env).

(** ** Durability *)

Definition persist_hard_state_at (commit : Z) (a : ShardActor) : ShardActor * bool :=
  match store a with
  | None => (a, true)
  | Some s => let '(s, ok) := save_meta s (current_term a) (voted_for a) commit in (set_store (Some s) a, ok)
  end.
Definition persist_hard_state (a : ShardActor) : ShardActor * bool := persist_hard_state_at (commit_index a) a.

Definition persist_log_append (a : ShardActor) : ShardActor * bool :=
  match store a with
  | None => (a, true)
  | Some s => let '(s, ok) := append_tail s (log a) in (set_store (Some s) a, ok)
  end.

Definition persist_log_rewrite (a : ShardActor) : ShardActor * bool :=
  match store a with
  | None => (a, true)
  | Some s => let '(s, ok) := rewrite_log s (log a) in (set_store (Some s) a, ok)
  end.

Definition persist_snapshot (snapshot : PersistedSnapshot) (remaining : list LogEntry) (a : ShardActor) : ShardActor * bool :=
  match store a with
  | None => (a, true)
  | Some s => let '(s, ok) := save_snapshot s snapshot remaining in (set_store (Some s) a, ok)
  end.

Definition is_faulty (a : ShardActor) : bool := negb (bool_decide (storage_fault a = None)).

Definition record_leader_transfer (from to : Role) (a : ShardActor) : ShardActor :=
  if bool_decide (from = to) || (negb (bool_decide (from = Leader)) && negb (bool_decide (to = Leader))) then a
  else let m := metrics a in
       set_metrics (mkMetrics (append_rtt_ms_last m) (quorum_rtt_ms_last m) (follower_lag_max m)
                      (wrap_add (leader_transfer_count m) 1)) a.

Definition answer (client : Z) (r : result ProposeOutcome ProposeError) (a : ShardActor) : ShardActor :=
  set_answers (answers a ++ [(client, r)]) a.

Definition drain_pending (err : ProposeError) (a : ShardActor) : ShardActor :=
  set_pending ∅ (set_answers (answers a ++ ((λ kv, (resp kv.2, Err err)) <$> map_to_list (pending a))) a).

Definition fail_pending (a : ShardActor) : ShardActor := drain_pending (NotLeader (shard_id a) (leader_id a)) a.
Definition fail_pending_unavailable (a : ShardActor) : ShardActor := drain_pending (Unavailable (shard_id a)) a.

(** The fault keeps the operation; the operating system's message is left out. *)
Definition fail_storage (operation : string) (a : ShardActor) : ShardActor :=
  let a := if is_faulty a then a else set_storage_fault (Some operation) a in
  let a := record_leader_transfer (role a) Follower a in
  let a := set_role Follower a in
  let a := set_leader_id None a in
  let a := set_leader None a in
  let a := set_votes ∅ a in
  let a := set_pre_votes ∅ a in
  fail_pending_unavailable a.

(** ** Log arithmetic *)

Definition last_log_index (a : ShardActor) : Z := sat_add (snapshot_index a) (Z.of_nat (length (log a))).
Definition last_log_term (a : ShardActor) : Z := from_option e_term (snapshot_term a) (last (log a)).

(** [Vec::get] at an offset of type [u64]. *)
Definition get_entry (l : list LogEntry) (offset : Z) : option LogEntry := l !! Z.to_nat offset.

Definition term_at (a : ShardActor) (index : Z) : Z :=
  if index =? 0 then 0
  else if index =? snapshot_index a then snapshot_term a
  else if index <? snapshot_index a then 0
  else from_option e_term 0 (get_entry (log a) (index - snapshot_index a - 1)).

Definition majority (a : ShardActor) : nat := Nat.div (members a) 2 + 1.

(** ** Timing and terms *)

Definition reset_election_deadline (a : ShardActor) : ShardActor :=
  let '(jitter, rng) := below (rng a) (election_jitter_ms (timing a)) in
  set_election_deadline (now e + from_millis (election_min_ms (timing a) + jitter)) (set_rng rng a).

Definition step_down (term : Z) (to : option string) (a : ShardActor) : ShardActor :=
  if term <? current_term a then a
  else
    let a := record_leader_transfer (role a) Follower a in
    let a := if current_term a <? term then set_voted_for None (set_current_term term a) else a in
    let a := set_role Follower a in
    let a := set_leader None a in
    let a := set_votes ∅ a in
    let a := set_leader_id to a in
    let '(a, ok) := persist_hard_state a in
    if negb ok then fail_storage "persisting higher term while stepping down" a
    else fail_pending (reset_election_deadline a).

Definition relinquish_no_quorum (a : ShardActor) : ShardActor := step_down (current_term a) None a.

Definition become_follower_of (to : string) (a : ShardActor) : ShardActor :=
  let a := record_leader_transfer (role a) Follower a in
  let a := set_role Follower a in
  let a := set_leader_id (Some to) a in
  let a := set_leader None a in
  let a := set_votes ∅ a in
  let a := set_last_leader_contact (now e) a in
  fail_pending (reset_election_deadline a).

(** ** Applying *)

Definition change_of (command : Command) (output : Value) (revision : Z) : option ChangeEvent :=
  match command with
  | KvPut key _ _ _ => if flag "ok" output then Some (mkChange "kv" "put" key revision None) else None
  | KvDelete key => Some (mkChange "kv" "delete" key revision None)
  | ElectionCampaign name _ _ _ =>
      if flag "won" output then Some (mkChange "election" "elected" name revision (field "leadership" output)) else None
  | ElectionRenew name _ _ _ =>
      if flag "renewed" output then Some (mkChange "election" "renewed" name revision (field "leadership" output)) else None
  | ElectionResign name _ _ =>
      if flag "resigned" output then Some (mkChange "election" "resigned" name revision None) else None
  | ServiceRegister service _ _ _ _ =>
      if flag "registered" output then Some (mkChange "service" "register" service revision (field "instance" output)) else None
  | ServiceHeartbeat service _ _ =>
      if flag "heartbeat" output then Some (mkChange "service" "heartbeat" service revision (field "instance" output)) else None
  | ServiceDeregister service _ =>
      if flag "deregistered" output then Some (mkChange "service" "deregister" service revision None) else None
  | _ => None
  end.

Definition publish_change (command : Command) (output : Value) (revision : Z) (a : ShardActor) : ShardActor :=
  match change_of command output revision with
  | Some event => set_changes (changes a ++ [event]) a
  | None => a
  end.

(** A waiter whose entry was applied, with what it will be told. *)
Definition Completed : Type := Z * PendingProposal * Z * Value.

Definition fail_completed (completed : list Completed) (a : ShardActor) : ShardActor :=
  foldl (λ a c, answer (resp c.1.1.2) (Err (Unavailable (shard_id a))) a) a completed.

Definition maybe_compact (a : ShardActor) : ShardActor :=
  let threshold := snapshot_threshold (timing a) in
  if (threshold =? 0) || (sat_sub (last_applied a) (snapshot_index a) <? threshold) then a
  else
    let included := last_applied a in
    let included_term := term_at a included in
    match machine_snapshot (state a) with
    | None => a
    | Some bytes =>
        let remaining := drop (Z.to_nat (sat_sub included (snapshot_index a))) (log a) in
        let '(a, ok) := persist_snapshot (mkPersisted included included_term bytes) remaining a in
        if negb ok then fail_storage "persisting compacted snapshot" a
        else
          let a := set_log remaining a in
          let a := set_snapshot_index included a in
          let a := set_snapshot_term included_term a in
          set_snapshot_state bytes a
    end.

(** The entry at a committed index. *)
Definition committed_entry (a : ShardActor) (i : Z) : option LogEntry :=
  if i - snapshot_index a - 1 <? 0 then None else get_entry (log a) (i - snapshot_index a - 1).

Definition apply_entry (i : Z) (entry : LogEntry) (a : ShardActor) (completed : list Completed) : ShardActor * list Completed :=
  let a := set_last_applied i a in
  match e_command entry with
  | None => (a, completed)
  | Some command =>
      let '(st, applied) := machine_apply (state a) command (e_proposed_at_ms entry) in
      let a := set_state st a in
      let a := publish_change command (output applied) (applied_revision applied) a in
      match pending a !! i with
      | Some p => (set_pending (delete i (pending a)) a, completed ++ [(i, p, applied_revision applied, output applied)])
      | None => (a, completed)
      end
  end.

(** The loop runs while [last_applied < commit_index]; the fuel is the distance.
    The last component is the operation that faulted, if one did. *)
Fixpoint apply_loop (fuel : nat) (a : ShardActor) (completed : list Completed) : ShardActor * list Completed * option string :=
  if commit_index a <=? last_applied a then (a, completed, None)
  else match fuel with
       | O => (a, completed, None)
       | S fuel =>
           match checked_add (last_applied a) 1 with
           | None => (a, completed, Some "advancing applied index")
           | Some i =>
               match committed_entry a i with
               | None => (a, completed, Some "applying committed log")
               | Some entry => let '(a, completed) := apply_entry i entry a completed in apply_loop fuel a completed
               end
           end
       end.

Definition duration_millis (d : Z) : Z := Z.min (as_millis d) U64_MAX.

Definition complete_one (a : ShardActor) (c : Completed) : ShardActor :=
  let '(index, p, revision, out) := c in
  let m := metrics a in
  let a := set_metrics (mkMetrics (append_rtt_ms_last m) (Some (duration_millis (Z.max 0 (now e - started_at p))))
             (follower_lag_max m) (leader_transfer_count m)) a in
  answer (resp p) (Ok (mkOutcome (shard_id a) index revision out)) a.

Definition apply_committed (a : ShardActor) : ShardActor :=
  let '(a, completed, fault) := apply_loop (Z.to_nat (commit_index a - last_applied a)) a [] in
  match fault with
  | Some operation => fail_completed completed (fail_storage operation a)
  | None =>
      let a := maybe_compact a in
      if is_faulty a then fail_completed completed a
      else foldl complete_one a completed
  end.

(** ** Replication, leader side *)

Definition protocol_of (ls : LeaderState) (peer : string) : Z :=
  default LEGACY_COMMAND_PROTOCOL (peer_command_protocol ls !! peer).

Definition all_peers_support_current_command_protocol (a : ShardActor) : bool :=
  Nat.eqb (members a) 1 ||
  is_some_and (leader a) (λ ls, forallb (λ peer, CURRENT_COMMAND_PROTOCOL <=? protocol_of ls peer) (peers a)).

(** An entry a peer of that parser may receive. *)
Definition appendable (peer_protocol active_protocol : Z) (entry : LogEntry) : bool :=
  is_none_or (e_command entry) (λ command,
    (required_protocol command <=? peer_protocol) || (required_protocol command <=? active_protocol)).

Fixpoint appendable_protocol_prefix (suffix : list LogEntry) (peer_protocol active_protocol : Z) : list LogEntry :=
  match suffix with
  | [] => []
  | entry :: suffix =>
      if appendable peer_protocol active_protocol entry
      then entry :: appendable_protocol_prefix suffix peer_protocol active_protocol else []
  end.

Definition with_entries (req : AppendEntriesReq) (entries : list LogEntry) : AppendEntriesReq :=
  mkAppendReq (ar_term req) (ar_leader_id req) (ar_prev_log_index req) (ar_prev_log_term req) entries
    (ar_leader_commit req) (ar_command_protocol req).

Definition body_too_long (req : AppendEntriesReq) (limit : Z) : bool :=
  match append_body_len req with Some len => limit <? len | None => true end.

Fixpoint fill_batch (req : AppendEntriesReq) (suffix : list LogEntry) (limit : Z) : AppendEntriesReq :=
  match suffix with
  | [] => req
  | entry :: suffix =>
      let next := with_entries req (ar_entries req ++ [entry]) in
      if body_too_long next limit then
        if Nat.ltb 1 (length (ar_entries next)) then req else next
      else fill_batch next suffix limit
  end.

Definition bounded_append_request (req : AppendEntriesReq) (suffix : list LogEntry) (entry_limit byte_limit : Z) : AppendEntriesReq :=
  fill_batch (with_entries req []) (take (Z.to_nat (Z.max entry_limit 1)) suffix) (Z.max byte_limit 1).

Definition send (rpc : Rpc) (a : ShardActor) : ShardActor := set_outbox (outbox a ++ [rpc]) a.

Definition snapshot_request (a : ShardActor) : InstallSnapshotReq :=
  mkSnapshotReq (current_term a) (node_id a) (snapshot_index a) (snapshot_term a) (snapshot_state a).

Definition append_request (a : ShardActor) (next peer_protocol : Z) : AppendEntriesReq :=
  let prev := next - 1 in
  let suffix := appendable_protocol_prefix (drop (Z.to_nat (sat_sub prev (snapshot_index a))) (log a))
                  peer_protocol (machine_protocol (state a)) in
  bounded_append_request
    (mkAppendReq (current_term a) (node_id a) prev (term_at a prev) [] (commit_index a) CURRENT_COMMAND_PROTOCOL)
    suffix (max_entries e) (max_bytes e).

Definition send_append_to (peer : string) (a : ShardActor) : ShardActor :=
  if negb (bool_decide (peer ∈ peers a)) then a
  else match leader a with
       | None => a
       | Some ls =>
           if default false (in_flight ls !! peer) then a
           else match checked_add (request_sequence ls) 1 with
                | None => step_down (current_term a) None a
                | Some sequence =>
                    let request := mkStamp (current_term a) sequence (now e) in
                    let ls := set_request_sequence sequence ls in
                    let ls := set_pending_requests (<[peer := request]> (pending_requests ls)) ls in
                    let next := default 1 (next_index ls !! peer) in
                    let protocol := protocol_of ls peer in
                    let ls := set_in_flight (<[peer := true]> (in_flight ls)) ls in
                    let a := set_leader (Some ls) a in
                    if next <=? snapshot_index a then
                      send (RpcSnapshot peer request (snapshot_index a) (snapshot_request a)) a
                    else
                      let req := append_request a next protocol in
                      let up_to := sat_add (ar_prev_log_index req) (Z.of_nat (length (ar_entries req))) in
                      send (RpcAppend peer request up_to req) a
                end
       end.

Definition broadcast_append_entries (a : ShardActor) : ShardActor :=
  if bool_decide (role a = Leader) then foldl (λ a peer, send_append_to peer a) a (peers a) else a.

(** The indices known on each member, highest first. *)
Definition match_indices (a : ShardActor) : list Z :=
  merge_sort Z.ge (last_log_index a ::
    match leader a with
    | Some ls => (λ peer, default 0 (match_index ls !! peer)) <$> peers a
    | None => []
    end).

(** The highest index a majority has, held back before a command of a protocol
    the group cannot yet parse. *)
Definition commit_candidate (a : ShardActor) : Z :=
  let n := default 0 (match_indices a !! (majority a - 1)%nat) in
  let active := machine_protocol (state a) in
  if (active <? CURRENT_COMMAND_PROTOCOL) && negb (all_peers_support_current_command_protocol a) then
    match List.find (λ entry, (commit_index a <? e_index entry) &&
                              is_some_and (e_command entry) (λ command, active <? required_protocol command)) (log a) with
    | Some first_newer => Z.min n (sat_sub (e_index first_newer) 1)
    | None => n
    end
  else n.

Definition commit_to (operation : string) (n : Z) (a : ShardActor) : ShardActor :=
  let '(a, ok) := persist_hard_state_at n a in
  if negb ok then fail_storage operation a
  else apply_committed (set_commit_index n a).

Definition maybe_advance_commit (a : ShardActor) : ShardActor :=
  if negb (bool_decide (role a = Leader)) || is_faulty a then a
  else
    let n := commit_candidate a in
    if (commit_index a <? n) && (term_at a n =? current_term a) then commit_to "persisting leader commit index" n a
    else a.

Definition push_entry (index : Z) (command : option Command) (a : ShardActor) : ShardActor :=
  set_log (log a ++ [mkEntry (current_term a) index (wall_ms e) command]) a.

Definition activation_logged (a : ShardActor) : bool :=
  existsb (λ entry, match e_command entry with
                    | Some (ActivateCommandProtocol version) => version =? CURRENT_COMMAND_PROTOCOL
                    | _ => false
                    end) (log a).

Definition maybe_activate_command_protocol (a : ShardActor) : ShardActor :=
  if is_faulty a || negb (bool_decide (role a = Leader)) || (CURRENT_COMMAND_PROTOCOL <=? machine_protocol (state a)) then a
  else if negb (all_peers_support_current_command_protocol a) then a
  else if activation_logged a then
    if Nat.eqb (members a) 1 then maybe_advance_commit a else a
  else match checked_add (last_log_index a) 1 with
       | None => fail_storage "allocating command-protocol activation index" a
       | Some index =>
           let a := push_entry index (Some (ActivateCommandProtocol CURRENT_COMMAND_PROTOCOL)) a in
           let '(a, ok) := persist_log_append a in
           if negb ok then fail_storage "persisting command-protocol activation" a
           else if Nat.eqb (members a) 1 then commit_to "persisting command-protocol activation commit" index a
           else broadcast_append_entries a
       end.

(** ** Elections *)

Definition solicit_votes (term : Z) (is_pre_vote : bool) (a : ShardActor) : ShardActor :=
  let req := mkVoteReq term (node_id a) (last_log_index a) (last_log_term a) is_pre_vote in
  set_outbox (outbox a ++ ((λ peer, RpcVote peer req) <$> peers a)) a.

Definition initial_leader_state (a : ShardActor) (voters : gset string) : LeaderState :=
  let next := wrap_add (last_log_index a) 1 in
  foldl (λ ls peer,
    let ls := set_next_index (<[peer := next]> (next_index ls)) ls in
    let ls := set_match_index (<[peer := 0]> (match_index ls)) ls in
    let ls := set_in_flight (<[peer := false]> (in_flight ls)) ls in
    let ls := set_peer_command_protocol (<[peer := LEGACY_COMMAND_PROTOCOL]> (peer_command_protocol ls)) ls in
    if bool_decide (peer ∈ voters) then set_last_contact (<[peer := campaign_started_at a]> (last_contact ls)) ls else ls)
    no_leader_state (peers a).

Definition become_leader (a : ShardActor) : ShardActor :=
  if is_faulty a then a
  else
    let a := record_leader_transfer (role a) Leader a in
    let a := set_role Leader a in
    let a := set_leader_id (Some (node_id a)) a in
    let voters := votes a in
    let a := set_votes ∅ a in
    let a := set_leader (Some (initial_leader_state a voters)) a in
    let a := push_entry (wrap_add (last_log_index a) 1) None a in
    let '(a, ok) := persist_log_append a in
    if negb ok then fail_storage "persisting leader no-op" a
    else
      let a := set_heartbeat_deadline (now e + heartbeat (timing a)) a in
      let a := maybe_advance_commit a in
      broadcast_append_entries a.

Definition start_election (a : ShardActor) : ShardActor :=
  if is_faulty a then a
  else
    let a := set_current_term (wrap_add (current_term a) 1) a in
    let a := set_campaign_started_at (now e) a in
    let a := set_role Candidate a in
    let a := set_voted_for (Some (node_id a)) a in
    let a := set_leader_id None a in
    let a := set_votes {[node_id a]} a in
    let a := reset_election_deadline a in
    let '(a, ok) := persist_hard_state a in
    if negb ok then fail_storage "persisting election term and self-vote" a
    else if Nat.leb (majority a) (size (votes a)) then become_leader a
    else solicit_votes (current_term a) false a.

Definition start_pre_election (a : ShardActor) : ShardActor :=
  if is_faulty a then a
  else
    let a := set_role Follower a in
    let a := set_votes ∅ a in
    let a := reset_election_deadline a in
    let would_be_term := wrap_add (current_term a) 1 in
    let a := set_pre_vote_term would_be_term a in
    let a := set_pre_votes {[node_id a]} a in
    if Nat.leb (majority a) (size (pre_votes a)) then start_election a
    else solicit_votes would_be_term true a.

Definition handle_vote_reply (from : string) (was_pre_vote : bool) (r : RequestVoteResp) (a : ShardActor) : ShardActor :=
  if is_faulty a then a
  else if current_term a <? vs_term r then step_down (vs_term r) None a
  else if was_pre_vote then
    if negb (pre_vote_term a =? wrap_add (current_term a) 1) then a
    else if vs_granted r then
      let a := set_pre_votes ({[from]} ∪ pre_votes a) a in
      if Nat.leb (majority a) (size (pre_votes a)) then start_election a else a
    else a
  else if negb (bool_decide (role a = Candidate)) || negb (vs_term r =? current_term a) then a
  else if vs_granted r then
    let a := set_votes ({[from]} ∪ votes a) a in
    if Nat.leb (majority a) (size (votes a)) then become_leader a else a
  else a.

(** The candidate's log is at least as up to date as ours. *)
Definition log_ok (req : RequestVoteReq) (a : ShardActor) : bool :=
  (last_log_term a <? vr_last_log_term req) ||
  ((vr_last_log_term req =? last_log_term a) && (last_log_index a <=? vr_last_log_index req)).

Definition handle_pre_vote (req : RequestVoteReq) (a : ShardActor) : RequestVoteResp :=
  let leader_alive := negb (bool_decide (leader_id a = None)) &&
    (Z.max 0 (now e - last_leader_contact a) <? from_millis (election_min_ms (timing a))) in
  mkVoteResp (current_term a) ((current_term a <=? vr_term req) && log_ok req a && negb leader_alive).

Definition handle_request_vote (req : RequestVoteReq) (a : ShardActor) : ShardActor * RequestVoteResp :=
  let refuse a := (a, mkVoteResp (current_term a) false) in
  if is_faulty a then refuse a
  else if vr_term req <? vr_last_log_term req then refuse a
  else if vr_pre_vote req then (a, handle_pre_vote req a)
  else if vr_term req <? current_term a then refuse a
  else
    let a := if current_term a <? vr_term req then step_down (vr_term req) None a else a in
    if is_faulty a then refuse a
    else
      let can_vote := is_none_or (voted_for a) (λ v, String.eqb v (vr_candidate_id req)) in
      if can_vote && log_ok req a then
        let a := set_voted_for (Some (vr_candidate_id req)) a in
        let a := reset_election_deadline a in
        let '(a, ok) := persist_hard_state a in
        if negb ok then refuse (fail_storage "persisting granted vote" a)
        else (a, mkVoteResp (current_term a) true)
      else refuse a.

(** ** Replies to the leader *)

Definition leader_lease_held (a : ShardActor) : bool :=
  if negb (check_quorum (timing a)) || Nat.eqb (members a) 1 then true
  else match leader a with
       | None => false
       | Some ls =>
           let window := from_millis (election_min_ms (timing a)) in
           let age peer := sent ← last_contact ls !! peer; if now e <? sent then None else Some (now e - sent) in
           let fresh_peers := length (List.filter (λ peer, contact_is_fresh (age peer) window) (peers a)) in
           Nat.leb (majority a) (1 + fresh_peers)
       end.

Definition refresh_follower_lag_metric (a : ShardActor) : ShardActor :=
  let lag := match leader a with
             | None => 0
             | Some ls => foldl Z.max 0 ((λ peer, sat_sub (last_log_index a) (default 0 (match_index ls !! peer))) <$> peers a)
             end in
  let m := metrics a in
  set_metrics (mkMetrics (append_rtt_ms_last m) (quorum_rtt_ms_last m) lag (leader_transfer_count m)) a.

Definition accept_replication_callback (from : string) (request : RequestStamp) (response_term : option Z) (a : ShardActor) : ShardActor * bool :=
  if is_faulty a || negb (bool_decide (from ∈ peers a)) then (a, false)
  else
    let active := if bool_decide (role a = Leader) then leader a ≫= λ ls, pending_requests ls !! from else None in
    match classify_callback (current_term a) active request response_term (now e) with
    | HigherTerm term => (step_down term None a, false)
    | Ignore => (a, false)
    | Current =>
        match leader a with
        | Some ls => (set_leader (Some (set_pending_requests (delete from (pending_requests ls)) ls)) a, true)
        | None => (a, true)
        end
    end.

Definition clear_in_flight (from : string) (a : ShardActor) : ShardActor :=
  match leader a with
  | Some ls => set_leader (Some (set_in_flight (<[from := false]> (in_flight ls)) ls)) a
  | None => a
  end.

(** What a same-term append reply does to the leader's bookkeeping; the flag
    says that there is more to send. *)
Definition credit_append (sent_at : Z) (from : string) (up_to : Z) (r : AppendEntriesResp) (last : Z) (ls : LeaderState) : LeaderState * bool :=
  let ls := set_peer_command_protocol (<[from := as_command_protocol r]> (peer_command_protocol ls)) ls in
  let ls := set_last_contact (<[from := advance_contact (last_contact ls !! from) sent_at]> (last_contact ls)) ls in
  if as_success r && (up_to <=? as_match_index r) then
    let matched := Z.max (default 0 (match_index ls !! from)) up_to in
    let ls := set_match_index (<[from := matched]> (match_index ls)) ls in
    (set_next_index (<[from := sat_add matched 1]> (next_index ls)) ls, matched <? last)
  else
    let cur := default 1 (next_index ls !! from) in
    let backoff := Z.min (sat_add (as_match_index r) 1) (sat_sub cur 1) in
    let acknowledged_next := sat_add (default 0 (match_index ls !! from)) 1 in
    (set_next_index (<[from := Z.max backoff acknowledged_next]> (next_index ls)) ls, false).

Definition handle_append_reply (sent_at : Z) (from : string) (up_to : Z) (rtt_ms : option Z) (r : option AppendEntriesResp) (a : ShardActor) : ShardActor :=
  if is_faulty a then a
  else
    let a := clear_in_flight from a in
    let a := match rtt_ms with
             | Some rtt => let m := metrics a in
                 set_metrics (mkMetrics (Some rtt) (quorum_rtt_ms_last m) (follower_lag_max m) (leader_transfer_count m)) a
             | None => a
             end in
    match r with
    | None => a
    | Some r =>
        if current_term a <? as_term r then step_down (as_term r) None a
        else if negb (bool_decide (role a = Leader)) || negb (as_term r =? current_term a) then a
        else
          let '(a, more) := match leader a with
                            | Some ls => let '(ls, more) := credit_append sent_at from up_to r (last_log_index a) ls in
                                         (set_leader (Some ls) a, more)
                            | None => (a, false)
                            end in
          let a := if as_success r && (up_to <=? as_match_index r) then maybe_advance_commit a else a in
          let a := maybe_activate_command_protocol a in
          let a := refresh_follower_lag_metric a in
          if more then send_append_to from a else a
    end.

Definition handle_snapshot_reply (sent_at : Z) (from : string) (up_to : Z) (r : option InstallSnapshotResp) (a : ShardActor) : ShardActor :=
  if is_faulty a then a
  else
    let a := clear_in_flight from a in
    match r with
    | None => a
    | Some r =>
        if current_term a <? ss_term r then step_down (ss_term r) None a
        else if negb (bool_decide (role a = Leader)) || negb (ss_term r =? current_term a) then a
        else if ss_success r then
          match leader a with
          | None => send_append_to from a
          | Some ls =>
              match acknowledged_prefix (default 0 (match_index ls !! from)) up_to (ss_match_index r) with
              | None => a
              | Some (matched, next) =>
                  let ls := set_match_index (<[from := matched]> (match_index ls)) ls in
                  let ls := set_next_index (<[from := next]> (next_index ls)) ls in
                  let ls := set_last_contact (<[from := advance_contact (last_contact ls !! from) sent_at]> (last_contact ls)) ls in
                  send_append_to from (set_leader (Some ls) a)
              end
          end
        else a
    end.

(** ** Replication, follower side *)

Definition append_reply (success : bool) (matched : Z) (a : ShardActor) : AppendEntriesResp :=
  mkAppendResp (current_term a) success matched CURRENT_COMMAND_PROTOCOL.

(** The entries continue [prev] without a gap, in terms up to [term]. *)
Fixpoint well_formed_batch (term expected : Z) (entries : list LogEntry) : bool :=
  match entries with
  | [] => true
  | entry :: entries =>
      match checked_add expected 1 with
      | None => false
      | Some next =>
          negb (negb (e_index entry =? next) || (e_term entry =? 0) || (term <? e_term entry)) &&
          well_formed_batch term next entries
      end
  end.

Record Merged : Type := mkMerged {
  merged_log : list LogEntry;
  truncated : bool;
  grew : bool;
  rejected : bool
}.

(** Append the entries after index [idx], truncating at the first conflict; a
    conflict at or below the commit index rejects the batch. *)
Fixpoint merge_entries (snapshot_idx commit idx : Z) (m : Merged) (entries : list LogEntry) : Merged :=
  match entries with
  | [] => m
  | entry :: entries =>
      let idx := idx + 1 in
      if idx <=? snapshot_idx then merge_entries snapshot_idx commit idx m entries
      else
        let offset := idx - snapshot_idx - 1 in
        match get_entry (merged_log m) offset with
        | Some existing =>
            if e_term existing =? e_term entry then merge_entries snapshot_idx commit idx m entries
            else if idx <=? commit then mkMerged (merged_log m) (truncated m) (grew m) true
            else merge_entries snapshot_idx commit idx
                   (mkMerged (take (Z.to_nat offset) (merged_log m) ++ [entry]) true (grew m) (rejected m)) entries
        | None =>
            merge_entries snapshot_idx commit idx
              (mkMerged (merged_log m ++ [entry]) (truncated m) true (rejected m)) entries
        end
  end.

(** The part of [handle_append_entries] after the log matched at [prev]. *)
Definition store_entries (req : AppendEntriesReq) (a : ShardActor) : ShardActor * AppendEntriesResp :=
  let m := merge_entries (snapshot_index a) (commit_index a) (ar_prev_log_index req) (mkMerged (log a) false false false) (ar_entries req) in
  let a := set_log (merged_log m) a in
  if rejected m then (a, append_reply false (commit_index a) a)
  else
    let '(a, ok) := if truncated m then persist_log_rewrite a else if grew m then persist_log_append a else (a, true) in
    if negb ok then let a := fail_storage "persisting follower log update" a in (a, append_reply false (commit_index a) a)
    else
      let new_commit := Z.min (ar_leader_commit req) (last_log_index a) in
      if (commit_index a <? ar_leader_commit req) && (commit_index a <? new_commit) then
        let a := commit_to "persisting follower commit index" new_commit a in
        if is_faulty a then (a, append_reply false (commit_index a) a)
        else (a, append_reply true (last_log_index a) a)
      else (a, append_reply true (last_log_index a) a).

Definition handle_append_entries (req : AppendEntriesReq) (a : ShardActor) : ShardActor * AppendEntriesResp :=
  if is_faulty a then (a, append_reply false (commit_index a) a)
  else if ar_term req <? current_term a then (a, append_reply false (last_log_index a) a)
  else
    let a := if current_term a <? ar_term req then step_down (ar_term req) None a else a in
    if is_faulty a then (a, append_reply false (commit_index a) a)
    else if ar_term req <? ar_prev_log_term req then (a, append_reply false (last_log_index a) a)
    else if negb (well_formed_batch (ar_term req) (ar_prev_log_index req) (ar_entries req)) then
      (a, append_reply false (last_log_index a) a)
    else
      let a := become_follower_of (ar_leader_id req) a in
      if (0 <? ar_prev_log_index req) && negb (term_at a (ar_prev_log_index req) =? ar_prev_log_term req) then
        (a, append_reply false (Z.min (last_log_index a) (sat_sub (ar_prev_log_index req) 1)) a)
      else store_entries req a.

Definition snapshot_reply (success : bool) (matched : Z) (a : ShardActor) : InstallSnapshotResp :=
  mkSnapshotResp (current_term a) success matched.

(** The part of [handle_install_snapshot] after the snapshot was decoded. *)
Definition install (req : InstallSnapshotReq) (restored : mstate) (a : ShardActor) : ShardActor * InstallSnapshotResp :=
  let included := sr_last_included_index req in
  let keep_suffix := term_at a included =? sr_last_included_term req in
  let remaining := if keep_suffix then List.filter (λ entry, included <? e_index entry) (log a) else [] in
  let '(a, ok) := persist_snapshot (mkPersisted included (sr_last_included_term req) (sr_state req)) remaining a in
  if negb ok then let a := fail_storage "persisting installed snapshot" a in (a, snapshot_reply false (commit_index a) a)
  else
    let new_commit := Z.max (commit_index a) included in
    let '(a, ok) := persist_hard_state_at new_commit a in
    if negb ok then let a := fail_storage "persisting installed snapshot commit index" a in (a, snapshot_reply false (commit_index a) a)
    else
      let a := set_state restored a in
      let a := set_snapshot_index included a in
      let a := set_snapshot_term (sr_last_included_term req) a in
      let a := set_snapshot_state (sr_state req) a in
      let a := set_log remaining a in
      let a := set_commit_index new_commit a in
      let a := set_last_applied (snapshot_index a) a in
      (a, snapshot_reply true (snapshot_index a) a).

Definition handle_install_snapshot (req : InstallSnapshotReq) (a : ShardActor) : ShardActor * InstallSnapshotResp :=
  if is_faulty a then (a, snapshot_reply false (commit_index a) a)
  else if sr_term req <? current_term a then (a, snapshot_reply false (last_log_index a) a)
  else
    let a := if current_term a <? sr_term req then step_down (sr_term req) None a else a in
    if is_faulty a then (a, snapshot_reply false (commit_index a) a)
    else if negb (Bool.eqb (sr_last_included_index req =? 0) (sr_last_included_term req =? 0)) ||
            (sr_term req <? sr_last_included_term req) then (a, snapshot_reply false (last_log_index a) a)
    else
      let a := become_follower_of (sr_leader_id req) a in
      if sr_last_included_index req <=? snapshot_index a then (a, snapshot_reply true (snapshot_index a) a)
      else if sr_last_included_index req <=? commit_index a then (a, snapshot_reply true (last_log_index a) a)
      else match machine_restore (sr_state req) with
           | None => (a, snapshot_reply false (last_log_index a) a)
           | Some restored => install req restored a
           end.

(** ** Client proposals *)

Definition on_propose (command : Command) (client : Z) (a : ShardActor) : ShardActor :=
  let refuse a := answer client (Err (Unavailable (shard_id a))) a in
  if is_faulty a then refuse a
  else if negb (bool_decide (role a = Leader)) then answer client (Err (NotLeader (shard_id a) (leader_id a))) a
  else if is_activation command then refuse a
  else
    let a := maybe_activate_command_protocol a in
    if is_faulty a then refuse a
    else match for_active_protocol command (machine_protocol (state a)) with
         | Err _ => refuse a
         | Ok command =>
             match checked_add (last_log_index a) 1 with
             | None => refuse a
             | Some index =>
                 let a := push_entry index (Some command) a in
                 let '(a, ok) := persist_log_append a in
                 if negb ok then refuse (fail_storage "persisting proposed log entry" a)
                 else
                   let a := set_pending (<[index := mkPending (now e) client]> (pending a)) a in
                   if Nat.eqb (members a) 1 then commit_to "persisting single-member commit index" index a
                   else broadcast_append_entries a
             end
         end.

(** ** The clock *)

Definition on_tick (a : ShardActor) : ShardActor :=
  if is_faulty a then a
  else match role a with
       | Leader =>
           let a := maybe_activate_command_protocol a in
           if is_faulty a then a
           else
             let a := if heartbeat_deadline a <=? now e
                      then broadcast_append_entries (set_heartbeat_deadline (now e + heartbeat (timing a)) a) else a in
             if check_quorum (timing a) && Nat.ltb 1 (members a) && negb (leader_lease_held a)
             then relinquish_no_quorum a else a
       | _ =>
           if election_deadline a <=? now e then
             if pre_vote (timing a) && Nat.ltb 1 (members a) then start_pre_election a else start_election a
           else a
       end.

(** ** Start-up *)

Inductive BootError : Type :=
| RecoveredIndexOverflow
| RecoveredIndexMismatch
| RecoveredCommitBeyondTail
| InvalidStateSnapshot.

Fixpoint recovered_in_order (expected : Z) (log : list LogEntry) : result unit BootError :=
  match log with
  | [] => Ok tt
  | entry :: log =>
      match checked_add expected 1 with
      | None => Err RecoveredIndexOverflow
      | Some next => if e_index entry =? next then recovered_in_order next log else Err RecoveredIndexMismatch
      end
  end.

Definition blank_actor (shard : Z) (id : string) (members_ : list string) (t : RaftTiming) (nanos : Z) : ShardActor :=
  mkActor shard id members_ (length members_ + 1) Follower 1 None None 0 0 "" [] 0 0 None None ∅ (now e) ∅ 0 None t
    (now e) (now e) (now e) (seeded id shard nanos) ∅ machine_new (mkMetrics None None 0 0) [] [] [].

Definition new_actor (shard : Z) (id : string) (peers_ : list string) (t : RaftTiming) (nanos : Z)
    (st : option ShardStore) (r : Recovered) : result ShardActor BootError :=
  let single := Nat.eqb (length peers_ + 1) 1 in
  let s_index := from_option last_included_index 0 (r_snapshot r) in
  let s_term := from_option last_included_term 0 (r_snapshot r) in
  try! _ := recovered_in_order s_index (r_log r) in
  if log_tail s_index (r_log r) <? r_commit_index r then Err RecoveredCommitBeyondTail
  else
    try! machine := match r_snapshot r with
                    | None => Ok machine_new
                    | Some s => match machine_restore (ps_state s) with Some m => Ok m | None => Err InvalidStateSnapshot end
                    end in
    let a := blank_actor shard id peers_ t nanos in
    let a := set_role (if single then Leader else Follower) a in
    let a := set_current_term (Z.max (r_current_term r) 1) a in
    let a := set_voted_for (r_voted_for r) a in
    let a := set_leader_id (if single then Some id else None) a in
    let a := set_snapshot_index s_index a in
    let a := set_snapshot_term s_term a in
    let a := set_snapshot_state (from_option ps_state "" (r_snapshot r)) a in
    let a := set_log (r_log r) a in
    let a := set_commit_index (Z.max (r_commit_index r) s_index) a in
    let a := set_last_applied s_index a in
    let a := set_store st a in
    let a := set_leader (if single then Some no_leader_state else None) a in
    let a := set_state machine a in
    let a := reset_election_deadline a in
    Ok (if 0 <? commit_index a then apply_committed a else a).

Definition quarantined (shard : Z) (id : string) (peers_ : list string) (t : RaftTiming) (nanos : Z) (reason : string) : ShardActor :=
  reset_election_deadline (set_storage_fault (Some reason) (blank_actor shard id peers_ t nanos)).

(** [Node::bootstrap] for one shard with a data directory: a store that cannot
    be opened or a recovery that does not check out quarantines the shard.  The
    disk is returned beside the actor, since a quarantined actor holds none. *)
Definition bootstrap (shard : Z) (id : string) (peers_ : list string) (t : RaftTiming) (nanos : Z) (disk : ShardStore) : ShardActor * ShardStore :=
  let '(s, r) := open disk in
  match r with
  | Err _ => (quarantined shard id peers_ t nanos "cannot open durable store", s)
  | Ok recovered =>
      match new_actor shard id peers_ t nanos (Some s) recovered with
      | Ok a => (a, default s (store a))
      | Err _ => (quarantined shard id peers_ t nanos "invalid recovered state", s)
      end
  end.

(** ** The inbox *)

Inductive ShardMsg : Type :=
| MsgPropose (command : Command) (client : Z)
| MsgAppendEntries (req : AppendEntriesReq)
| MsgInstallSnapshot (req : InstallSnapshotReq)
| MsgRequestVote (req : RequestVoteReq)
| MsgVoteReply (from : string) (was_pre_vote : bool) (r : RequestVoteResp)
| MsgAppendReply (from : string) (request : RequestStamp) (up_to : Z) (rtt_ms : option Z) (r : option AppendEntriesResp)
| MsgSnapshotReply (from : string) (request : RequestStamp) (up_to : Z) (r : option InstallSnapshotResp).

(** What a request from a peer is answered with. *)
Inductive Reply : Type :=
| NoReply
| ReplyAppend (r : AppendEntriesResp)
| ReplySnapshot (r : InstallSnapshotResp)
| ReplyVote (r : RequestVoteResp).

Definition handle (msg : ShardMsg) (a : ShardActor) : ShardActor * Reply :=
  match msg with
  | MsgPropose command client => (on_propose command client a, NoReply)
  | MsgAppendEntries req => let '(a, r) := handle_append_entries req a in (a, ReplyAppend r)
  | MsgInstallSnapshot req => let '(a, r) := handle_install_snapshot req a in (a, ReplySnapshot r)
  | MsgRequestVote req => let '(a, r) := handle_request_vote req a in (a, ReplyVote r)
  | MsgVoteReply from was_pre_vote r => (handle_vote_reply from was_pre_vote r a, NoReply)
  | MsgAppendReply from request up_to rtt_ms r =>
      let '(a, ok) := accept_replication_callback from request (as_term <$> r) a in
      (if ok then handle_append_reply (rs_sent_at request) from up_to rtt_ms r a else a, NoReply)
  | MsgSnapshotReply from request up_to r =>
      let '(a, ok) := accept_replication_callback from request (ss_term <$> r) a in
      (if ok then handle_snapshot_reply (rs_sent_at request) from up_to r a else a, NoReply)
  end.
End methods.
End actor.
