(* ===== verification/PersistTheorems.v ===== *)
(** Recovery is exact: what [ShardStore::open] reads back from files written by
    the operations of [Persist], whole, torn or interrupted. *)

From Stdlib Require Import Ascii.
From S2P Require Import Prelude Json Text Command RaftTypes Persist.

(** ** Byte strings *)

Lemma sapp_cons a s t : String a s +:+ t = String a (s +:+ t).
Proof. done. Qed.
Lemma sapp_nil s : "" +:+ s = s.
Proof. done. Qed.
Lemma sapp_nil_r s : s +:+ "" = s.
Proof. induction s as [|a s IH]; [done|]. by rewrite sapp_cons, IH. Qed.
Lemma sapp_assoc s t u : (s +:+ t) +:+ u = s +:+ (t +:+ u).
Proof. induction s as [|a s IH]; [done|]. by rewrite !sapp_cons, IH. Qed.

Lemma sapp_empty s t : s +:+ t = "" → s = "" ∧ t = "".
Proof. destruct s; [done|]. by rewrite sapp_cons. Qed.

(** A string without the separator is one part. *)
Lemma split_one_app sep s t : split_on sep s = [s] → split_on sep (s +:+ String sep t) = s :: split_on sep t.
Proof.
  induction s as [|a s IH].
  - intros _. rewrite sapp_nil. simpl. by rewrite Ascii.eqb_refl.
  - rewrite sapp_cons. simpl. destruct (Ascii.eqb_spec a sep) as [->|Hne].
    + destruct (split_on sep s) as [|x xs] eqn:E; [by apply split_on_nonempty in E|done].
    + destruct (split_on sep s) as [|x xs] eqn:E; [by apply split_on_nonempty in E|].
      intros [= -> ->]. by rewrite (IH eq_refl).
Qed.

Lemma split_one_prefix sep s t : split_on sep (s +:+ t) = [s +:+ t] → split_on sep s = [s].
Proof.
  induction s as [|a s IH]; [done|]. rewrite sapp_cons. simpl. destruct (Ascii.eqb a sep).
  - destruct (split_on sep (s +:+ t)) as [|x xs] eqn:E; [by apply split_on_nonempty in E|done].
  - destruct (split_on sep (s +:+ t)) as [|x xs] eqn:E; [by apply split_on_nonempty in E|].
    intros [= -> ->]. by rewrite (IH eq_refl).
Qed.

Lemma ends_cons a s : s ≠ "" → ends_with_newline (String a s) = ends_with_newline s.
Proof.
  intros Hs. destruct s as [|b s]; [done|]. unfold ends_with_newline. simpl. by rewrite Nat.sub_0_r.
Qed.

Lemma ends_app s t : t ≠ "" → ends_with_newline (s +:+ t) = ends_with_newline t.
Proof.
  intros Ht. induction s as [|a s IH]; [done|]. rewrite sapp_cons, ends_cons; [done|].
  intros E. by apply sapp_empty in E as [_ ?].
Qed.

Lemma ends_line s : ends_with_newline (s +:+ String LF "") = true.
Proof. by rewrite ends_app. Qed.

(** One part is not terminated. *)
Lemma ends_one s : split_on LF s = [s] → ends_with_newline s = false.
Proof.
  induction s as [|a s IH]; [done|]. simpl. destruct (Ascii.eqb_spec a LF) as [->|Hne].
  - destruct (split_on LF s) as [|x xs] eqn:E; [by apply split_on_nonempty in E|done].
  - destruct (split_on LF s) as [|x xs] eqn:E; [by apply split_on_nonempty in E|].
    intros [= -> ->]. destruct s as [|b s].
    + unfold ends_with_newline. simpl. by destruct (Ascii.eqb_spec a LF).
    + rewrite ends_cons by done. by apply IH.
Qed.

Section recovery.
Context `{DiskLaws}.

(** ** Encoded logs *)

Lemma encode_app l1 l2 : encode_entries (l1 ++ l2) = b1 ← encode_entries l1; b2 ← encode_entries l2; Some (b1 +:+ b2).
Proof.
  induction l1 as [|e l1 IH]; simpl.
  - by destruct (encode_entries l2).
  - destruct (entry_to_vec e) as [line|]; simpl; [|done]. rewrite IH.
    destruct (encode_entries l1) as [b1|]; simpl; [|done]. destruct (encode_entries l2); simpl; [|done].
    by rewrite sapp_assoc, sapp_cons.
Qed.

Definition lines_of (l : list LogEntry) (ls : list string) : Prop := Forall2 (λ e line, entry_to_vec e = Some line) l ls.

Lemma encode_split l b t :
  encode_entries l = Some b → ∃ ls, lines_of l ls ∧ split_on LF (b +:+ t) = ls ++ split_on LF t.
Proof.
  revert b. induction l as [|e l IH]; simpl; intros b.
  - intros [= <-]. exists []. split; [constructor|done].
  - intros (line & Hline & (rest & Hrest & [= <-])%bind_Some)%bind_Some.
    destruct (IH rest Hrest) as (ls & Hls & Hsplit). exists (line :: ls). split; [by constructor|].
    rewrite sapp_assoc, sapp_cons, split_one_app by (by eapply entry_one_line). simpl. by rewrite Hsplit.
Qed.

Lemma encode_ends l b : encode_entries l = Some b → b = "" ∧ l = [] ∨ ends_with_newline b = true ∧ b ≠ "".
Proof.
  revert b. induction l as [|e l IH]; simpl; intros b; [intros [= <-]; by left|].
  intros (line & Hline & (rest & Hrest & [= <-])%bind_Some)%bind_Some. right. split.
  - destruct (IH rest Hrest) as [[-> _]|[He Hne]]; [apply ends_line|].
    rewrite ends_app by done. by rewrite ends_cons.
  - intros E. by apply sapp_empty in E as [_ ?].
Qed.

(** The first bytes of an encoded log: some whole records, and a piece of the
    next. *)
Lemma truncate_app s t n :
  truncate (s +:+ t) n = if Nat.leb n (String.length s) then truncate s n else s +:+ truncate t (n - String.length s).
Proof.
  revert n. induction s as [|a s IH]; intros n.
  - rewrite sapp_nil. destruct n as [|n]; [by destruct t|]. simpl. done.
  - rewrite sapp_cons. destruct n as [|n]; [done|]. unfold truncate in *. simpl. rewrite IH. by destruct (Nat.leb n _).
Qed.

Lemma truncate_split s n : ∃ t, s = truncate s n +:+ t.
Proof.
  revert n. induction s as [|a s IH]; intros [|n]; unfold truncate; simpl; [by exists ""..|by exists (String a s)|].
  destruct (IH n) as [t Ht]. exists t. unfold truncate in Ht. by rewrite sapp_cons, <- Ht.
Qed.

Lemma truncate_encode l b n :
  encode_entries l = Some b → ∃ j b1 torn, encode_entries (take j l) = Some b1 ∧ truncate b n = b1 +:+ torn ∧
    (torn = "" ∨ ∃ e line rest, l !! j = Some e ∧ entry_to_vec e = Some line ∧ line = torn +:+ rest).
Proof.
  revert b n. induction l as [|e l IH]; simpl; intros b n.
  - intros [= <-]. exists O, "", "". split; [done|]. split; [by destruct n|by left].
  - intros (line & Hline & (rest & Hrest & [= <-])%bind_Some)%bind_Some.
    rewrite truncate_app. destruct (Nat.leb_spec n (String.length line)) as [Hle|Hgt].
    + destruct (truncate_split line n) as [r Hr]. exists O, "", (truncate line n). split_and!; [done|done|].
      right. exists e, line, r. done.
    + replace (n - String.length line)%nat with (S (n - String.length line - 1)) by lia. unfold truncate at 1. simpl.
      fold (truncate rest (n - String.length line - 1)).
      destruct (IH rest (n - String.length line - 1)%nat Hrest) as (j & b1 & torn & Hb & Ht & Hc).
      exists (S j), (line +:+ String LF b1), torn. simpl. rewrite Hline, Hb, Ht. simpl.
      split_and!; [done|by rewrite sapp_assoc, sapp_cons|done].
Qed.

(** ** Scanning *)

(** The records continue index [base], in ascending non-zero terms. *)
Definition valid_suffix (base : Z) (l : list LogEntry) : Prop :=
  (∀ k e, l !! k = Some e → e_index e = base + Z.of_nat k + 1 ∧ 1 ≤ e_term e ∧ e_index e ≤ U64_MAX) ∧
  (∀ i j a b, l !! i = Some a → l !! j = Some b → (i ≤ j)%nat → e_term a ≤ e_term b).

Lemma valid_suffix_tail base e l : valid_suffix base (e :: l) → valid_suffix (base + 1) l.
Proof.
  intros [Hi Ha]. split.
  - intros k x Hx. destruct (Hi (S k) x Hx) as (? & ? & ?). lia.
  - intros i j a b Hx Hy Hij. apply (Ha (S i) (S j) a b); [done|done|lia].
Qed.

Lemma valid_suffix_drop base l n : (n ≤ length l)%nat → valid_suffix base l → valid_suffix (base + Z.of_nat n) (drop n l).
Proof.
  intros Hn [Hi Ha]. split.
  - intros k e Hk. rewrite lookup_drop in Hk. destruct (Hi _ _ Hk) as (? & ? & ?). lia.
  - intros i j a b Hx Hy Hij. rewrite lookup_drop in Hx, Hy. apply (Ha _ _ _ _ Hx Hy). lia.
Qed.

Lemma valid_suffix_take base l n : valid_suffix base l → valid_suffix base (take n l).
Proof.
  intros [Hi Ha]. split.
  - intros k e [Hk _]%lookup_take_Some. by apply Hi.
  - intros i j a b [Hx _]%lookup_take_Some [Hy _]%lookup_take_Some. by apply Ha.
Qed.

Section scans.
Context (si st : Z) (ef tm : bool) (Hsi : 0 ≤ si).

(** The record before [base] that the scan remembers. *)
Definition follows (base : Z) (previous : option (Z * Z)) (l : list LogEntry) : Prop :=
  match previous with
  | None => True
  | Some p => p.1 = base ∧ ∀ e, e ∈ l → p.2 ≤ e_term e
  end.

Lemma check_entry_keep base e previous acc l :
  valid_suffix base (e :: l) → 0 ≤ base → follows base previous (e :: l) → (e_index e = si → e_term e = st) →
  Z.of_nat (length acc) = Z.max 0 (base - si) →
  check_entry si st previous acc e = Ok (if si <? base + 1 then acc ++ [e] else acc).
Proof.
  intros [Hv _] Hb Hf Hagree Hlen. destruct (Hv O e eq_refl) as (Hidx & Hterm & Hmax). simpl in Hidx.
  unfold check_entry. rewrite (proj2 (Z.eqb_neq (e_index e) 0)), (proj2 (Z.eqb_neq (e_term e) 0)) by lia. simpl.
  assert (Hprev : is_some_and previous (λ p, e_term e <? p.2) = false).
  { destruct previous as [p|]; [|done]. simpl. apply Z.ltb_ge. apply Hf. by left. }
  rewrite Hprev. assert (Hcont : match previous with
    | None => Ok tt
    | Some p => match checked_add p.1 1 with
        | None => Err IndexOverflow
        | Some expected => if e_index e =? expected then Ok tt else Err IndexGap
        end end = @Ok unit OpenError tt).
  { destruct previous as [p|]; [|done]. destruct Hf as [Hp _].
    assert (E : checked_add p.1 1 = Some (e_index e)) by (apply checked_add_Some; lia). by rewrite E, Z.eqb_refl. }
  rewrite Hcont. simpl. replace (base + 1) with (e_index e) by lia.
  destruct (Z.eqb_spec (e_index e) si) as [E|E].
  - rewrite (proj2 (Z.eqb_eq (e_term e) st)) by auto. simpl. by rewrite (proj2 (Z.ltb_ge si (e_index e))) by lia.
  - simpl. destruct (Z.ltb_spec si (e_index e)) as [Hlt|Hge]; [|done].
    assert (E1 : checked_add si (Z.of_nat (length acc)) ≫= (λ i, checked_add i 1) = Some (e_index e)).
    { apply bind_Some. exists (si + Z.of_nat (length acc)). split; apply checked_add_Some; lia. }
    by rewrite E1, Z.eqb_refl.
Qed.

Definition last_seen (previous : option (Z * Z)) (l : list LogEntry) : option (Z * Z) :=
  match last l with Some e => Some (e_index e, e_term e) | None => previous end.

Lemma scan_keep l : ∀ base previous acc ls tail,
  lines_of l ls → valid_suffix base l → 0 ≤ base → follows base previous l →
  (∀ e, e ∈ l → e_index e = si → e_term e = st) → Z.of_nat (length acc) = Z.max 0 (base - si) →
  scan_lines si st ef tm previous acc (ls ++ tail) =
  scan_lines si st ef tm (last_seen previous l) (acc ++ drop (Z.to_nat (si - base)) l) tail.
Proof.
  induction l as [|e l IH]; intros base previous acc ls tail Hls Hv Hb Hf Hag Hlen.
  - apply Forall2_nil_inv_l in Hls as ->. simpl. by rewrite drop_nil, app_nil_r.
  - apply Forall2_cons_inv_l in Hls as (line & ls' & Hline & Hls' & ->). simpl.
    destruct (entry_reads_back e line Hline) as [Hne Hparse].
    rewrite (proj2 (String.eqb_neq line "")) by done. rewrite Hparse.
    rewrite (check_entry_keep base e previous acc l) by (try done; apply Hag; by left). simpl.
    pose proof Hv as [Hv1 Hv2]. destruct (Hv1 O e eq_refl) as (Hidx & _). simpl in Hidx.
    rewrite (IH (base + 1)); try done.
    + f_equal.
      * unfold last_seen. rewrite (last_cons e). by destruct (last l).
      * destruct (Z.ltb_spec si (base + 1)).
        -- replace (Z.to_nat (si - base)) with O by lia. replace (Z.to_nat (si - (base + 1))) with O by lia.
           simpl. by rewrite <- app_assoc.
        -- replace (Z.to_nat (si - base)) with (S (Z.to_nat (si - (base + 1)))) by lia. done.
    + by eapply valid_suffix_tail.
    + lia.
    + split; [simpl; lia|]. intros x Hx. apply list_elem_of_lookup in Hx as [k Hk]. simpl.
      apply (Hv2 O (S k) e x); [done|done|lia].
    + intros x Hx. apply Hag. by right.
    + destruct (Z.ltb_spec si (base + 1)); [rewrite length_app; simpl|]; lia.
Qed.

(** A record at the snapshot index with another term stops the scan. *)
Lemma scan_disagree l : ∀ base previous acc ls tail x,
  lines_of l ls → valid_suffix base l → 0 ≤ base → follows base previous l →
  x ∈ l → e_index x = si → e_term x ≠ st → Z.of_nat (length acc) = Z.max 0 (base - si) →
  scan_lines si st ef tm previous acc (ls ++ tail) = Err SnapshotTermDisagrees.
Proof.
  induction l as [|e l IH]; intros base previous acc ls tail x Hls Hv Hb Hf Hin Hx Ht Hlen; [by apply elem_of_nil in Hin|].
  apply Forall2_cons_inv_l in Hls as (line & ls' & Hline & Hls' & ->). simpl.
  destruct (entry_reads_back e line Hline) as [Hne Hparse].
  rewrite (proj2 (String.eqb_neq line "")) by done. rewrite Hparse.
  pose proof Hv as [Hv1 Hv2]. destruct (Hv1 O e eq_refl) as (Hidx & Hterm & Hmax). simpl in Hidx.
  apply elem_of_cons in Hin as [->|Hin].
  - unfold check_entry. rewrite (proj2 (Z.eqb_neq (e_index e) 0)), (proj2 (Z.eqb_neq (e_term e) 0)) by lia. simpl.
    assert (Hprev : is_some_and previous (λ p, e_term e <? p.2) = false).
    { destruct previous as [p|]; [|done]. simpl. apply Z.ltb_ge. apply Hf. by left. }
    rewrite Hprev. destruct previous as [p|].
    + destruct Hf as [Hp _]. assert (E : checked_add p.1 1 = Some (e_index e)) by (apply checked_add_Some; lia).
      rewrite E, Z.eqb_refl. simpl. by rewrite Hx, Z.eqb_refl, (proj2 (Z.eqb_neq _ _) Ht).
    + simpl. by rewrite Hx, Z.eqb_refl, (proj2 (Z.eqb_neq _ _) Ht).
  - apply list_elem_of_lookup in Hin as [k Hk]. destruct (Hv1 (S k) x Hk) as (Hxi & _).
    rewrite (check_entry_keep base e previous acc l) by (try done; lia).
    rewrite (proj2 (Z.ltb_ge _ _)) by lia. simpl.
    apply (IH (base + 1) _ _ _ _ x); try done.
    + by eapply valid_suffix_tail.
    + lia.
    + split; [simpl; lia|]. intros y Hy. apply list_elem_of_lookup in Hy as [k' Hk']. simpl.
      apply (Hv2 O (S k') e y); [done|done|lia].
    + by eapply list_elem_of_lookup_2.
    + lia.
Qed.

(** What a scan accepts continues the snapshot. *)
Lemma scan_valid ls : ∀ previous acc r,
  valid_suffix si acc → (acc ≠ [] → previous ≠ None) → (∀ p e, previous = Some p → e ∈ acc → e_term e ≤ p.2) →
  scan_lines si st ef tm previous acc ls = Ok r → valid_suffix si r.
Proof.
  induction ls as [|line ls IH]; intros previous acc r Hv Hne Hp; simpl.
  - by intros [= <-].
  - destruct (String.eqb line "").
    + case_goal; [|done]. intros Hs. by apply (IH previous acc r).
    + destruct (entry_from_slice line) as [e|] eqn:Hparse; [|case_goal; [by intros [= <-]|done]].
      unfold check_entry. intros Hs. destruct (entry_in_range line e Hparse) as [Hut Hui].
      destruct ((e_index e =? 0) || (e_term e =? 0)) eqn:Hz; [done|]. bools.
      destruct (is_some_and previous (λ p, e_term e <? p.2)) eqn:Hd; [done|].
      destruct (match previous with | None => Ok tt | Some p => _ end) as [[]|] eqn:Hc; [|done]. simpl in Hs.
      destruct ((e_index e =? si) && negb (e_term e =? st)); [done|].
      assert (Hpe : ∀ p, previous = Some p → p.2 ≤ e_term e) by (intros p ->; simpl in Hd; by apply Z.ltb_ge in Hd).
      assert (Hasc : ∀ x, x ∈ acc → e_term x ≤ e_term e).
      { intros x Hx. destruct previous as [p|]; [|destruct Hne; [by intros ->; apply elem_of_nil in Hx|done]].
        specialize (Hp p x eq_refl Hx). specialize (Hpe p eq_refl). lia. }
      destruct (Z.ltb_spec si (e_index e)) as [Hlt|Hge].
      * destruct (checked_add si (Z.of_nat (length acc)) ≫= (λ i, checked_add i 1)) as [x|] eqn:Hx; [|done].
        destruct (Z.eqb_spec (e_index e) x) as [Ex|]; [|done]. simpl in Hs.
        apply bind_Some in Hx as (y & Hy & Hxy). apply checked_add_Some in Hy as [-> _], Hxy as [Hxy _].
        apply (IH _ _ _) in Hs; [done| |done|].
        -- destruct Hv as [Hv1 Hv2]. split.
           ++ intros k z [Hk|[Hk Hz]]%lookup_app_Some; [by apply Hv1|].
              apply list_lookup_singleton_Some in Hz as [Hk0 <-]. unfold is_u64 in *. lia.
           ++ intros i j a b Ha Hb Hij. apply lookup_app_Some in Ha as [Ha|[Hi Ha]], Hb as [Hb|[Hj Hb]].
              ** by eapply Hv2.
              ** apply list_lookup_singleton_Some in Hb as [_ <-]. apply Hasc. by eapply list_elem_of_lookup_2.
              ** apply lookup_lt_Some in Hb. lia.
              ** apply list_lookup_singleton_Some in Ha as [_ <-], Hb as [_ <-]. lia.
        -- intros p z [= <-] [Hz|Hz]%elem_of_app; [by apply Hasc|]. by apply list_elem_of_singleton in Hz as ->.
      * simpl in Hs. apply (IH _ _ _) in Hs; [done|done|done|].
        intros p z [= <-] Hz. by apply Hasc.
Qed.
End scans.

Lemma scan_encoded si st base l b :
  encode_entries l = Some b → valid_suffix base l → 0 ≤ base ≤ si → (∀ e, e ∈ l → e_index e = si → e_term e = st) →
  scan_lines si st (String.eqb b "") (ends_with_newline b) None [] (split_on LF b) = Ok (drop (Z.to_nat (si - base)) l).
Proof.
  intros Hb Hv Hbase Hag. destruct (encode_split l b "" Hb) as (ls & Hls & Hsplit). rewrite sapp_nil_r in Hsplit.
  rewrite Hsplit, (scan_keep si st _ _ ltac:(lia) l base) by (done || (simpl; lia)). simpl.
  destruct (encode_ends l b Hb) as [[-> ->]|[-> _]]; [done|]. done.
Qed.

Lemma scan_disagreeing si st base l b x :
  encode_entries l = Some b → valid_suffix base l → 0 ≤ base ≤ si → x ∈ l → e_index x = si → e_term x ≠ st →
  scan_lines si st (String.eqb b "") (ends_with_newline b) None [] (split_on LF b) = Err SnapshotTermDisagrees.
Proof.
  intros Hb Hv Hbase Hx Hi Ht. destruct (encode_split l b "" Hb) as (ls & Hls & Hsplit). rewrite sapp_nil_r in Hsplit.
  rewrite Hsplit. by apply (scan_disagree si st _ _ ltac:(lia) l base _ _ _ _ x); try done; simpl; lia.
Qed.

Lemma scan_torn si st l b torn e line rest :
  encode_entries l = Some b → entry_to_vec e = Some line → line = torn +:+ rest → torn ≠ "" → 0 ≤ si →
  valid_suffix si (l ++ [e]) →
  let f := b +:+ torn in
  scan_lines si st (String.eqb f "") (ends_with_newline f) None [] (split_on LF f) = Ok l ∨
  scan_lines si st (String.eqb f "") (ends_with_newline f) None [] (split_on LF f) = Ok (l ++ [e]).
Proof.
  intros Hb He Hline Hne Hsi Hv f. destruct (encode_split l b torn Hb) as (ls & Hls & Hsplit).
  assert (Hone : split_on LF torn = [torn]) by (eapply split_one_prefix; rewrite <- Hline; by eapply entry_one_line).
  assert (Hidx : ∀ x, x ∈ l ++ [e] → e_index x = si → e_term x = st).
  { intros x Hx Hix. apply list_elem_of_lookup in Hx as [k Hk]. destruct Hv as [Hv _]. apply Hv in Hk as (? & _). lia. }
  unfold f. rewrite Hsplit, Hone, ends_app, (ends_one torn Hone) by done.
  destruct (decide (rest = "")) as [->|Hrest].
  - right. rewrite sapp_nil_r in Hline. subst line. rewrite <- (app_nil_r (ls ++ [torn])).
    rewrite (scan_keep si st _ _ Hsi (l ++ [e]) si); try done; [|apply Forall2_app; [done|by constructor]|simpl; lia].
    simpl. by rewrite Z.sub_diag.
  - left. rewrite (scan_keep si st _ _ Hsi l si); try done; [| |intros x Hx; apply Hidx, elem_of_app; by left|simpl; lia].
    + simpl. rewrite (proj2 (String.eqb_neq torn "")) by done. rewrite (entry_torn e line torn rest) by done. simpl.
      by rewrite Z.sub_diag.
    + rewrite <- (take_app_length l [e]). by apply valid_suffix_take.
Qed.

(** ** Stores as records *)

Record Disk : Type := mkDisk {
  d_term : Z;
  d_vote : option string;
  d_commit : Z;
  d_snapshot : option PersistedSnapshot;
  d_log : list LogEntry
}.

Definition d_index (d : Disk) : Z := from_option last_included_index 0 (d_snapshot d).
Definition d_index_term (d : Disk) : Z := from_option last_included_term 0 (d_snapshot d).

Definition d_with_meta (d : Disk) (t : Z) (v : option string) (c : Z) : Disk := mkDisk t v c (d_snapshot d) (d_log d).
Definition d_with_log (d : Disk) (l : list LogEntry) : Disk := mkDisk (d_term d) (d_vote d) (d_commit d) (d_snapshot d) l.
Definition d_with_snapshot (d : Disk) (s : PersistedSnapshot) (l : list LogEntry) : Disk :=
  mkDisk (d_term d) (d_vote d) (d_commit d) (Some s) l.

(** The files hold exactly these records. *)
Definition meta_stored (f : Files) (d : Disk) : Prop :=
  ∃ b, f_meta f = Some b ∧ b ≠ "" ∧ meta_from_slice b = Some (mkMeta (d_term d) (d_vote d) (d_commit d)).
Definition snapshot_stored (f : Files) (d : Disk) : Prop :=
  match d_snapshot d with
  | None => f_snapshot f = None
  | Some s => ∃ b, f_snapshot f = Some b ∧ b ≠ "" ∧ snapshot_from_slice b = Some s
  end.
Definition log_stored (f : Files) (l : list LogEntry) : Prop := ∃ b, encode_entries l = Some b ∧ f_log f = Some b.

Record stored (s : ShardStore) (d : Disk) : Prop := {
  st_meta : meta_stored (files s) d;
  st_snapshot : snapshot_stored (files s) d;
  st_log : log_stored (files s) (d_log d);
  st_len : durable_len s = length (d_log d)
}.

(** A disk recovery accepts. *)
Record valid_disk (d : Disk) : Prop := {
  vd_vote : d_term d = 0 → d_vote d = None;
  vd_index : 0 ≤ d_index d ∧ (d_index d = 0 ↔ d_index_term d = 0);
  vd_suffix : valid_suffix (d_index d) (d_log d);
  vd_terms : d_index_term d ≤ d_term d ∧ ∀ e, e ∈ d_log d → e_term e ≤ d_term d;
  vd_commit : d_commit d ≤ d_index d + Z.of_nat (length (d_log d))
}.

Definition recovered_of (d : Disk) : Recovered :=
  mkRecovered (d_term d) (d_vote d) (Z.max (d_commit d) (d_index d)) (d_log d) (d_snapshot d).

Lemma log_tail_suffix base l : valid_suffix base l → log_tail base l = base + Z.of_nat (length l).
Proof.
  intros [Hv _]. unfold log_tail. destruct (last l) as [e|] eqn:E; simpl.
  - rewrite last_lookup in E. pose proof (lookup_lt_Some _ _ _ E). apply Hv in E as (-> & _). lia.
  - apply last_None in E as ->. simpl. lia.
Qed.

(** Recovery once the log was scanned. *)
Lemma recover_scanned f d l :
  meta_stored f d → snapshot_stored f d → valid_disk (d_with_log d l) →
  (let b := default "" (f_log f) in
   scan_lines (d_index d) (d_index_term d) (String.eqb b "") (ends_with_newline b) None [] (split_on LF b) = Ok l) →
  recover f = Ok (recovered_of (d_with_log d l), false).
Proof.
  intros (mb & Hfm & Hne & Hparse) Hs V Hscan.
  destruct V as [Vv Vi Vs Vt Vc]. simpl in *. unfold recover. rewrite Hfm.
  assert (Hmeta : read_optional_json meta_from_slice InvalidMeta (Some mb) = Ok (Some (mkMeta (d_term d) (d_vote d) (d_commit d)))).
  { unfold read_optional_json. destruct mb; [done|]. by rewrite Hparse. }
  rewrite Hmeta. cbn [result_bind from_option id m_current_term m_voted_for m_commit_index].
  rewrite (bool_decide_false (Some (mkMeta (d_term d) (d_vote d) (d_commit d)) = None)) by done.
  assert (Hvote : (d_term d =? 0) && negb (bool_decide (d_vote d = None)) = false).
  { destruct (Z.eqb_spec (d_term d) 0) as [E|]; [|done]. by rewrite bool_decide_true by (by apply Vv). }
  rewrite Hvote.
  assert (Hsnap : read_optional_json snapshot_from_slice InvalidSnapshot (f_snapshot f) = Ok (d_snapshot d)).
  { unfold snapshot_stored in Hs. destruct (d_snapshot d) as [s|]; [|by rewrite Hs].
    destruct Hs as (sb & -> & Hnb & Hp).
    unfold read_optional_json. destruct sb; [done|]. by rewrite Hp. }
  rewrite Hsnap. cbn [result_bind]. fold (d_index d) (d_index_term d).
  assert (Hz : Bool.eqb (d_index d =? 0) (d_index_term d =? 0) = true).
  { destruct Vi as [_ Vi]. destruct (Z.eqb_spec (d_index d) 0), (Z.eqb_spec (d_index_term d) 0); simpl; tauto. }
  rewrite Hz. cbn [negb]. rewrite Hscan. cbn [result_bind andb].
  change (d_index (d_with_log d l)) with (d_index d) in Vs. rewrite (log_tail_suffix _ _ Vs).
  assert (Hterm : (d_term d <? d_index_term d) || existsb (λ e, d_term d <? e_term e) l = false).
  { apply orb_false_iff. split; [apply Z.ltb_ge; apply Vt|]. destruct (existsb _ l) eqn:E; [|done]. exfalso.
    apply existsb_exists in E as (e & Hin & Hlt%Z.ltb_lt). apply list_elem_of_In in Hin. destruct Vt as [_ Vt].
    specialize (Vt e Hin). lia. }
  rewrite Hterm. rewrite (proj2 (Z.ltb_ge _ _)) by (apply Vc). done.
Qed.

Lemma recover_stored f d : meta_stored f d → snapshot_stored f d → log_stored f (d_log d) → valid_disk d →
  recover f = Ok (recovered_of d, false).
Proof.
  intros Hm Hs (b & Hb & Hf) V. rewrite (recover_scanned f d (d_log d) Hm Hs); [by destruct d|by destruct d|].
  rewrite Hf. simpl. rewrite (scan_encoded _ _ (d_index d) _ _ Hb); [by rewrite Z.sub_diag|apply V| |].
  - split; [apply V|lia].
  - intros e He Hi. apply list_elem_of_lookup in He as [k Hk]. destruct (vd_suffix _ V) as [Hv _]. apply Hv in Hk as (? & _). lia.
Qed.

(** ** Writes *)

(** A restart finds one of the disks, or refuses the files. *)
Definition survives (f : Files) (P : Disk → Prop) : Prop :=
  (∃ err, recover f = Err err) ∨ ∃ d, P d ∧ valid_disk d ∧ recover f = Ok (recovered_of d, false).

Lemma survives_stored f d (P : Disk → Prop) :
  meta_stored f d → snapshot_stored f d → log_stored f (d_log d) → valid_disk d → P d → survives f P.
Proof. intros ? ? ? ? ?. right. exists d. split_and!; [done|done|by apply recover_stored]. Qed.

Lemma stored_survives s d (P : Disk → Prop) : stored s d → valid_disk d → P d → survives (files s) P.
Proof. intros [? ? ? ?]. by apply survives_stored. Qed.

Lemma replace_file_cases s put s' ok : replace_file s put = (s', ok) →
  durable_len s' = durable_len s ∧ (files s' = put (files s) ∨ ok = false ∧ files s' = files s).
Proof.
  unfold replace_file, next_outcome. destruct (outcomes s) as [|o os]; simpl.
  - intros [= <- <-]. auto.
  - destruct o as [|[|n]]; intros [= <- <-]; simpl; auto.
Qed.

Lemma save_meta_ok s d t v c s' ok :
  stored s d → valid_disk d → valid_disk (d_with_meta d t v c) → save_meta s t v c = (s', ok) →
  if ok then stored s' (d_with_meta d t v c) else survives (files s') (λ d', d' = d ∨ d' = d_with_meta d t v c).
Proof.
  intros S V V' Hsave. unfold save_meta in Hsave. destruct (meta_to_vec _) as [b|] eqn:Hb.
  - destruct (meta_reads_back _ _ Hb) as [Hne Hp]. apply replace_file_cases in Hsave as [Hlen Hf].
    assert (Hnew : files s' = put_meta b (files s) → stored s' (d_with_meta d t v c)).
    { intros E. destruct S as [S1 S2 S3 S4]. constructor; rewrite ?E, ?Hlen; try done. by exists b. }
    destruct ok, Hf as [Hf|[? Hf]]; try done; [by apply Hnew| |].
    + apply (stored_survives _ (d_with_meta d t v c)); auto.
    + rewrite Hf. apply (stored_survives _ d); auto.
  - injection Hsave as <- <-. apply (stored_survives _ d); auto.
Qed.

Lemma rewrite_log_cases s l s' ok : rewrite_log s l = (s', ok) →
  files s' = files s ∧ ok = false ∨
  ∃ b, encode_entries l = Some b ∧ files s' = put_log b (files s) ∧ (ok = true → durable_len s' = length l).
Proof.
  unfold rewrite_log. destruct (encode_entries l) as [b|]; [|intros [= <- <-]; auto].
  destruct (replace_file s (put_log b)) as [s1 o1] eqn:Hr. apply replace_file_cases in Hr as [_ Hf].
  destruct o1; intros [= <- <-]; simpl; destruct Hf as [Hf|[? Hf]]; try done; [right|right|left].
  - exists b. split_and!; done.
  - exists b. split_and!; done.
  - done.
Qed.

Lemma rewrite_log_ok s d l s' ok :
  stored s d → valid_disk d → valid_disk (d_with_log d l) → rewrite_log s l = (s', ok) →
  if ok then stored s' (d_with_log d l) else survives (files s') (λ d', d' = d ∨ d' = d_with_log d l).
Proof.
  intros S V V' [[Hf ->]|(b & Hb & Hf & Hlen)]%rewrite_log_cases.
  - rewrite Hf. apply (stored_survives _ d); auto.
  - destruct S as [S1 S2 S3 S4]. assert (Hl : log_stored (files s') l) by (rewrite Hf; by exists b).
    assert (Hm : meta_stored (files s') (d_with_log d l)) by (rewrite Hf; exact S1).
    assert (Hs : snapshot_stored (files s') (d_with_log d l)) by (rewrite Hf; exact S2).
    destruct ok; [by constructor; auto|]. apply (survives_stored _ (d_with_log d l)); auto.
Qed.

Lemma valid_disk_take d l j : valid_disk d → valid_disk (d_with_log d (d_log d ++ l)) → valid_disk (d_with_log d (d_log d ++ take j l)).
Proof.
  intros V0 [Vv Vi Vs Vt Vc]. constructor; try done; simpl in *.
  - rewrite <- (take_drop j l), app_assoc in Vs. rewrite <- (take_app_length (d_log d ++ take j l) (drop j l)). by apply valid_suffix_take.
  - split; [apply Vt|]. intros e [He|He]%elem_of_app; apply Vt, elem_of_app; [by left|right].
    apply list_elem_of_lookup in He as [k [Hk _]%lookup_take_Some]. by eapply list_elem_of_lookup_2.
  - pose proof (vd_commit _ V0). unfold d_index in *. simpl. rewrite length_app. lia.
Qed.

Lemma append_tail_ok s d l s' ok :
  stored s d → valid_disk d → valid_disk (d_with_log d (d_log d ++ l)) → append_tail s (d_log d ++ l) = (s', ok) →
  if ok then stored s' (d_with_log d (d_log d ++ l))
  else survives (files s') (λ d', ∃ j, d' = d_with_log d (d_log d ++ take j l)).
Proof.
  intros [S1 S2 (b0 & Hb0 & Hf0) S4] V0 V Ha. unfold append_tail in Ha. rewrite S4 in Ha.
  assert (Hkeep : survives (files s) (λ d', ∃ j, d' = d_with_log d (d_log d ++ take j l))).
  { apply (survives_stored _ d); try done; [by exists b0|]. exists O. simpl. rewrite app_nil_r. by destruct d. }
  destruct (Nat.leb_spec (length (d_log d ++ l)) (length (d_log d))) as [Hle|Hgt].
  { injection Ha as <- <-. rewrite length_app in Hle. destruct l; [|simpl in Hle; lia]. rewrite app_nil_r.
    constructor; try done. by exists b0. }
  rewrite drop_app_length in Ha. destruct (encode_entries l) as [buf|] eqn:Hbuf; [|by injection Ha as <- <-].
  assert (Hout : ∃ o s1, next_outcome s = (o, s1) ∧ files s1 = files s).
  { unfold next_outcome. destruct (outcomes s); eauto 6. }
  destruct Hout as (o & s1 & Ho & Hf1). rewrite Ho, Hf1, Hf0 in Ha. simpl in Ha. destruct o as [|n]; injection Ha as <- <-.
  - constructor; try done; simpl. exists (b0 +:+ buf). split; [|done]. rewrite encode_app, Hb0. simpl. by rewrite Hbuf.
  - destruct (truncate_encode l buf n Hbuf) as (j & b1 & torn & Hb1 & Ht & Htorn). simpl. rewrite Ht, <- sapp_assoc.
    assert (Henc : encode_entries (d_log d ++ take j l) = Some (b0 +:+ b1)) by (rewrite encode_app, Hb0; simpl; by rewrite Hb1).
    assert (Hscan : ∀ j', scan_lines (d_index d) (d_index_term d) (String.eqb ((b0 +:+ b1) +:+ torn) "")
        (ends_with_newline ((b0 +:+ b1) +:+ torn)) None [] (split_on LF ((b0 +:+ b1) +:+ torn)) = Ok (d_log d ++ take j' l) →
      survives (put_log ((b0 +:+ b1) +:+ torn) (files s)) (λ d', ∃ j, d' = d_with_log d (d_log d ++ take j l))).
    { intros j' E. right. exists (d_with_log d (d_log d ++ take j' l)). split_and!; [eauto|by apply valid_disk_take|].
      apply (recover_scanned _ d); [done|done|by apply valid_disk_take|done]. }
    destruct (decide (torn = "")) as [->|Hne].
    + apply (Hscan j). rewrite sapp_nil_r. pose proof (valid_disk_take d l j V0 V) as Vj.
      rewrite (scan_encoded _ _ (d_index d) _ _ Henc); [by rewrite Z.sub_diag|apply Vj|split; [apply V0|lia]|].
      intros e He Hi. apply list_elem_of_lookup in He as [k Hk]. destruct (vd_suffix _ Vj) as [Hv _].
      apply Hv in Hk as (Hk & _). unfold d_index in *. simpl in *. lia.
    + destruct Htorn as [?|(e & line & rest & He & Hline & Hr)]; [done|].
      assert (Hsnoc : take (S j) l = take j l ++ [e]) by (by apply take_S_r).
      pose proof (vd_suffix _ (valid_disk_take d l (S j) V0 V)) as Vs. simpl in Vs. rewrite Hsnoc, app_assoc in Vs.
      destruct (scan_torn (d_index d) (d_index_term d) _ _ torn e line rest Henc Hline Hr Hne (proj1 (vd_index _ V0)) Vs) as [E|E].
      * by apply (Hscan j).
      * apply (Hscan (S j)). by rewrite Hsnoc, app_assoc.
Qed.

(** The log is still the old one under the new snapshot: recovery drops the
    covered prefix, or refuses a log that disagrees with the snapshot. *)
Lemma interrupted_snapshot f d p :
  meta_stored f d → snapshot_stored f (d_with_snapshot d p []) → log_stored f (d_log d) → valid_disk d →
  d_index d ≤ last_included_index p → 1 ≤ last_included_index p → 1 ≤ last_included_term p ≤ d_term d →
  survives f (λ d', d' = d_with_snapshot d p (drop (Z.to_nat (last_included_index p - d_index d)) (d_log d)) ∧
    ∀ e, e ∈ d_log d → e_index e = last_included_index p → e_term e = last_included_term p).
Proof.
  intros Hm Hs (b & Hb & Hf) V Hle Hi Ht. set (l := drop _ _). destruct V as [Vv Vi Vs Vt Vc].
  assert (V' : valid_disk (d_with_snapshot d p l)).
  { assert (Hlen : Z.of_nat (length l) = Z.max 0 (d_index d + Z.of_nat (length (d_log d)) - last_included_index p))
      by (unfold l; rewrite length_drop; lia).
    constructor; unfold d_index, d_index_term in *; simpl in *.
    - done.
    - lia.
    - destruct (decide (Z.to_nat (last_included_index p - d_index d) ≤ length (d_log d))%nat) as [Hd|Hd].
      + replace (last_included_index p) with (d_index d + Z.of_nat (Z.to_nat (last_included_index p - d_index d)))
          by (unfold d_index in *; lia). by apply valid_suffix_drop.
      + unfold l. rewrite drop_ge by (unfold d_index in *; lia). split; [by intros ? ?|by intros ? ? ? ?].
    - split; [lia|]. intros e He. apply Vt. unfold l in He. apply list_elem_of_lookup in He as [k Hk].
      rewrite lookup_drop in Hk. by eapply list_elem_of_lookup_2.
    - lia. }
  destruct (decide (Exists (λ e, e_index e = last_included_index p ∧ e_term e ≠ last_included_term p) (d_log d))) as [Hbad|Hgood].
  - left. apply Exists_exists in Hbad as (x & Hx & Hxi & Hxt).
    pose proof (scan_disagreeing (last_included_index p) (last_included_term p) (d_index d) _ _ x Hb Vs ltac:(lia) Hx Hxi Hxt) as Hscan.
    destruct Hm as (mb & Hfm & Hne & Hparse). destruct Hs as (sb & Hfs & Hns & Hps). unfold recover. rewrite Hfm, Hfs.
    unfold read_optional_json. destruct mb; [done|]. rewrite Hparse. simpl.
    destruct ((d_term d =? 0) && negb (bool_decide (d_vote d = None))); [eauto|].
    destruct sb; [done|]. rewrite Hps. simpl. destruct (negb _); [eauto|]. rewrite Hf. simpl. rewrite Hscan. simpl. eauto.
  - assert (Hag : ∀ e, e ∈ d_log d → e_index e = last_included_index p → e_term e = last_included_term p).
    { intros e He Hei. destruct (decide (e_term e = last_included_term p)); [done|]. destruct Hgood.
      apply Exists_exists. eauto. }
    right. exists (d_with_snapshot d p l). split_and!; [done|done|done|].
    apply (recover_scanned f (d_with_snapshot d p []) l); [exact Hm|done|exact V'|].
    rewrite Hf. unfold d_index, d_index_term. simpl. by rewrite (scan_encoded _ _ (d_index d) _ _ Hb) by (done || lia).
Qed.

Lemma save_snapshot_ok s d p l s' ok :
  stored s d → valid_disk d → valid_disk (d_with_snapshot d p l) → d_index d ≤ last_included_index p →
  1 ≤ last_included_index p → save_snapshot s p l = (s', ok) →
  if ok then stored s' (d_with_snapshot d p l)
  else survives (files s') (λ d', d' = d ∨ d' = d_with_snapshot d p l ∨
    d' = d_with_snapshot d p (drop (Z.to_nat (last_included_index p - d_index d)) (d_log d)) ∧
    ∀ e, e ∈ d_log d → e_index e = last_included_index p → e_term e = last_included_term p).
Proof.
  intros S V V' Hle Hi Hsave. unfold save_snapshot in Hsave. destruct (snapshot_to_vec p) as [b|] eqn:Hb; last first.
  { injection Hsave as <- <-. apply (stored_survives _ d); auto. }
  destruct (snapshot_reads_back _ _ Hb) as [Hne Hp].
  destruct (replace_file s (put_snapshot b)) as [s1 o1] eqn:Hr. apply replace_file_cases in Hr as [Hlen Hf].
  assert (Hpt : 1 ≤ last_included_term p ≤ d_term d).
  { destruct V' as [_ [_ Vi] _ [Vt _] _]. destruct S as [_ _ _ _]. unfold d_index, d_index_term in *. simpl in *.
    assert (last_included_term p ≠ 0) by lia. destruct (snapshot_in_range _ _ Hp) as [_ [? _]]. lia. }
  pose proof S as [S1 S2 S3 S4].
  assert (Hmid : files s1 = put_snapshot b (files s) → survives (files s1) (λ d', d' = d ∨ d' = d_with_snapshot d p l ∨
    d' = d_with_snapshot d p (drop (Z.to_nat (last_included_index p - d_index d)) (d_log d)) ∧
    ∀ e, e ∈ d_log d → e_index e = last_included_index p → e_term e = last_included_term p)).
  { intros E. destruct (interrupted_snapshot (files s1) d p) as [[err He]|(d' & Hd' & Vd' & Hrec)]; try done.
    - by rewrite E.
    - rewrite E. by exists b.
    - by rewrite E.
    - left. eauto.
    - right. exists d'. auto. }
  destruct o1; last first.
  { injection Hsave as <- <-. destruct Hf as [Hf|[_ Hf]]; [by apply Hmid|]. rewrite Hf. apply (stored_survives _ d); auto. }
  destruct Hf as [Hf|[? _]]; [|done]. apply rewrite_log_cases in Hsave as [[Hf2 ->]|(lb & Hlb & Hf2 & Hlen2)].
  - rewrite Hf2. by apply Hmid.
  - assert (Hl : log_stored (files s') l) by (rewrite Hf2; by exists lb).
    assert (Hm : meta_stored (files s') (d_with_snapshot d p l)) by (rewrite Hf2, Hf; exact S1).
    assert (Hs : snapshot_stored (files s') (d_with_snapshot d p l)) by (rewrite Hf2, Hf; by exists b).
    destruct ok; [by constructor; auto|]. apply (survives_stored _ (d_with_snapshot d p l)); auto.
Qed.

(** ** Opening *)

Lemma recover_cases f r missing :
  recover f = Ok (r, missing) → ∃ d, r = recovered_of d ∧ valid_disk d ∧ snapshot_stored f d ∧
    if missing then f_meta f = None ∧ f_snapshot f = None ∧ d = mkDisk 0 None 0 None [] else meta_stored f d.
Proof.
  unfold recover. destruct (read_optional_json meta_from_slice InvalidMeta (f_meta f)) as [pm|] eqn:Hm; [|done]. simpl.
  destruct ((_ =? 0) && _) eqn:Hvote; [done|].
  destruct (read_optional_json snapshot_from_slice InvalidSnapshot (f_snapshot f)) as [ps|] eqn:Hs; [|done]. simpl.
  set (si := from_option last_included_index 0 ps). set (sterm := from_option last_included_term 0 ps).
  destruct (Bool.eqb (si =? 0) (sterm =? 0)) eqn:Hz; [|done]. simpl.
  destruct (scan_lines si sterm _ _ None [] _) as [l|] eqn:Hscan; [|done]. simpl.
  destruct (bool_decide (pm = None) && _) eqn:Hmiss; [done|].
  destruct ((_ <? sterm) || _) eqn:Hterm; [done|]. destruct (_ <? m_commit_index _) eqn:Hcommit; [done|].
  intros [= <- <-].
  assert (Hrange : 0 ≤ si ∧ match ps with None => f_snapshot f = None | Some s => ∃ b, f_snapshot f = Some b ∧ b ≠ "" ∧ snapshot_from_slice b = Some s end).
  { unfold read_optional_json in Hs. destruct (f_snapshot f) as [sb|]; [|injection Hs as <-; done].
    destruct sb as [|a sb]; [done|]. destruct (snapshot_from_slice _) as [s|] eqn:Hp; [|done]. injection Hs as <-.
    split; [apply (snapshot_in_range _ _ Hp)|]. exists (String a sb). done. }
  destruct Hrange as [Hsi Hsnap].
  assert (Hv : valid_suffix si l).
  { apply (scan_valid si sterm _ _ Hsi _ None [] l) in Hscan; done. }
  rewrite (log_tail_suffix _ _ Hv) in Hcommit. bools.
  set (meta := default (mkMeta 0 None 0) pm) in *.
  exists (mkDisk (m_current_term meta) (m_voted_for meta) (m_commit_index meta) ps l). split_and!.
  - done.
  - constructor; simpl.
    + intros E. destruct Hvote as [Hvote|Hvote]; bools; [lia|done].
    + split; [done|]. apply Bool.eqb_prop in Hz. unfold d_index, d_index_term. simpl. fold si sterm.
      destruct (Z.eqb_spec si 0), (Z.eqb_spec sterm 0); simpl in *; naive_solver.
    + done.
    + split; [done|]. intros e He. destruct (existsb (λ e, m_current_term meta <? e_term e) l) eqn:E; [done|].
      apply Z.nlt_ge. intros Hlt. assert (existsb (λ e, m_current_term meta <? e_term e) l = true); [|congruence].
      apply existsb_exists. exists e. split; [by apply list_elem_of_In|by apply Z.ltb_lt].
    + done.
  - done.
  - destruct pm as [m|]; simpl.
    + unfold read_optional_json in Hm. destruct (f_meta f) as [mb|] eqn:Hfm; [|done].
      destruct mb as [|a mb]; [done|]. destruct (meta_from_slice _) as [m'|] eqn:Hp; [|done]. injection Hm as ->.
      exists (String a mb). split_and!; [done|done|]. rewrite Hp. by destruct m.
    + simpl in Hmiss. destruct Hmiss as [?|Hmiss]; [done|]. bools.
      destruct ps; [done|]. destruct l; [|done]. split_and!; [|done|done].
      unfold read_optional_json in Hm. destruct (f_meta f) as [mb|]; [|done]. destruct mb; [done|].
      by destruct (meta_from_slice _).
Qed.

Definition fresh_disk : Disk := mkDisk 0 None 0 None [].

Lemma fresh_valid : valid_disk fresh_disk.
Proof.
  constructor; unfold d_index, d_index_term; simpl; try done.
  split; [done|]. intros e He. by apply elem_of_nil in He.
Qed.

Lemma recover_fresh f : f_meta f = None → f_snapshot f = None → default "" (f_log f) = "" →
  recover f = Ok (recovered_of fresh_disk, true).
Proof. intros Hm Hs Hl. unfold recover. rewrite Hm, Hs, Hl. done. Qed.

(** Opening reads what recovery reads and leaves the files readable the same. *)
Lemma open_ok s s' r :
  open s = (s', r) →
  match r with
  | Ok rec => ∃ d, rec = recovered_of d ∧ valid_disk d ∧ stored s' d ∧ ∃ b, recover (files s) = Ok (rec, b)
  | Err _ => ∀ rec b, recover (files s') = Ok (rec, b) → ∃ b', recover (files s) = Ok (rec, b')
  end.
Proof.
  unfold open. assert (Hout : ∃ o s1, next_outcome s = (o, s1) ∧ files s1 = files s).
  { unfold next_outcome. destruct (outcomes s); eauto 6. }
  destruct Hout as (o & s1 & -> & Hf1). destruct o as [|n]; last first.
  { intros [= <- <-]. rewrite Hf1. eauto. }
  rewrite Hf1. destruct (recover (files s)) as [[rec missing]|err] eqn:Hrec; last first.
  { intros [= <- <-]. rewrite Hf1, Hrec. done. }
  destruct (recover_cases _ _ _ Hrec) as (d & -> & V & Hsnap & Hm). simpl.
  destruct (rewrite_log (with_durable s1 0) (d_log d)) as [s2 ok2] eqn:Hw.
  apply rewrite_log_cases in Hw as [[Hf2 ->]|(b & Hb & Hf2 & Hlen)]; simpl in Hf2; rewrite Hf1 in Hf2.
  { simpl. intros [= <- <-]. rewrite Hf2, Hrec. eauto. }
  assert (Hlog : log_stored (files s2) (d_log d)) by (rewrite Hf2; by exists b).
  destruct missing.
  - destruct Hm as (Hm & Hs & ->). simpl in Hb. injection Hb as <-.
    assert (Hr2 : recover (files s2) = Ok (recovered_of fresh_disk, true)) by (rewrite Hf2; by apply recover_fresh).
    destruct ok2; simpl; last first.
    { intros [= <- <-]. rewrite Hr2. intros rec b [= <- <-]. eauto. }
    unfold save_meta. destruct (meta_to_vec (mkMeta 0 None 0)) as [mb|] eqn:Hmb; simpl; last first.
    { intros [= <- <-]. rewrite Hr2. intros rec b [= <- <-]. eauto. }
    destruct (replace_file s2 (put_meta mb)) as [s3 ok3] eqn:Hr3. apply replace_file_cases in Hr3 as [Hlen3 Hf3].
    assert (Hst : files s3 = put_meta mb (files s2) → meta_stored (files s3) fresh_disk ∧ snapshot_stored (files s3) fresh_disk ∧ log_stored (files s3) []).
    { intros E. rewrite E, Hf2. split_and!; [exists mb; destruct (meta_reads_back _ _ Hmb); done|done|by exists ""]. }
    destruct ok3; intros [= <- <-].
    + destruct Hf3 as [Hf3|[? _]]; [|done]. destruct (Hst Hf3) as (? & ? & ?). exists fresh_disk. split_and!; try done; [|eauto].
      constructor; try done. rewrite Hlen3. by apply Hlen.
    + destruct Hf3 as [Hf3|[_ Hf3]].
      * destruct (Hst Hf3) as (? & ? & ?). rewrite (recover_stored _ fresh_disk) by (done || apply fresh_valid).
        intros rec b [= <- <-]. eauto.
      * rewrite Hf3, Hr2. intros rec b [= <- <-]. eauto.
  - assert (Hm2 : meta_stored (files s2) d) by (rewrite Hf2; exact Hm).
    assert (Hs2 : snapshot_stored (files s2) d) by (rewrite Hf2; exact Hsnap).
    destruct ok2; simpl; intros [= <- <-].
    + exists d. split_and!; try done; [|eauto]. constructor; try done. by apply Hlen.
    + rewrite (recover_stored _ d) by done. intros rec b' [= <- <-]. eauto.
Qed.
End recovery.
