(* ===== verification/RaftCoupling.v ===== *)
(** How one shard actor implements one member of the abstract group: the actor
    mirrors its disk, the disk holds the member's term, vote and log, and what
    the actor counts or sends is backed by the history.  A faulted actor only
    keeps the promise of its files: whatever a restart reads from them is the
    member's state. *)

From stdpp Require Import functions.
From S2P Require Import Prelude Json Text Command StateMachine RaftTypes RaftSpec RaftConfig RaftCallback Persist PersistTheorems ShardActor.

(** What the actor relies on from its state machine: a snapshot that can be
    restored restores the state it was taken from. *)
Class MachineLaws `{Machine} : Prop := {
  restores_same st b st' : machine_snapshot st = Some b → machine_restore b = Some st' → st' = st
}.

(** The members of one shard's Raft group. *)
Class Group := {
  group : list string;
  group_distinct : NoDup group;
  group_size : (2 ≤ length group)%nat
}.

Section coupling.
Context `{DiskFormat, !DiskLaws, Machine, !MachineLaws, Wire, Group}.

(** ** The group *)

Definition mems : gset string := list_to_set group.
Definition others (n : string) : list string := filter (λ m, m ≠ n) group.

(** ** The replicated state *)

Definition replay_entry (st : mstate) (e : LogEntry) : mstate :=
  match e_command e with
  | Some command => (machine_apply st command (e_proposed_at_ms e)).1
  | None => st
  end.
Definition replay (l : list LogEntry) : mstate := foldl replay_entry machine_new l.

(** The bytes restore to the state after these entries, if they restore. *)
Definition snap_ok (bytes : string) (l : list LogEntry) : Prop :=
  ∀ st, machine_restore bytes = Some st → st = replay l.

(** ** Messages *)

Definition vote_req_ok (h : Hist) (c : string) (req : RequestVoteReq) : Prop :=
  vr_candidate_id req = c ∧
  (vr_pre_vote req = true ∨ ∃ l, (c, vr_term req, c, l) ∈ ballots h ∧
     vr_last_log_index req = Z.of_nat (length l) ∧ vr_last_log_term req = last_term l).

(** The commit index of a leader that has log [L] in term [t]. *)
Definition commit_ok (h : Hist) (t : Z) (L : list LogEntry) (i : nat) : Prop :=
  (i ≤ length L)%nat ∧ (i = O ∨ ∃ t', t' ≤ t ∧ committed_by mems h t' (take i L)).

Definition append_req_ok (h : Hist) (c : string) (req : AppendEntriesReq) : Prop :=
  ar_leader_id req = c ∧ 0 ≤ ar_prev_log_index req ∧
  ∃ L, leads h !! ar_term req = Some (c, L) ∧
    let p := Z.to_nat (ar_prev_log_index req) in
    let j := (p + length (ar_entries req))%nat in
    (j ≤ length L)%nat ∧ ar_entries req = drop p (take j L) ∧ ar_prev_log_term req = log_term L p ∧
    ∃ i, ar_leader_commit req = Z.of_nat i ∧ commit_ok h (ar_term req) L i.

Definition snapshot_req_ok (h : Hist) (c : string) (req : InstallSnapshotReq) : Prop :=
  sr_leader_id req = c ∧
  ∃ L k, leads h !! sr_term req = Some (c, L) ∧ sr_last_included_index req = Z.of_nat (S k) ∧
    sr_last_included_term req = log_term L (S k) ∧ commit_ok h (sr_term req) L (S k) ∧
    snap_ok (sr_state req) (take (S k) L).

Definition rpc_ok (h : Hist) (c : string) (rpc : Rpc) : Prop :=
  match rpc with
  | RpcVote to req => to ∈ others c ∧ vote_req_ok h c req
  | RpcAppend to _ up_to req =>
      to ∈ others c ∧ append_req_ok h c req ∧ up_to = ar_prev_log_index req + Z.of_nat (length (ar_entries req))
  | RpcSnapshot to _ up_to req => to ∈ others c ∧ snapshot_req_ok h c req ∧ up_to = sr_last_included_index req
  end.

(** ** The disk *)

Record disk_ok (h : Hist) (n : string) (d : Disk) : Prop := {
  do_nonneg : 0 ≤ d_term d;
  do_term : Z.max (d_term d) 1 = p_term (peer h n);
  do_vote : d_vote d = p_vote (peer h n);
  do_index : 0 ≤ d_index d ≤ Z.of_nat (p_commit (peer h n));
  do_log : d_log d = drop (Z.to_nat (d_index d)) (p_log (peer h n));
  do_index_term : d_index_term d = log_term (p_log (peer h n)) (Z.to_nat (d_index d));
  do_commit : Z.max (d_commit d) (d_index d) = Z.of_nat (p_commit (peer h n));
  do_snapshot p : d_snapshot d = Some p → snap_ok (ps_state p) (take (Z.to_nat (d_index d)) (p_log (peer h n)))
}.

(** ** The actor *)

(** Memory holds what recovery would read. *)
Record mirrors (a : ShardActor) (d : Disk) : Prop := {
  mi_term : current_term a = Z.max (d_term d) 1;
  mi_vote : voted_for a = d_vote d;
  mi_index : snapshot_index a = d_index d;
  mi_index_term : snapshot_term a = d_index_term d;
  mi_bytes : snapshot_state a = from_option ps_state "" (d_snapshot d);
  mi_log : log a = d_log d;
  mi_commit : commit_index a = Z.max (d_commit d) (d_index d)
}.

(** The leader's bookkeeping: matched prefixes were acknowledged in its term. *)
Definition tracked (h : Hist) (n : string) (ls : LeaderState) : Prop :=
  (∀ m i, match_index ls !! m = Some i → 0 ≤ i ∧ (i = 0 ∨ acked h m (p_term (peer h n)) (Z.to_nat i))) ∧
  (∀ m i, next_index ls !! m = Some i → 1 ≤ i ≤ Z.of_nat (length (p_log (peer h n))) + 1).

Record volatile (h : Hist) (n : string) (a : ShardActor) : Prop := {
  vo_member : n ∈ group;
  vo_node : node_id a = n;
  vo_peers : peers a = others n;
  vo_members : members a = length group;
  vo_role : role a = p_role (peer h n);
  vo_applied : last_applied a = commit_index a;
  vo_state : state a = replay (take (p_commit (peer h n)) (p_log (peer h n)));
  vo_votes : role a = Candidate → ∀ m, m ∈ votes a → m ∈ mems ∧ voted h m (p_term (peer h n)) n;
  vo_leader ls : role a = Leader → leader a = Some ls → tracked h n ls;
  vo_outbox rpc : rpc ∈ outbox a → rpc_ok h n rpc;
  vo_timing : 0 ≤ snapshot_threshold (timing a)
}.

Definition healthy (h : Hist) (n : string) (a : ShardActor) : Prop :=
  storage_fault a = None ∧ volatile h n a ∧
  ∃ s d, store a = Some s ∧ stored s d ∧ mirrors a d ∧ disk_ok h n d.

(** What a restart reads is the member. *)
Definition fault_ok (h : Hist) (n : string) (f : Files) : Prop :=
  p_role (peer h n) = Follower ∧ ∀ r b, recover f = Ok (r, b) → ∃ d, r = recovered_of d ∧ disk_ok h n d.

Definition faulted (h : Hist) (n : string) (a : ShardActor) : Prop :=
  storage_fault a ≠ None ∧ role a = Follower ∧ (∀ rpc, rpc ∈ outbox a → rpc_ok h n rpc) ∧
  ∃ s, store a = Some s ∧ fault_ok h n (files s).

Definition coupled (h : Hist) (n : string) (a : ShardActor) : Prop := healthy h n a ∨ faulted h n a.

(** The logs fit the index type. *)
Definition small (h : Hist) : Prop := ∀ t c L, leads h !! t = Some (c, L) → Z.of_nat (length L) ≤ U64_MAX.

Record sound (h : Hist) : Prop := {
  so_inv : spec_inv mems h;
  so_small : small h
}.

(** The member can move so that the actor is coupled to it again. *)
Definition reaches (h : Hist) (n : string) (P : Hist → Prop) : Prop := ∃ h', moves mems n h h' ∧ sound h' ∧ P h'.

(** ** Moving *)

Lemma reaches_here h n (P : Hist → Prop) : sound h → P h → reaches h n P.
Proof. intros S HP. exists h. split_and!; [apply rtc_refl|done|done]. Qed.

Lemma reaches_step h n h1 (P : Hist → Prop) :
  sound h → spec_step mems h n h1 → small h1 → (sound h1 → reaches h1 n P) → reaches h n P.
Proof.
  intros [I _] Hs Hsm Hk. assert (S1 : sound h1) by (split; [by eapply spec_step_inv|done]).
  destruct (Hk S1) as (h2 & Hm & S2 & HP). exists h2. split_and!; [by eapply rtc_l|done|done].
Qed.

Lemma reaches_bind h n (P Q : Hist → Prop) :
  sound h → reaches h n P → (∀ h', sound h' → extends n h h' → P h' → reaches h' n Q) → reaches h n Q.
Proof.
  intros S (h1 & Hm & S1 & HP) Hk. destruct (moves_ok mems h n h1 (so_inv _ S) Hm) as [_ E].
  destruct (Hk h1 S1 E HP) as (h2 & Hm2 & S2 & HQ). exists h2. split_and!; [by etrans|done|done].
Qed.

Lemma reaches_mono h n (P Q : Hist → Prop) : (∀ h', sound h' → P h' → Q h') → reaches h n P → reaches h n Q.
Proof. intros Hi (h1 & Hm & S1 & HP). exists h1. auto. Qed.

(** Only [spec_append] makes a leader's log longer. *)
Lemma small_same h h' : leads h' = leads h → small h → small h'.
Proof. intros E Hs t c L. rewrite E. apply Hs. Qed.

Lemma small_peer h n : sound h → Z.of_nat (length (p_log (peer h n))) ≤ U64_MAX.
Proof.
  intros [I Hs]. destruct (si_peer _ _ I n) as (_ & _ & Hp & _).
  destruct (decide (length (p_log (peer h n)) = O)) as [->|Hne]; [done|].
  destruct (lookup_lt_is_Some_2 (p_log (peer h n)) (length (p_log (peer h n)) - 1)) as [e He]; [lia|].
  destruct (Hp _ _ He) as (c & L & HL & E). apply Hs in HL.
  apply (take_agree_length _ (p_log (peer h n)) L) in E; lia.
Qed.

(** ** Terms *)

(** No entry and no vote belongs to term 1. *)
Lemma first_term_empty h n : sound h → p_term (peer h n) = 1 → p_log (peer h n) = [] ∧ p_vote (peer h n) = None.
Proof.
  intros [I _] Ht. destruct (si_peer _ _ I n) as (_ & Hle & Hp & _). split.
  - destruct (p_log (peer h n)) as [|e l] eqn:E; [done|]. destruct (Hp O e eq_refl) as (c & L & HL & _).
    destruct (si_lead _ _ I _ _ _ HL) as (? & _). specialize (Hle e ltac:(left)). lia.
  - destruct (p_vote (peer h n)) as [c|] eqn:E; [|done]. apply (si_voted _ _ I) in E as [[l Hb]|Hl].
    + apply (si_ballot _ _ I) in Hb as (_ & ? & _). lia.
    + apply (si_late _ _ I) in Hl as (_ & _ & [[c' L] HL]). apply (si_lead _ _ I) in HL as (? & _). lia.
Qed.

Lemma log_term_pos h n i : spec_inv mems h → (1 ≤ i ≤ length (p_log (peer h n)))%nat → 1 ≤ log_term (p_log (peer h n)) i ≤ p_term (peer h n).
Proof.
  intros I Hi. destruct (si_peer _ _ I n) as (_ & Hle & _). destruct i as [|i]; [lia|]. simpl.
  destruct (lookup_lt_is_Some_2 (p_log (peer h n)) i) as [e He]; [lia|]. rewrite He. simpl. by eapply Hle, list_elem_of_lookup_2.
Qed.

(** What matches the member is a disk recovery accepts. *)
Lemma disk_ok_valid h n d : sound h → disk_ok h n d → valid_disk d.
Proof.
  intros Hsound [Dn Dt Dv [Di0 Di] Dl Dit Dc _]. pose proof (small_peer h n Hsound) as Hsm. pose proof Hsound as [I _].
  destruct (si_peer _ _ I n) as (Ht1 & Hle & _ & Hx & Hasc). destruct (si_commit _ _ I n) as [Hcl _].
  set (l := p_log (peer h n)) in *. assert (Hk : (Z.to_nat (d_index d) ≤ length l)%nat) by lia.
  assert (Hzero : d_term d < 1 → l = [] ∧ d_vote d = None).
  { intros ?. rewrite Dv. apply (first_term_empty h n); [done|lia]. }
  constructor.
  - intros E. apply Hzero. lia.
  - split; [done|]. rewrite Dit. split; [by intros ->|]. intros E.
    destruct (Z.to_nat (d_index d)) as [|k] eqn:Ek; [lia|].
    pose proof (log_term_pos h n (S k) I ltac:(fold l; lia)) as Hp. fold l in Hp. lia.
  - rewrite Dl. split.
    + intros k e He. rewrite lookup_drop in He. pose proof (lookup_lt_Some _ _ _ He). pose proof (Hx _ _ He).
      apply list_elem_of_lookup_2, Hle in He. lia.
    + intros i j a b Ha Hb Hij. rewrite lookup_drop in Ha, Hb. apply (Hasc _ _ _ _ Ha Hb). lia.
  - destruct (decide (d_term d < 1)) as [Hd|Hd].
    + destruct (Hzero Hd) as [E _]. rewrite Dl, Dit, E. rewrite drop_nil. split.
      * destruct (Z.to_nat (d_index d)); simpl; lia.
      * intros e He. by apply elem_of_nil in He.
    + split.
      * rewrite Dit. destruct (Z.to_nat (d_index d)) as [|k] eqn:Ek; [simpl; lia|].
        pose proof (log_term_pos h n (S k) I ltac:(fold l; lia)) as Hp. fold l in Hp. lia.
      * intros e He. rewrite Dl in He. apply list_elem_of_lookup in He as [k Hk']. rewrite lookup_drop in Hk'.
        apply list_elem_of_lookup_2, Hle in Hk'. lia.
  - rewrite Dl, length_drop. lia.
Qed.

(** ** What the coupling reads of an actor *)

Definition core (a : ShardActor) :=
  ((node_id a, peers a, members a, role a, current_term a, voted_for a),
   (snapshot_index a, snapshot_term a, snapshot_state a, log a, commit_index a, last_applied a),
   (store a, storage_fault a, votes a, leader a, state a, outbox a, timing a)).

Record same_core (a a' : ShardActor) : Prop := {
  sc_node : node_id a = node_id a'; sc_peers : peers a = peers a'; sc_members : members a = members a';
  sc_role : role a = role a'; sc_term : current_term a = current_term a'; sc_vote : voted_for a = voted_for a';
  sc_index : snapshot_index a = snapshot_index a'; sc_index_term : snapshot_term a = snapshot_term a';
  sc_bytes : snapshot_state a = snapshot_state a'; sc_log : log a = log a'; sc_commit : commit_index a = commit_index a';
  sc_applied : last_applied a = last_applied a'; sc_store : store a = store a'; sc_fault : storage_fault a = storage_fault a';
  sc_votes : votes a = votes a'; sc_leader : leader a = leader a'; sc_state : state a = state a'; sc_outbox : outbox a = outbox a';
  sc_timing : timing a = timing a'
}.

Lemma core_fields a a' : core a = core a' → same_core a a'.
Proof.
  unfold core. intros E. pose proof (f_equal (fst ∘ fst) E) as E1. pose proof (f_equal (snd ∘ fst) E) as E2.
  pose proof (f_equal snd E) as E3. simpl in E1, E2, E3. injection E1 as ? ? ? ? ? ?. injection E2 as ? ? ? ? ? ?.
  injection E3 as ? ? ? ? ? ? ?. by constructor.
Qed.

Lemma same_core_core a a' : same_core a a' → core a = core a'.
Proof. intros []. unfold core. congruence. Qed.

Lemma healthy_core h n a a' : core a' = core a → healthy h n a → healthy h n a'.
Proof.
  unfold core. intros [= E1 E2 E3 E4 E5 E6 E7 E8 E9 E10 E11 E12 E13 E14 E15 E16 E17 E18 E19] (F & V & s & d & Hs & Hst & M & D).
  split_and!; [congruence| |exists s, d; split_and!; [congruence|done| |done]].
  - destruct V. constructor; intros; rewrite ?E1, ?E2, ?E3, ?E4, ?E11, ?E12, ?E15, ?E16, ?E17, ?E18, ?E19 in *; eauto.
  - destruct M. constructor; congruence.
Qed.

Lemma faulted_core h n a a' : core a' = core a → faulted h n a → faulted h n a'.
Proof.
  unfold core. intros [= E1 E2 E3 E4 E5 E6 E7 E8 E9 E10 E11 E12 E13 E14 E15 E16 E17 E18 E19] (F & R & O & s & Hs & Hf).
  split_and!; [congruence|congruence|by rewrite E18|exists s; split; [congruence|done]].
Qed.

Lemma coupled_core h n a a' : core a' = core a → coupled h n a → coupled h n a'.
Proof. intros E [Hc|Hc]; [left; by eapply healthy_core|right; by eapply faulted_core]. Qed.

Lemma is_faulty_spec a : is_faulty a = true ↔ storage_fault a ≠ None.
Proof. unfold is_faulty. rewrite negb_true_iff, bool_decide_eq_false. done. Qed.

Lemma not_faulty_spec a : is_faulty a = false ↔ storage_fault a = None.
Proof. unfold is_faulty. rewrite negb_false_iff, bool_decide_eq_true. done. Qed.

Lemma coupled_faulty h n a : coupled h n a → is_faulty a = true → faulted h n a.
Proof. intros [(F & _)|Hf] E; [|done]. apply is_faulty_spec in E. done. Qed.

Lemma coupled_healthy h n a : coupled h n a → is_faulty a = false → healthy h n a.
Proof. intros [Hh|(F & _)] E; [done|]. apply not_faulty_spec in E. done. Qed.

(** The member as the actor sees it. *)
Record view (h : Hist) (n : string) (a : ShardActor) : Prop := {
  vw_term : current_term a = p_term (peer h n);
  vw_vote : voted_for a = p_vote (peer h n);
  vw_index : 0 ≤ snapshot_index a ≤ Z.of_nat (p_commit (peer h n));
  vw_log : log a = drop (Z.to_nat (snapshot_index a)) (p_log (peer h n));
  vw_index_term : snapshot_term a = log_term (p_log (peer h n)) (Z.to_nat (snapshot_index a));
  vw_commit : commit_index a = Z.of_nat (p_commit (peer h n));
  vw_bytes : 0 < snapshot_index a → snap_ok (snapshot_state a) (take (Z.to_nat (snapshot_index a)) (p_log (peer h n)));
  vw_length : snapshot_index a + Z.of_nat (length (log a)) = Z.of_nat (length (p_log (peer h n)));
  vw_last : last_log_index a = Z.of_nat (length (p_log (peer h n)));
  vw_fit : Z.of_nat (length (p_log (peer h n))) ≤ U64_MAX
}.

Lemma healthy_view h n a : sound h → healthy h n a → view h n a.
Proof.
  intros Hs (_ & _ & s & d & _ & _ & [] & []). destruct (si_commit _ _ (so_inv _ Hs) n) as [Hc _].
  pose proof (small_peer h n Hs). assert (Hlen : snapshot_index a + Z.of_nat (length (log a)) = Z.of_nat (length (p_log (peer h n)))).
  { rewrite mi_log0, do_log0, length_drop, mi_index0. lia. }
  constructor; try congruence; try lia.
  - intros Hpos. rewrite mi_bytes0, mi_index0 in *. unfold d_index in Hpos. destruct (d_snapshot d) as [p|] eqn:E; simpl in *; [auto|lia].
  - unfold last_log_index, sat_add. lia.
Qed.

Lemma view_term_at h n a i : view h n a → snapshot_index a ≤ i → term_at a i = log_term (p_log (peer h n)) (Z.to_nat i).
Proof.
  intros [] Hi. unfold term_at, get_entry. destruct (Z.eqb_spec i 0) as [->|]; [done|].
  destruct (Z.eqb_spec i (snapshot_index a)) as [->|]; [done|]. destruct (Z.ltb_spec i (snapshot_index a)); [lia|].
  rewrite vw_log0, lookup_drop. destruct (Z.to_nat i) as [|k] eqn:E; [lia|]. simpl. do 2 f_equal. lia.
Qed.

Lemma view_last_term h n a : view h n a → last_log_term a = last_term (p_log (peer h n)).
Proof.
  intros []. unfold last_log_term, last_term. rewrite vw_index_term0, vw_log0. rewrite vw_log0, length_drop in vw_length0.
  set (l := p_log (peer h n)) in *. destruct (decide (Z.to_nat (snapshot_index a) = length l)) as [E|E].
  - rewrite drop_ge by lia. simpl. by rewrite E.
  - rewrite last_lookup, lookup_drop, length_drop. destruct (length l) as [|k] eqn:Hl; [lia|]. simpl.
    replace (Z.to_nat (snapshot_index a) + pred (S k - Z.to_nat (snapshot_index a)))%nat with k by lia.
    destruct (l !! k) eqn:Hk; [done|]. apply lookup_ge_None in Hk. lia.
Qed.

(** ** Writes *)

Lemma fault_from_survives h n f (P : Disk → Prop) :
  sound h → survives f P → (∀ d, P d → reaches h n (λ h', disk_ok h' n d)) → reaches h n (λ h', fault_ok h' n f).
Proof.
  intros Hs Hsv Hall.
  assert (Hfollow : ∀ h1 (Q : Hist → Prop), sound h1 → (∀ h2, p_role (peer h2 n) = Follower → p_term (peer h2 n) = p_term (peer h1 n) →
      p_vote (peer h2 n) = p_vote (peer h1 n) → p_log (peer h2 n) = p_log (peer h1 n) → p_commit (peer h2 n) = p_commit (peer h1 n) → Q h2) →
      reaches h1 n Q).
  { intros h1 Q S1 HQ. eapply reaches_step; [done|apply spec_follow|by apply (small_same h1), so_small|].
    intros S2. apply reaches_here; [done|]. apply HQ; simpl; by rewrite fn_lookup_insert. }
  destruct Hsv as [[err He]|(d & Hd & Vd & Hr)].
  - apply Hfollow; [done|]. intros h2 Hrole _ _ _ _. split; [done|]. rewrite He. done.
  - eapply reaches_bind; [done|by apply Hall|]. intros h1 S1 _ D. apply Hfollow; [done|].
    intros h2 Hrole Et Ev El Ec. split; [done|]. rewrite Hr. intros r b [= <- <-]. exists d. split; [done|].
    destruct D. constructor; rewrite ?Et, ?Ev, ?El, ?Ec; auto.
Qed.

Lemma fail_coupled h n a op s :
  sound h → store a = Some s → (∀ rpc, rpc ∈ outbox a → rpc_ok h n rpc) → fault_ok h n (files s) →
  faulted h n (fail_storage op a).
Proof.
  intros Hs Hst Ho Hf. unfold fail_storage, record_leader_transfer. split_and!.
  - destruct (is_faulty a) eqn:E; repeat case_goal; simpl; try done; by apply is_faulty_spec.
  - by repeat case_goal.
  - destruct (is_faulty a); repeat case_goal; simpl; done.
  - exists s. split; [|done]. destruct (is_faulty a); repeat case_goal; simpl; done.
Qed.

(** ** Messages stay true as the history grows *)

Lemma commit_ok_mono n h h' t L L' i :
  spec_inv mems h → extends n h h' → L `prefix_of` L' → commit_ok h t L i → commit_ok h' t L' i.
Proof.
  intros I E Hpre [Hi Hc]. pose proof (prefix_length _ _ Hpre). split; [lia|]. destruct Hc as [->|(t' & Ht & Hc)]; [by left|right].
  exists t'. split; [done|]. rewrite (prefix_take_le i L L') by done. by eapply committed_mono.
Qed.

Lemma log_term_prefix L L' i : L `prefix_of` L' → (i ≤ length L)%nat → log_term L' i = log_term L i.
Proof. intros [m ->] Hi. destruct i as [|k]; [done|]. simpl. by rewrite lookup_app_l by lia. Qed.

Lemma vote_req_ok_mono n h h' c req : extends n h h' → vote_req_ok h c req → vote_req_ok h' c req.
Proof.
  intros E [? [?|(l & Hb & Hl)]]; (split; [done|]); [by left|right]. exists l. split; [|done]. by apply (ex_ballots _ _ _ E).
Qed.

Lemma append_req_ok_mono n h h' c req : spec_inv mems h → extends n h h' → append_req_ok h c req → append_req_ok h' c req.
Proof.
  intros I E (? & Hp & L & HL & Hj & He & Ht & i & Hi & Hc). split_and!; [done|done|].
  destruct (ex_leads _ _ _ E _ _ _ HL) as (L' & HL' & Hpre & _). exists L'. pose proof (prefix_length _ _ Hpre). cbv zeta in *.
  split_and!; [done|lia| | |exists i; split; [done|by eapply commit_ok_mono]].
  - rewrite He at 1. by rewrite (prefix_take_le _ L L') by done.
  - rewrite Ht. symmetry. apply log_term_prefix; [done|lia].
Qed.

Lemma snapshot_req_ok_mono n h h' c req : spec_inv mems h → extends n h h' → snapshot_req_ok h c req → snapshot_req_ok h' c req.
Proof.
  intros I E (? & L & k & HL & Hidx & Ht & Hc & Hs). split; [done|].
  destruct (ex_leads _ _ _ E _ _ _ HL) as (L' & HL' & Hpre & _). exists L', k. destruct Hc as [Hk Hc].
  split_and!; [done|done| |by eapply commit_ok_mono|by rewrite (prefix_take_le _ L L')]. rewrite Ht. symmetry. by apply log_term_prefix.
Qed.

Lemma rpc_ok_mono n h h' c rpc : spec_inv mems h → extends n h h' → rpc_ok h c rpc → rpc_ok h' c rpc.
Proof.
  intros I E. destruct rpc as [to req|to stamp up_to req|to stamp up_to req]; simpl.
  - intros [? ?]. split; [done|]. by eapply vote_req_ok_mono.
  - intros (? & ? & ?). split_and!; [done| |done]. by eapply append_req_ok_mono.
  - intros (? & ? & ?). split; [done|]. split; [|done]. by eapply snapshot_req_ok_mono.
Qed.

(** Each write leaves the disk it meant to write, or files whose recovery is a
    state the member can reach. *)
Section writes.
Context (h : Hist) (n : string) (a : ShardActor) (s : ShardStore) (d : Disk).
Context (Hsound : sound h) (Hstore : store a = Some s) (Hstored : stored s d) (Hdisk : disk_ok h n d).

Definition landed (r : ShardActor * bool) (d' : Disk) : Prop :=
  ∃ s', r.1 = set_store (Some s') a ∧ if r.2 then stored s' d' else reaches h n (λ h', fault_ok h' n (files s')).

Lemma reaches_valid d' : reaches h n (λ h', disk_ok h' n d') → valid_disk d'.
Proof. intros (h' & _ & S' & D'). by apply (disk_ok_valid h' n). Qed.

Lemma stays : reaches h n (λ h', disk_ok h' n d).
Proof. by apply reaches_here. Qed.

Lemma meta_landed c :
  reaches h n (λ h', disk_ok h' n (d_with_meta d (current_term a) (voted_for a) c)) →
  landed (persist_hard_state_at c a) (d_with_meta d (current_term a) (voted_for a) c).
Proof.
  intros Hr. unfold persist_hard_state_at. rewrite Hstore. destruct (save_meta _ _ _ _) as [s' ok] eqn:E.
  exists s'. split; [done|]. apply (save_meta_ok s d) in E; [|done|by apply reaches_valid, stays|by apply reaches_valid].
  destruct ok; [done|]. eapply fault_from_survives; [done|exact E|]. intros d' [->| ->]; [apply stays|done].
Qed.

Lemma rewrite_landed :
  reaches h n (λ h', disk_ok h' n (d_with_log d (log a))) → landed (persist_log_rewrite a) (d_with_log d (log a)).
Proof.
  intros Hr. unfold persist_log_rewrite. rewrite Hstore. destruct (rewrite_log _ _) as [s' ok] eqn:E.
  exists s'. split; [done|]. apply (rewrite_log_ok s d) in E; [|done|by apply reaches_valid, stays|by apply reaches_valid].
  destruct ok; [done|]. eapply fault_from_survives; [done|exact E|]. intros d' [->| ->]; [apply stays|done].
Qed.

Lemma append_landed l :
  log a = d_log d ++ l → (∀ j, reaches h n (λ h', disk_ok h' n (d_with_log d (d_log d ++ take j l)))) →
  landed (persist_log_append a) (d_with_log d (log a)).
Proof.
  intros El Hr. unfold persist_log_append. rewrite Hstore, El. destruct (append_tail _ _) as [s' ok] eqn:E.
  exists s'. split; [done|]. apply (append_tail_ok s d) in E; [|done|by apply reaches_valid, stays|].
  - destruct ok; [done|]. eapply fault_from_survives; [done|exact E|]. intros d' [j ->]. apply Hr.
  - specialize (Hr (length l)). rewrite take_ge in Hr by lia. by apply reaches_valid.
Qed.

Lemma snapshot_landed p l :
  d_index d ≤ last_included_index p → 1 ≤ last_included_index p →
  reaches h n (λ h', disk_ok h' n (d_with_snapshot d p l)) →
  ((∀ e, e ∈ d_log d → e_index e = last_included_index p → e_term e = last_included_term p) →
   reaches h n (λ h', disk_ok h' n (d_with_snapshot d p (drop (Z.to_nat (last_included_index p - d_index d)) (d_log d))))) →
  landed (persist_snapshot p l a) (d_with_snapshot d p l).
Proof.
  intros Hle Hpos Hr Hmid. unfold persist_snapshot. rewrite Hstore. destruct (save_snapshot _ _ _) as [s' ok] eqn:E.
  exists s'. split; [done|]. apply (save_snapshot_ok s d) in E; [|done|by apply reaches_valid, stays|by apply reaches_valid|done|done].
  destruct ok; [done|]. eapply fault_from_survives; [done|exact E|]. intros d' [->|[->|[-> Hag]]]; [apply stays|done|by apply Hmid].
Qed.
End writes.

(** A write that failed ends the actor's service, at a state its files recover to. *)
Lemma failed_write h n a op s :
  sound h → (∀ rpc, rpc ∈ outbox a → rpc_ok h n rpc) → store a = Some s →
  reaches h n (λ h', fault_ok h' n (files s)) → reaches h n (λ h', coupled h' n (fail_storage op a)).
Proof.
  intros Hs Ho Hst Hr. eapply reaches_bind; [done|exact Hr|]. intros h' S' E Hf. apply reaches_here; [done|]. right.
  eapply fail_coupled; [done|done| |done]. intros rpc Hrpc. apply (rpc_ok_mono n h h'); [by apply so_inv|exact E|by apply Ho].
Qed.
End coupling.
