(* ===== verification/RaftMethods.v ===== *)
(** The methods of the actor keep it coupled to its member: elections, terms
    and the state machine. *)

From stdpp Require Import functions.
From S2P Require Import Prelude Json Text Command StateMachine RaftTypes RaftSpec RaftConfig RaftCallback Persist PersistTheorems ShardActor RaftCoupling.

Section methods.
Context `{DiskFormat, !DiskLaws, Machine, !MachineLaws, Wire, Group}.

(** Read the member that just moved. *)
Ltac member := simpl; rewrite ?fn_lookup_insert; simpl.

(** ** What does not concern the member *)

Lemma core_reset e a : core (reset_election_deadline e a) = core a.
Proof. unfold reset_election_deadline. by destruct (below _ _). Qed.

Lemma core_transfer from to a : core (record_leader_transfer from to a) = core a.
Proof. unfold record_leader_transfer. by case_goal. Qed.

Lemma core_fail_pending a : core (fail_pending a) = core a.
Proof. done. Qed.

Lemma core_publish command out revision a : core (publish_change command out revision a) = core a.
Proof. unfold publish_change. by case_goal. Qed.

Lemma core_complete e l a : core (foldl (complete_one e) a l) = core a.
Proof. revert a. induction l as [|[[[i p] r] out] l IH]; intros a; simpl; [done|]. by rewrite IH. Qed.

Lemma core_fail_completed l a : core (fail_completed l a) = core a.
Proof. unfold fail_completed. revert a. induction l as [|c l IH]; intros a; simpl; [done|]. by rewrite IH. Qed.

Lemma core_refresh a : core (refresh_follower_lag_metric a) = core a.
Proof. done. Qed.

Lemma core_set_store s a a' : core a = core a' → core (set_store s a) = core (set_store s a').
Proof. intros C. apply core_fields in C. destruct C. apply same_core_core. constructor; simpl; first [assumption|reflexivity]. Qed.

(** ** Terms *)

Lemma disk_meta_ok h h1 n d t v c :
  disk_ok h n d → 1 ≤ t → t = p_term (peer h1 n) → v = p_vote (peer h1 n) →
  p_log (peer h1 n) = p_log (peer h n) → c = Z.of_nat (p_commit (peer h1 n)) → (p_commit (peer h n) ≤ p_commit (peer h1 n))%nat →
  disk_ok h1 n (d_with_meta d t v c).
Proof.
  intros [] Ht1 Ht Hv Hl Hc Hle.
  constructor; unfold d_index, d_index_term in *; simpl; rewrite ?Hl; try done; lia.
Qed.

Lemma outbox_mono h h1 n a :
  sound h → extends n h h1 → (∀ rpc, rpc ∈ outbox a → rpc_ok h n rpc) → ∀ rpc, rpc ∈ outbox a → rpc_ok h1 n rpc.
Proof. intros Hs E Ho rpc Hr. apply (rpc_ok_mono n h h1); [apply Hs|exact E|by apply Ho]. Qed.

Lemma tracked_mono h h1 n ls :
  extends n h h1 → p_term (peer h1 n) = p_term (peer h n) → (length (p_log (peer h n)) ≤ length (p_log (peer h1 n)))%nat →
  tracked h n ls → tracked h1 n ls.
Proof.
  intros E Ht Hl [Hm Hx]. split.
  - intros m i Hi. destruct (Hm m i Hi) as [? [?|Ha]]; (split; [done|]); [by left|right]. rewrite Ht. by eapply acked_mono.
  - intros m i Hi. specialize (Hx m i Hi). lia.
Qed.

(** A move within the term that keeps the role. *)
Lemma volatile_mono h h1 n a st :
  sound h → extends n h h1 → p_term (peer h1 n) = p_term (peer h n) → p_role (peer h1 n) = p_role (peer h n) →
  (length (p_log (peer h n)) ≤ length (p_log (peer h1 n)))%nat →
  st = replay (take (p_commit (peer h1 n)) (p_log (peer h1 n))) → volatile h n a → volatile h1 n (set_state st a).
Proof.
  intros Hs E Ht Hr Hl Hst V. destruct V. constructor; simpl; rewrite ?Ht, ?Hr; try done.
  - intros Hc m Hm. destruct (vo_votes Hc m Hm) as [? Hv]. split; [done|]. by eapply voted_mono.
  - intros ls Hlead Els. eapply tracked_mono; eauto.
  - by apply (outbox_mono h).
Qed.

(** The member falls back to follower in a term that is not lower. *)
Lemma fall_back h n t : sound h → p_term (peer h n) ≤ t →
  ∃ h1, spec_step mems h n h1 ∧ small h1 ∧ extends n h h1 ∧
    peer h1 n = mkPeer t (if p_term (peer h n) <? t then None else p_vote (peer h n)) Follower (p_log (peer h n)) (p_commit (peer h n)).
Proof.
  intros Hs Ht. destruct (Z.ltb_spec (p_term (peer h n)) t) as [Hlt|Hge].
  - exists (set_peer h n (with_term (peer h n) t None Follower)).
    assert (Hst : spec_step mems h n (set_peer h n (with_term (peer h n) t None Follower))) by by apply spec_raise.
    split_and!; [done|by apply (small_same h); [|apply Hs]|eapply spec_step_extends; [apply Hs|done]|by member].
  - exists (set_peer h n (with_role (peer h n) Follower)).
    assert (Hst : spec_step mems h n (set_peer h n (with_role (peer h n) Follower))) by apply spec_follow.
    split_and!; [done|by apply (small_same h); [|apply Hs]|eapply spec_step_extends; [apply Hs|done]|].
    member. unfold with_role. f_equal. lia.
Qed.

(** A healthy actor that falls back, in memory only. *)
Definition fallen (a : ShardActor) (t : Z) (v : option string) : ShardActor :=
  set_votes ∅ (set_leader None (set_role Follower (set_voted_for v (set_current_term t a)))).

Lemma fallen_healthy h h1 n a s s' d :
  sound h → healthy h n a → extends n h h1 → p_role (peer h1 n) = Follower → p_log (peer h1 n) = p_log (peer h n) →
  p_commit (peer h1 n) = p_commit (peer h n) → 1 ≤ p_term (peer h1 n) →
  store a = Some s → mirrors a d → disk_ok h1 n (d_with_meta d (p_term (peer h1 n)) (p_vote (peer h1 n)) (commit_index a)) →
  stored s' (d_with_meta d (p_term (peer h1 n)) (p_vote (peer h1 n)) (commit_index a)) →
  healthy h1 n (set_store (Some s') (fallen a (p_term (peer h1 n)) (p_vote (peer h1 n)))).
Proof.
  intros Hs (Hf & Hv & _) E Hr Hl Hc Ht1 Hst M D1 Hst'. split_and!; [done| |].
  - destruct Hv. constructor; simpl; rewrite ?Hl, ?Hc; try done. apply (outbox_mono h); done.
  - eexists s', _. split_and!; [done|exact Hst'| |exact D1]. destruct M.
    constructor; unfold d_index, d_index_term in *; simpl; try done; lia.
Qed.

Lemma step_down_shape e term to a :
  current_term a ≤ term →
  ∃ a1, core a1 = core (fallen a term (if current_term a <? term then None else voted_for a)) ∧
    step_down e term to a =
      (let '(a, ok) := persist_hard_state a1 in
       if negb ok then fail_storage "persisting higher term while stepping down" a
       else fail_pending (reset_election_deadline e a)).
Proof.
  intros Hge. unfold step_down. rewrite (proj2 (Z.ltb_ge _ _) Hge). eexists. split; [|reflexivity].
  pose proof (core_fields _ _ (core_transfer (role a) Follower a)) as C. rewrite (sc_term _ _ C). apply same_core_core. destruct C.
  destruct (Z.ltb_spec (current_term a) term); constructor; simpl; try done. lia.
Qed.

Lemma step_down_ok e term to h n a :
  sound h → healthy h n a → reaches h n (λ h', coupled h' n (step_down e term to a)).
Proof.
  intros Hs Hh. destruct (decide (current_term a ≤ term)) as [Hge|Hlt]; last first.
  { unfold step_down. rewrite (proj2 (Z.ltb_lt _ _)) by lia. apply reaches_here; [done|by left]. }
  destruct (step_down_shape e term to a Hge) as (a1 & Hcore & ->).
  pose proof (healthy_view _ _ _ Hs Hh) as V. pose proof Hh as (_ & Hv & s & d & Hst & Hsd & M & D).
  rewrite (vw_term _ _ _ V), (vw_vote _ _ _ V) in *. destruct (fall_back h n term Hs Hge) as (h1 & Hstep & Hsm & E & Hp).
  assert (Hc1 : core a1 = core (fallen a (p_term (peer h1 n)) (p_vote (peer h1 n)))) by by rewrite Hp.
  destruct (core_fields _ _ Hc1) as [_ _ _ _ Et Ev _ _ _ _ Ec _ Es _ _ _ _ Eo _]. simpl in *. rewrite Hst in Es.
  assert (Ht1 : 1 ≤ p_term (peer h1 n)) by (rewrite Hp; simpl; pose proof (si_peer _ _ (so_inv _ Hs) n) as (? & _); lia).
  assert (Hd1 : disk_ok h1 n (d_with_meta d (current_term a1) (voted_for a1) (commit_index a1))).
  { apply (disk_meta_ok h); rewrite ?Et, ?Ev, ?Ec, ?Hp; simpl; try done; [by rewrite Hp in Ht1|apply V]. }
  assert (Hreach : reaches h n (λ h', disk_ok h' n (d_with_meta d (current_term a1) (voted_for a1) (commit_index a1)))).
  { eapply reaches_step; [done|exact Hstep|done|]. intros. by apply reaches_here. }
  destruct (meta_landed h n a1 s d Hs Es Hsd D (commit_index a1) Hreach) as (s' & Es' & Hout).
  unfold persist_hard_state. destruct (persist_hard_state_at _ a1) as [a2 ok]. simpl in Es', Hout. subst a2. destruct ok; simpl.
  - eapply reaches_step; [done|exact Hstep|done|]. intros S1. apply reaches_here; [done|]. left.
    eapply healthy_core; [rewrite core_fail_pending; apply core_reset|].
    eapply (healthy_core _ _ (set_store (Some s') (fallen a (p_term (peer h1 n)) (p_vote (peer h1 n))))).
    + by apply core_set_store.
    + rewrite Et, Ev, Ec in *. apply (fallen_healthy h h1 n a s s' d); try done; by rewrite Hp.
  - eapply failed_write; [done| |done|done]. simpl. rewrite Eo. apply (vo_outbox _ _ _ Hv).
Qed.

Lemma become_follower_ok e to h n a :
  sound h → healthy h n a → reaches h n (λ h', healthy h' n (become_follower_of e to a) ∧ p_term (peer h' n) = p_term (peer h n)).
Proof.
  intros Hs Hh. pose proof (healthy_view _ _ _ Hs Hh) as V.
  set (h1 := set_peer h n (with_role (peer h n) Follower)). assert (Hstep : spec_step mems h n h1) by apply spec_follow.
  eapply reaches_step; [done|exact Hstep|by apply (small_same h); [|apply Hs]|]. intros S1. apply reaches_here; [done|].
  split; [|by unfold h1; member]. eapply healthy_core.
  { unfold become_follower_of. rewrite core_fail_pending, core_reset. instantiate (1 := set_votes ∅ (set_leader None (set_role Follower a))).
    pose proof (core_fields _ _ (core_transfer (role a) Follower a)) as C. destruct C. apply same_core_core.
    constructor; simpl; first [assumption|reflexivity]. }
  destruct Hh as (Hf & Hv & s & d & Hst & Hsd & M & D). split_and!; [done| |exists s, d; split_and!; try done].
  - destruct Hv. constructor; unfold h1; member; done.
  - by destruct M; constructor.
  - destruct D. constructor; unfold h1; member; done.
Qed.

(** ** Applying *)

Lemma replay_snoc l e : replay (l ++ [e]) = replay_entry (replay l) e.
Proof. unfold replay. by rewrite foldl_app. Qed.

Lemma replay_take_S l j e : l !! j = Some e → replay (take (S j) l) = replay_entry (replay (take j l)) e.
Proof. intros He. by rewrite (take_S_r _ _ _ He), replay_snoc. Qed.

Definition applied_to (a : ShardActor) (st : mstate) (i : Z) : ShardActor := set_state st (set_last_applied i a).

Lemma apply_entry_core i entry a completed :
  core (apply_entry i entry a completed).1 = core (applied_to a (replay_entry (state a) entry) i).
Proof.
  unfold apply_entry, replay_entry. destruct (e_command entry) as [command|]; [|done]. simpl.
  destruct (machine_apply (state a) command (e_proposed_at_ms entry)) as [st r]. simpl.
  set (a1 := publish_change _ _ _ _). assert (C : core a1 = core (applied_to a st i)).
  { unfold a1. rewrite core_publish. done. }
  destruct (pending a1 !! i); simpl; [|done]. rewrite <- C. done.
Qed.

Lemma core_applied_to a a' st i : core a = core a' → core (applied_to a st i) = core (applied_to a' st i).
Proof. intros C. apply core_fields in C. destruct C. apply same_core_core. constructor; simpl; first [assumption|reflexivity]. Qed.

Lemma apply_loop_ok l i fuel : ∀ a completed j,
  0 ≤ snapshot_index a ≤ Z.of_nat j → log a = drop (Z.to_nat (snapshot_index a)) l → last_applied a = Z.of_nat j →
  state a = replay (take j l) → commit_index a = Z.of_nat i → (j ≤ i ≤ length l)%nat → Z.of_nat (length l) ≤ U64_MAX → (i - j ≤ fuel)%nat →
  ∃ a' completed', apply_loop fuel a completed = (a', completed', None) ∧ core a' = core (applied_to a (replay (take i l)) (Z.of_nat i)).
Proof.
  induction fuel as [|fuel IH]; intros a completed j Hk Hlog Hj Hst Hc Hji Hfit Hfuel.
  - assert (j = i) as -> by lia. exists a, completed. simpl. rewrite Hc, Hj, Z.leb_refl. split; [done|].
    apply same_core_core. constructor; simpl; done.
  - simpl. rewrite Hc, Hj. destruct (Z.leb_spec (Z.of_nat i) (Z.of_nat j)) as [Hle|Hgt].
    + assert (j = i) as -> by lia. exists a, completed. split; [done|]. apply same_core_core. constructor; simpl; done.
    + assert (Hadd : checked_add (Z.of_nat j) 1 = Some (Z.of_nat j + 1)) by (apply checked_add_Some; split; [done|lia]).
      rewrite Hadd. destruct (lookup_lt_is_Some_2 l j) as [entry He]; [lia|].
      assert (Hentry : committed_entry a (Z.of_nat j + 1) = Some entry).
      { unfold committed_entry, get_entry. destruct (Z.ltb_spec (Z.of_nat j + 1 - snapshot_index a - 1) 0); [lia|].
        rewrite Hlog, lookup_drop. rewrite <- He. f_equal. lia. }
      rewrite Hentry. destruct (apply_entry _ entry a completed) as [a1 c1] eqn:Ha.
      assert (C1 : core a1 = core (applied_to a (replay (take (S j) l)) (Z.of_nat (S j)))).
      { rewrite (replay_take_S _ _ _ He), <- Hst. replace (Z.of_nat (S j)) with (Z.of_nat j + 1) by lia.
        rewrite <- (apply_entry_core _ _ _ completed). by rewrite Ha. }
      pose proof (core_fields _ _ C1) as F. destruct F; simpl in *.
      destruct (IH a1 c1 (S j)) as (a' & c' & E & C'); rewrite ?sc_index, ?sc_log, ?sc_commit; try done; try lia.
      exists a', c'. split; [done|]. rewrite C'. rewrite (core_applied_to _ _ _ _ C1). done.
Qed.

(** ** Compaction *)

Definition compacted (a : ShardActor) (i t : Z) (bytes : string) (l : list LogEntry) (s : ShardStore) : ShardActor :=
  set_snapshot_state bytes (set_snapshot_term t (set_snapshot_index i (set_log l (set_store (Some s) a)))).

Lemma maybe_compact_ok h n a :
  sound h → healthy h n a → reaches h n (λ h', coupled h' n (maybe_compact a)).
Proof.
  intros Hs Hh. pose proof (healthy_view _ _ _ Hs Hh) as V. pose proof Hh as (Hf & Hv & s & d & Hst & Hsd & M & D).
  unfold maybe_compact. assert (Happ : last_applied a = Z.of_nat (p_commit (peer h n))) by (rewrite (vo_applied _ _ _ Hv); apply V).
  assert (Hsame : reaches h n (λ h', coupled h' n a)) by (apply reaches_here; [done|by left]).
  rewrite Happ. destruct ((_ =? 0) || _) eqn:Hthr; [done|]. bools.
  assert (Hpos : snapshot_index a < Z.of_nat (p_commit (peer h n))).
  { pose proof (vo_timing _ _ _ Hv). unfold sat_sub in *. lia. }
  destruct (machine_snapshot (state a)) as [bytes|] eqn:Hsnap; [|done].
  rewrite (view_term_at _ _ _ _ V) by lia. rewrite Nat2Z.id. set (i := p_commit (peer h n)) in *. set (l := p_log (peer h n)) in *.
  assert (Hrem : drop (Z.to_nat (sat_sub (Z.of_nat i) (snapshot_index a))) (log a) = drop i l).
  { rewrite (vw_log _ _ _ V), drop_drop. f_equal. unfold sat_sub. pose proof (vw_index _ _ _ V). lia. }
  rewrite Hrem. set (p := mkPersisted (Z.of_nat i) (log_term l i) bytes).
  assert (Hd1 : disk_ok h n (d_with_snapshot d p (drop i l))).
  { destruct D. constructor; unfold d_index, d_index_term in *; simpl; rewrite ?Nat2Z.id; fold i l; try done; try lia.
    intros p' [= <-]. simpl. intros st Hr. pose proof (restores_same _ _ _ Hsnap Hr) as ->. apply (vo_state _ _ _ Hv). }
  assert (Hr1 : reaches h n (λ h', disk_ok h' n (d_with_snapshot d p (drop i l)))) by by apply reaches_here.
  destruct (snapshot_landed h n a s d Hs Hst Hsd D p (drop i l)) as (s' & Es & Hout); simpl; try done; try lia.
  { destruct M. rewrite <- mi_index. lia. }
  { pose proof (vw_index _ _ _ V). lia. }
  { intros _. destruct M. rewrite <- mi_log, <- mi_index. rewrite (vw_log _ _ _ V), drop_drop.
    replace (Z.to_nat (snapshot_index a) + Z.to_nat (Z.of_nat i - snapshot_index a))%nat with i by (pose proof (vw_index _ _ _ V); lia).
    done. }
  destruct (persist_snapshot _ _ _) as [a1 ok]. simpl in Es, Hout. subst a1. destruct ok; simpl.
  - apply reaches_here; [done|]. left. change (healthy h n (compacted a (Z.of_nat i) (log_term l i) bytes (drop i l) s')).
    split_and!; [done| |exists s', (d_with_snapshot d p (drop i l)); split_and!; try done].
    + by destruct Hv; constructor.
    + destruct M. constructor; unfold d_index, d_index_term in *; simpl; try done.
      rewrite mi_commit. destruct D. unfold d_index in *. simpl in *. fold i in do_commit. lia.
  - eapply failed_write; [done| |done|done]. apply (vo_outbox _ _ _ Hv).
Qed.

(** ** Committing *)

Lemma coupled_reaches_core h n a a' :
  core a' = core a → reaches h n (λ h', coupled h' n a) → reaches h n (λ h', coupled h' n a').
Proof. intros C. apply reaches_mono. intros h' _. by apply coupled_core. Qed.

Lemma apply_committed_ok e h n a j :
  sound h → healthy h n (applied_to a (replay (take (p_commit (peer h n)) (p_log (peer h n)))) (Z.of_nat (p_commit (peer h n)))) →
  last_applied a = Z.of_nat j → snapshot_index a ≤ Z.of_nat j → (j ≤ p_commit (peer h n))%nat → state a = replay (take j (p_log (peer h n))) →
  reaches h n (λ h', coupled h' n (apply_committed e a)).
Proof.
  intros Hs Hh Hj Hk Hle Hst. pose proof (healthy_view _ _ _ Hs Hh) as V. destruct V; simpl in *.
  destruct (si_commit _ _ (so_inv _ Hs) n) as [Hcl _]. unfold apply_committed.
  destruct (apply_loop_ok (p_log (peer h n)) (p_commit (peer h n)) (Z.to_nat (commit_index a - last_applied a)) a [] j)
    as (a1 & cs & -> & C); try done; try lia.
  assert (Hh1 : healthy h n a1) by by eapply healthy_core.
  eapply reaches_bind; [done|by apply maybe_compact_ok|]. intros h1 S1 E1 Hc. apply reaches_here; [done|].
  destruct (is_faulty (maybe_compact a1)); (eapply coupled_core; [|exact Hc]); [apply core_fail_completed|apply core_complete].
Qed.

Lemma commit_to_ok e op h n a t i :
  sound h → healthy h n a → t ≤ p_term (peer h n) → (p_commit (peer h n) ≤ i ≤ length (p_log (peer h n)))%nat →
  committed_by mems h t (take i (p_log (peer h n))) →
  reaches h n (λ h', coupled h' n (commit_to e op (Z.of_nat i) a)).
Proof.
  intros Hs Hh Ht Hi Hc. pose proof (healthy_view _ _ _ Hs Hh) as V. pose proof Hh as (Hf & Hv & s & d & Hst & Hsd & M & D).
  set (h1 := set_peer h n (with_commit (peer h n) i)).
  assert (Hstep : spec_step mems h n h1) by (by apply (spec_commit _ _ _ t)).
  assert (Hsm : small h1) by (apply (small_same h); [done|apply Hs]).
  assert (Hd1 : disk_ok h1 n (d_with_meta d (current_term a) (voted_for a) (Z.of_nat i))).
  { apply (disk_meta_ok h); unfold h1; member; try done; try lia; try apply V.
    rewrite (vw_term _ _ _ V). apply (si_peer _ _ (so_inv _ Hs) n). }
  assert (Hreach : reaches h n (λ h', disk_ok h' n (d_with_meta d (current_term a) (voted_for a) (Z.of_nat i)))).
  { eapply reaches_step; [done|exact Hstep|done|]. intros. by apply reaches_here. }
  destruct (meta_landed h n a s d Hs Hst Hsd D (Z.of_nat i) Hreach) as (s' & Es & Hout).
  unfold commit_to. destruct (persist_hard_state_at _ a) as [a1 ok]. simpl in Es, Hout. subst a1. destruct ok; simpl; last first.
  { eapply failed_write; [done| |done|done]. apply (vo_outbox _ _ _ Hv). }
  eapply reaches_step; [done|exact Hstep|done|]. intros S1.
  eapply (apply_committed_ok e h1 n _ (p_commit (peer h n))); simpl; unfold h1; member; try done; try lia.
  - split_and!; [done| |eexists s', _; split_and!; [done|exact Hout| |exact Hd1]].
    + assert (Hv1 : volatile h n (set_state (state a) (set_store (Some s') (set_commit_index (Z.of_nat i) (set_last_applied (Z.of_nat i) a)))))
        by (by destruct Hv; constructor).
      apply (volatile_mono h h1 _ _ (replay (take i (p_log (peer h n))))) in Hv1;
        [|done|by eapply spec_step_extends, Hstep; apply Hs|by unfold h1; member..].
      by destruct Hv1; constructor.
    + destruct M. constructor; unfold d_index, d_index_term in *; simpl; try done; try lia.
      pose proof (do_index _ _ _ D). unfold d_index in *. lia.
  - rewrite (vo_applied _ _ _ Hv). apply V.
  - apply V.
  - apply (vo_state _ _ _ Hv).
Qed.
End methods.
