(* ===== verification/RaftLeading.v ===== *)
(** The leader's side keeps the coupling: batches, bookkeeping, commits by
    quorum, and elections. *)

From stdpp Require Import functions.
From S2P Require Import Prelude Json Text Command StateMachine RaftTypes RaftSpec RaftConfig RaftCallback Persist PersistTheorems ShardActor RaftCoupling RaftMethods.

(** ** Batches *)

Section batches.
Context `{DiskFormat, Machine, Wire}.

Lemma with_entries_twice req l l' : with_entries (with_entries req l) l' = with_entries req l'.
Proof. done. Qed.

Lemma fill_batch_prefix req suffix limit :
  ∃ m, m `prefix_of` suffix ∧ fill_batch req suffix limit = with_entries req (ar_entries req ++ m).
Proof.
  revert req. induction suffix as [|entry suffix IH]; intros req; simpl.
  - exists []. split; [done|]. rewrite app_nil_r. by destruct req.
  - case_goal.
    + case_goal.
      * exists []. split; [apply prefix_nil|]. rewrite app_nil_r. by destruct req.
      * exists [entry]. split; [by apply prefix_cons, prefix_nil|done].
    + destruct (IH (with_entries req (ar_entries req ++ [entry]))) as (m & Hm & ->). exists (entry :: m).
      split; [by apply prefix_cons|]. rewrite with_entries_twice. f_equal. simpl. by rewrite <- app_assoc.
Qed.

Lemma appendable_prefix suffix p q : appendable_protocol_prefix suffix p q `prefix_of` suffix.
Proof.
  induction suffix as [|entry suffix IH]; simpl; [done|]. case_goal; [by apply prefix_cons|apply prefix_nil].
Qed.

(** A batch is a piece of the suffix it is cut from, with the header it was given. *)
Lemma bounded_append_entries req suffix limit bytes :
  ∃ m, m `prefix_of` suffix ∧ bounded_append_request req suffix limit bytes = with_entries req m.
Proof.
  unfold bounded_append_request. destruct (fill_batch_prefix (with_entries req []) (take (Z.to_nat (Z.max limit 1)) suffix) (Z.max bytes 1))
    as (m & Hm & ->). exists m. split; [|done]. etrans; [exact Hm|apply prefix_take].
Qed.

Lemma prefix_segment {A} (m L : list A) p : m `prefix_of` drop p L → m ≠ [] ∨ (p ≤ length L)%nat →
  (p + length m ≤ length L)%nat ∧ m = drop p (take (p + length m) L).
Proof.
  intros [x E] Hp. assert (Hlen : (length m + length x = length L - p)%nat) by (rewrite <- length_app, <- E; apply length_drop).
  assert (Hle : (p + length m ≤ length L)%nat).
  { destruct Hp as [Hne|]; [|lia]. destruct m; [done|]. simpl in *. lia. }
  split; [done|]. rewrite skipn_firstn_comm, E. replace (p + length m - p)%nat with (length m) by lia. by rewrite take_app_length.
Qed.
End batches.

Section leading.
Context `{DiskFormat, !DiskLaws, Machine, !MachineLaws, Wire, Group}.

Ltac member := simpl; rewrite ?fn_lookup_insert; simpl.

(** ** Sending *)

(** Leader bookkeeping only lives in a leader. *)
Definition ready (a : ShardActor) : Prop := leader a = None ∨ role a = Leader.

Lemma persist_meta_only c a a1 ok : persist_hard_state_at c a = (a1, ok) → ∃ s, a1 = set_store s a.
Proof.
  unfold persist_hard_state_at. destruct (store a) as [s|] eqn:E.
  - destruct (save_meta _ _ _ _) as [s1 ok1]. intros [= <- <-]. eauto.
  - intros [= <- <-]. exists None. destruct a. simpl in *. by subst.
Qed.

Lemma step_down_ready e term to a : role a = Leader → ready (step_down e term to a).
Proof.
  intros Hr. destruct (decide (current_term a ≤ term)) as [Hle|Hgt].
  - destruct (step_down_shape e term to a Hle) as (a1 & C & ->). apply core_fields, sc_leader in C. simpl in C.
    left. unfold persist_hard_state. destruct (persist_hard_state_at _ _) as [a2 ok] eqn:Hp.
    apply persist_meta_only in Hp as [s ->]. destruct ok; simpl; [|done].
    change (leader (reset_election_deadline e (set_store s a1)) = None).
    by rewrite (sc_leader _ _ (core_fields _ _ (core_reset e _))).
  - right. unfold step_down. by rewrite (proj2 (Z.ltb_lt _ _)) by lia.
Qed.

Lemma commit_ok_prefix h t L i j : commit_ok h t L i → (j ≤ i)%nat → commit_ok h t L j.
Proof.
  intros [Hi [->|(t' & Ht & c & L' & k & Q & HL & HQ & Ha & Hk & Hpre)]] Hj; (split; [lia|]); [left; lia|right].
  exists t'. split; [done|]. exists c, L', k, Q. split_and!; try done. etrans; [|exact Hpre].
  rewrite <- (Nat.min_l j i), <- firstn_firstn by lia. apply prefix_take.
Qed.

Lemma leader_commit_ok h n : sound h → p_role (peer h n) = Leader →
  leads h !! p_term (peer h n) = Some (n, p_log (peer h n)) ∧ commit_ok h (p_term (peer h n)) (p_log (peer h n)) (p_commit (peer h n)).
Proof. intros [I _] Hr. split; [by apply (si_leader _ _ I)|]. apply (si_commit _ _ I). Qed.

Lemma append_request_ok e h n a next protocol :
  sound h → healthy h n a → role a = Leader → snapshot_index a < next ≤ Z.of_nat (length (p_log (peer h n))) + 1 →
  append_req_ok h n (append_request e a next protocol).
Proof.
  intros Hs Hh Hr Hnext. pose proof (healthy_view _ _ _ Hs Hh) as V. destruct Hh as (_ & Hv & _).
  rewrite (vo_role _ _ _ Hv) in Hr. destruct (leader_commit_ok h n Hs Hr) as [HL Hc]. unfold append_request.
  destruct (bounded_append_entries (mkAppendReq (current_term a) (node_id a) (next - 1) (term_at a (next - 1)) [] (commit_index a) CURRENT_COMMAND_PROTOCOL)
    (appendable_protocol_prefix (drop (Z.to_nat (sat_sub (next - 1) (snapshot_index a))) (log a)) protocol (machine_protocol (state a)))
    (max_entries e) (max_bytes e)) as (m & Hm & ->).
  pose proof (vw_index _ _ _ V) as Hidx.
  assert (Hseg : m `prefix_of` drop (Z.to_nat (next - 1)) (p_log (peer h n))).
  { etrans; [exact Hm|]. etrans; [apply appendable_prefix|]. rewrite (vw_log _ _ _ V), drop_drop.
    replace (Z.to_nat (snapshot_index a) + Z.to_nat (sat_sub (next - 1) (snapshot_index a)))%nat with (Z.to_nat (next - 1))
      by (unfold sat_sub; lia). done. }
  apply prefix_segment in Hseg as [Hlen Hseg]; [|right; lia].
  split_and!; simpl; [apply (vo_node _ _ _ Hv)|lia|]. exists (p_log (peer h n)). rewrite (vw_term _ _ _ V).
  split_and!; [done|done|done|apply (view_term_at _ _ _ _ V); lia|]. exists (p_commit (peer h n)). split; [apply V|done].
Qed.

Lemma snapshot_request_ok h n a :
  sound h → healthy h n a → role a = Leader → 1 ≤ snapshot_index a → snapshot_req_ok h n (snapshot_request a).
Proof.
  intros Hs Hh Hr Hpos. pose proof (healthy_view _ _ _ Hs Hh) as V. destruct Hh as (_ & Hv & _).
  rewrite (vo_role _ _ _ Hv) in Hr. destruct (leader_commit_ok h n Hs Hr) as [HL Hc].
  pose proof (vw_index _ _ _ V) as Hidx. split; [apply (vo_node _ _ _ Hv)|].
  exists (p_log (peer h n)), (Z.to_nat (snapshot_index a) - 1)%nat. simpl. rewrite (vw_term _ _ _ V).
  replace (S (Z.to_nat (snapshot_index a) - 1)) with (Z.to_nat (snapshot_index a)) by lia.
  split_and!; [done|lia| |by eapply commit_ok_prefix; [exact Hc|lia]|apply (vw_bytes _ _ _ V); lia].
  rewrite (vw_index_term _ _ _ V). destruct (Z.to_nat (snapshot_index a)) as [|k] eqn:E; [lia|]. simpl.
  by replace (k - 0)%nat with k by lia.
Qed.

(** New bookkeeping and one more request. *)
Lemma healthy_send h n a ls ls' rpc :
  healthy h n a → role a = Leader → leader a = Some ls → match_index ls' = match_index ls → next_index ls' = next_index ls →
  rpc_ok h n rpc → healthy h n (send rpc (set_leader (Some ls') a)).
Proof.
  intros (Hf & Hv & s & d & Hst & Hsd & M & D) Hr Hl Em En Hrpc.
  split_and!; [done| |exists s, d; split_and!; [done|done|by destruct M; constructor|done]].
  destruct Hv. constructor; simpl; try done.
  - intros ls1 _ [= <-]. unfold tracked. rewrite Em, En. by apply vo_leader.
  - intros r [Hin|Hin]%elem_of_app; [by apply vo_outbox|]. by apply list_elem_of_singleton in Hin as ->.
Qed.

Lemma send_append_ok e p h n a :
  sound h → coupled h n a → ready a → reaches h n (λ h', coupled h' n (send_append_to e p a)).
Proof.
  intros Hs Hc Hrd. assert (Hsame : reaches h n (λ h', coupled h' n a)) by by apply reaches_here.
  unfold send_append_to. destruct (bool_decide (p ∈ peers a)) eqn:Hp; [|done]. bools. simpl.
  destruct (leader a) as [ls|] eqn:Hl; [|done]. destruct Hrd as [?|Hr]; [congruence|].
  destruct Hc as [Hh|(_ & Hfr & _)]; [|congruence].
  destruct (default false _); [done|]. destruct (checked_add (request_sequence ls) 1) as [sequence|]; [|by apply step_down_ok].
  pose proof Hh as (_ & Hv & _). pose proof (healthy_view _ _ _ Hs Hh) as V. destruct (vo_leader _ _ _ Hv ls Hr Hl) as [_ Hnext].
  assert (Hnx : 1 ≤ default 1 (next_index ls !! p) ≤ Z.of_nat (length (p_log (peer h n))) + 1).
  { destruct (next_index ls !! p) as [i|] eqn:Ei; simpl; [by eapply Hnext|lia]. }
  rewrite (vo_peers _ _ _ Hv) in Hp. apply reaches_here; [done|]. left.
  set (ls' := set_in_flight _ _). change (snapshot_index (set_leader (Some ls') a)) with (snapshot_index a).
  change (next_index _) with (next_index ls). change (protocol_of (set_pending_requests _ _) p) with (protocol_of ls p).
  destruct (Z.leb_spec (default 1 (next_index ls !! p)) (snapshot_index a)) as [Hle|Hgt].
  - apply (healthy_send h n a ls ls'); try done. split; [done|]. split; [|done].
    apply (snapshot_request_ok h n a Hs Hh Hr). lia.
  - apply (healthy_send h n a ls ls'); try done. split; [done|]. split.
    + apply (append_request_ok e h n a _ _ Hs Hh Hr). lia.
    + destruct (append_request_ok e h n a _ (protocol_of ls p) Hs Hh Hr (conj Hgt (proj2 Hnx))) as (_ & Hpos & L & HL & Hj & _).
      apply (so_small _ Hs) in HL. change (append_request e (set_leader (Some ls') a)) with (append_request e a).
      unfold sat_add. lia.
Qed.

Lemma send_ready e p a : ready a → ready (send_append_to e p a).
Proof.
  intros Hr. unfold send_append_to. case_goal; [done|]. destruct (leader a) as [ls|] eqn:Hl; [|by left].
  destruct Hr as [?|Hr]; [congruence|]. case_goal; [by right|]. case_goal; [|by apply step_down_ready]. by case_goal; right.
Qed.

Lemma broadcast_ok e h n a :
  sound h → coupled h n a → ready a → reaches h n (λ h', coupled h' n (broadcast_append_entries e a)).
Proof.
  intros Hs Hc Hr. unfold broadcast_append_entries. case_goal; [|by apply reaches_here]. generalize (peers a). clear Heqb.
  intros l. revert h a Hs Hc Hr. induction l as [|p l IH]; intros h a Hs Hc Hr; simpl; [by apply reaches_here|].
  eapply reaches_bind; [done|by apply (send_append_ok e p)|]. intros h1 S1 _ Hc1. apply IH; [done|done|by apply send_ready].
Qed.

(** ** Commit by quorum *)

#[local] Instance ge_total : Total Z.ge.
Proof. intros x y. lia. Qed.
#[local] Instance ge_trans : Transitive Z.ge.
Proof. intros x y z. lia. Qed.

(** The element at position [i] of the descending list is reached by [i + 1]
    elements. *)
Lemma sorted_count (l : list Z) (i : nat) (x : Z) :
  merge_sort Z.ge l !! i = Some x → (i < length (filter (λ y, (x ≤ y)%Z) l))%nat.
Proof.
  intros Hi. assert (Hperm : merge_sort Z.ge l ≡ₚ l) by apply merge_sort_Permutation.
  assert (Hsort : StronglySorted Z.ge (merge_sort Z.ge l)) by (apply Sorted_StronglySorted, Sorted_merge_sort; apply _).
  rewrite <- (filter_Permutation (λ y, x ≤ y) _ _ Hperm). revert Hsort Hi. generalize (merge_sort Z.ge l). clear Hperm l.
  intros l. revert i. induction l as [|y l IH]; intros i Hsort Hi; [done|].
  inversion Hsort as [|? ? Hl Hy]; subst. rewrite Forall_forall in Hy. destruct i as [|i]; simpl in Hi.
  - injection Hi as ->. rewrite filter_cons, decide_True by lia. simpl. lia.
  - specialize (IH i Hl Hi). rewrite filter_cons, decide_True; [simpl; lia|].
    apply Z.ge_le, Hy. by eapply list_elem_of_lookup_2.
Qed.

Lemma elem_of_others m n : m ∈ others n ↔ m ≠ n ∧ m ∈ group.
Proof. unfold others. by rewrite list_elem_of_filter. Qed.

Lemma elem_of_mems m : m ∈ mems ↔ m ∈ group.
Proof. unfold mems. by rewrite elem_of_list_to_set. Qed.

Lemma size_mems : size mems = length group.
Proof. unfold mems. rewrite size_list_to_set; [done|apply group_distinct]. Qed.

Lemma quorum_of_count n (f : string → Z) (x own : Z) :
  n ∈ group → (length group / 2 < length (filter (λ y, (x ≤ y)%Z) (own :: (f <$> others n))))%nat →
  ∃ Q, quorum mems Q ∧ ∀ m, m ∈ Q → m = n ∨ m ∈ others n ∧ x ≤ f m.
Proof.
  intros Hn Hcount. set (l := filter (λ m, x ≤ f m) (others n)).
  assert (Hl : ∀ m, m ∈ l → m ≠ n ∧ m ∈ group ∧ x ≤ f m).
  { intros m [Hx [? ?]%elem_of_others]%list_elem_of_filter. done. }
  exists (list_to_set (n :: l)). split.
  - split.
    + intros m Hm. apply elem_of_list_to_set, elem_of_cons in Hm as [->|Hm]; apply elem_of_mems; [done|by apply Hl].
    + rewrite size_mems, size_list_to_set; last first.
      { constructor; [by intros [? _]%Hl|]. by apply NoDup_filter, NoDup_filter, group_distinct. }
      assert (Hf : length (filter (λ y, x ≤ y) (f <$> others n)) = length l).
      { unfold l. clear. induction (others n) as [|m k IH]; [done|]. rewrite fmap_cons, !filter_cons. repeat case_decide; simpl; congruence. }
      rewrite filter_cons in Hcount. pose proof (Nat.div_mod_eq (length group) 2). pose proof (Nat.mod_upper_bound (length group) 2 ltac:(lia)).
      case_decide; simpl in *; lia.
  - intros m Hm. apply elem_of_list_to_set, elem_of_cons in Hm as [->|Hm]; [by left|right].
    destruct (Hl m Hm) as (? & ? & ?). split; [by apply elem_of_others|done].
Qed.

(** The index the leader counts is held by a quorum. *)
Lemma candidate_quorum h n a :
  sound h → healthy h n a → 0 < commit_candidate a →
  ∃ Q, quorum mems Q ∧ ∀ m, m ∈ Q → m = n ∨ ∃ ls i, leader a = Some ls ∧ match_index ls !! m = Some i ∧ commit_candidate a ≤ i.
Proof.
  intros Hs Hh Hpos. pose proof Hh as (_ & Hv & _).
  set (x := default 0 (match_indices a !! (majority a - 1)%nat)).
  assert (Hx : commit_candidate a ≤ x).
  { unfold commit_candidate. fold x. case_goal; [|lia]. case_goal; lia. }
  assert (Hsome : match_indices a !! (majority a - 1)%nat = Some x).
  { unfold x. destruct (match_indices a !! _) as [y|] eqn:E; [done|]. exfalso. simpl in x. lia. }
  assert (Hmaj : majority a = S (length group / 2)) by (unfold majority; rewrite (vo_members _ _ _ Hv); lia).
  unfold match_indices in Hsome. apply sorted_count in Hsome. rewrite Hmaj, Nat.sub_1_r, Nat.pred_succ in Hsome.
  rewrite (vo_peers _ _ _ Hv) in Hsome. destruct (leader a) as [ls|] eqn:Hl.
  - destruct (quorum_of_count n (λ p, default 0 (match_index ls !! p)) x (last_log_index a) (vo_member _ _ _ Hv) Hsome) as (Q & HQ & Hm).
    exists Q. split; [done|]. intros m Hin. destruct (Hm m Hin) as [->|[_ Hle]]; [by left|right].
    destruct (match_index ls !! m) as [i|] eqn:Ei; simpl in Hle; [|lia]. exists ls, i. split_and!; [done|done|lia].
  - exfalso. pose proof group_size. rewrite filter_cons, filter_nil in Hsome. pose proof (Nat.div_le_lower_bound (length group) 2 1 ltac:(lia) ltac:(lia)).
    destruct (decide _); cbn [length] in Hsome; lia.
Qed.

Lemma maybe_advance_ok e h n a :
  sound h → healthy h n a → reaches h n (λ h', coupled h' n (maybe_advance_commit e a)).
Proof.
  intros Hs Hh. assert (Hsame : reaches h n (λ h', coupled h' n a)) by (apply reaches_here; [done|by left]).
  unfold maybe_advance_commit. destruct (bool_decide (role a = Leader)) eqn:Hr; simpl; [|done]. bools.
  destruct (is_faulty a); [done|]. destruct (_ && _) eqn:Hcond; [|done]. apply andb_true_iff in Hcond as [Hgt Hterm]. bools.
  pose proof (healthy_view _ _ _ Hs Hh) as V. pose proof Hh as (Hf & Hv & s & d & Hst & Hsd & M & D).
  pose proof (vw_index _ _ _ V) as Hidx. rewrite (vw_commit _ _ _ V) in *. rewrite (view_term_at _ _ _ _ V) in * by lia.
  destruct (candidate_quorum h n a Hs Hh) as (Q & HQ & Hm); [lia|]. set (i := Z.to_nat (commit_candidate a)) in *.
  replace (commit_candidate a) with (Z.of_nat i) in * by lia. rewrite (vw_term _ _ _ V) in *.
  rewrite (vo_role _ _ _ Hv) in Hr. destruct (leader_commit_ok h n Hs Hr) as [HL _].
  destruct (si_peer _ _ (so_inv _ Hs) n) as (Ht1 & _).
  assert (Hi : (i ≤ length (p_log (peer h n)))%nat).
  { destruct (log_term_lookup _ _ _ Hterm Ht1) as (k & x & -> & Hk & _). apply lookup_lt_Some in Hk. lia. }
  set (h1 := acknowledge h n (p_term (peer h n)) i).
  assert (Hstep : spec_step mems h n h1).
  { apply (spec_ack _ _ _ n (p_log (peer h n))); [apply elem_of_mems, (vo_member _ _ _ Hv)|done|done]. }
  eapply reaches_step; [done|exact Hstep|by apply (small_same h); [|apply Hs]|]. intros S1.
  pose proof (spec_step_extends _ _ _ _ (so_inv _ Hs) Hstep) as E1.
  apply (commit_to_ok e _ h1 n a (p_term (peer h n)) i); [done| |done|simpl; lia|].
  - split_and!; [done| |exists s, d; split_and!; [done|done|done|by destruct D; constructor]].
    apply (volatile_mono h h1 n a (state a)) in Hv; [by destruct Hv; constructor|done|done|done|done|done|apply Hv].
  - exists n, (p_log (peer h n)), i, Q. split_and!; [done|done| |done|done].
    intros m Hin. destruct (Hm m Hin) as [->|(ls & j & Hl & Hj & Hle)].
    + exists i. split; [done|left].
    + eapply acked_mono; [exact E1|]. destruct (vo_leader _ _ _ Hv ls (eq_trans (vo_role _ _ _ Hv) Hr) Hl) as [Hmt _].
      destruct (Hmt m j Hj) as [? [->|(k & Hk & Hin')]]; [lia|]. exists k. split; [lia|done].
Qed.

(** ** New entries *)

Lemma disk_append_ok h h1 n d l :
  disk_ok h n d → (p_commit (peer h n) ≤ length (p_log (peer h n)))%nat →
  p_term (peer h1 n) = p_term (peer h n) → p_vote (peer h1 n) = p_vote (peer h n) → p_commit (peer h1 n) = p_commit (peer h n) →
  p_log (peer h1 n) = p_log (peer h n) ++ l → disk_ok h1 n (d_with_log d (d_log d ++ l)).
Proof.
  intros [] Hc Ht Hv Hcm Hl. assert (Hk : (Z.to_nat (d_index d) ≤ length (p_log (peer h n)))%nat) by lia.
  constructor; unfold d_index, d_index_term in *; simpl in *; rewrite ?Ht, ?Hv, ?Hcm, ?Hl; try done.
  - by rewrite do_log, drop_app_le by done.
  - rewrite do_index_term. symmetry. apply log_term_prefix; [by apply prefix_app_r|done].
  - intros p Hp. rewrite take_app_le by done. by apply do_snapshot.
Qed.

Lemma append_entry_ok e h n a cmd op :
  sound h → healthy h n a → role a = Leader → last_log_index a + 1 ≤ U64_MAX →
  let r := persist_log_append (push_entry e (last_log_index a + 1) cmd a) in
  if r.2 then reaches h n (λ h', healthy h' n r.1) else reaches h n (λ h', coupled h' n (fail_storage op r.1)).
Proof.
  intros Hs Hh Hr Hroom. pose proof (healthy_view _ _ _ Hs Hh) as V. pose proof Hh as (Hf & Hv & s & d & Hst & Hsd & M & D).
  destruct (si_commit _ _ (so_inv _ Hs) n) as [Hcl _]. rewrite (vw_last _ _ _ V) in Hroom |- *.
  set (x := mkEntry (current_term a) (Z.of_nat (length (p_log (peer h n))) + 1) (wall_ms e) cmd).
  set (a1 := push_entry _ _ _ _). assert (Elog : log a1 = log a ++ [x]) by done.
  set (h1 := lead (set_peer h n (RaftSpec.with_log (peer h n) (p_log (peer h n) ++ [x]))) (p_term (peer h n)) n (p_log (peer h n) ++ [x])).
  assert (Hstep : spec_step mems h n h1).
  { apply spec_append; [by rewrite <- (vo_role _ _ _ Hv)|apply V|done]. }
  assert (Hsm : small h1).
  { intros t c L HL. unfold h1 in HL. simpl in HL. apply lookup_insert_Some in HL as [[_ [= <- <-]]|[_ HL]].
    - rewrite length_app. simpl. lia.
    - by apply (so_small _ Hs) in HL. }
  assert (Hd1 : disk_ok h1 n (d_with_log d (d_log d ++ [x]))) by (apply (disk_append_ok h); try done; unfold h1; by member).
  assert (Hreach : reaches h n (λ h', disk_ok h' n (d_with_log d (d_log d ++ [x])))).
  { eapply reaches_step; [done|exact Hstep|done|]. intros. by apply reaches_here. }
  assert (El : log a1 = d_log d ++ [x]) by (rewrite Elog, (mi_log _ _ M); done).
  destruct (append_landed h n a1 s d Hs Hst Hsd D [x]) as (s' & Es & Hout); [done| |].
  { intros [|j]; [|by rewrite take_ge by (simpl; lia)]. rewrite take_0, app_nil_r. apply reaches_here; [done|]. by destruct d. }
  destruct (persist_log_append a1) as [a2 ok]. simpl in Es, Hout |- *. subst a2. destruct ok.
  - eapply reaches_step; [done|exact Hstep|done|]. intros S1. apply reaches_here; [done|].
    pose proof (spec_step_extends _ _ _ _ (so_inv _ Hs) Hstep) as E1.
    split_and!; [done| |exists s', (d_with_log d (log a1)); split_and!; [done|done| |by rewrite El]].
    + assert (Hv1 : volatile h1 n (set_state (state a) a)).
      { apply (volatile_mono h); [done|done|by unfold h1; member|by unfold h1; member| | |done].
        - unfold h1. member. rewrite length_app. lia.
        - unfold h1. member. rewrite take_app_le by done. apply Hv. }
      by destruct Hv1; constructor.
    + destruct M. by constructor.
  - eapply failed_write; [done| |done|done]. apply (vo_outbox _ _ _ Hv).
Qed.

(** ** Activation and proposals *)

(** Service ends without a write: the files still hold the member. *)
Lemma give_up_ok op h n a : sound h → healthy h n a → reaches h n (λ h', coupled h' n (fail_storage op a)).
Proof.
  intros Hs (Hf & Hv & s & d & Hst & Hsd & M & D). eapply failed_write; [done|apply (vo_outbox _ _ _ Hv)|done|].
  eapply (fault_from_survives _ _ _ (λ d', d' = d)); [done| |intros d' ->; by apply reaches_here].
  apply (stored_survives s d); [done|by eapply disk_ok_valid|done].
Qed.

Lemma persist_append_only a a1 ok : persist_log_append a = (a1, ok) → ∃ s, a1 = set_store s a.
Proof.
  unfold persist_log_append. destruct (store a) as [s|] eqn:E.
  - destruct (append_tail _ _) as [s1 ok1]. intros [= <- <-]. eauto.
  - intros [= <- <-]. exists None. destruct a. simpl in *. by subst.
Qed.

Lemma members_not_one h n a : volatile h n a → Nat.eqb (ShardActor.members a) 1 = false.
Proof. intros Hv. rewrite (vo_members _ _ _ Hv). pose proof group_size. apply Nat.eqb_neq. lia. Qed.

Lemma maybe_activate_ok e h n a :
  sound h → coupled h n a → reaches h n (λ h', coupled h' n (maybe_activate_command_protocol e a)).
Proof.
  intros Hs Hc. assert (Hsame : reaches h n (λ h', coupled h' n a)) by by apply reaches_here.
  unfold maybe_activate_command_protocol. destruct (is_faulty a) eqn:Hf; [done|]. simpl.
  destruct (bool_decide (role a = Leader)) eqn:Hr; simpl; [|done]. destruct (_ <=? _); [done|]. bools.
  pose proof (coupled_healthy _ _ _ Hc Hf) as Hh. pose proof Hh as (_ & Hv & _).
  destruct (negb _); [done|]. destruct (activation_logged a); [by rewrite (members_not_one _ _ _ Hv)|].
  destruct (checked_add (last_log_index a) 1) as [i|] eqn:Hi.
  - apply checked_add_Some in Hi as [-> Hroom].
    pose proof (append_entry_ok e h n a (Some (ActivateCommandProtocol CURRENT_COMMAND_PROTOCOL)) "persisting command-protocol activation" Hs Hh Hr Hroom) as Ha.
    destruct (persist_log_append _) as [a1 ok] eqn:Hp. simpl in Ha. destruct ok; simpl; [|done].
    assert (Hr1 : role a1 = Leader) by (by apply persist_append_only in Hp as [s ->]).
    eapply reaches_bind; [done|exact Ha|]. intros h1 S1 E1 Hh1. pose proof Hh1 as (_ & Hv1 & _). rewrite (members_not_one _ _ _ Hv1).
    apply broadcast_ok; [done|by left|by right].
  - by apply give_up_ok.
Qed.

(** The number of requests a leader may still number. *)
Definition may_send (k : nat) (a : ShardActor) : Prop :=
  ∀ ls, leader a = Some ls → request_sequence ls + Z.of_nat k ≤ U64_MAX.

Lemma send_keeps e p k a :
  may_send (S k) a → let a' := send_append_to e p a in
  may_send k a' ∧ role a' = role a ∧ storage_fault a' = storage_fault a ∧ peers a' = peers a.
Proof.
  intros Hm. assert (Hk : may_send k a) by (intros ls Hl; specialize (Hm ls Hl); lia).
  unfold send_append_to. case_goal; [done|]. destruct (leader a) as [ls|] eqn:Hl; [|done]. case_goal; [done|].
  specialize (Hm ls Hl). assert (checked_add (request_sequence ls) 1 = Some (request_sequence ls + 1)) as -> by (apply checked_add_Some; lia).
  case_goal; (split; [|done]); intros ls' [= <-]; simpl; lia.
Qed.

Lemma broadcast_keeps e k a :
  may_send (length (peers a) + k) a → let a' := broadcast_append_entries e a in
  may_send k a' ∧ role a' = role a ∧ storage_fault a' = storage_fault a ∧ peers a' = peers a.
Proof.
  unfold broadcast_append_entries. case_goal; [|intros Hm; split_and!; try done; intros ls Hl; specialize (Hm ls Hl); lia].
  assert (Hgen : ∀ l a, may_send (length l + k) a → let a' := foldl (λ a p, send_append_to e p a) a l in
    may_send k a' ∧ role a' = role a ∧ storage_fault a' = storage_fault a ∧ peers a' = peers a); [|apply Hgen].
  clear. induction l as [|p l IH]; intros a Hm; [done|]. simpl in *.
  destruct (send_keeps e p (length l + k) a Hm) as (Hm1 & <- & <- & <-). by apply IH.
Qed.

Lemma fail_storage_faulty op a : is_faulty (fail_storage op a) = true.
Proof.
  apply is_faulty_spec. unfold fail_storage, record_leader_transfer.
  destruct (is_faulty a) eqn:E; case_goal; simpl; try done; by apply is_faulty_spec.
Qed.

Lemma activate_keeps e k h n a :
  volatile h n a → may_send (length (peers a) + k) a → let a' := maybe_activate_command_protocol e a in
  is_faulty a' = false → may_send k a' ∧ role a' = role a ∧ peers a' = peers a.
Proof.
  intros Hv Hm. assert (Hk : may_send k a) by (intros ls Hl; specialize (Hm ls Hl); lia). unfold maybe_activate_command_protocol. case_goal; [done|]. case_goal; [done|].
  rewrite (members_not_one _ _ _ Hv). case_goal; [done|]. case_goal; [|by rewrite fail_storage_faulty].
  destruct (persist_log_append _) as [a1 ok] eqn:Hp. apply persist_append_only in Hp as [s ->].
  destruct ok; cbn [negb]; [|by rewrite fail_storage_faulty]. intros _.
  change (ShardActor.members (set_store s _)) with (ShardActor.members a). rewrite (members_not_one _ _ _ Hv).
  set (a2 := set_store s _). destruct (broadcast_keeps e k a2) as (? & -> & _ & ->); done.
Qed.

Lemma on_propose_ok e command client h n a :
  sound h → coupled h n a → may_send (length (peers a) + 0) a → reaches h n (λ h', coupled h' n (on_propose e command client a)).
Proof.
  intros Hs Hc Hm. unfold on_propose.
  assert (Hrefuse : ∀ h' r a', sound h' → coupled h' n a' → reaches h' n (λ h', coupled h' n (answer client r a'))).
  { intros h' r a' S' C'. apply reaches_here; [done|]. by eapply coupled_core, C'. }
  destruct (is_faulty a) eqn:Hf; [by apply Hrefuse|]. destruct (bool_decide (role a = Leader)) eqn:Hr; simpl; [|by apply Hrefuse].
  destruct (is_activation command); [by apply Hrefuse|]. eapply reaches_bind; [done|by apply (maybe_activate_ok e)|].
  intros h1 S1 E1 Hc1. pose proof (coupled_healthy _ _ _ Hc Hf) as (_ & Hv & _).
  pose proof (λ F, proj1 (proj2 (activate_keeps e 0 h n a Hv Hm F))) as Hrole. set (a1 := maybe_activate_command_protocol e a) in *. clearbody a1.
  destruct (is_faulty a1) eqn:Hf1; [by apply Hrefuse|]. destruct (for_active_protocol _ _) as [cmd|]; [|by apply Hrefuse].
  destruct (checked_add _ 1) as [i|] eqn:Hi; [|by apply Hrefuse]. apply checked_add_Some in Hi as [-> Hroom].
  bools. rewrite Hr in Hrole. specialize (Hrole eq_refl). pose proof (coupled_healthy _ _ _ Hc1 Hf1) as Hh1.
  pose proof (append_entry_ok e h1 n a1 (Some cmd) "persisting proposed log entry" S1 Hh1 Hrole Hroom) as Ha.
  destruct (persist_log_append _) as [a2 ok] eqn:Hp. simpl in Ha. assert (Hr2 : role a2 = Leader) by (by apply persist_append_only in Hp as [s ->]).
  destruct ok; cbn [negb].
  - eapply reaches_bind; [done|exact Ha|]. intros h2 S2 _ Hh2. pose proof Hh2 as (_ & Hv2 & _). cbn [ShardActor.members set_pending].
    change (ShardActor.members (set_pending _ a2)) with (ShardActor.members a2). rewrite (members_not_one _ _ _ Hv2).
    apply broadcast_ok; [done| |by right]. left. by eapply healthy_core, Hh2.
  - eapply reaches_bind; [done|exact Ha|]. intros h2 S2 _ Hc2. by apply Hrefuse.
Qed.

(** ** Elections *)

Lemma wrap_add_small a b : 0 ≤ a → 0 ≤ b → a + b ≤ U64_MAX → wrap_add a b = a + b.
Proof. intros. unfold wrap_add. apply Z.mod_small. unfold U64_MAX in *. lia. Qed.

Lemma initial_leader_tracked h n a voters :
  view h n a → last_log_index a + 1 ≤ U64_MAX → tracked h n (initial_leader_state a voters).
Proof.
  intros V Hroom. unfold initial_leader_state. rewrite (vw_last _ _ _ V) in *. rewrite wrap_add_small by lia.
  assert (H0' : tracked h n no_leader_state) by (split; simpl; by intros m i Hi%lookup_empty_Some).
  revert H0'. generalize no_leader_state. induction (peers a) as [|p l IH]; intros ls Hls; [done|]. simpl. apply IH.
  assert (Hp : tracked h n (set_peer_command_protocol (<[p := LEGACY_COMMAND_PROTOCOL]> (peer_command_protocol ls))
    (set_in_flight (<[p := false]> (in_flight ls)) (set_match_index (<[p := 0]> (match_index ls))
      (set_next_index (<[p := Z.of_nat (length (p_log (peer h n))) + 1]> (next_index ls)) ls))))).
  { destruct Hls as [Hm Hx]. split; simpl; intros m i [[_ <-]|[_ Hi]]%lookup_insert_Some; [lia|by apply (Hm m)|lia|by apply (Hx m)]. }
  case_goal; done.
Qed.

(** The leader-to-be: elected in memory. *)
Definition elected (a : ShardActor) : ShardActor :=
  set_leader (Some (initial_leader_state a (votes a))) (set_votes ∅ (set_role Leader a)).

Lemma become_leader_shape e a :
  is_faulty a = false →
  ∃ a1, core a1 = core (elected a) ∧ heartbeat_deadline a1 = heartbeat_deadline a ∧
    become_leader e a =
    (let '(a, ok) := persist_log_append (push_entry e (wrap_add (last_log_index a1) 1) None a1) in
     if negb ok then fail_storage "persisting leader no-op" a
     else broadcast_append_entries e (maybe_advance_commit e (set_heartbeat_deadline (now e + heartbeat (timing a)) a))).
Proof.
  intros Hf. unfold become_leader. rewrite Hf. eexists. split; [|split; [|reflexivity]].
  - pose proof (core_fields _ _ (core_transfer (role a) Leader a)) as C. unfold record_leader_transfer in *.
    destruct (_ || _); done.
  - unfold record_leader_transfer. destruct (_ || _); done.
Qed.

(** Committing keeps the role and the bookkeeping, or gives up both. *)
Definition calm (a a' : ShardActor) : Prop :=
  (leader a' = None ∧ is_faulty a' = true) ∨ (leader a' = leader a ∧ role a' = role a ∧ current_term a' = current_term a).

Lemma calm_core a a1 a2 : core a2 = core a1 → calm a a1 → calm a a2.
Proof.
  intros C%core_fields. unfold calm, is_faulty. rewrite (sc_leader _ _ C), (sc_role _ _ C), (sc_fault _ _ C), (sc_term _ _ C). done.
Qed.

Lemma calm_fail op a0 a : calm a0 (fail_storage op a).
Proof. left. split; [done|apply fail_storage_faulty]. Qed.

Lemma apply_loop_calm fuel a completed :
  let '(a', _, _) := apply_loop fuel a completed in leader a' = leader a ∧ role a' = role a ∧ current_term a' = current_term a.
Proof.
  revert a completed. induction fuel as [|fuel IH]; intros a completed; simpl; [by case_goal|]. case_goal; [done|].
  case_goal; [|done]. destruct (committed_entry a _) as [entry|]; [|done].
  pose proof (core_fields _ _ (apply_entry_core z entry a completed)) as C. destruct (apply_entry z entry a completed) as [a1 c1]. simpl in C.
  specialize (IH a1 c1). destruct (apply_loop fuel a1 c1) as [[a2 c2] f]. destruct C. simpl in *. destruct IH as (-> & -> & ->). done.
Qed.

Lemma compact_calm a : calm a (maybe_compact a).
Proof.
  unfold maybe_compact. case_goal; [by right|]. case_goal; [|by right]. unfold persist_snapshot. destruct (store a) as [s'|].
  - destruct (save_snapshot _ _ _) as [s1 ok]. destruct ok; simpl; [by right|apply calm_fail].
  - by right.
Qed.

Lemma apply_committed_calm e a : calm a (apply_committed e a).
Proof.
  unfold apply_committed. pose proof (apply_loop_calm (Z.to_nat (commit_index a - last_applied a)) a []) as Hl.
  destruct (apply_loop _ a []) as [[a1 cs] f]. destruct f as [op|].
  - eapply calm_core; [apply core_fail_completed|]. apply calm_fail.
  - assert (Hc : calm a (maybe_compact a1)).
    { destruct (compact_calm a1) as [?|(E1 & E2 & E3)]; [by left|right]. destruct Hl as (? & ? & ?). split_and!; congruence. }
    case_goal; (eapply calm_core; [|exact Hc]); [apply core_fail_completed|apply core_complete].
Qed.

Lemma commit_to_calm e op i a : calm a (commit_to e op i a).
Proof.
  unfold commit_to. destruct (persist_hard_state_at i a) as [a1 ok] eqn:Hp. apply persist_meta_only in Hp as [s ->].
  destruct ok; simpl; [|apply calm_fail]. apply (apply_committed_calm e (set_commit_index i (set_store s a))).
Qed.

Lemma advance_calm e a : calm a (maybe_advance_commit e a).
Proof. unfold maybe_advance_commit. case_goal; [by right|]. case_goal; [apply commit_to_calm|by right]. Qed.

Lemma calm_ready a a' : ready a → calm a a' → ready a'.
Proof. intros Hr [[? _]|(El & Er & _)]; [by left|]. destruct Hr; [left|right]; congruence. Qed.

(** ** Winning *)

Lemma elected_healthy h n a :
  sound h → healthy h n a → role a = Candidate → (majority a ≤ size (votes a))%nat → last_log_index a + 1 ≤ U64_MAX →
  reaches h n (λ h', healthy h' n (elected a)).
Proof.
  intros Hs Hh Hr Hmaj Hroom. pose proof (healthy_view _ _ _ Hs Hh) as V. pose proof Hh as (Hf & Hv & s & d & Hst & Hsd & M & D).
  assert (Hq : quorum mems (votes a)).
  { split; [intros m Hm; by apply (vo_votes _ _ _ Hv Hr m Hm)|]. unfold majority in Hmaj. rewrite (vo_members _ _ _ Hv) in Hmaj.
    rewrite size_mems. pose proof (Nat.div_mod_eq (length group) 2). pose proof (Nat.mod_upper_bound (length group) 2 ltac:(lia)). lia. }
  set (h1 := lead (set_peer h n (with_role (peer h n) Leader)) (p_term (peer h n)) n (p_log (peer h n))).
  assert (Hstep : spec_step mems h n h1).
  { apply (spec_lead _ _ _ (votes a)); [by rewrite <- (vo_role _ _ _ Hv)|done|]. intros m Hm. by apply (vo_votes _ _ _ Hv Hr m Hm). }
  assert (Hsm : small h1).
  { intros t c L HL. unfold h1 in HL. simpl in HL. apply lookup_insert_Some in HL as [[_ [= <- <-]]|[_ HL]]; [apply V|by apply (so_small _ Hs) in HL]. }
  eapply reaches_step; [done|exact Hstep|done|]. intros S1. apply reaches_here; [done|].
  pose proof (spec_step_extends _ _ _ _ (so_inv _ Hs) Hstep) as E1.
  split_and!; [done| |exists s, d; split_and!; [done|done|by destruct M; constructor|]].
  - pose proof (initial_leader_tracked h n a (votes a) V Hroom) as Ht. destruct Hv.
    constructor; simpl; rewrite ?fn_lookup_insert; simpl; try done.
    + intros ls _ [= <-]. apply (tracked_mono h); [done|by unfold h1; member|by unfold h1; member|done].
    + by apply (outbox_mono h).
  - destruct D. constructor; unfold h1; member; done.
Qed.

Lemma become_leader_ok e h n a :
  sound h → healthy h n a → role a = Candidate → (majority a ≤ size (votes a))%nat → last_log_index a + 1 ≤ U64_MAX →
  reaches h n (λ h', coupled h' n (become_leader e a)).
Proof.
  intros Hs Hh Hr Hmaj Hroom. pose proof Hh as (Hf & _). apply not_faulty_spec in Hf.
  pose proof (healthy_view _ _ _ Hs Hh) as V. destruct (become_leader_shape e a Hf) as (a1 & C & _ & ->).
  eapply reaches_bind; [done|by apply elected_healthy|]. intros h1 S1 E1 Hh1.
  assert (Hh2 : healthy h1 n a1) by (by eapply healthy_core).
  pose proof (core_fields _ _ C) as C1. pose proof (sc_role _ _ C1) as Hr1. simpl in Hr1.
  assert (El : last_log_index a1 = last_log_index a) by (unfold last_log_index; by rewrite (sc_log _ _ C1), (sc_index _ _ C1)).
  rewrite El, wrap_add_small, <- El by (try rewrite (vw_last _ _ _ V) in *; lia).
  pose proof (append_entry_ok e h1 n a1 None "persisting leader no-op" S1 Hh2 Hr1 ltac:(by rewrite El)) as Ha.
  destruct (persist_log_append _) as [a2 ok] eqn:Hp. simpl in Ha. destruct ok; cbn [negb]; [|done].
  assert (Hr2 : role a2 = Leader) by (by apply persist_append_only in Hp as [s ->]).
  eapply reaches_bind; [done|exact Ha|]. intros h2 S2 _ Hh3. set (a3 := set_heartbeat_deadline _ a2).
  eapply reaches_bind; [done|apply (maybe_advance_ok e h2 n a3 S2); by eapply healthy_core, Hh3|].
  intros h3 S3 _ Hc3. apply broadcast_ok; [done|done|]. eapply calm_ready; [|apply advance_calm]. by right.
Qed.

(** ** Campaigns *)

Definition campaigning (a : ShardActor) (t : Z) : ShardActor :=
  set_votes {[node_id a]} (set_voted_for (Some (node_id a)) (set_role Candidate (set_current_term t a))).

Lemma healthy_solicit h n a req :
  healthy h n a → vote_req_ok h n req → healthy h n (set_outbox (outbox a ++ ((λ p, RpcVote p req) <$> peers a)) a).
Proof.
  intros (Hf & Hv & s & d & Hst & Hsd & M & D) Hreq.
  split_and!; [done| |exists s, d; split_and!; [done|done|by destruct M; constructor|done]].
  destruct Hv. constructor; simpl; try done. intros rpc [Hin|Hin]%elem_of_app; [by apply vo_outbox|].
  apply list_elem_of_fmap in Hin as (p & -> & Hp). rewrite vo_peers in Hp. done.
Qed.

Lemma start_election_shape e a :
  is_faulty a = false → (1 < majority a)%nat →
  ∃ a1, core a1 = core (campaigning a (wrap_add (current_term a) 1)) ∧ majority a1 = majority a ∧
    start_election e a =
    (let '(a, ok) := persist_hard_state a1 in
     if negb ok then fail_storage "persisting election term and self-vote" a
     else if Nat.leb (majority a) (size (votes a)) then become_leader e a else solicit_votes (current_term a) false a).
Proof.
  intros Hf Hmaj. unfold start_election. rewrite Hf. eexists. split; [|split; [|reflexivity]].
  - rewrite core_reset. done.
  - unfold reset_election_deadline. by destruct (below _ _).
Qed.

Lemma majority_two h n a : volatile h n a → (1 < majority a)%nat.
Proof.
  intros Hv. unfold majority. rewrite (vo_members _ _ _ Hv). pose proof group_size.
  pose proof (Nat.div_le_lower_bound (length group) 2 1 ltac:(lia) ltac:(lia)). lia.
Qed.

Lemma start_election_ok e h n a :
  sound h → healthy h n a → current_term a < U64_MAX → reaches h n (λ h', coupled h' n (start_election e a)).
Proof.
  intros Hs Hh Hroom. pose proof (healthy_view _ _ _ Hs Hh) as V. pose proof Hh as (Hf & Hv & s & d & Hst & Hsd & M & D).
  destruct (start_election_shape e a) as (a1 & C & Hmaj & ->); [by apply not_faulty_spec|by eapply majority_two|].
  destruct (si_peer _ _ (so_inv _ Hs) n) as (Ht1 & _).
  rewrite wrap_add_small, (vw_term _ _ _ V) in C by (rewrite ?(vw_term _ _ _ V) in *; lia).
  pose proof (core_fields _ _ C) as C1. destruct C1 as [_ _ Em _ Et Ev _ _ _ El Ec _ Es _ Evo _ _ Eo _]. simpl in *.
  rewrite (vo_node _ _ _ Hv) in Ev, Evo. rewrite Hst in Es.
  set (h1 := cast (set_peer h n (with_term (peer h n) (p_term (peer h n) + 1) (Some n) Candidate)) n (p_term (peer h n) + 1) n (p_log (peer h n))).
  assert (Hstep : spec_step mems h n h1) by (apply spec_campaign, elem_of_mems, (vo_member _ _ _ Hv)).
  assert (Hsm : small h1) by (apply (small_same h); [done|apply Hs]).
  assert (Hd1 : disk_ok h1 n (d_with_meta d (current_term a1) (voted_for a1) (commit_index a1))).
  { apply (disk_meta_ok h); unfold h1; member; rewrite ?Et, ?Ev, ?Ec; try done; try lia. apply V. }
  assert (Hreach : reaches h n (λ h', disk_ok h' n (d_with_meta d (current_term a1) (voted_for a1) (commit_index a1)))).
  { eapply reaches_step; [done|exact Hstep|done|]. intros. by apply reaches_here. }
  destruct (meta_landed h n a1 s d Hs Es Hsd D (commit_index a1) Hreach) as (s' & Es' & Hout).
  unfold persist_hard_state. destruct (persist_hard_state_at _ a1) as [a2 ok]. simpl in Es', Hout. subst a2. destruct ok; cbn [negb]; last first.
  { eapply failed_write; [done| |done|done]. simpl. rewrite Eo. apply (vo_outbox _ _ _ Hv). }
  change (majority (set_store _ a1)) with (majority a1). change (votes (set_store _ a1)) with (votes a1). rewrite Evo, size_singleton, Hmaj.
  rewrite (proj2 (Nat.leb_gt _ _) (majority_two _ _ _ Hv)).
  eapply reaches_step; [done|exact Hstep|done|]. intros S1. apply reaches_here; [done|]. left.
  pose proof (spec_step_extends _ _ _ _ (so_inv _ Hs) Hstep) as E1.
  assert (Hh1 : healthy h1 n (set_store (Some s') (campaigning a (p_term (peer h n) + 1)))).
  { split_and!; [done| |exists s', (d_with_meta d (current_term a1) (voted_for a1) (commit_index a1)); split_and!; [done|done| |done]].
    - destruct Hv. constructor; simpl; rewrite ?fn_lookup_insert; simpl; try done.
      + intros _ m Hm. rewrite vo_node in Hm. apply elem_of_singleton in Hm as ->. split; [by apply elem_of_mems|].
        left. exists (p_log (peer h n)). left.
      + by apply (outbox_mono h).
    - rewrite Et, Ev, Ec. destruct M. constructor; unfold d_index, d_index_term in *; simpl; try done; try lia.
      by rewrite (vo_node _ _ _ Hv). }
  assert (Hh2 : healthy h1 n (set_store (Some s') a1)) by (eapply healthy_core, Hh1; by apply core_set_store).
  pose proof (healthy_view _ _ _ S1 Hh2) as V2.
  unfold solicit_votes. apply (healthy_solicit h1 n _ _ Hh2). split; [apply Hh2|right].
  exists (p_log (peer h n)). simpl. rewrite Et. split; [left|]. rewrite (vw_last _ _ _ V2), (view_last_term _ _ _ V2).
  unfold h1. member. done.
Qed.

Lemma start_pre_election_ok e h n a :
  sound h → healthy h n a → reaches h n (λ h', coupled h' n (start_pre_election e a)).
Proof.
  intros Hs Hh. pose proof Hh as (Hf & Hv & s & d & Hst & Hsd & M & D). unfold start_pre_election.
  rewrite (proj2 (not_faulty_spec _) Hf). set (a1 := set_pre_votes _ _).
  assert (C : core a1 = core (set_votes ∅ (set_role Follower a))).
  { unfold a1. unfold reset_election_deadline. by destruct (below _ _). }
  assert (Ep : size (pre_votes a1) = 1%nat) by apply size_singleton.
  assert (Em : majority a1 = majority a) by (unfold majority; by rewrite (sc_members _ _ (core_fields _ _ C))).
  clearbody a1.
  assert (Hreq : ∀ h' t, vote_req_ok h' n (mkVoteReq t (node_id a1) (last_log_index a1) (last_log_term a1) true)).
  { intros h' t. split; [|by left]. simpl. rewrite (sc_node _ _ (core_fields _ _ C)). apply Hv. }
  rewrite Ep, Em, (proj2 (Nat.leb_gt _ _) (majority_two _ _ _ Hv)).
  set (h1 := set_peer h n (with_role (peer h n) Follower)). assert (Hstep : spec_step mems h n h1) by apply spec_follow.
  eapply reaches_step; [done|exact Hstep|by apply (small_same h); [|apply Hs]|]. intros S1. apply reaches_here; [done|]. left.
  unfold solicit_votes. apply healthy_solicit; [|apply Hreq]. eapply healthy_core; [exact C|].
  split_and!; [done| |exists s, d; split_and!; [done|done|by destruct M; constructor|]].
  - destruct Hv. constructor; unfold h1; member; done.
  - destruct D. constructor; unfold h1; member; done.
Qed.

(** ** Replies *)

(** Counters that the call may raise by one stay in range. *)
Definition roomy (a : ShardActor) : Prop :=
  current_term a < U64_MAX ∧ last_log_index a + 1 ≤ U64_MAX ∧ may_send (length (peers a) + length (peers a)) a.

Lemma may_send_le k k' a : (k ≤ k')%nat → may_send k' a → may_send k a.
Proof. intros Hk Hm ls Hl. specialize (Hm ls Hl). lia. Qed.

Definition vote_reply_ok (h : Hist) (n from : string) (was_pre_vote : bool) (r : RequestVoteResp) : Prop :=
  from ∈ others n ∧ (was_pre_vote = false → vs_granted r = true → voted h from (vs_term r) n).

Lemma handle_vote_reply_ok e from pre r h n a :
  sound h → coupled h n a → roomy a → vote_reply_ok h n from pre r → reaches h n (λ h', coupled h' n (handle_vote_reply e from pre r a)).
Proof.
  intros Hs Hc (Ht & Hlog & _) [Hfrom Hr]. assert (Hsame : reaches h n (λ h', coupled h' n a)) by by apply reaches_here.
  unfold handle_vote_reply. destruct (is_faulty a) eqn:Hf; [done|]. pose proof (coupled_healthy _ _ _ Hc Hf) as Hh.
  destruct (_ <? _) eqn:Hterm; [by apply step_down_ok|]. bools. destruct pre.
  - destruct (negb _); [done|]. destruct (vs_granted r); [|done]. case_goal.
    + apply start_election_ok; [done| |done]. by eapply healthy_core, Hh.
    + apply reaches_here; [done|]. left. by eapply healthy_core, Hh.
  - destruct (bool_decide (role a = Candidate)) eqn:Hrole; simpl; [|done]. bools. destruct (vs_term r =? current_term a) eqn:Heq; simpl; [|done]. bools.
    destruct (vs_granted r) eqn:Hg; [|done]. pose proof (healthy_view _ _ _ Hs Hh) as V.
    assert (Hh1 : healthy h n (set_votes ({[from]} ∪ votes a) a)).
    { destruct Hh as (Hf' & Hv & s & d & Hst & Hsd & M & D).
      split_and!; [done| |exists s, d; split_and!; [done|done|by destruct M; constructor|done]].
      destruct Hv. constructor; simpl; try done. intros _ m [->%elem_of_singleton|Hm]%elem_of_union; [|by apply vo_votes].
      split; [by apply elem_of_mems; apply elem_of_others in Hfrom as [_ ?]|]. rewrite <- (vw_term _ _ _ V), <- Heq. by apply Hr. }
    case_goal; [|apply reaches_here; [done|by left]]. apply Nat.leb_le in Heqb. by apply become_leader_ok.
Qed.

Lemma broadcast_ready e a : ready a → ready (broadcast_append_entries e a).
Proof.
  intros Hr. unfold broadcast_append_entries. case_goal; [|done]. generalize (peers a). intros l. clear Heqb.
  revert a Hr. induction l as [|p l IH]; intros a Hr; [done|]. simpl. by apply IH, send_ready.
Qed.

Lemma activate_ready e a : ready a → ready (maybe_activate_command_protocol e a).
Proof.
  intros Hr. unfold maybe_activate_command_protocol. case_goal; [done|]. case_goal; [done|]. case_goal.
  - case_goal; [|done]. eapply calm_ready; [done|apply advance_calm].
  - case_goal; [|by left]. destruct (persist_log_append _) as [a1 ok] eqn:Hp. apply persist_append_only in Hp as [s ->].
    destruct ok; simpl; [|by left]. case_goal.
    + eapply calm_ready, commit_to_calm. done.
    + by apply broadcast_ready.
Qed.

Lemma on_tick_ok e h n a :
  sound h → coupled h n a → roomy a → reaches h n (λ h', coupled h' n (on_tick e a)).
Proof.
  intros Hs Hc (Ht & Hlog & Hm). assert (Hsame : reaches h n (λ h', coupled h' n a)) by by apply reaches_here.
  unfold on_tick. destruct (is_faulty a) eqn:Hf; [done|]. pose proof (coupled_healthy _ _ _ Hc Hf) as Hh.
  assert (Hcamp : reaches h n (λ h', coupled h' n
    (if election_deadline a <=? now e then if pre_vote (timing a) && Nat.ltb 1 (ShardActor.members a) then start_pre_election e a else start_election e a else a))).
  { case_goal; [|done]. case_goal; [by apply start_pre_election_ok|by apply start_election_ok]. }
  destruct (role a) eqn:Hr; [done|done|]. clear Hcamp.
  eapply reaches_bind; [done|by apply (maybe_activate_ok e)|]. intros h1 S1 _ Hc1. pose proof Hh as (_ & Hv & _).
  pose proof (activate_keeps e (length (peers a)) h n a Hv Hm) as Hkeep. simpl in Hkeep.
  pose proof (activate_ready e a ltac:(by right)) as Hrd. set (a1 := maybe_activate_command_protocol e a) in *. clearbody a1.
  destruct (is_faulty a1) eqn:Hf1; [by apply reaches_here|]. destruct Hkeep as (Hm1 & Hr1 & Hp1); [done|].
  set (a2 := if heartbeat_deadline a1 <=? now e
             then broadcast_append_entries e (set_heartbeat_deadline (now e + heartbeat (timing a1)) a1) else a1).
  assert (Hbeat : reaches h1 n (λ h', coupled h' n a2) ∧ storage_fault a2 = storage_fault a1).
  { unfold a2. case_goal; [|split; [by apply reaches_here|done]]. split.
    - apply broadcast_ok; [done|by eapply coupled_core, Hc1|by destruct Hrd; [left|right]].
    - set (a3 := set_heartbeat_deadline _ a1). destruct (broadcast_keeps e 0 a3) as (_ & _ & E & _); [|exact E].
      apply (may_send_le _ (length (peers a))); [|done]. simpl. rewrite Hp1. lia. }
  destruct Hbeat as [Hbeat Ef]. clearbody a2. eapply reaches_bind; [done|exact Hbeat|]. intros h2 S2 _ Hc2.
  case_goal; [|by apply reaches_here]. apply step_down_ok; [done|]. apply coupled_healthy; [done|].
  apply not_faulty_spec. rewrite Ef. by apply not_faulty_spec.
Qed.

(** ** Replication replies *)

Definition append_reply_ok (h : Hist) (n from : string) (up_to : Z) (r : option AppendEntriesResp) : Prop :=
  0 ≤ up_to ∧ ∀ r', r = Some r' → as_success r' = true → acked h from (as_term r') (Z.to_nat up_to).

Definition snapshot_reply_ok (h : Hist) (n from : string) (up_to : Z) (r : option InstallSnapshotResp) : Prop :=
  0 ≤ up_to ∧ ∀ r', r = Some r' → ss_success r' = true → acked h from (ss_term r') (Z.to_nat up_to).

(** Bookkeeping that keeps to the history. *)
Lemma healthy_track h n a ls :
  healthy h n a → (role a = Leader → tracked h n ls) → healthy h n (set_leader (Some ls) a).
Proof.
  intros (Hf & Hv & s & d & Hst & Hsd & M & D) Ht.
  split_and!; [done| |exists s, d; split_and!; [done|done|by destruct M; constructor|done]].
  destruct Hv. constructor; simpl; try done. intros ls' Hr [= <-]. auto.
Qed.

Lemma tracked_same h n ls ls' : match_index ls' = match_index ls → next_index ls' = next_index ls → tracked h n ls → tracked h n ls'.
Proof. intros Em En. unfold tracked. by rewrite Em, En. Qed.

Lemma acked_length h n m i :
  sound h → p_role (peer h n) = Leader → 0 ≤ i → i = 0 ∨ acked h m (p_term (peer h n)) (Z.to_nat i) → i ≤ Z.of_nat (length (p_log (peer h n))).
Proof.
  intros Hs Hr Hi [->|Ha]; [lia|]. destruct (leader_commit_ok h n Hs Hr) as [HL _].
  destruct (acked_bound mems h m _ _ _ _ (so_inv _ Hs) Ha HL). lia.
Qed.

Lemma tracked_ack h n ls from i :
  sound h → p_role (peer h n) = Leader → tracked h n ls → 0 ≤ i → i = 0 ∨ acked h from (p_term (peer h n)) (Z.to_nat i) →
  tracked h n (set_next_index (<[from := sat_add i 1]> (next_index ls)) (set_match_index (<[from := i]> (match_index ls)) ls)).
Proof.
  intros Hs Hr [Hm Hx] Hi Ha. pose proof (acked_length h n from i Hs Hr Hi Ha) as Hlen. pose proof (small_peer h n Hs).
  split; simpl; intros m j [[<- <-]|[_ Hj]]%lookup_insert_Some; [done|by apply (Hm m)| |by apply (Hx m)].
  unfold sat_add, U64_MAX in *. lia.
Qed.

Lemma known_ok h n ls from : tracked h n ls →
  0 ≤ default 0 (match_index ls !! from) ∧
  (default 0 (match_index ls !! from) = 0 ∨ acked h from (p_term (peer h n)) (Z.to_nat (default 0 (match_index ls !! from)))).
Proof. intros [Hm _]. destruct (match_index ls !! from) as [i|] eqn:E; simpl; [by apply (Hm from)|lia]. Qed.

Lemma max_acked h m t i j : (i = 0 ∨ acked h m t (Z.to_nat i)) → acked h m t (Z.to_nat j) → 0 ≤ j →
  Z.max i j = 0 ∨ acked h m t (Z.to_nat (Z.max i j)).
Proof.
  intros Hi Hj Hpos. destruct (decide (i ≤ j)); [rewrite Z.max_r by done; by right|]. rewrite Z.max_l by lia. destruct Hi as [->|?]; [lia|by right].
Qed.

Lemma credit_append_tracked h n ls sent_at from up_to r last ls' more :
  sound h → p_role (peer h n) = Leader → tracked h n ls → append_reply_ok h n from up_to (Some r) → as_term r = p_term (peer h n) →
  credit_append sent_at from up_to r last ls = (ls', more) → tracked h n ls'.
Proof.
  intros Hs Hr Ht [Hup Ha] Hterm. unfold credit_append. destruct (known_ok h n ls from Ht) as [K0 K].
  set (ls1 := set_last_contact _ _). assert (T1 : tracked h n ls1) by by eapply tracked_same, Ht.
  case_goal; intros [= <- _]; bools.
  - apply (tracked_ack h n ls1); [done|done|done|simpl; lia|]. simpl. apply max_acked; [done| |done]. rewrite <- Hterm. by apply Ha.
  - pose proof (acked_length h n from _ Hs Hr K0 K) as Hlen. destruct T1 as [Tm Tx]. split; [done|].
    simpl. intros m j [[<- <-]|[_ Hj]]%lookup_insert_Some; [|by apply (Tx m)].
    assert (Hcur : 1 ≤ default 1 (next_index ls !! from) ≤ Z.of_nat (length (p_log (peer h n))) + 1).
    { destruct (next_index ls !! from) as [x|] eqn:E; simpl; [by apply (Tx from)|lia]. }
    change (next_index ls1) with (next_index ls). change (match_index ls1) with (match_index ls).
    pose proof (small_peer h n Hs). unfold sat_add, sat_sub, U64_MAX in *. lia.
Qed.

Lemma clear_in_flight_ok h n a from : healthy h n a → healthy h n (clear_in_flight from a).
Proof.
  intros Hh. unfold clear_in_flight. destruct (leader a) as [ls|] eqn:Hl; [|done]. apply healthy_track; [done|].
  intros Hr. apply (tracked_same h n ls); [done|done|]. destruct Hh as (_ & Hv & _). by apply (vo_leader _ _ _ Hv).
Qed.

Lemma clear_in_flight_fields a from :
  role (clear_in_flight from a) = role a ∧ current_term (clear_in_flight from a) = current_term a.
Proof. unfold clear_in_flight. by destruct (leader a). Qed.

Lemma handle_append_reply_ok e sent_at from up_to rtt r h n a :
  sound h → coupled h n a → append_reply_ok h n from up_to r →
  reaches h n (λ h', coupled h' n (handle_append_reply e sent_at from up_to rtt r a)).
Proof.
  intros Hs Hc Hr. unfold handle_append_reply. destruct (is_faulty a) eqn:Hf; [by apply reaches_here|].
  pose proof (clear_in_flight_ok h n a from (coupled_healthy _ _ _ Hc Hf)) as Hh.
  set (a0 := clear_in_flight from a) in *. clearbody a0. clear Hc Hf a.
  set (a1 := match rtt with Some _ => _ | None => a0 end).
  assert (Hh1 : healthy h n a1) by (unfold a1; destruct rtt; [by eapply healthy_core, Hh|done]). clearbody a1. clear Hh a0.
  assert (Hsame : reaches h n (λ h', coupled h' n a1)) by (apply reaches_here; [done|by left]).
  destruct r as [r|]; [|done]. destruct (_ <? _); [by apply step_down_ok|].
  destruct (bool_decide (role a1 = Leader)) eqn:Hrole; simpl; [|done]. destruct (as_term r =? current_term a1) eqn:Hterm; simpl; [|done]. bools.
  pose proof (healthy_view _ _ _ Hs Hh1) as V. pose proof Hh1 as (_ & Hv & _).
  set (p := match leader a1 with Some _ => _ | None => (a1, false) end).
  assert (Hp : healthy h n p.1 ∧ role p.1 = Leader).
  { unfold p. destruct (leader a1) as [ls|] eqn:Hl; [|done]. destruct (credit_append _ _ _ _ _ _) as [ls' more] eqn:Hcr. split; [|done].
    apply healthy_track; [done|]. intros _. eapply credit_append_tracked; [done| | |exact Hr| |exact Hcr].
    - by rewrite <- (vo_role _ _ _ Hv).
    - by apply (vo_leader _ _ _ Hv).
    - by rewrite Hterm, (vw_term _ _ _ V). }
  destruct p as [a2 more]. simpl in Hp. destruct Hp as [Hh2 Hr2].
  set (a3 := if _ && _ then maybe_advance_commit e a2 else a2).
  assert (Hadv : reaches h n (λ h', coupled h' n a3)).
  { unfold a3. case_goal; [by apply maybe_advance_ok|apply reaches_here; [done|by left]]. }
  assert (Hrd : ready a3) by (unfold a3; case_goal; [eapply calm_ready, advance_calm|]; by right). clearbody a3.
  eapply reaches_bind; [done|exact Hadv|]. intros h1 S1 _ Hc3.
  eapply reaches_bind; [done|exact (maybe_activate_ok e h1 n a3 S1 Hc3)|]. intros h2 S2 _ Hc4.
  pose proof (activate_ready e a3 Hrd) as Hrd4. set (a4 := maybe_activate_command_protocol e a3) in *. clearbody a4.
  assert (Hc5 : coupled h2 n (refresh_follower_lag_metric a4)) by (by eapply coupled_core, Hc4).
  destruct more; [|by apply reaches_here]. by apply send_append_ok.
Qed.

Lemma handle_snapshot_reply_ok e sent_at from up_to r h n a :
  sound h → coupled h n a → snapshot_reply_ok h n from up_to r →
  reaches h n (λ h', coupled h' n (handle_snapshot_reply e sent_at from up_to r a)).
Proof.
  intros Hs Hc [Hup Hr]. unfold handle_snapshot_reply. destruct (is_faulty a) eqn:Hf; [by apply reaches_here|].
  pose proof (clear_in_flight_ok h n a from (coupled_healthy _ _ _ Hc Hf)) as Hh.
  set (a0 := clear_in_flight from a) in *. clearbody a0. clear Hc Hf a.
  assert (Hsame : reaches h n (λ h', coupled h' n a0)) by (apply reaches_here; [done|by left]).
  destruct r as [r|]; [|done]. destruct (_ <? _); [by apply step_down_ok|].
  destruct (bool_decide (role a0 = Leader)) eqn:Hrole; simpl; [|done]. destruct (ss_term r =? current_term a0) eqn:Hterm; simpl; [|done]. bools.
  destruct (ss_success r) eqn:Hok; [|done]. pose proof (healthy_view _ _ _ Hs Hh) as V. pose proof Hh as (_ & Hv & _).
  destruct (leader a0) as [ls|] eqn:Hl; [|by apply send_append_ok; [done|left|left]].
  unfold acknowledged_prefix. case_goal; [done|]. apply send_append_ok; [done| |by right]. left.
  apply healthy_track; [done|]. intros _. rewrite (vo_role _ _ _ Hv) in Hrole.
  pose proof (vo_leader _ _ _ Hv ls (eq_trans (vo_role _ _ _ Hv) Hrole) Hl) as Ht. destruct (known_ok h n ls from Ht) as [K0 K].
  assert (T : tracked h n (set_next_index (<[from := sat_add (Z.max (default 0 (match_index ls !! from)) up_to) 1]> (next_index ls))
      (set_match_index (<[from := Z.max (default 0 (match_index ls !! from)) up_to]> (match_index ls)) ls))).
  { apply tracked_ack; [done|done|done|lia|]. apply max_acked; [done| |done]. rewrite <- (vw_term _ _ _ V), <- Hterm. by apply Hr. }
  by eapply tracked_same, T.
Qed.

Lemma accept_callback_ok e from request term h n a :
  sound h → coupled h n a → reaches h n (λ h', coupled h' n (accept_replication_callback e from request term a).1).
Proof.
  intros Hs Hc. unfold accept_replication_callback. destruct (is_faulty a) eqn:Hf; [by apply reaches_here|]. simpl.
  destruct (bool_decide (from ∈ peers a)); simpl; [|by apply reaches_here]. pose proof (coupled_healthy _ _ _ Hc Hf) as Hh.
  destruct (classify_callback _ _ _ _ _); [by apply step_down_ok| |by apply reaches_here]. apply reaches_here; [done|].
  destruct (leader a) as [ls|] eqn:Hl; [|done]. left. apply healthy_track; [done|]. intros Hr.
  apply (tracked_same h n ls); [done|done|]. destruct Hh as (_ & Hv & _). by apply (vo_leader _ _ _ Hv).
Qed.
End leading.
