(* ===== verification/RaftFollowing.v ===== *)
(** The follower's side keeps the coupling: votes, appended entries and
    installed snapshots.  What it grants or acknowledges is in the history. *)

From stdpp Require Import functions.
From S2P Require Import Prelude Json Text Command StateMachine RaftTypes RaftSpec RaftConfig RaftCallback Persist PersistTheorems ShardActor RaftCoupling RaftMethods RaftLeading.

Section following.
Context `{DiskFormat, !DiskLaws, Machine, !MachineLaws, Wire, Group}.

Ltac member := simpl; rewrite ?fn_lookup_insert; simpl.

(** ** Votes *)

Lemma step_down_term e term to a :
  current_term a ≤ term → is_faulty (step_down e term to a) = false →
  current_term (step_down e term to a) = term ∧ log (step_down e term to a) = log a ∧
  snapshot_index (step_down e term to a) = snapshot_index a ∧ commit_index (step_down e term to a) = commit_index a.
Proof.
  intros Hle. destruct (step_down_shape e term to a Hle) as (a1 & C & ->). unfold persist_hard_state.
  destruct (persist_hard_state_at _ a1) as [a2 ok] eqn:Hp. apply persist_meta_only in Hp as [s ->].
  destruct ok; cbn [negb]; [|by rewrite fail_storage_faulty]. intros _.
  destruct (core_fields _ _ (core_reset e (set_store s a1))). destruct (core_fields _ _ C). simpl in *. split_and!; congruence.
Qed.

Lemma grant_move h n c l :
  sound h → n ∈ group → n ≠ c → p_vote (peer h n) = None ∨ p_vote (peer h n) = Some c →
  (c, p_term (peer h n), c, l) ∈ ballots h → up_to_date l (p_log (peer h n)) →
  reaches h n (λ h', extends n h h' ∧ peer h' n = with_vote (peer h n) (Some c) ∧ voted h' n (p_term (peer h n)) c).
Proof.
  intros Hs Hn Hne [Hv|Hv] Hb Hu.
  - destruct (leads h !! p_term (peer h n)) as [L|] eqn:HL.
    + set (h1 := cast_late (set_peer h n (with_vote (peer h n) (Some c))) n (p_term (peer h n)) c).
      assert (Hstep : spec_step mems h n h1) by (by apply spec_vote_late; [|rewrite HL]).
      eapply reaches_step; [done|exact Hstep|by apply (small_same h); [|apply Hs]|]. intros S1. apply reaches_here; [done|].
      split_and!; [by eapply spec_step_extends, Hstep; apply Hs|by unfold h1; member|right; left].
    + set (h1 := cast (set_peer h n (with_vote (peer h n) (Some c))) n (p_term (peer h n)) c (p_log (peer h n))).
      assert (Hstep : spec_step mems h n h1) by (by apply (spec_vote _ _ _ c l); [apply elem_of_mems|..]).
      eapply reaches_step; [done|exact Hstep|by apply (small_same h); [|apply Hs]|]. intros S1. apply reaches_here; [done|].
      split_and!; [by eapply spec_step_extends, Hstep; apply Hs|by unfold h1; member|left]. exists (p_log (peer h n)). left.
  - apply reaches_here; [done|]. split_and!; [apply extends_refl| |by apply (si_voted _ _ (so_inv _ Hs))].
    unfold with_vote. rewrite <- Hv. by destruct (peer h n).
Qed.

Lemma grant_ok e h n a c l op :
  sound h → healthy h n a → n ≠ c → voted_for a = None ∨ voted_for a = Some c →
  (c, p_term (peer h n), c, l) ∈ ballots h → up_to_date l (p_log (peer h n)) →
  let r := persist_hard_state (reset_election_deadline e (set_voted_for (Some c) a)) in
  if r.2 then reaches h n (λ h', coupled h' n r.1 ∧ voted h' n (current_term r.1) c)
  else reaches h n (λ h', coupled h' n (fail_storage op r.1)).
Proof.
  intros Hs Hh Hne Hvote Hb Hu. pose proof (healthy_view _ _ _ Hs Hh) as V. pose proof Hh as (Hf & Hv & s & d & Hst & Hsd & M & D).
  rewrite (vw_vote _ _ _ V) in Hvote. pose proof (grant_move h n c l Hs (vo_member _ _ _ Hv) Hne Hvote Hb Hu) as Hmove.
  set (a1 := reset_election_deadline _ _). assert (C : core a1 = core (set_voted_for (Some c) a)) by apply core_reset. clearbody a1.
  destruct (core_fields _ _ C) as [_ _ _ _ Et Ev _ _ _ _ Ec _ Es _ _ _ _ Eo _]. simpl in *. rewrite Hst in Es.
  assert (Hd : ∀ h1, extends n h h1 → peer h1 n = with_vote (peer h n) (Some c) →
    disk_ok h1 n (d_with_meta d (current_term a1) (voted_for a1) (commit_index a1))).
  { intros h1 E1 Hp. apply (disk_meta_ok h); rewrite ?Hp, ?Et, ?Ev, ?Ec; simpl; try done; [|apply V..].
    rewrite (vw_term _ _ _ V). apply (si_peer _ _ (so_inv _ Hs) n). }
  assert (Hreach : reaches h n (λ h', disk_ok h' n (d_with_meta d (current_term a1) (voted_for a1) (commit_index a1)))).
  { eapply reaches_mono, Hmove. intros h1 _ (E1 & Hp & _). by apply Hd. }
  destruct (meta_landed h n a1 s d Hs Es Hsd D (commit_index a1) Hreach) as (s' & Es' & Hout).
  unfold persist_hard_state. destruct (persist_hard_state_at _ a1) as [a2 ok]. simpl in Es', Hout |- *. subst a2. destruct ok; last first.
  { eapply failed_write; [done| |done|done]. simpl. rewrite Eo. apply (vo_outbox _ _ _ Hv). }
  eapply reaches_bind; [done|exact Hmove|]. intros h1 S1 E1 (_ & Hp & Hvd). apply reaches_here; [done|].
  split; [left|simpl; by rewrite Et, (vw_term _ _ _ V)].
  eapply healthy_core; [by apply core_set_store|]. rewrite Et, Ev, Ec in *.
  split_and!; [done| |eexists s', _; split_and!; [done|exact Hout| |by apply Hd]].
  - assert (Hv1 : volatile h1 n (set_state (state a) a)).
    { apply (volatile_mono h); rewrite ?Hp; try done. apply Hv. }
    by destruct Hv1; constructor.
  - destruct M. constructor; unfold d_index, d_index_term in *; simpl; try done; lia.
Qed.

Definition vote_resp_ok (h : Hist) (n : string) (req : RequestVoteReq) (r : RequestVoteResp) : Prop :=
  vr_pre_vote req = false → vs_granted r = true → voted h n (vs_term r) (vr_candidate_id req).

Lemma handle_request_vote_ok e req h n c a :
  sound h → coupled h n a → vote_req_ok h c req → n ≠ c →
  reaches h n (λ h', coupled h' n (handle_request_vote e req a).1 ∧ vote_resp_ok h' n req (handle_request_vote e req a).2).
Proof.
  intros Hs Hc [Hid Hreq] Hne. unfold handle_request_vote.
  assert (Hrefuse : ∀ h' a', sound h' → coupled h' n a' → reaches h' n (λ h', coupled h' n a' ∧ vote_resp_ok h' n req (mkVoteResp (current_term a') false))).
  { intros h' a' S' C'. apply reaches_here; [done|]. by split. }
  destruct (is_faulty a) eqn:Hf; [by apply Hrefuse|]. destruct (_ <? _) eqn:Hz; [by apply Hrefuse|].
  destruct (vr_pre_vote req) eqn:Hpre; [apply reaches_here; [done|]; split; [done|]; by intros E; rewrite Hpre in E|].
  destruct (_ <? current_term a) eqn:Hlow; [by apply Hrefuse|]. bools. pose proof (coupled_healthy _ _ _ Hc Hf) as Hh.
  destruct Hreq as [?|(l & Hb & Hli & Hlt)]; [congruence|].
  set (a1 := if current_term a <? vr_term req then step_down e (vr_term req) None a else a).
  assert (Hdown : reaches h n (λ h', coupled h' n a1) ∧ (is_faulty a1 = false → current_term a1 = vr_term req)).
  { unfold a1. destruct (Z.ltb_spec (current_term a) (vr_term req)); [|split; [by apply reaches_here|intros; lia]].
    split; [by apply step_down_ok|]. intros. by apply step_down_term. }
  destruct Hdown as [Hdown Ht1]. clearbody a1. eapply reaches_bind; [done|exact Hdown|]. intros h1 S1 E1 Hc1.
  destruct (is_faulty a1) eqn:Hf1; [by apply Hrefuse|]. specialize (Ht1 eq_refl). pose proof (coupled_healthy _ _ _ Hc1 Hf1) as Hh1.
  pose proof (healthy_view _ _ _ S1 Hh1) as V1. destruct (is_none_or _ _ && log_ok req a1) eqn:Hgrant; [|by apply Hrefuse].
  apply andb_true_iff in Hgrant as [Hcan Hlog].
  assert (Hvote : voted_for a1 = None ∨ voted_for a1 = Some c).
  { destruct (voted_for a1) as [v|]; simpl in Hcan; [right|by left]. apply String.eqb_eq in Hcan. congruence. }
  assert (Hb1 : (c, p_term (peer h1 n), c, l) ∈ ballots h1) by (rewrite <- (vw_term _ _ _ V1), Ht1; by apply (ex_ballots _ _ _ E1)).
  assert (Hu : up_to_date l (p_log (peer h1 n))).
  { unfold log_ok in Hlog. rewrite (view_last_term _ _ _ V1), (vw_last _ _ _ V1), Hli, Hlt in Hlog. unfold up_to_date. bools.
    destruct Hlog as [?|?]; bools; [by left|right]. split; [done|lia]. }
  pose proof (grant_ok e h1 n a1 c l "persisting granted vote" S1 Hh1 Hne Hvote Hb1 Hu) as Hg. rewrite Hid.
  destruct (persist_hard_state _) as [a2 ok]. simpl in Hg. destruct ok; cbn [negb].
  - eapply reaches_mono, Hg. intros h2 _ [Hc2 Hv2]. split; [done|]. intros _ _. simpl. by rewrite Hid.
  - eapply reaches_bind; [done|exact Hg|]. intros h2 S2 _ Hc2. by apply Hrefuse.
Qed.

(** ** Matching logs *)

(** Logs that hold the same term at an index agree up to it. *)
Lemma log_match h n t c L p :
  spec_inv mems h → leads h !! t = Some (c, L) → (p ≤ length L)%nat → log_term (p_log (peer h n)) p = log_term L p →
  agree p (p_log (peer h n)) L.
Proof.
  intros I HL Hp Ht. destruct (si_peer _ _ I n) as (_ & _ & Hop & _). destruct (si_lead _ _ I _ _ _ HL) as (_ & HtL & HoL & _).
  destruct p as [|p]; [split; [lia|done]|]. simpl in Ht. destruct (lookup_lt_is_Some_2 L p) as [y Hy]; [lia|]. rewrite Hy in Ht. simpl in Ht.
  pose proof (HtL y ltac:(by eapply list_elem_of_lookup_2)) as Hy1.
  destruct (p_log (peer h n) !! p) as [x|] eqn:Hx; simpl in Ht; [|lia].
  destruct (Hop _ _ Hx) as (c1 & L1 & HL1 & E1). destruct (HoL _ _ Hy) as (c2 & L2 & HL2 & E2).
  rewrite Ht, HL2 in HL1. injection HL1 as <- <-. split; [by apply lookup_lt_Some in Hx|by rewrite E1, E2].
Qed.

Lemma agree_le i j l L : (i ≤ j)%nat → agree j l L → agree i l L.
Proof. intros Hij [Hl E]. split; [lia|by eapply take_agree_le]. Qed.

(** ** Merging a batch *)

Lemma take_prefix_take (L : list LogEntry) i j : (i ≤ j)%nat → take i L `prefix_of` take j L.
Proof. intros Hij. rewrite <- (Nat.min_l i j Hij), <- firstn_firstn at 1. apply prefix_take. Qed.


Lemma get_entry_drop (l : list LogEntry) k p : (k ≤ p)%nat → get_entry (drop k l) (Z.of_nat p - Z.of_nat k) = l !! p.
Proof. intros Hk. unfold get_entry. rewrite lookup_drop. f_equal. lia. Qed.

(** Past the point of divergence every entry is appended. *)
Lemma merge_append L k commit entries : ∀ p m,
  (k ≤ p)%nat → (p + length entries ≤ length L)%nat → entries = drop p (take (p + length entries) L) → merged_log m = drop k (take p L) →
  merge_entries (Z.of_nat k) commit (Z.of_nat p) m entries =
  mkMerged (drop k (take (p + length entries) L)) (truncated m) (grew m || negb (bool_decide (entries = []))) (rejected m).
Proof.
  induction entries as [|x entries IH]; intros p m Hk Hlen Heq Hm; simpl.
  - rewrite Nat.add_0_r, orb_false_r. destruct m; simpl in *. by rewrite Hm.
  - simpl in Hlen, Heq. assert (Hx : L !! p = Some x).
    { rewrite <- (lookup_take_lt L (p + S (length entries)) p) by lia.
      rewrite <- (take_drop p (take (p + S (length entries)) L)), <- Heq, lookup_app_r; rewrite length_take, length_take; [|lia].
      by replace (p - _)%nat with O by lia. }
    destruct (Z.leb_spec (Z.of_nat p + 1) (Z.of_nat k)); [lia|].
    replace (Z.of_nat p + 1 - Z.of_nat k - 1) with (Z.of_nat p - Z.of_nat k) by lia.
    rewrite Hm, get_entry_drop, lookup_take_ge by lia.
    replace (Z.of_nat p + 1) with (Z.of_nat (S p)) by lia. rewrite (IH (S p)); simpl.
    + replace (S (p + length entries)) with (p + S (length entries))%nat by lia. by rewrite !orb_true_r.
    + lia.
    + lia.
    + replace (S (p + length entries)) with (p + S (length entries))%nat by lia.
      apply (f_equal (drop 1)) in Heq. rewrite drop_drop, Nat.add_1_r in Heq. done.
    + rewrite (take_S_r _ _ _ Hx), drop_app_le; [done|]. rewrite length_take. lia.
Qed.

(** The batch from a point of agreement: nothing changes, or the log becomes the
    leader's up to the end of the batch. *)
Lemma merge_result h n t c L k entries : 
  spec_inv mems h → leads h !! t = Some (c, L) → let l := p_log (peer h n) in let commit := p_commit (peer h n) in
  (k ≤ commit)%nat → agree commit l L →
  ∀ p, (p + length entries ≤ length L)%nat → entries = drop p (take (p + length entries) L) → agree p l L →
  let j := (p + length entries)%nat in
  let m := merge_entries (Z.of_nat k) (Z.of_nat commit) (Z.of_nat p) (mkMerged (drop k l) false false false) entries in
  (agree j l L ∧ m = mkMerged (drop k l) false false false) ∨
  (¬ agree j l L ∧ (commit ≤ j)%nat ∧ merged_log m = drop k (take j L) ∧ rejected m = false ∧
   (truncated m = true ∨ truncated m = false ∧ grew m = true ∧ l `prefix_of` take j L)).
Proof.
  intros I HL l commit Hk Hcommit. induction entries as [|x entries IH]; intros p Hlen Heq Hag; simpl.
  - left. split; [by rewrite Nat.add_0_r|done].
  - simpl in Hlen, Heq. assert (Hx : L !! p = Some x).
    { rewrite <- (lookup_take_lt L (p + S (length entries)) p) by lia.
      rewrite <- (take_drop p (take (p + S (length entries)) L)), <- Heq, lookup_app_r; rewrite length_take, length_take; [|lia].
      by replace (p - _)%nat with O by lia. }
    assert (Hrest : entries = drop (S p) (take (S p + length entries) L)).
    { replace (S p + length entries)%nat with (p + S (length entries))%nat by lia.
      apply (f_equal (drop 1)) in Heq. rewrite drop_drop, Nat.add_1_r in Heq. done. }
    assert (Hnext : agree (S p) l L → _) by exact (IH (S p) ltac:(lia) Hrest).
    replace (Z.of_nat p + 1) with (Z.of_nat (S p)) by lia. replace (p + S (length entries))%nat with (S p + length entries)%nat by lia.
    destruct (Z.leb_spec (Z.of_nat (S p)) (Z.of_nat k)) as [Hin|Hout].
    { apply Hnext. apply (agree_le _ commit); [lia|done]. }
    replace (Z.of_nat (S p) - Z.of_nat k - 1) with (Z.of_nat p - Z.of_nat k) by lia. rewrite get_entry_drop by lia.
    destruct (l !! p) as [y|] eqn:Hy.
    + destruct (Z.eqb_spec (e_term y) (e_term x)) as [Ht|Ht].
      { apply Hnext. apply (log_match h n t c); [done|done|lia|]. simpl. fold l. rewrite Hy, Hx. done. }
      assert (Hno : ∀ i, agree i l L → (i ≤ p)%nat).
      { intros i [Hi E]. apply Nat.nlt_ge. intros Hlt. rewrite (take_agree_lookup i p l L E Hlt), Hx in Hy. injection Hy as ->. done. }
      pose proof (Hno _ Hcommit). destruct (Z.leb_spec (Z.of_nat (S p)) (Z.of_nat commit)); [lia|].
      replace (Z.to_nat (Z.of_nat p - Z.of_nat k)) with (p - k)%nat by lia.
      rewrite (merge_append L k) by (simpl; try done; try lia; destruct Hag as [Hp Ep];
        rewrite (take_S_r _ _ _ Hx), drop_app_le, <- Ep by (rewrite length_take; apply lookup_lt_Some in Hx; lia); by rewrite skipn_firstn_comm).
      right. simpl. split_and!; [intros Ha; apply Hno in Ha; lia|lia|done|done|by left].
    + assert (length l = p) as Hlp by (destruct Hag; apply lookup_ge_None in Hy; lia).
      assert (Hno : ∀ i, agree i l L → (i ≤ p)%nat) by (intros i [? _]; lia). pose proof (Hno _ Hcommit).
      assert (El : l = take p L) by (destruct Hag as [_ E]; rewrite <- E, take_ge; [done|lia]).
      rewrite (merge_append L k) by (simpl; try done; try lia;
        rewrite El at 1; rewrite (take_S_r _ _ _ Hx), drop_app_le by (rewrite length_take; apply lookup_lt_Some in Hx; lia); done).
      right. simpl. split_and!; [intros Ha; apply Hno in Ha; lia|lia|done|done|right].
      split_and!; [done|done|]. rewrite El. apply take_prefix_take. lia.
Qed.

(** ** Appended entries *)

(** What the follower's log will be, and whether the commit index it takes from
    the request stays within what the request vouches for. *)
Definition follower_log (req : AppendEntriesReq) (a : ShardActor) : list LogEntry :=
  merged_log (merge_entries (snapshot_index a) (commit_index a) (ar_prev_log_index req) (mkMerged (log a) false false false) (ar_entries req)).

Definition commit_covered (req : AppendEntriesReq) (a : ShardActor) : Prop :=
  Z.min (ar_leader_commit req) (snapshot_index a + Z.of_nat (length (follower_log req a)))
    ≤ ar_prev_log_index req + Z.of_nat (length (ar_entries req)) ∨
  from_option e_term 0 (last (follower_log req a)) = ar_term req.

Definition append_resp_ok (h : Hist) (n : string) (req : AppendEntriesReq) (r : AppendEntriesResp) : Prop :=
  as_success r = true → as_term r = ar_term req ∧
    acked h n (ar_term req) (Z.to_nat (ar_prev_log_index req + Z.of_nat (length (ar_entries req)))).

Lemma accept_move h n c L j :
  sound h → p_role (peer h n) = Follower → leads h !! p_term (peer h n) = Some (c, L) → (j ≤ length L)%nat → ¬ agree j (p_log (peer h n)) L →
  let h1 := set_peer h n (RaftSpec.with_log (peer h n) (take j L)) in spec_step mems h n h1 ∧ small h1 ∧ extends n h h1.
Proof.
  intros Hs Hr HL Hj Hno h1. assert (Hstep : spec_step mems h n h1).
  { apply (spec_accept _ _ _ c L j); [done|done|done|]. intros i Hi. apply Nat.nlt_ge. intros Hlt. apply Hno. apply (agree_le _ i); [lia|done]. }
  split_and!; [done|by apply (small_same h); [|apply Hs]|by eapply spec_step_extends, Hstep; apply Hs].
Qed.

(** The disk with the leader's log up to [j]. *)
Lemma disk_accept_ok h h1 n d c L j :
  sound h → disk_ok h n d → leads h !! p_term (peer h n) = Some (c, L) → (p_commit (peer h n) ≤ j ≤ length L)%nat →
  peer h1 n = RaftSpec.with_log (peer h n) (take j L) →
  disk_ok h1 n (d_with_log d (drop (Z.to_nat (d_index d)) (take j L))).
Proof.
  intros Hs [] HL Hj Hp. destruct (commit_agrees mems h n c L (so_inv _ Hs) HL) as [Hc E].
  assert (Hk : (Z.to_nat (d_index d) ≤ p_commit (peer h n))%nat) by lia.
  constructor; unfold d_index, d_index_term in *; simpl in *; rewrite ?Hp; simpl; try done.
  - rewrite do_index_term. destruct (Z.to_nat _) as [|k]; [done|]. simpl. rewrite lookup_take_lt by lia.
    by rewrite (take_agree_lookup (p_commit (peer h n)) k _ L E) by lia.
  - intros p' Hp'. rewrite firstn_firstn, Nat.min_l by lia. rewrite <- (take_agree_le _ (p_commit (peer h n)) (p_log (peer h n)) L) by done. by apply do_snapshot.
Qed.

(** The log update of a batch: the member agrees with the leader up to the end
    of the batch, on disk and in memory. *)
Lemma update_log_ok h n a c L j m op :
  sound h → healthy h n a → role a = Follower → leads h !! p_term (peer h n) = Some (c, L) → (j ≤ length L)%nat →
  (agree j (p_log (peer h n)) L ∧ m = mkMerged (log a) false false false ∨
   ¬ agree j (p_log (peer h n)) L ∧ (p_commit (peer h n) ≤ j)%nat ∧ merged_log m = drop (Z.to_nat (snapshot_index a)) (take j L) ∧
   (truncated m = true ∨ truncated m = false ∧ grew m = true ∧ p_log (peer h n) `prefix_of` take j L)) →
  let a1 := set_log (merged_log m) a in
  let r := if truncated m then persist_log_rewrite a1 else if grew m then persist_log_append a1 else (a1, true) in
  if r.2 then reaches h n (λ h', healthy h' n r.1 ∧ agree j (p_log (peer h' n)) L ∧ p_term (peer h' n) = p_term (peer h n))
  else reaches h n (λ h', coupled h' n (fail_storage op r.1)).
Proof.
  intros Hs Hh Hr HL Hj Hm. pose proof (healthy_view _ _ _ Hs Hh) as V. pose proof Hh as (Hf & Hv & s & d & Hst & Hsd & M & D).
  destruct Hm as [[Hag ->]|(Hno & Hcj & Hlog & Hflag)]; simpl.
  { apply reaches_here; [done|]. split_and!; [|done..]. eapply healthy_core, Hh. by destruct a. }
  rewrite (vo_role _ _ _ Hv) in Hr. destruct (accept_move h n c L j Hs Hr HL Hj Hno) as (Hstep & Hsm & E1).
  set (h1 := set_peer h n (RaftSpec.with_log (peer h n) (take j L))) in *.
  rewrite (mi_index _ _ M) in Hlog.
  assert (Hd1 : disk_ok h1 n (d_with_log d (merged_log m))) by (rewrite Hlog; eapply disk_accept_ok; eauto; by unfold h1; member).
  assert (Hreach : reaches h n (λ h', disk_ok h' n (d_with_log d (merged_log m)))).
  { eapply reaches_step; [done|exact Hstep|done|]. intros. by apply reaches_here. }
  destruct (commit_agrees mems h n c L (so_inv _ Hs) HL) as [Hcl Ecl].
  set (a1 := set_log (merged_log m) a). set (r := if truncated m then _ else _).
  assert (Hland : landed h n a1 r (d_with_log d (merged_log m))).
  { unfold r. destruct Hflag as [->|(-> & -> & [l2 Hpre])]; [by apply (rewrite_landed h n a1 s d)|].
    assert (El2 : merged_log m = d_log d ++ l2).
    { rewrite Hlog, Hpre, (do_log _ _ _ D). pose proof (do_index _ _ _ D). rewrite drop_app_le; [done|lia]. }
    apply (append_landed h n a1 s d Hs Hst Hsd D l2); [done|]. intros i.
    assert (Htake : d_log d ++ take i l2 = drop (Z.to_nat (d_index d)) (take (Nat.min j (length (p_log (peer h n)) + i)) L)).
    { rewrite (Nat.min_comm j), <- firstn_firstn, Hpre, (do_log _ _ _ D). pose proof (do_index _ _ _ D).
      rewrite take_app_add. rewrite drop_app_le; [done|lia]. }
    rewrite Htake. set (i' := Nat.min j (length (p_log (peer h n)) + i)).
    assert (Hpl : p_log (peer h n) = take (length (p_log (peer h n))) L).
    { apply (prefix_of_take j). by exists l2. }
    assert (Hlen : (length (p_log (peer h n)) ≤ j)%nat) by (apply (f_equal length) in Hpre; rewrite length_take, length_app in Hpre; lia).
    destruct (decide (i' ≤ length (p_log (peer h n)))%nat) as [Hag|Hlt].
    - apply reaches_here; [done|]. assert (Hi' : i' = length (p_log (peer h n))) by (unfold i' in *; lia).
      rewrite Hi', <- Hpl, <- (do_log _ _ _ D). by destruct d.
    - assert (Hna : ¬ agree i' (p_log (peer h n)) L) by (intros [? _]; lia).
      destruct (accept_move h n c L i' Hs Hr HL ltac:(unfold i'; lia) Hna) as (Hstep' & Hsm' & E').
      eapply reaches_step; [done|exact Hstep'|done|]. intros. apply reaches_here; [done|].
      apply (disk_accept_ok h _ n d c L i'); [done|done|done|unfold i'; lia|by member]. }
  destruct Hland as (s' & Es & Hout). destruct r as [a2 ok]. simpl in Es, Hout |- *. subst a2. destruct ok; last first.
  { eapply failed_write; [done| |done|done]. apply (vo_outbox _ _ _ Hv). }
  eapply reaches_step; [done|exact Hstep|done|]. intros S1. apply reaches_here; [done|].
  split_and!; [|split; [unfold h1; member; rewrite length_take; lia|unfold h1; member; by rewrite firstn_firstn, Nat.min_id]|by unfold h1; member].
  split_and!; [done| |exists s', (d_with_log d (merged_log m)); split_and!; [done|done|by destruct M; constructor|done]].
  destruct Hv. constructor; simpl; rewrite ?fn_lookup_insert; simpl; try done.
  - rewrite vo_state, firstn_firstn, Nat.min_l, Ecl by lia. done.
  - intros ls E. rewrite vo_role, Hr in E. done.
Qed.

(** The member acknowledges the prefix it shares with the leader. *)
Lemma ack_ok h n a c L j :
  sound h → healthy h n a → leads h !! p_term (peer h n) = Some (c, L) → agree j (p_log (peer h n)) L →
  reaches h n (λ h', healthy h' n a ∧ peer h' n = peer h n ∧ acked h' n (p_term (peer h n)) j).
Proof.
  intros Hs (Hf & Hv & s & d & Hst & Hsd & M & D) HL Hag. set (h1 := acknowledge h n (p_term (peer h n)) j).
  assert (Hstep : spec_step mems h n h1) by (by apply (spec_ack _ _ _ c L); [apply elem_of_mems, (vo_member _ _ _ Hv)|..]).
  eapply reaches_step; [done|exact Hstep|by apply (small_same h); [|apply Hs]|]. intros S1. apply reaches_here; [done|].
  pose proof (spec_step_extends _ _ _ _ (so_inv _ Hs) Hstep) as E1. split_and!; [|done|exists j; split; [done|left]].
  split_and!; [done| |exists s, d; split_and!; [done|done|done|by destruct D; constructor]].
  apply (volatile_mono h h1 n a (state a)) in Hv; [by destruct Hv; constructor|done|done|done|done|done|apply Hv].
Qed.

Lemma agree_grow j l L L' : agree j l L → L `prefix_of` L' → agree j l L'.
Proof.
  intros [Hj E] Hpre. split; [done|]. rewrite E. symmetry. apply prefix_take_le; [done|]. by eapply take_agree_length.
Qed.

(** The commit index the follower takes is a commit of the leader. *)
Lemma follower_commit h n t c L j i :
  sound h → leads h !! t = Some (c, L) → agree j (p_log (peer h n)) L → commit_ok h t L i → (0 < i ≤ length (p_log (peer h n)))%nat →
  (i ≤ j)%nat ∨ last_term (p_log (peer h n)) = t →
  ∃ t', t' ≤ t ∧ committed_by mems h t' (take i (p_log (peer h n))).
Proof.
  intros Hs HL Hag [HiL [?|(t' & Ht & Hc)]] Hi Hcov; [lia|]. exists t'. split; [done|].
  assert (E : take i (p_log (peer h n)) = take i L); [|by rewrite E].
  destruct Hcov as [Hij|Hlast]; [by apply (agree_le i j)|]. destruct (si_lead _ _ (so_inv _ Hs) _ _ _ HL) as (Ht2 & _).
  destruct (last_term_lookup (p_log (peer h n))) as (x & Hx & Hxt); [lia|].
  destruct (si_peer _ _ (so_inv _ Hs) n) as (_ & _ & Hop & _). destruct (Hop _ _ Hx) as (c1 & L1 & HL1 & E).
  rewrite Hxt, Hlast, HL in HL1. injection HL1 as <- <-.
  by apply (take_agree_le i (S (length (p_log (peer h n)) - 1))); [lia|].
Qed.

Lemma update_only m a :
  ∃ s, (if truncated m then persist_log_rewrite a else if grew m then persist_log_append a else (a, true)).1 = set_store s a.
Proof.
  destruct (truncated m); [|destruct (grew m)].
  - unfold persist_log_rewrite. destruct (store a) as [s|] eqn:E; [|exists None; destruct a; simpl in *; by subst].
    destruct (rewrite_log _ _). eauto.
  - destruct (persist_log_append a) as [a1 ok] eqn:E. by apply persist_append_only in E.
  - exists (store a). by destruct a.
Qed.

(** A request whose previous entry matches starts from a point of agreement. *)
Lemma prev_agrees h n a c L prev :
  sound h → view h n a → leads h !! p_term (peer h n) = Some (c, L) → 0 ≤ prev → (Z.to_nat prev ≤ length L)%nat →
  prev = 0 ∨ term_at a prev = log_term L (Z.to_nat prev) → agree (Z.to_nat prev) (p_log (peer h n)) L.
Proof.
  intros Hs V HL Hp0 Hlen Hprev. pose proof (so_inv _ Hs) as I. destruct Hprev as [->|Ht]; [split; [simpl; lia|done]|].
  destruct (decide (prev = 0)) as [->|Hne]; [split; [simpl; lia|done]|].
  apply (log_match h n (p_term (peer h n)) c); [done|done|done|]. rewrite <- Ht.
  destruct (decide (snapshot_index a ≤ prev)) as [Hge|Hlt]; [by rewrite (view_term_at _ _ _ _ V)|]. exfalso.
  assert (Hz : term_at a prev = 0).
  { unfold term_at. destruct (Z.eqb_spec prev 0); [done|]. destruct (Z.eqb_spec prev (snapshot_index a)); [lia|].
    by rewrite (proj2 (Z.ltb_lt _ _)) by lia. }
  destruct (si_lead _ _ I _ _ _ HL) as (_ & HtL & _). rewrite Hz in Ht. destruct (Z.to_nat prev) as [|p] eqn:Ep; [lia|]. simpl in Ht.
  destruct (lookup_lt_is_Some_2 L p) as [y Hy]; [lia|]. rewrite Hy in Ht. apply list_elem_of_lookup_2, HtL in Hy. simpl in Ht. lia.
Qed.

(** The end of the handler: commit as far as the request allows, and acknowledge. *)
Definition settle (e : Env) (req : AppendEntriesReq) (a : ShardActor) : ShardActor * AppendEntriesResp :=
  let new_commit := Z.min (ar_leader_commit req) (last_log_index a) in
  if (commit_index a <? ar_leader_commit req) && (commit_index a <? new_commit) then
    let a := commit_to e "persisting follower commit index" new_commit a in
    if is_faulty a then (a, append_reply false (commit_index a) a) else (a, append_reply true (last_log_index a) a)
  else (a, append_reply true (last_log_index a) a).

Lemma settle_ok e req h n a c L j i :
  sound h → healthy h n a → current_term a = ar_term req → leads h !! ar_term req = Some (c, L) → agree j (p_log (peer h n)) L →
  commit_ok h (ar_term req) L i → ar_leader_commit req = Z.of_nat i →
  Z.of_nat j = ar_prev_log_index req + Z.of_nat (length (ar_entries req)) →
  Z.min (ar_leader_commit req) (snapshot_index a + Z.of_nat (length (log a))) ≤ Z.of_nat j ∨
    from_option e_term 0 (last (log a)) = ar_term req →
  acked h n (ar_term req) j →
  reaches h n (λ h', coupled h' n (settle e req a).1 ∧ append_resp_ok h' n req (settle e req a).2).
Proof.
  intros Hs Hh Hterm HL Hag Hc Hi Hj Hcov Hack. pose proof (healthy_view _ _ _ Hs Hh) as V. unfold settle.
  assert (Hgoal : ∀ h' a', sound h' → extends n h h' → coupled h' n a' → current_term a' = current_term a → ∀ x,
    reaches h' n (λ h', coupled h' n a' ∧ append_resp_ok h' n req (append_reply true x a'))).
  { intros h' a' S' E' Hc' Et x. apply reaches_here; [done|]. split; [done|]. intros _. simpl. rewrite Et, Hterm. split; [done|].
    rewrite <- Hj, Nat2Z.id. by eapply acked_mono. }
  rewrite Hi, (vw_last _ _ _ V), (vw_commit _ _ _ V).
  destruct (_ && _) eqn:Hadv; [|apply Hgoal; [done|apply extends_refl|by left|done]].
  apply andb_true_iff in Hadv as [Hlt1 Hlt2]. bools. set (i2 := Nat.min i (length (p_log (peer h n)))).
  replace (Z.min (Z.of_nat i) (Z.of_nat (length (p_log (peer h n))))) with (Z.of_nat i2) in * by (unfold i2; lia).
  destruct (follower_commit h n (ar_term req) c L j i2 Hs HL Hag) as (t' & Ht' & Hcm).
  { eapply commit_ok_prefix; [exact Hc|unfold i2; lia]. }
  { unfold i2 in *. lia. }
  { destruct Hcov as [Hle|Hlast]; [left|right].
    - rewrite Hi, (vw_length _ _ _ V) in Hle. unfold i2. lia.
    - rewrite <- (view_last_term _ _ _ V), <- Hlast. unfold last_log_term. destruct (last (log a)); [done|]. simpl in Hlast.
      destruct (si_lead _ _ (so_inv _ Hs) _ _ _ HL) as (? & _). lia. }
  rewrite <- Hterm, (vw_term _ _ _ V) in Ht'.
  eapply reaches_bind; [done|apply (commit_to_ok e "persisting follower commit index" h n a t' i2 Hs Hh Ht'); [unfold i2 in *; lia|done]|].
  intros h3 S3 E3 Hc3. destruct (is_faulty _) eqn:Hf3; [apply reaches_here; [done|]; split; [done|by intros ?]|].
  apply Hgoal; [done|done|done|]. destruct (commit_to_calm e "persisting follower commit index" (Z.of_nat i2) a) as [[_ ?]|(_ & _ & ?)]; [congruence|done].
Qed.

Lemma store_entries_ok e req c h n a :
  sound h → healthy h n a → role a = Follower → current_term a = ar_term req → append_req_ok h c req → commit_covered req a →
  ar_prev_log_index req = 0 ∨ term_at a (ar_prev_log_index req) = ar_prev_log_term req →
  reaches h n (λ h', coupled h' n (store_entries e req a).1 ∧ append_resp_ok h' n req (store_entries e req a).2).
Proof.
  intros Hs Hh Hrole Hterm (_ & Hp0 & L & HL & Hj & Hent & Hpt & i & Hi & Hc) Hcov Hprev. cbv zeta in *.
  pose proof (healthy_view _ _ _ Hs Hh) as V. pose proof (so_inv _ Hs) as I.
  assert (HLn : leads h !! p_term (peer h n) = Some (c, L)) by (by rewrite <- (vw_term _ _ _ V), Hterm).
  destruct (commit_agrees mems h n c L I HLn) as [Hcl Ecl]. rewrite Hpt in Hprev.
  pose proof (prev_agrees h n a c L _ Hs V HLn Hp0 ltac:(lia) Hprev) as Hagp.
  set (p := Z.to_nat (ar_prev_log_index req)) in *. set (len := length (ar_entries req)) in *. pose proof (vw_index _ _ _ V) as Hk.
  unfold store_entries, commit_covered, follower_log in *.
  rewrite (vw_log _ _ _ V), (vw_commit _ _ _ V) in *. set (k := Z.to_nat (snapshot_index a)) in *.
  replace (snapshot_index a) with (Z.of_nat k) in Hcov |- * by lia. replace (ar_prev_log_index req) with (Z.of_nat p) in Hcov |- * by lia.
  pose proof (merge_result h n (p_term (peer h n)) c L k (ar_entries req) I HLn ltac:(lia) (conj Hcl Ecl) p ltac:(lia) Hent Hagp) as Hm.
  cbv zeta in Hm. set (m := merge_entries _ _ _ _ _) in *. clearbody m. set (j := (p + len)%nat) in *.
  assert (Hrej : rejected m = false) by (destruct Hm as [[_ ->]|(_ & _ & _ & -> & _)]; done). rewrite Hrej. fold len in Hcov.
  pose proof (update_log_ok h n a c L j m "persisting follower log update" Hs Hh Hrole HLn Hj) as Hup.
  rewrite (vw_log _ _ _ V) in Hup. fold k in Hup.
  specialize (Hup ltac:(destruct Hm as [?|(? & ? & ? & _ & ?)]; [by left|by right])). cbv zeta in Hup.
  pose proof (update_only m (set_log (merged_log m) a)) as Honly.
  destruct (if truncated m then _ else _) as [a2 ok]. simpl in Hup, Honly. destruct Honly as [s2 ->].
  set (a2 := set_store s2 (set_log (merged_log m) a)) in *. destruct ok; cbn [negb]; last first.
  { eapply reaches_mono, Hup. intros h1 _ Hc1. split; [done|]. by intros ?. }
  eapply reaches_bind; [done|exact Hup|]. intros h1 S1 E1 (Hh1 & Hag1 & Hpt1).
  destruct (ex_leads _ _ _ E1 _ _ _ HL) as (L1 & HL1 & Hpre1 & _).
  pose proof (commit_ok_mono n h h1 _ L L1 i I E1 Hpre1 Hc) as Hc1.
  assert (Hag1' : agree j (p_log (peer h1 n)) L1) by (eapply agree_grow; eauto).
  assert (Et1 : p_term (peer h1 n) = ar_term req) by (rewrite Hpt1, <- Hterm; symmetry; apply V).
  eapply reaches_bind; [done|apply (ack_ok h1 n a2 c L1 j S1 Hh1); [by rewrite Et1|done]|]. intros h2 S2 E2 (Hh2 & Hpeer & Hack).
  destruct (ex_leads _ _ _ E2 _ _ _ HL1) as (L2 & HL2 & Hpre2 & _). rewrite Et1 in Hack.
  apply (settle_ok e req h2 n a2 c L2 j i S2 Hh2 Hterm HL2); [| |done|lia| |done].
  - rewrite Hpeer. by eapply agree_grow.
  - by eapply commit_ok_mono; [apply S1|..].
  - unfold a2, j. simpl. replace (snapshot_index a) with (Z.of_nat k) by lia. rewrite Nat2Z.inj_add. exact Hcov.
Qed.

Lemma covered_same req a a' :
  log a' = log a → snapshot_index a' = snapshot_index a → commit_index a' = commit_index a → commit_covered req a → commit_covered req a'.
Proof. intros E1 E2 E3. unfold commit_covered, follower_log. by rewrite E1, E2, E3. Qed.

Lemma become_follower_core e to a : core (become_follower_of e to a) = core (set_votes ∅ (set_leader None (set_role Follower a))).
Proof.
  unfold become_follower_of. rewrite core_fail_pending, core_reset.
  pose proof (core_fields _ _ (core_transfer (role a) Follower a)) as C. destruct C. apply same_core_core.
  constructor; simpl; first [assumption|reflexivity].
Qed.

(** A request of a term that is not behind: the member follows it, unless the
    disk failed. *)
Definition catch_up (e : Env) (term : Z) (a : ShardActor) : ShardActor := if current_term a <? term then step_down e term None a else a.

Lemma catch_up_ok e term h n a :
  sound h → healthy h n a → current_term a ≤ term →
  reaches h n (λ h', coupled h' n (catch_up e term a)) ∧
  (is_faulty (catch_up e term a) = false → current_term (catch_up e term a) = term ∧ log (catch_up e term a) = log a ∧
     snapshot_index (catch_up e term a) = snapshot_index a ∧ commit_index (catch_up e term a) = commit_index a).
Proof.
  intros Hs Hh Hle. unfold catch_up. destruct (Z.ltb_spec (current_term a) term).
  - split; [by apply step_down_ok|]. intros. by apply step_down_term.
  - split; [by apply reaches_here; [|left]|]. intros _. split_and!; [lia|done..].
Qed.

Lemma handle_append_entries_ok e req c h n a :
  sound h → coupled h n a → append_req_ok h c req → commit_covered req a →
  reaches h n (λ h', coupled h' n (handle_append_entries e req a).1 ∧ append_resp_ok h' n req (handle_append_entries e req a).2).
Proof.
  intros Hs Hc Hreq Hcov. unfold handle_append_entries.
  assert (Hrefuse : ∀ h' a' x, sound h' → coupled h' n a' → reaches h' n (λ h', coupled h' n a' ∧ append_resp_ok h' n req (append_reply false x a'))).
  { intros h' a' x S' C'. apply reaches_here; [done|]. split; [done|]. by intros ?. }
  destruct (is_faulty a) eqn:Hf; [by apply Hrefuse|]. destruct (_ <? current_term a) eqn:Hlow; [by apply Hrefuse|]. bools.
  pose proof (coupled_healthy _ _ _ Hc Hf) as Hh. destruct (catch_up_ok e (ar_term req) h n a Hs Hh Hlow) as [Hup Hfields].
  fold (catch_up e (ar_term req) a). set (a1 := catch_up e (ar_term req) a) in *. clearbody a1.
  eapply reaches_bind; [done|exact Hup|]. intros h1 S1 E1 Hc1. destruct (is_faulty a1) eqn:Hf1; [by apply Hrefuse|].
  destruct (Hfields eq_refl) as (Et1 & El1 & Ek1 & Ec1). destruct (_ <? _); [by apply Hrefuse|]. destruct (negb _); [by apply Hrefuse|].
  pose proof (coupled_healthy _ _ _ Hc1 Hf1) as Hh1.
  pose proof (core_fields _ _ (become_follower_core e (ar_leader_id req) a1)) as C.
  eapply reaches_bind; [done|exact (become_follower_ok e (ar_leader_id req) h1 n a1 S1 Hh1)|]. intros h2 S2 E2 [Hh2 _].
  set (a2 := become_follower_of e (ar_leader_id req) a1) in *. clearbody a2. destruct C; simpl in *.
  destruct ((0 <? _) && _) eqn:Hprev; [apply Hrefuse; [done|by left]|].
  apply (store_entries_ok e req c); [done|done|done|congruence| | |].
  - apply (append_req_ok_mono n h1); [apply S1|done|]. by apply (append_req_ok_mono n h); [apply Hs|..].
  - apply (covered_same req a); congruence.
  - apply andb_false_iff in Hprev as [Hp|Hp]; bools; [left|by right]. destruct Hreq as (_ & Hp0 & _). lia.
Qed.

(** ** Installed snapshots *)

Definition snapshot_resp_ok (h : Hist) (n : string) (req : InstallSnapshotReq) (r : InstallSnapshotResp) : Prop :=
  ss_success r = true → ss_term r = sr_term req ∧ acked h n (sr_term req) (Z.to_nat (sr_last_included_index req)).

(** The entries after an index, by their own index. *)
Lemma filter_after h n (k i : nat) :
  spec_inv mems h → (k ≤ i)%nat →
  List.filter (λ x, Z.of_nat i <? e_index x) (drop k (p_log (peer h n))) = drop i (p_log (peer h n)).
Proof.
  intros I Hk. destruct (si_peer _ _ I n) as (_ & _ & _ & Hx & _). set (l := p_log (peer h n)) in *. clearbody l.
  assert (Hall : ∀ m b, (∀ y x, m !! y = Some x → (Z.of_nat i <? e_index x) = b) → List.filter (λ x, Z.of_nat i <? e_index x) m = if b then m else []).
  { clear. induction m as [|x m IH]; intros b Hm; [by destruct b|]. simpl. rewrite (Hm O x eq_refl).
    rewrite (IH b); [by destruct b|]. intros y z Hy. by apply (Hm (S y)). }
  rewrite <- (take_drop (i - k) (drop k l)), List.filter_app, (Hall _ false), (Hall _ true), drop_drop.
  - simpl. f_equal. lia.
  - intros y x Hy. rewrite !lookup_drop in Hy. apply Hx in Hy. apply Z.ltb_lt. lia.
  - intros y x [Hy Hlt]%lookup_take_Some. rewrite lookup_drop in Hy. apply Hx in Hy. apply Z.ltb_ge. lia.
Qed.

(** The log a follower keeps when it installs the leader's first [i] entries. *)
Lemma install_log h n c L i :
  sound h → leads h !! p_term (peer h n) = Some (c, L) → (p_commit (peer h n) < i ≤ length L)%nat → 
  let l := p_log (peer h n) in
  (log_term l i = log_term L i ∧ agree i l L) ∨ (log_term l i ≠ log_term L i ∧ ¬ agree i l L).
Proof.
  intros Hs HL Hi l. destruct (decide (log_term l i = log_term L i)) as [E|E]; [left|right]; (split; [done|]).
  - apply (log_match h n (p_term (peer h n)) c); [apply Hs|done|lia|done].
  - intros [Hl Ea]. apply E. destruct i as [|i]; [done|]. simpl. by rewrite (take_agree_lookup (S i) i l L Ea) by lia.
Qed.

(** The member takes over the leader's first [i] entries as committed, and keeps
    the rest of its log when that agrees. *)
Lemma install_move h n c L i :
  sound h → p_role (peer h n) = Follower → leads h !! p_term (peer h n) = Some (c, L) → (p_commit (peer h n) < i)%nat →
  commit_ok h (p_term (peer h n)) L i →
  let l := if decide (log_term (p_log (peer h n)) i = log_term L i) then p_log (peer h n) else take i L in
  agree i l L ∧ reaches h n (λ h', peer h' n = mkPeer (p_term (peer h n)) (p_vote (peer h n)) Follower l i).
Proof.
  intros Hs Hr HL Hi [HiL [?|(t' & Ht & Hc)]]; [lia|]. intros l.
  assert (Hcommit : ∀ h1, sound h1 → extends n h h1 → p_term (peer h1 n) = p_term (peer h n) → p_commit (peer h1 n) = p_commit (peer h n) →
    agree i (p_log (peer h1 n)) L → reaches h1 n (λ h', peer h' n = with_commit (peer h1 n) i)).
  { intros h1 S1 E1 Et Ec [Hl Ea].
    apply (reaches_step h1 n (set_peer h1 n (with_commit (peer h1 n) i))); [done| |by apply (small_same h1); [|apply S1]|].
    - apply (spec_commit _ _ _ t' i); [lia|lia|]. rewrite Ea. by eapply committed_mono; [apply Hs|..].
    - intros S2. apply reaches_here; [done|]. by simpl; rewrite fn_lookup_insert. }
  destruct (install_log h n c L i Hs HL ltac:(lia)) as [[E Hag]|[E Hno]]; unfold l; destruct (decide _) as [|]; try done; (split; [|]).
  - done.
  - eapply reaches_mono, (Hcommit h); [|done|apply extends_refl|done|done|done]. intros h' _ ->. unfold with_commit. by rewrite Hr.
  - split; [rewrite length_take; lia|by rewrite firstn_firstn, Nat.min_id].
  - destruct (accept_move h n c L i Hs Hr HL HiL Hno) as (Hstep & Hsm & E1).
    eapply reaches_step; [done|exact Hstep|done|]. intros S1.
    eapply reaches_mono, (Hcommit _ S1 E1); simpl; rewrite ?fn_lookup_insert; simpl; try done.
    + intros h' _ ->. unfold with_commit. simpl. by rewrite Hr.
    + split; [rewrite length_take; lia|by rewrite firstn_firstn, Nat.min_id].
Qed.

(** The disk that holds the snapshot, in the state of the member that installed it. *)
Lemma disk_install_ok h h1 n d p l (i : nat) :
  disk_ok h n d → (p_commit (peer h n) < i ≤ length l)%nat →
  peer h1 n = mkPeer (p_term (peer h n)) (p_vote (peer h n)) Follower l i →
  last_included_index p = Z.of_nat i → last_included_term p = log_term l i → snap_ok (ps_state p) (take i l) →
  disk_ok h1 n (d_with_snapshot d p (drop i l)).
Proof.
  intros [] Hi Hp Ei Et Hs. constructor; unfold d_index, d_index_term in *; simpl; rewrite ?Hp, ?Ei, ?Nat2Z.id; simpl; try done; try lia.
  by intros p' [= <-].
Qed.

Definition installed (a : ShardActor) (req : InstallSnapshotReq) (st : mstate) (l : list LogEntry) (c : Z) : ShardActor :=
  set_last_applied (sr_last_included_index req) (set_commit_index c (set_log l (set_snapshot_state (sr_state req)
    (set_snapshot_term (sr_last_included_term req) (set_snapshot_index (sr_last_included_index req) (set_state st a)))))).

Section installation.
Context (e : Env) (req : InstallSnapshotReq) (h : Hist) (n c : string) (a : ShardActor) (L : list LogEntry) (i : nat) (restored : mstate).
Context (Hs : sound h) (Hh : healthy h n a) (Hr : role a = Follower) (HL : leads h !! p_term (peer h n) = Some (c, L)).
Context (Hidx : sr_last_included_index req = Z.of_nat i) (Hterm : sr_last_included_term req = log_term L i).
Context (Hi : (p_commit (peer h n) < i)%nat) (Hc : commit_ok h (p_term (peer h n)) L i).
Context (Hsnap : snap_ok (sr_state req) (take i L)) (Hrestored : machine_restore (sr_state req) = Some restored).

Let kept : list LogEntry := if decide (log_term (p_log (peer h n)) i = log_term L i) then p_log (peer h n) else take i L.
Let saved : PersistedSnapshot := mkPersisted (Z.of_nat i) (log_term L i) (sr_state req).

Lemma install_remaining :
  (if term_at a (sr_last_included_index req) =? sr_last_included_term req
   then List.filter (λ entry, sr_last_included_index req <? e_index entry) (log a) else []) = drop i kept.
Proof.
  pose proof (healthy_view _ _ _ Hs Hh) as V. pose proof (vw_index _ _ _ V). rewrite Hidx, Hterm, (view_term_at _ _ _ _ V) by lia.
  rewrite Nat2Z.id, (vw_log _ _ _ V), (filter_after h n) by (apply Hs || lia). unfold kept.
  destruct (Z.eqb_spec (log_term (p_log (peer h n)) i) (log_term L i)); destruct (decide _); try done.
  by rewrite drop_ge by (rewrite length_take; lia).
Qed.

Lemma install_saved s d :
  store a = Some s → stored s d → mirrors a d → disk_ok h n d → landed h n a (persist_snapshot saved (drop i kept) a) (d_with_snapshot d saved (drop i kept)).
Proof.
  intros Hst Hsd M D. pose proof (healthy_view _ _ _ Hs Hh) as V. pose proof Hh as (_ & Hv & _). pose proof Hr as Hr'.
  rewrite (vo_role _ _ _ Hv) in Hr'. destruct (install_move h n c L i Hs Hr' HL Hi Hc) as [Hag Hmove]. fold kept in Hag, Hmove.
  assert (Ht : log_term L i = log_term kept i).
  { destruct Hag as [? Ea]. destruct i as [|i']; [done|]. simpl. by rewrite (take_agree_lookup (S i') i' kept L Ea) by lia. }
  assert (Hd : reaches h n (λ h', disk_ok h' n (d_with_snapshot d saved (drop i kept)))).
  { eapply reaches_mono, Hmove. intros h1 _ Hp. apply (disk_install_ok h h1 n d saved kept i); try done; [destruct Hag; lia|].
    destruct Hag as [_ Ea]. by rewrite Ea. }
  pose proof (vw_index _ _ _ V). pose proof (mi_index _ _ M). apply (snapshot_landed h n a s d); try done; simpl; [lia|lia|].
  intros Hagree. enough (Erem : drop (Z.to_nat (Z.of_nat i - d_index d)) (d_log d) = drop i kept) by by rewrite Erem.
  rewrite (do_log _ _ _ D), drop_drop. replace (Z.to_nat (d_index d) + Z.to_nat (Z.of_nat i - d_index d))%nat with i by lia.
  unfold kept. destruct (decide _) as [|Hne]; [done|]. rewrite !drop_ge; [done|rewrite length_take; lia|].
  apply Nat.nlt_ge. intros Hlt. apply Hne. destruct i as [|i']; [lia|]. simpl.
  destruct (lookup_lt_is_Some_2 (p_log (peer h n)) i') as [x Hx]; [lia|]. rewrite Hx. simpl. apply Hagree.
  - rewrite (do_log _ _ _ D). apply (list_elem_of_lookup_2 _ (i' - Z.to_nat (d_index d))). rewrite lookup_drop. rewrite <- Hx. f_equal. lia.
  - destruct (si_peer _ _ (so_inv _ Hs) n) as (_ & _ & _ & Hxi & _). rewrite (Hxi _ _ Hx). lia.
Qed.

Lemma installed_healthy h1 s d :
  sound h1 → extends n h h1 → peer h1 n = mkPeer (p_term (peer h n)) (p_vote (peer h n)) Follower kept i → agree i kept L →
  stored s (d_with_meta (d_with_snapshot d saved (drop i kept)) (current_term a) (voted_for a) (Z.of_nat i)) →
  disk_ok h1 n (d_with_meta (d_with_snapshot d saved (drop i kept)) (current_term a) (voted_for a) (Z.of_nat i)) →
  healthy h1 n (installed (set_store (Some s) a) req restored (drop i kept) (Z.of_nat i)).
Proof.
  intros S1 E1 Hp [Hl Ea] Hsd D. pose proof Hh as (Hf & Hv & _). pose proof (healthy_view _ _ _ Hs Hh) as V. split_and!; [done| |].
  - destruct Hv. constructor; simpl; rewrite ?Hp; simpl; try done.
    + rewrite Ea. by apply Hsnap.
    + intros E. congruence.
    + intros ls E. congruence.
    + by apply (outbox_mono h).
  - exists s, (d_with_meta (d_with_snapshot d saved (drop i kept)) (current_term a) (voted_for a) (Z.of_nat i)).
    split_and!; [done|done| |done]. destruct D. constructor; unfold d_index, d_index_term in *; simpl in *; try done; try lia.
    rewrite (vw_term _ _ _ V). destruct (si_peer _ _ (so_inv _ Hs) n) as (? & _). lia.
Qed.

Lemma install_ok :
  current_term a = sr_term req →
  reaches h n (λ h', coupled h' n (install req restored a).1 ∧ snapshot_resp_ok h' n req (install req restored a).2).
Proof.
  intros Hct. pose proof (healthy_view _ _ _ Hs Hh) as V. pose proof Hh as (Hf & Hv & s & d & Hst & Hsd & M & D).
  pose proof Hr as Hr'. rewrite (vo_role _ _ _ Hv) in Hr'. destruct (install_move h n c L i Hs Hr' HL Hi Hc) as [Hag Hmove]. fold kept in Hag, Hmove.
  unfold install. rewrite install_remaining, Hidx, Hterm. fold saved.
  destruct (install_saved s d Hst Hsd M D) as (s1 & Es1 & Hout1). destruct (persist_snapshot _ _ _) as [a1 ok1]. simpl in Es1, Hout1. subst a1.
  assert (Hfail : ∀ h' op a', sound h' → (∀ rpc, rpc ∈ outbox a' → rpc_ok h' n rpc) → (∃ s', store a' = Some s' ∧ reaches h' n (λ h', fault_ok h' n (files s'))) →
    reaches h' n (λ h', coupled h' n (fail_storage op a') ∧ snapshot_resp_ok h' n req (snapshot_reply false (commit_index (fail_storage op a')) (fail_storage op a')))).
  { intros h' op a' S' Ho (s' & Es' & Hfo). eapply reaches_mono, (failed_write h' n a' op s' S' Ho Es' Hfo). intros h2 _ Hc2. split; [done|by intros ?]. }
  destruct ok1; cbn [negb]; [|apply Hfail; [done|apply (vo_outbox _ _ _ Hv)|by exists s1]].
  eapply reaches_bind; [done|exact Hmove|]. intros h1 S1 E1 Hp.
  change (commit_index (set_store (Some s1) a)) with (commit_index a). rewrite (vw_commit _ _ _ V). rewrite Z.max_r by lia.
  assert (Ht : log_term L i = log_term kept i).
  { destruct Hag as [? Ea]. destruct i as [|i']; [done|]. simpl. by rewrite (take_agree_lookup (S i') i' kept L Ea) by lia. }
  assert (D1 : disk_ok h1 n (d_with_snapshot d saved (drop i kept))).
  { apply (disk_install_ok h h1 n d saved kept i); try done; [destruct Hag; lia|]. destruct Hag as [_ Ea]. by rewrite Ea. }
  assert (D2 : disk_ok h1 n (d_with_meta (d_with_snapshot d saved (drop i kept)) (current_term a) (voted_for a) (Z.of_nat i))).
  { apply (disk_meta_ok h1); rewrite ?Hp; simpl; try done; [|apply V..]. rewrite (vw_term _ _ _ V). apply (si_peer _ _ (so_inv _ Hs) n). }
  destruct (meta_landed h1 n (set_store (Some s1) a) s1 _ S1 eq_refl Hout1 D1 (Z.of_nat i)) as (s2 & Es2 & Hout2); [by apply reaches_here|].
  destruct (persist_hard_state_at _ _) as [a2 ok2]. simpl in Es2, Hout2. subst a2. destruct ok2; cbn [negb].
  - pose proof (installed_healthy h1 s2 d S1 E1 Hp Hag Hout2 D2) as Hh2. unfold installed in Hh2. rewrite Hidx, Hterm in Hh2.
    destruct (ex_leads _ _ _ E1 _ _ _ HL) as (L1 & HL1 & Hpre & _).
    eapply reaches_mono, (ack_ok h1 n _ c L1 i S1 Hh2).
    + intros h2 _ (Hc2 & _ & Hack). split; [by left|]. intros _. simpl. rewrite Hct. split; [done|]. rewrite Hidx, Nat2Z.id.
      rewrite <- Hct, (vw_term _ _ _ V). by rewrite Hp in Hack.
    + by rewrite Hp.
    + rewrite Hp. by eapply agree_grow.
  - apply Hfail; [done| |by exists s2]. apply (outbox_mono h); [done|done|apply Hv].
Qed.
End installation.

Lemma handle_install_snapshot_ok e req c h n a :
  sound h → coupled h n a → snapshot_req_ok h c req →
  reaches h n (λ h', coupled h' n (handle_install_snapshot e req a).1 ∧ snapshot_resp_ok h' n req (handle_install_snapshot e req a).2).
Proof.
  intros Hs Hc Hreq. unfold handle_install_snapshot.
  assert (Hrefuse : ∀ h' a' x, sound h' → coupled h' n a' → reaches h' n (λ h', coupled h' n a' ∧ snapshot_resp_ok h' n req (snapshot_reply false x a'))).
  { intros h' a' x S' C'. apply reaches_here; [done|]. split; [done|]. by intros ?. }
  destruct (is_faulty a) eqn:Hf; [by apply Hrefuse|]. destruct (_ <? current_term a) eqn:Hlow; [by apply Hrefuse|]. bools.
  pose proof (coupled_healthy _ _ _ Hc Hf) as Hh. destruct (catch_up_ok e (sr_term req) h n a Hs Hh Hlow) as [Hup Hfields].
  fold (catch_up e (sr_term req) a). set (a1 := catch_up e (sr_term req) a) in *. clearbody a1.
  eapply reaches_bind; [done|exact Hup|]. intros h1 S1 E1 Hc1. destruct (is_faulty a1) eqn:Hf1; [by apply Hrefuse|].
  destruct (Hfields eq_refl) as (Et1 & _). destruct (_ || _); [by apply Hrefuse|].
  pose proof (coupled_healthy _ _ _ Hc1 Hf1) as Hh1. pose proof (core_fields _ _ (become_follower_core e (sr_leader_id req) a1)) as C.
  eapply reaches_bind; [done|exact (become_follower_ok e (sr_leader_id req) h1 n a1 S1 Hh1)|]. intros h2 S2 E2 [Hh2 _].
  set (a2 := become_follower_of e (sr_leader_id req) a1) in *. clearbody a2. pose proof (sc_role _ _ C) as Hr2. pose proof (sc_term _ _ C) as Ht2. simpl in *.
  apply (snapshot_req_ok_mono n h h1) in Hreq; [|apply Hs|done]. apply (snapshot_req_ok_mono n h1 h2) in Hreq; [|apply S1|done].
  destruct Hreq as (_ & L & k & HL & Hidx & Hterm & Hci & Hsn). pose proof (healthy_view _ _ _ S2 Hh2) as V2.
  rewrite <- Et1, <- Ht2, (vw_term _ _ _ V2) in HL, Hci.
  assert (Hknown : ∀ x, (S k ≤ p_commit (peer h2 n))%nat →
    reaches h2 n (λ h', coupled h' n a2 ∧ snapshot_resp_ok h' n req (snapshot_reply true x a2))).
  { intros x Hle. eapply reaches_mono, (ack_ok h2 n a2 c L (S k) S2 Hh2 HL).
    - intros h3 _ (Hh3 & _ & Hack). split; [by left|]. intros _. simpl. split; [congruence|].
      rewrite Hidx, Nat2Z.id. by rewrite <- Et1, <- Ht2, (vw_term _ _ _ V2).
    - eapply agree_le; [exact Hle|]. exact (commit_agrees mems h2 n c L (so_inv _ S2) HL). }
  pose proof (vw_index _ _ _ V2). rewrite (vw_commit _ _ _ V2).
  destruct (Z.leb_spec (sr_last_included_index req) (snapshot_index a2)); [apply Hknown; lia|].
  destruct (Z.leb_spec (sr_last_included_index req) (Z.of_nat (p_commit (peer h2 n)))); [apply Hknown; lia|].
  destruct (machine_restore (sr_state req)) as [restored|] eqn:Hres; [|apply Hrefuse; [done|by left]].
  apply (install_ok req h2 n c a2 L (S k) restored); try done; [lia|congruence].
Qed.
End following.
