(* ===== verification/RaftCluster.v ===== *)
(** The whole Raft group: actors, disks and an unreliable network, with restarts
    and failing writes.  Every run of it is a run of the abstract protocol, so
    what RaftSpec proves holds of the actors. *)

From stdpp Require Import functions.
From S2P Require Import Prelude Json Text Command StateMachine RaftTypes RaftSpec RaftConfig RaftCallback Persist PersistTheorems ShardActor RaftCoupling RaftMethods RaftLeading RaftFollowing.

Section cluster.
Context `{DiskFormat, !DiskLaws, Machine, !MachineLaws, Wire, Group}.

(** ** The world *)

(** A message is never taken out of the network: it can be lost (no step takes
    it), delayed, reordered and delivered twice. *)
Inductive Packet : Type :=
| Request (from : string) (rpc : Rpc)
| Response (to : string) (rpc : Rpc) (r : Reply).

Record World : Type := mkWorld {
  actors : string → ShardActor;
  disks : string → ShardStore;
  net : list Packet
}.

Definition rpc_to (rpc : Rpc) : string :=
  match rpc with RpcVote to _ | RpcAppend to _ _ _ | RpcSnapshot to _ _ _ => to end.

(** What the receiver of an RPC is asked. *)
Definition rpc_msg (rpc : Rpc) : ShardMsg :=
  match rpc with
  | RpcVote _ req => MsgRequestVote req
  | RpcAppend _ _ _ req => MsgAppendEntries req
  | RpcSnapshot _ _ _ req => MsgInstallSnapshot req
  end.

(** What the task that sent an RPC reports to its actor.  A lost vote is not
    reported. *)
Definition reply_msg (rtt : option Z) (rpc : Rpc) (r : option Reply) : option ShardMsg :=
  match rpc with
  | RpcVote to req => match r with Some (ReplyVote v) => Some (MsgVoteReply to (vr_pre_vote req) v) | _ => None end
  | RpcAppend to stamp up_to req =>
      Some (MsgAppendReply to stamp up_to rtt (transport_append req (match r with Some (ReplyAppend v) => Some v | _ => None end)))
  | RpcSnapshot to stamp up_to req =>
      Some (MsgSnapshotReply to stamp up_to (transport_snapshot req (match r with Some (ReplySnapshot v) => Some v | _ => None end)))
  end.

(** The actor with the outcomes its next writes will have. *)
Definition facing (os : list Outcome) (a : ShardActor) : ShardActor := set_store ((λ s, with_outcomes s os) <$> store a) a.

(** The world after member [n] ran: its messages are on their way. *)
Definition after (w : World) (n : string) (a : ShardActor) (disk : ShardStore) (more : list Packet) : World :=
  mkWorld (<[n := set_outbox [] a]> (actors w)) (<[n := disk]> (disks w)) (net w ++ (Request n <$> outbox a) ++ more).
Definition ran (w : World) (n : string) (a : ShardActor) (more : list Packet) : World :=
  after w n a (default (disks w n) (store a)) more.

Definition covered (rpc : Rpc) (a : ShardActor) : Prop :=
  match rpc with RpcAppend _ _ _ req => commit_covered req a | _ => True end.

Inductive cluster_step (w : World) : World → Prop :=
| cluster_tick n e os (Hn : n ∈ group) (Hroom : roomy (actors w n)) :
    cluster_step w (ran w n (on_tick e (facing os (actors w n))) [])
| cluster_propose n e os command client (Hn : n ∈ group) (Hroom : roomy (actors w n)) :
    cluster_step w (ran w n (handle e (MsgPropose command client) (facing os (actors w n))).1 [])
| cluster_request c rpc e os (Hin : Request c rpc ∈ net w) (Hcov : covered rpc (actors w (rpc_to rpc))) :
    let r := handle e (rpc_msg rpc) (facing os (actors w (rpc_to rpc))) in
    cluster_step w (ran w (rpc_to rpc) r.1 [Response c rpc r.2])
| cluster_reply c rpc r e os rtt msg (Hin : Response c rpc r ∈ net w) (Hmsg : reply_msg rtt rpc (Some r) = Some msg)
    (Hroom : roomy (actors w c)) :
    cluster_step w (ran w c (handle e msg (facing os (actors w c))).1 [])
| cluster_lost c rpc e os rtt msg (Hin : Request c rpc ∈ net w) (Hmsg : reply_msg rtt rpc None = Some msg) (Hroom : roomy (actors w c)) :
    cluster_step w (ran w c (handle e msg (facing os (actors w c))).1 [])
| cluster_restart n e os shard t nanos (Hn : n ∈ group) (Ht : 0 ≤ snapshot_threshold t) :
    let r := bootstrap e shard n (others n) t nanos (with_outcomes (disks w n) os) in
    cluster_step w (after w n r.1 r.2 []).

(** Nothing runs yet, nothing is stored and nobody waits or was told anything. *)
Definition fresh_world (w : World) : Prop :=
  net w = [] ∧ ∀ n, is_faulty (actors w n) = true ∧ role (actors w n) = Follower ∧ outbox (actors w n) = [] ∧ store (actors w n) = None ∧
    files (disks w n) = mkFiles None None None ∧ pending (actors w n) = ∅ ∧ answers (actors w n) = [].

Definition reachable (w : World) : Prop := ∃ w0, fresh_world w0 ∧ rtc cluster_step w0 w.

(** ** The coupling *)

Definition node_ok (h : Hist) (n : string) (a : ShardActor) (disk : ShardStore) : Prop :=
  (healthy h n a ∧ store a = Some disk) ∨
  (is_faulty a = true ∧ role a = Follower ∧ outbox a = [] ∧ fault_ok h n (files disk) ∧ ∀ s, store a = Some s → s = disk).

Definition resp_ok (h : Hist) (rpc : Rpc) (r : Reply) : Prop :=
  match rpc, r with
  | RpcVote to req, ReplyVote v => vote_resp_ok h to req v
  | RpcAppend to _ _ req, ReplyAppend v => append_resp_ok h to req v
  | RpcSnapshot to _ _ req, ReplySnapshot v => snapshot_resp_ok h to req v
  | _, _ => True
  end.

Definition packet_ok (h : Hist) (p : Packet) : Prop :=
  match p with
  | Request c rpc => c ∈ group ∧ rpc_ok h c rpc
  | Response c rpc r => c ∈ group ∧ rpc_ok h c rpc ∧ resp_ok h rpc r
  end.

Record world_ok (h : Hist) (w : World) : Prop := {
  wo_sound : sound h;
  wo_nodes n : n ∈ group → node_ok h n (actors w n) (disks w n);
  wo_net p : p ∈ net w → packet_ok h p
}.

Lemma healthy_extends m h h' n a : m ≠ n → sound h → extends m h h' → healthy h n a → healthy h' n a.
Proof.
  intros Hne Hs E (Hf & Hv & s & d & Hst & Hsd & M & D). pose proof (ex_peer _ _ _ E n ltac:(done)) as Ep.
  split_and!; [done| |exists s, d; split_and!; [done|done|done|by destruct D; constructor; rewrite ?Ep]].
  destruct Hv. constructor; rewrite ?Ep; try done.
  - intros Hc x Hx. destruct (vo_votes Hc x Hx). split; [done|]. by eapply voted_mono.
  - intros ls Hr Hl. destruct (vo_leader ls Hr Hl) as [Hm Hx]. unfold tracked. rewrite Ep. split; [|done].
    intros x i Hi. destruct (Hm x i Hi) as [? [?|?]]; (split; [done|]); [by left|right]. by eapply acked_mono.
  - intros rpc Hr. apply (rpc_ok_mono m h); [apply Hs|done|by apply vo_outbox].
Qed.

Lemma node_extends m h h' n a disk : m ≠ n → sound h → extends m h h' → node_ok h n a disk → node_ok h' n a disk.
Proof.
  intros Hne Hs E [[Hh Hd]|(Hf & Hr & Ho & Hfo & Hd)]; [left; split; [by eapply healthy_extends|done]|right].
  split_and!; [done|done|done| |done]. pose proof (ex_peer _ _ _ E n ltac:(done)) as Ep. destruct Hfo as [Hro Hrec].
  split; [by rewrite Ep|]. intros r b Hrb. destruct (Hrec r b Hrb) as (d & -> & D). exists d. split; [done|].
  by destruct D; constructor; rewrite ?Ep.
Qed.

Lemma resp_ok_mono m h h' rpc r : extends m h h' → resp_ok h rpc r → resp_ok h' rpc r.
Proof.
  intros E. destruct rpc, r; try done; simpl.
  - intros Hok ? ?. eapply voted_mono; [exact E|by apply Hok].
  - intros Hok Hs. destruct (Hok Hs). split; [done|by eapply acked_mono].
  - intros Hok Hs. destruct (Hok Hs). split; [done|by eapply acked_mono].
Qed.

Lemma packet_mono m h h' p : sound h → extends m h h' → packet_ok h p → packet_ok h' p.
Proof.
  intros Hs E. destruct p as [c rpc|c rpc r].
  - intros [? ?]. split; [done|]. apply (rpc_ok_mono m h); [apply Hs|done|done].
  - intros (? & ? & ?). split_and!; [done|apply (rpc_ok_mono m h); [apply Hs|done|done]|by eapply resp_ok_mono].
Qed.

(** ** One member runs *)

Lemma cleared h n a : healthy h n a → healthy h n (set_outbox [] a).
Proof.
  intros (Hf & Hv & s & d & Hst & Hsd & M & D). split_and!; [done| |exists s, d; split_and!; [done|done|by destruct M; constructor|done]].
  destruct Hv. constructor; simpl; try done. by intros rpc Hr%not_elem_of_nil.
Qed.

Lemma coupled_outbox h n a : coupled h n a → ∀ rpc, rpc ∈ outbox a → rpc_ok h n rpc.
Proof. intros [(_ & Hv & _)|(_ & _ & Ho & _)]; [apply (vo_outbox _ _ _ Hv)|done]. Qed.

Lemma coupled_node h n a disk : coupled h n a → node_ok h n (set_outbox [] a) (default disk (store a)).
Proof.
  intros [Hh|(Hf & Hr & _ & s & Hst & Hfo)].
  - left. pose proof Hh as (_ & _ & s & d & Hst & _). rewrite Hst. split; [by apply cleared|done].
  - right. rewrite Hst. split_and!; [by apply is_faulty_spec|done|done|done|]. simpl. intros s' E. congruence.
Qed.

(** A member moved: its actor is coupled again and what it sends is true. *)
Lemma after_ok h h' w n a disk more :
  world_ok h w → sound h' → extends n h h' → n ∈ group → node_ok h' n (set_outbox [] a) disk →
  (∀ rpc, rpc ∈ outbox a → rpc_ok h' n rpc) → (∀ p, p ∈ more → packet_ok h' p) → world_ok h' (after w n a disk more).
Proof.
  intros [Hs Hn Hp] S' E Hin Hnode Ho Hm. constructor; [done| |].
  - intros m Hg. simpl. destruct (decide (m = n)) as [->|Hne]; [by rewrite !fn_lookup_insert|].
    rewrite !fn_lookup_insert_ne by done. by eapply (node_extends n), Hn.
  - intros p. simpl. rewrite !elem_of_app. intros [Hin'|[Hin'|Hin']]; [by eapply (packet_mono n), Hp| |by apply Hm].
    apply list_elem_of_fmap in Hin' as (rpc & -> & Hrpc). split; [done|by apply Ho].
Qed.

Lemma facing_healthy h n a os : healthy h n a → healthy h n (facing os a).
Proof.
  intros (Hf & Hv & s & d & Hst & Hsd & M & D). unfold facing. rewrite Hst. simpl.
  split_and!; [done|by destruct Hv; constructor|]. exists (with_outcomes s os), d.
  split_and!; [done|by destruct Hsd; constructor|by destruct M; constructor|done].
Qed.

Definition simulated (h : Hist) (n : string) (w' : World) : Prop := ∃ h', moves mems n h h' ∧ world_ok h' w'.

(** A healthy member runs a handler. *)
Lemma ran_ok h w n a more :
  world_ok h w → n ∈ group → reaches h n (λ h', coupled h' n a ∧ ∀ p, p ∈ more → packet_ok h' p) → simulated h n (ran w n a more).
Proof.
  intros W Hn (h' & Hm & S' & Hc & Hmore). exists h'. split; [done|].
  destruct (moves_ok mems h n h' (so_inv _ (wo_sound _ _ W)) Hm) as [_ E].
  apply (after_ok h); [done|done|done|done|by apply coupled_node|by apply coupled_outbox|done].
Qed.

(** A faulted member changes nothing that matters and sends nothing. *)
Lemma faulted_handle e msg a :
  is_faulty a = true → core (handle e msg a).1 = core a ∧
  match (handle e msg a).2 with
  | NoReply => True
  | ReplyAppend r => as_success r = false
  | ReplySnapshot r => ss_success r = false
  | ReplyVote r => vs_granted r = false
  end.
Proof.
  intros Hf. destruct msg; simpl.
  - unfold on_propose. by rewrite Hf.
  - unfold handle_append_entries. by rewrite Hf.
  - unfold handle_install_snapshot. by rewrite Hf.
  - unfold handle_request_vote. by rewrite Hf.
  - unfold handle_vote_reply. by rewrite Hf.
  - unfold accept_replication_callback. by rewrite Hf.
  - unfold accept_replication_callback. by rewrite Hf.
Qed.

Lemma idle_ok h w n os a more :
  world_ok h w → n ∈ group → is_faulty (actors w n) = true → core a = core (facing os (actors w n)) →
  (∀ p, p ∈ more → packet_ok h p) → simulated h n (ran w n a more).
Proof.
  intros W Hn Hf C Hm. exists h. split; [apply rtc_refl|].
  destruct (wo_nodes _ _ W n Hn) as [[(Hnf & _) _]|(_ & Hr & Ho & Hfo & Hd)]; [apply is_faulty_spec in Hf; done|].
  apply core_fields in C. pose proof (sc_store _ _ C) as Es. pose proof (sc_outbox _ _ C) as Eo. simpl in Es, Eo. rewrite Ho in Eo.
  apply (after_ok h); [done|apply W|apply extends_refl|done| |by rewrite Eo; intros rpc Hrpc%not_elem_of_nil|done].
  right. split_and!; [|by simpl; rewrite (sc_role _ _ C)|done| |].
  - unfold is_faulty in *. simpl. by rewrite (sc_fault _ _ C).
  - rewrite Es. destruct (store (actors w n)) as [s|] eqn:E; simpl; [by rewrite (Hd s eq_refl)|done].
  - simpl. intros s ->. done.
Qed.

(** A member that runs is healthy, or it only refuses. *)
Lemma runs_ok h w n os f more :
  world_ok h w → n ∈ group →
  (∀ a, is_faulty a = true → core (f a) = core a ∧ ∀ p, p ∈ more a → packet_ok h p) →
  (∀ a, core a = core (facing os (actors w n)) → healthy h n a → reaches h n (λ h', coupled h' n (f a) ∧ ∀ p, p ∈ more a → packet_ok h' p)) →
  simulated h n (ran w n (f (facing os (actors w n))) (more (facing os (actors w n)))).
Proof.
  intros W Hn Hidle Hrun. destruct (is_faulty (actors w n)) eqn:Hf.
  - destruct (Hidle (facing os (actors w n))) as [C Hm]; [done|]. by eapply idle_ok.
  - destruct (wo_nodes _ _ W n Hn) as [[Hh _]|(Hft & _)]; [|congruence].
    apply (ran_ok h); [done|done|]. apply Hrun; [done|]. by apply facing_healthy.
Qed.

Lemma roomy_core a a' : core a' = core a → roomy a → roomy a'.
Proof.
  intros C%core_fields (Ht & Hl & Hm). unfold roomy, may_send, last_log_index in *.
  rewrite (sc_term _ _ C), (sc_log _ _ C), (sc_index _ _ C), (sc_peers _ _ C), (sc_leader _ _ C). done.
Qed.

Lemma roomy_facing a os : roomy a → roomy (facing os a).
Proof. done. Qed.

(** ** Requests *)

Lemma covered_core rpc a a' : core a' = core a → covered rpc a → covered rpc a'.
Proof.
  intros C%core_fields. destruct rpc; [done| |done]. apply covered_same; [apply C|apply C|apply C].
Qed.

Lemma request_ok h c rpc e n a :
  sound h → healthy h n a → rpc_to rpc = n → rpc_ok h c rpc → covered rpc a → let r := handle e (rpc_msg rpc) a in
  reaches h n (λ h', coupled h' n r.1 ∧ resp_ok h' rpc r.2).
Proof.
  intros Hs Hh Hto Hok Hcov. destruct rpc as [to req|to stamp up_to req|to stamp up_to req]; simpl in *; subst to.
  - destruct Hok as [Hin Hreq]. pose proof (handle_request_vote_ok e req h n c a Hs (or_introl Hh) Hreq) as Hr.
    destruct (handle_request_vote e req a) as [a' r]. apply Hr. by apply elem_of_others in Hin as [? _].
  - destruct Hok as (_ & Hreq & _). pose proof (handle_append_entries_ok e req c h n a Hs (or_introl Hh) Hreq Hcov) as Hr.
    by destruct (handle_append_entries e req a) as [a' r].
  - destruct Hok as (_ & Hreq & _). pose proof (handle_install_snapshot_ok e req c h n a Hs (or_introl Hh) Hreq) as Hr.
    by destruct (handle_install_snapshot e req a) as [a' r].
Qed.

Lemma rpc_to_member h c rpc : rpc_ok h c rpc → rpc_to rpc ∈ group.
Proof. destruct rpc; simpl; intros [Hin _]; by apply elem_of_others in Hin as [_ ?]. Qed.

(** ** Replies *)

Definition msg_ok (h : Hist) (n : string) (msg : ShardMsg) : Prop :=
  match msg with
  | MsgPropose _ _ => True
  | MsgVoteReply from pre r => vote_reply_ok h n from pre r
  | MsgAppendReply from _ up_to _ r => append_reply_ok h n from up_to r
  | MsgSnapshotReply from _ up_to r => snapshot_reply_ok h n from up_to r
  | _ => False
  end.

Lemma reply_msg_ok h c rpc r rtt msg :
  rpc_ok h c rpc → match r with Some r => resp_ok h rpc r | None => True end → reply_msg rtt rpc r = Some msg → msg_ok h c msg.
Proof.
  intros Hok Hr. destruct rpc as [to req|to stamp up_to req|to stamp up_to req]; simpl.
  - destruct r as [[| | |v]|]; try done. intros [= <-]. destruct Hok as [Hin [Hid _]]. split; [done|]. simpl in Hr. unfold vote_resp_ok in Hr.
    rewrite Hid in Hr. auto.
  - intros [= <-]. destruct Hok as (_ & (_ & Hp & _) & ->). split; [lia|]. intros r' Ht Hs.
    apply transport_append_success in Ht as (Ha & Et & _); [|done]. destruct r as [[|v| |]|]; try done. injection Ha as ->.
    destruct (Hr Hs) as [_ Hack]. by rewrite Et.
  - intros [= <-]. destruct Hok as (_ & (_ & L & k & _ & Hi & _) & ->). split; [lia|]. intros r' Ht Hs.
    apply transport_snapshot_success in Ht as (Ha & Et & _); [|done]. destruct r as [[| |v|]|]; try done. injection Ha as ->.
    destruct (Hr Hs) as [_ Hack]. by rewrite Et.
Qed.

Lemma msg_mono m h h' n msg : extends m h h' → msg_ok h n msg → msg_ok h' n msg.
Proof.
  intros E. destruct msg; try done; simpl.
  - intros [? Hv]. split; [done|]. intros ? ?. eapply voted_mono; [exact E|by apply Hv].
  - intros [? Ha]. split; [done|]. intros ? ? ?. eapply acked_mono; [exact E|by apply Ha].
  - intros [? Ha]. split; [done|]. intros ? ? ?. eapply acked_mono; [exact E|by apply Ha].
Qed.

Lemma msg_handled h n msg e a :
  sound h → healthy h n a → roomy a → msg_ok h n msg → reaches h n (λ h', coupled h' n (handle e msg a).1).
Proof.
  intros Hs Hh Hroom Hok. destruct msg as [cmd client|req|req|req|from pre r|from request up_to rtt r|from request up_to r]; try done; simpl in *.
  - apply on_propose_ok; [done|by left|]. destruct Hroom as (_ & _ & Hm). eapply may_send_le; [|exact Hm]. lia.
  - apply handle_vote_reply_ok; [done|by left|done|done].
  - eapply reaches_bind; [done|exact (accept_callback_ok e from request (as_term <$> r) h n a Hs (or_introl Hh))|].
    intros h1 S1 E1 Hc1. destruct (accept_replication_callback _ _ _ _ _) as [a1 ok]. simpl in Hc1. destruct ok; [|by apply reaches_here].
    apply handle_append_reply_ok; [done|done|]. by apply (msg_mono n h h1 n (MsgAppendReply from request up_to rtt r)).
  - eapply reaches_bind; [done|exact (accept_callback_ok e from request (ss_term <$> r) h n a Hs (or_introl Hh))|].
    intros h1 S1 E1 Hc1. destruct (accept_replication_callback _ _ _ _ _) as [a1 ok]. simpl in Hc1. destruct ok; [|by apply reaches_here].
    apply handle_snapshot_reply_ok; [done|done|]. by apply (msg_mono n h h1 n (MsgSnapshotReply from request up_to r)).
Qed.

Lemma quiet_ok h w n os f :
  world_ok h w → n ∈ group → (∀ a, is_faulty a = true → core (f a) = core a) →
  (∀ a, core a = core (facing os (actors w n)) → healthy h n a → reaches h n (λ h', coupled h' n (f a))) →
  simulated h n (ran w n (f (facing os (actors w n))) []).
Proof.
  intros W Hn Hidle Hrun. apply (runs_ok h w n os f (λ _, [])); [done|done| |].
  - intros a Hf. split; [by apply Hidle|]. by intros p Hp%not_elem_of_nil.
  - intros a C Hh. eapply reaches_mono, (Hrun a C Hh). intros h' _ Hc. split; [done|]. by intros p Hp%not_elem_of_nil.
Qed.

(** ** Restarts *)

Lemma disk_ok_recovered h n d d' : recovered_of d = recovered_of d' → 0 ≤ d_index d → disk_ok h n d' → disk_ok h n d.
Proof.
  unfold recovered_of. intros [= Et Ev Ec El Es] Hi []. assert (Ei : d_index d = d_index d') by (unfold d_index; by rewrite Es).
  assert (Eit : d_index_term d = d_index_term d') by (unfold d_index_term; by rewrite Es).
  constructor; rewrite ?Et, ?Ev, ?El, ?Ei, ?Eit; try done.
  - by rewrite <- Ei, Ec.
  - rewrite Es. done.
Qed.

Lemma in_order base l : valid_suffix base l → recovered_in_order base l = Ok tt.
Proof.
  revert base. induction l as [|x l IH]; intros base Hv; simpl; [done|].
  destruct (proj1 Hv O x eq_refl) as (Hi & _ & Hmax). simpl in Hi.
  assert (checked_add base 1 = Some (base + 1)) as -> by (apply checked_add_Some; lia).
  replace (e_index x) with (base + 1) by lia. rewrite Z.eqb_refl. apply IH. by eapply valid_suffix_tail.
Qed.

(** The recovered actor before it applies its log. *)
Lemma new_actor_shape e shard n t nanos s d st :
  valid_disk d → (0 < length (others n))%nat →
  match d_snapshot d with None => st = machine_new | Some p => machine_restore (ps_state p) = Some st end →
  ∃ a, new_actor e shard n (others n) t nanos (Some s) (recovered_of d) = Ok (if 0 <? commit_index a then apply_committed e a else a) ∧
    mirrors a d ∧ node_id a = n ∧ peers a = others n ∧ ShardActor.members a = S (length (others n)) ∧ role a = Follower ∧
    last_applied a = d_index d ∧ state a = st ∧ votes a = ∅ ∧ leader a = None ∧ outbox a = [] ∧ storage_fault a = None ∧
    store a = Some s ∧ timing a = t.
Proof.
  intros Vd Hpos Hst. unfold new_actor. simpl. rewrite in_order by apply Vd. cbn [result_bind].
  assert (Hlen : (length (others n) + 1 =? 1)%nat = false) by (apply Nat.eqb_neq; lia). rewrite Hlen.
  change (from_option last_included_index 0 (d_snapshot d)) with (d_index d).
  rewrite (log_tail_suffix _ _ (vd_suffix _ Vd)). pose proof (vd_commit _ Vd) as Hc. pose proof (vd_index _ Vd) as [Hi _].
  rewrite (proj2 (Z.ltb_ge _ _)) by lia.
  assert (Hm : match d_snapshot d with None => Ok machine_new
      | Some s => match machine_restore (ps_state s) with Some m => Ok m | None => Err InvalidStateSnapshot end end = Ok (E := BootError) st).
  { destruct (d_snapshot d); [by rewrite Hst|by rewrite Hst]. }
  rewrite Hm. cbn [result_bind]. eexists. split; [reflexivity|].
  unfold reset_election_deadline. destruct (below _ _) as [j g]. simpl. split_and!; try done; [|lia].
  constructor; unfold d_index, d_index_term; simpl; try done. lia.
Qed.

Lemma others_pos n : n ∈ group → S (length (others n)) = length group.
Proof.
  intros Hn. unfold others. pose proof group_distinct as Hd. revert Hn Hd. generalize group. clear. induction l as [|m l IH]; intros Hn Hd; [by apply elem_of_nil in Hn|].
  apply NoDup_cons in Hd as [Hm Hd]. rewrite filter_cons. destruct (decide (m ≠ n)) as [Hne|Heq]; simpl.
  - f_equal. apply IH; [|done]. apply elem_of_cons in Hn as [->|?]; [done|done].
  - apply dec_stable in Heq as ->. f_equal. rewrite filter_all; [done|]. intros x Hx ->. done.
Qed.

Lemma boot_ok h n disk e shard t nanos :
  sound h → n ∈ group → 0 ≤ snapshot_threshold t → fault_ok h n (files disk) →
  let r := bootstrap e shard n (others n) t nanos disk in
  reaches h n (λ h', node_ok h' n (set_outbox [] r.1) r.2 ∧ ∀ rpc, rpc ∈ outbox r.1 → rpc_ok h' n rpc).
Proof.
  intros Hs Hn Ht Hfo. unfold bootstrap. destruct (open disk) as [s r] eqn:Ho. apply open_ok in Ho.
  assert (Hq : ∀ reason, fault_ok h n (files s) → let a := quarantined e shard n (others n) t nanos reason in
    reaches h n (λ h', node_ok h' n (set_outbox [] a) s ∧ ∀ rpc, rpc ∈ outbox a → rpc_ok h' n rpc)).
  { intros reason Hf a. apply reaches_here; [done|].
    assert (C : core a = core (set_storage_fault (Some reason) (blank_actor e shard n (others n) t nanos))) by apply core_reset.
    apply core_fields in C. destruct C. simpl in *. split; [right|by rewrite sc_outbox; intros rpc Hr%not_elem_of_nil].
    split_and!; [|done|done|done|simpl; by rewrite sc_store]. unfold is_faulty. simpl. by rewrite sc_fault. }
  destruct r as [rec|err].
  - destruct Ho as (d & -> & Vd & Hst & b & Hrec). destruct (proj2 Hfo _ _ Hrec) as (d' & Er & D').
    pose proof (disk_ok_recovered h n d d' Er (proj1 (vd_index _ Vd)) D') as D.
    assert (Hfs : fault_ok h n (files s)).
    { split; [apply Hfo|]. destruct Hst as [S1 S2 S3 _]. rewrite (recover_stored _ d S1 S2 S3 Vd). intros r b' [= <- <-]. eauto. }
    assert (Hlen : (0 < length (others n))%nat) by (pose proof group_size; pose proof (others_pos n Hn); lia).
    destruct (match d_snapshot d with None => Some machine_new | Some p => machine_restore (ps_state p) end) as [st|] eqn:Hm; last first.
    { destruct (d_snapshot d) as [p|] eqn:Hp; [|done]. unfold new_actor. simpl. rewrite in_order by apply Vd. cbn [result_bind].
      case_goal; [by apply Hq|]. rewrite Hp, Hm. by apply Hq. }
    destruct (new_actor_shape e shard n t nanos s d st Vd Hlen) as (a & -> & M & En & Ep & Em & Er' & Ea & Es & Ev & El & Eo & Ef & Est & Etm).
    { destruct (d_snapshot d); [done|by injection Hm]. }
    destruct (si_commit _ _ (so_inv _ Hs) n) as [Hcl _]. pose proof (do_index _ _ _ D) as Hi.
    set (j := Z.to_nat (d_index d)). assert (Hstate : st = replay (take j (p_log (peer h n)))).
    { unfold j, d_index. destruct (d_snapshot d) as [p|] eqn:Hp; [|by injection Hm].
      pose proof (do_snapshot _ _ _ D p Hp st Hm) as E. unfold d_index in E. by rewrite Hp in E. }
    assert (Hh : healthy h n (applied_to a (replay (take (p_commit (peer h n)) (p_log (peer h n)))) (Z.of_nat (p_commit (peer h n))))).
    { split_and!; [done| |exists s, d; split_and!; [done|done|by destruct M; constructor|done]].
      constructor; simpl; try congruence.
      - rewrite Em. by apply others_pos.
      - rewrite Er'. symmetry. apply Hfo.
      - rewrite (mi_commit _ _ M). symmetry. apply D.
      - rewrite Eo. by intros rpc Hr%not_elem_of_nil. }
    assert (Hc : reaches h n (λ h', coupled h' n (if 0 <? commit_index a then apply_committed e a else a))).
    { destruct (Z.ltb_spec 0 (commit_index a)) as [Hlt|Hge].
      - apply (apply_committed_ok e h n a j); [done|done|lia|rewrite (mi_index _ _ M); lia|lia|congruence].
      - apply reaches_here; [done|]. left. eapply healthy_core, Hh. rewrite (mi_commit _ _ M), (do_commit _ _ _ D) in Hge.
        assert (E0 : p_commit (peer h n) = O) by lia. apply same_core_core. constructor; simpl; try done; [lia|].
        rewrite Es, Hstate, E0. by replace j with O by lia. }
    eapply reaches_mono, Hc. intros h' _ Hc'. split; [by apply coupled_node|by apply coupled_outbox].
  - apply Hq. split; [apply Hfo|]. intros r b Hr. destruct (Ho r b Hr) as [b' Hr']. by apply (proj2 Hfo) in Hr'.
Qed.

Lemma node_files h n a disk : sound h → node_ok h n a disk → reaches h n (λ h', fault_ok h' n (files disk)).
Proof.
  intros Hs [[(_ & _ & s & d & Hst & Hsd & _ & D) Hd]|(_ & _ & _ & Hfo & _)]; [|by apply reaches_here].
  rewrite Hst in Hd. injection Hd as ->. eapply (fault_from_survives _ _ _ (λ d', d' = d)); [done| |intros d' ->; by apply reaches_here].
  apply (stored_survives disk d); [done|by eapply disk_ok_valid|done].
Qed.

(** ** Every step is simulated *)

Lemma step_ok h w w' : world_ok h w → cluster_step w w' → ∃ n, simulated h n w'.
Proof.
  intros W Hstep. pose proof (wo_sound _ _ W) as Hs. destruct Hstep.
  - exists n. apply (quiet_ok h w n os (on_tick e)); [done|done|intros a Hf; unfold on_tick; by rewrite Hf|].
    intros a C Hh. apply on_tick_ok; [done|by left|]. eapply roomy_core; [exact C|done].
  - exists n. apply (quiet_ok h w n os (λ a, (handle e (MsgPropose command client) a).1)); [done|done|intros a Hf; exact (proj1 (faulted_handle e _ a Hf))|].
    intros a C Hh. apply msg_handled; [done|done|by eapply roomy_core|done].
  - destruct (wo_net _ _ W _ Hin) as [Hc Hok]. exists (rpc_to rpc). unfold r. clear r.
    apply (runs_ok h w (rpc_to rpc) os (λ a, (handle e (rpc_msg rpc) a).1) (λ a, [Response c rpc (handle e (rpc_msg rpc) a).2])).
    + done.
    + by eapply rpc_to_member.
    + intros a Hf. destruct (faulted_handle e (rpc_msg rpc) a Hf) as [C Hr]. split; [done|]. intros p Hp%list_elem_of_singleton. subst p.
      split_and!; [done|done|]. destruct rpc; simpl in *.
      * destruct (handle_request_vote _ _ _) as [a1 r]. simpl in *. intros _ E. congruence.
      * destruct (handle_append_entries _ _ _) as [a1 r]. simpl in *. intros E. congruence.
      * destruct (handle_install_snapshot _ _ _) as [a1 r]. simpl in *. intros E. congruence.
    + intros a C Hh. eapply reaches_bind; [done|apply (request_ok h c rpc e (rpc_to rpc) a Hs Hh eq_refl Hok); by eapply covered_core|].
      intros h' S' E' [Hc' Hr']. apply reaches_here; [done|]. split; [done|]. intros p Hp%list_elem_of_singleton. subst p.
      split_and!; [done| |done]. eapply rpc_ok_mono; [apply Hs|done|done].
  - destruct (wo_net _ _ W _ Hin) as (Hc & Hok & Hr). exists c.
    apply (quiet_ok h w c os (λ a, (handle e msg a).1)); [done|done|intros a Hf; exact (proj1 (faulted_handle e _ a Hf))|].
    intros a C Hh. apply msg_handled; [done|done|by eapply roomy_core|]. by eapply (reply_msg_ok h c rpc (Some r)).
  - destruct (wo_net _ _ W _ Hin) as [Hc Hok]. exists c.
    apply (quiet_ok h w c os (λ a, (handle e msg a).1)); [done|done|intros a Hf; exact (proj1 (faulted_handle e _ a Hf))|].
    intros a C Hh. apply msg_handled; [done|done|by eapply roomy_core|]. by eapply (reply_msg_ok h c rpc None).
  - exists n. assert (Hb : reaches h n (λ h', node_ok h' n (set_outbox [] r.1) r.2 ∧ ∀ rpc, rpc ∈ outbox r.1 → rpc_ok h' n rpc)).
    { eapply reaches_bind; [done|exact (node_files h n _ _ Hs (wo_nodes _ _ W n Hn))|]. intros h1 S1 E1 Hfo. by apply boot_ok. }
    destruct Hb as (h' & Hm & S' & Hnode & Hout). exists h'. split; [done|].
    destruct (moves_ok mems h n h' (so_inv _ Hs) Hm) as [_ E].
    apply (after_ok h); [done|done|done|done|done|done|by intros p Hp%not_elem_of_nil].
Qed.

Lemma fresh_ok w : fresh_world w → world_ok initial_hist w.
Proof.
  intros [Hnet Hn]. constructor.
  - split; [apply initial_inv|]. intros t c L HL. simpl in HL. by apply lookup_empty_Some in HL.
  - intros n _. destruct (Hn n) as (Hf & Hr & Ho & Hst & Hfiles & _). right. split_and!; [done|done|done| |by rewrite Hst].
    split; [done|]. rewrite Hfiles, recover_fresh by done. intros r b [= <- <-]. exists fresh_disk. split; [done|].
    constructor; unfold d_index; simpl; try done.
  - rewrite Hnet. by intros p Hp%not_elem_of_nil.
Qed.

Lemma moves_spec n h h' : moves mems n h h' → rtc (spec_any mems) h h'.
Proof. intros Hm. eapply (rtc_congruence id), Hm. intros x y Hxy. by exists n. Qed.

Lemma reachable_ok w : reachable w → ∃ h, spec_reachable mems h ∧ world_ok h w.
Proof.
  intros (w0 & Hfresh & Hrun). revert w Hrun. apply rtc_ind_r.
  - exists initial_hist. split; [apply rtc_refl|by apply fresh_ok].
  - intros w1 w2 _ Hstep (h & Hr & W). destruct (step_ok h w1 w2 W Hstep) as (n & h' & Hm & W'). exists h'. split; [|done].
    unfold spec_reachable in *. etrans; [exact Hr|]. by eapply moves_spec.
Qed.
End cluster.
