(* ===== verification/RaftMachine.v ===== *)
(** The state machine of src/state.rs as the machine the shard actor replicates,
    and the interface law it keeps: a snapshot that restores is faithful. *)

From Stdlib Require Import Ascii.
From S2P Require Import Prelude Json Text Cancellation Command StateMachine Validate Snapshot ShardActor RaftCoupling.

(** [serde_json] writes the store as an object and reads back what it wrote. *)
Class SerdeLaws `{Serde} : Prop := {
  store_is_object st payload : to_vec st = Ok payload → ∃ rest, payload = String "{"%char rest;
  store_reads_back st payload : to_vec st = Ok payload → from_slice payload = Ok st
}.

Section machine.
Context `{External, HashOrder, Serde}.

#[export] Instance state_machine : Machine := {|
  mstate := Store;
  machine_new := inhabitant;
  machine_apply := apply_at;
  machine_snapshot st := match snapshot st with Ok bytes => Some bytes | Err _ => None end;
  machine_restore bytes := match restore bytes with Ok st => Some st | Err _ => None end;
  machine_protocol := command_protocol
|}.

Lemma open_stamped p rest :
  p = 1 ∨ p = 2 ∨ p = 3 →
  open_envelope (stamp_of p +:+ String "{"%char rest) = (expected_stamp p, String "{"%char rest).
Proof. intros [->|[->| ->]]; reflexivity. Qed.

Lemma snapshot_stamped st bytes :
  snapshot st = Ok bytes → ∃ payload, to_vec st = Ok payload ∧ bytes = stamp_of (command_protocol st) +:+ payload ∧
    (command_protocol st = 1 ∨ command_protocol st = 2 ∨ command_protocol st = 3).
Proof.
  unfold snapshot. destruct (to_vec st) as [payload|]; [|done]. simpl. exists payload. split; [done|].
  unfold stamp_of, LEGACY_COMMAND_PROTOCOL, LOCK_COMMAND_PROTOCOL, CURRENT_COMMAND_PROTOCOL in *.
  repeat case_match; bools; simplify_eq; auto; lia.
Qed.

#[export] Instance state_machine_laws `{!SerdeLaws} : MachineLaws.
Proof.
  constructor. simpl. intros st bytes st' Hs Hr.
  destruct (snapshot st) as [b|] eqn:Es; [|done]. injection Hs as ->. destruct (restore bytes) as [s|] eqn:Er; [|done]. injection Hr as ->.
  apply snapshot_stamped in Es as (payload & Hp & -> & Hv). destruct (store_is_object _ _ Hp) as [rest ->].
  unfold restore in Er. rewrite open_stamped, (store_reads_back _ _ Hp) in Er by done. simpl in Er.
  destruct (negb _); [done|]. destruct (validate_restored st) as [[]|]; [|done]. by injection Er.
Qed.
End machine.
