(* ===== verification/RaftExample.v ===== *)
(** A group that runs: a concrete record format, a concrete group of two members,
    and an executable scheduler whose runs are runs of the cluster.  It shows
    that the interfaces the Raft theorems assume have a model, and supplies the
    runs at which the theorems are exercised. *)

From Stdlib Require Import Ascii.
From stdpp Require Import functions.
From S2P Require Import Prelude Json Text Cancellation Command StateMachine Validate Snapshot RaftTypes RaftSpec RaftConfig RaftCallback Persist PersistTheorems ShardActor RaftCoupling RaftMethods RaftLeading RaftFollowing RaftCluster RaftMachine.

(** ** A record format *)

(** A record is a list of numbers in unary, each followed by a comma; a semicolon
    ends the record. *)
Fixpoint ones (n : nat) : string := match n with O => "" | S n => String "1"%char (ones n) end.
Definition print_fields (l : list nat) : string := foldr (λ n s, ones n +:+ String ","%char s) ";" l.

Fixpoint parse_fields (current : nat) (s : string) : option (list nat) :=
  match s with
  | "" => None
  | String c s' =>
      if Ascii.eqb c "1"%char then parse_fields (S current) s'
      else if Ascii.eqb c ","%char then cons current <$> parse_fields 0 s'
      else if Ascii.eqb c ";"%char then if (String.eqb s' "" && Nat.eqb current 0)%bool then Some [] else None
      else None
  end.

Lemma parse_ones n : ∀ current s, parse_fields current (ones n +:+ s) = parse_fields (current + n) s.
Proof.
  induction n as [|n IH]; intros current s; simpl; [by rewrite Nat.add_0_r|]. rewrite IH. f_equal. lia.
Qed.

Lemma parse_print l : parse_fields 0 (print_fields l) = Some l.
Proof. induction l as [|n l IH]; simpl; [done|]. rewrite parse_ones. simpl. by rewrite IH. Qed.

Lemma parse_longer s : ∀ current l t, parse_fields current s = Some l → t ≠ "" → parse_fields current (s +:+ t) = None.
Proof.
  induction s as [|c s IH]; intros current l t; simpl; [done|]. destruct (Ascii.eqb c "1"%char); [by apply IH|].
  destruct (Ascii.eqb c ","%char).
  - intros (k & Hk & _)%fmap_Some Ht. by rewrite (IH _ _ _ Hk Ht).
  - destruct (Ascii.eqb c ";"%char); [|done]. destruct s as [|c' s]; [|done]. intros _ Ht. by destruct t.
Qed.

Lemma parse_torn l b1 b2 : print_fields l = b1 +:+ b2 → b2 ≠ "" → parse_fields 0 b1 = None.
Proof.
  intros E Hne. destruct (parse_fields 0 b1) as [k|] eqn:Hp; [|done]. pose proof (parse_longer _ _ _ _ Hp Hne) as Hl.
  by rewrite <- E, parse_print in Hl.
Qed.

Fixpoint has_char (c : ascii) (s : string) : bool :=
  match s with "" => false | String d s => Ascii.eqb c d || has_char c s end.

Lemma split_on_none c s : has_char c s = false → split_on c s = [s].
Proof.
  induction s as [|d s IH]; simpl; [done|]. intros [Hd Hs]%orb_false_iff. rewrite Ascii.eqb_sym in Hd. rewrite IH by done. by rewrite Hd.
Qed.

Lemma has_char_app c s t : has_char c (s +:+ t) = has_char c s || has_char c t.
Proof. induction s as [|d s IH]; simpl; [done|]. by rewrite IH, orb_assoc. Qed.

Lemma print_one_line l : has_char LF (print_fields l) = false.
Proof.
  induction l as [|n l IH]; [done|]. simpl. rewrite has_char_app. simpl. rewrite IH. assert (has_char LF (ones n) = false) as ->; [|done].
  by induction n.
Qed.

Lemma print_not_empty l : print_fields l ≠ "".
Proof. destruct l as [|n l]; [done|]. simpl. by destruct n. Qed.

(** Texts are the codes of their characters. *)
Fixpoint codes (s : string) : list nat := match s with "" => [] | String c s => nat_of_ascii c :: codes s end.
Fixpoint text (l : list nat) : string := match l with [] => "" | n :: l => String (ascii_of_nat n) (text l) end.

Lemma text_codes s : text (codes s) = s.
Proof. induction s as [|c s IH]; simpl; [done|]. by rewrite ascii_nat_embedding, IH. Qed.

Definition narrow (z : Z) : option nat := if (0 <=? z) && (z <=? U64_MAX) then Some (Z.to_nat z) else None.
Definition widen (n : nat) : option Z := if Z.of_nat n <=? U64_MAX then Some (Z.of_nat n) else None.

Lemma widen_narrow z n : narrow z = Some n → widen n = Some z.
Proof.
  unfold narrow, widen. case_goal; [|done]. intros [= <-]. bools. rewrite Z2Nat.id by done. by rewrite (proj2 (Z.leb_le _ _)).
Qed.

Lemma widen_u64 n z : widen n = Some z → is_u64 z.
Proof. unfold widen, is_u64. case_goal; [|done]. intros [= <-]. bools. lia. Qed.

Definition optional_text (o : option string) : list nat := match o with None => [] | Some s => 1%nat :: codes s end.
Definition read_optional_text (l : list nat) : option (option string) :=
  match l with [] => Some None | 1%nat :: cs => Some (Some (text cs)) | _ => None end.

Lemma optional_text_back o : read_optional_text (optional_text o) = Some o.
Proof. destruct o; simpl; [by rewrite text_codes|done]. Qed.

(** Of the commands, the format knows [KvDelete], the protocol activation and
    the acquisition of one key without waiting. *)
Definition command_fields (c : option Command) : option (list nat) :=
  match c with
  | None => Some []
  | Some (KvDelete key) => Some (1%nat :: codes key)
  | Some (ActivateCommandProtocol version) => n ← narrow version; Some [2%nat; n]
  | Some (LockAcquireV2 [key] holder ttl_ms false None) =>
      n ← narrow ttl_ms; Some (3%nat :: n :: length (codes key) :: codes key ++ codes holder)
  | Some _ => None
  end.
Definition read_command (l : list nat) : option (option Command) :=
  match l with
  | [] => Some None
  | 1%nat :: cs => Some (Some (KvDelete (text cs)))
  | [2%nat; n] => v ← widen n; Some (Some (ActivateCommandProtocol v))
  | 3%nat :: n :: k :: cs => ttl ← widen n; Some (Some (LockAcquireV2 [text (take k cs)] (text (drop k cs)) ttl false None))
  | _ => None
  end.

Lemma read_command_fields c l : command_fields c = Some l → read_command l = Some c.
Proof.
  destruct c as [c|]; [|by intros [= <-]]. destruct c; simpl; try done.
  - intros (n & Hn & [= <-])%bind_Some. simpl. by rewrite (widen_narrow _ _ Hn).
  - intros [= <-]. simpl. by rewrite text_codes.
  - repeat case_match; try done. intros (n & Hn & [= <-])%bind_Some. simpl. rewrite (widen_narrow _ _ Hn). simpl.
    by rewrite take_app_length, drop_app_length, !text_codes.
Qed.

Definition unary_meta (m : Meta) : option string :=
  t ← narrow (m_current_term m); c ← narrow (m_commit_index m);
  Some (print_fields (t :: c :: optional_text (m_voted_for m))).
Definition unary_entry (e : LogEntry) : option string :=
  t ← narrow (e_term e); i ← narrow (e_index e); p ← narrow (e_proposed_at_ms e); c ← command_fields (e_command e);
  Some (print_fields (t :: i :: p :: c)).
Definition unary_snapshot (s : PersistedSnapshot) : option string :=
  i ← narrow (last_included_index s); t ← narrow (last_included_term s);
  Some (print_fields (i :: t :: codes (ps_state s))).

Definition read_meta (b : string) : option Meta :=
  match parse_fields 0 b with
  | Some (t :: c :: rest) => t ← widen t; c ← widen c; v ← read_optional_text rest; Some (mkMeta t v c)
  | _ => None
  end.
Definition read_entry (b : string) : option LogEntry :=
  match parse_fields 0 b with
  | Some (t :: i :: p :: rest) =>
      t ← widen t; i ← widen i; p ← widen p; c ← read_command rest; Some (mkEntry t i p c)
  | _ => None
  end.
Definition read_snapshot (b : string) : option PersistedSnapshot :=
  match parse_fields 0 b with
  | Some (i :: t :: rest) => i ← widen i; t ← widen t; Some (mkPersisted i t (text rest))
  | _ => None
  end.

Definition unary_format : DiskFormat := {|
  meta_to_vec := unary_meta; meta_from_slice := read_meta;
  entry_to_vec := unary_entry; entry_from_slice := read_entry;
  snapshot_to_vec := unary_snapshot; snapshot_from_slice := read_snapshot
|}.

#[local] Arguments print_fields : simpl never.
#[local] Arguments parse_fields : simpl never.

#[export] Instance unary_laws : @DiskLaws unary_format.
Proof.
  constructor; simpl.
  - intros [t v c] b. unfold unary_meta, read_meta. simpl. intros (t' & Ht & (c' & Hc & [= <-])%bind_Some)%bind_Some.
    split; [apply print_not_empty|]. rewrite parse_print, (widen_narrow _ _ Ht), (widen_narrow _ _ Hc), optional_text_back. done.
  - intros [i t s] b. unfold unary_snapshot, read_snapshot. simpl. intros (i' & Hi & (t' & Ht & [= <-])%bind_Some)%bind_Some.
    split; [apply print_not_empty|]. rewrite parse_print, (widen_narrow _ _ Hi), (widen_narrow _ _ Ht), text_codes. done.
  - intros [t i p c] b. unfold unary_entry, read_entry. simpl.
    intros (t' & Ht & (i' & Hi & (p' & Hp & (c' & Hc & [= <-])%bind_Some)%bind_Some)%bind_Some)%bind_Some.
    split; [apply print_not_empty|]. rewrite parse_print, (widen_narrow _ _ Ht), (widen_narrow _ _ Hi), (widen_narrow _ _ Hp). simpl.
    by rewrite (read_command_fields _ _ Hc).
  - intros [t i p c] b. unfold unary_entry. simpl. intros (? & _ & (? & _ & (? & _ & (? & _ & [= <-])%bind_Some)%bind_Some)%bind_Some)%bind_Some.
    apply split_on_none, print_one_line.
  - intros [t i p c] b b1 b2. unfold unary_entry, read_entry. simpl. intros (? & _ & (? & _ & (? & _ & (? & _ & [= <-])%bind_Some)%bind_Some)%bind_Some)%bind_Some.
    intros E Hne. by rewrite (parse_torn _ _ _ E Hne).
  - intros b e. unfold read_entry. destruct (parse_fields 0 b) as [[|t [|i [|p rest]]]|]; try done.
    intros (t' & Ht & (i' & Hi & (p' & _ & (? & _ & [= <-])%bind_Some)%bind_Some)%bind_Some)%bind_Some. split; by eapply widen_u64.
  - intros b m. unfold read_meta. destruct (parse_fields 0 b) as [[|t [|c rest]]|]; try done.
    intros (t' & Ht & (c' & Hc & (? & _ & [= <-])%bind_Some)%bind_Some)%bind_Some. split; by eapply widen_u64.
  - intros b s. unfold read_snapshot. destruct (parse_fields 0 b) as [[|i [|t rest]]|]; try done.
    intros (i' & Hi & (t' & Ht & [= <-])%bind_Some)%bind_Some. split; by eapply widen_u64.
Qed.

(** ** An executable scheduler *)

(** What happens next; a message is named by its position in the network. *)
Inductive Event : Type :=
| Tick (n : string)
| Propose (n : string) (command : Command) (client : Z)
| Deliver (i : nat)
| Lose (i : nat)
| Restart (n : string) (t : RaftTiming).

Section scheduler.
Context `{DiskFormat, Machine, Wire, Group}.

Definition roomyb (a : ShardActor) : bool :=
  (current_term a <? U64_MAX) && (last_log_index a + 1 <=? U64_MAX) &&
  is_none_or (leader a) (λ ls, request_sequence ls + Z.of_nat (length (peers a) + length (peers a)) <=? U64_MAX).

Definition coveredb (rpc : Rpc) (a : ShardActor) : bool :=
  match rpc with
  | RpcAppend _ _ _ req =>
      (Z.min (ar_leader_commit req) (snapshot_index a + Z.of_nat (length (follower_log req a)))
         <=? ar_prev_log_index req + Z.of_nat (length (ar_entries req))) ||
      (from_option e_term 0 (last (follower_log req a)) =? ar_term req)
  | _ => true
  end.

(** A run that is not [strict] also delivers requests whose commit index reaches
    past the entries they carry. *)
Definition exec (strict : bool) (w : World) (s : Env * list Outcome * Event) : option World :=
  let '(e, os, event) := s in
  match event with
  | Tick n =>
      if bool_decide (n ∈ group) && roomyb (actors w n) then Some (ran w n (on_tick e (facing os (actors w n))) []) else None
  | Propose n command client =>
      if bool_decide (n ∈ group) && roomyb (actors w n)
      then Some (ran w n (handle e (MsgPropose command client) (facing os (actors w n))).1 []) else None
  | Deliver i =>
      match net w !! i with
      | Some (Request c rpc) =>
          if negb strict || coveredb rpc (actors w (rpc_to rpc)) then
            let r := handle e (rpc_msg rpc) (facing os (actors w (rpc_to rpc))) in
            Some (ran w (rpc_to rpc) r.1 [Response c rpc r.2])
          else None
      | Some (Response c rpc r) =>
          msg ← reply_msg (Some 0) rpc (Some r);
          if roomyb (actors w c) then Some (ran w c (handle e msg (facing os (actors w c))).1 []) else None
      | None => None
      end
  | Lose i =>
      match net w !! i with
      | Some (Request c rpc) =>
          msg ← reply_msg None rpc None;
          if roomyb (actors w c) then Some (ran w c (handle e msg (facing os (actors w c))).1 []) else None
      | _ => None
      end
  | Restart n t =>
      if bool_decide (n ∈ group) && (0 <=? snapshot_threshold t) then
        let r := bootstrap e 0 n (others n) t 1 (with_outcomes (disks w n) os) in Some (after w n r.1 r.2 [])
      else None
  end.

Fixpoint exec_all (strict : bool) (w : World) (l : list (Env * list Outcome * Event)) : option World :=
  match l with
  | [] => Some w
  | s :: l => w ← exec strict w s; exec_all strict w l
  end.

Lemma roomyb_roomy a : roomyb a = true → roomy a.
Proof.
  unfold roomyb, roomy, may_send. intros Hb. bools. split_and!; [done|done|]. intros ls E. rewrite E in *. simpl in *. bools. lia.
Qed.

Lemma coveredb_covered rpc a : coveredb rpc a = true → covered rpc a.
Proof.
  destruct rpc; simpl; [done| |done]. unfold commit_covered. intros [Hc|Hc]%orb_true_iff; bools; [by left|by right].
Qed.

Lemma exec_sound w s w' : exec true w s = Some w' → cluster_step w w'.
Proof.
  destruct s as [[e os] event]. unfold exec. destruct event as [n|n command client|i|i|n t].
  - case_goal; [|done]. intros [= <-]. bools. apply cluster_tick; [done|by apply roomyb_roomy].
  - case_goal; [|done]. intros [= <-]. bools. apply cluster_propose; [done|by apply roomyb_roomy].
  - destruct (net w !! i) as [[c rpc|c rpc r]|] eqn:Hi; [| |done]; apply list_elem_of_lookup_2 in Hi.
    + case_goal; [|done]. intros [= <-]. apply cluster_request; [done|by apply coveredb_covered].
    + intros (msg & Hm & Hr)%bind_Some. revert Hr. case_goal; [|done]. intros [= <-].
      eapply cluster_reply; [done|done|by apply roomyb_roomy].
  - destruct (net w !! i) as [[c rpc|c rpc r]|] eqn:Hi; [|done|done]; apply list_elem_of_lookup_2 in Hi.
    intros (msg & Hm & Hr)%bind_Some. revert Hr. case_goal; [|done]. intros [= <-]. eapply cluster_lost; [done|done|by apply roomyb_roomy].
  - case_goal; [|done]. intros [= <-]. bools. apply cluster_restart; [done|done].
Qed.

Lemma exec_all_sound l : ∀ w w', exec_all true w l = Some w' → rtc cluster_step w w'.
Proof.
  induction l as [|s l IH]; intros w w'; simpl; [intros [= <-]; apply rtc_refl|].
  intros (w1 & Hs & Hl)%bind_Some. eapply rtc_l; [by apply exec_sound in Hs|by apply IH].
Qed.
End scheduler.

(** ** A group of two *)

#[export] Existing Instance unary_format.
#[export] Existing Instance plain_external.
#[export] Existing Instance identity_order.

(** Nothing is ever encoded, so no snapshot is taken. *)
#[export] Instance no_serde : Serde := {| serde_error := unit; to_vec _ := Err tt; from_slice _ := Err tt |}.
#[export] Instance no_serde_laws : SerdeLaws.
Proof. constructor; done. Qed.
#[export] Instance free_wire : Wire := {| append_body_len _ := Some 0 |}.
#[export] Instance pair_group : Group.
Proof. refine {| group := ["a"; "b"] |}; [|simpl; lia]. apply (bool_decide_unpack _). by vm_compute. Defined.

Definition at_ms (t : Z) : Env := mkEnv (from_millis t) t 64 1000.
Definition pair_timing : RaftTiming := mkTiming (from_millis 20) (from_millis 50) 150 150 false false 0.

Definition empty_disk : ShardStore := mkStore (mkFiles None None None) 0 [].
Definition empty_world : World :=
  mkWorld (λ n, quarantined (at_ms 0) 0 n (others n) pair_timing 1 "not started") (λ _, empty_disk) [].

Lemma empty_fresh : fresh_world empty_world.
Proof. split; [done|]. intros n. cbn [actors disks empty_world]. unfold quarantined, reset_election_deadline. destruct (below _ _). done. Qed.

Definition run (l : list (Env * list Outcome * Event)) : World := default empty_world (exec_all true empty_world l).

Lemma run_reachable l : reachable (run l).
Proof.
  exists empty_world. split; [apply empty_fresh|]. unfold run. destruct (exec_all true empty_world l) as [w|] eqn:E; [|apply rtc_refl].
  by eapply exec_all_sound.
Qed.

(** ** A run *)

Definition good (t : Z) (event : Event) : Env * list Outcome * Event := (at_ms t, [], event).

Definition lock_key (key holder : string) : Command := LockAcquireV2 [key] holder 50 false None.

(** Both members start; "a" is elected (its vote request arrives twice), its
    no-op and the protocol activation are replicated and committed; then a client
    asks for a lock, and the follower's acknowledgement is on its way. *)
Definition demo : list (Env * list Outcome * Event) :=
  [good 1 (Restart "a" pair_timing); good 2 (Restart "b" pair_timing); good 400 (Tick "a"); good 401 (Deliver 0); good 402 (Deliver 0);
   good 403 (Deliver 1); good 404 (Deliver 3); good 405 (Deliver 4); good 406 (Deliver 5); good 407 (Deliver 6);
   good 408 (Propose "a" (lock_key "k" "h") 7); good 409 (Deliver 7)].

(** The acknowledgement arrives; the next proposal fails half-way through its
    write to the log, and the leader is faulted until it restarts. *)
Definition demo_crash : list (Env * list Outcome * Event) :=
  [good 410 (Deliver 8); (at_ms 411, [Failed 3], Propose "a" (KvDelete "l") 8)].
Definition demo_restart : list (Env * list Outcome * Event) := [good 412 (Restart "a" pair_timing)].

Definition w_demo : World := run demo.
Definition w_crash : World := run (demo ++ demo_crash).
Definition w_restart : World := run (demo ++ demo_crash ++ demo_restart).

(** The lock is granted; a second lock is proposed, which tells the follower to
    apply the first; then the second is granted as well. *)
Definition second_lock : list (Env * list Outcome * Event) :=
  [good 410 (Deliver 8); good 411 (Propose "a" (lock_key "l" "g") 8); good 412 (Deliver 9)].
Definition w_first : World := run (demo ++ second_lock).
Definition w_second : World := run ((demo ++ second_lock) ++ [good 413 (Deliver 10)]).

Lemma exec_all_app strict l1 : ∀ l2 w, exec_all strict w (l1 ++ l2) = exec_all strict w l1 ≫= λ w', exec_all strict w' l2.
Proof. induction l1 as [|s l1 IH]; intros l2 w; simpl; [done|]. destruct (exec strict w s); simpl; [apply IH|done]. Qed.

Lemma run_extends l1 l2 : is_Some (exec_all true empty_world (l1 ++ l2)) → rtc cluster_step (run l1) (run (l1 ++ l2)).
Proof.
  intros [w E]. unfold run. rewrite E. rewrite exec_all_app in E. destruct (exec_all true empty_world l1) as [w1|]; [|done]. simpl in *.
  by eapply exec_all_sound.
Qed.
