(* ===== verification/RaftTheorems.v ===== *)
(** What the Raft group guarantees, over every run of the cluster: one leader per
    term, matching logs, complete leaders, one sequence of applied commands, and
    restarts that resume. *)

From stdpp Require Import functions.
From S2P Require Import Prelude Json Text Cancellation Command StateMachine Snapshot RaftTypes RaftSpec RaftConfig RaftCallback Persist PersistTheorems ShardActor RaftCoupling RaftMethods RaftLeading RaftFollowing RaftCluster RaftMachine RaftExample.

Section theorems.
Context `{DiskFormat, !DiskLaws, Machine, !MachineLaws, Wire, Group}.

(** A member that still serves. *)
Definition serving (w : World) (n : string) : Prop := n ∈ group ∧ storage_fault (actors w n) = None.

Lemma serving_healthy h w n : world_ok h w → serving w n → healthy h n (actors w n).
Proof.
  intros W [Hn Hf]. destruct (wo_nodes _ _ W n Hn) as [[Hh _]|(Hft & _)]; [done|]. apply is_faulty_spec in Hft. done.
Qed.

Lemma leader_serving h w n : world_ok h w → n ∈ group → role (actors w n) = Leader → serving w n.
Proof.
  intros W Hn Hr. split; [done|]. destruct (wo_nodes _ _ W n Hn) as [[[Hf _] _]|(_ & Hrf & _)]; [done|congruence].
Qed.

Lemma leader_leads h w n :
  world_ok h w → n ∈ group → role (actors w n) = Leader → leads h !! current_term (actors w n) = Some (n, p_log (peer h n)).
Proof.
  intros W Hn Hr. pose proof (serving_healthy h w n W (leader_serving h w n W Hn Hr)) as Hh.
  pose proof (healthy_view _ _ _ (wo_sound _ _ W) Hh) as V. rewrite (vw_term _ _ _ V).
  apply (si_leader _ _ (so_inv _ (wo_sound _ _ W))). destruct Hh as (_ & Hv & _). by rewrite <- (vo_role _ _ _ Hv).
Qed.

(** An entry an actor holds, in the log of its member. *)
Lemma held_entry h n a x :
  sound h → healthy h n a → x ∈ log a → ∃ k, p_log (peer h n) !! k = Some x ∧ e_index x = Z.of_nat k + 1.
Proof.
  intros Hs Hh Hx. pose proof (healthy_view _ _ _ Hs Hh) as V. rewrite (vw_log _ _ _ V) in Hx.
  apply list_elem_of_lookup in Hx as [k Hk]. rewrite lookup_drop in Hk. eexists. split; [exact Hk|].
  destruct (si_peer _ _ (so_inv _ Hs) n) as (_ & _ & _ & Hi & _). by apply Hi.
Qed.


(** A member grants its vote to one candidate per term, across crashes and
    restarts: two granted answers of one member in one term are for the same
    candidate. *)
Theorem one_vote_per_term (w : World) (n c c' : string) (req req' : RequestVoteReq) (r r' : RequestVoteResp)
    (Hreach : reachable w)
    (Hin : Response c (RpcVote n req) (ReplyVote r) ∈ net w) (Hin' : Response c' (RpcVote n req') (ReplyVote r') ∈ net w)
    (Hreal : vr_pre_vote req = false) (Hreal' : vr_pre_vote req' = false)
    (Hg : vs_granted r = true) (Hg' : vs_granted r' = true) (Ht : vs_term r = vs_term r') :
  c = c'.
Proof.
  destruct (reachable_ok w Hreach) as (h & _ & W).
  destruct (wo_net _ _ W _ Hin) as (_ & [_ [Ec _]] & Hv). destruct (wo_net _ _ W _ Hin') as (_ & [_ [Ec' _]] & Hv').
  specialize (Hv Hreal Hg). specialize (Hv' Hreal' Hg'). rewrite Ec in Hv. rewrite Ec', <- Ht in Hv'.
  by eapply (si_unique _ _ (so_inv _ (wo_sound _ _ W))).
Qed.


(** What a member committed is a prefix of the log of every leader of a later term. *)
Lemma committed_prefix_of_leader h n t c L :
  spec_inv mems h → leads h !! t = Some (c, L) → p_term (peer h n) ≤ t → take (p_commit (peer h n)) (p_log (peer h n)) `prefix_of` L.
Proof.
  intros I HL Ht. destruct (si_commit _ _ I n) as [_ [->|(t' & Ht' & Hc)]]; [apply prefix_nil|].
  apply (committed_in_leader mems h t' _ t c L I Hc); [lia|done].
Qed.

Lemma prefix_same_entry (l L : list LogEntry) i k x y :
  take i l `prefix_of` L → (k < i)%nat → l !! k = Some x → L !! k = Some y → x = y.
Proof.
  intros Hpre Hk Hx Hy. assert (Hx' : take i l !! k = Some x) by (by rewrite lookup_take_lt).
  rewrite (prefix_lookup_Some _ _ _ _ Hx' Hpre) in Hy. by injection Hy.
Qed.

(** A leader has everything that was committed in its own or an earlier
    term: its log reaches as far as any such member's commit index and agrees
    with it on the committed entries. *)
Theorem leader_has_committed (w : World) (n m : string)
    (Hreach : reachable w) (Hn : serving w n) (Hm : m ∈ group)
    (Lm : role (actors w m) = Leader) (Ht : current_term (actors w n) ≤ current_term (actors w m)) :
  commit_index (actors w n) ≤ last_log_index (actors w m) ∧
  ∀ x y, x ∈ log (actors w n) → e_index x ≤ commit_index (actors w n) → y ∈ log (actors w m) → e_index y = e_index x → x = y.
Proof.
  destruct (reachable_ok w Hreach) as (h & _ & W). pose proof (wo_sound _ _ W) as Hs. pose proof (so_inv _ Hs) as I.
  pose proof (leader_leads h w m W Hm Lm) as HL. pose proof (serving_healthy h w n W Hn) as Hhn.
  pose proof (serving_healthy h w m W (leader_serving h w m W Hm Lm)) as Hhm.
  pose proof (healthy_view _ _ _ Hs Hhn) as Vn. pose proof (healthy_view _ _ _ Hs Hhm) as Vm.
  pose proof (committed_prefix_of_leader h n _ _ _ I HL) as Hpre. rewrite <- (vw_term _ _ _ Vn) in Hpre. specialize (Hpre Ht).
  destruct (si_commit _ _ I n) as [Hcl _]. rewrite (vw_commit _ _ _ Vn), (vw_last _ _ _ Vm). split.
  - apply prefix_length in Hpre. rewrite length_take in Hpre. lia.
  - intros x y Hx Hxi Hy Ei. destruct (held_entry h n _ x Hs Hhn Hx) as (k & Hk & Ek). destruct (held_entry h m _ y Hs Hhm Hy) as (k' & Hk' & Ek').
    assert (k' = k) as -> by lia. by apply (prefix_same_entry _ _ _ k _ _ Hpre ltac:(lia)).
Qed.

(** ** Committed entries *)

Lemma committed_longest h (ns : list string) :
  spec_inv mems h → ∃ l, (l = [] ∨ ∃ t, committed_by mems h t l) ∧
    ∀ n, n ∈ ns → take (p_commit (peer h n)) (p_log (peer h n)) `prefix_of` l.
Proof.
  intros I. induction ns as [|n ns IH]; [exists []; split; [by left|by intros n Hn%not_elem_of_nil]|].
  destruct IH as (l & Hl & Hall). destruct (si_commit _ _ I n) as [_ [E|(t & _ & Hc)]].
  - exists l. split; [done|]. intros m [->|Hm]%elem_of_cons; [rewrite E; apply prefix_nil|by apply Hall].
  - set (p := take (p_commit (peer h n)) (p_log (peer h n))) in *.
    assert (Hcmp : p `prefix_of` l ∨ l `prefix_of` p).
    { destruct Hl as [->|[t' Hc']]; [right; apply prefix_nil|]. by eapply committed_comparable. }
    destruct Hcmp as [Hp|Hp].
    + exists l. split; [done|]. intros m [->|Hm]%elem_of_cons; [done|by apply Hall].
    + exists p. split; [right; by exists t|]. intros m [->|Hm]%elem_of_cons; [done|]. etrans; [by apply Hall|done].
Qed.

Lemma take_of_prefix i (l L : list LogEntry) : take i l `prefix_of` L → (i ≤ length l)%nat → take i L = take i l.
Proof. intros Hp Hi. rewrite (prefix_take_le i _ _ Hp) by (rewrite length_take; lia). by rewrite firstn_firstn, Nat.min_id. Qed.


Lemma committed_any h h' t l : spec_inv mems h → rtc (spec_any mems) h h' → committed_by mems h t l → committed_by mems h' t l.
Proof.
  intros I Hrun. revert I. induction Hrun as [h|h h1 h2 [n Hs] _ IH]; intros I Hc; [done|].
  apply IH; [by eapply spec_step_inv|]. eapply committed_mono; [done|by eapply spec_step_extends|done].
Qed.

Lemma run_ok h w w' : world_ok h w → rtc cluster_step w w' → ∃ h', rtc (spec_any mems) h h' ∧ world_ok h' w'.
Proof.
  intros W Hrun. revert h W. induction Hrun as [w|w w1 w2 Hstep _ IH]; intros h W; [exists h; split; [apply rtc_refl|done]|].
  destruct (step_ok h w w1 W Hstep) as (n & h1 & Hm & W1). destruct (IH h1 W1) as (h2 & Hr & W2). exists h2. split; [|done].
  etrans; [by eapply moves_spec|done].
Qed.


(** ** Refinement *)

(** The actor is this member of the abstract group. *)
Definition represents (a : ShardActor) (p : Peer) : Prop :=
  current_term a = p_term p ∧ voted_for a = p_vote p ∧ role a = p_role p ∧
  log a = drop (Z.to_nat (snapshot_index a)) (p_log p) ∧ last_log_index a = Z.of_nat (length (p_log p)) ∧
  commit_index a = Z.of_nat (p_commit p) ∧ state a = replay (take (p_commit p) (p_log p)).


(** ** Durability *)


Lemma compact_keeps a :
  is_faulty (maybe_compact a) = false → snapshot_index a ≤ last_applied a ≤ snapshot_index a + Z.of_nat (length (log a)) → let a' := maybe_compact a in
  current_term a' = current_term a ∧ voted_for a' = voted_for a ∧ role a' = role a ∧ commit_index a' = commit_index a ∧
  state a' = state a ∧ last_log_index a' = last_log_index a.
Proof.
  intros Hf Hl. unfold maybe_compact in *. destruct (_ || _); [done|]. destruct (machine_snapshot _) as [b|]; [|done].
  unfold persist_snapshot in *. destruct (store a) as [s|].
  - destruct (save_snapshot _ _ _) as [s1 ok]. destruct ok; simpl in *; [|by rewrite fail_storage_faulty in Hf].
    split_and!; try done. unfold last_log_index. simpl. rewrite length_drop. unfold sat_sub, sat_add. lia.
  - simpl in *. split_and!; try done. unfold last_log_index. simpl. rewrite length_drop. unfold sat_sub, sat_add. lia.
Qed.

Lemma quarantined_fault e shard n ps t nanos reason : storage_fault (quarantined e shard n ps t nanos reason) = Some reason.
Proof. unfold quarantined. by rewrite (sc_fault _ _ (core_fields _ _ (core_reset e _))). Qed.

Lemma apply_keeps e l (i j : nat) a :
  0 ≤ snapshot_index a ≤ Z.of_nat j → log a = drop (Z.to_nat (snapshot_index a)) l → last_applied a = Z.of_nat j →
  state a = replay (take j l) → commit_index a = Z.of_nat i → (j ≤ i ≤ length l)%nat → Z.of_nat (length l) ≤ U64_MAX →
  is_faulty (apply_committed e a) = false → let a' := apply_committed e a in
  current_term a' = current_term a ∧ voted_for a' = voted_for a ∧ role a' = role a ∧ commit_index a' = commit_index a ∧
  state a' = replay (take i l) ∧ last_log_index a' = last_log_index a.
Proof.
  intros Hk Hl Hj Hst Hc Hji Hfit Hf. unfold apply_committed in *.
  destruct (apply_loop_ok l i (Z.to_nat (commit_index a - last_applied a)) a [] j) as (a1 & cs & E & C); try done; try lia.
  rewrite E in *. clear E. pose proof (core_fields _ _ C) as F. destruct F; simpl in *.
  assert (Hcore : core (if is_faulty (maybe_compact a1) then fail_completed cs (maybe_compact a1) else foldl (complete_one e) (maybe_compact a1) cs) =
    core (maybe_compact a1)) by (case_goal; [apply core_fail_completed|apply core_complete]).
  revert Hcore Hf. generalize (if is_faulty (maybe_compact a1) then fail_completed cs (maybe_compact a1) else foldl (complete_one e) (maybe_compact a1) cs).
  intros a2 Hcore%core_fields Hf.
  assert (Hf2 : is_faulty (maybe_compact a1) = false) by (unfold is_faulty in *; by rewrite <- (RaftCoupling.sc_fault _ _ Hcore)).
  assert (Hlen : length (log a1) = (length l - Z.to_nat (snapshot_index a))%nat) by (rewrite sc_log, Hl; apply length_drop).
  destruct (compact_keeps a1 Hf2 ltac:(lia)) as (E1 & E2 & E3 & E4 & E5 & E6). destruct Hcore. unfold last_log_index in *. split_and!; congruence.
Qed.

(** The actor a restart builds, before it applies its log. *)
Lemma boot_recovers e shard n t nanos disk h d0 :
  sound h → n ∈ group → stored disk d0 → disk_ok h n d0 → ∀ os,
  storage_fault (bootstrap e shard n (others n) t nanos (with_outcomes disk os)).1 = None →
  ∃ a d, (bootstrap e shard n (others n) t nanos (with_outcomes disk os)).1 = (if 0 <? commit_index a then apply_committed e a else a) ∧
    mirrors a d ∧ disk_ok h n d ∧ role a = Follower ∧ last_applied a = d_index d ∧
    state a = replay (take (Z.to_nat (d_index d)) (p_log (peer h n))).
Proof.
  intros Hs Hn [S1 S2 S3 _] D0 os Hok. unfold bootstrap in *. destruct (open _) as [s r] eqn:Ho. apply open_ok in Ho.
  destruct r as [rec|err]; [|cbn [fst] in Hok; by rewrite quarantined_fault in Hok].
  destruct Ho as (d & -> & Vd & Hst & b & Hrec). simpl in Hrec.
  rewrite (recover_stored _ d0 S1 S2 S3) in Hrec by (by eapply disk_ok_valid). assert (Er : recovered_of d = recovered_of d0) by congruence.
  pose proof (disk_ok_recovered h n d d0 Er (proj1 (vd_index _ Vd)) D0) as D.
  assert (Hlen : (0 < length (others n))%nat) by (pose proof group_size; pose proof (others_pos n Hn); lia).
  destruct (match d_snapshot d with None => Some machine_new | Some p => machine_restore (ps_state p) end) as [st|] eqn:Hm; last first.
  { exfalso. destruct (d_snapshot d) as [p|] eqn:Hp; [|done]. unfold new_actor in Hok. simpl in Hok. rewrite in_order in Hok by apply Vd.
    cbn [result_bind] in Hok. rewrite Hp, Hm in Hok. cbn [result_bind] in Hok.
    destruct (_ <? _); cbn [fst] in Hok; by rewrite quarantined_fault in Hok. }
  destruct (new_actor_shape e shard n t nanos s d st Vd Hlen) as (a & Ea & M & _ & _ & _ & Er' & El & Es & _).
  { destruct (d_snapshot d); [done|by injection Hm]. }
  exists a, d. rewrite Ea. split_and!; [done|done|done|done|done|]. rewrite Es. unfold d_index.
  destruct (d_snapshot d) as [p|] eqn:Hp; [|by injection Hm].
  pose proof (do_snapshot _ _ _ D p Hp st Hm) as E. unfold d_index in E. by rewrite Hp in E.
Qed.


(** ** Faults *)

(** C16: A member whose storage failed fails closed until it is restarted: no
    message and no tick changes its term, vote, log, commit index, machine or
    disk; it sends nothing, grants no vote, acknowledges nothing, and answers a
    proposal with unavailability. *)
Theorem fail_closed (e : Env) (msg : ShardMsg) (a : ShardActor) (Hf : is_faulty a = true) :
  let '(a', r) := handle e msg a in
  on_tick e a = a ∧ current_term a' = current_term a ∧ voted_for a' = voted_for a ∧ log a' = log a ∧ commit_index a' = commit_index a ∧
  state a' = state a ∧ store a' = store a ∧ outbox a' = outbox a ∧
  match r with
  | NoReply => True
  | ReplyAppend r => as_success r = false
  | ReplySnapshot r => ss_success r = false
  | ReplyVote r => vs_granted r = false
  end ∧
  match msg with
  | MsgPropose _ client => answers a' = answers a ++ [(client, Err (Unavailable (shard_id a)))]
  | _ => answers a' = answers a
  end.
Proof.
  pose proof (faulted_handle e msg a Hf) as [C%core_fields Hr]. assert (Ht : on_tick e a = a) by (unfold on_tick; by rewrite Hf).
  destruct (handle e msg a) as [a' r] eqn:E. simpl in C, Hr. destruct C. split_and!; try done.
  revert E. destruct msg; simpl; unfold on_propose, handle_append_entries, handle_install_snapshot, handle_request_vote,
    handle_vote_reply, accept_replication_callback; rewrite Hf; by intros [= <- _].
Qed.

(** ** Batches *)

Definition body_fits (req : AppendEntriesReq) (limit : Z) : Prop := ∃ len, append_body_len req = Some len ∧ len ≤ limit.

Lemma fill_batch_fits req suffix limit :
  (length (ar_entries req) ≤ 1)%nat ∨ body_fits req limit →
  (length (ar_entries (fill_batch req suffix limit)) ≤ 1)%nat ∨ body_fits (fill_batch req suffix limit) limit.
Proof.
  revert req. induction suffix as [|x suffix IH]; intros req Hr; simpl; [done|]. destruct (body_too_long _ _) eqn:Hb.
  - destruct (Nat.ltb_spec 1 (length (ar_entries req ++ [x]))); [done|]. left. simpl. lia.
  - apply IH. right. unfold body_too_long in Hb. destruct (append_body_len _) as [len|] eqn:El; [|done]. bools. by exists len.
Qed.

Lemma fill_batch_progress req suffix limit :
  (ar_entries req ≠ [] ∨ suffix ≠ []) → ar_entries (fill_batch req suffix limit) ≠ [].
Proof.
  revert req. induction suffix as [|x suffix IH]; intros req Hr; simpl; [by destruct Hr|]. destruct (body_too_long _ _).
  - destruct (Nat.ltb_spec 1 (length (ar_entries req ++ [x]))) as [Hl|]; [|simpl; by destruct (ar_entries req)].
    rewrite length_app in Hl. simpl in Hl. destruct (ar_entries req); [simpl in Hl; lia|done].
  - apply IH. left. simpl. by destruct (ar_entries req).
Qed.

(** C18: A batch is bounded and makes progress: it is a prefix of the entries the
    peer lacks, no longer than the entry limit, within the byte limit unless it is
    a single entry, and never empty while there is an entry to send. *)
Theorem append_batch_bounded (req : AppendEntriesReq) (suffix : list LogEntry) (entry_limit byte_limit : Z) :
  let r := bounded_append_request req suffix entry_limit byte_limit in
  ar_entries r `prefix_of` suffix ∧ Z.of_nat (length (ar_entries r)) ≤ Z.max entry_limit 1 ∧
  ((length (ar_entries r) ≤ 1)%nat ∨ body_fits r (Z.max byte_limit 1)) ∧
  (suffix ≠ [] → ar_entries r ≠ []).
Proof.
  unfold bounded_append_request. set (s := take _ suffix). simpl.
  destruct (fill_batch_prefix (with_entries req []) s (Z.max byte_limit 1)) as (m & Hm & E). split_and!.
  - rewrite E. simpl. etrans; [exact Hm|apply prefix_take].
  - rewrite E. simpl. apply prefix_length in Hm. unfold s in Hm. rewrite length_take in Hm. lia.
  - apply fill_batch_fits. left. simpl. lia.
  - intros Hne. apply fill_batch_progress. right. unfold s. destruct (Z.to_nat _) as [|k] eqn:Ek; [lia|]. by destruct suffix.
Qed.

(** ** The apply loop *)

(** C17: The apply loop terminates at the commit index: with fuel for the entries
    between the applied and the commit index it applies exactly those, in order,
    and reports no fault; more fuel changes nothing. *)
Theorem apply_loop_terminates (fuel : nat) (a : ShardActor) (completed : list Completed)
    (Hidx : 0 ≤ snapshot_index a ≤ last_applied a) (Hle : last_applied a ≤ commit_index a)
    (Hlog : commit_index a ≤ snapshot_index a + Z.of_nat (length (log a))) (Hfit : commit_index a ≤ U64_MAX)
    (Hfuel : commit_index a - last_applied a ≤ Z.of_nat fuel) :
  ∃ a' completed', apply_loop fuel a completed = (a', completed', None) ∧
    last_applied a' = commit_index a ∧ commit_index a' = commit_index a ∧ log a' = log a ∧
    state a' = foldl replay_entry (state a)
      (take (Z.to_nat (commit_index a - last_applied a)) (drop (Z.to_nat (last_applied a - snapshot_index a)) (log a))).
Proof.
  revert a completed Hidx Hle Hlog Hfit Hfuel. induction fuel as [|fuel IH]; intros a completed Hidx Hle Hlog Hfit Hfuel; simpl.
  - assert (E : last_applied a = commit_index a) by lia. rewrite E, Z.leb_refl. exists a, completed.
    split_and!; try done. rewrite Z.sub_diag. done.
  - destruct (Z.leb_spec (commit_index a) (last_applied a)) as [Hge|Hlt].
    { assert (E : last_applied a = commit_index a) by lia. exists a, completed. split_and!; try done. rewrite E, Z.sub_diag. done. }
    assert (checked_add (last_applied a) 1 = Some (last_applied a + 1)) as -> by (apply checked_add_Some; lia).
    destruct (lookup_lt_is_Some_2 (log a) (Z.to_nat (last_applied a - snapshot_index a))) as [x Hx]; [lia|].
    assert (committed_entry a (last_applied a + 1) = Some x) as ->.
    { unfold committed_entry, get_entry. replace (last_applied a + 1 - snapshot_index a - 1) with (last_applied a - snapshot_index a) by lia.
      by rewrite (proj2 (Z.ltb_ge _ _)) by lia. }
    pose proof (core_fields _ _ (apply_entry_core (last_applied a + 1) x a completed)) as C.
    destruct (apply_entry _ x a completed) as [a1 c1]. simpl in C. destruct C; simpl in *.
    destruct (IH a1 c1) as (a' & c' & -> & E1 & E2 & E3 & E4); rewrite ?sc_index, ?sc_applied, ?sc_commit, ?sc_log; try lia.
    exists a', c'. split_and!; try congruence. rewrite E4, sc_state, sc_commit, sc_applied, sc_index, sc_log.
    replace (Z.to_nat (commit_index a - last_applied a)) with (S (Z.to_nat (commit_index a - (last_applied a + 1)))) by lia.
    replace (Z.to_nat (last_applied a + 1 - snapshot_index a)) with (S (Z.to_nat (last_applied a - snapshot_index a))) by lia.
    by rewrite (drop_S _ _ _ Hx).
Qed.

(** ** Progress of commits *)

#[local] Instance ge_total : Total Z.ge.
Proof. intros x y. lia. Qed.
#[local] Instance ge_trans : Transitive Z.ge.
Proof. intros x y z. lia. Qed.

(** If more than [i] elements reach [x], so does the one at position [i] of the
    descending list. *)
Lemma sorted_reaches (l : list Z) (i : nat) (x : Z) :
  (i < length (filter (λ y, (x ≤ y)%Z) l))%nat → ∃ y, merge_sort Z.ge l !! i = Some y ∧ x ≤ y.
Proof.
  assert (Hperm : merge_sort Z.ge l ≡ₚ l) by apply merge_sort_Permutation.
  assert (Hsort : StronglySorted Z.ge (merge_sort Z.ge l)) by (apply Sorted_StronglySorted, Sorted_merge_sort; apply _).
  rewrite <- (filter_Permutation (λ y, x ≤ y) _ _ Hperm). revert Hsort. generalize (merge_sort Z.ge l). clear Hperm l.
  intros l. revert i. induction l as [|y l IH]; intros i Hsort Hi; [simpl in Hi; lia|].
  inversion Hsort as [|? ? Hl Hy]; subst. rewrite Forall_forall in Hy. rewrite filter_cons in Hi. destruct (decide (x ≤ y)) as [Hxy|Hxy].
  - destruct i as [|i]; [by exists y|]. simpl in *. apply IH; [done|lia].
  - exfalso. assert (E : filter (λ y, x ≤ y) l = []); [|rewrite E in Hi; simpl in Hi; lia].
    destruct (filter (λ y, x ≤ y) l) as [|z k] eqn:Ef; [done|]. assert (Hz : z ∈ filter (λ y, x ≤ y) l) by (rewrite Ef; left).
    apply list_elem_of_filter in Hz as [Hxz Hz]. apply Hy in Hz. lia.
Qed.

Lemma commit_to_commits e op i a : commit_index (commit_to e op i a) = i ∨ is_faulty (commit_to e op i a) = true.
Proof.
  unfold commit_to. destruct (persist_hard_state_at i a) as [a1 ok] eqn:Hp. apply persist_meta_only in Hp as [s ->].
  destruct ok; cbn [negb]; [|right; apply fail_storage_faulty]. set (a2 := set_commit_index i (set_store s a)).
  assert (Hloop : ∀ fuel b cs, commit_index (apply_loop fuel b cs).1.1 = commit_index b).
  { induction fuel as [|fuel IH]; intros b cs; simpl; [by case_goal|]. case_goal; [done|]. case_goal; [|done].
    destruct (committed_entry b _) as [x|]; [|done]. pose proof (sc_commit _ _ (core_fields _ _ (apply_entry_core z x b cs))) as C.
    destruct (apply_entry z x b cs) as [b1 c1]. simpl in C. by rewrite IH, C. }
  unfold apply_committed. specialize (Hloop (Z.to_nat (commit_index a2 - last_applied a2)) a2 []).
  destruct (apply_loop _ a2 []) as [[a3 cs] f]. simpl in Hloop. destruct f as [op'|].
  - right. pose proof (sc_fault _ _ (core_fields _ _ (core_fail_completed cs (fail_storage op' a3)))) as E. unfold is_faulty in *. rewrite E.
    apply fail_storage_faulty.
  - destruct (is_faulty (maybe_compact a3)) eqn:Hf.
    + right. pose proof (sc_fault _ _ (core_fields _ _ (core_fail_completed cs (maybe_compact a3)))) as E. unfold is_faulty in *. by rewrite E.
    + left. rewrite (sc_commit _ _ (core_fields _ _ (core_complete e cs (maybe_compact a3)))).
      enough (commit_index (maybe_compact a3) = commit_index a3) as ->; [done|].
      unfold maybe_compact in *. destruct (_ || _); [done|]. destruct (machine_snapshot _); [|done]. unfold persist_snapshot in *.
      destruct (store a3); [|done]. destruct (save_snapshot _ _ _) as [s2 ok]. destruct ok; [done|]. cbn [negb] in Hf. by rewrite fail_storage_faulty in Hf.
Qed.

Lemma count_fmap (f : string → Z) (x : Z) (l : list string) :
  length (filter (λ y, x ≤ y) (f <$> l)) = length (filter (λ p, x ≤ f p) l).
Proof. induction l as [|m k IH]; [done|]. rewrite fmap_cons, !filter_cons. repeat case_decide; simpl; congruence. Qed.

(** What the leader knows a peer to hold. *)
Definition known (ls : LeaderState) (p : string) : Z := default 0 (match_index ls !! p).

Lemma candidate_reaches h n a ls i :
  volatile h n a → leader a = Some ls → CURRENT_COMMAND_PROTOCOL ≤ machine_protocol (state a) → i ≤ last_log_index a →
  (length group < 2 * S (length (filter (λ p, (i ≤ known ls p)%Z) (others n))))%nat →
  i ≤ commit_candidate a ∧ commit_candidate a ∈ last_log_index a :: (known ls <$> others n).
Proof.
  intros Hv Hls Hactive Hi Hmaj.
  destruct (sorted_reaches (last_log_index a :: (known ls <$> others n)) (length group / 2) i) as (x & Hx & Hix).
  { rewrite filter_cons, decide_True by lia. cbn [length]. rewrite count_fmap. apply Nat.Div0.div_lt_upper_bound. lia. }
  assert (Hcand : commit_candidate a = x); [|rewrite Hcand].
  { unfold commit_candidate, match_indices. rewrite Hls, (vo_peers _ _ _ Hv). unfold majority. rewrite (vo_members _ _ _ Hv).
    replace (length group / 2 + 1 - 1)%nat with (length group / 2)%nat by lia. unfold known in Hx. rewrite Hx.
    by rewrite (proj2 (Z.ltb_ge _ _)) by done. }
  split; [done|]. apply list_elem_of_lookup_2 in Hx. by rewrite merge_sort_Permutation in Hx.
Qed.

(** Every entry after one of the leader's own term is of that term. *)
Lemma tail_of_term h n (i j : nat) :
  spec_inv mems h → (1 ≤ i ≤ j)%nat → (j ≤ length (p_log (peer h n)))%nat → log_term (p_log (peer h n)) i = p_term (peer h n) →
  log_term (p_log (peer h n)) j = p_term (peer h n).
Proof.
  intros I Hij Hj Hi. destruct (si_peer _ _ I n) as (_ & Hle & _ & _ & Hasc). destruct i as [|i]; [lia|]. destruct j as [|j]; [lia|]. simpl in *.
  destruct (lookup_lt_is_Some_2 (p_log (peer h n)) i) as [y Hy]; [lia|]. destruct (lookup_lt_is_Some_2 (p_log (peer h n)) j) as [z Hz]; [lia|].
  rewrite Hy in Hi. rewrite Hz. simpl in *. pose proof (Hasc _ _ _ _ Hy Hz ltac:(lia)). apply list_elem_of_lookup_2, Hle in Hz. lia.
Qed.

(** A leader's attempt commits what a majority is known to hold. *)
Lemma advance_commits h n a ls i e :
  sound h → healthy h n a → role a = Leader → leader a = Some ls → CURRENT_COMMAND_PROTOCOL ≤ machine_protocol (state a) →
  1 ≤ i ≤ last_log_index a → term_at a i = current_term a →
  (length group < 2 * S (length (filter (λ p, (i ≤ known ls p)%Z) (others n))))%nat →
  let a' := maybe_advance_commit e a in i ≤ commit_index a' ∨ is_faulty a' = true.
Proof.
  intros Hs Hh Hlead Hls Hactive Hi Hterm Hmaj. pose proof (so_inv _ Hs) as I. pose proof (healthy_view _ _ _ Hs Hh) as V.
  pose proof Hh as (Hf & Hv & _). apply not_faulty_spec in Hf.
  destruct (candidate_reaches h n a ls i Hv Hls Hactive ltac:(lia) Hmaj) as [Hix Hin]. set (x := commit_candidate a) in *.
  assert (Hxl : x ≤ Z.of_nat (length (p_log (peer h n)))).
  { apply elem_of_cons in Hin as [->|Hin]; [rewrite (vw_last _ _ _ V); lia|]. apply list_elem_of_fmap in Hin as (p & -> & _).
    destruct (known_ok h n ls p (vo_leader _ _ _ Hv ls Hlead Hls)) as [K0 K].
    eapply acked_length; [done|by rewrite <- (vo_role _ _ _ Hv)|done|exact K]. }
  simpl. unfold maybe_advance_commit. rewrite (bool_decide_eq_true_2 _ Hlead), Hf. fold x. simpl.
  destruct (Z.ltb_spec (commit_index a) x) as [Hlt|Hge]; [|left; simpl; lia].
  pose proof (vw_index _ _ _ V). destruct (decide (i ≤ commit_index a)) as [Hdone|Hnew].
  { case_goal; [|by left]. destruct (commit_to_commits e "persisting leader commit index" x a) as [->|?]; [by left|by right]. }
  rewrite (vw_commit _ _ _ V) in Hnew. rewrite (view_term_at _ _ _ _ V), (vw_term _ _ _ V) in Hterm by lia.
  assert (Htx : term_at a x = current_term a).
  { rewrite (view_term_at _ _ _ _ V), (vw_term _ _ _ V) by lia. apply (tail_of_term h n (Z.to_nat i)); [done|lia|lia|done]. }
  rewrite Htx, Z.eqb_refl. simpl.
  destruct (commit_to_commits e "persisting leader commit index" x a) as [->|?]; [by left|by right].
Qed.

(** The member committed this index, or its disk failed. *)
Definition reached (i : Z) (a : ShardActor) : Prop := i ≤ commit_index a ∨ is_faulty a = true.

Lemma reached_core i a a' : core a' = core a → reached i a → reached i a'.
Proof. intros C%core_fields. unfold reached, is_faulty. by rewrite (sc_commit _ _ C), (sc_fault _ _ C). Qed.

Lemma reached_step_down e i term to a : reached i a → reached i (step_down e term to a).
Proof.
  intros Hr. unfold step_down. case_goal; [done|].
  assert (Hrec : reached i (record_leader_transfer (role a) Follower a)) by (unfold record_leader_transfer; by case_goal).
  revert Hrec. cbv zeta. generalize (record_leader_transfer (role a) Follower a). intros a0 Ha0.
  assert (Hset : reached i (set_leader_id to (set_votes ∅ (set_leader None (set_role Follower
    (if current_term a0 <? term then set_voted_for None (set_current_term term a0) else a0)))))) by (by case_goal).
  revert Hset. match goal with |- reached _ ?x → _ => generalize x end.
  intros a1 Ha1. destruct (persist_hard_state a1) as [a2 ok] eqn:Hp. apply persist_meta_only in Hp as [s ->].
  destruct ok; cbn [negb]; [|right; apply fail_storage_faulty]. apply (reached_core _ (set_store s a1)); [by rewrite core_fail_pending, core_reset|done].
Qed.

Lemma reached_send e i p a : reached i a → reached i (send_append_to e p a).
Proof.
  intros Hr. unfold send_append_to. case_goal; [done|]. destruct (leader a) as [ls|]; [|done]. case_goal; [done|].
  destruct (checked_add _ _); [|by apply reached_step_down]. by case_goal.
Qed.

Lemma reached_broadcast e i a : reached i a → reached i (broadcast_append_entries e a).
Proof.
  intros Hr. unfold broadcast_append_entries. case_goal; [|done]. clear Heqb. revert Hr. generalize (peers a). intros l. revert a.
  induction l as [|p l IH]; intros a Hr; simpl; [done|]. by apply IH, reached_send.
Qed.

Lemma reached_activate e i h n a : coupled h n a → reached i a → reached i (maybe_activate_command_protocol e a).
Proof.
  intros Hc Hr. unfold maybe_activate_command_protocol. destruct (is_faulty a) eqn:Hf; [done|]. simpl.
  pose proof (coupled_healthy _ _ _ Hc Hf) as (_ & Hv & _). rewrite (members_not_one _ _ _ Hv).
  case_goal; [done|]. case_goal; [done|]. case_goal; [done|]. destruct (checked_add _ _) as [j|]; [|right; apply fail_storage_faulty].
  destruct (persist_log_append _) as [a1 ok] eqn:Hp. apply persist_append_only in Hp as [s ->].
  destruct ok; cbn [negb]; [|right; apply fail_storage_faulty]. assert (Nat.eqb (ShardActor.members (set_store s (push_entry e j
    (Some (ActivateCommandProtocol CURRENT_COMMAND_PROTOCOL)) a))) 1 = false) as -> by (exact (members_not_one _ _ _ Hv)).
  by apply reached_broadcast.
Qed.

Lemma filter_length_mono {A} (P Q : A → Prop) `{!∀ x, Decision (P x), !∀ x, Decision (Q x)} (l : list A) :
  (∀ x, P x → Q x) → (length (filter P l) ≤ length (filter Q l))%nat.
Proof. intros HPQ. induction l as [|x l IH]; [done|]. rewrite !filter_cons. repeat case_decide; simpl; try lia. naive_solver. Qed.

(** The reply that completes a majority commits. *)
Lemma reply_commits h n a ls e sent_at from up_to rtt r :
  sound h → healthy h n a → role a = Leader → leader a = Some ls → append_reply_ok h n from up_to (Some r) →
  as_term r = current_term a → as_success r = true → up_to ≤ as_match_index r → 1 ≤ up_to →
  CURRENT_COMMAND_PROTOCOL ≤ machine_protocol (state a) → term_at a up_to = current_term a →
  (length group < 2 * S (length (filter (λ p, p = from ∨ (up_to ≤ known ls p)%Z) (others n))))%nat →
  reached up_to (handle_append_reply e sent_at from up_to rtt (Some r) a).
Proof.
  intros Hs Hh Hlead Hls Hack Hterm Hok Hmatch Hup Hactive Hat Hmaj. unfold handle_append_reply.
  pose proof Hh as (Hf & Hv & _). rewrite (proj2 (not_faulty_spec a) Hf). unfold clear_in_flight. rewrite Hls.
  set (ls0 := set_in_flight _ ls). set (a0 := set_leader (Some ls0) a).
  set (a1 := match rtt with Some _ => _ | None => a0 end). assert (C : core a1 = core a0) by (unfold a1; by destruct rtt). clearbody a1.
  assert (Hh1 : healthy h n a1).
  { eapply healthy_core; [exact C|]. apply healthy_track; [done|]. intros _. apply (tracked_same h n ls); [done|done|]. by apply (vo_leader _ _ _ Hv). }
  apply core_fields in C. pose proof (sc_role _ _ C) as E1. pose proof (sc_term _ _ C) as E2. pose proof (sc_leader _ _ C) as E3.
  simpl in E1, E2, E3. rewrite E1, E2, E3, Hterm, Z.ltb_irrefl, Z.eqb_refl, Hok, (proj2 (Z.leb_le _ _) Hmatch), Hlead. simpl.
  pose proof (healthy_view _ _ _ Hs Hh) as V. destruct (credit_append _ _ _ _ _ _) as [ls' more] eqn:Hcr.
  assert (Hroleh : p_role (peer h n) = Leader) by (rewrite <- (vo_role _ _ _ Hv); done).
  assert (Htr : tracked h n ls').
  { eapply credit_append_tracked; [done|done| |exact Hack|by rewrite Hterm, (vw_term _ _ _ V)|exact Hcr].
    apply (tracked_same h n ls); [done|done|]. by apply (vo_leader _ _ _ Hv). }
  assert (Hh2 : healthy h n (set_leader (Some ls') a1)) by (by apply healthy_track).
  assert (Hknown : ∀ p, p = from ∨ (up_to ≤ known ls p)%Z → up_to ≤ known ls' p).
  { intros p. unfold credit_append in Hcr. rewrite Hok, (proj2 (Z.leb_le _ _) Hmatch) in Hcr. injection Hcr as <- _.
    unfold known. simpl. destruct (decide (p = from)) as [->|Hne]; [rewrite lookup_insert_eq; simpl; lia|].
    rewrite lookup_insert_ne by done. by intros [?|?]. }
  assert (Hlast : up_to ≤ last_log_index a).
  { destruct Hack as [_ Ha]. specialize (Ha r eq_refl Hok). rewrite Hterm, (vw_term _ _ _ V) in Ha.
    rewrite (vw_last _ _ _ V). eapply acked_length; [done|done|lia|by right]. }
  assert (Hadv : reached up_to (maybe_advance_commit e (set_leader (Some ls') a1))).
  { apply (advance_commits h n _ ls'); [done|done|by simpl; rewrite E1|done|simpl; by rewrite (sc_state _ _ C)| | |].
    - unfold last_log_index in *. simpl. by rewrite (sc_index _ _ C), (sc_log _ _ C).
    - unfold term_at in *. simpl. by rewrite (sc_index _ _ C), (sc_log _ _ C), (sc_index_term _ _ C), E2.
    - eapply Nat.lt_le_trans; [exact Hmaj|]. apply Nat.mul_le_mono_l, le_n_S, filter_length_mono. done. }
  destruct (maybe_advance_ok e h n (set_leader (Some ls') a1) Hs Hh2) as (h1 & _ & _ & Hc1).
  apply (reached_activate e _ h1 n) in Hadv; [|done]. apply (reached_core _ _ _ (core_refresh _)) in Hadv.
  destruct more; [by apply reached_send|done].
Qed.

End theorems.

(** ** The theorems at a run *)

Ltac calc := vm_compute; reflexivity.
Ltac member := apply (bool_decide_unpack _); vm_compute; exact I.
Ltac serves := split; [member|calc].
Ltac at_position k := apply (list_elem_of_lookup_2 _ k); calc.

Definition entry2 : LogEntry := mkEntry 2 2 405 (Some (ActivateCommandProtocol 3)).


Definition first_ballot : RequestVoteReq := mkVoteReq 2 "a" 0 0 false.

Lemma one_vote_per_term_witness : net w_demo !! 1%nat ≠ None ∧ net w_demo !! 2%nat ≠ None ∧ ("a" = "a" :> string).
Proof.
  split_and!; [vm_compute; discriminate|vm_compute; discriminate|].
  apply (one_vote_per_term w_demo "b" "a" "a" first_ballot first_ballot (mkVoteResp 2 true) (mkVoteResp 2 true));
    [apply run_reachable|at_position 1%nat|at_position 2%nat|reflexivity..].
Defined.


Lemma leader_has_committed_witness :
  commit_index (actors w_demo "b") = 2 ∧ commit_index (actors w_demo "b") ≤ last_log_index (actors w_demo "a").
Proof.
  split; [calc|]. apply (leader_has_committed w_demo "b" "a"); [apply run_reachable|serves|member|calc|].
  apply Z.leb_le. calc.
Defined.






Definition late_ballot : RequestVoteReq := mkVoteReq 9 "b" 9 9 false.

Lemma fail_closed_witness :
  let a := actors w_crash "a" in let '(a', r) := handle (at_ms 500) (MsgRequestVote late_ballot) a in
  is_faulty a = true ∧ current_term a' = current_term a ∧ match r with ReplyVote r => vs_granted r = false | _ => True end.
Proof.
  pose proof (fail_closed (at_ms 500) (MsgRequestVote late_ballot) (actors w_crash "a") ltac:(calc)) as Hf. cbv zeta.
  destruct (handle _ _ _) as [a' r]. destruct Hf as (_ & Ht & _ & _ & _ & _ & _ & _ & Hr & _).
  split; [calc|]. split; [exact Ht|]. destruct r; [exact I|exact I|exact I|exact Hr].
Defined.

(** A member that has committed three entries and applied none. *)
Definition behind : ShardActor := set_state machine_new (set_last_applied 0 (actors w_restart "a")).

Lemma apply_loop_terminates_witness : ∃ a' cs, apply_loop 5 behind [] = (a', cs, None) ∧ last_applied a' = 3.
Proof.
  destruct (apply_loop_terminates 5 behind []) as (a' & cs & E & El & _);
    [split; apply Z.leb_le; calc|apply Z.leb_le; calc|apply Z.leb_le; calc|apply Z.leb_le; calc|apply Z.leb_le; calc|].
  exists a', cs. split; [exact E|]. rewrite El. calc.
Defined.

Definition third_request : AppendEntriesReq := mkAppendReq 2 "a" 2 2 [mkEntry 2 3 408 (Some (lock_key "k" "h"))] 2 3.

