(* ===== verification/RaftAck.v ===== *)
(** Acknowledged writes.  A client that is told [Ok] is told so by the leader
    that appended its command, after that entry was committed: what the client
    waits for ([pending]) and what it is told ([answers]) are followed through
    every method of the actor and every step of the group. *)

From stdpp Require Import functions.
From S2P Require Import Prelude Json Text Command StateMachine Validate Snapshot RaftTypes RaftSpec RaftConfig RaftCallback Persist PersistTheorems ShardActor RaftCoupling RaftMethods RaftLeading RaftFollowing RaftCluster RaftMachine RaftExample RaftTheorems.

Section acks.
Context `{DiskFormat, !DiskLaws, Machine, !MachineLaws, Wire, Group}.

(** ** Waiting and being told *)

Definition told_ok (x : Z * result ProposeOutcome ProposeError) : option (Z * ProposeOutcome) :=
  match x.2 with Ok o => Some (x.1, o) | Err _ => None end.

(** The clients that were told [Ok], with what they were told. *)
Definition confirmed (a : ShardActor) : list (Z * ProposeOutcome) := omap told_ok (answers a).

(** Every waiting client waits for an entry that is in the log and not yet
    applied, and that [Q] says is the entry it asked for. *)
Definition waits (Q : Z → LogEntry → Prop) (a : ShardActor) : Prop :=
  ∀ i p, pending a !! i = Some p →
    last_applied a < i ∧ ∃ x, committed_entry a i = Some x ∧ e_command x ≠ None ∧ Q (resp p) x.

(** The operation tells nobody [Ok] and loses no entry a client waits for. *)
Definition silent (a a' : ShardActor) : Prop := confirmed a' = confirmed a ∧ ∀ Q, waits Q a → waits Q a'.

(** Nobody waits, before or after, and nobody is told [Ok]. *)
Definition idle (a a' : ShardActor) : Prop := pending a = ∅ → pending a' = ∅ ∧ confirmed a' = confirmed a.

Lemma waits_mono (Q Q' : Z → LogEntry → Prop) a : (∀ c x, Q c x → Q' c x) → waits Q a → waits Q' a.
Proof. intros HQ Hw i p Hi. destruct (Hw i p Hi) as (? & x & ? & ? & ?). eauto 10. Qed.

Lemma waits_none Q a : pending a = ∅ → waits Q a.
Proof. intros E i p. by rewrite E. Qed.

Instance silent_preorder : PreOrder silent.
Proof.
  split; [by split|]. intros a b c [E1 W1] [E2 W2]. split; [congruence|auto].
Qed.

Instance idle_preorder : PreOrder idle.
Proof.
  split; [done|]. intros a b c Hab Hbc E. destruct (Hab E) as [E1 C1]. destruct (Hbc E1) as [E2 C2]. split; [done|congruence].
Qed.

(** What clients can see of an actor. *)
Definition voice (a : ShardActor) := (pending a, answers a, log a, snapshot_index a, last_applied a).

Lemma voice_silent a a' : voice a' = voice a → silent a a'.
Proof.
  unfold voice. intros [= Ep Ea El Ei Ela]. unfold silent, confirmed, waits, committed_entry. by rewrite Ep, Ea, El, Ei, Ela.
Qed.

Lemma voice_idle a a' : voice a' = voice a → idle a a'.
Proof. unfold voice. intros [= Ep Ea El Ei Ela]. unfold idle, confirmed. by rewrite Ep, Ea. Qed.

(** ** Giving up *)

Lemma confirmed_drain err a : confirmed (drain_pending err a) = confirmed a.
Proof.
  unfold confirmed, drain_pending. simpl. rewrite omap_app. set (l := map_to_list (pending a)). clearbody l.
  assert (omap told_ok ((λ kv, (resp kv.2, Err err)) <$> l) = []) as ->; [|by rewrite app_nil_r].
  by induction l as [|kv l IH].
Qed.

Lemma drain_silent err a : silent a (drain_pending err a) ∧ pending (drain_pending err a) = ∅.
Proof. split; [|done]. split; [apply confirmed_drain|]. intros Q _. by apply waits_none. Qed.

(** The actor ends a method by dropping everyone who waits. *)
Lemma drop_silent err a a1 : voice a1 = voice a → silent a (drain_pending err a1).
Proof. intros E. etrans; [by apply voice_silent|apply drain_silent]. Qed.

Lemma voice_transfer from to a : voice (record_leader_transfer from to a) = voice a.
Proof. unfold record_leader_transfer. by case_goal. Qed.

Lemma voice_reset e a : voice (reset_election_deadline e a) = voice a.
Proof. unfold reset_election_deadline. by destruct (below _ _). Qed.

Lemma answer_silent client err a : silent a (answer client (Err err) a).
Proof. split; [|done]. unfold confirmed, answer. simpl. rewrite omap_app. by rewrite app_nil_r. Qed.

Lemma fail_storage_silent op a : silent a (fail_storage op a) ∧ pending (fail_storage op a) = ∅.
Proof.
  split; [|done]. unfold fail_storage, fail_pending_unavailable. apply drop_silent.
  change (voice (record_leader_transfer (role (if is_faulty a then a else set_storage_fault (Some op) a)) Follower
    (if is_faulty a then a else set_storage_fault (Some op) a)) = voice a). rewrite voice_transfer. by case_goal.
Qed.

Lemma silent_idle a a' : silent a a' → pending a' = ∅ → idle a a'.
Proof. intros [? _] ? _. done. Qed.

Lemma fail_storage_idle op a : idle a (fail_storage op a).
Proof. apply silent_idle; apply fail_storage_silent. Qed.

Lemma step_down_voice e term to a : silent a (step_down e term to a).
Proof.
  unfold step_down. case_goal; [done|]. set (a0 := set_leader_id _ _).
  assert (E : voice a0 = voice a) by (unfold a0; case_goal; apply (voice_transfer (role a) Follower a)). clearbody a0.
  destruct (persist_hard_state a0) as [a1 ok] eqn:Hp. apply persist_meta_only in Hp as [s ->]. destruct ok; simpl.
  - apply drop_silent. by rewrite voice_reset.
  - etrans; [by apply voice_silent, E|]. apply (fail_storage_silent _ (set_store s a0)).
Qed.

Lemma become_follower_silent e to a : silent a (become_follower_of e to a) ∧ pending (become_follower_of e to a) = ∅.
Proof.
  split; [|done]. unfold become_follower_of. apply drop_silent. rewrite voice_reset. apply (voice_transfer (role a) Follower a).
Qed.

(** ** Sending *)

Lemma send_silent e p a : silent a (send_append_to e p a).
Proof.
  unfold send_append_to. case_goal; [done|]. destruct (leader a) as [ls|]; [|done]. case_goal; [done|].
  destruct (checked_add _ _); [|apply step_down_voice]. by case_goal; apply voice_silent.
Qed.

Lemma broadcast_silent e a : silent a (broadcast_append_entries e a).
Proof.
  unfold broadcast_append_entries. case_goal; [|done]. generalize (peers a). intros l. clear Heqb. revert a.
  induction l as [|p l IH]; intros a; simpl; [done|]. etrans; [apply send_silent|apply IH].
Qed.

Lemma committed_entry_app a i x y :
  committed_entry a i = Some x → committed_entry (set_log (log a ++ [y]) a) i = Some x.
Proof. unfold committed_entry, get_entry. simpl. case_goal; [done|]. by apply lookup_app_l_Some. Qed.

Lemma push_silent e i cmd a : silent a (push_entry e i cmd a).
Proof.
  split; [done|]. intros Q Hw j p Hj. destruct (Hw j p Hj) as (? & x & Hx & ?). split; [done|]. exists x. split; [|done].
  by apply committed_entry_app.
Qed.

Lemma activate_silent e a : Nat.eqb (ShardActor.members a) 1 = false → silent a (maybe_activate_command_protocol e a).
Proof.
  intros Hm. unfold maybe_activate_command_protocol. rewrite Hm. case_goal; [done|]. case_goal; [done|]. case_goal; [done|].
  destruct (checked_add _ _) as [i|]; [|apply fail_storage_silent]. set (a1 := push_entry e i _ a).
  etrans; [apply (push_silent e i (Some (ActivateCommandProtocol CURRENT_COMMAND_PROTOCOL)) a)|]. fold a1.
  assert (Em : ShardActor.members a1 = ShardActor.members a) by done. clearbody a1.
  destruct (persist_log_append a1) as [a2 ok] eqn:Hp. apply persist_append_only in Hp as [s ->].
  etrans; [by apply (voice_silent a1 (set_store s a1))|]. destruct ok; simpl; [|apply fail_storage_silent].
  rewrite Em, Hm. apply broadcast_silent.
Qed.

(** ** Applying *)

(** What the client [cl] may be told: [o] is the result of the entry it asked
    for, at that entry's place in [L]. *)
Definition deserved (Q : Z → LogEntry → Prop) (L : list LogEntry) (cl : Z) (o : ProposeOutcome) : Prop :=
  ∃ before x command, (before ++ [x]) `prefix_of` L ∧ o_log_index o = Z.of_nat (length before) + 1 ∧
    e_command x = Some command ∧ Q cl x ∧
    let r := (machine_apply (replay before) command (e_proposed_at_ms x)).2 in
    o_revision o = applied_revision r ∧ o_output o = output r.

Lemma deserved_mono (Q Q' : Z → LogEntry → Prop) L L' cl o :
  (∀ c x, Q c x → Q' c x) → L `prefix_of` L' → deserved Q L cl o → deserved Q' L' cl o.
Proof.
  intros HQ Hp (before & x & c & Hb & ? & ? & ? & ?). exists before, x, c. split_and!; [by etrans|done|done|by apply HQ|done..].
Qed.

Definition outcome_of (shard : Z) (c : Completed) : Z * ProposeOutcome :=
  let '(index, p, revision, out) := c in (resp p, mkOutcome shard index revision out).

Lemma confirmed_complete e cs a : confirmed (foldl (complete_one e) a cs) = confirmed a ++ (outcome_of (shard_id a) <$> cs).
Proof.
  revert a. induction cs as [|[[[i p] r] out] cs IH]; intros a; simpl; [by rewrite app_nil_r|]. rewrite IH.
  unfold confirmed at 1. simpl. rewrite omap_app, <- app_assoc. done.
Qed.

Lemma voice_but_answers e cs a : let a' := foldl (complete_one e) a cs in
  (pending a', log a', snapshot_index a', last_applied a') = (pending a, log a, snapshot_index a, last_applied a).
Proof. revert a. induction cs as [|[[[i p] r] out] cs IH]; intros a; simpl; [done|]. cbv zeta in IH. by rewrite IH. Qed.

Lemma complete_waits Q e cs a : waits Q a → waits Q (foldl (complete_one e) a cs).
Proof.
  pose proof (voice_but_answers e cs a) as E. cbv zeta in E. revert E. generalize (foldl (complete_one e) a cs). intros a' [= Ep El Ei Ea].
  unfold waits, committed_entry. by rewrite Ep, El, Ei, Ea.
Qed.

Lemma fail_completed_silent cs a : silent a (fail_completed cs a).
Proof.
  unfold fail_completed. revert a. induction cs as [|c cs IH]; intros a; simpl; [done|]. etrans; [apply answer_silent|apply IH].
Qed.

Lemma voice_publish command out revision a : voice (publish_change command out revision a) = voice a.
Proof. unfold publish_change. by case_goal. Qed.

(** One entry is applied: its client, if one waits, is to be told its result. *)
Lemma apply_entry_tells Q i x a completed :
  waits Q a → last_applied a + 1 = i → committed_entry a i = Some x →
  let '(a', completed') := apply_entry i x a completed in
  waits Q a' ∧ answers a' = answers a ∧ (pending a = ∅ → pending a' = ∅ ∧ completed' = completed) ∧
  (completed' = completed ∨ ∃ p command, pending a !! i = Some p ∧ Q (resp p) x ∧ e_command x = Some command ∧
     let r := (machine_apply (state a) command (e_proposed_at_ms x)).2 in
     completed' = completed ++ [(i, p, applied_revision r, output r)]).
Proof.
  intros Hw Hi Hx. unfold apply_entry. destruct (e_command x) as [command|] eqn:Hc.
  - simpl. destruct (machine_apply (state a) command (e_proposed_at_ms x)) as [st r] eqn:Hr. simpl.
    set (a1 := publish_change _ _ _ _). assert (V : voice a1 = voice (set_last_applied i a)) by (unfold a1; by rewrite voice_publish).
    clearbody a1. injection V as Ep Ea El Es Ela. rewrite Ep.
    assert (Hother : ∀ a', log a' = log a → snapshot_index a' = snapshot_index a → last_applied a' = i →
      (∀ j p, pending a' !! j = Some p → j ≠ i ∧ pending a !! j = Some p) → waits Q a').
    { intros a' E1 E2 E3 Hp j p Hj. destruct (Hp j p Hj) as [Hne Hj']. destruct (Hw j p Hj') as (Hlt & y & Hy & ?).
      unfold committed_entry in *. rewrite E1, E2, E3. split; [lia|]. by exists y. }
    destruct (pending a !! i) as [p|] eqn:Hp.
    + split_and!; [| |by intros E; rewrite E in Hp|].
      * apply Hother; simpl; try congruence. intros j q. intros [? ?]%lookup_delete_Some. split; [congruence|done].
      * simpl. congruence.
      * right. exists p, command. split_and!; [done| |done|by rewrite Hr]. destruct (Hw i p Hp) as (_ & y & Hy & _ & HQ).
        rewrite Hx in Hy. by injection Hy as <-.
    + split_and!; [|congruence| |by left].
      * apply Hother; try congruence. intros j q. rewrite Ep. intros Hj. split; [|done]. intros ->. simpl in Hj. congruence.
      * intros E. split; [by rewrite Ep|done].
  - split_and!; [|done|done|by left]. intros j p Hj. destruct (Hw j p Hj) as (Hlt & y & Hy & Hn & ?). split; [|by exists y].
    simpl. destruct (decide (j = i)) as [->|]; [|lia]. rewrite Hx in Hy. injection Hy as <-. done.
Qed.

(** Where the actor stands in the log [L]. *)
Record stands (L : list LogEntry) (j : nat) (a : ShardActor) : Prop := {
  st_index : 0 ≤ snapshot_index a ≤ Z.of_nat j;
  st_log : log a = drop (Z.to_nat (snapshot_index a)) L;
  st_applied : last_applied a = Z.of_nat j;
  st_state : state a = replay (take j L)
}.

Lemma stands_entry L j a x :
  stands L j a → committed_entry a (Z.of_nat j + 1) = Some x → L !! j = Some x.
Proof.
  intros [Hi Hl _ _]. unfold committed_entry, get_entry. case_goal; [done|]. rewrite Hl, lookup_drop. intros Hx. rewrite <- Hx. f_equal. lia.
Qed.

Lemma stands_next L j a x completed :
  stands L j a → L !! j = Some x → stands L (S j) (apply_entry (Z.of_nat j + 1) x a completed).1.
Proof.
  intros [Hi Hl Ha Hs] Hx. pose proof (core_fields _ _ (apply_entry_core (Z.of_nat j + 1) x a completed)) as C. destruct C. simpl in *.
  constructor; [rewrite sc_index; lia|by rewrite sc_log, sc_index|rewrite sc_applied; lia|].
  by rewrite sc_state, Hs, (replay_take_S _ _ _ Hx).
Qed.

Lemma apply_entry_commit i x a completed : commit_index (apply_entry i x a completed).1 = commit_index a.
Proof. apply (sc_commit _ _ (core_fields _ _ (apply_entry_core i x a completed))). Qed.

Lemma completed_deserved Q L j x p command shard :
  L !! j = Some x → Q (resp p) x → e_command x = Some command →
  let r := (machine_apply (replay (take j L)) command (e_proposed_at_ms x)).2 in
  let c := outcome_of shard (Z.of_nat j + 1, p, applied_revision r, output r) in ∀ k, (j < k)%nat → deserved Q (take k L) c.1 c.2.
Proof.
  intros Hx HQ Hc. cbv zeta. intros k Hk. exists (take j L), x, command. pose proof (lookup_lt_Some _ _ _ Hx).
  split_and!; [|simpl; rewrite length_take; lia|done|done|done]. rewrite <- (take_S_r _ _ _ Hx).
  rewrite <- (Nat.min_l (S j) k), <- firstn_firstn by lia. apply prefix_take.
Qed.

(** Everyone the loop completes gets the result of the entry asked for. *)
Lemma apply_loop_tells Q L fuel : ∀ a completed j k,
  waits Q a → stands L j a → commit_index a = Z.of_nat k →
  let '(a', completed', _) := apply_loop fuel a completed in
  waits Q a' ∧ answers a' = answers a ∧ snapshot_index a' ≤ last_applied a' ∧
  ∃ new, completed' = completed ++ new ∧ ∀ c shard, c ∈ new → deserved Q (take k L) (outcome_of shard c).1 (outcome_of shard c).2.
Proof.
  induction fuel as [|fuel IH]; intros a completed j k Hw Hst Hk; simpl.
  - destruct Hst. case_goal; (split_and!; [done|done|lia|]; exists []; split; [by rewrite app_nil_r|]; by intros c ? Hc%not_elem_of_nil).
  - assert (Hstop : waits Q a ∧ answers a = answers a ∧ snapshot_index a ≤ last_applied a ∧ ∃ new, completed = completed ++ new ∧
      ∀ c shard, c ∈ new → deserved Q (take k L) (outcome_of shard c).1 (outcome_of shard c).2).
    { destruct Hst. split_and!; [done|done|lia|]. exists []. split; [by rewrite app_nil_r|]. by intros c ? Hc%not_elem_of_nil. }
    destruct (Z.leb_spec (commit_index a) (last_applied a)) as [|Hgt]; [done|].
    destruct (checked_add (last_applied a) 1) as [i|] eqn:Hadd; [|done]. apply checked_add_Some in Hadd as [-> _].
    pose proof (st_applied _ _ _ Hst) as Ej. rewrite Ej in Hgt |- *. destruct (committed_entry a (Z.of_nat j + 1)) as [x|] eqn:Hx; [|exact Hstop].
    clear Hstop.
    pose proof (stands_entry _ _ _ _ Hst Hx) as HL. pose proof (stands_next L j a x completed Hst HL) as Hst'.
    pose proof (apply_entry_tells Q (Z.of_nat j + 1) x a completed Hw ltac:(by rewrite (st_applied _ _ _ Hst)) Hx) as Ht.
    pose proof (apply_entry_commit (Z.of_nat j + 1) x a completed) as Ek.
    destruct (apply_entry (Z.of_nat j + 1) x a completed) as [a1 c1]. simpl in Hst', Ek. destruct Ht as (Hw1 & Ea1 & _ & Hc1).
    specialize (IH a1 c1 (S j) k Hw1 Hst' ltac:(congruence)). destruct (apply_loop fuel a1 c1) as [[a2 c2] f].
    destruct IH as (Hw2 & Ea2 & Hle2 & new & -> & Hnew). split_and!; [done|congruence|done|]. destruct Hc1 as [->|(p & command & _ & HQ & Hc & ->)].
    + by exists new.
    + exists ((Z.of_nat j + 1, p, applied_revision (machine_apply (state a) command (e_proposed_at_ms x)).2,
        output (machine_apply (state a) command (e_proposed_at_ms x)).2) :: new). split; [by rewrite <- app_assoc|].
      intros c shard [->|Hin]%elem_of_cons; [|by apply Hnew]. rewrite (st_state _ _ _ Hst). apply completed_deserved; [done|done|done|lia].
Qed.

Lemma compact_silent a : snapshot_index a ≤ last_applied a → silent a (maybe_compact a).
Proof.
  intros Hle. unfold maybe_compact. case_goal; [done|]. destruct (machine_snapshot _) as [bytes|]; [|done].
  assert (Hp : ∀ p l, ∃ s, (persist_snapshot p l a).1 = set_store s a).
  { intros p l. unfold persist_snapshot. destruct (store a) as [s|] eqn:Es; [|exists None; by destruct a; simpl in *; subst].
    destruct (save_snapshot _ _ _) as [s' ok]. by exists (Some s'). }
  set (l := drop _ (log a)). destruct (Hp (mkPersisted (last_applied a) (term_at a (last_applied a)) bytes) l) as [s Es].
  destruct (persist_snapshot _ _ _) as [a1 ok]. simpl in Es. subst a1. etrans; [by apply (voice_silent a (set_store s a))|].
  destruct ok; simpl; [|apply fail_storage_silent]. split; [done|]. intros Q Hw i p Hi. destruct (Hw i p Hi) as (Hlt & x & Hx & ?).
  split; [done|]. exists x. split; [|done]. simpl in Hlt. revert Hx. unfold committed_entry, get_entry. simpl. intros Hx.
  rewrite (proj2 (Z.ltb_ge _ _)) in Hx by lia. rewrite (proj2 (Z.ltb_ge _ _)) by lia. rewrite <- Hx. unfold l. rewrite lookup_drop. f_equal. unfold sat_sub. lia.
Qed.

(** Committing tells a client [Ok] only about the entry it asked for. *)
Lemma apply_committed_tells Q L e a j k :
  waits Q a → stands L j a → commit_index a = Z.of_nat k → let a' := apply_committed e a in
  waits Q a' ∧ ∀ c o, (c, o) ∈ confirmed a' → (c, o) ∈ confirmed a ∨ deserved Q (take k L) c o.
Proof.
  intros Hw Hst Hk. unfold apply_committed.
  pose proof (apply_loop_tells Q L (Z.to_nat (commit_index a - last_applied a)) a [] j k Hw Hst Hk) as Hl.
  destruct (apply_loop _ a []) as [[a1 cs] f]. destruct Hl as (Hw1 & Ea & Hle & new & -> & Hnew). simpl.
  assert (E1 : confirmed a1 = confirmed a) by (unfold confirmed; by rewrite Ea).
  assert (Hquiet : ∀ a', silent a1 a' → waits Q a' ∧ ∀ c o, (c, o) ∈ confirmed a' → (c, o) ∈ confirmed a ∨ deserved Q (take k L) c o).
  { intros a' [Ec Hq]. split; [by apply Hq|]. intros c o. rewrite Ec, E1. by left. }
  destruct f as [op|]; [apply Hquiet; etrans; [apply (fail_storage_silent op)|apply fail_completed_silent]|].
  pose proof (compact_silent a1 Hle) as Hcomp. case_goal; [apply Hquiet; by etrans; [|apply fail_completed_silent]|].
  destruct (Hquiet _ Hcomp) as [Hw2 Hc2]. split; [by apply complete_waits|]. intros c o. rewrite confirmed_complete, elem_of_app.
  intros [Hin|Hin]; [by apply Hc2|right]. apply list_elem_of_fmap in Hin as (x & Ex & Hx).
  specialize (Hnew x (shard_id (maybe_compact a1)) Hx). by rewrite <- Ex in Hnew.
Qed.

(** ** Leading *)

(** Member [n] told the client the truth about an entry committed by a term it knew. *)
Definition told (Q : Z → LogEntry → Prop) (h : Hist) (n : string) (cl : Z) (o : ProposeOutcome) : Prop :=
  ∃ t l, t ≤ p_term (peer h n) ∧ committed_by mems h t l ∧ deserved Q l cl o.

(** The leader counts itself for its whole log. *)
Definition self_acked (h : Hist) (n : string) : Hist := acknowledge h n (p_term (peer h n)) (length (p_log (peer h n))).

Lemma candidate_committed h n a :
  sound h → healthy h n a → role a = Leader → commit_index a < commit_candidate a → term_at a (commit_candidate a) = current_term a →
  (Z.to_nat (commit_candidate a) ≤ length (p_log (peer h n)))%nat ∧
  committed_by mems (self_acked h n) (p_term (peer h n)) (take (Z.to_nat (commit_candidate a)) (p_log (peer h n))).
Proof.
  intros Hs Hh Hr Hgt Hterm. pose proof (healthy_view _ _ _ Hs Hh) as V. pose proof Hh as (_ & Hv & _).
  pose proof (vw_index _ _ _ V) as Hidx. rewrite (vw_commit _ _ _ V) in Hgt. rewrite (view_term_at _ _ _ _ V), (vw_term _ _ _ V) in Hterm by lia.
  destruct (candidate_quorum h n a Hs Hh) as (Q & HQ & Hm); [lia|]. set (i := Z.to_nat (commit_candidate a)) in *.
  destruct (si_peer _ _ (so_inv _ Hs) n) as (Ht1 & _).
  assert (Hi : (i ≤ length (p_log (peer h n)))%nat).
  { destruct (log_term_lookup _ _ _ Hterm Ht1) as (k & x & -> & Hk & _). apply lookup_lt_Some in Hk. lia. }
  split; [done|]. rewrite (vo_role _ _ _ Hv) in Hr. destruct (leader_commit_ok h n Hs Hr) as [HL _].
  exists n, (p_log (peer h n)), i, Q. split_and!; [done|done| |done|done]. intros m Hin.
  destruct (Hm m Hin) as [->|(ls & j & Hl & Hj & Hle)].
  - exists (length (p_log (peer h n))). split; [done|left].
  - destruct (vo_leader _ _ _ Hv ls (eq_trans (vo_role _ _ _ Hv) Hr) Hl) as [Hmt _].
    destruct (Hmt m j Hj) as [? [->|(k & Hk & Hin')]]; [lia|]. exists k. split; [lia|by right].
Qed.

Lemma advance_tells Q e h n a :
  sound h → healthy h n a → waits Q a → let a' := maybe_advance_commit e a in
  waits Q a' ∧ ∀ c o, (c, o) ∈ confirmed a' → (c, o) ∈ confirmed a ∨ told Q (self_acked h n) n c o.
Proof.
  intros Hs Hh Hw. assert (Hquiet : ∀ a', silent a a' →
    waits Q a' ∧ ∀ c o, (c, o) ∈ confirmed a' → (c, o) ∈ confirmed a ∨ told Q (self_acked h n) n c o).
  { intros a' [Ec Hq]. split; [by apply Hq|]. intros c o. rewrite Ec. by left. }
  unfold maybe_advance_commit. destruct (bool_decide (role a = Leader)) eqn:Hr; simpl; [|by apply Hquiet]. bools.
  destruct (is_faulty a); [by apply Hquiet|]. destruct (_ && _) eqn:Hcond; [|by apply Hquiet]. apply andb_true_iff in Hcond as [Hgt Hterm]. bools.
  destruct (candidate_committed h n a Hs Hh Hr Hgt Hterm) as [Hi Hc]. pose proof (healthy_view _ _ _ Hs Hh) as V. pose proof Hh as (_ & Hv & _).
  unfold commit_to. destruct (persist_hard_state_at _ a) as [a1 ok] eqn:Hp. apply persist_meta_only in Hp as [s ->].
  destruct ok; simpl; [|apply Hquiet; etrans; [by apply (voice_silent a (set_store s a))|apply fail_storage_silent]].
  set (k := Z.to_nat (commit_candidate a)) in *. pose proof (vw_commit _ _ _ V).
  destruct (apply_committed_tells Q (p_log (peer h n)) e (set_commit_index (commit_candidate a) (set_store s a)) (p_commit (peer h n)) k) as [Hw' Ht].
  - done.
  - constructor; simpl; [apply V|apply V|by rewrite (vo_applied _ _ _ Hv)|apply Hv].
  - simpl. lia.
  - split; [done|]. intros c o Hin. destruct (Ht c o Hin) as [?|?]; [by left|right]. eexists _, _. split_and!; [|exact Hc|done]. done.
Qed.

(** A fresh leader has counted nobody. *)
Lemma initial_matches a voters p : default 0 (match_index (initial_leader_state a voters) !! p) = 0.
Proof.
  unfold initial_leader_state. set (next := wrap_add _ _).
  assert (Hgen : ∀ l ls, default 0 (match_index ls !! p) = 0 → default 0 (match_index (foldl (λ ls peer,
    let ls := set_next_index (<[peer := next]> (next_index ls)) ls in
    let ls := set_match_index (<[peer := 0]> (match_index ls)) ls in
    let ls := set_in_flight (<[peer := false]> (in_flight ls)) ls in
    let ls := set_peer_command_protocol (<[peer := LEGACY_COMMAND_PROTOCOL]> (peer_command_protocol ls)) ls in
    if bool_decide (peer ∈ voters) then set_last_contact (<[peer := campaign_started_at a]> (last_contact ls)) ls else ls) ls l) !! p) = 0);
    [|by apply Hgen].
  induction l as [|m l IH]; intros ls Hls; [done|]. simpl. apply IH. case_goal; simpl; (destruct (decide (m = p)) as [->|];
    [by rewrite lookup_insert_eq|by rewrite lookup_insert_ne]).
Qed.

Lemma fresh_candidate a a0 voters :
  leader a = Some (initial_leader_state a0 voters) → (1 < ShardActor.members a)%nat → commit_candidate a ≤ 0.
Proof.
  intros Hl Hm. set (x := default 0 (match_indices a !! (majority a - 1)%nat)). assert (Hx : commit_candidate a ≤ x).
  { unfold commit_candidate. fold x. case_goal; [|lia]. case_goal; lia. }
  destruct (match_indices a !! _) as [y|] eqn:E; simpl in x; [|done]. unfold match_indices in E. rewrite Hl in E. apply sorted_count in E.
  destruct (decide (x ≤ 0)) as [|Hpos]; [lia|]. exfalso. fold x in E.
  assert (Hz : filter (λ z, (x ≤ z)%Z) ((λ p, default 0 (match_index (initial_leader_state a0 voters) !! p)) <$> peers a) = []).
  { clear -Hpos. generalize (peers a). intros l. induction l as [|p l IH]; [done|]. rewrite fmap_cons, filter_cons, initial_matches, decide_False by lia. done. }
  rewrite filter_cons, Hz in E. unfold majority in E. pose proof (Nat.div_le_lower_bound (ShardActor.members a) 2 1 ltac:(lia) ltac:(lia)).
  destruct (decide _); cbn [length] in E; lia.
Qed.

Lemma become_leader_silent e a :
  (1 < ShardActor.members a)%nat → 0 ≤ commit_index a → silent a (become_leader e a).
Proof.
  intros Hm Hc. unfold become_leader. case_goal; [done|]. set (a0 := set_votes ∅ _). set (a1 := set_leader _ a0).
  assert (E : voice a1 = voice a) by (apply (voice_transfer (role a) Leader a)).
  assert (El : leader a1 = Some (initial_leader_state a0 (votes (set_leader_id (Some (node_id (set_role Leader (record_leader_transfer (role a) Leader a))))
    (set_role Leader (record_leader_transfer (role a) Leader a)))))) by done.
  assert (Em : ShardActor.members a1 = ShardActor.members a ∧ commit_index a1 = commit_index a).
  { unfold a1, a0, record_leader_transfer. by case_goal. }
  clearbody a1. destruct Em as [Em Ec]. set (a2 := push_entry e _ None a1). etrans; [by apply voice_silent|].
  etrans; [apply (push_silent e (wrap_add (last_log_index a1) 1) None a1)|]. fold a2.
  assert (F : ShardActor.members a2 = ShardActor.members a1 ∧ commit_index a2 = commit_index a1 ∧ leader a2 = leader a1) by done.
  clearbody a2. destruct F as (F1 & F2 & F3). destruct (persist_log_append a2) as [a3 ok] eqn:Hp. apply persist_append_only in Hp as [s ->].
  etrans; [by apply (voice_silent a2 (set_store s a2))|]. destruct ok; simpl; [|apply fail_storage_silent].
  set (a4 := set_heartbeat_deadline _ _). etrans; [by apply (voice_silent _ a4)|].
  assert (Hcand : commit_candidate a4 ≤ 0) by (eapply fresh_candidate; [simpl; rewrite F3; exact El|simpl; lia]).
  assert (maybe_advance_commit e a4 = a4) as ->; [|apply broadcast_silent].
  unfold maybe_advance_commit. case_goal; [done|]. rewrite (proj2 (Z.ltb_ge _ _)); [done|]. simpl. lia.
Qed.

(** ** Elections *)

Lemma start_election_silent e a : (1 < ShardActor.members a)%nat → 0 ≤ commit_index a → silent a (start_election e a).
Proof.
  intros Hm Hc. unfold start_election. case_goal; [done|]. set (a0 := set_votes _ _).
  assert (E : voice (reset_election_deadline e a0) = voice a) by (by rewrite voice_reset).
  assert (F : ShardActor.members (reset_election_deadline e a0) = ShardActor.members a ∧ commit_index (reset_election_deadline e a0) = commit_index a).
  { unfold reset_election_deadline. by destruct (below _ _). }
  revert E F. generalize (reset_election_deadline e a0). intros a1 E [F1 F2].
  destruct (persist_hard_state a1) as [a2 ok] eqn:Hp. apply persist_meta_only in Hp as [s ->].
  etrans; [by apply voice_silent, E|]. etrans; [by apply (voice_silent a1 (set_store s a1))|].
  destruct ok; simpl; [|apply fail_storage_silent]. case_goal; [apply become_leader_silent; simpl; lia|by apply voice_silent].
Qed.

Lemma start_pre_election_silent e a : (1 < ShardActor.members a)%nat → 0 ≤ commit_index a → silent a (start_pre_election e a).
Proof.
  intros Hm Hc. unfold start_pre_election. case_goal; [done|]. set (a0 := set_votes _ _).
  assert (E : voice (reset_election_deadline e a0) = voice a) by (by rewrite voice_reset).
  assert (F : ShardActor.members (reset_election_deadline e a0) = ShardActor.members a ∧ commit_index (reset_election_deadline e a0) = commit_index a).
  { unfold reset_election_deadline. by destruct (below _ _). }
  revert E F. generalize (reset_election_deadline e a0). intros a1 E [F1 F2]. etrans; [by apply voice_silent, E|].
  set (a2 := set_pre_votes _ _). etrans; [by apply (voice_silent a1 a2)|].
  case_goal; [apply start_election_silent; simpl; lia|by apply voice_silent].
Qed.

Lemma handle_vote_reply_silent e from pre r a :
  (1 < ShardActor.members a)%nat → 0 ≤ commit_index a → silent a (handle_vote_reply e from pre r a).
Proof.
  intros Hm Hc. unfold handle_vote_reply. case_goal; [done|]. case_goal; [apply step_down_voice|]. case_goal.
  - case_goal; [done|]. case_goal; [|done]. etrans; [by apply (voice_silent a (set_pre_votes ({[from]} ∪ pre_votes a) a))|].
    case_goal; [by apply start_election_silent|done].
  - case_goal; [done|]. case_goal; [|done]. etrans; [by apply (voice_silent a (set_votes ({[from]} ∪ votes a) a))|].
    case_goal; [by apply become_leader_silent|done].
Qed.

Lemma handle_request_vote_silent e req a : silent a (handle_request_vote e req a).1.
Proof.
  unfold handle_request_vote. case_goal; [done|]. case_goal; [done|]. case_goal; [done|]. case_goal; [done|].
  set (a0 := if _ <? _ then _ else a). assert (Hq : silent a a0) by (unfold a0; case_goal; [apply step_down_voice|done]). clearbody a0.
  case_goal; [done|]. case_goal; [|done]. set (a1 := set_voted_for _ a0). etrans; [exact Hq|].
  assert (E : voice (reset_election_deadline e a1) = voice a0) by (by rewrite voice_reset). revert E. generalize (reset_election_deadline e a1).
  intros a2 E. destruct (persist_hard_state a2) as [a3 ok] eqn:Hp. apply persist_meta_only in Hp as [s ->].
  etrans; [by apply voice_silent, E|]. etrans; [by apply (voice_silent a2 (set_store s a2))|]. destruct ok; simpl; [done|apply fail_storage_silent].
Qed.

(** ** Following *)

Lemma apply_loop_idle fuel : ∀ a completed, pending a = ∅ →
  let '(a', completed', _) := apply_loop fuel a completed in pending a' = ∅ ∧ answers a' = answers a ∧ completed' = completed.
Proof.
  induction fuel as [|fuel IH]; intros a completed Hp; simpl; [by case_goal|]. case_goal; [done|].
  destruct (checked_add _ _) as [i|]; [|done]. destruct (committed_entry a i) as [x|]; [|done].
  assert (Hone : let '(a1, c1) := apply_entry i x a completed in pending a1 = ∅ ∧ answers a1 = answers a ∧ c1 = completed).
  { unfold apply_entry. destruct (e_command x) as [command|]; [|done]. simpl. destruct (machine_apply _ _ _) as [st r].
    set (a1 := publish_change _ _ _ _). assert (V : voice a1 = voice (set_last_applied i a)) by (unfold a1; by rewrite voice_publish).
    injection V as Ep Ea _ _ _. rewrite Ep, Hp, lookup_empty. split_and!; [congruence|done|done]. }
  destruct (apply_entry i x a completed) as [a1 c1]. destruct Hone as (Hp1 & Ea1 & ->). specialize (IH a1 completed Hp1).
  destruct (apply_loop fuel a1 completed) as [[a2 c2] f]. destruct IH as (? & ? & ?). split_and!; [done|congruence|done].
Qed.

Lemma compact_idle a : idle a (maybe_compact a).
Proof.
  unfold maybe_compact. case_goal; [done|]. destruct (machine_snapshot _) as [bytes|]; [|done]. set (l := drop _ (log a)).
  unfold persist_snapshot. destruct (store a) as [s|]; [|done]. destruct (save_snapshot _ _ _) as [s' ok]. destruct ok; simpl; [done|].
  apply (fail_storage_idle _ (set_store (Some s') a)).
Qed.

Lemma apply_committed_idle e a : idle a (apply_committed e a).
Proof.
  intros Hp. unfold apply_committed. pose proof (apply_loop_idle (Z.to_nat (commit_index a - last_applied a)) a [] Hp) as Hl.
  destruct (apply_loop _ a []) as [[a1 cs] f]. destruct Hl as (Hp1 & Ea & ->). assert (E1 : confirmed a1 = confirmed a) by (unfold confirmed; by rewrite Ea).
  destruct f as [op|]; simpl.
  - destruct (fail_storage_idle op a1 Hp1). split; congruence.
  - destruct (compact_idle a1 Hp1). case_goal; (split; congruence).
Qed.

Lemma commit_to_idle e op i a : idle a (commit_to e op i a).
Proof.
  unfold commit_to. destruct (persist_hard_state_at i a) as [a1 ok] eqn:Hp. apply persist_meta_only in Hp as [s ->].
  destruct ok; simpl; [apply (apply_committed_idle e (set_commit_index i (set_store s a)))|apply (fail_storage_idle op (set_store s a))].
Qed.

Lemma store_entries_idle e req a : idle a (store_entries e req a).1.
Proof.
  unfold store_entries. set (m := merge_entries _ _ _ _ _). set (a0 := set_log (merged_log m) a). assert (Hi : idle a a0) by done. etrans; [exact Hi|].
  case_goal; [done|]. set (p := if truncated m then _ else _).
  assert (Hst : ∃ s, p.1 = set_store s a0).
  { unfold p. destruct (update_only m a0) as [s E]. by exists s. }
  destruct p as [a1 ok]. simpl in Hst. destruct Hst as [s ->]. etrans; [by apply (voice_idle a0 (set_store s a0))|].
  destruct ok; simpl; [|apply fail_storage_idle]. case_goal; [|done]. case_goal; apply commit_to_idle.
Qed.

Lemma install_idle req st a : idle a (install req st a).1.
Proof.
  unfold install. set (l := if _ =? _ then _ else _). unfold persist_snapshot. destruct (store a) as [s|].
  - destruct (save_snapshot _ _ _) as [s1 ok1]. destruct ok1; simpl; [|apply (fail_storage_idle _ (set_store (Some s1) a))].
    destruct (persist_hard_state_at _ _) as [a2 ok2] eqn:Hp. apply persist_meta_only in Hp as [s2 ->].
    destruct ok2; simpl; [done|apply (fail_storage_idle _ (set_store s2 (set_store (Some s1) a)))].
  - simpl. destruct (persist_hard_state_at _ _) as [a2 ok2] eqn:Hp. apply persist_meta_only in Hp as [s2 ->].
    destruct ok2; simpl; [done|apply (fail_storage_idle _ (set_store s2 a))].
Qed.

Lemma idle_silent a a' : pending a = ∅ → idle a a' → silent a a'.
Proof. intros Hp Hi. destruct (Hi Hp) as [? ?]. split; [done|]. intros Q _. by apply waits_none. Qed.

(** A follower drops its clients before it touches its log. *)
Lemma following_silent e to a a' : idle (become_follower_of e to a) a' → silent a a'.
Proof. intros Hi. destruct (become_follower_silent e to a) as [Hq Hp]. etrans; [exact Hq|by apply idle_silent]. Qed.

Lemma catch_up_silent e term a : silent a (catch_up e term a).
Proof. unfold catch_up. case_goal; [apply step_down_voice|done]. Qed.

Lemma handle_append_entries_silent e req a : silent a (handle_append_entries e req a).1.
Proof.
  unfold handle_append_entries. case_goal; [done|]. case_goal; [done|]. fold (catch_up e (ar_term req) a).
  etrans; [apply (catch_up_silent e (ar_term req))|]. generalize (catch_up e (ar_term req) a). intros a0.
  case_goal; [done|]. case_goal; [done|]. case_goal; [done|].
  case_goal; [by apply (following_silent e (ar_leader_id req))|]. apply (following_silent e (ar_leader_id req)), store_entries_idle.
Qed.

Lemma handle_install_snapshot_silent e req a : silent a (handle_install_snapshot e req a).1.
Proof.
  unfold handle_install_snapshot. case_goal; [done|]. case_goal; [done|]. fold (catch_up e (sr_term req) a).
  etrans; [apply (catch_up_silent e (sr_term req))|]. generalize (catch_up e (sr_term req) a). intros a0.
  case_goal; [done|]. case_goal; [done|]. apply (following_silent e (sr_leader_id req)). case_goal; [done|]. case_goal; [done|].
  destruct (machine_restore _) as [st|]; [apply install_idle|done].
Qed.

(** ** Proposals *)

(** The entry is what the client asked for, in a form the group can parse. *)
Definition requested (command : Command) (x : LogEntry) : Prop :=
  ∃ v c, for_active_protocol command v = Ok c ∧ e_command x = Some c.

Lemma push_waits Q e a cl c :
  0 ≤ snapshot_index a → last_applied a < snapshot_index a + Z.of_nat (length (log a)) + 1 →
  let i := snapshot_index a + Z.of_nat (length (log a)) + 1 in let x := mkEntry (current_term a) i (wall_ms e) (Some c) in
  Q cl x → waits Q a → waits Q (set_pending (<[i := mkPending (now e) cl]> (pending a)) (push_entry e i (Some c) a)).
Proof.
  intros Hs Hla i x HQ Hw j p Hj. simpl in Hj. apply lookup_insert_Some in Hj as [[<- <-]|[Hne Hj]].
  - split; [simpl; lia|]. exists x. split_and!; [|done|done]. unfold committed_entry, get_entry. simpl.
    rewrite (proj2 (Z.ltb_ge _ _)) by lia. replace (Z.to_nat (i - snapshot_index a - 1)) with (length (log a)) by lia.
    by rewrite lookup_app_r, Nat.sub_diag by lia.
  - destruct (Hw j p Hj) as (? & y & Hy & ?). split; [done|]. exists y. split; [|done]. by apply committed_entry_app.
Qed.

(** A proposal makes its client wait for an entry that holds its command, or
    tells it that it failed. *)
Lemma propose_tells Q e command client h n a :
  sound h → healthy h n a → (∀ x, requested command x → Q client x) → waits Q a →
  let a' := on_propose e command client a in waits Q a' ∧ confirmed a' = confirmed a.
Proof.
  intros Hs Hh HQ Hw. assert (Hquiet : ∀ a', silent a a' → waits Q a' ∧ confirmed a' = confirmed a) by (intros a' [? Hq]; auto).
  pose proof Hh as (Hf & Hv & _). unfold on_propose. rewrite (proj2 (not_faulty_spec a) Hf).
  case_goal; [apply Hquiet, answer_silent|]. case_goal; [apply Hquiet, answer_silent|].
  pose proof (activate_silent e a (members_not_one _ _ _ Hv)) as Hact.
  destruct (maybe_activate_ok e h n a Hs (or_introl Hh)) as (h1 & _ & S1 & Hc1). set (a1 := maybe_activate_command_protocol e a) in *. clearbody a1.
  destruct (is_faulty a1) eqn:Hf1; [apply Hquiet; etrans; [exact Hact|apply answer_silent]|].
  pose proof (coupled_healthy _ _ _ Hc1 Hf1) as Hh1. pose proof (healthy_view _ _ _ S1 Hh1) as V1. pose proof Hh1 as (_ & Hv1 & _).
  destruct (for_active_protocol command _) as [c|] eqn:Hfor; [|apply Hquiet; etrans; [exact Hact|apply answer_silent]].
  destruct (checked_add _ 1) as [i|] eqn:Hadd; [|apply Hquiet; etrans; [exact Hact|apply answer_silent]].
  apply checked_add_Some in Hadd as [Ei _]. rewrite (vw_last _ _ _ V1), <- (vw_length _ _ _ V1) in Ei.
  destruct (persist_log_append _) as [a2 ok] eqn:Hp. apply persist_append_only in Hp as [s ->].
  destruct ok; simpl; last first.
  { apply Hquiet. etrans; [exact Hact|]. etrans; [apply (push_silent e i (Some c) a1)|].
    etrans; [apply (fail_storage_silent "persisting proposed log entry" (set_store s (push_entry e i (Some c) a1)))|]. apply answer_silent. }
  set (a3 := set_pending _ _). change (ShardActor.members a1) with (ShardActor.members a3).
  assert (Hw3 : waits Q a3).
  { apply (proj2 (voice_silent (set_pending (<[i := mkPending (now e) client]> (pending a1)) (push_entry e i (Some c) a1)) a3 eq_refl)).
    rewrite Ei. apply push_waits; [apply V1| | |by apply Hact].
    - rewrite (vo_applied _ _ _ Hv1), (vw_commit _ _ _ V1), (vw_length _ _ _ V1). destruct (si_commit _ _ (so_inv _ S1) n). lia.
    - apply HQ. eexists _, c. split; [exact Hfor|done]. }
  assert (E3 : confirmed a3 = confirmed a) by apply Hact. assert (Em : Nat.eqb (ShardActor.members a3) 1 = false) by (exact (members_not_one _ _ _ Hv1)).
  rewrite Em. destruct (broadcast_silent e a3) as [Ec Hq]. split; [by apply Hq|congruence].
Qed.

(** ** Replies and the clock *)

Lemma fail_members op a : ShardActor.members (fail_storage op a) = ShardActor.members a.
Proof. unfold fail_storage, record_leader_transfer. by repeat case_goal. Qed.

Lemma core_members a a' : core a = core a' → ShardActor.members a = ShardActor.members a'.
Proof. intros C. apply (sc_members _ _ (core_fields _ _ C)). Qed.

Lemma compact_members a : ShardActor.members (maybe_compact a) = ShardActor.members a.
Proof.
  unfold maybe_compact. case_goal; [done|]. case_goal; [|done]. unfold persist_snapshot. destruct (store a) as [s0|]; [|done].
  destruct (save_snapshot _ _ _) as [s' ok]. destruct ok; cbn [negb]; [done|exact (fail_members _ (set_store (Some s') a))].
Qed.

Lemma apply_loop_members fuel : ∀ a completed, ShardActor.members (apply_loop fuel a completed).1.1 = ShardActor.members a.
Proof.
  induction fuel as [|fuel IH]; intros a completed; simpl; [by case_goal|]. case_goal; [done|]. case_goal; [|done].
  destruct (committed_entry a _) as [x|]; [|done]. pose proof (core_members _ _ (apply_entry_core z x a completed)) as E.
  destruct (apply_entry z x a completed) as [a1 c1]. by rewrite IH.
Qed.

Lemma advance_members e a : ShardActor.members (maybe_advance_commit e a) = ShardActor.members a.
Proof.
  unfold maybe_advance_commit, commit_to. case_goal; [done|]. case_goal; [|done].
  destruct (persist_hard_state_at _ a) as [a1 ok] eqn:Hp. apply persist_meta_only in Hp as [s ->]. destruct ok; cbn [negb]; [|exact (fail_members _ (set_store s a))].
  unfold apply_committed. set (a2 := set_commit_index _ _). pose proof (apply_loop_members (Z.to_nat (commit_index a2 - last_applied a2)) a2 []) as Hl.
  destruct (apply_loop _ a2 []) as [[a3 cs] f]. simpl in Hl. destruct f as [op|].
  - by rewrite (core_members _ _ (core_fail_completed cs _)), fail_members.
  - case_goal; [rewrite (core_members _ _ (core_fail_completed cs _))|rewrite (core_members _ _ (core_complete e cs _))]; by rewrite compact_members.
Qed.

(** Whoever is told [Ok] by the operation is told about a committed entry, by a leader. *)
Definition tells (Q : Z → LogEntry → Prop) (h : Hist) (n : string) (a a' : ShardActor) : Prop :=
  waits Q a' ∧ ∀ c o, (c, o) ∈ confirmed a' → (c, o) ∈ confirmed a ∨ role a = Leader ∧ told Q (self_acked h n) n c o.

Lemma silent_tells Q h n a a' : silent a a' → waits Q a → tells Q h n a a'.
Proof. intros [E Hq] Hw. split; [by apply Hq|]. intros c o. rewrite E. by left. Qed.

Lemma tells_silent Q h n a a' a'' : tells Q h n a a' → silent a' a'' → tells Q h n a a''.
Proof. intros [Hw Ht] [E Hq]. split; [by apply Hq|]. intros c o. rewrite E. apply Ht. Qed.

Lemma silent_then_tells Q h n a a' a'' : silent a a' → role a' = role a → tells Q h n a' a'' → tells Q h n a a''.
Proof. intros [E _] Hr [Hw Ht]. split; [done|]. intros c o Hin. rewrite <- E, <- Hr. by apply Ht. Qed.

Lemma wide h n a : sound h → healthy h n a → (1 < ShardActor.members a)%nat ∧ 0 ≤ commit_index a.
Proof.
  intros Hs Hh. pose proof (healthy_view _ _ _ Hs Hh) as V. destruct Hh as (_ & Hv & _). rewrite (vo_members _ _ _ Hv), (vw_commit _ _ _ V).
  pose proof group_size. lia.
Qed.

Lemma append_reply_tells Q e sent_at from up_to rtt r h n a :
  sound h → healthy h n a → append_reply_ok h n from up_to r → waits Q a → tells Q h n a (handle_append_reply e sent_at from up_to rtt r a).
Proof.
  intros Hs Hh Hr Hw. unfold handle_append_reply. pose proof Hh as (Hf & _). rewrite (proj2 (not_faulty_spec a) Hf).
  pose proof (clear_in_flight_ok h n a from Hh) as Hh0. set (a0 := clear_in_flight from a) in *.
  assert (E0 : voice a0 = voice a ∧ role a0 = role a) by (unfold a0, clear_in_flight; by destruct (leader a)). clearbody a0.
  set (a1 := match rtt with Some _ => _ | None => a0 end).
  assert (Hh1 : healthy h n a1) by (unfold a1; destruct rtt; [by eapply healthy_core, Hh0|done]).
  assert (E1 : voice a1 = voice a ∧ role a1 = role a) by (unfold a1; by destruct rtt). clearbody a1. clear E0 Hh0 a0.
  destruct E1 as [E1 R1]. pose proof (voice_silent _ _ E1) as Q1. pose proof (proj2 Q1 Q Hw) as Hw1.
  apply (silent_then_tells Q h n a a1); [done|done|]. clear Q1 E1 Hh Hf Hw R1 a.
  destruct r as [r|]; [|by apply silent_tells]. case_goal; [apply silent_tells; [apply step_down_voice|done]|].
  destruct (bool_decide (role a1 = Leader)) eqn:Hrole; simpl; [|by apply silent_tells].
  destruct (as_term r =? current_term a1) eqn:Hterm; simpl; [|by apply silent_tells]. bools.
  pose proof (healthy_view _ _ _ Hs Hh1) as V. pose proof Hh1 as (_ & Hv & _).
  set (p := match leader a1 with Some _ => _ | None => (a1, false) end).
  assert (Hp : healthy h n p.1 ∧ role p.1 = role a1 ∧ voice p.1 = voice a1).
  { unfold p. destruct (leader a1) as [ls|] eqn:Hl; [|done]. destruct (credit_append _ _ _ _ _ _) as [ls' more] eqn:Hcr. split; [|done].
    apply healthy_track; [done|]. intros _. eapply credit_append_tracked; [done| | |exact Hr| |exact Hcr].
    - by rewrite <- (vo_role _ _ _ Hv).
    - by apply (vo_leader _ _ _ Hv).
    - by rewrite Hterm, (vw_term _ _ _ V). }
  destruct p as [a2 more]. simpl in Hp. destruct Hp as (Hh2 & R2 & E2). pose proof (voice_silent _ _ E2) as Q2.
  pose proof (proj2 Q2 Q Hw1) as Hw2. apply (silent_then_tells Q h n a1 a2); [done|done|].
  set (a3 := if _ && _ then maybe_advance_commit e a2 else a2).
  assert (Hadv : tells Q h n a2 a3).
  { unfold a3. case_goal; [|by apply silent_tells]. destruct (advance_tells Q e h n a2 Hs Hh2 Hw2) as [Hw3 Ht]. split; [done|].
    intros c o Hin. destruct (Ht c o Hin); [by left|right]. split; [congruence|done]. }
  assert (Hm3 : ShardActor.members a3 = ShardActor.members a2).
  { unfold a3. case_goal; [|done]. apply advance_members. }
  clearbody a3. apply (tells_silent Q h n a2 a3); [done|]. pose proof Hh2 as (_ & Hv2 & _).
  etrans; [apply (activate_silent e a3); rewrite Hm3; by apply (members_not_one h n)|].
  generalize (maybe_activate_command_protocol e a3). intros a4. etrans; [by apply (voice_silent a4 (refresh_follower_lag_metric a4))|].
  destruct more; [apply send_silent|done].
Qed.

Lemma snapshot_reply_silent e sent_at from up_to r a : silent a (handle_snapshot_reply e sent_at from up_to r a).
Proof.
  unfold handle_snapshot_reply. case_goal; [done|]. etrans; [apply (voice_silent a (clear_in_flight from a))|].
  { unfold clear_in_flight. by destruct (leader a). }
  generalize (clear_in_flight from a). intros a0. destruct r as [r|]; [|done]. case_goal; [apply step_down_voice|]. case_goal; [done|].
  case_goal; [|done]. destruct (leader a0) as [ls|]; [|apply send_silent]. destruct (acknowledged_prefix _ _ _) as [[m x]|]; [|done].
  set (ls' := set_last_contact _ _). etrans; [by apply (voice_silent a0 (set_leader (Some ls') a0))|apply send_silent].
Qed.

(** The callback is let through only by an actor that stays healthy. *)
Lemma accept_silent e from request term h n a : sound h → healthy h n a →
  let '(a', ok) := accept_replication_callback e from request term a in
  silent a a' ∧ (ok = true → role a' = role a ∧ healthy h n a').
Proof.
  intros Hs Hh. unfold accept_replication_callback. case_goal; [done|]. destruct (classify_callback _ _ _ _ _).
  - split; [apply step_down_voice|done].
  - destruct (leader a) as [ls|] eqn:Hl; [|done]. split; [by apply voice_silent|]. intros _. split; [done|]. apply healthy_track; [done|]. intros Hr.
    apply (tracked_same h n ls); [done|done|]. destruct Hh as (_ & Hv & _). by apply (vo_leader _ _ _ Hv).
  - done.
Qed.

(** What a message may make the actor tell: a proposal is what [Q] records, a
    reply is truthful. *)
Definition backed (Q : Z → LogEntry → Prop) (h : Hist) (n : string) (msg : ShardMsg) : Prop :=
  match msg with
  | MsgPropose command client => ∀ x, requested command x → Q client x
  | MsgAppendReply from _ up_to _ r => append_reply_ok h n from up_to r
  | _ => True
  end.

Lemma handle_tells Q e msg h n a :
  sound h → healthy h n a → backed Q h n msg → waits Q a → tells Q h n a (handle e msg a).1.
Proof.
  intros Hs Hh Hb Hw. destruct (wide h n a Hs Hh) as [Hm Hc].
  destruct msg as [command client|req|req|req|from pre r|from request up_to rtt r|from request up_to r]; simpl in *.
  - destruct (propose_tells Q e command client h n a Hs Hh Hb Hw) as [Hw' Ec]. split; [done|]. intros c o. rewrite Ec. by left.
  - apply silent_tells; [|done]. pose proof (handle_append_entries_silent e req a) as Hq. by destruct (handle_append_entries e req a).
  - apply silent_tells; [|done]. pose proof (handle_install_snapshot_silent e req a) as Hq. by destruct (handle_install_snapshot e req a).
  - apply silent_tells; [|done]. pose proof (handle_request_vote_silent e req a) as Hq. by destruct (handle_request_vote e req a).
  - apply silent_tells; [by apply handle_vote_reply_silent|done].
  - pose proof (accept_silent e from request (as_term <$> r) h n a Hs Hh) as Ha. destruct (accept_replication_callback _ _ _ _ a) as [a1 ok].
    destruct Ha as [Hq Hok]. destruct ok; [|by apply silent_tells]. destruct (Hok eq_refl) as [Hr1 Hh1].
    apply (silent_then_tells Q h n a a1); [done|done|]. by apply append_reply_tells; [| | |apply Hq].
  - pose proof (accept_silent e from request (ss_term <$> r) h n a Hs Hh) as Ha. destruct (accept_replication_callback _ _ _ _ a) as [a1 ok].
    destruct Ha as [Hq _]. apply silent_tells; [|done]. destruct ok; [|done]. etrans; [exact Hq|apply snapshot_reply_silent].
Qed.

(** A faulted actor tells nobody [Ok]. *)
Lemma faulted_silent e msg a : is_faulty a = true → silent a (handle e msg a).1.
Proof.
  intros Hf. destruct msg as [command client|req|req|req|from pre r|from request up_to rtt r|from request up_to r]; simpl.
  - unfold on_propose. rewrite Hf. apply answer_silent.
  - unfold handle_append_entries. by rewrite Hf.
  - unfold handle_install_snapshot. by rewrite Hf.
  - unfold handle_request_vote. by rewrite Hf.
  - unfold handle_vote_reply. by rewrite Hf.
  - unfold accept_replication_callback. by rewrite Hf.
  - unfold accept_replication_callback. by rewrite Hf.
Qed.

Lemma on_tick_silent e h n a : sound h → healthy h n a → silent a (on_tick e a).
Proof.
  intros Hs Hh. destruct (wide h n a Hs Hh) as [Hm Hc]. pose proof Hh as (_ & Hv & _). unfold on_tick. case_goal; [done|].
  assert (Hcamp : silent a (if election_deadline a <=? now e
    then if pre_vote (timing a) && Nat.ltb 1 (ShardActor.members a) then start_pre_election e a else start_election e a else a)).
  { case_goal; [|done]. case_goal; [by apply start_pre_election_silent|by apply start_election_silent]. }
  destruct (role a); [done|done|]. etrans; [exact (activate_silent e a (members_not_one _ _ _ Hv))|].
  generalize (maybe_activate_command_protocol e a). intros a1. case_goal; [done|]. set (a2 := if _ <=? _ then _ else a1).
  assert (Hq : silent a1 a2) by (unfold a2; case_goal; [exact (broadcast_silent e (set_heartbeat_deadline (now e + heartbeat (timing a1)) a1))|done]). etrans; [exact Hq|].
  case_goal; [apply step_down_voice|done].
Qed.

(** A member that starts has told nobody anything. *)
Lemma boot_mute e shard n peers t nanos disk :
  let a := (bootstrap e shard n peers t nanos disk).1 in pending a = ∅ ∧ confirmed a = [].
Proof.
  unfold bootstrap. destruct (open disk) as [s r].
  assert (Hq : ∀ reason, let a := quarantined e shard n peers t nanos reason in pending a = ∅ ∧ confirmed a = []).
  { intros reason. unfold quarantined. pose proof (voice_reset e (set_storage_fault (Some reason) (blank_actor e shard n peers t nanos))) as V.
    injection V as Ep Ea _ _ _. unfold confirmed. by rewrite Ep, Ea. }
  destruct r as [r|err]; [|apply Hq]. unfold new_actor. destruct (recovered_in_order _ _); cbn [result_bind]; [|apply Hq].
  case_goal; [apply Hq|]. destruct (match r_snapshot r with None => _ | Some _ => _ end); cbn [result_bind]; [|apply Hq].
  set (b0 := set_state _ _). pose proof (voice_reset e b0) as V. revert V. generalize (reset_election_deadline e b0). intros b1 V.
  injection V as Ep Ea _ _ _. assert (E1 : confirmed b1 = []) by (unfold confirmed; by rewrite Ea). simpl.
  case_goal; [|done]. destruct (apply_committed_idle e b1 Ep) as [? ?]. split; congruence.
Qed.

(** ** The group *)

(** At some earlier moment of the run this client asked member [n] for this
    command. *)
Definition proposed (w : World) (n : string) (client : Z) (command : Command) : Prop :=
  ∃ w0 e os, let w1 := ran w0 n (handle e (MsgPropose command client) (facing os (actors w0 n))).1 [] in
    reachable w0 ∧ cluster_step w0 w1 ∧ rtc cluster_step w1 w.

Definition asked (w : World) (n : string) (client : Z) (x : LogEntry) : Prop :=
  ∃ command, proposed w n client command ∧ requested command x.

Definition all_told (h : Hist) (w : World) : Prop := ∀ n, n ∈ group →
  waits (asked w n) (actors w n) ∧ ∀ c o, (c, o) ∈ confirmed (actors w n) → told (asked w n) h n c o.

Lemma asked_mono w w' n c x : rtc cluster_step w w' → asked w n c x → asked w' n c x.
Proof.
  intros Hr (command & (w0 & e & os & Hw0 & Hs & Hrun) & Hq). exists command. split; [|done]. exists w0, e, os. split_and!; [done|done|by etrans].
Qed.

Lemma term_step h m h' n : spec_step mems h m h' → p_term (peer h n) ≤ p_term (peer h' n).
Proof.
  intros Hstep. destruct (decide (n = m)) as [->|Hne].
  - destruct Hstep; simpl; rewrite ?fn_lookup_insert; simpl; lia.
  - destruct Hstep; simpl; rewrite ?fn_lookup_insert_ne by done; done.
Qed.

Lemma term_run h h' n : rtc (spec_any mems) h h' → p_term (peer h n) ≤ p_term (peer h' n).
Proof. induction 1 as [|h h1 h2 [m Hs] _ IH]; [done|]. apply (term_step _ _ _ n) in Hs. lia. Qed.

Lemma told_mono (Q Q' : Z → LogEntry → Prop) h h' n c o :
  sound h → rtc (spec_any mems) h h' → (∀ c x, Q c x → Q' c x) → told Q h n c o → told Q' h' n c o.
Proof.
  intros Hs Hr HQ (t & l & Ht & Hc & Hd). exists t, l. split_and!; [|by eapply committed_any, Hc; [apply Hs|]|by eapply deserved_mono, Hd].
  pose proof (term_run _ _ n Hr). lia.
Qed.

(** The member that moved is a leader that may count itself first. *)
Lemma self_ack_step h n : sound h → n ∈ group → p_role (peer h n) = Leader → spec_step mems h n (self_acked h n).
Proof.
  intros Hs Hn Hr. destruct (leader_commit_ok h n Hs Hr) as [HL _].
  apply (spec_ack _ _ _ n (p_log (peer h n))); [by apply elem_of_mems|done|done].
Qed.

Lemma self_ack_world h w n :
  world_ok h w → n ∈ group → role (actors w n) = Leader → spec_any mems h (self_acked h n) ∧ world_ok (self_acked h n) w.
Proof.
  intros W Hn Hr. pose proof (wo_sound _ _ W) as Hs. pose proof (serving_healthy h w n W (leader_serving h w n W Hn Hr)) as Hh.
  assert (Hpr : p_role (peer h n) = Leader) by (destruct Hh as (_ & Hv & _); by rewrite <- (vo_role _ _ _ Hv)).
  pose proof (self_ack_step h n Hs Hn Hpr) as Hstep. pose proof (spec_step_extends _ _ _ _ (so_inv _ Hs) Hstep) as E.
  split; [by exists n|]. constructor.
  - split; [eapply spec_step_inv; [apply Hs|exact Hstep]|by apply (small_same h); [|apply Hs]].
  - intros m Hm. destruct (decide (n = m)) as [<-|Hne]; [|by eapply (node_extends n), (wo_nodes _ _ W m Hm)].
    destruct (wo_nodes _ _ W n Hn) as [[(Hf & Hv & s & d & Hst & Hsd & M & D) Hd]|(_ & Hrf & _)]; [|congruence].
    left. split; [|done]. split_and!; [done| |exists s, d; split_and!; [done|done|done|by destruct D; constructor]].
    apply (volatile_mono h (self_acked h n) n (actors w n) (state (actors w n))) in Hv; [by destruct Hv; constructor|done|done|done|done|done|apply Hv].
  - intros p Hp. by eapply (packet_mono n), (wo_net _ _ W p Hp).
Qed.

(** One member moves, the others stay as they are. *)
Definition moved (h : Hist) (w w' : World) (n : string) : Prop :=
  n ∈ group ∧ (∀ m, m ≠ n → actors w' m = actors w m) ∧ tells (asked w' n) h n (actors w n) (actors w' n).

Lemma moved_ran h w n os a more :
  world_ok h w → n ∈ group → (∀ Q, waits Q (actors w n) → is_faulty (actors w n) = true → silent (facing os (actors w n)) a) →
  (healthy h n (facing os (actors w n)) → tells (asked (ran w n a more) n) h n (facing os (actors w n)) a) →
  waits (asked (ran w n a more) n) (actors w n) → moved h w (ran w n a more) n.
Proof.
  intros W Hn Hf Hh Hw. split_and!; [done|by intros m Hne; simpl; rewrite fn_lookup_insert_ne|].
  assert (Ht : tells (asked (ran w n a more) n) h n (facing os (actors w n)) a).
  { destruct (wo_nodes _ _ W n Hn) as [[Hhe _]|(Hfa & _)]; [by apply Hh, facing_healthy|]. by apply silent_tells; [eapply Hf|]. }
  revert Ht. generalize (asked (ran w n a more) n). intros Q Ht. simpl. rewrite fn_lookup_insert. exact Ht.
Qed.

Lemma reply_backed Q h n rpc r rtt msg : reply_msg rtt rpc r = Some msg → msg_ok h n msg → backed Q h n msg.
Proof. destruct rpc; simpl; [repeat case_match; try done|..]; by intros [= <-]. Qed.

Lemma rpc_backed Q h n rpc : backed Q h n (rpc_msg rpc).
Proof. by destruct rpc. Qed.

Lemma step_moves h w w' : reachable w → world_ok h w → all_told h w → cluster_step w w' → ∃ n, moved h w w' n.
Proof.
  intros Hreach W T Hstep. pose proof (wo_sound _ _ W) as Hs.
  assert (Hwait : ∀ n, n ∈ group → waits (asked w' n) (actors w n)).
  { intros n Hn. eapply waits_mono, (T n Hn). intros c x. by apply asked_mono, rtc_once. }
  assert (Hmsg : ∀ n e os msg more w1, w1 = ran w n (handle e msg (facing os (actors w n))).1 more → n ∈ group →
    waits (asked w1 n) (actors w n) → backed (asked w1 n) h n msg → moved h w w1 n).
  { intros n e os msg more w1 -> Hn Hw Hb. apply (moved_ran h w n os); [done|done|intros Q _ Hf; by apply faulted_silent| |done].
    intros Hh. by apply handle_tells. }
  destruct Hstep.
  - exists n. specialize (Hwait n Hn). apply (moved_ran h w n os); [done|done|intros Q _ Hf| |done].
    + unfold on_tick. by rewrite (Hf : is_faulty (facing os (actors w n)) = true).
    + intros Hh. apply silent_tells; [by eapply on_tick_silent|done].
  - exists n. eapply Hmsg; [done|done|by apply Hwait|]. intros x Hx. exists command. split; [|done].
    exists w, e, os. split_and!; [done|by apply cluster_propose|apply rtc_refl].
  - destruct (wo_net _ _ W _ Hin) as [Hc Hok]. pose proof (rpc_to_member _ _ _ Hok) as Hn. exists (rpc_to rpc).
    eapply Hmsg; [done|done|by apply Hwait|apply rpc_backed].
  - destruct (wo_net _ _ W _ Hin) as (Hc & Hok & Hr). exists c. eapply Hmsg; [done|done|by apply Hwait|].
    eapply reply_backed; [done|]. by eapply (reply_msg_ok h c rpc (Some r)).
  - destruct (wo_net _ _ W _ Hin) as [Hc Hok]. exists c. eapply Hmsg; [done|done|by apply Hwait|].
    eapply reply_backed; [done|]. by eapply (reply_msg_ok h c rpc None).
  - exists n. destruct (boot_mute e shard n (others n) t nanos (with_outcomes (disks w n) os)) as [Hp Hc]. fold r in Hp, Hc.
    split_and!; [done|by intros m Hne; simpl; rewrite fn_lookup_insert_ne|]. generalize (asked (after w n r.1 r.2 []) n). intros Q. simpl.
    rewrite fn_lookup_insert. split; [by apply waits_none|]. intros c o. change (confirmed (set_outbox [] r.1)) with (confirmed r.1). rewrite Hc.
    by intros Hin%not_elem_of_nil.
Qed.

Lemma told_step h w w' :
  reachable w → world_ok h w → all_told h w → cluster_step w w' → ∃ h', rtc (spec_any mems) h h' ∧ world_ok h' w' ∧ all_told h' w'.
Proof.
  intros Hreach W T Hstep. pose proof (wo_sound _ _ W) as Hs. destruct (step_moves h w w' Hreach W T Hstep) as (n & Hn & Hsame & Hw & Ht).
  assert (Hpre : ∃ h0, rtc (spec_any mems) h h0 ∧ world_ok h0 w ∧ (role (actors w n) = Leader → h0 = self_acked h n)).
  { destruct (decide (role (actors w n) = Leader)) as [Hr|Hr]; [|by exists h; split_and!; [apply rtc_refl|done|]].
    destruct (self_ack_world h w n W Hn Hr) as [Hst W0]. exists (self_acked h n). split_and!; [by apply rtc_once|done|done]. }
  destruct Hpre as (h0 & Hr0 & W0 & Hlead). destruct (step_ok h0 w w' W0 Hstep) as (m & h' & Hm & W'). apply moves_spec in Hm.
  assert (Hrun : rtc (spec_any mems) h h') by (by etrans). exists h'. split_and!; [done|done|]. intros k Hk.
  assert (Hold : ∀ c o, (c, o) ∈ confirmed (actors w k) → told (asked w' k) h' k c o).
  { intros c o Hin. eapply told_mono; [exact Hs|exact Hrun| |by apply (T k Hk)]. intros c' x. by apply asked_mono, rtc_once. }
  destruct (decide (k = n)) as [->|Hne].
  - split; [done|]. intros c o Hin. destruct (Ht c o Hin) as [?|[Hr Hnew]]; [by apply Hold|]. rewrite <- (Hlead Hr) in Hnew.
    eapply told_mono; [apply W0|exact Hm|done|exact Hnew].
  - rewrite (Hsame k Hne). split; [|done]. eapply waits_mono, (T k Hk). intros c x. by apply asked_mono, rtc_once.
Qed.

Lemma told_run w : reachable w → ∃ h, world_ok h w ∧ all_told h w.
Proof.
  intros (w0 & Hfresh & Hrun). revert w Hrun.
  assert (Hgen : ∀ w, rtc cluster_step w0 w → reachable w ∧ ∃ h, world_ok h w ∧ all_told h w); [|intros w Hw; by apply Hgen].
  apply rtc_ind_r.
  - split; [exists w0; split; [done|apply rtc_refl]|]. exists initial_hist. split; [by apply fresh_ok|]. intros n _.
    destruct (proj2 Hfresh n) as (_ & _ & _ & _ & _ & Hp & Ha). split; [by apply waits_none|]. unfold confirmed. rewrite Ha.
    by intros c o Hin%not_elem_of_nil.
  - intros w1 w2 Hr Hstep [Hreach (h & W & T)]. split; [exists w0; split; [done|by eapply rtc_r]|].
    destruct (told_step h w1 w2 Hreach W T Hstep) as (h' & _ & W' & T'). by exists h'.
Qed.

(** ** What an acknowledgement is worth *)

Lemma confirmed_answers a c o : (c, Ok o) ∈ answers a → (c, o) ∈ confirmed a.
Proof. intros Hin. apply list_elem_of_omap. by exists (c, Ok o). Qed.

Lemma prefix_shorter {A} (l1 l2 l3 : list A) :
  l1 `prefix_of` l2 → l3 `prefix_of` l2 ∨ l2 `prefix_of` l3 → (length l1 ≤ length l3)%nat → l1 `prefix_of` l3.
Proof. intros Hp [Hq|Hq] Hlen; [|by etrans]. destruct (prefix_weak_total _ _ _ Hp Hq) as [?|Hq']; [done|]. by rewrite (prefix_length_eq _ _ Hq' Hlen). Qed.

(** The entry is in its place in this log, as long as the member keeps it. *)
Lemma held_is h n a before x y :
  sound h → healthy h n a → (before ++ [x]) `prefix_of` p_log (peer h n) → y ∈ log a → e_index y = Z.of_nat (length before) + 1 → y = x.
Proof.
  intros Hs Hh Hpre Hy Ey. destruct (held_entry h n a y Hs Hh Hy) as (k & Hk & Ek). assert (k = length before) as -> by lia.
  assert (Hx : (before ++ [x]) !! length before = Some x) by (by rewrite lookup_app_r, Nat.sub_diag by lia).
  rewrite (prefix_lookup_Some _ _ _ _ Hx Hpre) in Hk. by injection Hk.
Qed.

End acks.

(** What the client of the lock "k" is told. *)
Definition lock_granted : ProposeOutcome :=
  mkOutcome 0 3 1 (JObj [("acquired", JBool true); ("queued", JBool false); ("keys", JArr [JStr "k"]); ("holder", JStr "h");
    ("fencing_token", JNum 1); ("lease_expires_ms", JNum 458); ("revision", JNum 1)]).

