(* ===== verification/RaftDivergence.v ===== *)
(** A run in which two members commit different entries.

    The theorems about the group ask, of every delivered AppendEntries, that the
    commit index the follower adopts stays within the entries the request carries
    (or that the follower's log ends in the leader's term).  The code does not
    ensure it: it bounds the leader's commit index by the end of the follower's
    own log, which may hold a stale suffix.  This file runs the model without
    that condition. *)

From stdpp Require Import functions.
From S2P Require Import Prelude Json Text Cancellation Command StateMachine Snapshot RaftTypes RaftSpec RaftConfig RaftCallback Persist ShardActor RaftCoupling RaftCluster RaftMachine RaftExample.

#[local] Instance triple_group : Group.
Proof. refine {| group := ["a"; "b"; "c"] |}; [|simpl; lia]. apply (bool_decide_unpack _). by vm_compute. Defined.

(** One entry per batch: the smallest batch the configuration allows. *)
Definition narrow_ms (t : Z) : Env := mkEnv (from_millis t) t 1 1000.
Definition plain (t : Z) (event : Event) : Env * list Outcome * Event := (narrow_ms t, [], event).

Definition triple_world : World :=
  mkWorld (λ n, quarantined (narrow_ms 0) 0 n (others n) pair_timing 1 "not started") (λ _, empty_disk) [].


(** "c" leads term 2: "a" receives its first entry, but no acknowledgement
    arrives, and the second entry stays on "c". *)
Definition first_term : list (Env * list Outcome * Event) :=
  [plain 1 (Restart "a" pair_timing); plain 1 (Restart "b" pair_timing); plain 1 (Restart "c" pair_timing);
   plain 400 (Tick "c"); plain 401 (Deliver 1); plain 402 (Deliver 2); plain 403 (Deliver 3); plain 404 (Propose "c" (KvDelete "x") 1)].

(** "a" leads term 3 and commits its entry of index 2 with "b". *)
Definition second_term : list (Env * list Outcome * Event) :=
  [plain 900 (Tick "a"); plain 901 (Deliver 6); plain 902 (Deliver 8); plain 903 (Deliver 9); plain 904 (Deliver 11);
   plain 1000 (Tick "a"); plain 1001 (Deliver 12); plain 1002 (Deliver 13); plain 1003 (Deliver 14); plain 1004 (Deliver 15)].

(** A write of "c" fails; its refusal makes "a" start over at index 1; "c"
    restarts and receives one entry it already has, with commit index 2. *)
Definition rewound : list (Env * list Outcome * Event) :=
  [(narrow_ms 1005, [Failed 0], Deliver 10); plain 1006 (Deliver 16); plain 1007 (Restart "c" pair_timing); plain 1101 (Deliver 18)].

Definition w_diverged : World := default triple_world (exec_all false triple_world (first_term ++ second_term ++ rewound)).

