(* ===== verification/RaftService.v ===== *)
(** The replicated service: the coordination state machine on the Raft group.
    What the state machine guarantees for one log, the members guarantee together
    and over time, because they apply prefixes of one log. *)

From stdpp Require Import functions.
From S2P Require Import Prelude Json Text Cancellation Locks Command StateMachine Authority MachineTheorems Validate Snapshot RaftTypes RaftSpec RaftConfig RaftCallback Persist PersistTheorems ShardActor RaftCoupling RaftMethods RaftLeading RaftFollowing RaftCluster RaftMachine RaftExample RaftTheorems.

Section applied.
Context `{DiskFormat, !DiskLaws, Machine, !MachineLaws, Wire, Group}.

(** A member that applied as much, now or later, applied the same entries first. *)
Lemma applied_prefix w w' n m :
  reachable w → rtc cluster_step w w' → serving w n → serving w' m → last_applied (actors w n) ≤ last_applied (actors w' m) →
  ∃ l1 l2, state (actors w n) = replay l1 ∧ state (actors w' m) = replay (l1 ++ l2).
Proof.
  intros Hreach Hrun Hn Hm Hle. destruct (reachable_ok w Hreach) as (h & _ & W). destruct (run_ok h w w' W Hrun) as (h' & Hr & W').
  pose proof (wo_sound _ _ W) as Hs. pose proof (wo_sound _ _ W') as Hs'. pose proof (so_inv _ Hs) as I. pose proof (so_inv _ Hs') as I'.
  pose proof (serving_healthy h w n W Hn) as Hh. pose proof (serving_healthy h' w' m W' Hm) as Hh'.
  pose proof Hh as (_ & Hv & _). pose proof Hh' as (_ & Hv' & _).
  rewrite (vo_applied _ _ _ Hv), (vo_applied _ _ _ Hv'), (vw_commit _ _ _ (healthy_view _ _ _ Hs Hh)), (vw_commit _ _ _ (healthy_view _ _ _ Hs' Hh')) in Hle.
  rewrite (vo_state _ _ _ Hv), (vo_state _ _ _ Hv').
  set (l1 := take (p_commit (peer h n)) (p_log (peer h n))). set (l := take (p_commit (peer h' m)) (p_log (peer h' m))).
  enough (Hpre : l1 `prefix_of` l) by (destruct Hpre as [l2 ->]; eauto).
  destruct (si_commit _ _ I n) as [Hcl Hc]. destruct (si_commit _ _ I' m) as [Hcl' Hc']. fold l1 in Hc. fold l in Hc'.
  assert (Hlen : (length l1 ≤ length l)%nat) by (unfold l1, l; rewrite !length_take; lia).
  destruct Hc as [E|(t & _ & Hc)]; [unfold l1; rewrite E; apply prefix_nil|].
  destruct Hc' as [E|(t' & _ & Hc')].
  { unfold l in Hlen. rewrite E in Hlen. simpl in Hlen. destruct l1; [apply prefix_nil|simpl in Hlen; lia]. }
  apply (committed_any h h' _ _ I Hr) in Hc.
  destruct (committed_comparable mems h' _ _ _ _ I' Hc Hc') as [Hp|Hp]; [done|].
  assert (l = l1) as ->; [|done]. by apply prefix_length_eq.
Qed.

Lemma applied_some w n : reachable w → serving w n → ∃ l, state (actors w n) = replay l.
Proof.
  intros Hreach Hn. destruct (applied_prefix w w n n Hreach (rtc_refl _ _) Hn Hn) as (l & _ & E & _); [done|]. by exists l.
Qed.
End applied.

Section service.
Context `{DiskFormat, !DiskLaws, External, HashOrder, Serde, !SerdeLaws, Wire, Group}.

(** The commands of a log with the times their leaders stamped. *)
Definition commands (l : list LogEntry) : list (Command * Z) :=
  omap (λ x, (λ c, (c, e_proposed_at_ms x)) <$> e_command x) l.

Lemma commands_app l1 l2 : commands (l1 ++ l2) = commands l1 ++ commands l2.
Proof. apply omap_app. Qed.

Lemma replay_from l : ∀ st, foldl replay_entry st l = apply_log st (commands l).
Proof.
  induction l as [|x l IH]; intros st; [done|]. cbn [foldl commands omap list_omap]. rewrite IH.
  unfold replay_entry. by destruct (e_command x).
Qed.

Lemma replay_commands l : replay l = apply_log inhabitant (commands l).
Proof. apply replay_from. Qed.

(** Mutual exclusion on every replica: in every run of the group, at every
    member that serves, no two lock grants share a key, and the index of held keys
    and the grants agree. *)
Theorem replicated_locks_exclusive (w : World) (n : string) (Hreach : reachable w) (Hn : serving w n) :
  let m := lock_table (state (actors w n)) in
  (∀ t1 t2 g1 g2 k, grants m !! t1 = Some g1 → grants m !! t2 = Some g2 → k ∈ g_keys g1 → k ∈ g_keys g2 → t1 = t2 ∧ g1 = g2) ∧
  (∀ k t, held m !! k = Some t ↔ ∃ g, grants m !! t = Some g ∧ k ∈ g_keys g).
Proof.
  destruct (applied_some w n Hreach Hn) as [l ->]. rewrite replay_commands. intros m.
  pose proof (locks_exclusive (commands l)) as (E1 & E2 & _). done.
Qed.

End service.

(** ** The service at a run *)

Lemma replicated_locks_exclusive_witness :
  let m := lock_table (state (actors w_second "a")) in
  is_Some (held m !! "k") ∧ is_Some (held m !! "l") ∧ held m !! "k" ≠ held m !! "l" ∧
  (∀ k t, held m !! k = Some t ↔ ∃ g, grants m !! t = Some g ∧ k ∈ g_keys g).
Proof.
  split; [member|]. split; [member|]. split; [vm_compute; discriminate|].
  apply (replicated_locks_exclusive w_second "a"); [apply run_reachable|serves].
Defined.

