(* ===== verification/Reads.v ===== *)
(** Reads of src/consensus.rs: the requests, their routing, the gates of
    [handle_query], the serializable [handle_query_local], and [status].  A
    read looks at the applied store of one shard at the clock of the serving
    node and changes nothing. *)

From S2P Require Import Prelude Json Text Fencing Cancellation Locks Semaphores Registers Barriers Tasks Effects Handoffs Decisions Budgets Claims Idempotency Elections Services RateLimit Schedules Command StateMachine Validate Snapshot Views RaftTypes RaftConfig RaftCallback Persist ShardActor RaftCoupling RaftMachine.

(** ** Requests *)

Inductive ReadRequest : Type :=
| ReadKv (key : string)
| ReadKvPrefix (prefix : string)
| ReadCounter (key : string)
| ReadBarrier (name : string)
| ReadTask (name : string)
| ReadEffect (name : string)
| ReadHandoff (name : string)
| ReadDecision (name : string)
| ReadBudget (name : string)
| ReadClaim (name : string)
| ReadLock (key : string)
| ReadSemaphore (key : string)
| ReadRateLimit (tenant key : string)
| ReadIdempotency (key : string)
| ReadSchedule (name : string)
| ReadScheduleHistory (name : string)
| ReadElection (name : string)
| ReadService (service : string)
| ReadKvList (prefix : string)
| ReadServiceList
| ReadScheduleList
| ReadLockInventory
| ReadSemaphoreInventory
| ReadElectionList.

Definition read_routing_key `{Routing} (request : ReadRequest) : string :=
  match request with
  | ReadKv key | ReadKvPrefix key | ReadCounter key => key
  | ReadBarrier name | ReadTask name | ReadEffect name | ReadHandoff name | ReadDecision name | ReadBudget name
  | ReadClaim name => name
  | ReadLock _ | ReadSemaphore _ => LOCK_DOMAIN
  | ReadRateLimit _ key | ReadIdempotency key => key
  | ReadSchedule name | ReadScheduleHistory name | ReadElection name => name
  | ReadService _ => SERVICE_DOMAIN
  | ReadLockInventory | ReadSemaphoreInventory => LOCK_DOMAIN
  | ReadKvList prefix => prefix
  | ReadServiceList | ReadScheduleList | ReadElectionList => ""
  end.

Inductive ReadResponse : Type :=
| GotKv (r : option KvEntry)
| GotKvPrefix (r : list (string * KvEntry))
| GotCounter (r : option CounterEntry)
| GotBarrier (r : option BarrierState)
| GotTask (r : option Value)
| GotEffect (r : option Value)
| GotHandoff (r : option Value)
| GotDecision (r : option Value)
| GotBudget (r : option Value)
| GotClaim (r : option Value)
| GotLock (r : LockState)
| GotSemaphore (r : SemaphoreState)
| GotRateLimit (r : option Value)
| GotIdempotency (r : option IdempotencyRecord)
| GotSchedule (r : option Schedule)
| GotScheduleHistory (r : list ScheduleRun)
| GotElection (r : option Leadership)
| GotService (r : list ServiceInstance)
| GotKvList (r : list (string * KvEntry))
| GotServiceList (r : list (string * nat))
| GotScheduleList (r : list Schedule)
| GotLockInventory (r : LockInventory)
| GotSemaphoreInventory (r : list SemaphoreState)
| GotElectionList (r : list (string * Leadership)).

(** ** The getters of [StateMachine] *)

Definition counter_get (st : Store) (key : string) : option CounterEntry := counters st !! key.
Definition barrier_get (st : Store) (now : Z) (name : string) : option BarrierState :=
  (λ r, barrier_view r name now) <$> barriers st !! name.
Definition task_get (st : Store) (name : string) : option Value := (λ r, task_view r name) <$> tasks st !! name.
Definition effect_get (st : Store) (name : string) : option Value := (λ r, effect_view r name) <$> effects st !! name.
Definition handoff_get (st : Store) (now : Z) (name : string) : option Value :=
  (λ r, handoff_view r name now) <$> handoffs st !! name.
Definition decision_get (st : Store) (now : Z) (name : string) : option Value :=
  (λ r, decision_view r name now) <$> decisions st !! name.
Definition budget_get (st : Store) (name : string) : option Value := (λ r, budget_view r name) <$> budgets st !! name.
Definition claim_get (st : Store) (name : string) : option Value := (λ r, claim_view r name) <$> claims st !! name.
Definition lock_get (st : Store) (now : Z) (key : string) : LockState := lock_snapshot_live_at (lock_table st) key now.
Definition semaphore_get (st : Store) (now : Z) (key : string) : SemaphoreState :=
  semaphore_snapshot_live_at (semaphore_table st) key now.
Definition rate_limit_get (st : Store) (tenant key : string) : option Value :=
  rate_limit_snapshot (rate_limits st) tenant key.
Definition schedule_get (st : Store) (name : string) : option Schedule := definition <$> schedules st !! name.
Definition schedule_history (st : Store) (name : string) : list ScheduleRun := default [] (history <$> schedules st !! name).

Definition schedule_le (a b : Schedule) : Prop := String.le (sch_name a) (sch_name b).
#[export] Instance schedule_le_dec : RelDecision schedule_le.
Proof. intros a b. unfold schedule_le. apply _. Defined.

Section getters.
Context `{HashOrder}.

(** The values of a [HashMap], in its iteration order. *)
Definition hash_entries {V} (m : gmap string V) : list (string * V) := omap (λ k, (k,.) <$> m !! k) (hash_keys m).

Definition schedule_list (st : Store) : list Schedule :=
  merge_sort schedule_le ((λ e, definition e.2) <$> hash_entries (schedules st)).

Definition kv_list (st : Store) (now : Z) (prefix : string) : list (string * KvEntry) :=
  filter (λ ke, String.prefix prefix ke.1 && kv_live now ke.2 = true) (hash_entries (kv st)).

Definition lock_inventory (st : Store) (now : Z) : LockInventory := lock_inventory_live_at (lock_table st) now.
Definition semaphore_inventory (st : Store) (now : Z) : list SemaphoreState :=
  semaphore_inventory_live_at (semaphore_table st) now.
Definition election_inventory (st : Store) (now : Z) : list (string * Leadership) :=
  election_inventory_live_at (elections st) now.

(** [handle_query_local]: the answer off applied state, without a gate. *)
Definition read_local (st : Store) (now : Z) (request : ReadRequest) : ReadResponse :=
  match request with
  | ReadKvList prefix => GotKvList (kv_list st now prefix)
  | ReadServiceList => GotServiceList (service_names (services st) now)
  | ReadScheduleList => GotScheduleList (schedule_list st)
  | ReadElectionList => GotElectionList (election_inventory st now)
  | ReadLockInventory => GotLockInventory (lock_inventory st now)
  | ReadSemaphoreInventory => GotSemaphoreInventory (semaphore_inventory st now)
  | ReadKv key => GotKv (kv_get (kv st) now key)
  | ReadCounter key => GotCounter (counter_get st key)
  | ReadBarrier name => GotBarrier (barrier_get st now name)
  | ReadTask name => GotTask (task_get st name)
  | ReadEffect name => GotEffect (effect_get st name)
  | ReadHandoff name => GotHandoff (handoff_get st now name)
  | ReadDecision name => GotDecision (decision_get st now name)
  | ReadBudget name => GotBudget (budget_get st name)
  | ReadClaim name => GotClaim (claim_get st name)
  | ReadLock key => GotLock (lock_get st now key)
  | ReadSemaphore key => GotSemaphore (semaphore_get st now key)
  | ReadRateLimit tenant key => GotRateLimit (rate_limit_get st tenant key)
  | ReadSchedule name => GotSchedule (schedule_get st name)
  | ReadScheduleHistory name => GotScheduleHistory (schedule_history st name)
  | ReadElection name => GotElection (election_get (elections st) now name)
  | ReadService service => GotService (service_list (services st) now service)
  | ReadKvPrefix prefix => GotKvPrefix (kv_prefix (kv st) now prefix)
  | ReadIdempotency key => GotIdempotency (idempotency_get (idempotency st) now key)
  end.
End getters.

(** ** The gates *)

Definition is_prefix_read (request : ReadRequest) : bool := match request with ReadKvPrefix _ => true | _ => false end.
Definition is_list_read (request : ReadRequest) : bool :=
  match request with ReadKvPrefix _ | ReadKvList _ | ReadServiceList | ReadScheduleList | ReadElectionList => true | _ => false end.

Section reads.
Context `{DiskFormat, External, HashOrder, Serde, Wire}.

Definition handle_query_local (e : Env) (request : ReadRequest) (a : ShardActor) : ReadResponse :=
  read_local (state a) (wall_ms e) request.

Definition handle_query (e : Env) (request : ReadRequest) (a : ShardActor) : result ReadResponse ProposeError :=
  if is_faulty a then Err (Unavailable (shard_id a))
  else if negb (is_prefix_read request) && negb (bool_decide (role a = Leader)) then Err (NotLeader (shard_id a) (leader_id a))
  else if negb (is_list_read request) && negb (leader_lease_held e a) then Err (Unavailable (shard_id a))
  else
    let st := state a in
    let now := wall_ms e in
    match request with
    | ReadKv key => Ok (GotKv (kv_get (kv st) now key))
    | ReadKvPrefix prefix => Ok (GotKvPrefix (kv_prefix (kv st) now prefix))
    | ReadCounter key => Ok (GotCounter (counter_get st key))
    | ReadBarrier name => Ok (GotBarrier (barrier_get st now name))
    | ReadTask name => Ok (GotTask (task_get st name))
    | ReadEffect name => Ok (GotEffect (effect_get st name))
    | ReadHandoff name => Ok (GotHandoff (handoff_get st now name))
    | ReadDecision name => Ok (GotDecision (decision_get st now name))
    | ReadBudget name => Ok (GotBudget (budget_get st name))
    | ReadClaim name => Ok (GotClaim (claim_get st name))
    | ReadLock key => Ok (GotLock (lock_get st now key))
    | ReadSemaphore key => Ok (GotSemaphore (semaphore_get st now key))
    | ReadRateLimit tenant key => Ok (GotRateLimit (rate_limit_get st tenant key))
    | ReadIdempotency key => Ok (GotIdempotency (idempotency_get (idempotency st) now key))
    | ReadSchedule name => Ok (GotSchedule (schedule_get st name))
    | ReadScheduleHistory name => Ok (GotScheduleHistory (schedule_history st name))
    | ReadElection name => Ok (GotElection (election_get (elections st) now name))
    | ReadService service => Ok (GotService (service_list (services st) now service))
    | ReadLockInventory => Ok (GotLockInventory (lock_inventory st now))
    | ReadSemaphoreInventory => Ok (GotSemaphoreInventory (semaphore_inventory st now))
    | ReadKvList _ | ReadServiceList | ReadScheduleList | ReadElectionList => Ok (handle_query_local e request a)
    end.

(** An authoritative read answers what a local read would, or why not. *)
Lemma handle_query_spec e request a :
  handle_query e request a =
    if is_faulty a then Err (Unavailable (shard_id a))
    else if is_prefix_read request then Ok (handle_query_local e request a)
    else if bool_decide (role a ≠ Leader) then Err (NotLeader (shard_id a) (leader_id a))
    else if is_list_read request || leader_lease_held e a then Ok (handle_query_local e request a)
    else Err (Unavailable (shard_id a)).
Proof.
  unfold handle_query. destruct (is_faulty a); [done|].
  destruct (is_prefix_read request) eqn:Ep; simpl; [by destruct request|].
  destruct (decide (role a = Leader)) as [Hl|Hl].
  - rewrite bool_decide_true, bool_decide_false by naive_solver. simpl.
    destruct (is_list_read request) eqn:El; simpl; [by destruct request|].
    destruct (leader_lease_held e a); simpl; [by destruct request|done].
  - by rewrite bool_decide_false, bool_decide_true by done.
Qed.

(** A shard quarantined at boot refuses authoritative reads, but its empty
    state answers local ones, so a merged listing misses its keys silently. *)
Lemma quarantined_reads e e' shard id peers_ t nanos reason request prefix :
  handle_query e' request (quarantined e shard id peers_ t nanos reason) = Err (Unavailable shard) ∧
  handle_query_local e' (ReadKvList prefix) (quarantined e shard id peers_ t nanos reason) = GotKvList [].
Proof.
  unfold quarantined, reset_election_deadline. destruct (below _ _) as [jitter r]. split; [by rewrite handle_query_spec|].
  unfold handle_query_local. simpl. f_equal.
  unfold kv_list, hash_entries. simpl. unfold hash_keys, map_keys. rewrite map_to_list_empty. simpl.
  assert (hash_order [] = []) as ->; [|done]. apply Permutation_nil. symmetry. apply hash_order_perm.
Qed.

(** ** Status *)

Record PeerReplication : Type := mkPeerReplication {
  pr_peer : string;
  pr_match_index : Z;
  pr_lag : Z;
  pr_in_flight : bool;
  pr_command_protocol : Z
}.

Record ShardStatus : Type := mkShardStatus {
  st_shard_id : Z;
  st_role : Role;
  st_term : Z;
  st_leader_id : option string;
  st_commit_index : Z;
  st_last_applied : Z;
  st_last_log_index : Z;
  st_snapshot_index : Z;
  st_retained_log_entries : nat;
  st_storage_healthy : bool;
  st_storage_error : option string;
  st_parser_command_protocol : Z;
  st_active_command_protocol : Z;
  st_healthy_replicas : nat;
  st_has_quorum : bool;
  st_replication : list PeerReplication;
  st_metrics : ShardMetrics
}.

Definition replication_of (a : ShardActor) (ls : LeaderState) (peer : string) : PeerReplication :=
  let matched := default 0 (match_index ls !! peer) in
  mkPeerReplication peer matched (sat_sub (last_log_index a) matched) (default false (in_flight ls !! peer)) (protocol_of ls peer).

Definition peer_le (a b : PeerReplication) : Prop := String.le (pr_peer a) (pr_peer b).
#[export] Instance peer_le_dec : RelDecision peer_le.
Proof. intros a b. unfold peer_le. apply _. Defined.

(** Replicas that hold everything committed, this one included. *)
Definition caught_up (a : ShardActor) (ls : LeaderState) : nat :=
  1 + length (List.filter (λ peer, commit_index a <=? default 0 (match_index ls !! peer)) (peers a)).

Definition replication_view (a : ShardActor) : list PeerReplication * nat * bool :=
  if bool_decide (role a = Leader) then
    match leader a with
    | Some ls =>
        (merge_sort peer_le (replication_of a ls <$> peers a), caught_up a ls, Nat.leb (majority a) (caught_up a ls))
    | None => ([], 1%nat, Nat.leb (majority a) 1)
    end
  else ([], 0%nat, false).

Definition status (a : ShardActor) : ShardStatus :=
  let '(replication, healthy_replicas, has_quorum) := replication_view a in
  mkShardStatus (shard_id a) (role a) (current_term a) (leader_id a) (commit_index a) (last_applied a) (last_log_index a)
    (snapshot_index a) (length (log a)) (negb (is_faulty a)) (storage_fault a) CURRENT_COMMAND_PROTOCOL
    (command_protocol (state a)) healthy_replicas has_quorum replication (metrics a).
End reads.
