(* ===== verification/Sharding.v ===== *)
(** Sharding by key: a command changes only what reads that route like it can
    see.  So the objects of a key live on one shard, the shard of its commands,
    and reads meet the writes they follow. *)

From S2P Require Import Prelude Json Text Fencing Cancellation Locks Semaphores Registers Barriers Tasks Effects Handoffs Decisions Budgets Claims Idempotency Elections Services RateLimit Schedules Command StateMachine Views Reads.

Section frame.
Context `{External, HashOrder, Routing}.

Ltac framed :=
  cbn -[lookup]; repeat (case_match; simplify_eq/=); rewrite ?lookup_insert_ne, ?lookup_delete_ne by done; try done.

Lemma dispatch_kv st revision now c key :
  routing_key c ≠ key → kv (dispatch st revision now c).1 !! key = kv st !! key.
Proof.
  intros Hne. destruct c; try reflexivity; simpl in Hne;
    [unfold dispatch, apply_activation|unfold dispatch, apply_kv_put|unfold dispatch, apply_kv_delete]; framed.
Qed.

Lemma dispatch_counters st revision now c key :
  routing_key c ≠ key → counters (dispatch st revision now c).1 !! key = counters st !! key.
Proof.
  intros Hne. destruct c; try reflexivity; simpl in Hne;
    unfold dispatch, apply_activation, apply_counter_add, apply_counter_set; framed.
Qed.

Lemma dispatch_barriers st revision now c key :
  routing_key c ≠ key → barriers (dispatch st revision now c).1 !! key = barriers st !! key.
Proof.
  intros Hne. destruct c; try reflexivity; simpl in Hne;
    unfold dispatch, apply_activation, apply_barrier_create, apply_barrier_arrive; framed.
Qed.

Lemma dispatch_tasks st revision now c key :
  routing_key c ≠ key → tasks (dispatch st revision now c).1 !! key = tasks st !! key.
Proof.
  intros Hne. destruct c; try reflexivity; simpl in Hne;
    unfold dispatch, apply_activation, apply_task_create, apply_task_claim, apply_task_progress, apply_task_complete, apply_task_fail, apply_task_cancel, task_fenced; framed.
Qed.

Lemma dispatch_effects st revision now c key :
  routing_key c ≠ key → effects (dispatch st revision now c).1 !! key = effects st !! key.
Proof.
  intros Hne. destruct c; try reflexivity; simpl in Hne;
    unfold dispatch, apply_activation, apply_effect_prepare, apply_effect_approve, apply_effect_commit, apply_effect_abort; framed.
Qed.

Lemma dispatch_handoffs st revision now c key :
  routing_key c ≠ key → handoffs (dispatch st revision now c).1 !! key = handoffs st !! key.
Proof.
  intros Hne. destruct c; try reflexivity; simpl in Hne;
    unfold dispatch, apply_activation, apply_handoff_offer, apply_handoff_accept, apply_handoff_reject; framed.
Qed.

Lemma dispatch_decisions st revision now c key :
  routing_key c ≠ key → decisions (dispatch st revision now c).1 !! key = decisions st !! key.
Proof.
  intros Hne. destruct c; try reflexivity; simpl in Hne;
    unfold dispatch, apply_activation, apply_decision_propose, apply_decision_vote; framed.
Qed.

Lemma dispatch_budgets st revision now c key :
  routing_key c ≠ key → budgets (dispatch st revision now c).1 !! key = budgets st !! key.
Proof.
  intros Hne. destruct c; try reflexivity; simpl in Hne;
    unfold dispatch, apply_activation, apply_budget_set, apply_budget_reserve, apply_budget_commit, apply_budget_release; framed.
Qed.

Lemma dispatch_claims st revision now c key :
  routing_key c ≠ key → claims (dispatch st revision now c).1 !! key = claims st !! key.
Proof.
  intros Hne. destruct c; try reflexivity; simpl in Hne;
    unfold dispatch, apply_activation, apply_claim_assert, apply_claim_support, apply_claim_contest, apply_claim_resolve, apply_claim_supersede, claim_open; framed.
Qed.

Lemma dispatch_idempotency st revision now c key :
  routing_key c ≠ key → idempotency (dispatch st revision now c).1 !! key = idempotency st !! key.
Proof.
  intros Hne. destruct c; try reflexivity; simpl in Hne;
    unfold dispatch, apply_activation, apply_idempotency_claim, apply_idempotency_complete, apply_idempotency_renew, apply_idempotency_abandon; framed.
Qed.

Lemma dispatch_elections st revision now c key :
  routing_key c ≠ key → elections (dispatch st revision now c).1 !! key = elections st !! key.
Proof.
  intros Hne. destruct c; try reflexivity; simpl in Hne;
    unfold dispatch, apply_activation, apply_election_campaign, apply_election_renew, apply_election_resign; framed.
Qed.

Lemma dispatch_schedules st revision now c key :
  routing_key c ≠ key → schedules (dispatch st revision now c).1 !! key = schedules st !! key.
Proof.
  intros Hne. destruct c; try reflexivity; simpl in Hne;
    unfold dispatch, apply_activation, apply_schedule_upsert, apply_schedule_record_run, apply_schedule_claim_fire, apply_schedule_record_result,
      apply_schedule_set_enabled, apply_schedule_delete, apply_schedule_trigger; framed.
Qed.

Lemma dispatch_rate_limits st revision now c tenant key :
  (∀ k t al li w rf co, c = RateLimitCheck k t al li w rf co → rate_limit_store_key t k ≠ rate_limit_store_key tenant key) →
  rate_limits (dispatch st revision now c).1 !! rate_limit_store_key tenant key = rate_limits st !! rate_limit_store_key tenant key.
Proof.
  intros Hne. destruct c; try reflexivity; unfold dispatch, apply_activation, apply_rate_limit_check.
  - framed.
  - specialize (Hne _ _ _ _ _ _ _ eq_refl). cbn [rc_tenant rc_key lift fst rate_limits set_rate_limits].
    destruct (match _ with TokenBucket => _ | SlidingWindow => _ end) as [[[[[? ?] ?] ?] ?] ?]. cbn [fst]. by rewrite lookup_insert_ne.
Qed.

Lemma dispatch_lock_tables st revision now c :
  routing_key c ≠ LOCK_DOMAIN →
  lock_table (dispatch st revision now c).1 = lock_table st ∧ semaphore_table (dispatch st revision now c).1 = semaphore_table st.
Proof. intros Hne. destruct c; try done. simpl. unfold apply_activation. by repeat case_match. Qed.

Lemma dispatch_services st revision now c :
  routing_key c ≠ SERVICE_DOMAIN → services (dispatch st revision now c).1 = services st.
Proof. intros Hne. destruct c; try done. simpl. unfold apply_activation. by repeat case_match. Qed.

(** ** The sweep hides nothing a later reader would be shown *)

Lemma prepare_fields st c ts :
  let st' := prepare st c ts in
  counters st' = counters st ∧ barriers st' = barriers st ∧ tasks st' = tasks st ∧ effects st' = effects st ∧
  handoffs st' = handoffs st ∧ decisions st' = decisions st ∧ budgets st' = budgets st ∧ claims st' = claims st ∧
  rate_limits st' = rate_limits st ∧ schedules st' = schedules st.
Proof. unfold prepare. by destruct (is_activation c). Qed.

Lemma swept_lookup {V} (P : V → bool) (Q : V → bool) (m : gmap string V) k :
  (∀ v, Q v = true → P v = true) →
  (v ← retain (λ _, P) m !! k; if Q v then Some v else None) = (v ← m !! k; if Q v then Some v else None).
Proof.
  intros HPQ. rewrite lookup_retain. destruct (m !! k) as [v|]; simpl; [|done].
  specialize (HPQ v). destruct (P v); simpl; [done|]. destruct (Q v); [by specialize (HPQ eq_refl)|done].
Qed.

Lemma swept_kv_get m ts now key : ts ≤ now → kv_get (kv_expire_due m ts) now key = kv_get m now key.
Proof.
  intros Hle. apply (swept_lookup (kv_live ts) (kv_live now)). intros e. unfold kv_live.
  destruct (kv_expires e); [|done]. simpl. lia.
Qed.

Lemma swept_election_get m ts now key : ts ≤ now → election_get (elections_expire_due m ts) now key = election_get m now key.
Proof. intros Hle. apply (swept_lookup (λ l, ts <? l_lease l) (λ l, now <? l_lease l)). intros l. lia. Qed.

Lemma swept_idempotency_get m ts now key :
  ts ≤ now → idempotency_get (idempotency_expire_due m ts) now key = idempotency_get m now key.
Proof. intros Hle. apply (swept_lookup (λ r, ts <? i_lease r) (λ r, now <? i_lease r)). intros l. lia. Qed.

Lemma filter_snd {A B} (P : B → Prop) `{!∀ x, Decision (P x)} (l : list (A * B)) : filter P l.*2 = (filter (λ e, P e.2) l).*2.
Proof. induction l as [|[a b] l IH]; [done|]. csimpl. rewrite !filter_cons, IH. simpl. by case_decide. Qed.

Lemma live_instances_retain ts now ins : ts ≤ now → live_instances now (retain (λ _ i, ts <? inst_lease i) ins) ≡ₚ live_instances now ins.
Proof.
  intros Hle. unfold live_instances. rewrite !filter_snd. apply fmap_Permutation, NoDup_Permutation;
    [apply NoDup_filter, NoDup_map_to_list..|]. intros [k i].
  rewrite !list_elem_of_filter, !elem_of_map_to_list, lookup_retain_Some. simpl. split; [intros (? & ? & _)|intros (? & ?)]; [done|].
  split_and!; [done|done|]. apply Z.ltb_lt. lia.
Qed.

Lemma service_list_sweep ss ts now service :
  ts ≤ now → service_list (services_expire_due ss ts) now service ≡ₚ service_list ss now service.
Proof.
  intros Hle. unfold service_list, services_expire_due. rewrite lookup_retain, lookup_fmap.
  destruct (ss !! service) as [ins|]; simpl; [|done]. case_match eqn:E; simpl; [by apply live_instances_retain|].
  apply negb_false_iff, bool_decide_eq_true in E. rewrite <- (live_instances_retain ts) by done. by rewrite E.
Qed.

(** ** Requests *)

(** A read of one object, or of the one coordinator. *)
Definition single (request : ReadRequest) : bool :=
  match request with
  | ReadKvPrefix _ | ReadKvList _ | ReadServiceList | ReadScheduleList | ReadElectionList => false
  | _ => true
  end.

(** Reads of what a sweep can promote. *)
Definition promoted (request : ReadRequest) : bool :=
  match request with ReadLock _ | ReadSemaphore _ | ReadLockInventory | ReadSemaphoreInventory => true | _ => false end.

(** Two limiters that share a bucket. *)
Definition same_bucket (c : Command) (request : ReadRequest) : bool :=
  match c, request with
  | RateLimitCheck key tenant _ _ _ _ _, ReadRateLimit tenant' key' =>
      String.eqb (rate_limit_store_key tenant key) (rate_limit_store_key tenant' key')
  | _, _ => false
  end.

(** Instances are listed in no particular order. *)
Definition same_answer (a b : ReadResponse) : Prop :=
  match a, b with
  | GotService x, GotService y => x ≡ₚ y
  | _, _ => a = b
  end.

#[export] Instance same_answer_equiv : Equivalence same_answer.
Proof.
  unfold same_answer. split.
  - by intros [].
  - intros [] [] E; solve [discriminate E | by symmetry].
  - intros [] b c E F; destruct b; try discriminate E; destruct c; solve [discriminate F | etrans; [exact E|exact F]].
Qed.

Lemma dispatch_answer st revision ts c now request :
  single request = true → routing_key c ≠ read_routing_key request → same_bucket c request = false →
  read_local (dispatch st revision ts c).1 now request = read_local st now request.
Proof.
  intros Hs Hne Hb. destruct request; try discriminate Hs; simpl in *; f_equal;
    unfold kv_get, counter_get, barrier_get, task_get, effect_get, handoff_get, decision_get, budget_get, claim_get, lock_get, semaphore_get,
      rate_limit_get, rate_limit_snapshot, idempotency_get, schedule_get, schedule_history, election_get, lock_inventory, semaphore_inventory, service_list;
    rewrite ?dispatch_kv, ?dispatch_counters, ?dispatch_barriers, ?dispatch_tasks, ?dispatch_effects, ?dispatch_handoffs, ?dispatch_decisions,
      ?dispatch_budgets, ?dispatch_claims, ?dispatch_idempotency, ?dispatch_schedules, ?dispatch_elections, ?dispatch_services by done; try done.
  all: try (destruct (dispatch_lock_tables st revision ts c Hne) as [El Es]; rewrite ?El, ?Es; done).
  rewrite dispatch_rate_limits; [done|]. intros k t al li w rf co ->. by apply String.eqb_neq in Hb.
Qed.

Lemma prepare_answer st c ts now request :
  single request = true → promoted request = false → ts ≤ now →
  same_answer (read_local (prepare st c ts) now request) (read_local st now request).
Proof.
  intros Hs Hp Hle. destruct (prepare_fields st c ts) as (E1 & E2 & E3 & E4 & E5 & E6 & E7 & E8 & E9 & E10).
  destruct request; try discriminate Hs; try discriminate Hp; simpl;
    unfold counter_get, barrier_get, task_get, effect_get, handoff_get, decision_get, budget_get, claim_get, rate_limit_get, schedule_get, schedule_history;
    rewrite ?E1, ?E2, ?E3, ?E4, ?E5, ?E6, ?E7, ?E8, ?E9, ?E10; try done;
    unfold prepare; destruct (is_activation c); try done; simpl.
  - f_equal. by apply swept_kv_get.
  - f_equal. by apply swept_idempotency_get.
  - f_equal. by apply swept_election_get.
  - by apply service_list_sweep.
Qed.


(** ** What a shard holds *)

(** Every listed object routes to a key of the shard. *)
Record owns (P : string → Prop) (st : Store) : Prop := {
  own_kv k : is_Some (kv st !! k) → P k;
  own_elections k : is_Some (elections st !! k) → P k;
  own_schedules k : is_Some (schedules st !! k) → P k;
  own_services k : is_Some (services st !! k) → P SERVICE_DOMAIN
}.

Lemma owned_revision P st v : owns P st → owns P (set_revision st v).
Proof. intros []. by constructor. Qed.
Lemma owned_protocol P st v : owns P st → owns P (set_protocol st v).
Proof. intros []. by constructor. Qed.

Lemma expire_owned P st ts : owns P st → owns P (expire_due st ts).
Proof.
  intros [Hk He Hs Hv]. constructor; intros k; unfold expire_due; simpl;
    unfold kv_expire_due, elections_expire_due, services_expire_due; rewrite ?lookup_retain, ?lookup_fmap; [| |apply Hs|].
  - specialize (Hk k). destruct (kv st !! k); [|by intros []]. intros _. by apply Hk.
  - specialize (He k). destruct (elections st !! k); [|by intros []]. intros _. by apply He.
  - specialize (Hv k). destruct (services st !! k); [|by intros []]. intros _. by apply Hv.
Qed.

Lemma dispatch_owned P st revision ts c : is_activation c = true ∨ P (routing_key c) → owns P st → owns P (dispatch st revision ts c).1.
Proof.
  intros Hc [Hk He Hs Hv]. destruct (is_activation c) eqn:Ea.
  { destruct c; try discriminate Ea. simpl. unfold apply_activation. repeat case_match; by constructor. }
  destruct Hc as [?|Hc]; [done|]. constructor; intros k Hsome.
  - destruct (decide (routing_key c = k)) as [<-|Hne]; [done|]. rewrite dispatch_kv in Hsome by done. eauto.
  - destruct (decide (routing_key c = k)) as [<-|Hne]; [done|]. rewrite dispatch_elections in Hsome by done. eauto.
  - destruct (decide (routing_key c = k)) as [<-|Hne]; [done|]. rewrite dispatch_schedules in Hsome by done. eauto.
  - destruct (decide (routing_key c = SERVICE_DOMAIN)) as [<-|Hne]; [done|]. rewrite dispatch_services in Hsome by done. eauto.
Qed.

Lemma apply_owned P st c ts : is_activation c = true ∨ P (routing_key c) → owns P st → owns P (apply_at st c ts).1.
Proof.
  intros Hc Ho. unfold apply_at. pose proof (dispatch_owned P (prepare st c ts) (revision (prepare st c ts)) ts c Hc) as Hd.
  destruct (dispatch _ _ _ _) as [st' out]. apply Hd. unfold prepare. destruct (is_activation c); [done|].
  apply owned_revision, expire_owned, owned_protocol, Ho.
Qed.

(** Commands proposed to the shard, and the activations of its leader. *)
Definition routed (P : string → Prop) (log : list (Command * Z)) : Prop :=
  Forall (λ e, is_activation e.1 = true ∨ P (routing_key e.1)) log.

Lemma log_owned P log : routed P log → owns P (apply_log inhabitant log).
Proof.
  unfold apply_log. assert (H0' : owns P inhabitant) by (constructor; by intros k [? ?]).
  revert H0'. generalize (inhabitant : Store) as st. induction log as [|e log IH]; intros st Ho; [done|].
  intros [He Hlog]%Forall_cons. simpl. apply IH; [|done]. by apply apply_owned.
Qed.
End frame.
