(* ===== verification/Metrics.v ===== *)
(** The latency and outcome metrics of src/metrics.rs.  Latencies are IEEE
    doubles. *)

From Stdlib Require Import SpecFloat.
From S2P Require Import Prelude RateLimit.

Definition BUCKET_BOUNDS_MS : list f64 := f64_of_Z <$> [1; 5; 25; 100; 500; 2000].

Record OpStat : Type := mkOpStat {
  os_count : Z;
  os_errors : Z;
  os_total_ms : f64;
  os_max_ms : f64;
  os_buckets : list Z
}.

Definition no_calls : OpStat := mkOpStat 0 0 (S754_zero false) (S754_zero false) (replicate (S (length BUCKET_BOUNDS_MS)) 0).

Abbreviation metrics_map := (gmap string OpStat).

(** [is_finite() && >= 0.0] *)
Definition sane_latency (elapsed_ms : f64) : f64 :=
  match elapsed_ms with
  | S754_zero _ | S754_finite _ _ _ => if SFleb (S754_zero false) elapsed_ms then elapsed_ms else S754_zero false
  | _ => S754_zero false
  end.

(** [position(..).unwrap_or(len)] *)
Fixpoint bucket_slot (bounds : list f64) (elapsed_ms : f64) : nat :=
  match bounds with
  | [] => 0
  | bound :: bounds => if SFleb elapsed_ms bound then 0 else S (bucket_slot bounds elapsed_ms)
  end.

Definition record_stat (stat : OpStat) (elapsed_ms : f64) (ok : bool) : OpStat :=
  let elapsed_ms := sane_latency elapsed_ms in
  mkOpStat (wrap_add (os_count stat) 1)
    (if ok then os_errors stat else wrap_add (os_errors stat) 1)
    (f64_add (os_total_ms stat) elapsed_ms)
    (if SFltb (os_max_ms stat) elapsed_ms then elapsed_ms else os_max_ms stat)
    (alter (λ n, wrap_add n 1) (bucket_slot BUCKET_BOUNDS_MS elapsed_ms) (os_buckets stat)).

Definition record (op : string) (elapsed_ms : f64) (ok : bool) (ops : metrics_map) : metrics_map :=
  <[op := record_stat (default no_calls (ops !! op)) elapsed_ms ok]> ops.

Record Bucket : Type := mkBucket {
  le_ms : option f64;
  bucket_count : Z
}.

Record OpMetrics : Type := mkOpMetrics {
  om_op : string;
  om_count : Z;
  om_errors : Z;
  om_avg_ms : f64;
  om_max_ms : f64;
  om_buckets : list Bucket
}.

(** The running sums of the bucket loop. *)
Fixpoint cumulate (cumulative : Z) (counts : list Z) (bounds : list (option f64)) : list Bucket :=
  match counts, bounds with
  | n :: counts, b :: bounds =>
      let cumulative := wrap_add cumulative n in mkBucket b cumulative :: cumulate cumulative counts bounds
  | _, _ => []
  end.

Definition op_metrics (op : string) (stat : OpStat) : OpMetrics :=
  mkOpMetrics op (os_count stat) (os_errors stat)
    (if 0 <? os_count stat then f64_div (os_total_ms stat) (f64_of_Z (os_count stat)) else S754_zero false)
    (os_max_ms stat) (cumulate 0 (os_buckets stat) ((Some <$> BUCKET_BOUNDS_MS) ++ [None])).

(** [Metrics::snapshot]: sorted by operation. *)
Definition snapshot (ops : metrics_map) : list OpMetrics := (λ e, op_metrics e.1 e.2) <$> btree_iter ops.

(** ** What the figures mean *)

Record Call : Type := mkCall { call_op : string; call_ms : f64; call_ok : bool }.

Definition recorded (calls : list Call) : metrics_map :=
  foldl (λ ops c, record (call_op c) (call_ms c) (call_ok c) ops) ∅ calls.

Definition slot_of (c : Call) : nat := bucket_slot BUCKET_BOUNDS_MS (sane_latency (call_ms c)).
Definition count_if (P : Call → Prop) `{!∀ c, Decision (P c)} (calls : list Call) : Z := Z.of_nat (length (filter P calls)).

(** The figures of an operation over its calls. *)
Definition tallies (calls : list Call) (stat : OpStat) : Prop :=
  os_count stat = Z.of_nat (length calls) ∧ os_errors stat = count_if (λ c, call_ok c = false) calls ∧
  os_buckets stat = (λ i, count_if (λ c, slot_of c = i) calls) <$> seq 0 7.

Lemma bucket_slot_le bounds x : (bucket_slot bounds x ≤ length bounds)%nat.
Proof. induction bounds; simpl; [lia|]. case_match; lia. Qed.

Lemma count_if_snoc (P : Call → Prop) `{!∀ c, Decision (P c)} calls c :
  count_if P (calls ++ [c]) = count_if P calls + (if decide (P c) then 1 else 0).
Proof. unfold count_if. rewrite filter_app, length_app, filter_cons. case_decide; simpl; lia. Qed.

Lemma count_if_le (P : Call → Prop) `{!∀ c, Decision (P c)} calls : 0 ≤ count_if P calls ≤ Z.of_nat (length calls).
Proof. unfold count_if. pose proof (length_filter P calls). lia. Qed.

Lemma wrap_add_exact x y : 0 ≤ x + y ≤ U64_MAX → wrap_add x y = x + y.
Proof. intros ?. unfold wrap_add, U64_MAX in *. apply Z.mod_small. lia. Qed.

Lemma record_stat_tallies calls c stat :
  Z.of_nat (length calls) < U64_MAX → tallies calls stat → tallies (calls ++ [c]) (record_stat stat (call_ms c) (call_ok c)).
Proof.
  intros Hlt (Hc & He & Hb). unfold tallies, record_stat. cbn [os_count os_errors os_buckets]. split_and!.
  - rewrite Hc, length_app. simpl. rewrite wrap_add_exact by lia. lia.
  - rewrite He, count_if_snoc. pose proof (count_if_le (λ c, call_ok c = false) calls).
    destruct (call_ok c); simpl; [lia|]. by rewrite wrap_add_exact by lia.
  - rewrite Hb. fold (slot_of c). apply list_eq. intros i. rewrite (list_lookup_fmap _ (seq 0 7)).
    destruct (decide (i = slot_of c)) as [->|Hne].
    + rewrite list_lookup_alter, list_lookup_fmap.
      assert (Hs : (slot_of c ≤ 6)%nat) by (apply (bucket_slot_le BUCKET_BOUNDS_MS)).
      rewrite !lookup_seq_lt by lia. simpl. rewrite count_if_snoc.
      pose proof (count_if_le (λ c', slot_of c' = slot_of c) calls). case_decide; [|done]. by rewrite wrap_add_exact by lia.
    + rewrite list_lookup_alter_ne, list_lookup_fmap by done. destruct (seq 0 7 !! i) as [j|] eqn:E; [|done]. simpl.
      apply lookup_seq in E as [-> _]. rewrite count_if_snoc. case_decide as Hd; [by rewrite Hd in Hne|]. by rewrite Z.add_0_r.
Qed.

Definition calls_of (op : string) (calls : list Call) : list Call := filter (λ c, call_op c = op) calls.

Lemma recorded_tallies calls op :
  Z.of_nat (length calls) ≤ U64_MAX →
  match recorded calls !! op with
  | Some stat => calls_of op calls ≠ [] ∧ tallies (calls_of op calls) stat
  | None => calls_of op calls = []
  end.
Proof.
  unfold recorded, calls_of. induction calls as [|c calls IH] using rev_ind; [done|]. rewrite length_app. simpl. intros Hlt.
  specialize (IH ltac:(lia)). rewrite foldl_app, filter_app, filter_cons. simpl. unfold record at 1.
  set (ops := foldl _ ∅ calls) in *. case_decide as Hop.
  - subst op. rewrite lookup_insert_eq. split; [by destruct (filter _ calls)|].
    pose proof (length_filter (λ c', call_op c' = call_op c) calls). apply record_stat_tallies; [lia|].
    destruct (ops !! call_op c); simpl; [apply IH|]. rewrite IH. by vm_compute.
  - rewrite lookup_insert_ne by done. rewrite filter_nil, app_nil_r. exact IH.
Qed.

Lemma slots_exhaust calls : foldr Z.add 0 ((λ i, count_if (λ c, slot_of c = i) calls) <$> seq 0 7) = Z.of_nat (length calls).
Proof.
  induction calls as [|c calls IH]; [done|]. unfold count_if in *. simpl in *.
  assert (Hs : (slot_of c ≤ 6)%nat) by (apply (bucket_slot_le BUCKET_BOUNDS_MS)).
  rewrite !filter_cons. repeat case_decide; simpl in *; lia.
Qed.

(** The histogram of an operation that was called: the buckets grow, the last
    one is the number of calls, and failures are among the calls. *)
Lemma snapshot_histogram calls m :
  Z.of_nat (length calls) ≤ U64_MAX → m ∈ snapshot (recorded calls) →
  om_count m = Z.of_nat (length (calls_of (om_op m) calls)) ∧ 0 < om_count m ∧ 0 ≤ om_errors m ≤ om_count m ∧
  (∃ bs, om_buckets m = bs ++ [mkBucket None (om_count m)]) ∧
  Sorted Z.le (bucket_count <$> om_buckets m).
Proof.
  intros Hlt Hin. apply list_elem_of_fmap in Hin as ([op stat] & -> & Hin).
  rewrite btree_iter_Permutation, elem_of_map_to_list in Hin. simpl.
  pose proof (recorded_tallies calls op Hlt) as Ht. rewrite Hin in Ht. destruct Ht as [Hne (Hc & He & Hb)].
  set (cs := calls_of op calls) in *. pose proof (length_filter (λ c, call_op c = op) calls) as Hlen. fold (calls_of op calls) in Hlen. fold cs in Hlen.
  split_and!; [done|rewrite Hc; destruct cs; [done|simpl; lia]|rewrite He; apply count_if_le|rewrite He, Hc; apply count_if_le| |].
  all: rewrite Hb, ?Hc; pose proof (slots_exhaust cs) as Hsum; simpl in Hsum |- *;
    pose proof (λ i, count_if_le (λ c, slot_of c = i) cs) as Hi;
    pose proof (Hi 0%nat); pose proof (Hi 1%nat); pose proof (Hi 2%nat); pose proof (Hi 3%nat); pose proof (Hi 4%nat); pose proof (Hi 5%nat); pose proof (Hi 6%nat);
    rewrite !wrap_add_exact by lia.
  - eexists [_; _; _; _; _; _]. simpl. repeat f_equal. lia.
  - repeat constructor; lia.
Qed.
