(* ===== verification/Http.v ===== *)
(** What handlers answer over HTTP: the response type of the web framework as
    far as the sources build it, and the renderings of src/consensus.rs,
    src/validate.rs and src/org_scope.rs. *)

From S2P Require Import Prelude Json Text Cancellation Command StateMachine Validate OrgScope ShardActor.

Record Response : Type := mkResponse {
  http_status : Z;
  headers : list (string * string);
  body : Value
}.

Definition respond (code : Z) (v : Value) : Response := mkResponse code [] v.
(** [Json(value).into_response()] *)
Definition json_ok (v : Value) : Response := respond 200 v.

(** A field with [skip_serializing_if = "Option::is_none"]. *)
Definition skip_none {A} `{Serialize A} (name : string) (o : option A) : list (string * Value) :=
  match o with Some x => [(name, to_value x)] | None => [] end.

(** [HeaderValue::from_str] and [HeaderValue::to_str] of the crate [http]: the
    text, when it may be the value of a header, and the value of a header, when
    it is text. *)
Class HeaderLib := {
  header_value : string → option string;
  header_text : string → option string
}.

(** [Rejection::into_response] *)
Definition reject_response (r : Rejection) : Response := respond 400 (json! ["error" :- code r; "detail" :- Validate.detail r]).

(** ** Proposals *)

Section responses.
Context `{HeaderLib}.

#[export] Instance ser_outcome : Serialize ProposeOutcome := λ o,
  json! ["shard" :- o_shard o; "log_index" :- o_log_index o; "revision" :- o_revision o; "output" :- o_output o].

Definition error_response (err : ProposeError) : Response :=
  match err with
  | NotLeader shard leader =>
      mkResponse 503
        ([("x-fiducia-not-leader", "true"); ("retry-after", "1"); ("x-fiducia-shard", default "" (header_value (decimal shard)))]
         ++ match leader with
            | Some l => match header_value l with Some value => [("x-fiducia-leader", value)] | None => [] end
            | None => []
            end)
        (json! ["committed" :- false;
                "error" :- json! ["reason" :- "not_leader"; "shard" :- shard; "leader" :- leader; "retryable" :- true]])
  | Unavailable shard =>
      respond 503 (json! ["committed" :- false; "error" :- json! ["reason" :- "unavailable"; "shard" :- shard]])
  end.

Definition read_error_response (err : ProposeError) : Response := error_response err.

Definition propose_response (r : result ProposeOutcome ProposeError) : Response :=
  match r with
  | Ok outcome => json_ok (json! ["committed" :- true; "result" :- outcome])
  | Err err => error_response err
  end.

(** ** The organisation filter *)

Definition scope_violation : Response :=
  respond 500 (json! ["error" :- "org_scope_violation"; "detail" :- "a response contained an identity outside the caller org"]).

Context `{Scoping}.

Definition org_response (org : string) (value : Value) : Response :=
  match unscope_value org value false with Some v => json_ok v | None => scope_violation end.

Definition org_propose_response (org : string) (r : result ProposeOutcome ProposeError) : Response :=
  match r with
  | Ok o =>
      match unscope_value org (o_output o) false with
      | Some out => propose_response (Ok (mkOutcome (o_shard o) (o_log_index o) (o_revision o) out))
      | None => scope_violation
      end
  | Err err => propose_response (Err err)
  end.
(** No rendering is a redirect: a follower names the leader in a header, and the
    client retries at its own address. *)
Lemma never_redirects r : http_status (propose_response r) = 200 ∨ http_status (propose_response r) = 503.
Proof. destruct r as [|[]]; auto. Qed.
End responses.
