(* ===== verification/NodeRouter.v ===== *)
(** The [Node] of src/consensus.rs: the shard actors of one process, the
    routing of proposals and reads, and the listings merged over shards.  The
    [shards] are listed in the iteration order of their map; a shard without an
    actor is one whose task is gone, so that sending to it fails. *)

From Stdlib Require Import SpecFloat.
From S2P Require Import Prelude Json Text Fencing Cancellation Locks Semaphores Registers Elections Services RateLimit Schedules Command StateMachine MachineTheorems Validate Snapshot Views RaftTypes RaftConfig RaftCallback Persist ShardActor RaftCoupling RaftMachine Reads Sharding Metrics.

(** The hash of the crate [fiducia_routing]. *)
Class ShardMap := { key_shard : string → Z → Z }.

Section node.
Context `{DiskFormat, External, HashOrder, Serde, Wire, Routing, ShardMap}.

Record Node : Type := mkNode {
  config_node_id : string;
  config_peers : list string;
  config_shard_count : Z;
  shards : list (Z * option ShardActor);
  op_metrics_of : metrics_map
}.

Definition set_shards (node : Node) (v : list (Z * option ShardActor)) : Node :=
  mkNode (config_node_id node) (config_peers node) (config_shard_count node) v (op_metrics_of node).
Definition record_call (op : string) (elapsed_ms : f64) (ok : bool) (node : Node) : Node :=
  mkNode (config_node_id node) (config_peers node) (config_shard_count node) (shards node)
    (record op elapsed_ms ok (op_metrics_of node)).

Definition shard_for (node : Node) (key : string) : Z := key_shard key (config_shard_count node).

(** [self.shards.get(&shard)], and the send that reaches the actor or not. *)
Fixpoint find_shard (l : list (Z * option ShardActor)) (shard : Z) : option ShardActor :=
  match l with
  | [] => None
  | (s, a) :: l => if s =? shard then a else find_shard l shard
  end.
Definition sender (node : Node) (shard : Z) : option ShardActor := find_shard (shards node) shard.

Fixpoint update_shard (l : list (Z * option ShardActor)) (shard : Z) (a : ShardActor) : list (Z * option ShardActor) :=
  match l with
  | [] => []
  | (s, b) :: l => if s =? shard then (s, Some a) :: l else (s, b) :: update_shard l shard a
  end.

(** [Node::bootstrap]: one actor per shard, with what its directory holds. *)
Definition boot_shard (e : Env) (id : string) (peers_ : list string) (t : RaftTiming) (nanos : Z) (data_dir : option (Z → ShardStore))
    (shard : Z) : Z * option ShardActor :=
  (shard, Some match data_dir with
               | Some dir => (bootstrap e shard id peers_ t nanos (dir shard)).1
               | None => match new_actor e shard id peers_ t nanos None no_recovery with
                         | Ok a => a
                         | Err _ => quarantined e shard id peers_ t nanos "invalid recovered state"
                         end
               end).

Definition node_bootstrap (e : Env) (id : string) (peers_ : list string) (count : Z) (t : RaftTiming) (nanos : Z)
    (data_dir : option (Z → ShardStore)) : Node :=
  mkNode id peers_ count (boot_shard e id peers_ t nanos data_dir <$> seqZ 0 count) ∅.

(** ** Proposals and reads of one shard *)

(** [Node::propose] until the command is in the inbox, whose actor answers the
    client later. *)
Definition propose_send (e : Env) (command : Command) (client : Z) (node : Node) : Node * option ProposeError :=
  let shard := shard_for node (routing_key command) in
  match sender node shard with
  | Some a => (set_shards node (update_shard (shards node) shard (handle e (MsgPropose command client) a).1), None)
  | None => (node, Some (Unavailable shard))
  end.

(** [Node::propose] once the answer is there; [None] stands for a dropped
    channel and for the timeout of the wait. *)
Definition propose_finish (command : Command) (elapsed_ms : f64) (answer : option (result ProposeOutcome ProposeError))
    (node : Node) : Node * result ProposeOutcome ProposeError :=
  let r := default (Err (Unavailable (shard_for node (routing_key command)))) answer in
  (record_call (kind command) elapsed_ms (match r with Ok _ => true | Err _ => false end) node, r).

Definition query_result (e : Env) (request : ReadRequest) (node : Node) : result ReadResponse ProposeError :=
  let shard := shard_for node (read_routing_key request) in
  match sender node shard with
  | None => Err (Unavailable shard)
  | Some a => handle_query e request a
  end.

Definition query (e : Env) (request : ReadRequest) (elapsed_ms : f64) (node : Node) : Node * result ReadResponse ProposeError :=
  let r := query_result e request node in
  (record_call "read" elapsed_ms (match r with Ok _ => true | Err _ => false end) node, r).

(** [append_entries], [install_snapshot] and [request_vote]: a request of a peer
    goes to the shard it names. *)
Definition deliver (e : Env) (shard : Z) (msg : ShardMsg) (node : Node) : Node * option Reply :=
  match sender node shard with
  | None => (node, None)
  | Some a => let '(a', reply) := handle e msg a in (set_shards node (update_shard (shards node) shard a'), Some reply)
  end.

(** ** Fan-out *)

Definition shard_le (a b : Z * option ShardActor) : Prop := a.1 ≤ b.1.
#[export] Instance shard_le_dec : RelDecision shard_le.
Proof. intros a b. unfold shard_le. apply _. Defined.

(** The loop of [query_kv_prefix]. *)
Fixpoint prefix_loop (e : Env) (prefix : string) (l : list (Z * option ShardActor)) (entries : list (string * KvEntry)) :
    result (list (string * KvEntry)) ProposeError :=
  match l with
  | [] => Ok entries
  | (shard, a) :: l =>
      match a with
      | None => Err (Unavailable shard)
      | Some a =>
          try! r := handle_query e (ReadKvPrefix prefix) a in
          match r with
          | GotKvPrefix found => prefix_loop e prefix l (entries ++ found)
          | _ => Err (Unavailable shard)
          end
      end
  end.

Definition query_kv_prefix (e : Env) (prefix : string) (node : Node) : result (list (string * KvEntry)) ProposeError :=
  try! entries := prefix_loop e prefix (merge_sort shard_le (shards node)) [] in
  Ok (merge_sort key_le entries).

(** A shard that does not answer is left out. *)
Definition query_all_shards (e : Env) (request : ReadRequest) (node : Node) : list ReadResponse :=
  omap (λ s, handle_query_local e request <$> s.2) (shards node).

Definition list_kv (e : Env) (prefix : string) (node : Node) : list (string * KvEntry) :=
  merge_sort key_le (mbind (M := list) (λ r, match r with GotKvList v => v | _ => [] end) (query_all_shards e (ReadKvList prefix) node)).

(** [*merged.entry(service).or_default() += instances] *)
Definition add_summary (merged : gmap string nat) (s : string * nat) : gmap string nat :=
  <[s.1 := (default 0 (merged !! s.1) + s.2)%nat]> merged.

Definition list_services (e : Env) (node : Node) : list (string * nat) :=
  btree_iter (foldl add_summary ∅
    (mbind (M := list) (λ r, match r with GotServiceList v => v | _ => [] end) (query_all_shards e ReadServiceList node))).

Definition list_schedules (e : Env) (node : Node) : list Schedule :=
  mbind (M := list) (λ r, match r with GotScheduleList v => v | _ => [] end) (query_all_shards e ReadScheduleList node).

Definition node_lock_inventory (e : Env) (elapsed_ms : f64) (node : Node) : Node * result LockInventory ProposeError :=
  let '(node, r) := query e ReadLockInventory elapsed_ms node in
  (node, match r with
         | Ok (GotLockInventory inv) => Ok inv
         | Ok _ => Err (Unavailable (shard_for node LOCK_DOMAIN))
         | Err err => Err err
         end).

Definition node_semaphore_inventory (e : Env) (elapsed_ms : f64) (node : Node) : Node * result (list SemaphoreState) ProposeError :=
  let '(node, r) := query e ReadSemaphoreInventory elapsed_ms node in
  (node, match r with
         | Ok (GotSemaphoreInventory l) => Ok l
         | Ok _ => Err (Unavailable (shard_for node LOCK_DOMAIN))
         | Err err => Err err
         end).

Definition list_elections (e : Env) (node : Node) : list (string * Leadership) :=
  merge_sort key_le (mbind (M := list) (λ r, match r with GotElectionList v => v | _ => [] end) (query_all_shards e ReadElectionList node)).

(** ** Node status *)

Record NodeStatus : Type := mkNodeStatus {
  ns_node_id : string;
  ns_peers : list string;
  ns_shard_count : Z;
  ns_timing : RaftTiming;
  ns_hosted_shards : list Z;
  ns_unresponsive_shards : list Z;
  ns_leader_count : nat;
  ns_follower_count : nat;
  ns_leading_shards : list Z;
  ns_following_shards : list Z;
  ns_shards : list ShardStatus
}.

Definition status_le (a b : ShardStatus) : Prop := st_shard_id a ≤ st_shard_id b.
#[export] Instance status_le_dec : RelDecision status_le.
Proof. intros a b. unfold status_le. apply _. Defined.

(** The probes, in the order they finish; one that times out is [None]. *)
Definition node_status (timing_now : RaftTiming) (probes : list (Z * option ShardStatus)) (node : Node) : NodeStatus :=
  let rows := merge_sort status_le (omap snd probes) in
  let leading := st_shard_id <$> filter (λ s, st_role s = Leader) rows in
  let following := st_shard_id <$> filter (λ s, st_role s = Follower) rows in
  mkNodeStatus (config_node_id node) (config_peers node) (config_shard_count node) timing_now
    (merge_sort Z.le (shards node).*1)
    (merge_sort Z.le (omap (λ p, match p.2 with None => Some p.1 | Some _ => None end) probes))
    (length leading) (length following) leading following rows.

(** ** Listings agree with point reads *)

Lemma key_sorted {V} (l : list (string * V)) : StronglySorted String.le (merge_sort key_le l).*1.
Proof.
  apply Sorted_StronglySorted; [apply _|].
  assert (Hm : Sorted key_le (merge_sort key_le l)) by (apply Sorted_merge_sort; apply _).
  induction Hm as [|x l' Hl IH Hh]; simpl; constructor; [done|]. by destruct Hh; constructor.
Qed.

Lemma elem_of_hash_entries {V} (m : gmap string V) k v : (k, v) ∈ hash_entries m ↔ m !! k = Some v.
Proof.
  unfold hash_entries. rewrite list_elem_of_omap. split.
  - intros (k' & _ & E). destruct (m !! k') as [v'|] eqn:Em; simplify_eq/=. done.
  - intros E. exists k. rewrite elem_of_hash_keys, E. eauto.
Qed.

Lemma hash_entries_keys {V} (m : gmap string V) : NoDup (hash_entries m).*1.
Proof.
  unfold hash_entries. assert (Hsub : (omap (λ k, (k,.) <$> m !! k) (hash_keys m)).*1 `sublist_of` hash_keys m).
  { induction (hash_keys m) as [|k l IH]; simpl; [done|]. destruct (m !! k); simpl; by constructor. }
  eapply sublist_NoDup; [apply (NoDup_hash_keys m)|exact Hsub].
Qed.

Lemma find_shard_elem l s a : NoDup l.*1 → find_shard l s = Some a ↔ (s, Some a) ∈ l.
Proof.
  induction l as [|[s' b] l IH]; simpl; [intros _; split; [done|by intros ?%not_elem_of_nil]|]. intros [Hn Hnd]%NoDup_cons.
  rewrite elem_of_cons. destruct (Z.eqb_spec s' s) as [->|Hne].
  - split; [intros ->; by left|]. intros [E|Hin]; [by injection E|]. destruct Hn. apply list_elem_of_fmap. by exists (s, Some a).
  - rewrite IH by done. split; [by right|]. intros [E|?]; [by injection E|done].
Qed.

Lemma NoDup_by_shard {A} (f : A → Z) (part : ShardActor → list A) (l : list (Z * option ShardActor)) :
  NoDup l.*1 → (∀ s a, (s, Some a) ∈ l → NoDup (part a) ∧ ∀ x, x ∈ part a → f x = s) →
  NoDup (mbind (M := list) (λ s, from_option part [] s.2) l).
Proof.
  induction l as [|[s a] l IH]; [constructor|]. intros [Hn Hnd]%NoDup_cons Hp. simpl. apply NoDup_app.
  split_and!; [destruct a; [apply (Hp s); by left|constructor]| |apply IH; [done|]; intros s' a' ?; apply Hp; by right].
  intros x Hx Hx'. destruct a as [a|]; [|by apply not_elem_of_nil in Hx]. destruct (Hp s a ltac:(by left)) as [_ Hs]. specialize (Hs x Hx).
  apply list_elem_of_bind in Hx' as ([s' [a'|]] & Hx' & Hin); [|by apply not_elem_of_nil in Hx'].
  destruct (Hp s' a' ltac:(by right)) as [_ Hs']. specialize (Hs' x Hx'). subst. apply Hn.
  apply list_elem_of_fmap. by exists (f x, Some a').
Qed.

(** The actors of a node whose shards received what routes to them. *)
Record hosts_its_keys (node : Node) : Prop := {
  hk_shards : NoDup (shards node).*1;
  hk_logs s a : (s, Some a) ∈ shards node →
    ∃ log, state a = apply_log inhabitant log ∧ routed (λ k, shard_for node k = s) log
}.

Lemma hosted_owns node s a : hosts_its_keys node → (s, Some a) ∈ shards node → owns (λ k, shard_for node k = s) (state a).
Proof. intros Hk Hin. destruct (hk_logs _ Hk _ _ Hin) as (log & -> & Hr). by apply log_owned. Qed.

Lemma hosted_sender node k a : hosts_its_keys node → sender node k = Some a ↔ (k, Some a) ∈ shards node.
Proof. intros Hk. apply find_shard_elem, Hk. Qed.

Lemma parts_keys {V} (part : ShardActor → list (string * V)) (l : list (Z * option ShardActor)) :
  (mbind (M := list) (λ s, from_option part [] s.2) l).*1 = mbind (M := list) (λ s, from_option (λ a, (part a).*1) [] s.2) l.
Proof. induction l as [|[s [a|]] l IH]; [done| |exact IH]. simpl. rewrite fmap_app. f_equal. exact IH. Qed.

(** A merged listing of parts that hold keys of their own shard. *)
Lemma fan_out_exact {V} (part : ShardActor → list (string * V)) (get : ShardActor → string → option V) node :
  hosts_its_keys node →
  (∀ s a, (s, Some a) ∈ shards node → NoDup (part a).*1 ∧ ∀ k v, (k, v) ∈ part a ↔ get a k = Some v) →
  (∀ s a k v, (s, Some a) ∈ shards node → get a k = Some v → shard_for node k = s) →
  let l := merge_sort key_le (mbind (M := list) (λ s, from_option part [] s.2) (shards node)) in
  (∀ k v, (k, v) ∈ l ↔ ∃ a, sender node (shard_for node k) = Some a ∧ get a k = Some v) ∧ NoDup l.*1 ∧ StronglySorted String.le l.*1.
Proof.
  intros Hk Hpart Hown l. split_and!.
  - intros k v. unfold l. rewrite merge_sort_Permutation, list_elem_of_bind. split.
    + intros ([s [a|]] & Hin & Hs); [|by apply not_elem_of_nil in Hin]. simpl in Hin. apply (Hpart s a Hs) in Hin.
      exists a. split; [|done]. rewrite (Hown s a k v Hs Hin). by apply hosted_sender.
    + intros (a & Hs & Hg). apply hosted_sender in Hs; [|done]. exists (shard_for node k, Some a). split; [|done].
      by apply (Hpart _ _ Hs).
  - unfold l. rewrite merge_sort_Permutation. rewrite parts_keys. apply (NoDup_by_shard (shard_for node) (λ a, (part a).*1)); [apply Hk|].
    intros s a Hs. destruct (Hpart s a Hs) as [Hnd Hp]. split; [done|]. intros k ([k' v] & -> & Hin)%list_elem_of_fmap.
    apply (Hown s a k' v Hs). by apply Hp.
  - apply key_sorted.
Qed.

Lemma fan_out_parts {A} (pick : ReadResponse → list A) (part : ShardActor → list A) e request node :
  (∀ a, pick (handle_query_local e request a) = part a) →
  mbind (M := list) pick (query_all_shards e request node) = mbind (M := list) (λ s, from_option part [] s.2) (shards node).
Proof.
  intros Hp. unfold query_all_shards. induction (shards node) as [|[s [a|]] l IH]; [done| |exact IH]. simpl. rewrite Hp. f_equal. exact IH.
Qed.

Lemma kv_get_Some m now k v : kv_get m now k = Some v ↔ m !! k = Some v ∧ kv_live now v = true.
Proof.
  unfold kv_get. rewrite bind_Some. split; [intros (v' & -> & E)|intros [-> E]; exists v; by rewrite E].
  destruct (kv_live now v') eqn:El; [|done]. by injection E as ->.
Qed.

Definition kv_under (e : Env) (prefix : string) (a : ShardActor) (k : string) : option KvEntry :=
  if String.prefix prefix k then kv_get (kv (state a)) (wall_ms e) k else None.

Lemma kv_under_Some e prefix a k v :
  kv_under e prefix a k = Some v ↔ kv (state a) !! k = Some v ∧ String.prefix prefix k && kv_live (wall_ms e) v = true.
Proof.
  unfold kv_under. rewrite andb_true_iff. destruct (String.prefix prefix k); [|split; [done|by intros (_ & ? & _)]].
  rewrite kv_get_Some. naive_solver.
Qed.

Lemma kv_list_part e prefix a :
  NoDup (kv_list (state a) (wall_ms e) prefix).*1 ∧
  ∀ k v, (k, v) ∈ kv_list (state a) (wall_ms e) prefix ↔ kv_under e prefix a k = Some v.
Proof.
  split.
  - eapply sublist_NoDup; [apply (hash_entries_keys (kv (state a)))|]. apply (fmap_sublist fst), sublist_filter.
  - intros k v. unfold kv_list. rewrite list_elem_of_filter, elem_of_hash_entries, kv_under_Some. simpl. naive_solver.
Qed.

Lemma kv_under_owned e prefix node s a k v :
  hosts_its_keys node → (s, Some a) ∈ shards node → kv_under e prefix a k = Some v → shard_for node k = s.
Proof. intros Hk Hin [Hv _]%kv_under_Some. apply (own_kv _ _ (hosted_owns _ _ _ Hk Hin) k). by exists v. Qed.

(** C27: The listing of a prefix is exact: it holds an entry exactly when the shard
    the key routes to would answer a read of that key with it, each key once, in
    the order of keys, although every shard only lists its own part. *)
Theorem list_kv_exact (node : Node) (e : Env) (prefix : string) (Hk : hosts_its_keys node) :
  let l := list_kv e prefix node in
  (∀ k v, (k, v) ∈ l ↔ String.prefix prefix k = true ∧
     ∃ a, sender node (shard_for node k) = Some a ∧ kv_get (kv (state a)) (wall_ms e) k = Some v) ∧
  NoDup l.*1 ∧ StronglySorted String.le l.*1.
Proof.
  unfold list_kv. rewrite (fan_out_parts _ (λ a, kv_list (state a) (wall_ms e) prefix)) by done.
  destruct (fan_out_exact (λ a, kv_list (state a) (wall_ms e) prefix) (kv_under e prefix) node Hk) as (Hin & Hrest).
  - intros s a _. apply kv_list_part.
  - intros s a k v Hs. by eapply kv_under_owned.
  - split; [|exact Hrest]. intros k v. rewrite Hin. unfold kv_under. destruct (String.prefix prefix k); naive_solver.
Qed.

Lemma election_part e a :
  NoDup (election_inventory (state a) (wall_ms e)).*1 ∧
  ∀ k v, (k, v) ∈ election_inventory (state a) (wall_ms e) ↔ election_get (elections (state a)) (wall_ms e) k = Some v.
Proof.
  unfold election_inventory, election_inventory_live_at. split.
  - eapply sublist_NoDup; [|apply (fmap_sublist fst), sublist_filter]. rewrite btree_iter_Permutation. apply NoDup_fst_map_to_list.
  - intros k v. rewrite list_elem_of_filter, btree_iter_Permutation, elem_of_map_to_list. simpl. unfold election_get. rewrite bind_Some. split.
    + intros [Hlt Hv]. exists v. split; [done|]. by rewrite (proj2 (Z.ltb_lt _ _) Hlt).
    + intros (v' & Hv & E). case_match; [|done]. bools. by simplify_eq.
Qed.

Lemma list_elections_exact node e :
  hosts_its_keys node →
  let l := list_elections e node in
  (∀ k v, (k, v) ∈ l ↔ ∃ a, sender node (shard_for node k) = Some a ∧ election_get (elections (state a)) (wall_ms e) k = Some v) ∧
  NoDup l.*1 ∧ StronglySorted String.le l.*1.
Proof.
  intros Hk. unfold list_elections. rewrite (fan_out_parts _ (λ a, election_inventory (state a) (wall_ms e))) by done.
  apply (fan_out_exact _ (λ a, election_get (elections (state a)) (wall_ms e))); [done|intros s a _; apply election_part|].
  intros s a k v Hs Hg. apply (own_elections _ _ (hosted_owns _ _ _ Hk Hs) k).
  unfold election_get in Hg. apply bind_Some in Hg as (? & Hg & _). by eexists.
Qed.

(** ** The prefix query *)

(** A list of entries with distinct keys has one sorted arrangement. *)
Lemma sorted_entries_unique {V} (l1 l2 : list (string * V)) :
  NoDup l1.*1 → l1 ≡ₚ l2 → StronglySorted String.le l1.*1 → StronglySorted String.le l2.*1 → l1 = l2.
Proof.
  intros Hnd Hp Hs1 Hs2. assert (Hk : l1.*1 = l2.*1).
  { apply (StronglySorted_unique String.le); [done|done|by rewrite Hp]. }
  apply list_eq_same_length with (length l1); [by apply Permutation_length|done|]. intros i [k v] [k' v'] Hi E1 E2.
  assert (k' = k) as ->.
  { assert (El : l1.*1 !! i = l2.*1 !! i) by (by rewrite Hk). rewrite !list_lookup_fmap, E1, E2 in El. by injection El. }
  f_equal. apply list_elem_of_lookup_2 in E2. rewrite <- Hp in E2. apply list_elem_of_lookup in E2 as [j Ej].
  assert (j = i) as ->; [|congruence]. apply (NoDup_lookup l1.*1 j i k); [done| |]; rewrite list_lookup_fmap.
  - by rewrite Ej.
  - by rewrite E1.
Qed.

(** Every shard is there and has not lost its storage. *)
Definition all_answer (node : Node) : Prop := ∀ s a, (s, a) ∈ shards node → ∃ b, a = Some b ∧ is_faulty b = false.

Lemma prefix_loop_ok e prefix l acc :
  (∀ s a, (s, a) ∈ l → ∃ b, a = Some b ∧ is_faulty b = false) →
  prefix_loop e prefix l acc = Ok (acc ++ mbind (M := list) (λ s, from_option (λ a, kv_prefix (kv (state a)) (wall_ms e) prefix) [] s.2) l).
Proof.
  revert acc. induction l as [|[s a] l IH]; intros acc Hl; [by rewrite app_nil_r|].
  destruct (Hl s a ltac:(by left)) as (b & -> & Hb). simpl. rewrite handle_query_spec, Hb. simpl.
  rewrite IH by (intros; eapply Hl; by right). by rewrite <- app_assoc.
Qed.

Lemma kv_prefix_list e prefix a : kv_prefix (kv (state a)) (wall_ms e) prefix ≡ₚ kv_list (state a) (wall_ms e) prefix.
Proof.
  unfold kv_prefix, kv_list. apply NoDup_Permutation.
  - apply NoDup_filter. rewrite btree_iter_Permutation. apply NoDup_map_to_list.
  - apply NoDup_filter. eapply NoDup_fmap_1. apply (hash_entries_keys (kv (state a))).
  - intros [k v]. by rewrite !list_elem_of_filter, elem_of_hash_entries, btree_iter_Permutation, elem_of_map_to_list.
Qed.

Lemma parts_Permutation {A} (f g : ShardActor → list A) (l1 l2 : list (Z * option ShardActor)) :
  l1 ≡ₚ l2 → (∀ a, f a ≡ₚ g a) →
  mbind (M := list) (λ s, from_option f [] s.2) l1 ≡ₚ mbind (M := list) (λ s, from_option g [] s.2) l2.
Proof.
  intros -> Hfg. induction l2 as [|[s [a|]] l IH]; [done| |exact IH]. simpl. by rewrite Hfg, IH.
Qed.

(** The two range reads agree: when every shard answers, the authoritative
    prefix query, which visits the shards in order and sorts, returns exactly the
    merged serializable listing. *)
Theorem prefix_query_is_listing (node : Node) (e : Env) (prefix : string) (Hk : hosts_its_keys node) (Ha : all_answer node) :
  query_kv_prefix e prefix node = Ok (list_kv e prefix node).
Proof.
  unfold query_kv_prefix. rewrite prefix_loop_ok.
  2: { intros s a Hin. rewrite merge_sort_Permutation in Hin. by eapply Ha. }
  simpl. f_equal. unfold list_kv. rewrite (fan_out_parts _ (λ a, kv_list (state a) (wall_ms e) prefix)) by done.
  assert (Hp : mbind (M := list) (λ s, from_option (λ a, kv_prefix (kv (state a)) (wall_ms e) prefix) [] s.2) (merge_sort shard_le (shards node))
    ≡ₚ mbind (M := list) (λ s, from_option (λ a, kv_list (state a) (wall_ms e) prefix) [] s.2) (shards node)).
  { apply parts_Permutation; [apply merge_sort_Permutation|]. apply kv_prefix_list. }
  symmetry. apply sorted_entries_unique; [|etrans; [apply merge_sort_Permutation|]; etrans; [symmetry; exact Hp|symmetry; apply merge_sort_Permutation]|apply key_sorted..].
  apply (fan_out_exact _ (kv_under e prefix)); [done|intros s a _; apply kv_list_part|].
  intros s a k v Hs. by eapply kv_under_owned.
Qed.

(** ** Services live on one shard *)

Lemma add_summaries l : ∀ m : gmap string nat,
  NoDup l.*1 → (∀ k, k ∈ l.*1 → m !! k = None) → foldl add_summary m l = list_to_map l ∪ m.
Proof.
  induction l as [|[k n] l IH]; intros m Hnd Hm; [symmetry; apply (left_id_L ∅ (∪))|].
  apply NoDup_cons in Hnd as [Hk Hnd]. simpl. rewrite IH; [|done|].
  - unfold add_summary. simpl. rewrite (Hm k) by left. rewrite <- insert_union_l. by rewrite insert_union_r by (by apply not_elem_of_list_to_map_1).
  - intros k' Hk'. unfold add_summary. simpl. rewrite lookup_insert_ne; [|by intros ->]. apply Hm. by right.
Qed.

Lemma service_names_keys ss now : NoDup (service_names ss now).*1.
Proof.
  unfold service_names. assert (Hsub : (omap (λ e : string * instance_map, let n := length (live_instances now e.2) in
    if (0 <? Z.of_nat n) then Some (e.1, n) else None) (map_to_list ss)).*1 `sublist_of` (map_to_list ss).*1).
  { induction (map_to_list ss) as [|[k ins] l IH]; simpl; [done|]. repeat case_match; simplify_eq/=; by constructor. }
  eapply sublist_NoDup; [apply (NoDup_fst_map_to_list ss)|exact Hsub].
Qed.

Lemma one_part {A} (part : ShardActor → list A) l s0 :
  NoDup l.*1 → (∀ s a, (s, Some a) ∈ l → s ≠ s0 → part a = []) →
  mbind (M := list) (λ s, from_option part [] s.2) l = from_option part [] (find_shard l s0).
Proof.
  induction l as [|[s a] l IH]; [done|]. intros [Hn Hnd]%NoDup_cons Hel.
  trans (from_option part [] a ++ mbind (M := list) (λ s, from_option part [] s.2) l); [done|].
  rewrite IH by (done || (intros; eapply Hel; [by right|done])). simpl. destruct (Z.eqb_spec s s0) as [->|Hne].
  - assert (find_shard l s0 = None) as ->; [|apply app_nil_r].
    apply eq_None_not_Some. intros [b Hb%find_shard_elem]; [|done]. destruct Hn. apply list_elem_of_fmap. by exists (s0, Some b).
  - destruct a as [a|]; [|done]. simpl. by rewrite (Hel s a) by (by left || done).
Qed.

Lemma list_services_exact node e :
  hosts_its_keys node →
  list_services e node =
    from_option (λ a, btree_iter (list_to_map (service_names (services (state a)) (wall_ms e)))) [] (sender node (shard_for node SERVICE_DOMAIN)).
Proof.
  intros Hk. unfold list_services. rewrite (fan_out_parts _ (λ a, service_names (services (state a)) (wall_ms e))) by done.
  assert (Hel : ∀ s a, (s, Some a) ∈ shards node → s ≠ shard_for node SERVICE_DOMAIN → service_names (services (state a)) (wall_ms e) = []).
  { intros s a Hs Hne. assert (services (state a) = ∅) as ->; [|done]. apply map_eq. intros k. rewrite lookup_empty.
    apply eq_None_not_Some. intros Hsome. by destruct Hne, (own_services _ _ (hosted_owns _ _ _ Hk Hs) k Hsome). }
  pose proof (hk_shards _ Hk) as Hnd. unfold sender.
  rewrite (one_part _ _ (shard_for node SERVICE_DOMAIN) Hnd Hel). destruct (find_shard _ _) as [a|]; simpl; [|done].
  rewrite add_summaries by (done || apply service_names_keys). by rewrite (right_id_L ∅ (∪)).
Qed.
End node.
