(* ===== verification/NodeExample.v ===== *)
(** A node of two shards, at which the theorems on routing and listings are
    exercised. *)

From S2P Require Import Prelude Json Cancellation Registers Command StateMachine RaftTypes RaftConfig Persist ShardActor RaftMachine Reads Sharding NodeRouter RaftExample.

#[export] Instance parity_map : ShardMap := {| key_shard key count := Z.of_nat (String.length key) mod count |}.
#[export] Instance domains : Routing := {| LOCK_DOMAIN := "locks"; SERVICE_DOMAIN := "services" |}.

Definition demo_put (key : string) (value : string) : Command * Z := (KvPut key value None None, 10).
Definition demo_env : Env := mkEnv 20 20 64 1000.
Definition demo_shard (s : Z) (log : list (Command * Z)) : Z * option ShardActor :=
  (s, Some (set_role Leader (set_state (apply_log inhabitant log) (blank_actor demo_env s "n" [] default_timing 1)))).
Definition demo_logs : list (Z * list (Command * Z)) :=
  [(1, [demo_put "abc" "1"; (ActivateCommandProtocol 3, 11); demo_put "a" "2"]); (0, [demo_put "ab" "3"; demo_put "zz" ""])].
Definition demo_node : Node := mkNode "n" [] 2 ((λ p, demo_shard p.1 p.2) <$> demo_logs) ∅.

Lemma demo_hosts : hosts_its_keys demo_node.
Proof.
  constructor.
  - apply (bool_decide_unpack _). vm_compute. exact I.
  - intros s a Hin. apply list_elem_of_fmap in Hin as ([s' log] & E & Hin). injection E as -> ->. exists log. split; [done|].
    unfold demo_logs in Hin. repeat (apply elem_of_cons in Hin as [E|Hin]; [injection E as -> ->; repeat constructor; (by left) || (right; vm_compute; reflexivity)|]).
    by apply not_elem_of_nil in Hin.
Qed.

Lemma list_kv_exact_witness :
  (list_kv demo_env "a" demo_node).*1 = ["a"; "ab"; "abc"] ∧ NoDup (list_kv demo_env "a" demo_node).*1.
Proof.
  split; [vm_compute; reflexivity|]. apply (list_kv_exact demo_node demo_env "a" demo_hosts).
Defined.

Lemma prefix_query_is_listing_witness : query_kv_prefix demo_env "a" demo_node = Ok (list_kv demo_env "a" demo_node).
Proof.
  apply (prefix_query_is_listing demo_node demo_env "a" demo_hosts). intros s a Hin.
  apply list_elem_of_fmap in Hin as ([s' log] & E & _). injection E as -> ->. eexists. split; [reflexivity|]. reflexivity.
Defined.

