(* ===== verification/Net.v ===== *)
(** Hosts and addresses: the IP address parser of the Rust standard library
    ([core::net::parser]), the predicate [cleartext_internal_host_allowed] of
    src/kv.rs that both Vault and the schedule targets are checked with, and
    the URLs of the crate [url]. *)

From Stdlib Require Import Ascii.
From S2P Require Import Prelude Text.

(** ** [str::parse::<IpAddr>] *)

(** [char::to_digit] for radix 10 and 16. *)
Definition to_digit (radix : Z) (c : ascii) : option Z :=
  let n := Z.of_N (N_of_ascii c) in
  let d := if (48 <=? n) && (n <=? 57) then n - 48
           else if (97 <=? n) && (n <=? 122) then n - 87
           else if (65 <=? n) && (n <=? 90) then n - 55
           else 36 in
  if d <? radix then Some d else None.

(** The digits of [read_number]: at most [max_digits] of them. *)
Fixpoint read_digits (radix : Z) (max_digits count : nat) (acc : Z) (s : string) : option (nat * Z * string) :=
  match s with
  | "" => Some (count, acc, "")
  | String c s' =>
      match to_digit radix c with
      | None => Some (count, acc, s)
      | Some d =>
          if Nat.ltb max_digits (S count) then None
          else read_digits radix max_digits (S count) (acc * radix + d) s'
      end
  end.

Definition starts_with_zero (s : string) : bool := match s with String c _ => Ascii.eqb c "0" | "" => false end.

Definition read_number (radix : Z) (max_digits : nat) (allow_zero_prefix : bool) (max : Z) (s : string) : option (Z * string) :=
  match read_digits radix max_digits 0 0 s with
  | None => None
  | Some (count, acc, rest) =>
      if Nat.eqb count 0 then None
      else if negb allow_zero_prefix && starts_with_zero s && Nat.ltb 1 count then None
      else if acc <=? max then Some (acc, rest) else None
  end.

Definition read_given_char (c : ascii) (s : string) : option string :=
  match s with String c' s' => if Ascii.eqb c c' then Some s' else None | "" => None end.

(** [read_separator]: the separator comes before every item but the first. *)
Definition read_separator {A} (sep : ascii) (index : nat) (inner : string → option (A * string)) (s : string) : option (A * string) :=
  match index with
  | O => inner s
  | S _ => rest ← read_given_char sep s; inner rest
  end.

Fixpoint read_octets (n index : nat) (s : string) : option (list Z * string) :=
  match n with
  | O => Some ([], s)
  | S n =>
      '(octet, rest) ← read_separator "."%char index (read_number 10 3 false 255) s;
      '(octets, rest) ← read_octets n (S index) rest;
      Some (octet :: octets, rest)
  end.
Definition read_ipv4_addr (s : string) : option (list Z * string) := read_octets 4 0 s.

(** The groups of an IPv6 address, with the embedded IPv4 address that may end
    them. *)
Fixpoint read_groups (n limit index : nat) (s : string) : list Z * bool * string :=
  match n with
  | O => ([], false, s)
  | S n =>
      let v4 := if Nat.ltb index (limit - 1) then read_separator ":"%char index read_ipv4_addr s else None in
      match v4 with
      | Some ([a; b; c; d], rest) => ([a * 256 + b; c * 256 + d], true, rest)
      | _ =>
          match read_separator ":"%char index (read_number 16 4 true 65535) s with
          | None => ([], false, s)
          | Some (g, rest) => let '(gs, is_v4, rest) := read_groups n limit (S index) rest in (g :: gs, is_v4, rest)
          end
      end
  end.

Definition read_ipv6_addr (s : string) : option (list Z * string) :=
  let '(head, head_v4, rest) := read_groups 8 8 0 s in
  if Nat.eqb (length head) 8 then Some (head, rest)
  else if head_v4 then None
  else
    rest ← read_given_char ":"%char rest;
    rest ← read_given_char ":"%char rest;
    let limit := (8 - (length head + 1))%nat in
    let '(tail, _, rest) := read_groups limit limit 0 rest in
    Some (head ++ replicate (8 - length head - length tail) 0 ++ tail, rest).

Inductive IpAddr : Type :=
| V4 (octets : list Z)
| V6 (segments : list Z).

Definition parse_ip (s : string) : option IpAddr :=
  '(ip, rest) ← match read_ipv4_addr s with
                | Some (octets, rest) => Some (V4 octets, rest)
                | None => '(segments, rest) ← read_ipv6_addr s; Some (V6 segments, rest)
                end;
  if String.eqb rest "" then Some ip else None.

(** ** The internal hosts *)

Definition octet (l : list Z) (i : nat) : Z := default 0 (l !! i).

Definition v4_is_loopback (l : list Z) : bool := octet l 0 =? 127.
Definition v4_is_private (l : list Z) : bool :=
  (octet l 0 =? 10) || ((octet l 0 =? 172) && (16 <=? octet l 1) && (octet l 1 <=? 31)) || ((octet l 0 =? 192) && (octet l 1 =? 168)).
Definition v4_is_link_local (l : list Z) : bool := (octet l 0 =? 169) && (octet l 1 =? 254).
Definition v6_is_loopback (l : list Z) : bool := bool_decide (l = [0; 0; 0; 0; 0; 0; 0; 1]).

Definition ends_with (s suffix : string) : bool :=
  Nat.leb (String.length suffix) (String.length s) &&
  String.eqb (String.substring (String.length s - String.length suffix) (String.length suffix) s) suffix.

Definition has_char (c : ascii) (s : string) : bool := existsb (Ascii.eqb c) (String.list_ascii_of_string s).

Definition cleartext_internal_host_allowed (host : string) : bool :=
  let host := to_ascii_lowercase host in
  if String.eqb host "localhost" || ends_with host ".localhost" then true
  else match parse_ip host with
       | Some (V4 address) => v4_is_loopback address || v4_is_private address || v4_is_link_local address
       | Some (V6 address) =>
           let first := octet address 0 in
           v6_is_loopback address || (Z.land first 65024 =? 64512) || (Z.land first 65472 =? 65152)
       | None =>
           negb (has_char "."%char host) ||
           existsb (ends_with host) [".svc"; ".svc.cluster.local"; ".cluster.local"; ".internal"; ".local"]
       end.

(** ** URLs *)

(** What the sources read of a parsed URL; the parser is of the crate [url]. *)
Record Url : Type := mkUrl {
  url_scheme : string;
  url_username : string;
  url_password : option string;
  url_host : option string;
  url_port_or_default : option Z;
  url_path : string;
  url_query : option string;
  url_fragment : option string
}.

Class UrlLib := { parse_url : string → option Url }.

Definition set_path (p : string) (u : Url) : Url :=
  mkUrl (url_scheme u) (url_username u) (url_password u) (url_host u) (url_port_or_default u) p (url_query u) (url_fragment u).

(** ** Addresses as text *)

(** [Ipv4Addr::to_string] *)
Definition dotted (a b c d : Z) : string := decimal a +:+ "." +:+ decimal b +:+ "." +:+ decimal c +:+ "." +:+ decimal d.

Definition is_octet (n : Z) : Prop := 0 ≤ n ≤ 255.

(** What may follow an octet. *)
Definition octet_end (s : string) : Prop := match s with "" => True | String c _ => c = "."%char end.

Lemma octet_cases (P : Z → Prop) n : is_octet n → Forall P (seqZ 0 256) → P n.
Proof. intros Hn HP. rewrite Forall_forall in HP. apply HP, elem_of_seqZ. unfold is_octet in Hn. lia. Qed.

Lemma read_octet n s : is_octet n → octet_end s → read_number 10 3 false 255 (decimal n +:+ s) = Some (n, s).
Proof.
  intros Hn Hs. apply (octet_cases (λ n, read_number 10 3 false 255 (decimal n +:+ s) = Some (n, s)) n Hn).
  destruct s as [|c s]; simpl in Hs; subst; repeat (constructor; [reflexivity|]); constructor.
Qed.

Lemma append_empty_r s : s +:+ "" = s.
Proof. induction s as [|c s IH]; [done|]. change (String c (s +:+ "") = String c s). by rewrite IH. Qed.

Lemma read_first_octet n x s : is_octet x → octet_end s →
  read_octets (S n) 0 (decimal x +:+ s) = ('(os, rest) ← read_octets n 1 s; Some (x :: os, rest)).
Proof. intros Hx Hs. cbn [read_octets read_separator]. by rewrite (read_octet x) by done. Qed.

Lemma read_next_octet n i x s : is_octet x → octet_end s →
  read_octets (S n) (S i) (String "."%char (decimal x +:+ s)) = ('(os, rest) ← read_octets n (S (S i)) s; Some (x :: os, rest)).
Proof. intros Hx Hs. cbn [read_octets read_separator read_given_char]. simpl. by rewrite (read_octet x) by done. Qed.

Lemma parse_dotted a b c d : is_octet a → is_octet b → is_octet c → is_octet d → parse_ip (dotted a b c d) = Some (V4 [a; b; c; d]).
Proof.
  intros Ha Hb Hc Hd. unfold parse_ip, read_ipv4_addr. assert (E : read_octets 4 0 (dotted a b c d) = Some ([a; b; c; d], "")).
  { change (dotted a b c d) with (decimal a +:+ String "."%char (decimal b +:+ String "."%char (decimal c +:+ String "."%char (decimal d)))).
    rewrite <- (append_empty_r (decimal d)), read_first_octet, !read_next_octet by done. done. }
  by rewrite E.
Qed.

Lemma list_ascii_app s t : String.list_ascii_of_string (s +:+ t) = String.list_ascii_of_string s ++ String.list_ascii_of_string t.
Proof. induction s as [|x s IH]; [done|]. change (x :: String.list_ascii_of_string (s +:+ t) = x :: (String.list_ascii_of_string s ++ String.list_ascii_of_string t)). by rewrite IH. Qed.

Definition address_char (c : ascii) : bool := bool_decide (is_Some (to_digit 10 c)) || Ascii.eqb c "."%char.

Lemma octet_chars n : is_octet n → Forall (λ c, address_char c = true) (String.list_ascii_of_string (decimal n)).
Proof.
  intros Hn. apply (octet_cases (λ n, Forall (λ c, address_char c = true) (String.list_ascii_of_string (decimal n))) n Hn).
  repeat (constructor; [repeat constructor|]). constructor.
Qed.

Lemma dotted_chars a b c d : is_octet a → is_octet b → is_octet c → is_octet d →
  Forall (λ x, address_char x = true) (String.list_ascii_of_string (dotted a b c d)).
Proof. intros Ha Hb Hc Hd. unfold dotted. rewrite !list_ascii_app, !Forall_app. split_and!; (by apply octet_chars) || (by repeat constructor). Qed.

Lemma lowercase_address s : Forall (λ c, address_char c = true) (String.list_ascii_of_string s) → to_ascii_lowercase s = s.
Proof.
  induction s as [|c s IH]; [done|]. simpl. intros [Hc Hs]%Forall_cons. rewrite IH by done. f_equal.
  destruct c as [[] [] [] [] [] [] [] []]; by vm_compute in Hc |- *.
Qed.

Lemma substring_chars s : ∀ n m c, c ∈ String.list_ascii_of_string (String.substring n m s) → c ∈ String.list_ascii_of_string s.
Proof.
  induction s as [|x s IH]; intros n m c; [by destruct n, m|]. destruct n as [|n], m as [|m]; simpl.
  - by intros ?%not_elem_of_nil.
  - intros [->|Hc]%elem_of_cons; [by left|right; by eapply IH].
  - intros Hc. right. by eapply IH.
  - intros Hc. right. by eapply IH.
Qed.

Lemma not_ending s suffix c :
  c ∈ String.list_ascii_of_string suffix → c ∉ String.list_ascii_of_string s → ends_with s suffix = false.
Proof.
  intros Hc Hs. unfold ends_with. apply andb_false_iff. right. apply String.eqb_neq. intros E. apply Hs.
  rewrite <- E in Hc. by eapply substring_chars.
Qed.

(** On the text of an IPv4 address the test says loopback, private or link
    local, and nothing else. *)
Lemma v4_classified a b c d :
  is_octet a → is_octet b → is_octet c → is_octet d →
  cleartext_internal_host_allowed (dotted a b c d) =
    v4_is_loopback [a; b; c; d] || v4_is_private [a; b; c; d] || v4_is_link_local [a; b; c; d].
Proof.
  intros Ha Hb Hc Hd. pose proof (dotted_chars a b c d Ha Hb Hc Hd) as Hch. unfold cleartext_internal_host_allowed.
  rewrite lowercase_address by done. assert (Ht : "t"%char ∉ String.list_ascii_of_string (dotted a b c d)).
  { rewrite Forall_forall in Hch. by intros Hin%Hch. }
  rewrite (not_ending _ ".localhost" "t"%char); [|by apply (bool_decide_unpack _); vm_compute|done].
  assert (String.eqb (dotted a b c d) "localhost" = false) as ->.
  { apply String.eqb_neq. intros E. apply Ht. rewrite E. by apply (bool_decide_unpack _); vm_compute. }
  by rewrite parse_dotted.
Qed.

(** Addresses of this host that the test does not know: the unspecified
    address, and loopback and private addresses written as IPv4-mapped IPv6
    addresses.  And a bracketed IPv6 host is internal whatever it is, since it
    does not parse and has no dot. *)
Lemma unrecognised_hosts :
  cleartext_internal_host_allowed "0.0.0.0" = false ∧ cleartext_internal_host_allowed "::" = false ∧
  cleartext_internal_host_allowed "::ffff:127.0.0.1" = false ∧ cleartext_internal_host_allowed "::ffff:10.0.0.1" = false ∧
  cleartext_internal_host_allowed "[2001:db8::1]" = true ∧ cleartext_internal_host_allowed "2001:db8::1" = false.
Proof. vm_compute. done. Qed.
