(* ===== verification/KvCrypto.v ===== *)
(** Protection of KV values at rest, src/kv.rs: the local keyring, Vault Transit,
    and the configuration that selects one.  AES-256-GCM, base64, JSON and the
    HTTP client are of other crates and are parameters; a value is the bytes of
    a Rust string, a nonce is an argument. *)

From Stdlib Require Import Ascii.
From S2P Require Import Prelude Json Text Cancellation Validate OrgScope Reads Http Net.

(** ** [String::from_utf8] *)

Definition is_cont (b : N) : bool := ((128 <=? b) && (b <=? 191))%N.
Definition in_range (lo hi b : N) : bool := ((lo <=? b) && (b <=? hi))%N.

Fixpoint utf8_bytes (l : list N) : bool :=
  match l with
  | [] => true
  | b0 :: l0 =>
      if (b0 <? 128)%N then utf8_bytes l0
      else if in_range 194 223 b0 then
        match l0 with b1 :: l1 => is_cont b1 && utf8_bytes l1 | _ => false end
      else if in_range 224 239 b0 then
        match l0 with
        | b1 :: b2 :: l2 =>
            in_range (if (b0 =? 224)%N then 160 else 128) (if (b0 =? 237)%N then 159 else 191) b1 && is_cont b2 && utf8_bytes l2
        | _ => false
        end
      else if in_range 240 244 b0 then
        match l0 with
        | b1 :: b2 :: b3 :: l3 =>
            in_range (if (b0 =? 240)%N then 144 else 128) (if (b0 =? 244)%N then 143 else 191) b1 && is_cont b2 && is_cont b3 && utf8_bytes l3
        | _ => false
        end
      else false
  end.

Definition utf8_valid (s : string) : bool := utf8_bytes (N_of_ascii <$> String.list_ascii_of_string s).
Definition from_utf8 (s : string) : option string := if utf8_valid s then Some s else None.

(** ** The libraries *)

Class Crypto := {
  aes_encrypt : string → string → string → string → option string;  (* key, nonce, aad, message *)
  aes_decrypt : string → string → string → string → option string;
  b64_encode : string → string;
  b64_decode : string → option string;
  b64url_encode : string → string;
  b64url_decode : string → option string;
  key_map_of_json : string → option (gmap string string);
  value_of_json : string → option Value
}.

(** AES-GCM opens what it sealed and appends a tag of 16 bytes; base64 decodes
    what it encoded; the URL-safe alphabet has no colon. *)
Class CryptoLaws `{Crypto} : Prop := {
  aes_opens key nonce aad msg c : aes_encrypt key nonce aad msg = Some c → aes_decrypt key nonce aad c = Some msg;
  aes_tag key nonce aad msg c : aes_encrypt key nonce aad msg = Some c → String.length c = (String.length msg + 16)%nat;
  b64_decodes s : b64_decode (b64_encode s) = Some s;
  b64url_decodes s : b64url_decode (b64url_encode s) = Some s;
  b64url_plain s : has_char ":"%char (b64url_encode s) = false
}.

(** ** Data *)

Definition KV_ENVELOPE_V1_PREFIX : string := "fcenc:v1:".
Definition KV_ENVELOPE_V2_PREFIX : string := "fcenc:v2:".
Definition KV_VAULT_ENVELOPE_PREFIX : string := "fcenc:vault:v1:".
Definition VAULT_RESPONSE_MAX_BYTES : Z := 64 * 1024.
Definition NONCE_BYTES : nat := 12.

Record KvProtection : Type := mkProtection {
  at_rest : string;
  provider : option string;
  key_id : option string;
  key_version : option Z
}.

#[export] Instance ser_protection : Serialize KvProtection := λ p,
  JObj ([("at_rest", JStr (at_rest p))] ++ skip_none "provider" (provider p) ++ skip_none "key_id" (key_id p)
        ++ skip_none "key_version" (key_version p)).

Definition plaintext_protection : KvProtection := mkProtection "plaintext" None None None.

Record UnsealedValue : Type := mkUnsealed {
  unsealed : string;
  protection : KvProtection
}.

(** The errors, one per message. *)
Inductive KvCryptoError : Type :=
| TwoBackends
| VaultAddrRequired
| VaultTokenRequired
| VaultKeyRequired
| VaultClientFailed
| TwoKeyrings
| KeysRequired
| KeysNotJson
| ActiveKeyRequired
| LegacyKeyRequired
| NoKeys
| KeyNotBase64 (key_id : string)
| KeyWrongLength (key_id : string)
| ActiveKeyMissing
| ActiveKeyDisappeared
| EncryptionFailed
| MalformedV2
| MalformedV2KeyId
| V2KeyIdNotUtf8
| UnknownKeyId (key_id : string)
| AuthenticationFailed
| LegacyUnauthenticated
| OtherProvider
| VaultRequestFailed (operation : string)
| VaultRejected (operation : string) (status : Z)
| VaultResponseTooLong (operation : string)
| VaultResponseFailed (operation : string)
| VaultNotJson (operation : string)
| VaultOmitted (operation : string)
| VaultPlaintextNotBase64
| MalformedVaultEnvelope
| VaultEnvelopeNotUtf8
| BadKeyId
| BadVaultSegment (name : string)
| BadVaultUrl
| VaultHostMissing
| VaultAddressRefused
| BlobNotBase64
| BlobTooShort
| DecryptedNotUtf8
| NoBackend.

Record LocalKeyring : Type := mkKeyring {
  active_key_id : string;
  ring_keys : gmap string string
}.

Record VaultTransit : Type := mkVault {
  vault_address : Url;
  vault_mount : string;
  vault_key_name : string;
  vault_token : string;
  vault_namespace : option string
}.

Inductive KvCipher : Type :=
| Local (keyring : LocalKeyring)
| Vault (vault : VaultTransit).

Definition ok_or {A E} (o : option A) (err : E) : result A E := match o with Some x => Ok x | None => Err err end.

(** ** Validation *)

Definition alnum_or (extra : list ascii) (c : ascii) : bool :=
  let n := N_of_ascii c in
  in_range 48 57 n || in_range 65 90 n || in_range 97 122 n || existsb (Ascii.eqb c) extra.

Definition validate_key_id (key_id : string) : result unit KvCryptoError :=
  if String.eqb key_id "" || (128 <? byte_len key_id) ||
     negb (forallb (alnum_or ["-"%char; "_"%char; "."%char]) (String.list_ascii_of_string key_id))
  then Err BadKeyId else Ok tt.

Definition validate_vault_segment (name value : string) : result unit KvCryptoError :=
  if String.eqb value "" || (128 <? byte_len value) ||
     negb (forallb (alnum_or ["-"%char; "_"%char]) (String.list_ascii_of_string value))
  then Err (BadVaultSegment name) else Ok tt.

Definition validate_vault_address `{UrlLib} (raw : string) : result Url KvCryptoError :=
  try! url := ok_or (parse_url raw) BadVaultUrl in
  try! host := ok_or (url_host url) VaultHostMissing in
  if negb (String.eqb (url_username url) "") || bool_decide (is_Some (url_password url)) || bool_decide (is_Some (url_query url)) ||
     bool_decide (is_Some (url_fragment url)) || negb (existsb (String.eqb (url_path url)) [""; "/"]) ||
     negb (existsb (String.eqb (url_scheme url)) ["http"; "https"]) ||
     (String.eqb (url_scheme url) "http" && negb (cleartext_internal_host_allowed host))
  then Err VaultAddressRefused
  else Ok (set_path "" url).

(** ** The local keyring *)

Definition local_aad (key_id storage_key : string) : string := "fiducia-kv:v2:" +:+ key_id +:+ ":" +:+ storage_key.

Definition is_fiducia_envelope (value : string) : bool := String.prefix "fcenc:" value.

Section crypto.
Context `{Crypto, HashOrder}.

(** The keys of [LocalKeyring::new], one by one. *)
Fixpoint load_keys (encoded : list (string * string)) (keys : gmap string string) : result (gmap string string) KvCryptoError :=
  match encoded with
  | [] => Ok keys
  | (id, value) :: encoded =>
      try! _ := validate_key_id id in
      try! bytes := ok_or (b64_decode (trim value)) (KeyNotBase64 id) in
      if Nat.eqb (String.length bytes) 32 then load_keys encoded (<[id := bytes]> keys) else Err (KeyWrongLength id)
  end.

Definition keyring_new (active : string) (encoded : gmap string string) : result LocalKeyring KvCryptoError :=
  try! _ := validate_key_id active in
  if bool_decide (encoded = ∅) then Err NoKeys
  else
    try! keys := load_keys (hash_entries encoded) ∅ in
    if bool_decide (is_Some (keys !! active)) then Ok (mkKeyring active keys) else Err ActiveKeyMissing.

Definition keyring_seal (ring : LocalKeyring) (nonce storage_key plaintext : string) : result string KvCryptoError :=
  try! cipher := ok_or (ring_keys ring !! active_key_id ring) ActiveKeyDisappeared in
  let aad := local_aad (active_key_id ring) storage_key in
  try! ciphertext := ok_or (aes_encrypt cipher nonce aad plaintext) EncryptionFailed in
  Ok (KV_ENVELOPE_V2_PREFIX +:+ b64url_encode (active_key_id ring) +:+ ":" +:+ b64_encode (nonce +:+ ciphertext)).

Definition decode_cipher_blob (encoded : string) : result string KvCryptoError :=
  try! blob := ok_or (b64_decode encoded) BlobNotBase64 in
  if Nat.ltb (String.length blob) (12 + 16) then Err BlobTooShort else Ok blob.

Definition decoded_plaintext (plaintext : string) (p : KvProtection) : result UnsealedValue KvCryptoError :=
  match from_utf8 plaintext with Some v => Ok (mkUnsealed v p) | None => Err DecryptedNotUtf8 end.

Definition blob_nonce (blob : string) : string := String.substring 0 NONCE_BYTES blob.
Definition blob_rest (blob : string) : string := String.substring NONCE_BYTES (String.length blob - NONCE_BYTES) blob.

(** The first key that opens a legacy blob, which has no associated data. *)
Fixpoint try_keys (keys : list (string * string)) (nonce ciphertext : string) : option (string * string) :=
  match keys with
  | [] => None
  | (id, cipher) :: keys =>
      match aes_decrypt cipher nonce "" ciphertext with
      | Some plaintext => Some (id, plaintext)
      | None => try_keys keys nonce ciphertext
      end
  end.

Definition keyring_unseal (ring : LocalKeyring) (storage_key stored : string) : result UnsealedValue KvCryptoError :=
  match strip_prefix KV_ENVELOPE_V2_PREFIX stored with
  | Some rest =>
      try! parts := ok_or (split_once ":"%char rest) MalformedV2 in
      try! id_bytes := ok_or (b64url_decode parts.1) MalformedV2KeyId in
      try! id := ok_or (from_utf8 id_bytes) V2KeyIdNotUtf8 in
      try! cipher := ok_or (ring_keys ring !! id) (UnknownKeyId id) in
      try! blob := decode_cipher_blob parts.2 in
      try! plaintext := ok_or (aes_decrypt cipher (blob_nonce blob) (local_aad id storage_key) (blob_rest blob)) AuthenticationFailed in
      decoded_plaintext plaintext (mkProtection "encrypted" (Some "local_keyring") (Some id) None)
  | None =>
      match strip_prefix KV_ENVELOPE_V1_PREFIX stored with
      | Some encoded =>
          try! blob := decode_cipher_blob encoded in
          match try_keys (hash_entries (ring_keys ring)) (blob_nonce blob) (blob_rest blob) with
          | Some (id, plaintext) => decoded_plaintext plaintext (mkProtection "encrypted" (Some "local_keyring_legacy") (Some id) None)
          | None => Err LegacyUnauthenticated
          end
      | None => if is_fiducia_envelope stored then Err OtherProvider else Ok (mkUnsealed stored plaintext_protection)
      end
  end.

(** ** Vault Transit *)

(** A response of Vault: its status, the announced length, the chunks that
    arrive and whether the stream breaks after them. *)
Record VaultReply : Type := mkVaultReply {
  vr_status : Z;
  vr_length : option Z;
  vr_chunks : list string;
  vr_broken : bool
}.

(** The request of an operation: endpoint, headers and body.  [None] is a request
    that failed. *)
Record VaultRequest : Type := mkVaultRequest {
  vq_url : Url;
  vq_headers : list (string * string);
  vq_body : Value
}.

(** The address was checked to have no path of its own, and the segments to need
    no escaping. *)
Definition endpoint (v : VaultTransit) (operation : string) : Url :=
  set_path ("/v1/" +:+ vault_mount v +:+ "/" +:+ operation +:+ "/" +:+ vault_key_name v) (vault_address v).

Definition vault_request (v : VaultTransit) (operation : string) (body : Value) : VaultRequest :=
  mkVaultRequest (endpoint v operation)
    ([("x-vault-token", vault_token v)] ++ match vault_namespace v with Some ns => [("x-vault-namespace", ns)] | None => [] end) body.

(** The loop over the chunks of [bounded_vault_json]. *)
Fixpoint gather (operation : string) (body : string) (chunks : list string) (broken : bool) : result string KvCryptoError :=
  match chunks with
  | [] => if broken then Err (VaultResponseFailed operation) else Ok body
  | chunk :: chunks =>
      if VAULT_RESPONSE_MAX_BYTES <? sat_add (byte_len body) (byte_len chunk) then Err (VaultResponseTooLong operation)
      else gather operation (body +:+ chunk) chunks broken
  end.

Definition bounded_vault_json (operation : string) (r : VaultReply) : result Value KvCryptoError :=
  if is_some_and (vr_length r) (λ n, VAULT_RESPONSE_MAX_BYTES <? n) then Err (VaultResponseTooLong operation)
  else
    try! body := gather operation "" (vr_chunks r) (vr_broken r) in
    ok_or (value_of_json body) (VaultNotJson operation).

(** [body.pointer("/data/<field>").and_then(as_str)] *)
Definition data_str (body : Value) (name : string) : option string :=
  data ← field "data" body; v ← field name data; match v with JStr s => Some s | _ => None end.

Definition vault_answer (operation : string) (reply : option VaultReply) : result Value KvCryptoError :=
  try! r := ok_or reply (VaultRequestFailed operation) in
  if (200 <=? vr_status r) && (vr_status r <? 300) then bounded_vault_json operation r
  else Err (VaultRejected operation (vr_status r)).

Definition vault_seal (send : VaultRequest → option VaultReply) (v : VaultTransit) (storage_key plaintext : string) : result string KvCryptoError :=
  try! body := vault_answer "encrypt" (send (vault_request v "encrypt"
                 (json! ["plaintext" :- b64_encode plaintext; "context" :- b64_encode storage_key]))) in
  try! ciphertext := ok_or (data_str body "ciphertext") (VaultOmitted "encrypt") in
  Ok (KV_VAULT_ENVELOPE_PREFIX +:+ b64_encode ciphertext).

Definition parse_u64 (s : string) : option Z :=
  match s with
  | EmptyString => None
  | String a s' =>
      if Ascii.eqb a "+" then match s' with EmptyString => None | _ => parse_digits U64_MAX 0 s' end
      else parse_digits U64_MAX 0 s
  end.

(** The version in [vault:v<n>:...]. *)
Definition ciphertext_version (ciphertext : string) : option Z :=
  part ← split_on ":"%char ciphertext !! 1%nat; digits ← strip_prefix "v" part; parse_u64 digits.

Definition vault_unseal (send : VaultRequest → option VaultReply) (v : VaultTransit) (storage_key stored : string) :
    result UnsealedValue KvCryptoError :=
  match strip_prefix KV_VAULT_ENVELOPE_PREFIX stored with
  | None => if is_fiducia_envelope stored then Err OtherProvider else Ok (mkUnsealed stored plaintext_protection)
  | Some encoded =>
      try! bytes := ok_or (b64_decode encoded) MalformedVaultEnvelope in
      try! ciphertext := ok_or (from_utf8 bytes) VaultEnvelopeNotUtf8 in
      try! body := vault_answer "decrypt" (send (vault_request v "decrypt"
                     (json! ["ciphertext" :- ciphertext; "context" :- b64_encode storage_key]))) in
      try! encoded_plaintext := ok_or (data_str body "plaintext") (VaultOmitted "decrypt") in
      try! plaintext := ok_or (b64_decode encoded_plaintext) VaultPlaintextNotBase64 in
      decoded_plaintext plaintext
        (mkProtection "encrypted" (Some "vault_transit") (Some (vault_key_name v)) (ciphertext_version ciphertext))
  end.

(** ** The cipher and its configuration *)

Definition seal (send : VaultRequest → option VaultReply) (c : KvCipher) (nonce storage_key plaintext : string) : result string KvCryptoError :=
  match c with
  | Local ring => keyring_seal ring nonce storage_key plaintext
  | Vault v => vault_seal send v storage_key plaintext
  end.

Definition unseal (send : VaultRequest → option VaultReply) (c : KvCipher) (storage_key stored : string) : result UnsealedValue KvCryptoError :=
  match c with
  | Local ring => keyring_unseal ring storage_key stored
  | Vault v => vault_unseal send v storage_key stored
  end.

Definition is_set (o : option string) : bool := match o with Some _ => true | None => false end.

(** [nonempty_env] over the process environment. *)
Definition nonempty_env (env : string → option string) (name : string) : option string :=
  v ← env name; let v := trim v in if String.eqb v "" then None else Some v.

Definition vault_of `{UrlLib} (lookup : string → option string) : result VaultTransit KvCryptoError :=
  try! address := ok_or (lookup "FIDUCIA_KV_VAULT_ADDR") VaultAddrRequired in
  try! token := ok_or (lookup "FIDUCIA_KV_VAULT_TOKEN") VaultTokenRequired in
  try! key_name := ok_or (lookup "FIDUCIA_KV_VAULT_KEY") VaultKeyRequired in
  try! url := validate_vault_address address in
  let mount := default "transit" (lookup "FIDUCIA_KV_VAULT_MOUNT") in
  try! _ := validate_vault_segment "FIDUCIA_KV_VAULT_MOUNT" mount in
  try! _ := validate_vault_segment "FIDUCIA_KV_VAULT_KEY" key_name in
  Ok (mkVault url mount key_name token (lookup "FIDUCIA_KV_VAULT_NAMESPACE")).

Definition from_lookup `{UrlLib} (lookup : string → option string) : result (option KvCipher) KvCryptoError :=
  let vault_present := existsb (λ name, is_set (lookup name))
    ["FIDUCIA_KV_VAULT_ADDR"; "FIDUCIA_KV_VAULT_TOKEN"; "FIDUCIA_KV_VAULT_KEY"; "FIDUCIA_KV_VAULT_MOUNT"; "FIDUCIA_KV_VAULT_NAMESPACE"] in
  let versioned_keys := lookup "FIDUCIA_KV_ENCRYPTION_KEYS" in
  let active := lookup "FIDUCIA_KV_ENCRYPTION_ACTIVE_KEY_ID" in
  let legacy_key := lookup "FIDUCIA_KV_ENCRYPTION_KEY" in
  let legacy_key_id := lookup "FIDUCIA_KV_ENCRYPTION_KEY_ID" in
  let versioned_present := is_set versioned_keys || is_set active in
  let legacy_present := is_set legacy_key || is_set legacy_key_id in
  if vault_present && (versioned_present || legacy_present) then Err TwoBackends
  else if vault_present then try! v := vault_of lookup in Ok (Some (Vault v))
  else if versioned_present && legacy_present then Err TwoKeyrings
  else if versioned_present then
    try! raw := ok_or versioned_keys KeysRequired in
    try! encoded := ok_or (key_map_of_json raw) KeysNotJson in
    try! active := ok_or active ActiveKeyRequired in
    try! ring := keyring_new active encoded in
    Ok (Some (Local ring))
  else if negb legacy_present then Ok None
  else
    try! raw := ok_or legacy_key LegacyKeyRequired in
    let id := default "legacy" legacy_key_id in
    try! ring := keyring_new id {[id := raw]} in
    Ok (Some (Local ring)).

(** ** What sealing promises *)

Lemma strip_app p s : strip_prefix p (p +:+ s) = Some s.
Proof. induction p as [|c p IH]; [by destruct s|]. change (String c p +:+ s) with (String c (p +:+ s)). simpl. by rewrite Ascii.eqb_refl. Qed.

Lemma split_once_app sep l r : has_char sep l = false → split_once sep (l +:+ String sep r) = Some (l, r).
Proof.
  induction l as [|c l IH]; intros Hl.
  - change ("" +:+ String sep r) with (String sep r). simpl. by rewrite Ascii.eqb_refl.
  - change (String c l +:+ String sep r) with (String c (l +:+ String sep r)). unfold has_char in *. simpl in *.
    apply orb_false_iff in Hl as [Hc Hl]. rewrite Ascii.eqb_sym, Hc, IH by done. done.
Qed.

Lemma substring_all t : String.substring 0 (String.length t) t = t.
Proof. induction t as [|c t IH]; [done|]. simpl. by rewrite IH. Qed.

Lemma substring_app n m s t : String.length s = n → String.length t = m → String.substring 0 n (s +:+ t) = s ∧ String.substring n m (s +:+ t) = t.
Proof.
  intros <- <-. induction s as [|c s [IH1 IH2]].
  - change ("" +:+ t) with t. split; [by destruct t|apply substring_all].
  - change (String c s +:+ t) with (String c (s +:+ t)). simpl. by rewrite IH1.
Qed.

Lemma key_id_utf8 id : validate_key_id id = Ok tt → utf8_valid id = true.
Proof.
  unfold validate_key_id. destruct (_ || _) eqn:E; [done|]. intros _. apply orb_false_iff in E as [_ E]. apply negb_false_iff in E.
  unfold utf8_valid. induction (String.list_ascii_of_string id) as [|c l IH]; [done|]. simpl in E.
  apply andb_true_iff in E as [Hc Hl]. specialize (IH Hl).
  destruct c as [[] [] [] [] [] [] [] []]; (exact IH || (vm_compute in Hc; discriminate)).
Qed.

Definition sealed_by (id : string) : KvProtection := mkProtection "encrypted" (Some "local_keyring") (Some id) None.

(** Under rotation: a value sealed under the active key opens at its own storage
    key with every ring that still holds that key under its id. *)
Lemma keyring_round_trip `{!CryptoLaws} (ring ring' : LocalKeyring) (nonce storage_key plaintext stored : string)
    (Hseal : keyring_seal ring nonce storage_key plaintext = Ok stored) (Hnonce : String.length nonce = NONCE_BYTES)
    (Hid : validate_key_id (active_key_id ring) = Ok tt) (Hutf : utf8_valid plaintext = true)
    (Hkept : ring_keys ring' !! active_key_id ring = ring_keys ring !! active_key_id ring) :
  is_fiducia_envelope stored = true ∧
  keyring_unseal ring' storage_key stored = Ok (mkUnsealed plaintext (sealed_by (active_key_id ring))).
Proof.
  unfold keyring_seal in Hseal. destruct (ring_keys ring !! active_key_id ring) as [cipher|] eqn:Ek; [|done]. simpl in Hseal.
  destruct (aes_encrypt cipher nonce (local_aad (active_key_id ring) storage_key) plaintext) as [ct|] eqn:Ee; [|done].
  injection Hseal as <-. split; [done|]. unfold keyring_unseal. rewrite strip_app.
  change (":" +:+ b64_encode (nonce +:+ ct)) with (String ":"%char (b64_encode (nonce +:+ ct))).
  rewrite split_once_app by apply b64url_plain. simpl. rewrite b64url_decodes. simpl.
  unfold from_utf8. rewrite (key_id_utf8 _ Hid). simpl. rewrite Hkept. simpl.
  unfold decode_cipher_blob. rewrite b64_decodes. simpl. pose proof (aes_tag _ _ _ _ _ Ee) as Htag.
  assert (Hlen : String.length (nonce +:+ ct) = (12 + String.length ct)%nat) by (by rewrite length_append, Hnonce).
  rewrite (proj2 (Nat.ltb_ge _ _)) by lia. simpl.
  destruct (substring_app NONCE_BYTES (String.length ct) nonce ct Hnonce eq_refl) as [E1 E2].
  unfold blob_nonce, blob_rest. rewrite E1, Hlen. replace (12 + String.length ct - NONCE_BYTES)%nat with (String.length ct) by (unfold NONCE_BYTES; lia).
  rewrite E2, (aes_opens _ _ _ _ _ Ee). simpl. unfold decoded_plaintext, from_utf8. by rewrite Hutf.
Qed.

(** Vault decrypts, under the same context, what it encrypted, as text. *)
Definition transit_keeps (send send' : VaultRequest → option VaultReply) (v v' : VaultTransit) (plaintext context : string) : Prop :=
  ∀ body ciphertext,
    vault_answer "encrypt" (send (vault_request v "encrypt" (json! ["plaintext" :- plaintext; "context" :- context]))) = Ok body →
    data_str body "ciphertext" = Some ciphertext →
    utf8_valid ciphertext = true ∧
    ∃ body', vault_answer "decrypt" (send' (vault_request v' "decrypt" (json! ["ciphertext" :- ciphertext; "context" :- context]))) = Ok body' ∧
      data_str body' "plaintext" = Some plaintext.

(** The backend of the reader can still open what that of the writer sealed. *)
Definition still_opens (send send' : VaultRequest → option VaultReply) (c c' : KvCipher) (storage_key plaintext : string) : Prop :=
  match c, c' with
  | Local ring, Local ring' =>
      validate_key_id (active_key_id ring) = Ok tt ∧ ring_keys ring' !! active_key_id ring = ring_keys ring !! active_key_id ring
  | Vault v, Vault v' => transit_keeps send send' v v' (b64_encode plaintext) (b64_encode storage_key)
  | _, _ => False
  end.

(** What the reader is told of the protection. *)
Definition opened_by (c c' : KvCipher) (p : KvProtection) : Prop :=
  at_rest p = "encrypted" ∧
  match c, c' with
  | Local ring, _ => provider p = Some "local_keyring" ∧ key_id p = Some (active_key_id ring)
  | Vault _, Vault v' => provider p = Some "vault_transit" ∧ key_id p = Some (vault_key_name v')
  | Vault _, Local _ => False
  end.

Lemma vault_round_trip `{!CryptoLaws} send send' v v' storage_key plaintext stored :
  vault_seal send v storage_key plaintext = Ok stored → utf8_valid plaintext = true →
  transit_keeps send send' v v' (b64_encode plaintext) (b64_encode storage_key) →
  ∃ version, vault_unseal send' v' storage_key stored =
    Ok (mkUnsealed plaintext (mkProtection "encrypted" (Some "vault_transit") (Some (vault_key_name v')) version)).
Proof.
  intros Hseal Hutf Hkeeps. unfold vault_seal in Hseal.
  destruct (vault_answer "encrypt" _) as [body|] eqn:Eb in Hseal; [|done]. simpl in Hseal.
  destruct (data_str body "ciphertext") as [ct|] eqn:Ec; [|done]. injection Hseal as <-.
  destruct (Hkeeps body ct Eb Ec) as (Hct & body' & Eb' & Ep). unfold vault_unseal. rewrite strip_app, b64_decodes. cbn [ok_or result_bind].
  unfold from_utf8 at 1. rewrite Hct. cbn [ok_or result_bind]. rewrite Eb'. cbn [result_bind]. rewrite Ep. cbn [ok_or result_bind].
  rewrite b64_decodes. cbn [ok_or result_bind]. unfold decoded_plaintext, from_utf8. rewrite Hutf. by eexists.
Qed.

Definition envelope_prefix (c : KvCipher) : string :=
  match c with Local _ => KV_ENVELOPE_V2_PREFIX | Vault _ => KV_VAULT_ENVELOPE_PREFIX end.

Lemma sealed_envelope send c nonce storage_key plaintext stored :
  seal send c nonce storage_key plaintext = Ok stored → ∃ rest, stored = envelope_prefix c +:+ rest.
Proof.
  destruct c as [ring|v]; simpl; [unfold keyring_seal|unfold vault_seal].
  - destruct (ring_keys ring !! _); [|done]. simpl. destruct (aes_encrypt _ _ _ _); [intros [= <-]; by eexists|done].
  - destruct (vault_answer "encrypt" _) as [body|]; [|done]. simpl. destruct (data_str body "ciphertext"); [intros [= <-]; by eexists|done].
Qed.

(** C30: What is sealed opens again.  A value sealed by either backend is
    recognised as sealed and opens unchanged, at its own storage key, for every
    reader whose backend still can: a keyring that holds the sealing key under
    its id, whichever key it seals with now, or a Vault that decrypts what it
    encrypted; the answer says that it was encrypted, by which provider and
    under which key.  A reader configured with the other backend gets an error,
    never the envelope as a value. *)
Theorem sealed_values_open `{!CryptoLaws} (send send' : VaultRequest → option VaultReply) (c c' : KvCipher)
    (nonce storage_key plaintext stored : string)
    (Hseal : seal send c nonce storage_key plaintext = Ok stored) (Hnonce : String.length nonce = NONCE_BYTES)
    (Hutf : utf8_valid plaintext = true) :
  is_fiducia_envelope stored = true ∧
  (still_opens send send' c c' storage_key plaintext →
   ∃ p, unseal send' c' storage_key stored = Ok (mkUnsealed plaintext p) ∧ opened_by c c' p) ∧
  (match c, c' with Local _, Vault _ | Vault _, Local _ => True | _, _ => False end →
   unseal send' c' storage_key stored = Err OtherProvider).
Proof.
  destruct (sealed_envelope _ _ _ _ _ _ Hseal) as [rest Erest]. split_and!.
  - subst. by destruct c.
  - destruct c as [ring|v], c' as [ring'|v']; simpl in *; try done.
    + intros [Hid Hkept]. destruct (keyring_round_trip ring ring' nonce storage_key plaintext stored) as [_ E]; [done..|]. rewrite E. by eexists.
    + intros Hkeeps. destruct (vault_round_trip send send' v v' storage_key plaintext stored) as [version E]; [done..|]. rewrite E. by eexists.
  - subst. by destruct c, c'.
Qed.

Lemma load_keys_keep encoded : ∀ keys loaded, load_keys encoded keys = Ok loaded →
  ∀ id k, loaded !! id = Some k → keys !! id = Some k ∨ (validate_key_id id = Ok tt ∧ String.length k = 32%nat).
Proof.
  induction encoded as [|[id value] encoded IH]; intros keys loaded; simpl; [intros [= <-]; auto|].
  destruct (validate_key_id id) as [[]|] eqn:Ev; [|done]. simpl. destruct (b64_decode (trim value)) as [bytes|]; [|done]. simpl.
  destruct (Nat.eqb_spec (String.length bytes) 32); [|done]. intros Hl id' k Hk. destruct (IH _ _ Hl _ _ Hk) as [Hi|]; [|auto].
  destruct (decide (id' = id)) as [->|Hne]; [rewrite lookup_insert_eq in Hi; injection Hi as <-; auto|].
  rewrite lookup_insert_ne in Hi by done. auto.
Qed.

(** A keyring that loads can seal: its active key is there, with a valid id and
    of the right length. *)
Lemma keyring_new_ok active encoded ring :
  keyring_new active encoded = Ok ring →
  active_key_id ring = active ∧ validate_key_id active = Ok tt ∧ ∃ k, ring_keys ring !! active = Some k ∧ String.length k = 32%nat.
Proof.
  unfold keyring_new. destruct (validate_key_id active) as [[]|] eqn:Ev; [|done]. simpl. case_bool_decide; [done|].
  destruct (load_keys _ ∅) as [keys|] eqn:El; [|done]. simpl. case_bool_decide as Hk; [|done]. intros [= <-]. simpl.
  split_and!; [done|done|]. destruct Hk as [k Hk]. exists k. split; [done|].
  destruct (load_keys_keep _ _ _ El _ _ Hk) as [E|[_ ?]]; [by rewrite lookup_empty in E|done].
Qed.

(** The configuration names one backend or none, and a partial one is an error:
    protection is off only when no variable of it is set. *)
Lemma unprotected_only_unset `{UrlLib} lookup :
  from_lookup lookup = Ok None →
  ∀ name, name ∈ ["FIDUCIA_KV_VAULT_ADDR"; "FIDUCIA_KV_VAULT_TOKEN"; "FIDUCIA_KV_VAULT_KEY"; "FIDUCIA_KV_VAULT_MOUNT";
                  "FIDUCIA_KV_VAULT_NAMESPACE"; "FIDUCIA_KV_ENCRYPTION_KEYS"; "FIDUCIA_KV_ENCRYPTION_ACTIVE_KEY_ID";
                  "FIDUCIA_KV_ENCRYPTION_KEY"; "FIDUCIA_KV_ENCRYPTION_KEY_ID"] → lookup name = None.
Proof.
  unfold from_lookup. cbn [existsb]. intros E name Hin.
  assert (Hall : Forall (λ n, is_set (lookup n) = false) ["FIDUCIA_KV_VAULT_ADDR"; "FIDUCIA_KV_VAULT_TOKEN"; "FIDUCIA_KV_VAULT_KEY"; "FIDUCIA_KV_VAULT_MOUNT";
    "FIDUCIA_KV_VAULT_NAMESPACE"; "FIDUCIA_KV_ENCRYPTION_KEYS"; "FIDUCIA_KV_ENCRYPTION_ACTIVE_KEY_ID"; "FIDUCIA_KV_ENCRYPTION_KEY"; "FIDUCIA_KV_ENCRYPTION_KEY_ID"]).
  { rewrite !Forall_cons. repeat (case_match; simplify_eq/=; try (unfold result_bind in *; repeat case_match; done));
      repeat match goal with H : _ || _ = false |- _ => apply orb_false_iff in H as [? ?] | H : negb _ = true |- _ => apply negb_true_iff in H | H : negb _ = false |- _ => apply negb_false_iff in H end;
      split_and!; try done; try constructor. }
  rewrite Forall_forall in Hall. specialize (Hall name Hin). by destruct (lookup name).
Qed.
End crypto.
