(* ===== verification/Handler.v ===== *)
(** The HTTP handlers as programs over the operations of [Node]: a handler is a
    tree whose nodes are the calls it makes on the node and whose branches are
    their answers.  [serve] runs one against a node; [isolated] says what a
    handler may touch on behalf of an organisation. *)

From Stdlib Require Import SpecFloat.
From S2P Require Import Prelude Json Text Fencing Cancellation Locks Semaphores Registers Idempotency Elections Services RateLimit Schedules Command StateMachine Snapshot Views RaftTypes RaftConfig Persist ShardActor RaftMachine Reads Metrics Http NodeRouter Validate OrgScope.

(** ** Serialisation of what reads return *)

#[export] Instance ser_kv : Serialize KvEntry := λ e,
  json! ["value" :- kv_value e; "mod_revision" :- kv_mod_revision e; "expires_at_ms" :- kv_expires e].
#[export] Instance ser_counter : Serialize CounterEntry := λ c, json! ["value" :- ctr_value c; "mod_revision" :- ctr_mod_revision c].
#[export] Instance ser_waiter : Serialize LockWaiter := λ w,
  json! ["holder" :- v_holder w; "keys" :- v_keys w; "requested_ms" :- v_requested w; "wait_expires_ms" :- v_expires w].
#[export] Instance ser_lock_state : Serialize LockState := λ l,
  json! ["key" :- lv_key l; "holder" :- lv_holder l; "fencing_token" :- lv_token l; "lease_expires_ms" :- lv_lease l;
         "held_keys" :- lv_held_keys l; "wait_queue" :- lv_wait_queue l].
#[export] Instance ser_holding : Serialize LockHolding := λ h,
  json! ["holder" :- lh_holder h; "keys" :- lh_keys h; "fencing_token" :- lh_token h; "lease_expires_ms" :- lh_lease h].
#[export] Instance ser_inventory : Serialize LockInventory := λ i,
  json! ["held" :- inv_held i; "wait_queue" :- inv_wait_queue i].
#[export] Instance ser_sem_holder : Serialize SemaphoreHolder := λ h,
  json! ["holder" :- sh_holder h; "fencing_token" :- sh_token h; "lease_expires_ms" :- sh_lease h].
#[export] Instance ser_semaphore : Serialize SemaphoreState := λ s,
  json! ["key" :- sv_key s; "limit" :- sv_limit s; "holders" :- sv_holders s; "available" :- sv_available s;
         "wait_queue" :- sv_wait_queue s].
#[export] Instance ser_schedule : Serialize Schedule := λ s,
  json! ["name" :- sch_name s; "cron" :- sch_cron s; "one_shot_at_ms" :- sch_one_shot s; "target" :- sch_target s;
         "delivery" :- sch_delivery s; "max_retries" :- sch_max_retries s; "enabled" :- sch_enabled s; "next_fire_ms" :- sch_next_fire s].
#[export] Instance ser_run_status : Serialize RunStatus := λ s,
  JStr match s with RunPending => "pending" | RunDelivered => "delivered" | RunFailed => "failed" end.
#[export] Instance ser_trigger : Serialize RunTrigger := λ t,
  JStr match t with Scheduled => "scheduled" | Manual => "manual" | Legacy => "legacy" end.
#[export] Instance ser_run : Serialize ScheduleRun := λ r,
  JObj (["fire_id" :- run_fire_id r; "fired_at_ms" :- run_fired_at r; "attempts" :- run_attempts r; "duplicate" :- run_duplicate r;
         "target" :- run_target r; "status" :- run_status r; "error" :- run_error r; "trigger" :- run_trigger r]%json
        ++ skip_none "error_class" (run_error_class r) ++ skip_none "http_status" (run_http_status r)
        ++ skip_none "duration_ms" (run_duration r) ++ skip_none "completed_at_ms" (run_completed_at r)
        ++ skip_none "trace_id" (run_trace_id r) ++ skip_none "span_id" (run_span_id r)).

(** [ElectionEntry] flattens the leadership; [ServiceSummary]. *)
Definition election_entry (e : string * Leadership) : Value :=
  match to_value e.2 with JObj fields => JObj (("name", JStr e.1) :: fields) | v => v end.
Definition service_summary (s : string * nat) : Value := json! ["service" :- s.1; "instances" :- s.2].

(** ** Programs *)

Inductive Handler : Type :=
| Respond (r : Response)
| Proposing (c : Command) (k : result ProposeOutcome ProposeError → Handler)
| Querying (q : ReadRequest) (k : result ReadResponse ProposeError → Handler)
| ListingKv (prefix : string) (k : list (string * KvEntry) → Handler)
| ListingServices (k : list (string * nat) → Handler)
| ListingSchedules (k : list Schedule → Handler)
| ListingElections (k : list (string * Leadership) → Handler)
| LockInventoryRead (k : result LockInventory ProposeError → Handler)
| SemaphoreInventoryRead (k : result (list SemaphoreState) ProposeError → Handler).

Definition checked_then (v : checked) (h : Handler) : Handler :=
  match v with Ok _ => h | Err r => Respond (reject_response r) end.

Section handlers.
Context `{HeaderLib, Scoping}.

(** [node.propose(c).await] and [org.propose_response]. *)
Definition propose_for (org : string) (c : Command) : Handler :=
  Proposing c (λ r, Respond (org_propose_response org r)).

Definition unavailable_ok : Response := json_ok (json! ["error" :- "unavailable"]).

(** A read whose answer [pick] renders, with the two fallbacks of the handlers. *)
Definition query_for (q : ReadRequest) (pick : ReadResponse → option Response) : Handler :=
  Querying q (λ r, Respond match r with
                           | Ok resp => default unavailable_ok (pick resp)
                           | Err err => read_error_response err
                           end).
End handlers.

(** ** Running a handler on a node *)

Section serve.
Context `{DiskFormat, External, HashOrder, Serde, Wire, Routing, ShardMap}.

(** What the world contributes to a call: its clocks, the client channel and the
    answer that arrives on it, and the latency that is recorded. *)
Record Call : Type := mkApiCall {
  call_env : Env;
  call_client : Z;
  call_answer : option (result ProposeOutcome ProposeError);
  call_elapsed : f64
}.

Fixpoint serve (w : Call) (h : Handler) (node : Node) : Node * Response :=
  match h with
  | Respond r => (node, r)
  | Proposing c k =>
      let '(node, refused) := propose_send (call_env w) c (call_client w) node in
      let answer := match refused with Some err => Some (Err err) | None => call_answer w end in
      let '(node, r) := propose_finish c (call_elapsed w) answer node in
      serve w (k r) node
  | Querying q k => let '(node, r) := query (call_env w) q (call_elapsed w) node in serve w (k r) node
  | ListingKv prefix k => serve w (k (list_kv (call_env w) prefix node)) node
  | ListingServices k => serve w (k (list_services (call_env w) node)) node
  | ListingSchedules k => serve w (k (list_schedules (call_env w) node)) node
  | ListingElections k => serve w (k (list_elections (call_env w) node)) node
  | LockInventoryRead k => let '(node, r) := node_lock_inventory (call_env w) (call_elapsed w) node in serve w (k r) node
  | SemaphoreInventoryRead k => let '(node, r) := node_semaphore_inventory (call_env w) (call_elapsed w) node in serve w (k r) node
  end.
End serve.

(** ** What a handler may touch *)

Section isolation.
Context `{Scoping}.

Definition in_org (org s : string) : Prop := ∃ k, s = scope org k.
Definition all_in (org : string) (l : list string) : Prop := Forall (in_org org) l.

(** Every name a command acts on is one of the organisation. *)
Definition command_in (org : string) (c : Command) : Prop :=
  match c with
  | ActivateCommandProtocol _ => False
  | KvPut key _ _ _ | KvDelete key | CounterAdd key _ _ | CounterSet key _ _ => in_org org key
  | BarrierCreate name _ _ _ | BarrierArrive name _ _ _ => in_org org name
  | TaskCreate name _ _ _ | TaskClaim name _ _ | TaskProgress name _ _ _ _ | TaskComplete name _ _ _ | TaskFail name _ _ _
  | TaskCancel name => in_org org name
  | EffectPrepare name _ _ _ idempotency_key _ => in_org org name ∧ in_org org idempotency_key
  | EffectApprove name _ | EffectCommit name _ | EffectAbort name => in_org org name
  | HandoffOffer name _ _ _ _ _ _ | HandoffAccept name _ | HandoffReject name _ => in_org org name
  | DecisionPropose name _ _ _ _ | DecisionVote name _ _ _ _ _ _ => in_org org name
  | BudgetSet name _ | BudgetCommit name _ _ | BudgetRelease name _ => in_org org name
  | BudgetReserve name _ holder _ => in_org org name ∧ in_org org holder
  | ClaimAssert name _ _ _ _ _ _ _ | ClaimSupport name _ | ClaimContest name _ _ | ClaimResolve name _ => in_org org name
  | ClaimSupersede name superseded_by => in_org org name ∧ in_org org superseded_by
  | LockAcquire keys holder _ _ _ | LockAcquireV2 keys holder _ _ _ | LockAcquireAttempt keys holder _ _ _ _
  | LockRenew keys holder _ _ | LockCancel keys holder | LockCancelAttempt keys holder _ => all_in org keys ∧ in_org org holder
  | LockRelease holder _ => in_org org holder
  | SemaphoreAcquire key holder _ _ _ _ | SemaphoreAcquireV2 key holder _ _ _ _ | SemaphoreAcquireAttempt key holder _ _ _ _ _
  | SemaphoreRenew key holder _ _ | SemaphoreRelease key holder _ | SemaphoreCancel key holder
  | SemaphoreCancelAttempt key holder _ => in_org org key ∧ in_org org holder
  | RateLimitCheck key tenant _ _ _ _ _ => in_org org key ∧ in_org org tenant
  | IdempotencyClaim key _ _ _ _ | IdempotencyComplete key _ _ _ | IdempotencyRenew key _ _ _ | IdempotencyAbandon key _ _ => in_org org key
  | ScheduleUpsert name _ _ _ _ _ _ | ScheduleSetEnabled name _ _ _ | ScheduleDelete name | ScheduleTrigger name _ _ => in_org org name
  | ScheduleRecordRun _ _ _ | ScheduleClaimFire _ _ | ScheduleRecordResult _ _ _ _ _ | ScheduleRecordResultV2 _ _ _ _ _ _ _ _ _ _ _ => False
  | ElectionCampaign name _ _ _ | ElectionRenew name _ _ _ | ElectionResign name _ _ => in_org org name
  | ServiceRegister service _ _ _ _ | ServiceHeartbeat service _ _ | ServiceDeregister service _ => in_org org service
  end.

(** The object a read is about; whole inventories are no single object. *)
Definition read_in (org : string) (q : ReadRequest) : Prop :=
  match q with
  | ReadKv k | ReadKvPrefix k | ReadCounter k | ReadBarrier k | ReadTask k | ReadEffect k | ReadHandoff k | ReadDecision k | ReadBudget k
  | ReadClaim k | ReadLock k | ReadSemaphore k | ReadIdempotency k | ReadSchedule k | ReadScheduleHistory k | ReadElection k | ReadService k
  | ReadKvList k => in_org org k
  | ReadRateLimit tenant key => in_org org tenant ∧ in_org org key
  | ReadServiceList | ReadScheduleList | ReadElectionList | ReadLockInventory | ReadSemaphoreInventory => False
  end.

(** The entries of the organisation. *)
Definition mine (org s : string) : Prop := is_Some (unscope org s).
#[export] Instance mine_dec org s : Decision (mine org s).
Proof. unfold mine. apply _. Defined.

Definition holds_mine (org : string) (keys : list string) : Prop := keys ≠ [] ∧ Forall (mine org) keys.
#[export] Instance holds_mine_dec org keys : Decision (holds_mine org keys).
Proof. unfold holds_mine. apply _. Defined.

Definition own_inventory (org : string) (inv : LockInventory) : LockInventory :=
  mkInventory (filter (λ h, holds_mine org (lh_keys h)) (inv_held inv)) (filter (λ w, holds_mine org (v_keys w)) (inv_wait_queue inv)).

(** A handler acts for its organisation only: what it proposes and reads is
    named in it, and what a listing of the whole node returns matters to it
    only as far as the entries are its own. *)
Fixpoint isolated (org : string) (h : Handler) : Prop :=
  match h with
  | Respond _ => True
  | Proposing c k => command_in org c ∧ ∀ r, isolated org (k r)
  | Querying q k => read_in org q ∧ ∀ r, isolated org (k r)
  | ListingKv prefix k =>
      in_org org prefix ∧ (∀ l, isolated org (k l)) ∧
      ∀ l l', filter (λ e, mine org e.1) l = filter (λ e, mine org e.1) l' → k l = k l'
  | ListingServices k =>
      (∀ l, isolated org (k l)) ∧ ∀ l l', filter (λ e, mine org e.1) l = filter (λ e, mine org e.1) l' → k l = k l'
  | ListingSchedules k =>
      (∀ l, isolated org (k l)) ∧ ∀ l l', filter (λ s, mine org (sch_name s)) l = filter (λ s, mine org (sch_name s)) l' → k l = k l'
  | ListingElections k =>
      (∀ l, isolated org (k l)) ∧ ∀ l l', filter (λ e, mine org e.1) l = filter (λ e, mine org e.1) l' → k l = k l'
  | LockInventoryRead k =>
      (∀ r, isolated org (k r)) ∧ ∀ i i', own_inventory org i = own_inventory org i' → k (Ok i) = k (Ok i')
  | SemaphoreInventoryRead k =>
      (∀ r, isolated org (k r)) ∧ ∀ l l', filter (λ s, mine org (sv_key s)) l = filter (λ s, mine org (sv_key s)) l' → k (Ok l) = k (Ok l')
  end.
End isolation.

(** The definition a handler is an instance of, for tactics that follow its shape. *)
Ltac head_of t := lazymatch t with ?f _ => head_of f | _ => t end.

Create HintDb tenancy.

Lemma scope_in `{Scoping} org k : in_org org (scope org k).
Proof. by exists k. Qed.

Lemma scope_all_in `{Scoping} org ks : all_in org (scope_all org ks).
Proof. apply Forall_fmap, Forall_true. intros k. apply scope_in. Qed.

Lemma checked_isolated `{Scoping} org v h : isolated org h → isolated org (checked_then v h).
Proof. by destruct v. Qed.

Lemma propose_isolated `{HeaderLib, Scoping} org c : command_in org c → isolated org (propose_for org c).
Proof. by split. Qed.

Lemma query_isolated `{HeaderLib, Scoping} org q pick : read_in org q → isolated org (query_for q pick).
Proof. by split. Qed.

#[export] Hint Resolve scope_in scope_all_in checked_isolated propose_isolated query_isolated : tenancy.
#[export] Hint Extern 1 (command_in _ _) => simpl : tenancy.
#[export] Hint Extern 1 (read_in _ _) => simpl : tenancy.
#[export] Hint Resolve conj : tenancy.
