(* ===== verification/PrimitiveApi.v ===== *)
(** The handlers of the primitives: src/counters.rs, barriers.rs, tasks.rs,
    effects.rs, handoffs.rs, decisions.rs, budgets.rs, claims.rs, election.rs,
    rate_limit.rs, idempotency.rs, locks.rs and semaphore.rs.  The arguments of
    a handler are the organisation of the caller and the fields of the request
    after deserialisation, whose defaults are written out. *)

From Stdlib Require Import SpecFloat Ascii.
From S2P Require Import Prelude Json Text Fencing Cancellation Locks Semaphores Registers Barriers Tasks Effects Handoffs Decisions Budgets Claims Idempotency Elections Services RateLimit Schedules Command StateMachine Views ShardActor Reads Http NodeRouter Net KvCrypto Handler LockApi Validate OrgScope.

Section api.
Context `{HeaderLib, Scoping, HashOrder}.

(** [{ <id>: given, "found": o.is_some(), <label>: o }] through the filter. *)
Definition found_response {A} `{Serialize A} (org id given label : string) (o : option A) : Response :=
  org_response org (JObj [(id, JStr given); ("found", JBool (bool_decide (is_Some o))); (label, to_value o)]).

(** ** Counters *)

Definition get_counter (org key : string) : Handler :=
  query_for (ReadCounter (scope org key)) (λ r, match r with GotCounter e => Some (found_response org "key" key "counter" e) | _ => None end).

Definition counter_add (org key : string) (delta : Z) (prev_revision : option Z) : Handler :=
  checked_then (counter key) (propose_for org (CounterAdd (scope org key) delta prev_revision)).

Definition counter_set (org key : string) (value : Z) (prev_revision : option Z) : Handler :=
  checked_then (counter key) (propose_for org (CounterSet (scope org key) value prev_revision)).

(** ** Barriers *)

Definition get_barrier (org name : string) : Handler :=
  query_for (ReadBarrier (scope org name)) (λ r, match r with GotBarrier b => Some (found_response org "name" name "barrier" b) | _ => None end).

Definition barrier_create (org name : string) (policy : BarrierPolicy) (expected : option Z) (deadline_ms : option Z) : Handler :=
  checked_then (barrier name) (propose_for org (BarrierCreate (scope org name) policy (default 1 expected) deadline_ms)).

Definition barrier_arrive_handler (org name participant : string) (weight : option Z) (veto : option bool) : Handler :=
  let weight := default 1 weight in
  checked_then (barrier_arrive name participant weight)
    (propose_for org (BarrierArrive (scope org name) participant weight (default false veto))).

(** ** Tasks *)

Definition get_task (org name : string) : Handler :=
  query_for (ReadTask (scope org name)) (λ r, match r with GotTask t => Some (found_response org "name" name "task" t) | _ => None end).

Definition task_create (org name task_type : string) (payload : Value) (deadline_ms : option Z) : Handler :=
  checked_then (task name None) (propose_for org (TaskCreate (scope org name) task_type payload deadline_ms)).

Definition task_claim (org name worker : string) (ttl_ms : option Z) : Handler :=
  checked_then (task name (Some worker)) (propose_for org (TaskClaim (scope org name) worker (default 60000 ttl_ms))).

Definition task_progress (org name worker : string) (fencing_token : Z) (percent : option Z) (checkpoint : Value) : Handler :=
  checked_then (task name (Some worker))
    (propose_for org (TaskProgress (scope org name) worker fencing_token (default 0 percent) checkpoint)).

Definition task_complete (org name worker : string) (fencing_token : Z) (result : Value) : Handler :=
  checked_then (task name (Some worker)) (propose_for org (TaskComplete (scope org name) worker fencing_token result)).

Definition task_fail (org name worker : string) (fencing_token : Z) (retryable : option bool) : Handler :=
  checked_then (task name (Some worker))
    (propose_for org (TaskFail (scope org name) worker fencing_token (default false retryable))).

Definition task_cancel (org name : string) : Handler :=
  checked_then (task name None) (propose_for org (TaskCancel (scope org name))).

(** ** Effects *)

Definition get_effect (org name : string) : Handler :=
  query_for (ReadEffect (scope org name)) (λ r, match r with GotEffect e => Some (found_response org "name" name "effect" e) | _ => None end).

Definition effect_prepare (org name effect_type : string) (payload : Value) (risk : option string) (idempotency_key : string)
    (required_approvals : option Z) : Handler :=
  checked_then (effect name None)
    (propose_for org (EffectPrepare (scope org name) effect_type payload (default "medium" risk) (scope org idempotency_key)
       (default 0 required_approvals))).

Definition effect_approve (org name principal : string) : Handler :=
  checked_then (effect name (Some principal)) (propose_for org (EffectApprove (scope org name) principal)).

Definition effect_commit (org name : string) (result : Value) : Handler :=
  checked_then (effect name None) (propose_for org (EffectCommit (scope org name) result)).

Definition effect_abort (org name : string) : Handler :=
  checked_then (effect name None) (propose_for org (EffectAbort (scope org name))).

(** ** Handoffs *)

Definition get_handoff (org name : string) : Handler :=
  query_for (ReadHandoff (scope org name)) (λ r, match r with GotHandoff h => Some (found_response org "name" name "handoff" h) | _ => None end).

Definition handoff_offer (org name resource from to : string) (from_token : Z) (context : Value) (ttl_ms : option Z) : Handler :=
  checked_then (handoff name (Some from) (Some to))
    (propose_for org (HandoffOffer (scope org name) resource from to from_token context (default 30000 ttl_ms))).

Definition handoff_accept (org name to : string) : Handler :=
  checked_then (handoff name None (Some to)) (propose_for org (HandoffAccept (scope org name) to)).

Definition handoff_reject (org name to : string) : Handler :=
  checked_then (handoff name None (Some to)) (propose_for org (HandoffReject (scope org name) to)).

(** ** Decisions *)

Definition get_decision (org name : string) : Handler :=
  query_for (ReadDecision (scope org name)) (λ r, match r with GotDecision d => Some (found_response org "name" name "decision" d) | _ => None end).

Definition decision_propose (org name question : string) (options : list string) (policy : DecisionPolicy) (deadline_ms : option Z) : Handler :=
  checked_then (decision name None) (propose_for org (DecisionPropose (scope org name) question options policy deadline_ms)).

Definition decision_vote_handler (org name voter : string) (choice : option string) (confidence : f32) (weight : option Z) (veto : option bool)
    (evidence : list string) : Handler :=
  let weight := default 1 weight in
  checked_then (decision_vote name voter weight)
    (propose_for org (DecisionVote (scope org name) voter choice confidence weight (default false veto) evidence)).

(** ** Budgets *)

Definition get_budget (org name : string) : Handler :=
  query_for (ReadBudget (scope org name)) (λ r, match r with GotBudget b => Some (found_response org "name" name "budget" b) | _ => None end).

Definition budget_set (org name : string) (limit : BudgetAmount) : Handler :=
  checked_then (budget name None None) (checked_then (budget_amount limit) (propose_for org (BudgetSet (scope org name) limit))).

Definition budget_reserve (org name reservation_id holder : string) (amount : BudgetAmount) : Handler :=
  checked_then (budget name (Some reservation_id) (Some holder)) (checked_then (budget_amount amount)
    (propose_for org (BudgetReserve (scope org name) reservation_id (scope org holder) amount))).

Definition budget_commit (org name reservation_id : string) (actual : BudgetAmount) : Handler :=
  checked_then (budget name (Some reservation_id) None) (checked_then (budget_amount actual)
    (propose_for org (BudgetCommit (scope org name) reservation_id actual))).

Definition budget_release (org name reservation_id : string) : Handler :=
  checked_then (budget name (Some reservation_id) None) (propose_for org (BudgetRelease (scope org name) reservation_id)).

(** ** Claims *)

Definition get_claim (org name : string) : Handler :=
  query_for (ReadClaim (scope org name)) (λ r, match r with GotClaim c => Some (found_response org "name" name "claim" c) | _ => None end).

Definition claim_assert (org name subject predicate : string) (value : Value) (confidence : f32) (author : string) (evidence : list string)
    (valid_until_ms : option Z) : Handler :=
  checked_then (claim name (Some author))
    (propose_for org (ClaimAssert (scope org name) subject predicate value confidence author evidence valid_until_ms)).

Definition claim_support (org name agent : string) : Handler :=
  checked_then (claim name (Some agent)) (propose_for org (ClaimSupport (scope org name) agent)).

Definition claim_contest (org name agent : string) (reason : option string) : Handler :=
  checked_then (claim name (Some agent)) (propose_for org (ClaimContest (scope org name) agent (default "" reason))).

Definition claim_resolve (org name : string) (accepted : bool) : Handler :=
  checked_then (claim name None) (propose_for org (ClaimResolve (scope org name) accepted)).

Definition claim_supersede (org name superseded_by : string) : Handler :=
  checked_then (claim name None) (propose_for org (ClaimSupersede (scope org name) (scope org superseded_by))).

(** ** Elections *)

Definition election_campaign_handler (org name candidate : string) (ttl_ms : Z) (metadata : gmap string string) : Handler :=
  checked_then (election_campaign name candidate ttl_ms metadata)
    (propose_for org (ElectionCampaign (scope org name) candidate ttl_ms metadata)).

Definition election_renew (org name candidate : string) (fencing_token : Z) (ttl_ms : option Z) : Handler :=
  checked_then (check_some ttl ttl_ms) (propose_for org (ElectionRenew (scope org name) candidate fencing_token ttl_ms)).

Definition election_resign (org name candidate : string) (fencing_token : Z) : Handler :=
  propose_for org (ElectionResign (scope org name) candidate fencing_token).

Definition election_observe (org name : string) : Handler :=
  query_for (ReadElection (scope org name)) (λ r,
    match r with
    | GotElection (Some l) => Some (json_ok (json! ["name" :- name; "held" :- true; "leadership" :- l]))
    | GotElection None => Some (json_ok (json! ["name" :- name; "held" :- false]))
    | _ => None
    end).

(** ** Rate limits *)

Definition rate_limit_check (org tenant key : string) (algorithm : RateLimitAlgorithm) (limit window_ms : Z) (refill_per_second : option f64)
    (cost : option Z) : Handler :=
  let cost := default 1 cost in
  checked_then (rate_limit tenant key) (checked_then (rate_limit_params limit window_ms cost refill_per_second)
    (propose_for org (RateLimitCheck (scope org key) (scope org tenant) algorithm limit window_ms refill_per_second cost))).

Definition get_limit (org tenant key : string) : Handler :=
  checked_then (rate_limit tenant key)
    (query_for (ReadRateLimit (scope org tenant) (scope org key)) (λ r,
       match r with
       | GotRateLimit (Some snapshot) => Some (org_response org (json! ["found" :- true; "limit" :- snapshot]))
       | GotRateLimit None => Some (json_ok (json! ["found" :- false; "tenant" :- tenant; "key" :- key]))
       | _ => None
       end)).

(** ** Idempotency keys *)

Definition DEFAULT_TTL_MS : Z := 24 * 60 * 60 * 1000.

Definition strip_suffix (suffix s : string) : option string :=
  if ends_with s suffix then Some (String.substring 0 (String.length s - String.length suffix) s) else None.

(** The unit of a duration and what is left before it. *)
Definition ttl_unit (trimmed : string) : string * Z :=
  match strip_suffix "ms" trimmed with
  | Some n => (n, 1)
  | None =>
      match strip_suffix "s" trimmed with
      | Some n => (n, 1000)
      | None =>
          match strip_suffix "m" trimmed with
          | Some n => (n, 60000)
          | None =>
              match strip_suffix "h" trimmed with
              | Some n => (n, 60 * 60 * 1000)
              | None => match strip_suffix "d" trimmed with Some n => (n, 24 * 60 * 60 * 1000) | None => (trimmed, 1) end
              end
          end
      end
  end.

Definition parse_ttl_ms (value : string) : result Z string :=
  let trimmed := trim value in
  if String.eqb trimmed "" then Err "ttl must not be empty"
  else
    let '(number, multiplier) := ttl_unit trimmed in
    try! amount := ok_or (parse_u64 (trim number)) "ttl must be an integer duration" in
    let total := amount * multiplier in
    if (total <=? U64_MAX) && (0 <? total) then Ok total else Err "ttl is too large or zero".

(** [claim_ttl_ms] and [renew_ttl_ms] *)
Definition claim_ttl_ms (ttl_ms : option Z) (ttl : option string) : result Z string :=
  match ttl_ms, ttl with
  | Some _, Some _ => Err "set only one of ttl_ms or ttl"
  | Some ms, None => if 0 <? ms then Ok ms else Err "ttl_ms must be greater than zero"
  | None, Some text => parse_ttl_ms text
  | None, None => Ok DEFAULT_TTL_MS
  end.

Definition bad_reason (reason : string) : Response := respond 400 (json! ["error" :- "bad_request"; "reason" :- reason]).

Definition idempotency_claim (org key : string) (owner : option string) (ttl_ms : option Z) (ttl : option string) (retention_ms : option Z)
    (metadata : gmap string string) : Handler :=
  match claim_ttl_ms ttl_ms ttl with
  | Err reason => Respond (bad_reason reason)
  | Ok ms =>
      checked_then (idempotency_ttl "ttl_ms" ms) (checked_then (check_some (idempotency_ttl "retention_ms") retention_ms)
        (propose_for org (IdempotencyClaim (scope org key) (default "anonymous" owner) ms retention_ms metadata)))
  end.

Definition idempotency_renew (org key owner : string) (fencing_token : Z) (ttl_ms : option Z) (ttl : option string) : Handler :=
  match claim_ttl_ms ttl_ms ttl with
  | Err reason => Respond (bad_reason reason)
  | Ok ms => checked_then (idempotency_ttl "ttl_ms" ms) (propose_for org (IdempotencyRenew (scope org key) owner fencing_token ms))
  end.

Definition idempotency_abandon (org key owner : string) (fencing_token : Z) : Handler :=
  propose_for org (IdempotencyAbandon (scope org key) owner fencing_token).

Definition idempotency_complete (org key owner : string) (fencing_token : Z) (result : option Value) : Handler :=
  propose_for org (IdempotencyComplete (scope org key) owner fencing_token result).

Definition get_record (org key : string) : Handler :=
  query_for (ReadIdempotency (scope org key)) (λ r,
    match r with
    | GotIdempotency (Some record) => Some (org_response org (json! ["key" :- key; "found" :- true; "record" :- record]))
    | GotIdempotency None => Some (json_ok (json! ["key" :- key; "found" :- false]))
    | _ => None
    end).

(** ** Locks and semaphores *)

(** The command of [LockApi], or its rejection. *)
Definition propose_checked (org : string) (r : result Command Rejection) : Handler :=
  match r with Ok c => propose_for org c | Err rejection => Respond (reject_response rejection) end.

Definition get_lock (org key : string) : Handler :=
  query_for (ReadLock (scope org key)) (λ r, match r with GotLock l => Some (org_response org (json! ["key" :- key; "lock" :- l])) | _ => None end).

Definition get_semaphore (org key : string) : Handler :=
  query_for (ReadSemaphore (scope org key)) (λ r,
    match r with GotSemaphore s => Some (org_response org (json! ["key" :- key; "semaphore" :- s])) | _ => None end).
End api.
