(* ===== verification/KvApi.v ===== *)
(** The configuration store over HTTP, src/kv.rs: reads, writes and listings with
    protection at rest, the reserved secret keyspace, and the change streams.  A
    broadcast is the sequence of what its receiver gets. *)

From Stdlib Require Import Ascii.
From S2P Require Import Prelude Json Text Cancellation Registers Command StateMachine RaftTypes ShardActor Reads Http NodeRouter Net KvCrypto Handler Validate OrgScope.

Definition TRUSTED_SCOPES_HEADER : string := "x-fiducia-scopes".
Definition ADMIN_WRITE_SCOPE : string := "admin:write".
Definition SECRET_KEYSPACE_PREFIX : string := "secret/".

(** The headers of a request: names in lower case, raw values. *)
Abbreviation HeaderMap := (list (string * string)).
Definition get_all (headers : HeaderMap) (name : string) : list string := (filter (λ h, h.1 = name) headers).*2.

(** [split_ascii_whitespace] *)
Definition ascii_space (c : ascii) : bool := existsb (N.eqb (N_of_ascii c)) [32; 9; 10; 12; 13]%N.
Fixpoint ascii_words (word : string) (s : string) : list string :=
  let flush := if String.eqb word "" then [] else [word] in
  match s with
  | EmptyString => flush
  | String c s => if ascii_space c then flush ++ ascii_words "" s else ascii_words (word +:+ String c "") s
  end.

Definition is_secret_keyspace (caller_key : string) : bool :=
  String.eqb caller_key "secret" || String.prefix SECRET_KEYSPACE_PREFIX caller_key.

Definition plaintext_write_authorized `{HeaderLib} (headers : HeaderMap) (caller_key : string) : bool :=
  if is_secret_keyspace caller_key then false
  else match get_all headers TRUSTED_SCOPES_HEADER with
       | [value] => match header_text value with
                    | Some v => existsb (String.eqb ADMIN_WRITE_SCOPE) (ascii_words "" v)
                    | None => false
                    end
       | _ => false
       end.

Definition kv_bad_request (detail : string) : Response := respond 400 (json! ["error" :- "bad_request"; "detail" :- detail]).
Definition no_store (r : Response) : Response := mkResponse (http_status r) (headers r ++ [("cache-control", "no-store")]) (body r).
Definition plaintext_write_forbidden : Response :=
  respond 403 (json! ["error" :- "plaintext_kv_forbidden";
                      "detail" :- "plaintext:true requires admin:write and is never permitted for the secret keyspace"]).
Definition crypto_failure : Response :=
  respond 503 (json! ["error" :- "kv_protection_unavailable"; "detail" :- "the KV value could not be protected or read safely"]).

Record PutBody : Type := mkPutBody {
  put_value : string;
  put_ttl_ms : option Z;
  put_prev_revision : option Z;
  put_plaintext : bool
}.

Record KvParams : Type := mkKvParams {
  kp_key : option string;
  kp_prefix : option string
}.

Section api.
Context `{HeaderLib, Scoping, Crypto, HashOrder}.
Context (send : VaultRequest → option VaultReply) (cipher : option KvCipher).

Definition seal_for_write (nonce storage_key value : string) (plaintext_opt_out : bool) : result string KvCryptoError :=
  match cipher with
  | Some c => if plaintext_opt_out then Ok value else seal send c nonce storage_key value
  | None => Ok value
  end.

Definition unseal_for_read (storage_key value : string) : result UnsealedValue KvCryptoError :=
  match cipher with
  | Some c => unseal send c storage_key value
  | None => if is_fiducia_envelope value then Err NoBackend else Ok (mkUnsealed value plaintext_protection)
  end.

Definition put_key (org : string) (hs : HeaderMap) (nonce : string) (q : KvParams) (b : PutBody) : Handler :=
  match kp_key q with
  | None => Respond (kv_bad_request "missing `key`")
  | Some key =>
      if put_plaintext b && negb (plaintext_write_authorized hs key) then Respond plaintext_write_forbidden
      else
        let storage_key := scope org key in
        match seal_for_write nonce storage_key (put_value b) (put_plaintext b) with
        | Err _ => Respond crypto_failure
        | Ok value => propose_for org (KvPut storage_key value (put_ttl_ms b) (put_prev_revision b))
        end
  end.

Definition delete_key (org : string) (q : KvParams) : Handler :=
  match kp_key q with
  | None => Respond (kv_bad_request "missing `key`")
  | Some key => propose_for org (KvDelete (scope org key))
  end.

Definition list_row (caller_key : string) (u : UnsealedValue) (mod_revision : Z) (expires_at_ms : option Z) : Value :=
  JObj (["key" :- caller_key; "mod_revision" :- mod_revision; "protection" :- protection u]%json
        ++ (if is_secret_keyspace caller_key then [("value_redacted", JBool true)] else [("value", JStr (unsealed u))])
        ++ skip_none "expires_at_ms" expires_at_ms).

(** The loop of [list]. *)
Fixpoint list_rows (org : string) (items : list (string * KvEntry)) (rows : list Value) : result (list Value) KvCryptoError :=
  match items with
  | [] => Ok rows
  | (storage_key, entry) :: items =>
      match unscope org storage_key with
      | None => list_rows org items rows
      | Some caller_key =>
          try! u := unseal_for_read storage_key (kv_value entry) in
          list_rows org items (rows ++ [list_row caller_key u (kv_mod_revision entry) (kv_expires entry)])
      end
  end.

Definition kv_list_handler (org prefix : string) : Handler :=
  ListingKv (scope org prefix) (λ items, Respond (no_store
    match list_rows org items [] with
    | Ok rows => json_ok (json! ["prefix" :- prefix; "count" :- length rows; "keys" :- rows])
    | Err _ => crypto_failure
    end)).

Definition entry_with (e : KvEntry) (value : string) : KvEntry := mkKv value (kv_mod_revision e) (kv_expires e).

(** [get_or_list] without [watch]. *)
Definition get_or_list (org : string) (q : KvParams) : Handler :=
  match kp_key q with
  | Some key =>
      let storage_key := scope org key in
      Querying (ReadKv storage_key) (λ r, Respond (no_store
        match r with
        | Ok (GotKv (Some entry)) =>
            match unseal_for_read storage_key (kv_value entry) with
            | Ok u => json_ok (json! ["key" :- key; "found" :- true; "entry" :- entry_with entry (unsealed u); "protection" :- protection u])
            | Err _ => crypto_failure
            end
        | Ok (GotKv None) => json_ok (json! ["key" :- key; "found" :- false])
        | Ok _ => unavailable_ok
        | Err err => read_error_response err
        end))
  | None => kv_list_handler org (default "" (kp_prefix q))
  end.
End api.

(** ** Change streams *)

(** A server-sent event. *)
Inductive Event : Type :=
| Data (event : string) (data : Value)
| Comment (text : string).

(** What a broadcast receiver yields. *)
Inductive Received : Type :=
| Change (c : ChangeEvent)
| Lagged (skipped : Z).

Definition change_value (c : ChangeEvent) (key : string) : Value :=
  JObj (["scope" :- ShardActor.scope c; "kind" :- change_kind c; "key" :- key; "revision" :- change_revision c]%json
        ++ skip_none "detail" (ShardActor.detail c)).

Definition resync_required_event (reason : string) (skipped : option Z) : Event :=
  Data "resync_required" (JObj (["reason" :- reason; "action" :- "snapshot_and_reconnect"]%json ++ skip_none "skipped" skipped)).

Definition is_kv_change (kind : string) : bool := String.eqb kind "put" || String.eqb kind "delete".

(** [StopOnResync]: the events up to and including the first terminal one. *)
Fixpoint stop_on_resync (source : list (Event * bool)) : list Event :=
  match source with
  | [] => []
  | (event, terminal) :: source => event :: (if terminal then [] else stop_on_resync source)
  end.

Section watch.
Context `{Scoping}.

Definition unscoped_change_event (org : string) (c : ChangeEvent) : Event :=
  match unscope org (change_key c) with
  | Some caller_key => Data (change_kind c) (change_value c caller_key)
  | None => Comment "out-of-scope"
  end.

Definition matches_key (key : string) (c : ChangeEvent) : bool := String.eqb (ShardActor.scope c) "kv" && String.eqb (change_key c) key.
Definition matches_prefix (prefix : string) (c : ChangeEvent) : bool :=
  String.eqb (ShardActor.scope c) "kv" && is_kv_change (change_kind c) && String.prefix prefix (change_key c).

(** The [filter_map] of both streams. *)
Definition render (org : string) (wanted : ChangeEvent → bool) (item : Received) : option (Event * bool) :=
  match item with
  | Change c => if wanted c then Some (unscoped_change_event org c, false) else None
  | Lagged skipped => Some (resync_required_event "lagged" (Some skipped), true)
  end.

Definition source_closed : Event * bool := (resync_required_event "source_closed" None, true).

(** The stream of a receiver that yields [items] and is closed then. *)
Definition receiver_stream (org : string) (wanted : ChangeEvent → bool) (items : list Received) : list (Event * bool) :=
  omap (render org wanted) items ++ [source_closed].

Definition single_key_events (org key : string) (items : list Received) : list Event :=
  stop_on_resync (receiver_stream org (matches_key key) items).

(** The arrivals of a [StreamMap]: an item of some shard, or the end of one. *)
Definition prefix_events (org prefix : string) (arrivals : list (option Received)) : list Event :=
  stop_on_resync (omap (λ a, match a with Some item => render org (matches_prefix prefix) item | None => Some source_closed end) arrivals).

(** ** What a watcher may rely on *)

(** The changes before the first gap, and the gap. *)
Fixpoint until_gap (items : list Received) : list ChangeEvent * option Z :=
  match items with
  | [] => ([], None)
  | Lagged skipped :: _ => ([], Some skipped)
  | Change c :: items => let '(cs, gap) := until_gap items in (c :: cs, gap)
  end.

Definition gap_event (gap : option Z) : Event :=
  match gap with Some skipped => resync_required_event "lagged" (Some skipped) | None => resync_required_event "source_closed" None end.

Lemma receiver_stream_gap org wanted items :
  stop_on_resync (receiver_stream org wanted items) =
    let '(cs, gap) := until_gap items in (unscoped_change_event org <$> filter (λ c, wanted c = true) cs) ++ [gap_event gap].
Proof.
  unfold receiver_stream. induction items as [|[c|n] items IH]; simpl; [done| |done].
  destruct (until_gap items) as [cs gap]. rewrite filter_cons. destruct (wanted c) eqn:Ew; simpl.
  - f_equal. exact IH.
  - exact IH.
Qed.

(** A watch has no silent gap: a single-key stream is every committed change of
    the key, in order, up to the first loss, then one resync marker that says what
    was lost, and nothing after it; a stream that loses nothing ends with the marker
    when its source closes.  No change of another key is ever sent. *)
Lemma watch_gapless (org key : string) (items : list Received) :
  single_key_events org key items =
    (unscoped_change_event org <$> filter (λ c, matches_key key c = true) (until_gap items).1) ++ [gap_event (until_gap items).2].
Proof.
  unfold single_key_events. rewrite receiver_stream_gap. by destruct (until_gap items).
Qed.

(** A prefix stream ends with the first loss of any shard. *)
Lemma prefix_events_stop org prefix before a after :
  (∀ x, x ∈ before → ∃ c, x = Some (Change c)) → (a = None ∨ ∃ n, a = Some (Lagged n)) →
  prefix_events org prefix (before ++ a :: after) = prefix_events org prefix (before ++ [a]).
Proof.
  intros Hb Ha. unfold prefix_events. induction before as [|x before IH].
  - destruct Ha as [->|[n ->]]; done.
  - destruct (Hb x ltac:(by left)) as [c ->]. simpl. destruct (matches_prefix prefix c); simpl;
      [f_equal|]; (apply IH; intros y Hy; apply Hb; by right).
Qed.
End watch.

(** ** Confidentiality at rest and in listings *)

Section confidentiality.
Context `{HeaderLib, Scoping, Crypto, HashOrder}.

Lemma seal_envelope send c nonce k v s : seal send c nonce k v = Ok s → is_fiducia_envelope s = true.
Proof.
  destruct c as [ring|v0]; simpl; unfold keyring_seal, vault_seal, result_bind; intros E; repeat case_match; simplify_eq; done.
Qed.

(** C31: Nothing is stored in the clear by accident: with a backend configured, a
    write that reaches the log carries a sealed value, unless the caller asked for
    plaintext, holds the administrative scope, and the key is outside the secret
    keyspace. *)
Theorem plaintext_only_by_admin (send : VaultRequest → option VaultReply) (c : KvCipher) (org : string) (hs : HeaderMap) (nonce key : string)
    (prefix : option string) (b : PutBody) (storage_key value : string) (ttl_ms prev_revision : option Z)
    (k : result ProposeOutcome ProposeError → Handler)
    (Hput : put_key send (Some c) org hs nonce (mkKvParams (Some key) prefix) b = Proposing (KvPut storage_key value ttl_ms prev_revision) k) :
  storage_key = scope org key ∧
  (is_fiducia_envelope value = true ∨
   value = put_value b ∧ put_plaintext b = true ∧ is_secret_keyspace key = false ∧
   ∃ raw text, get_all hs TRUSTED_SCOPES_HEADER = [raw] ∧ header_text raw = Some text ∧ ADMIN_WRITE_SCOPE ∈ ascii_words "" text).
Proof.
  unfold put_key, seal_for_write in Hput. simpl in Hput. destruct (put_plaintext b) eqn:Ep; simpl in Hput.
  - destruct (plaintext_write_authorized hs key) eqn:Ea; simpl in Hput; [|done]. injection Hput as <- <- <- <- <-. split; [done|right].
    unfold plaintext_write_authorized in Ea. destruct (is_secret_keyspace key); [done|].
    destruct (get_all hs TRUSTED_SCOPES_HEADER) as [|raw [|]] eqn:Eg; [done| |done]. destruct (header_text raw) as [text|] eqn:Et; [|done].
    split_and!; [done|done|done|]. exists raw, text. split_and!; [done|done|].
    apply existsb_exists in Ea as (w & Hin & ->%String.eqb_eq). by apply list_elem_of_In.
  - destruct (seal send c nonce (scope org key) (put_value b)) as [s|] eqn:Es; [|done]. injection Hput as <- <- <- <- <-.
    split; [done|left]. by eapply seal_envelope.
Qed.

(** The row of a secret is the same whatever the secret is. *)
Lemma secret_row key u u' r e : is_secret_keyspace key = true → protection u = protection u' → list_row key u r e = list_row key u' r e.
Proof. intros Hs Hp. unfold list_row. by rewrite Hs, Hp. Qed.

(** A value that looks like an envelope but was stored in the clear cannot be
    read back, and a listing that meets it fails as a whole. *)
Lemma forged_envelope_unreadable send org key v r ex rest :
  is_fiducia_envelope v = true → unscope org (scope org key) = Some key →
  list_rows send None org ((scope org key, mkKv v r ex) :: rest) [] = Err NoBackend.
Proof. intros Hv Hu. simpl. rewrite Hu. unfold unseal_for_read. by rewrite Hv. Qed.
End confidentiality.
