(* ===== verification/ScheduleApi.v ===== *)
(** The cron control plane, src/schedule.rs. *)

From Stdlib Require Import Ascii.
From S2P Require Import Prelude Json Text Cron Cancellation Schedules Command StateMachine Snapshot ShardActor Reads Http NodeRouter Net KvCrypto Handler Validate OrgScope.

Definition SCHEDULE_NAME_BYTES : Z := 128.
Definition MAX_TARGET_BYTES : Z := 2048.
Definition MAX_FUNCTION_ID_BYTES : Z := 128.
Definition MAX_RETRIES : Z := 10.
Definition DEFAULT_LIST_LIMIT : Z := 50.
Definition MAX_LIST_LIMIT : Z := 200.
Definition DEFAULT_HISTORY_LIMIT : Z := 50.
Definition MAX_HISTORY_LIMIT : Z := 100.

Definition validate_max_retries (max_retries : Z) : result unit string :=
  if MAX_RETRIES <? max_retries then Err "max_retries_exceeds_limit" else Ok tt.

Definition validate_name (name : string) : result unit string :=
  if String.eqb name "" then Err "schedule_name_required"
  else if SCHEDULE_NAME_BYTES <? byte_len name then Err "schedule_name_too_long"
  else if has_control name then Err "schedule_name_contains_control_character"
  else Ok tt.

Definition validate_function_id (function_id : string) : result unit string :=
  if String.eqb function_id "" then Err "function_id_required"
  else if MAX_FUNCTION_ID_BYTES <? byte_len function_id then Err "function_id_too_long"
  else if existsb (String.eqb function_id) ["."; ".."] ||
          negb (forallb (alnum_or ["-"%char; "_"%char; "."%char]) (String.list_ascii_of_string function_id))
  then Err "invalid_function_id"
  else Ok tt.

(** The checks of a target that is a URL. *)
Definition validate_target_url `{UrlLib} (raw : string) : result unit string :=
  if MAX_TARGET_BYTES <? byte_len raw then Err "target_too_long"
  else
    try! url := ok_or (parse_url raw) "invalid_target_url" in
    if negb (existsb (String.eqb (url_scheme url)) ["http"; "https"]) then Err "target_scheme_not_allowed"
    else if negb (String.eqb (url_username url) "") || bool_decide (is_Some (url_password url)) then Err "target_must_not_carry_credentials"
    else
      try! host := ok_or (url_host url) "target_must_include_a_host" in
      if cleartext_internal_host_allowed host then Err "target_host_not_allowed" else Ok tt.

Definition validate_target `{UrlLib} (target : ScheduleTarget) : result unit string :=
  match target with
  | Webhook raw | Queue raw | Grpc raw => validate_target_url raw
  | Function function_id => validate_function_id function_id
  end.

(** Of src/state.rs. *)
Definition valid_cron_expression (value : string) : bool := match Cron.parse value with Ok _ => true | Err _ => false end.

Definition schedule_bad_request (error : string) : Response := respond 400 (json! ["error" :- error]).
Definition schedule_unavailable : Response := respond 503 (json! ["error" :- "unavailable"]).

Definition checked_by (v : result unit string) (h : Handler) : Handler :=
  match v with Ok _ => h | Err error => Respond (schedule_bad_request error) end.

Definition clamp (x lo hi : Z) : Z := Z.max lo (Z.min x hi).

Definition rename_schedule (s : Schedule) (name : string) : Schedule :=
  mkSchedule name (sch_cron s) (sch_one_shot s) (sch_target s) (sch_delivery s) (sch_max_retries s) (sch_enabled s) (sch_next_fire s).

Section api.
Context `{HeaderLib, Scoping, UrlLib}.

Definition schedule_upsert (org name : string) (now_ms : Z) (cron : option string) (one_shot_at_ms : option Z) (target : ScheduleTarget)
    (delivery : option DeliverySemantics) (max_retries : option Z) : Handler :=
  checked_by (validate_name name)
    (if Bool.eqb (bool_decide (is_Some cron)) (bool_decide (is_Some one_shot_at_ms))
     then Respond (schedule_bad_request "exactly_one_schedule_mode_required")
     else if is_some_and cron (λ c, negb (valid_cron_expression c)) then Respond (schedule_bad_request "invalid_cron_expression")
     else
       checked_by (validate_target target)
         (let max_retries := default 3 max_retries in
          checked_by (validate_max_retries max_retries)
            (propose_for org (ScheduleUpsert (scope org name) cron one_shot_at_ms target (default AtLeastOnce delivery) max_retries now_ms)))).

(** The rows of a page: the schedules of the caller past the cursor, under the
    names it knows. *)
Definition page_rows (org : string) (cursor : option string) (l : list Schedule) : list Schedule :=
  merge_sort schedule_le
    (omap (λ s, name ← unscope org (sch_name s);
                if is_some_and cursor (λ c, bool_decide (String.le name c)) then None else Some (rename_schedule s name)) l).

Definition next_cursor (limit : nat) (rows : list Schedule) : option string :=
  if Nat.ltb limit (length rows) then sch_name <$> last (take limit rows) else None.

Definition list_page (limit : nat) (rows : list Schedule) : Response :=
  let page := take limit rows in
  json_ok (json! ["count" :- length page; "schedules" :- page; "next_cursor" :- next_cursor limit rows]).

Definition list_schedules_handler (org : string) (cursor : option string) (limit : option Z) : Handler :=
  let limit := clamp (default DEFAULT_LIST_LIMIT limit) 1 MAX_LIST_LIMIT in
  ListingSchedules (λ l, Respond (list_page (Z.to_nat limit) (page_rows org cursor l))).

Definition get_schedule (org name : string) : Handler :=
  checked_by (validate_name name)
    (Querying (ReadSchedule (scope org name)) (λ r, Respond
       match r with
       | Ok (GotSchedule (Some s)) => org_response org (json! ["found" :- true; "schedule" :- s])
       | Ok (GotSchedule None) => json_ok (json! ["found" :- false; "name" :- name])
       | Ok _ => schedule_unavailable
       | Err err => read_error_response err
       end)).

Definition delete_schedule (org name : string) : Handler :=
  checked_by (validate_name name) (propose_for org (ScheduleDelete (scope org name))).

Definition set_enabled (org name : string) (enabled : bool) (now_ms : Z) (catch_up : bool) : Handler :=
  checked_by (validate_name name) (propose_for org (ScheduleSetEnabled (scope org name) enabled now_ms catch_up)).
Definition pause (org name : string) (now_ms : Z) : Handler := set_enabled org name false now_ms false.
Definition resume (org name : string) (now_ms : Z) (catch_up : bool) : Handler := set_enabled org name true now_ms catch_up.

Definition trigger (org name : string) (now_ms : Z) (fire_id_ms : option Z) : Handler :=
  checked_by (validate_name name) (propose_for org (ScheduleTrigger (scope org name) (default now_ms fire_id_ms) now_ms)).

Definition schedule_history_handler (org name : string) (limit : option Z) : Handler :=
  checked_by (validate_name name)
    (let limit := clamp (default DEFAULT_HISTORY_LIMIT limit) 1 MAX_HISTORY_LIMIT in
     Querying (ReadScheduleHistory (scope org name)) (λ r, Respond
       match r with
       | Ok (GotScheduleHistory h) =>
           let runs := take (Z.to_nat limit) (reverse h) in
           json_ok (json! ["name" :- name; "count" :- length runs; "order" :- "newest_first"; "history" :- runs])
       | Ok _ => schedule_unavailable
       | Err err => read_error_response err
       end)).
End api.

(** ** Paging *)

(** What a client gathers that follows [next_cursor] until there is none. *)
Fixpoint follow `{Scoping} (fuel : nat) (org : string) (limit : nat) (l : list Schedule) (cursor : option string) : list Schedule :=
  match fuel with
  | O => []
  | S fuel =>
      let rows := page_rows org cursor l in
      take limit rows ++ match next_cursor limit rows with Some c => follow fuel org limit l (Some c) | None => [] end
  end.

Section paging.
Context `{Scoping}.

#[local] Instance schedule_le_trans : Transitive schedule_le.
Proof. intros a b c. unfold schedule_le. apply transitivity. Qed.
#[local] Instance schedule_le_total : Total schedule_le.
Proof. intros a b. unfold schedule_le. apply (base.total String.le). Qed.

Lemma StronglySorted_filter {A} (R : relation A) (P : A → Prop) `{!∀ x, Decision (P x)} l : StronglySorted R l → StronglySorted R (filter P l).
Proof.
  induction 1 as [|x l Hs IH Hx]; [constructor|]. rewrite filter_cons. case_decide; [|done]. constructor; [done|].
  apply Forall_forall. intros y [_ Hy]%list_elem_of_filter. rewrite Forall_forall in Hx. auto.
Qed.

Lemma filter_none {A} (P : A → Prop) `{!∀ x, Decision (P x)} (l : list A) : (∀ x, x ∈ l → ¬ P x) → filter P l = [].
Proof.
  induction l as [|x l IH]; intros Hl; [done|]. rewrite filter_cons_False by (apply Hl; by left). apply IH. intros y Hy. apply Hl. by right.
Qed.

Lemma page_rows_sorted org cursor l : StronglySorted schedule_le (page_rows org cursor l).
Proof. apply StronglySorted_merge_sort; apply _. Qed.

(** The rows of the caller, before they are sorted. *)
Definition own_rows (org : string) (l : list Schedule) : list Schedule := omap (λ s, rename_schedule s <$> unscope org (sch_name s)) l.

Definition past (cursor : option string) (s : Schedule) : Prop := is_some_and cursor (λ c, bool_decide (String.le (sch_name s) c)) = false.
#[local] Instance past_dec cursor s : Decision (past cursor s).
Proof. unfold past. apply _. Defined.

Lemma page_rows_Permutation org cursor l : page_rows org cursor l ≡ₚ filter (past cursor) (own_rows org l).
Proof.
  unfold page_rows, own_rows. rewrite merge_sort_Permutation. induction l as [|s l IH]; [done|]. simpl.
  destruct (unscope org (sch_name s)) as [name|]; simpl; [|exact IH]. rewrite filter_cons. case_decide as Hp; unfold past in Hp; simpl in Hp.
  - rewrite Hp. by f_equiv.
  - apply not_false_is_true in Hp. by rewrite Hp.
Qed.

Lemma own_rows_length org l : (length (own_rows org l) ≤ length l)%nat.
Proof.
  induction l as [|s l IH]; [done|]. unfold own_rows in *. simpl. destruct (unscope org (sch_name s)); [exact (le_n_S _ _ IH)|exact (le_S _ _ IH)].
Qed.

Lemma own_rows_names org l : NoDup (sch_name <$> l) → NoDup (sch_name <$> own_rows org l).
Proof.
  intros Hnd. assert (Hs : ∀ k, k ∈ sch_name <$> own_rows org l → ∃ s, s ∈ l ∧ unscope org (sch_name s) = Some k).
  { intros k (x & -> & Hx)%list_elem_of_fmap. apply list_elem_of_omap in Hx as (s & Hs & E). exists s. split; [done|].
    destruct (unscope org (sch_name s)) as [n|]; simplify_eq/=. done. }
  induction l as [|s l IH]; [constructor|]. apply NoDup_cons in Hnd as [Hn Hnd].
  assert (IH' : NoDup (sch_name <$> own_rows org l)).
  { apply IH; [done|]. intros k (x & -> & Hx)%list_elem_of_fmap. apply list_elem_of_omap in Hx as (t & Ht & E). exists t. split; [done|].
    destruct (unscope org (sch_name t)) as [n|]; simplify_eq/=. done. }
  unfold own_rows in *. simpl. destruct (unscope org (sch_name s)) as [n|] eqn:En; simpl; [|done]. constructor; [|done].
  intros (x & Ex & Hx)%list_elem_of_fmap. simpl in Ex. apply list_elem_of_omap in Hx as (t & Ht & E).
  destruct (unscope org (sch_name t)) as [n'|] eqn:Et; simplify_eq/=. destruct Hn. unfold unscope in *.
  apply strip_prefix_Some in En, Et. rewrite En, <- Et. apply list_elem_of_fmap. by exists t.
Qed.

Lemma same_name org l x y : NoDup (sch_name <$> l) → x ∈ own_rows org l → y ∈ own_rows org l → sch_name x = sch_name y → x = y.
Proof.
  intros Hnd%(own_rows_names org) [i Hi]%list_elem_of_lookup [j Hj]%list_elem_of_lookup E.
  assert (i = j) as ->; [|congruence]. apply (NoDup_lookup _ i j (sch_name x)) in Hnd; [done|..]; rewrite list_lookup_fmap; [by rewrite Hi|].
  by rewrite Hj, E.
Qed.

Lemma past_cursor org cursor l : NoDup (sch_name <$> l) → page_rows org cursor l = filter (past cursor) (page_rows org None l).
Proof.
  intros Hnd. apply (StronglySorted_unique_strong schedule_le).
  - intros x y Hx Hy Hxy Hyx. rewrite page_rows_Permutation in Hx. apply list_elem_of_filter in Hx as [_ Hx].
    apply list_elem_of_filter in Hy as [_ Hy]. rewrite page_rows_Permutation in Hy. apply list_elem_of_filter in Hy as [_ Hy].
    apply (same_name org l); [done..|]. unfold schedule_le in *. by apply (anti_symm String.le).
  - apply page_rows_sorted.
  - apply StronglySorted_filter, page_rows_sorted.
  - etrans; [apply page_rows_Permutation|]. rewrite (filter_Permutation _ _ _ (page_rows_Permutation org None l)), list_filter_filter.
    erewrite list_filter_iff; [done|]. intros x. split; [by intros ?; split|by intros []].
Qed.

Lemma last_take_drop rows limit s :
  StronglySorted schedule_le rows → NoDup (sch_name <$> rows) → last (take limit rows) = Some s →
  filter (past (Some (sch_name s))) rows = drop limit rows.
Proof.
  intros Hs Hnd Hl. rewrite <- (take_drop limit rows) in Hs, Hnd |- * at 1. apply last_Some in Hl as [front Hf]. rewrite Hf in *.
  rewrite filter_app. rewrite fmap_app in Hnd. apply NoDup_app in Hnd as (_ & Hd & _).
  apply StronglySorted_app in Hs as (Hcross & Hs & _). rewrite filter_none, filter_all; [done|..].
  - intros x Hx. unfold past. simpl. apply bool_decide_eq_false. intros Hle.
    assert (Hin : s ∈ front ++ [s]) by set_solver. specialize (Hcross s x Hin Hx). unfold schedule_le in Hcross.
    apply (Hd (sch_name x)); [|by apply list_elem_of_fmap_2]. rewrite (anti_symm String.le _ _ Hle Hcross). by apply list_elem_of_fmap_2.
  - intros x Hx. unfold past. simpl. intros Hfalse%bool_decide_eq_false. destruct Hfalse.
    apply elem_of_app in Hx as [Hx| ->%list_elem_of_singleton]; [|done]. apply StronglySorted_app in Hs as (Hc & _ & _).
    apply (Hc x s Hx). by apply list_elem_of_singleton.
Qed.

Lemma page_names org cursor l : NoDup (sch_name <$> l) → NoDup (sch_name <$> page_rows org cursor l).
Proof.
  intros Hnd. rewrite page_rows_Permutation. eapply sublist_NoDup; [by apply (own_rows_names org)|]. apply fmap_sublist, sublist_filter.
Qed.

Lemma past_past c c' (l : list Schedule) : String.le c c' → filter (past (Some c')) (filter (past (Some c)) l) = filter (past (Some c')) l.
Proof.
  intros Hle. rewrite list_filter_filter. apply list_filter_iff. intros x. unfold past. simpl. rewrite !bool_decide_eq_false.
  split; [by intros []|]. intros Hx. split; [done|]. intros Hc. apply Hx. by etrans.
Qed.

(** C36: Paging loses nothing and repeats nothing: over an unchanged set of
    schedules, a client that follows the cursors of the pages collects exactly its
    own schedules, once each and in the order of their names, whatever the page
    size. *)
Theorem paging_exhaustive (org : string) (limit : nat) (l : list Schedule) (fuel : nat)
    (Hnd : NoDup (sch_name <$> l)) (Hlimit : (1 ≤ limit)%nat) (Hfuel : (length l < fuel)%nat) :
  follow fuel org limit l None = page_rows org None l.
Proof.
  enough (Hgen : ∀ cursor, (length (page_rows org cursor l) < fuel)%nat → follow fuel org limit l cursor = page_rows org cursor l).
  { apply Hgen. rewrite page_rows_Permutation. eapply Nat.le_lt_trans; [apply length_filter|]. eapply Nat.le_lt_trans; [apply own_rows_length|done]. }
  clear Hfuel. induction fuel as [|fuel IH]; intros cursor Hlen; [lia|]. simpl.
  unfold next_cursor. destruct (Nat.ltb_spec limit (length (page_rows org cursor l))) as [Hlt|Hge].
  - destruct (last (take limit (page_rows org cursor l))) as [s|] eqn:El.
    + assert (Hd : page_rows org (Some (sch_name s)) l = drop limit (page_rows org cursor l)).
      { rewrite <- (last_take_drop _ _ s) by (apply page_rows_sorted || by apply page_names || done).
        rewrite (past_cursor org (Some (sch_name s))), (past_cursor org cursor) by done.
        destruct cursor as [c|]; [|by rewrite (filter_all (past None))]. symmetry. apply past_past.
        assert (Hin : s ∈ page_rows org (Some c) l).
        { apply last_Some_elem_of in El. by apply (elem_of_take _ limit) in El as (? & ?%list_elem_of_lookup_2 & _). }
        rewrite page_rows_Permutation in Hin. apply list_elem_of_filter in Hin as [Hp _]. unfold past in Hp. simpl in Hp.
        apply bool_decide_eq_false in Hp. destruct (base.total String.le c (sch_name s)); done. }
      simpl. rewrite IH, Hd; [apply take_drop|]. rewrite Hd, length_drop. lia.
    + apply last_None in El. apply (f_equal length) in El. rewrite length_take in El. simpl in El. lia.
  - rewrite app_nil_r. apply take_ge. lia.
Qed.
End paging.
