(* ===== verification/DiscoveryApi.v ===== *)
(** Service discovery over HTTP, src/discovery.rs: the registry handlers and the
    watch, which is a loop over what wakes it: a change of the shard, a lag, the
    end of the bus, or the timer of the earliest lease. *)

From S2P Require Import Prelude Json Text Cancellation Services Command StateMachine RaftTypes ShardActor Reads Http NodeRouter Handler KvApi Validate OrgScope.

Definition WATCH_MAX_RECONCILE_MS : Z := 60000.
Definition WATCH_EXPIRY_SAFETY_MARGIN_MS : Z := 2.

(** [metadata.<name>=<value>] of the query string. *)
Definition metadata_filters (query : gmap string string) : list (string * string) :=
  omap (λ kv, name ← strip_prefix "metadata." kv.1; if String.eqb (trim name) "" then None else Some (name, kv.2)) (map_to_list query).

Definition filter_instances (instances : list ServiceInstance) (filters : list (string * string)) : list ServiceInstance :=
  filter (λ i, Forall (λ f, inst_metadata i !! f.1 = Some f.2) filters) instances.

Section api.
Context `{HeaderLib, Scoping, HashOrder}.

Definition list_services_handler (org : string) : Handler :=
  ListingServices (λ l,
    let services := omap (λ s, (λ name, service_summary (name, s.2)) <$> unscope org s.1) l in
    Respond (json_ok (json! ["count" :- length services; "services" :- services]))).

Definition list_instances (org service : string) (query : gmap string string) : Handler :=
  query_for (ReadService (scope org service)) (λ r,
    match r with
    | GotService l => Some (json_ok (json! ["service" :- service; "instances" :- filter_instances l (metadata_filters query)]))
    | _ => None
    end).

Definition register (org service id address : string) (ttl_ms : Z) (metadata : option (gmap string string)) : Handler :=
  let metadata := default ∅ metadata in
  checked_then (service_register service id address ttl_ms metadata)
    (propose_for org (ServiceRegister (scope org service) id address ttl_ms metadata)).

Definition heartbeat (org service id : string) (ttl_ms : option Z) : Handler :=
  checked_then (check_some ttl ttl_ms) (propose_for org (ServiceHeartbeat (scope org service) id ttl_ms)).

Definition deregister (org service id : string) : Handler := propose_for org (ServiceDeregister (scope org service) id).
End api.

(** ** The watch *)

Record WatchMessage : Type := mkMessage {
  msg_event : string;
  msg_id : option Z;
  msg_data : Value
}.

Inductive SnapshotReadError : Type := Consensus | UnexpectedResponse.

(** [read_service_instances] *)
Definition service_answer (r : result ReadResponse ProposeError) : result (list ServiceInstance) SnapshotReadError :=
  match r with
  | Ok (GotService l) => Ok l
  | Ok _ => Err UnexpectedResponse
  | Err _ => Err Consensus
  end.

Definition snapshot_message (service reason : string) (trigger_revision skipped_events : option Z) (instances : list ServiceInstance) : WatchMessage :=
  mkMessage "snapshot" trigger_revision
    (JObj (["scope" :- "service"; "kind" :- "snapshot"; "service" :- service; "trigger_revision" :- trigger_revision; "reason" :- reason;
            "authoritative" :- true; "instances" :- instances]%json ++ skip_none "skipped_events" skipped_events)).

Definition unavailable_message (service reason : string) : WatchMessage :=
  mkMessage "unavailable" None
    (json! ["scope" :- "service"; "kind" :- "unavailable"; "service" :- service; "reason" :- reason; "retryable" :- true]).

Definition change_message `{Scoping} (org : string) (c : ChangeEvent) : result WatchMessage string :=
  match unscope_value org (change_value c (change_key c)) false with
  | Some v => Ok (mkMessage (change_kind c) (Some (change_revision c)) v)
  | None => Err "org_scope_violation"
  end.

(** The earliest lease decides when the watcher looks again. *)
Definition earliest (instances : list ServiceInstance) : option Z :=
  foldr (λ i acc, Some (match acc with None => inst_lease i | Some m => Z.min (inst_lease i) m end)) None instances.

Definition reconcile_delay_at (instances : list ServiceInstance) (now_ms : Z) : Z :=
  match earliest instances with
  | None => WATCH_MAX_RECONCILE_MS
  | Some expires => Z.max 1 (Z.min (sat_add (sat_sub expires now_ms) WATCH_EXPIRY_SAFETY_MARGIN_MS) WATCH_MAX_RECONCILE_MS)
  end.

(** What wakes the loop, with the read it would make then. *)
Inductive Wake : Type :=
| ClientGone
| BusEvent (c : ChangeEvent)
| BusLagged (skipped : Z)
| BusClosed
| TimerFired.

Record Turn : Type := mkTurn {
  wake : Wake;
  turn_read : result (list ServiceInstance) SnapshotReadError
}.

(** [publish_snapshot]: the message, and whether the loop goes on. *)
Definition publish_snapshot (service reason : string) (revision skipped : option Z) (r : result (list ServiceInstance) SnapshotReadError) :
    WatchMessage * bool :=
  match r with
  | Ok instances => (snapshot_message service reason revision skipped instances, true)
  | Err Consensus => (unavailable_message service "consensus_unavailable", false)
  | Err UnexpectedResponse => (unavailable_message service "unexpected_read_response", false)
  end.

Section watch.
Context `{Scoping}.

(** One turn of [run_watch]: what it sends, and whether it goes on. *)
Definition watch_turn (org service scoped_service : string) (t : Turn) : list WatchMessage * bool :=
  match wake t with
  | ClientGone => ([], false)
  | BusEvent c =>
      if negb (String.eqb (ShardActor.scope c) "service") || negb (String.eqb (change_key c) scoped_service) then ([], true)
      else match change_message org c with
           | Err reason => ([unavailable_message service reason], false)
           | Ok message =>
               let '(snap, go) := publish_snapshot service "change" (Some (change_revision c)) None (turn_read t) in ([message; snap], go)
           end
  | BusLagged skipped =>
      let '(snap, go) := publish_snapshot service "lagged" None (Some skipped) (turn_read t) in ([snap], go)
  | BusClosed => ([unavailable_message service "change_bus_closed"], false)
  | TimerFired => let '(snap, go) := publish_snapshot service "lease_reconcile" None None (turn_read t) in ([snap], go)
  end.

Fixpoint watch_loop (org service scoped_service : string) (turns : list Turn) : list WatchMessage :=
  match turns with
  | [] => []
  | t :: turns =>
      let '(sent, go) := watch_turn org service scoped_service t in
      sent ++ (if go then watch_loop org service scoped_service turns else [])
  end.

Definition run_watch (org service : string) (initial : list ServiceInstance) (turns : list Turn) : list WatchMessage :=
  snapshot_message service "initial" None None initial :: watch_loop org service (scope org service) turns.
End watch.

(** ** What a subscriber may rely on *)

(** A turn that sends the registry again, and lets the watch go on. *)
Definition relevant (scoped_service : string) (t : Turn) : bool :=
  match wake t with
  | BusEvent c => String.eqb (ShardActor.scope c) "service" && String.eqb (change_key c) scoped_service
  | BusLagged _ | TimerFired => true
  | ClientGone | BusClosed => false
  end.

Definition goes_on `{Scoping} (org service : string) (t : Turn) : Prop := (watch_turn org service (scope org service) t).2 = true.

(** The registry as it was read last. *)
Definition last_view `{Scoping} (org service : string) (initial : list ServiceInstance) (turns : list Turn) : list ServiceInstance :=
  foldl (λ view t, if relevant (scope org service) t then match turn_read t with Ok l => l | Err _ => view end else view) initial turns.

Definition shows (service : string) (view : list ServiceInstance) (m : option WatchMessage) : Prop :=
  ∃ reason revision skipped, m = Some (snapshot_message service reason revision skipped view).

Section subscriber.
Context `{Scoping}.

(** A turn that goes on sends nothing, or ends with what it read. *)
Lemma turn_shows org service t :
  goes_on org service t →
  if relevant (scope org service) t
  then ∃ l, turn_read t = Ok l ∧ shows service l (last (watch_turn org service (scope org service) t).1)
  else (watch_turn org service (scope org service) t).1 = [].
Proof.
  unfold goes_on, relevant, watch_turn. destruct (wake t) as [|c|n| |]; try done.
  - destruct (String.eqb (ShardActor.scope c) "service"), (String.eqb (change_key c) (scope org service)); simpl; try done.
    destruct (change_message org c); [|done]. destruct (turn_read t) as [l|[]]; simpl; try done. intros _. exists l. split; [done|].
    by eexists _, _, _.
  - destruct (turn_read t) as [l|[]]; simpl; try done. intros _. exists l. split; [done|]. by eexists _, _, _.
  - destruct (turn_read t) as [l|[]]; simpl; try done. intros _. exists l. split; [done|]. by eexists _, _, _.
Qed.

Lemma last_app_ne {A} (l l' : list A) x : last l' = Some x → last (l ++ l') = Some x.
Proof. intros E. by rewrite last_app, E. Qed.

Lemma watch_loop_snoc org service ss turns t :
  Forall (λ t, (watch_turn org service ss t).2 = true) turns →
  watch_loop org service ss (turns ++ [t]) = watch_loop org service ss turns ++ (watch_turn org service ss t).1.
Proof.
  induction 1 as [|u turns Hu _ IH]; simpl.
  - destruct (watch_turn org service ss t) as [sent []]; simpl; by rewrite app_nil_r.
  - destruct (watch_turn org service ss u) as [sent go]. simpl in Hu. subst go. by rewrite IH, app_assoc.
Qed.

(** C35: A subscriber never holds a stale registry: as long as the watch lives, the
    last message it sent is a snapshot of the instances as they were read when a
    change of the service, a lag of the bus or the lease timer last woke it; no
    change is passed on without a fresh snapshot behind it. *)
Theorem watch_shows_last_read (org service : string) (initial : list ServiceInstance) (turns : list Turn)
    (Hgo : Forall (goes_on org service) turns) :
  shows service (last_view org service initial turns) (last (run_watch org service initial turns)).
Proof.
  unfold last_view. induction turns as [|t turns IH] using rev_ind; [by eexists _, _, _|].
  apply Forall_app in Hgo as [Hgo [Ht _]%Forall_cons]. unfold run_watch. rewrite watch_loop_snoc by done. rewrite foldl_app. simpl.
  specialize (IH Hgo). pose proof (turn_shows org service t Ht) as Hs. destruct (relevant (scope org service) t).
  - destruct Hs as (l & -> & reason & rev & skipped & E). exists reason, rev, skipped. by apply (last_app_ne (_ :: _)).
  - rewrite Hs, app_nil_r. exact IH.
Qed.
End subscriber.

Lemma earliest_le instances i : i ∈ instances → ∃ e, earliest instances = Some e ∧ e ≤ inst_lease i.
Proof.
  induction instances as [|j l IH]; [by intros ?%elem_of_nil|].
  change (earliest (j :: l)) with (Some (match earliest l with None => inst_lease j | Some m => Z.min (inst_lease j) m end)).
  intros [->|Hi]%elem_of_cons; (eexists; split; [done|]).
  - destruct (earliest l); lia.
  - destruct (IH Hi) as (e & Ee & Hle). rewrite Ee. lia.
Qed.

Lemma earliest_elem instances e : earliest instances = Some e → ∃ i, i ∈ instances ∧ e = inst_lease i.
Proof.
  revert e. induction instances as [|j l IH]; [done|]. intros e [= <-]. fold (earliest l) in *. destruct (earliest l) as [m|].
  - destruct (IH m eq_refl) as (i & Hi & ->). destruct (Z.le_ge_cases (inst_lease j) (inst_lease i)).
    + exists j. split; [by left|lia].
    + exists i. split; [by right|lia].
  - exists j. split; [by left|done].
Qed.

(** The timer is never idle and never more than a minute away; it fires past the
    earliest lease when that is near, so the next snapshot no longer has it. *)
Lemma reconcile_delay_spec instances now :
  1 ≤ reconcile_delay_at instances now ≤ WATCH_MAX_RECONCILE_MS ∧
  ∀ i, i ∈ instances → now < inst_lease i ≤ U64_MAX - 2 → 0 ≤ now →
    let woken := now + reconcile_delay_at instances now in
    woken ≤ inst_lease i + WATCH_EXPIRY_SAFETY_MARGIN_MS ∧
    (reconcile_delay_at instances now < WATCH_MAX_RECONCILE_MS → ∃ j, j ∈ instances ∧ inst_lease j < woken).
Proof.
  unfold reconcile_delay_at, WATCH_MAX_RECONCILE_MS, WATCH_EXPIRY_SAFETY_MARGIN_MS, sat_add, sat_sub, U64_MAX.
  split; [case_match; lia|]. intros i Hi Hl Hn. destruct (earliest_le _ _ Hi) as (e & Ee & Hle). rewrite Ee. cbv zeta.
  split; [lia|]. intros Hlt. destruct (earliest_elem _ _ Ee) as (j & Hj & ->). exists j. split; [done|]. lia.
Qed.
