(* ===== verification/Watches.v ===== *)
(** The watch handlers of src/kv.rs, src/election.rs and src/discovery.rs over
    the node of src/consensus.rs: the shard a watch subscribes to and the stream
    it makes of what the shard publishes; the election stream filters a broadcast
    without marking what it lost.  Every committed change of a key, an election
    or a service that is more than a lapsed lease is published on the shard its
    watch listens to, and shown. *)

From S2P Require Import Prelude Json Text Cancellation Registers Elections Services Command StateMachine RaftTypes RaftCallback Persist ShardActor Reads Sharding Http NodeRouter Net KvCrypto Handler KvApi DiscoveryApi Snapshot RaftMachine Validate OrgScope.

(** What a KV request with [watch] subscribes to, under storage names. *)
Inductive WatchPlan : Type :=
| WatchKey (storage_key : string)
| WatchPrefix (storage_prefix : string)
| WatchRefused (r : Response).

Section watches.
Context `{Scoping}.

Definition watch_plan (org : string) (q : KvParams) : WatchPlan :=
  match kp_key q, kp_prefix q with
  | Some key, _ => WatchKey (scope org key)
  | None, Some prefix => WatchPrefix (scope org prefix)
  | None, None => WatchRefused (kv_bad_request "watch requires `key` or `prefix`")
  end.

Definition election_event (org scoped_name : string) (c : ChangeEvent) : option Event :=
  if negb (String.eqb (ShardActor.scope c) "election") || negb (String.eqb (change_key c) scoped_name) then None
  else Data (change_kind c) <$> unscope_value org (change_value c (change_key c)) false.

(** The election stream of a receiver that yields [items]. *)
Definition election_events (org name : string) (items : list Received) : list Event :=
  omap (λ item, match item with Change c => election_event org (scope org name) c | Lagged _ => None end) items.

(** An election stream looks the same whether or not events were lost: a watcher
    cannot tell a quiet election from one whose changes it missed. *)
Lemma election_gap_silent org name before skipped after :
  election_events org name (before ++ Lagged skipped :: after) = election_events org name (before ++ after).
Proof. unfold election_events. by rewrite !omap_app. Qed.

(** The key stream of the configuration store marks the same gap. *)
Lemma kv_gap_marked org key before skipped after :
  (∀ x, x ∈ before → ∃ c, x = Change c) →
  last (single_key_events org key (before ++ Lagged skipped :: after)) = Some (resync_required_event "lagged" (Some skipped)).
Proof.
  intros Hb. unfold single_key_events. rewrite receiver_stream_gap.
  assert (E : (until_gap (before ++ Lagged skipped :: after)).2 = Some skipped).
  { induction before as [|x before IH]; [done|]. destruct (Hb x ltac:(by left)) as [c ->]. simpl.
    destruct (until_gap (before ++ Lagged skipped :: after)) eqn:Eu. simpl in *. apply IH. intros y Hy. apply Hb. by right. }
  destruct (until_gap _) as [cs gap]. simpl in E. subst gap. by rewrite last_snoc.
Qed.
End watches.

(** What a watch answers with: a response, or a stream over what the bus of a
    shard, the buses of several, or the turns of [run_watch] yield. *)
Inductive WatchReply : Type :=
| Answered (r : Response)
| KeyStream (shard : Z) (events : list Received → list Event)
| MergedStream (shards : list Z) (events : list (option Received) → list Event)
| ServiceStream (shard : Z) (messages : list Turn → list WatchMessage).

Section watches.
Context `{HeaderLib, DiskFormat, Scoping, HashOrder, Serde, Wire, Routing, ShardMap}.

(** [Node::watch] and [Node::watch_all]: the shards subscribed to. *)
Definition node_watch (node : Node) (key : string) : option Z :=
  let shard := shard_for node key in (λ _, shard) <$> sender node shard.

Definition watch_all (node : Node) : list Z :=
  omap (λ s, (λ _, s.1) <$> s.2) (merge_sort shard_le (shards node)).

Definition kv_watch_unavailable : Response := json_ok (json! ["error" :- "unavailable"; "op" :- "kv.watch"]).

Definition watch_prefix (node : Node) (org prefix : string) : WatchReply :=
  match watch_all node with
  | [] => Answered kv_watch_unavailable
  | receivers => MergedStream receivers (prefix_events org prefix)
  end.

Definition kv_watch (node : Node) (org key : string) : WatchReply :=
  match node_watch node key with
  | None => Answered kv_watch_unavailable
  | Some shard => KeyStream shard (single_key_events org key)
  end.

(** [get_or_list] with [watch]. *)
Definition kv_watch_request (node : Node) (org : string) (q : KvParams) : WatchReply :=
  match watch_plan org q with
  | WatchKey storage_key => kv_watch node org storage_key
  | WatchPrefix storage_prefix => watch_prefix node org storage_prefix
  | WatchRefused r => Answered r
  end.

Definition election_watch (node : Node) (org name : string) : WatchReply :=
  match node_watch node (scope org name) with
  | None => Answered (json_ok (json! ["error" :- "unavailable"; "op" :- "election.watch"; "name" :- name]))
  | Some shard => KeyStream shard (election_events org name)
  end.

(** The watch of a service subscribes, then reads. *)
Definition service_watch (e : Env) (node : Node) (org service : string) : WatchReply :=
  match node_watch node SERVICE_DOMAIN with
  | None => Answered (json_ok (json! ["error" :- "unavailable"; "op" :- "discovery.watch"; "service" :- service]))
  | Some shard =>
      match query_result e (ReadService (scope org service)) node with
      | Ok (GotService instances) => ServiceStream shard (run_watch org service instances)
      | Ok _ => Answered (json_ok (json! ["error" :- "unavailable"; "op" :- "discovery.watch.snapshot"; "service" :- service]))
      | Err err => Answered (read_error_response err)
      end
  end.

(** ** Changes are published *)

Ltac announced :=
  cbn -[lookup]; repeat (case_match; simplify_eq/=); intros Hne; try done;
  match type of Hne with
  | <[?k := _]> _ !! ?k' ≠ _ => destruct (decide (k = k')) as [->|]; [|by rewrite lookup_insert_ne in Hne]
  | delete ?k _ !! ?k' ≠ _ => destruct (decide (k = k')) as [->|]; [|by rewrite lookup_delete_ne in Hne]
  end; eexists; split_and!; reflexivity.

Lemma kv_published st revision now c r key :
  kv (dispatch st revision now c).1 !! key ≠ kv st !! key →
  ∃ ev, change_of c (dispatch st revision now c).2 r = Some ev ∧ ShardActor.scope ev = "kv" ∧ is_kv_change (change_kind ev) = true ∧
        change_key ev = key ∧ routing_key c = key.
Proof. destruct c; try done; unfold dispatch, apply_activation, apply_kv_put, apply_kv_delete; announced. Qed.

Lemma election_published st revision now c r key :
  elections (dispatch st revision now c).1 !! key ≠ elections st !! key →
  ∃ ev, change_of c (dispatch st revision now c).2 r = Some ev ∧ ShardActor.scope ev = "election" ∧ change_key ev = key ∧ routing_key c = key.
Proof.
  destruct c; try done; unfold dispatch, apply_activation, apply_election_campaign, apply_election_renew, apply_election_resign; announced.
Qed.

(** After a sweep no service is left without instances. *)
Lemma swept_nonempty st c ts service : is_activation c = false → services (prepare st c ts) !! service ≠ Some ∅.
Proof.
  intros Ha. unfold prepare. rewrite Ha. cbn -[lookup]. unfold services_expire_due. rewrite lookup_retain.
  destruct (_ !! service) as [ins|]; [|done]. cbn. case_bool_decide as Hi; cbn; [done|]. congruence.
Qed.

Lemma deregister_unknown (ss : service_map) service id :
  ss !! service ≠ Some ∅ → is_some_and (ss !! service) (λ ins, bool_decide (is_Some (ins !! id))) = false →
  (apply_service_deregister ss service id).1 = ss.
Proof.
  intros Hne Hno. unfold apply_service_deregister. cbn -[lookup]. destruct (ss !! service) as [ins|] eqn:E; [|by rewrite E].
  cbn in Hno. apply bool_decide_eq_false in Hno. rewrite delete_id by (by apply eq_None_not_Some).
  rewrite insert_id by done. rewrite E. cbn. by rewrite bool_decide_false by congruence.
Qed.

Lemma deregister_elsewhere (ss : service_map) service id key :
  key ≠ service → (apply_service_deregister ss service id).1 !! key = ss !! key.
Proof.
  intros Hne. unfold apply_service_deregister. cbn -[lookup].
  repeat case_match; rewrite ?lookup_delete_ne, ?lookup_insert_ne by done; done.
Qed.

Lemma service_published st revision now c r key :
  (∀ service, is_activation c = false → services st !! service ≠ Some ∅) →
  services (dispatch st revision now c).1 !! key ≠ services st !! key →
  ∃ ev, change_of c (dispatch st revision now c).2 r = Some ev ∧ ShardActor.scope ev = "service" ∧ change_key ev = key ∧
        routing_key c = SERVICE_DOMAIN.
Proof.
  intros Hst. destruct c; try done; unfold dispatch, apply_activation.
  - by repeat case_match.
  - unfold apply_service_register. announced.
  - unfold apply_service_heartbeat. announced.
  - cbn -[lookup apply_service_deregister]. intros Hne.
    destruct (decide (key = service)) as [->|Hk]; [|by rewrite deregister_elsewhere in Hne].
    destruct (is_some_and (services st !! service) (λ ins, bool_decide (is_Some (ins !! instance_id)))) eqn:E.
    + unfold apply_service_deregister. cbn -[lookup]. rewrite E. eexists. split_and!; reflexivity.
    + rewrite deregister_unknown in Hne; [done|by apply Hst|done].
Qed.

(** ** Changes are shown *)

(** The stream of a watch that nothing was lost of shows [shown] for the change [c] of a shard. *)
Definition sees (w : WatchReply) (shard : Z) (c : ChangeEvent) (shown : Event) : Prop :=
  match w with
  | KeyStream s events => s = shard ∧ ∀ before after, shown ∈ events ((Change <$> before) ++ Change c :: after)
  | MergedStream ss events => shard ∈ ss ∧ ∀ before after, shown ∈ events ((Some ∘ Change <$> before) ++ Some (Change c) :: after)
  | _ => False
  end.

Lemma hosted_watch node key : is_Some (sender node (shard_for node key)) → node_watch node key = Some (shard_for node key).
Proof. intros [a Ha]. unfold node_watch. by rewrite Ha. Qed.

Lemma hosted_in_all node shard : is_Some (sender node shard) → shard ∈ watch_all node.
Proof.
  intros [a Ha]. unfold watch_all. apply list_elem_of_omap. exists (shard, Some a). split; [|done].
  rewrite merge_sort_Permutation. unfold sender in Ha. induction (shards node) as [|[s b] l IH]; [done|]. cbn in Ha.
  destruct (Z.eqb_spec s shard) as [->|]; [subst b; by left|right; by apply IH].
Qed.

Lemma key_stream_shows org key before c after :
  matches_key key c = true → unscoped_change_event org c ∈ single_key_events org key ((Change <$> before) ++ Change c :: after).
Proof.
  intros Hc. unfold single_key_events, receiver_stream. induction before as [|b before IH]; cbn.
  - rewrite Hc. by left.
  - destruct (matches_key key b); cbn; [right|]; exact IH.
Qed.

Lemma prefix_stream_shows org prefix before c after :
  matches_prefix prefix c = true →
  unscoped_change_event org c ∈ prefix_events org prefix ((Some ∘ Change <$> before) ++ Some (Change c) :: after).
Proof.
  intros Hc. unfold prefix_events. induction before as [|b before IH]; cbn.
  - rewrite Hc. by left.
  - destruct (matches_prefix prefix b); cbn; [right|]; exact IH.
Qed.

Lemma election_stream_shows org name before c after shown :
  election_event org (scope org name) c = Some shown → shown ∈ election_events org name ((Change <$> before) ++ Change c :: after).
Proof. intros Hc. unfold election_events. rewrite omap_app. apply elem_of_app. right. cbn. rewrite Hc. by left. Qed.

Definition service_shown (org service : string) (c : ChangeEvent) : WatchMessage :=
  match change_message org c with Ok m => m | Err reason => unavailable_message service reason end.

Lemma service_stream_shows org service initial before t after c :
  Forall (goes_on org service) before → wake t = BusEvent c → ShardActor.scope c = "service" → change_key c = scope org service →
  service_shown org service c ∈ run_watch org service initial (before ++ t :: after).
Proof.
  intros Hb Ht Hs Hk. unfold run_watch. right. induction Hb as [|u before Hu Hb IH]; cbn.
  - unfold watch_turn. rewrite Ht, Hs, Hk, !String.eqb_refl. cbn. unfold service_shown.
    destruct (change_message org c); [destruct (publish_snapshot _ _ _ _ _)|]; by left.
  - unfold goes_on in Hu. destruct (watch_turn org service (scope org service) u) as [sent go]. cbn in Hu. subst go.
    apply elem_of_app. by right.
Qed.

(** C34: No watch misses a change: when a committed command leaves a key, an
    election or a service of an organisation other than the sweep of its clock
    leaves it, the shard that applies the command publishes one change, and
    every watch of that name (of the key, of a prefix of it, of the election or
    of the service) listens on that shard and shows it, with the name as the
    client knows it, as long as its receiver has lost nothing before; the change
    of an election is shown as the response filter renders it. *)
Theorem watches_miss_nothing `{!ScopingLaws} (e : Env) (node : Node) (st : Store) (command : Command) (ts : Z) (org name : string)
    (Hosted : is_Some (sender node (shard_for node (routing_key command)))) :
  let shard := shard_for node (routing_key command) in
  let swept := prepare st command ts in
  let '(st', applied) := apply_at st command ts in
  let published := change_of command (output applied) (applied_revision applied) in
  (kv st' !! scope org name ≠ kv swept !! scope org name →
     ∃ c, published = Some c ∧
       let shown := Data (change_kind c) (change_value c name) in
       sees (kv_watch_request node org (mkKvParams (Some name) None)) shard c shown ∧
       ∀ prefix, String.prefix (scope org prefix) (scope org name) = true →
         sees (kv_watch_request node org (mkKvParams None (Some prefix))) shard c shown) ∧
  (elections st' !! scope org name ≠ elections swept !! scope org name →
     ∃ c, published = Some c ∧
       ∀ shown, election_event org (scope org name) c = Some shown → sees (election_watch node org name) shard c shown) ∧
  (services st' !! scope org name ≠ services swept !! scope org name →
     ∃ c, published = Some c ∧
       ∀ s messages, service_watch e node org name = ServiceStream s messages →
         s = shard ∧ ∀ before t after, Forall (goes_on org name) before → wake t = BusEvent c →
           service_shown org name c ∈ messages (before ++ t :: after)).
Proof.
  intros shard swept. destruct (apply_at st command ts) as [st' applied] eqn:E. unfold apply_at in E.
  destruct (dispatch _ _ _ _) as [st1 out] eqn:Ed in E. injection E as <- <-. fold swept in Ed. cbn -[lookup].
  split_and!.
  - intros Hne. destruct (kv_published swept (revision swept) ts command (revision swept) (scope org name)) as (c & Hc & Hs & Hkd & Hk & Hr);
      [by rewrite Ed|]. rewrite Ed in Hc. exists c. split; [done|].
    assert (Hm : unscoped_change_event org c = Data (change_kind c) (change_value c name)).
    { unfold unscoped_change_event. by rewrite (proj2 (unscope_Some org _ name) Hk). }
    rewrite <-Hm. split.
    + cbn. unfold kv_watch. unfold shard. rewrite Hr in *. rewrite hosted_watch by done. cbn. split; [done|]. intros before after.
      apply key_stream_shows. unfold matches_key. by rewrite Hs, Hk, !String.eqb_refl.
    + intros prefix Hp. cbn. unfold watch_prefix. pose proof (hosted_in_all node shard Hosted) as Hin.
      destruct (watch_all node) as [|s ss]; [by apply elem_of_nil in Hin|]. cbn -[elem_of]. split; [done|]. intros before after.
      apply prefix_stream_shows. unfold matches_prefix. by rewrite Hs, Hkd, Hk, Hp.
  - intros Hne. destruct (election_published swept (revision swept) ts command (revision swept) (scope org name)) as (c & Hc & Hs & Hk & Hr);
      [by rewrite Ed|]. rewrite Ed in Hc. exists c. split; [done|]. intros shown Hsh. unfold election_watch, shard. rewrite Hr in *.
    rewrite hosted_watch by done. split; [done|]. intros before after. by apply election_stream_shows.
  - intros Hne. destruct (service_published swept (revision swept) ts command (revision swept) (scope org name)) as (c & Hc & Hs & Hk & Hr);
      [intros service Ha; by apply swept_nonempty|by rewrite Ed|]. rewrite Ed in Hc. exists c. split; [done|].
    intros s messages. unfold service_watch, shard. rewrite Hr in *. rewrite hosted_watch by done.
    destruct (query_result _ _ _) as [[]|]; try done. intros [= <- <-]. split; [done|].
    intros before t after Hb Ht. by apply service_stream_shows.
Qed.
End watches.
