(* ===== verification/InternalAuth.v ===== *)
(** The trusted-hop gate of src/internal_auth.rs, which stands before every
    client and peer request. *)

From Stdlib Require Import Ascii.
From S2P Require Import Prelude Json Text Http KvApi.

Definition INTERNAL_AUTH_HEADER : string := "x-fiducia-internal-auth".

Definition xor_byte (x y : ascii) : N := N.lxor (byte_at x) (byte_at y).

(** The loop over the zipped bytes. *)
Definition fold_diff (a b : list ascii) : N := foldl (λ diff p, N.lor diff (xor_byte p.1 p.2)) 0%N (zip a b).

Definition constant_time_eq (a b : list ascii) : bool :=
  if negb (Nat.eqb (length a) (length b)) then false else N.eqb (fold_diff a b) 0.

(** [debug] stands for [cfg!(debug_assertions)]. *)
Definition authorized (debug : bool) (expected provided : option string) (allow_insecure : bool) : bool :=
  match expected with
  | None => debug && allow_insecure
  | Some secret =>
      match provided with
      | Some p => constant_time_eq (String.list_ascii_of_string p) (String.list_ascii_of_string secret)
      | None => false
      end
  end.

(** The configuration the process reads once: the secret, and the opt-out that
    release builds compile out. *)
Definition configured (env : string → option string) : option string :=
  s ← env "FIDUCIA_INTERNAL_SECRET"; let s := trim s in if String.eqb s "" then None else Some s.

Definition allow_insecure (debug : bool) (env : string → option string) : bool :=
  debug && match env "FIDUCIA_ALLOW_INSECURE_INTERNAL" with
           | Some v => let v := trim v in String.eqb v "1" || String.eqb (to_ascii_lowercase v) "true"
           | None => false
           end.

(** The first value of a header, when it is text. *)
Definition header_str `{HeaderLib} (headers : HeaderMap) (name : string) : option string :=
  raw ← head (get_all headers name); header_text raw.

Definition unauthorized : Response :=
  respond 401 (json! ["error" :- "unauthorized";
                      "detail" :- "missing or invalid internal auth; this endpoint is cluster-internal"]).

(** [guard]: the refusal, or [None] when the request goes on. *)
Definition guard `{HeaderLib} (debug : bool) (env : string → option string) (headers : HeaderMap) : option Response :=
  if authorized debug (configured env) (header_str headers INTERNAL_AUTH_HEADER) (allow_insecure debug env)
  then None else Some unauthorized.

(** ** The comparison without early exit is equality *)

Lemma fold_diff_zero l : ∀ acc, foldl (λ diff p, N.lor diff (xor_byte p.1 p.2)) acc l = 0%N ↔ acc = 0%N ∧ Forall (λ p, p.1 = p.2) l.
Proof.
  induction l as [|[x y] l IH]; intros acc; simpl; [split; [auto|tauto]|].
  rewrite IH, N.lor_eq_0_iff, Forall_cons. unfold xor_byte, byte_at. simpl.
  rewrite N.lxor_eq_0_iff. split; intros; destruct_and!; split_and!; try done; [|congruence].
  rewrite <- (ascii_N_embedding x), <- (ascii_N_embedding y). congruence.
Qed.

Lemma constant_time_eq_spec a b : constant_time_eq a b = true ↔ a = b.
Proof.
  unfold constant_time_eq. destruct (Nat.eqb_spec (length a) (length b)) as [Hl|Hl]; simpl.
  - rewrite N.eqb_eq. unfold fold_diff. rewrite fold_diff_zero. split; [|intros ->; split; [done|]].
    + intros [_ Hf]. revert b Hl Hf. induction a as [|x a IH]; intros [|y b] Hl Hf; try done.
      simpl in Hf. apply Forall_cons in Hf as [E Hf]. simpl in E. subst y. f_equal. apply IH; [by injection Hl|done].
    + clear. induction b; simpl; constructor; auto.
  - split; [done|]. intros ->. done.
Qed.

Lemma list_ascii_inj s t : String.list_ascii_of_string s = String.list_ascii_of_string t → s = t.
Proof. intros E. rewrite <- (String.string_of_list_ascii_of_string s), E. apply String.string_of_list_ascii_of_string. Qed.

(** The gate fails closed: a request passes exactly when a secret is configured
    and the header carries it to the byte, whatever the opt-out says; without a
    secret it passes only in a debug build that opted out. *)
Lemma gate_spec `{HeaderLib} (debug : bool) (env : string → option string) (hs : HeaderMap) :
  guard debug env hs = None ↔
    (∃ secret, configured env = Some secret ∧ header_str hs INTERNAL_AUTH_HEADER = Some secret) ∨
    (configured env = None ∧ debug = true ∧ allow_insecure debug env = true).
Proof.
  unfold guard, authorized. destruct (configured env) as [secret|] eqn:Ec.
  - destruct (header_str hs INTERNAL_AUTH_HEADER) as [p|] eqn:Ep.
    + destruct (constant_time_eq _ _) eqn:E.
      * apply constant_time_eq_spec, list_ascii_inj in E as ->. split; [|done]. left. by exists secret.
      * split; [done|]. intros [(s & ? & ?)|[? _]]; simplify_eq.
        rewrite (proj2 (constant_time_eq_spec _ _) eq_refl) in E. done.
    + split; [done|]. intros [(s & ? & ?)|[? _]]; simplify_eq.
  - destruct (debug && allow_insecure debug env) eqn:E.
    + apply andb_true_iff in E as [-> E]. split; [|done]. intros _. by right.
    + split; [done|]. intros [(s & ? & ?)|(_ & -> & E')]; [done|]. by rewrite E' in E.
Qed.
