(* ===== verification/PeerApi.v ===== *)
(** The peer plane: the handlers of src/raft_api.rs, the listener src/main.rs
    mounts them on, and the HTTP side of src/transport.rs that calls them.  What
    two nodes say to each other this way is what the network of [RaftCluster]
    allows: a request reaches the actor of its shard or nobody, and the sender
    sees that actor's reply or nothing. *)

From Stdlib Require Import Ascii.
From S2P Require Import Prelude Json Text Cancellation Command StateMachine Snapshot RaftTypes RaftConfig RaftCallback Persist ShardActor RaftMachine Reads Http NodeRouter KvApi InternalAuth.

(** ** Calls *)

Inductive PeerCall : Type :=
| CallAppend (req : AppendEntriesReq)
| CallSnapshot (req : InstallSnapshotReq)
| CallVote (req : RequestVoteReq).

(** [/:shard/append], [/:shard/snapshot] and [/:shard/vote]. *)
Inductive PeerRoute : Type := AppendRoute | SnapshotRoute | VoteRoute.

Definition route_of (call : PeerCall) : PeerRoute :=
  match call with CallAppend _ => AppendRoute | CallSnapshot _ => SnapshotRoute | CallVote _ => VoteRoute end.

Definition call_msg (call : PeerCall) : ShardMsg :=
  match call with
  | CallAppend req => MsgAppendEntries req
  | CallSnapshot req => MsgInstallSnapshot req
  | CallVote req => MsgRequestVote req
  end.

(** The reply is of the type the route answers with. *)
Definition answers_route (route : PeerRoute) (reply : Reply) : Prop :=
  match route, reply with
  | AppendRoute, ReplyAppend _ | SnapshotRoute, ReplySnapshot _ | VoteRoute, ReplyVote _ => True
  | _, _ => False
  end.

(** [serde_json] on the wire types (writing can fail), the status [axum] refuses
    a body with that is not such a request, and the text of a JSON value. *)
Class PeerJson := {
  write_call : PeerCall → option string;
  read_call : PeerRoute → string → option PeerCall;
  write_reply : Reply → option string;
  read_reply : PeerRoute → string → option Reply;
  body_rejection : PeerRoute → string → Z;
  write_value : Value → string
}.

Class PeerJsonLaws `{PeerJson} : Prop := {
  call_reads_back call text : write_call call = Some text → read_call (route_of call) text = Some call;
  call_on_route route text call : read_call route text = Some call → route_of call = route;
  reply_reads_back route reply text : answers_route route reply → write_reply reply = Some text → read_reply route text = Some reply;
  rejection_refuses route text : 400 ≤ body_rejection route text < 500
}.

(** A header value that was made from text is that text. *)
Class HeaderLaws `{HeaderLib} : Prop := { value_is_text s v : header_value s = Some v → header_text v = Some s }.

Section peer.
Context `{DiskFormat, External, HashOrder, Serde, Wire, Routing, ShardMap, HeaderLib, PeerJson}.

Record PeerHttp : Type := mkPeerHttp {
  ph_shard : Z;
  ph_route : PeerRoute;
  ph_headers : HeaderMap;
  ph_body : string
}.

Definition text_len (s : string) : Z := Z.of_nat (String.length s).

(** ** The sender *)

(** [with_internal_auth]; a secret that is no header value fails the request. *)
Definition with_internal_auth (env : Environment) (hs : HeaderMap) : option HeaderMap :=
  match configured env with
  | Some secret => v ← header_value secret; Some (hs ++ [(INTERNAL_AUTH_HEADER, v)])
  | None => Some hs
  end.

Definition encode_peer_body (env : Environment) (call : PeerCall) : option string :=
  text ← write_call call; if max_body_bytes env <? text_len text then None else Some text.

(** What goes out: a vote's body is not measured. *)
Definition peer_http (env : Environment) (shard : Z) (call : PeerCall) : option PeerHttp :=
  text ← match call with CallVote _ => write_call call | _ => encode_peer_body env call end;
  hs ← with_internal_auth env [];
  Some (mkPeerHttp shard (route_of call) (hs ++ [("content-type", "application/json")]) text).

(** [decode_peer_response]: no answer, a refusal and nonsense are all no reply. *)
Definition decode_peer_response (route : PeerRoute) (response : option (Z * string)) : option Reply :=
  '(code, text) ← response; if (200 <=? code) && (code <? 300) then read_reply route text else None.

(** ** The receiver *)

(** [append], [snapshot] and [vote] of raft_api.rs. *)
Definition raft_handler (e : Env) (shard : Z) (call : PeerCall) (node : Node) : Node * (Z * string) :=
  match deliver e shard (call_msg call) node with
  | (node, Some reply) => (node, match write_reply reply with Some text => (200, text) | None => (500, "") end)
  | (node, None) => (node, (503, ""))
  end.

(** [peer_app] of main.rs: the body limit, the gate, the body, the handler. *)
Definition peer_app (debug : bool) (env : Environment) (e : Env) (m : PeerHttp) (node : Node) : Node * (Z * string) :=
  if max_body_bytes env <? text_len (ph_body m) then (node, (413, ""))
  else match guard debug env (ph_headers m) with
       | Some refusal => (node, (http_status refusal, write_value (body refusal)))
       | None =>
           match read_call (ph_route m) (ph_body m) with
           | None => (node, (body_rejection (ph_route m) (ph_body m), ""))
           | Some call => raft_handler e (ph_shard m) call node
           end
       end.

(** ** One call over the wire *)

(** What the network and the timeouts do with it. *)
Inductive Fate : Type := RequestLost | ReplyLost | Arrives.

Definition exchange (debug : bool) (from to : Environment) (e : Env) (shard : Z) (call : PeerCall) (fate : Fate) (node : Node) :
    Node * option Reply :=
  match peer_http from shard call, fate with
  | None, _ | Some _, RequestLost => (node, None)
  | Some m, ReplyLost => ((peer_app debug to e m node).1, None)
  | Some m, Arrives =>
      let '(node, response) := peer_app debug to e m node in (node, decode_peer_response (route_of call) (Some response))
  end.

(** What the sender's actor is told: a replication reply is filtered against its
    request. *)
Definition admitted_reply (call : PeerCall) (reply : option Reply) : option Reply :=
  match call with
  | CallAppend req => ReplyAppend <$> transport_append req (match reply with Some (ReplyAppend r) => Some r | _ => None end)
  | CallSnapshot req => ReplySnapshot <$> transport_snapshot req (match reply with Some (ReplySnapshot r) => Some r | _ => None end)
  | CallVote _ => reply
  end.

(** An append that runs past the index type is not sent. *)
Definition sendable (call : PeerCall) : bool :=
  match call with
  | CallAppend req => bool_decide (is_Some (checked_add (ar_prev_log_index req) (Z.of_nat (length (ar_entries req)))))
  | _ => true
  end.

(** [Transport::append_entries], [install_snapshot] and [request_vote] over HTTP. *)
Definition transport_call (debug : bool) (from to : Environment) (e : Env) (shard : Z) (call : PeerCall) (fate : Fate) (node : Node) :
    Node * option Reply :=
  if sendable call then let '(node, reply) := exchange debug from to e shard call fate node in (node, admitted_reply call reply)
  else (node, None).

(** ** What a call does *)

Lemma handle_answers e call a : answers_route (route_of call) (handle e (call_msg call) a).2.
Proof.
  destruct call as [req|req|req]; simpl.
  - by destruct (handle_append_entries e req a).
  - by destruct (handle_install_snapshot e req a).
  - by destruct (handle_request_vote e req a).
Qed.

Lemma deliver_answers e shard call node reply :
  (deliver e shard (call_msg call) node).2 = Some reply → answers_route (route_of call) reply.
Proof.
  unfold deliver. destruct (sender node shard) as [a|]; [|done]. pose proof (handle_answers e call a) as Ha.
  destruct (handle e (call_msg call) a) as [a' r]. simpl in *. by intros [= <-].
Qed.

Lemma no_reply_admitted call : admitted_reply call None = None.
Proof.
  destruct call as [req|req|req]; simpl; [|done|done]. unfold transport_append. by destruct (checked_add _ _).
Qed.

Lemma refused code text route : ¬ (200 ≤ code < 300) → decode_peer_response route (Some (code, text)) = None.
Proof. intros Hc. simpl. destruct (Z.leb_spec 200 code), (Z.ltb_spec code 300); simpl; try done. lia. Qed.

Lemma peer_http_fields env shard call m :
  peer_http env shard call = Some m →
  ph_shard m = shard ∧ ph_route m = route_of call ∧ write_call call = Some (ph_body m) ∧
  header_str (ph_headers m) INTERNAL_AUTH_HEADER = (s ← configured env; v ← header_value s; header_text v).
Proof.
  unfold peer_http, with_internal_auth, header_str, get_all. intros (text & Ht & (hs & Hh & [= <-])%bind_Some)%bind_Some. simpl.
  assert (Hw : write_call call = Some text).
  { destruct call; [| |done]; unfold encode_peer_body in Ht; apply bind_Some in Ht as (t & Ht & Hl); destruct (max_body_bytes env <? text_len t); by simplify_eq. }
  split_and!; [done|done|done|]. destruct (configured env) as [s|].
  - apply bind_Some in Hh as (v & Hv & [= <-]). cbn [mbind option_bind]. rewrite Hv. done.
  - by injection Hh as <-.
Qed.

(** What the receiving node does with a request that was sent: refuse it, or
    hand it to the shard it names. *)
Lemma peer_app_outcome `{!PeerJsonLaws} debug env env' e shard call m node :
  peer_http env' shard call = Some m →
  let r := peer_app debug env e m node in let d := deliver e shard (call_msg call) node in
  (r.1 = node ∧ decode_peer_response (route_of call) (Some r.2) = None) ∨
  (max_body_bytes env <? text_len (ph_body m) = false ∧ guard debug env (ph_headers m) = None ∧ r = raft_handler e shard call node).
Proof.
  intros (Es & Er & Hw & _)%peer_http_fields. unfold peer_app. rewrite Es, Er. destruct (max_body_bytes env <? _); [by left|].
  destruct (guard debug env (ph_headers m)) as [refusal|] eqn:Hg.
  - left. split; [done|]. apply refused. unfold guard in Hg. case_match; [done|]. injection Hg as <-. simpl. lia.
  - rewrite (call_reads_back _ _ Hw). by right.
Qed.

Lemma handler_outcome `{!PeerJsonLaws} e shard call node :
  let r := raft_handler e shard call node in let d := deliver e shard (call_msg call) node in
  r.1 = d.1 ∧ (decode_peer_response (route_of call) (Some r.2) = None ∨ decode_peer_response (route_of call) (Some r.2) = d.2) ∧
  ((∀ reply, d.2 = Some reply → is_Some (write_reply reply)) → decode_peer_response (route_of call) (Some r.2) = d.2).
Proof.
  unfold raft_handler. pose proof (deliver_answers e shard call node) as Ha. destruct (deliver _ _ _ _) as [node' [reply|]]; simpl in *; [|auto].
  destruct (write_reply reply) as [text|] eqn:Hw.
  - simpl. rewrite (reply_reads_back _ _ _ (Ha reply eq_refl) Hw). auto.
  - split_and!; [done|by left|]. intros Hall. destruct (Hall reply eq_refl) as [? E]. congruence.
Qed.

Lemma exchange_outcome `{!PeerJsonLaws} debug from to e shard call fate node :
  let r := exchange debug from to e shard call fate node in let d := deliver e shard (call_msg call) node in
  (r.1 = node ∧ r.2 = None) ∨ (r.1 = d.1 ∧ (r.2 = None ∨ r.2 = d.2) ∧ ∃ m, peer_http from shard call = Some m ∧ guard debug to (ph_headers m) = None).
Proof.
  unfold exchange. destruct (peer_http from shard call) as [m|] eqn:Hm; [|by left].
  destruct (peer_app_outcome debug to from e shard call m node Hm) as [[E1 E2]|(_ & Hg & E)].
  - left. destruct fate; [done|done|]. destruct (peer_app _ _ _ _ _) as [node' r]. simpl in *. by subst.
  - destruct (handler_outcome e shard call node) as (Hd1 & Hd2 & _). destruct fate; [by left| |]; right.
    + rewrite E. split_and!; [done|by left|by exists m].
    + rewrite E. destruct (raft_handler e shard call node) as [node' r]. cbn [fst snd] in *. split_and!; [done|done|by exists m].
Qed.

(** The secret the sender sends opens the gate exactly when it is the receiver's. *)
Lemma gate_opens `{!HeaderLaws} debug from to shard call m :
  peer_http from shard call = Some m →
  guard debug to (ph_headers m) = None ↔
    (∃ secret, configured to = Some secret ∧ configured from = Some secret) ∨
    (configured to = None ∧ debug = true ∧ allow_insecure debug to = true).
Proof.
  intros Hm. pose proof (peer_http_fields _ _ _ _ Hm) as (_ & _ & _ & Hs).
  assert (Hh : header_str (ph_headers m) INTERNAL_AUTH_HEADER = configured from).
  { rewrite Hs. unfold peer_http, with_internal_auth in Hm. apply bind_Some in Hm as (text & _ & (hs & Hh & _)%bind_Some).
    destruct (configured from) as [s|]; [|done]. apply bind_Some in Hh as (v & Hv & _). simpl. rewrite Hv. simpl. by apply value_is_text. }
  rewrite gate_spec, Hh. done.
Qed.

End peer.
