(* ===== verification/ObserveApi.v ===== *)
(** What operators see: src/observe.rs, and the probes of src/main.rs. *)

From S2P Require Import Prelude Json Text Cancellation Elections Command StateMachine Snapshot Views Persist RaftTypes RaftConfig ShardActor Reads Http NodeRouter Handler KvApi InternalAuth Validate OrgScope.

Definition SERVICE : string := "fiducia-node".
Definition SCOPES_HEADER : string := "x-fiducia-scopes".
Definition ADMIN_OBSERVE_SCOPES : list string := ["*"; "admin:*"; "admin:read"; "admin:write"].

(** ** Rendering *)

#[export] Instance ser_role : Serialize Role := λ r,
  JStr match r with Leader => "leader" | Follower => "follower" | Candidate => "candidate" end.
#[export] Instance ser_shard_metrics : Serialize ShardMetrics := λ m,
  json! ["append_rtt_ms_last" :- append_rtt_ms_last m; "quorum_rtt_ms_last" :- quorum_rtt_ms_last m;
         "follower_lag_max" :- follower_lag_max m; "leader_transfer_count" :- leader_transfer_count m].
#[export] Instance ser_peer_replication : Serialize PeerReplication := λ p,
  json! ["peer" :- pr_peer p; "match_index" :- pr_match_index p; "lag" :- pr_lag p; "in_flight" :- pr_in_flight p;
         "command_protocol" :- pr_command_protocol p].
#[export] Instance ser_shard_status : Serialize ShardStatus := λ s,
  JObj (["shard_id" :- st_shard_id s; "role" :- st_role s; "term" :- st_term s; "leader_id" :- st_leader_id s;
         "commit_index" :- st_commit_index s; "last_applied" :- st_last_applied s; "last_log_index" :- st_last_log_index s;
         "snapshot_index" :- st_snapshot_index s; "retained_log_entries" :- st_retained_log_entries s;
         "storage_healthy" :- st_storage_healthy s]%json
        ++ skip_none "storage_error" (st_storage_error s)
        ++ ["parser_command_protocol" :- st_parser_command_protocol s; "active_command_protocol" :- st_active_command_protocol s;
            "healthy_replicas" :- st_healthy_replicas s; "has_quorum" :- st_has_quorum s]%json
        ++ match st_replication s with [] => [] | l => ["replication" :- l]%json end
        ++ ["metrics" :- st_metrics s]%json).

(** ** Tenant inventories *)

Definition insufficient_scope : Response :=
  respond 403 (json! ["error" :- "insufficient_scope";
                      "detail" :- "observing the tenant coordination inventory requires an admin scope";
                      "required_scopes" :- ["admin:read"; "admin:write"]]).

(** [None] when the request may go on. *)
Definition require_admin_scope `{HeaderLib} (headers : HeaderMap) : option Response :=
  match header_str headers SCOPES_HEADER with
  | None => None
  | Some raw =>
      if existsb (λ granted, existsb (String.eqb granted) ADMIN_OBSERVE_SCOPES) (split_whitespace raw)
      then None else Some insufficient_scope
  end.

Definition admin_then `{HeaderLib} (headers : HeaderMap) (h : Handler) : Handler :=
  match require_admin_scope headers with Some denied => Respond denied | None => h end.

Section inventories.
Context `{HeaderLib, Scoping}.

(** The filter [!keys.is_empty() && keys.iter().all(..)]. *)
Definition all_mine (org : string) (keys : list string) : bool :=
  negb (bool_decide (keys = [])) && forallb (λ key, bool_decide (is_Some (unscope org key))) keys.

Definition locks (org : string) (headers : HeaderMap) : Handler :=
  admin_then headers (LockInventoryRead (λ r, Respond
    match r with
    | Ok inv =>
        let held := filter (λ h, all_mine org (lh_keys h) = true) (inv_held inv) in
        let wait_queue := filter (λ w, all_mine org (v_keys w) = true) (inv_wait_queue inv) in
        org_response org (json! ["held" :- length held; "waiting" :- length wait_queue; "inventory" :- mkInventory held wait_queue])
    | Err err => read_error_response err
    end)).

Definition semaphores (org : string) (headers : HeaderMap) : Handler :=
  admin_then headers (SemaphoreInventoryRead (λ r, Respond
    match r with
    | Ok l =>
        let l := filter (λ s, is_Some (unscope org (sv_key s))) l in
        org_response org (json! ["count" :- length l; "semaphores" :- l])
    | Err err => read_error_response err
    end)).

Definition elections (org : string) (headers : HeaderMap) : Handler :=
  admin_then headers (ListingElections (λ l,
    let l := filter (λ e, is_Some (unscope org e.1)) l in
    Respond (org_response org (json! ["count" :- length l; "elections" :- JArr (election_entry <$> l)])))).
End inventories.

(** ** Node health *)

(** Every hosted shard answered, and every shard is hosted. *)
Definition status_complete (s : NodeStatus) : bool :=
  (Z.of_nat (length (ns_hosted_shards s)) =? ns_shard_count s) && bool_decide (ns_unresponsive_shards s = [])
  && Nat.eqb (length (ns_shards s)) (length (ns_hosted_shards s)).

Definition storage_faulted (s : NodeStatus) : list Z := st_shard_id <$> filter (λ r, st_storage_healthy r = false) (ns_shards s).
Definition leaderless (s : NodeStatus) : list Z := st_shard_id <$> filter (λ r, st_leader_id r = None) (ns_shards s).
Definition at_risk (s : NodeStatus) : list Z :=
  st_shard_id <$> filter (λ r, st_role r = Leader ∧ st_has_quorum r = false) (ns_shards s).

Definition shards_rollup (s : NodeStatus) : Response :=
  json_ok (json! [
    "node_id" :- ns_node_id s; "shard_count" :- ns_shard_count s; "leader_count" :- ns_leader_count s;
    "follower_count" :- ns_follower_count s;
    "quorum" :- json! [
      "leaderless_shards" :- leaderless s; "at_risk_led_shards" :- at_risk s;
      "all_led_shards_have_quorum" :- status_complete s && bool_decide (at_risk s = []);
      "storage_faulted_shards" :- storage_faulted s; "unresponsive_shards" :- ns_unresponsive_shards s;
      "status_complete" :- status_complete s;
      "all_shard_storage_healthy" :- status_complete s && bool_decide (storage_faulted s = [])];
    "shards" :- ns_shards s]).

Definition readiness_state (s : NodeStatus) : bool * bool * list Z :=
  (status_complete s && bool_decide (storage_faulted s = []), status_complete s, storage_faulted s).

Definition READINESS_CACHE_TTL : Z := from_millis 1000.

(** When the answer was computed, and the answer. *)
Abbreviation ReadinessCache := (option (Z * Response)).

(** [Instant::duration_since] is zero for a later instant. *)
Definition cached_readiness (now : Z) (cache : ReadinessCache) : option Response :=
  match cache with
  | Some (computed_at, answer) => if Z.max 0 (now - computed_at) <? READINESS_CACHE_TTL then Some answer else None
  | None => None
  end.

Definition readiness_response (s : NodeStatus) : Response :=
  let '(ready, all_shards_running, faulted) := readiness_state s in
  respond (if ready then 200 else 503)
    (json! ["status" :- (if ready then "ok" else "unavailable"); "service" :- SERVICE; "all_shards_running" :- all_shards_running;
            "unresponsive_shards" :- ns_unresponsive_shards s; "storage_faulted_shards" :- faulted]).

(** [readiness]: [stored] is the clock when the fresh answer is stored. *)
Definition readiness (now stored : Z) (status : NodeStatus) (cache : ReadinessCache) : ReadinessCache * Response :=
  match cached_readiness now cache with
  | Some answer => (cache, answer)
  | None => let answer := readiness_response status in (Some (stored, answer), answer)
  end.

Definition health : Response := json_ok (json! ["status" :- "ok"; "service" :- SERVICE]).

(** ** What the probes promise *)

Section probes.
Context `{DiskFormat, External, HashOrder, Serde}.

Lemma status_complete_rows timing (probes : list (Z * option ShardStatus)) (node : Node) :
  status_complete (node_status timing probes node) = true →
  Z.of_nat (length (shards node)) = config_shard_count node ∧ (∀ s, (s, None) ∉ probes) ∧ length (omap snd probes) = length (shards node).
Proof.
  unfold status_complete, node_status. simpl. rewrite !andb_true_iff, bool_decide_eq_true, Z.eqb_eq, Nat.eqb_eq.
  rewrite !(Permutation_length (merge_sort_Permutation _ _)), !length_fmap. intros [[Hc Hu] Hl]. split_and!; [done| |done].
  intros s Hin. assert (Hs : s ∈ merge_sort Z.le (omap (λ p : Z * option ShardStatus, match p.2 with None => Some p.1 | Some _ => None end) probes)).
  { rewrite merge_sort_Permutation. apply list_elem_of_omap. by exists (s, None). }
  rewrite Hu in Hs. by apply elem_of_nil in Hs.
Qed.

(** A node that says it is ready is: every shard of the cluster has an actor
    here, every one answered the probe, and none of them is quarantined by a
    storage fault. *)
Theorem ready_means_serving (timing : RaftTiming) (probes : list (Z * option ShardStatus)) (node : Node)
    (Hready : http_status (readiness_response (node_status timing probes node)) = 200) :
  Z.of_nat (length (shards node)) = config_shard_count node ∧
  length (omap snd probes) = length (shards node) ∧
  ∀ s r, (s, r) ∈ probes → ∃ row, r = Some row ∧ st_storage_healthy row = true.
Proof.
  unfold readiness_response, readiness_state in Hready. simpl in Hready.
  destruct (status_complete _ && _) eqn:E; [|done]. apply andb_true_iff in E as [Hc Hf]. apply bool_decide_eq_true in Hf.
  apply status_complete_rows in Hc as (Hn & Hu & Hl). split_and!; [done|done|]. intros s [row|] Hin; [|by destruct (Hu s)].
  exists row. split; [done|]. destruct (st_storage_healthy row) eqn:Eh; [done|]. exfalso.
  assert (Hs : st_shard_id row ∈ storage_faulted (node_status timing probes node)).
  { apply list_elem_of_fmap. exists row. split; [done|]. apply list_elem_of_filter. split; [done|]. simpl.
    rewrite merge_sort_Permutation. apply list_elem_of_omap. by exists (s, Some row). }
  rewrite Hf in Hs. by apply elem_of_nil in Hs.
Qed.
End probes.
