(* ===== verification/LockIsolation.v ===== *)
(** Locks of different owners do not meet: if every request stays on one side of
    a set of names, a command from the other side changes nothing that a view of
    a name of the set shows.  The names are those of an organisation in
    [Tenancy]; here they are any predicate. *)

From S2P Require Import Prelude Json Fencing Fifo Cancellation Locks Semaphores Registers Command StateMachine Authority MachineTheorems Views.

Section isolation.
Context `{External, HashOrder}.
Context (mine : string → Prop).

(** ** Both sides of the set *)

(** A request for one of the names is for such names only, by one of them. *)
Definition one_side (holder : string) (keys : list string) : Prop :=
  ∀ k, k ∈ keys → mine k → mine holder ∧ ∀ k', k' ∈ keys → mine k'.

Record sided (m : LockManager) : Prop := {
  sd_grant t g : grants m !! t = Some g → one_side (g_holder g) (g_keys g);
  sd_entry id w : (id, w) ∈ queue m → one_side (w_holder w) (w_keys w)
}.

(** The tables agree on everything that concerns a name of the set. *)
Record apart (m m' : LockManager) : Prop := {
  ap_held k : mine k → held m' !! k = held m !! k;
  ap_grant k t : mine k → held m !! k = Some t → grants m' !! t = grants m !! t;
  ap_queue k : mine k → filter (λ e, k ∈ w_keys e.2) (queue m') = filter (λ e, k ∈ w_keys e.2) (queue m)
}.

Instance apart_preorder : PreOrder apart.
Proof.
  split; [by constructor|]. intros m1 m2 m3 [A1 A2 A3] [B1 B2 B3]. constructor.
  - intros k Hk. by rewrite B1, A1.
  - intros k t Hk Ht. rewrite (B2 k), (A2 k); [done|done|done|done|]. by rewrite A1.
  - intros k Hk. by rewrite B3, A3.
Qed.

(** A view of a name of the set is the same. *)
Lemma apart_view m m' k now : mine k → apart m m' → lock_snapshot_live_at m' k now = lock_snapshot_live_at m k now.
Proof.
  intros Hk [Hh Hg Hq]. unfold lock_snapshot_live_at.
  assert (live_grant m' now k = live_grant m now k) as ->.
  { unfold live_grant. rewrite Hh by done. destruct (held m !! k) as [t|] eqn:E; simpl; [|done]. by rewrite (Hg k t). }
  f_equal. rewrite <- !(list_filter_filter (λ e, waiter_is_live (w_expires e.2) now = true) (λ e, k ∈ w_keys e.2)). by rewrite Hq.
Qed.

(** ** Promotion *)

(** Whoever waits for a name of the set is blocked at such a name. *)
Definition blocked_here (m : LockManager) : Prop :=
  ∀ q1 id w q2, queue m = q1 ++ (id, w) :: q2 → ∀ k0, k0 ∈ w_keys w → mine k0 →
    ∃ k, mine k ∧ k ∈ w_keys w ∧ (is_Some (held m !! k) ∨ ∃ e, e ∈ q1 ∧ k ∈ w_keys e.2).

Lemma waiting_blocked m : all_waiting (held m) (queue m) → sided m → blocked_here m.
Proof.
  intros Hw Hs q1 id w q2 E k0 Hk0 Hm. destruct (Hw _ _ _ _ E) as (k & Hk & Hb). exists k. split_and!; [|done|done].
  assert (Hin : (id, w) ∈ queue m) by (rewrite E; apply elem_of_app; right; left). by apply (sd_entry _ Hs _ _ Hin k0 Hk0 Hm).
Qed.

Lemma split_unique {A} (x : A) l1 l2 l1' l2' : NoDup (l1 ++ x :: l2) → l1 ++ x :: l2 = l1' ++ x :: l2' → l1 = l1'.
Proof.
  revert l1'. induction l1 as [|y l1 IH]; intros [|z l1'] Hnd E; simpl in *; simplify_eq; [done| | |].
  - apply NoDup_cons in Hnd as [Hn _]. destruct Hn. apply elem_of_app. right. left.
  - apply NoDup_cons in Hnd as [Hn _]. destruct Hn. apply elem_of_app. right. left.
  - f_equal. apply NoDup_cons in Hnd as [_ Hnd]. by apply IH.
Qed.

Lemma filter_split {A} (P : A → Prop) `{!∀ x, Decision (P x)} (x : A) l1 l2 :
  P x → filter P (l1 ++ x :: l2) = filter P l1 ++ x :: filter P l2.
Proof. intros HP. by rewrite filter_app, filter_cons, decide_True. Qed.

Lemma blocked_apart m m' : apart m m' → Fifo.wf (queue m') → blocked_here m → blocked_here m'.
Proof.
  intros [Hh _ Hq] Hwf Hb q1' id w q2' E k0 Hk0 Hm0. unfold Fifo.wf in Hwf. apply NoDup_fmap_1 in Hwf.
  assert (Hin : (id, w) ∈ queue m).
  { assert (Hf : (id, w) ∈ filter (λ e, k0 ∈ w_keys e.2) (queue m')).
    { apply list_elem_of_filter. split; [done|]. rewrite E. apply elem_of_app. right. left. }
    rewrite Hq in Hf by done. by apply list_elem_of_filter in Hf as [_ ?]. }
  apply list_elem_of_split in Hin as (q1 & q2 & E0). destruct (Hb _ _ _ _ E0 k0 Hk0 Hm0) as (k & Hm & Hk & [Hs|(e & He & Hke)]).
  - exists k. split_and!; [done|done|left]. by rewrite Hh.
  - exists k. split_and!; [done|done|right]. exists e. split; [|done]. specialize (Hq k Hm).
    rewrite E, E0, !filter_split in Hq by done. assert (Hnd : NoDup (filter (λ e, k ∈ w_keys e.2) (queue m'))) by (by apply NoDup_filter).
    rewrite E, filter_split in Hnd by done. apply split_unique in Hq; [|done].
    assert (Hf : e ∈ filter (λ e, k ∈ w_keys e.2) q1') by (rewrite Hq; by apply list_elem_of_filter). by apply list_elem_of_filter in Hf as [_ ?].
Qed.

(** An entry that has none of the names leaves the queue. *)
Lemma drop_foreign (q1 q2 : fifo lock_id QueuedLock) e k :
  k ∉ w_keys e.2 → filter (λ e, k ∈ w_keys e.2) (q1 ++ e :: q2) = filter (λ e, k ∈ w_keys e.2) (q1 ++ q2).
Proof. intros Hk. by rewrite !filter_app, filter_cons, decide_False. Qed.

(** Names of the other side are given to a new token. *)
Lemma install_apart c m g :
  lock_inv c m → c < g_token g → (∀ k, k ∈ g_keys g → ¬ mine k) → apart m (install_grant m g).
Proof.
  intros I Hc Hk. constructor; simpl; [| |done].
  - intros k Hm. rewrite lookup_hold_keys, decide_False; [done|]. intros Hin. by apply (Hk k).
  - intros k t Hm Ht. destruct (li_held _ _ I _ _ Ht) as (g' & Hg' & _). destruct (li_grant _ _ I _ _ Hg') as (_ & ? & _).
    rewrite lookup_insert_ne; [done|lia].
Qed.

Lemma promote_step_apart now c m c' m' :
  promote_step now (c, m) (c', m') → lock_inv c m → blocked_here m → apart m m'.
Proof.
  inversion 1 as [? ? q1 id w q2 Hq Hw Hc]; subst. intros I Hb.
  assert (Hk : ∀ k, k ∈ w_keys w → ¬ mine k).
  { intros k Hk Hm. apply Hw. destruct (Hb _ _ _ _ Hq k Hk Hm) as (k' & _ & Hk' & Hx). by exists k'. }
  etrans; [|apply (install_apart c); [|simpl; lia|done]].
  - constructor; simpl; [done|done|]. intros k Hm. rewrite Hq. symmetry. apply drop_foreign. intros Hin. by apply (Hk k).
  - apply subqueue_inv; [done|]. rewrite Hq. apply sublist_app; [done|]. by apply sublist_cons.
Qed.

Lemma promote_steps_apart now s s' :
  rtc (promote_step now) s s' → 0 ≤ s.1 → lock_inv s.1 s.2 → blocked_here s.2 → apart s.2 s'.2.
Proof.
  induction 1 as [|[c1 m1] [c2 m2] s3 Hstep _ IH]; intros Hpos I Hb; [done|]. simpl in *.
  destruct (promote_step_inv _ _ _ _ _ Hstep Hpos I) as [I2 Hlt]. pose proof (promote_step_apart _ _ _ _ _ Hstep I Hb) as Ha.
  etrans; [exact Ha|]. apply IH; [lia|done|]. by apply (blocked_apart m1); [|apply I2|].
Qed.

(** Promotion passes over the set, unless someone there is not blocked. *)
Lemma lock_promote_apart c m now :
  0 ≤ c → lock_inv c m → blocked_here m ∨ MAX_FENCING_TOKEN ≤ c → apart m (lock_promote c m now).1.2.
Proof.
  intros Hpos I Hb. pose proof (lock_promote_steps c m now (li_queue _ _ I)) as Hs.
  destruct (lock_promote c m now) as [[c' m'] vs]. destruct Hs as [Hrtc _]. simpl. destruct Hb as [Hb|Hmax].
  - exact (promote_steps_apart now (c, m) (c', m') Hrtc Hpos I Hb).
  - inversion Hrtc as [|? y ? Hstep]; subst; [done|]. inversion Hstep; subst. lia.
Qed.

(** ** Commands of the other side *)

(** A grant over names of the other side is touched. *)
Lemma other_token c m tok g k t :
  lock_inv c m → grants m !! tok = Some g → (∀ k, k ∈ g_keys g → ¬ mine k) → mine k → held m !! k = Some t → t ≠ tok.
Proof.
  intros I Hg Hk Hm Ht ->. destruct (li_held _ _ I _ _ Ht) as (g' & Hg' & Hin). rewrite Hg in Hg'. injection Hg' as <-. by apply (Hk k).
Qed.

Lemma lease_apart c m tok g lease :
  lock_inv c m → grants m !! tok = Some g → (∀ k, k ∈ g_keys g → ¬ mine k) →
  apart m (mkLocks (held m) (<[tok := with_lease g lease]> (grants m)) (queue m)).
Proof.
  intros I Hg Hk. constructor; simpl; [done| |done]. intros k t Hm Ht. rewrite lookup_insert_ne; [done|].
  intros ->. by eapply (other_token c m t g k t).
Qed.

Lemma release_grant_apart c m tok g :
  lock_inv c m → grants m !! tok = Some g → (∀ k, k ∈ g_keys g → ¬ mine k) → apart m (release_grant m tok).
Proof.
  intros I Hg Hk. unfold release_grant. rewrite Hg. constructor; simpl; [| |done].
  - intros k Hm. rewrite lookup_free_keys, decide_False; [done|]. intros [Hin _]. by apply (Hk k).
  - intros k t Hm Ht. rewrite lookup_delete_ne; [done|]. intros ->. by eapply (other_token c m t g k t).
Qed.

Lemma canonical_foreign keys : (∀ k, k ∈ keys → ¬ mine k) → ∀ k, k ∈ canonical_keys keys → ¬ mine k.
Proof. intros Hk k [Hin _]%elem_of_canonical_keys. by apply Hk. Qed.

Lemma settled_blocked c m : settled c m → sided m → blocked_here m ∨ MAX_FENCING_TOKEN ≤ c.
Proof. intros [Hw|?] Hs; [left; by apply waiting_blocked|by right]. Qed.

Lemma acquire_apart s revision now input :
  lock_ctx_inv s → (∀ k, k ∈ in_keys input → ¬ mine k) → apart (locks s) (locks (apply_lock_acquire s revision now input).1).
Proof.
  intros [Hc I _ _] Hf. pose proof (canonical_foreign _ Hf) as Hf'. clear Hf. rename Hf' into Hf. unfold apply_lock_acquire. set (keys := canonical_keys (in_keys input)) in *.
  case_goal; [done|]. case_goal; [done|].
  destruct (existing_grant _ _ _ _ _) as [[tok g]|] eqn:He.
  - apply existing_grant_Some in He as (Hg & _ & Hk & _). simpl. case_goal; [|done]. eapply lease_apart; [done|done|by rewrite Hk].
  - case_goal.
    + destruct (next_token _) as [t|] eqn:Ht; [|done]. apply next_token_Some in Ht as [-> _]. simpl. eapply install_apart; [done|simpl; lia|done].
    + simpl. case_goal; [|done]. constructor; simpl; [done|done|]. intros k Hm. unfold Fifo.push_back. case_goal; simpl; [done|].
      rewrite filter_app, filter_cons, decide_False; [by rewrite filter_nil, app_nil_r|]. simpl. intros Hin. by apply (Hf k).
Qed.

Lemma renew_apart s revision now keys holder tok ttl :
  lock_ctx_inv s → (∀ k, k ∈ keys → ¬ mine k) → apart (locks s) (locks (apply_lock_renew s revision now keys holder tok ttl).1).
Proof.
  intros [_ I _ _] Hf. pose proof (canonical_foreign _ Hf) as Hf'. clear Hf. rename Hf' into Hf. unfold apply_lock_renew. destruct (grants (locks s) !! tok) as [g|] eqn:Hg; [|done].
  case_goal; [done|]. case_goal; [done|]. bools. simpl. eapply lease_apart; [done|done|].
  match goal with E : g_keys g = _ |- _ => by rewrite E end.
Qed.

Lemma release_apart s revision now holder tok :
  lock_ctx_inv s → sided (locks s) → ¬ mine holder → apart (locks s) (locks (apply_lock_release s revision now holder tok).1).
Proof.
  intros [Hc I _ Hset] Hs Hh. unfold apply_lock_release. destruct (grants (locks s) !! tok) as [g|] eqn:Hg; [|done]. case_goal; [done|]. bools.
  assert (Hk : ∀ k, k ∈ g_keys g → ¬ mine k) by (intros k Hk Hm; destruct (sd_grant _ Hs _ _ Hg k Hk Hm); congruence).
  pose proof (release_grant_apart _ _ _ _ I Hg Hk) as Ha. pose proof (release_grant_inv _ _ tok I) as I1.
  pose proof (lock_promote_apart (next_fencing_token s) (release_grant (locks s) tok) now Hc I1) as Hp.
  destruct (lock_promote _ _ _) as [[c m] vs]. simpl in *. etrans; [exact Ha|]. apply Hp.
  destruct (settled_blocked _ _ Hset Hs) as [Hb|?]; [left|by right]. by apply (blocked_apart (locks s)); [|apply I1|].
Qed.

Lemma cancel_queued_apart s revision now keys holder rid :
  lock_ctx_inv s → sided (locks s) → (∀ k, k ∈ keys → ¬ mine k) →
  apart (locks s) (locks (lock_cancel_queued s revision now keys holder rid).1).
Proof.
  intros [Hc I _ Hset] Hs Hf. unfold lock_cancel_queued. case_goal; [by repeat case_goal|]. set (m1 := mkLocks _ _ _).
  assert (Ha : apart (locks s) m1).
  { constructor; simpl; [done|done|]. intros k Hm. unfold Fifo.without. rewrite list_filter_filter. apply filter_ext_in.
    intros [id w] Hin. simpl. split; [tauto|]. intros Hk. split; [done|]. intros ->. destruct (li_entry _ _ I _ _ Hin) as [Eid _].
    injection Eid as _ ->. by apply (Hf k). }
  assert (I1 : lock_inv (next_fencing_token s) m1) by (apply subqueue_inv; [done|]; apply sublist_filter).
  pose proof (lock_promote_apart (next_fencing_token s) m1 now Hc I1) as Hp.
  destruct (lock_promote _ _ _) as [[c m] vs]. simpl in *. etrans; [exact Ha|]. apply Hp.
  destruct (settled_blocked _ _ Hset Hs) as [Hb|?]; [left|by right]. by apply (blocked_apart (locks s)); [|apply I1|].
Qed.

Lemma cancel_apart s revision now keys holder rid :
  lock_ctx_inv s → sided (locks s) → (∀ k, k ∈ keys → ¬ mine k) → apart (locks s) (locks (apply_lock_cancel s revision now keys holder rid).1).
Proof.
  intros Hinv Hs Hf. pose proof (canonical_foreign _ Hf) as Hf'. clear Hf. rename Hf' into Hf. unfold apply_lock_cancel. destruct rid as [r|]; [|by apply cancel_queued_apart].
  case_goal; [done|]. pose proof (remember_inv (lock_cancellations s) (acquisition_identity "lock" holder (canonical_keys keys) r)
    (cancellation_tenant holder) now CANCELLATION_LIMITS (lc_ledger _ Hinv)) as L.
  unfold remember. destruct (remember_with_limits _ _ _ _ _) as [ledger [|]]; [|done].
  apply (cancel_queued_apart (mkLockCtx (next_fencing_token s) (locks s) ledger)); [|done|done]. by destruct Hinv; split.
Qed.

(** ** Every request stays on its side *)

(** Fewer grants and waiters. *)
Lemma sided_less m m' :
  (∀ t g, grants m' !! t = Some g → ∃ g0, grants m !! t = Some g0 ∧ g_holder g = g_holder g0 ∧ g_keys g = g_keys g0) →
  (∀ e, e ∈ queue m' → e ∈ queue m) → sided m → sided m'.
Proof.
  intros Hg Hq [S1 S2]. split; [|intros id w Hin; by eapply S2, Hq]. intros t g Ht. destruct (Hg t g Ht) as (g0 & H0g & -> & ->). by eapply S1.
Qed.

Lemma promote_step_sided now s s' : promote_step now s s' → sided s.2 → sided s'.2.
Proof.
  inversion 1 as [c m q1 id w q2 Hq Hw Hc]; subst. simpl. intros [S1 S2]. split; simpl.
  - intros t g [[_ <-]|[_ Hg]]%lookup_insert_Some; [|by eapply S1]. apply (S2 id w). rewrite Hq. apply elem_of_app. right. left.
  - intros id' w' Hin. apply (S2 id'). rewrite Hq. apply elem_of_app in Hin as [?|?]; apply elem_of_app; [by left|right; by right].
Qed.

Lemma lock_promote_sided c m now : Fifo.wf (queue m) → sided m → sided (lock_promote c m now).1.2.
Proof.
  intros Hwf Hs. pose proof (lock_promote_steps c m now Hwf) as Hp. destruct (lock_promote c m now) as [[c' m'] vs]. destruct Hp as [Hrtc _].
  change m with (c, m).2 in Hs. change (sided (c', m').2). revert Hs. induction Hrtc as [|x y z Hstep _ IH]; [done|].
  intros Hs. apply IH. by eapply promote_step_sided.
Qed.

Lemma one_side_canonical holder keys : one_side holder keys → one_side holder (canonical_keys keys).
Proof.
  intros Ho k [Hk _]%elem_of_canonical_keys Hm. destruct (Ho k Hk Hm) as [? Hall]. split; [done|].
  intros k' [Hk' _]%elem_of_canonical_keys. by apply Hall.
Qed.

Lemma acquire_sided s revision now input :
  sided (locks s) → one_side (in_holder input) (in_keys input) → sided (locks (apply_lock_acquire s revision now input).1).
Proof.
  intros Hs Ho%one_side_canonical. unfold apply_lock_acquire. case_goal; [done|]. case_goal; [done|].
  destruct (existing_grant _ _ _ _ _) as [[tok g]|] eqn:He.
  - apply existing_grant_Some in He as (Hg & _). simpl. case_goal; [|done]. apply (sided_less (locks s)); [|done|done].
    intros t g'. simpl. intros [[<- <-]|[_ Ht]]%lookup_insert_Some; [by exists g|by exists g'].
  - case_goal.
    + destruct (next_token _) as [t|]; [|done]. destruct Hs as [S1 S2]. split; simpl; [|done].
      intros t' g [[_ <-]|[_ Hg]]%lookup_insert_Some; [done|by eapply S1].
    + destruct Hs as [S1 S2]. simpl. case_goal; [|by split]. unfold Fifo.push_back. case_goal; simpl; [by split|]. split; simpl; [done|].
      intros id w [Hin|[= -> ->]%list_elem_of_singleton]%elem_of_app; [by eapply S2|done].
Qed.

Lemma renew_sided s revision now keys holder tok ttl : sided (locks s) → sided (locks (apply_lock_renew s revision now keys holder tok ttl).1).
Proof.
  intros Hs. unfold apply_lock_renew. destruct (grants (locks s) !! tok) as [g|] eqn:Hg; [|done]. case_goal; [done|]. case_goal; [done|]. simpl.
  apply (sided_less (locks s)); [|done|done]. intros t g'. simpl. intros [[<- <-]|[_ Ht]]%lookup_insert_Some; [by exists g|by exists g'].
Qed.

Lemma release_sided s revision now holder tok :
  lock_ctx_inv s → sided (locks s) → sided (locks (apply_lock_release s revision now holder tok).1).
Proof.
  intros [_ I _ _] Hs. unfold apply_lock_release. destruct (grants (locks s) !! tok) as [g|] eqn:Hg; [|done]. case_goal; [done|].
  pose proof (lock_promote_sided (next_fencing_token s) (release_grant (locks s) tok) now (li_queue _ _ (release_grant_inv _ _ tok I))) as Hp.
  destruct (lock_promote _ _ _) as [[c m] vs]. simpl in *. apply Hp. apply (sided_less (locks s)); [| |done].
  - intros t g' Ht. rewrite release_grants_lookup in Ht. case_decide; [discriminate|by exists g'].
  - intros e. unfold release_grant. by rewrite Hg.
Qed.

Lemma cancel_sided s revision now keys holder rid :
  lock_ctx_inv s → sided (locks s) → sided (locks (apply_lock_cancel s revision now keys holder rid).1).
Proof.
  intros [_ I _ _] Hs. assert (Hq : ∀ ledger keys rid, sided (locks (lock_cancel_queued (mkLockCtx (next_fencing_token s) (locks s) ledger) revision now keys holder rid).1)).
  { intros ledger ks r. unfold lock_cancel_queued. case_goal; [by repeat case_goal|]. set (m1 := mkLocks _ _ _).
    assert (Hwf : Fifo.wf (queue m1)) by (apply Fifo.wf_without, I). simpl.
    pose proof (lock_promote_sided (next_fencing_token s) m1 now Hwf) as Hp. destruct (lock_promote _ _ _) as [[c m] vs]. simpl in *. apply Hp.
    apply (sided_less (locks s)); [|simpl; by intros e [? _]%Fifo.elem_of_without|done]. intros t g Ht. by exists g. }
  unfold apply_lock_cancel. destruct rid as [r|]; [|destruct s; apply Hq]. case_goal; [done|].
  destruct (remember _ _ _ _) as [ledger [|]]; [apply Hq|done].
Qed.

Lemma expire_sided s now : lock_ctx_inv s → sided (locks s) → sided (locks (locks_expire_due s now)).
Proof.
  intros [_ I _ _] Hs. unfold locks_expire_due. set (m0 := expire_grants (expire_waiters (locks s) now) now).
  assert (I0 : lock_inv (next_fencing_token s) m0).
  { apply foldl_release_inv, subqueue_inv; [done|]. rewrite foldl_without. apply sublist_filter. }
  pose proof (lock_promote_sided (next_fencing_token s) m0 now (li_queue _ _ I0)) as Hp. destruct (lock_promote _ _ _) as [[c m] vs]. simpl in *. apply Hp.
  apply (sided_less (locks s)); [| |done].
  - intros t g. unfold m0. rewrite expire_grants_grants, lookup_retain_Some. intros [Ht _]. by exists g.
  - intros e. unfold m0, expire_grants. rewrite foldl_release_queue. simpl. rewrite foldl_without. by intros [_ ?]%list_elem_of_filter.
Qed.

(** ** Semaphores *)

Lemma semaphore_promote_other c ss key now k : k ≠ key → (semaphore_promote c ss key now).1.2 !! k = ss !! k.
Proof.
  intros Hne. unfold semaphore_promote. destruct (ss !! key) as [s|]; [|done]. destruct (sem_promote_loop _ _ _ _ _) as [[c' s'] vs]. simpl.
  by rewrite lookup_insert_ne.
Qed.

Lemma sem_acquire_other ctx revision now input k :
  k ≠ sa_key input → semaphores (apply_semaphore_acquire ctx revision now input).1 !! k = semaphores ctx !! k.
Proof. intros Hne. unfold apply_semaphore_acquire. repeat case_goal; simpl; by rewrite ?lookup_insert_ne. Qed.

Lemma sem_renew_other ctx revision now key holder tok ttl k :
  k ≠ key → semaphores (apply_semaphore_renew ctx revision now key holder tok ttl).1 !! k = semaphores ctx !! k.
Proof. intros Hne. unfold apply_semaphore_renew. repeat case_goal; simpl; by rewrite ?lookup_insert_ne. Qed.

Lemma sem_release_other ctx revision now key holder tok k :
  k ≠ key → semaphores (apply_semaphore_release ctx revision now key holder tok).1 !! k = semaphores ctx !! k.
Proof.
  intros Hne. unfold apply_semaphore_release. destruct (semaphores ctx !! key) as [s|]; [|done]. case_goal; [simpl; by rewrite lookup_insert_ne|].
  set (ss := <[key := _]> _). pose proof (semaphore_promote_other (sem_counter ctx) ss key now k Hne) as Hp.
  destruct (semaphore_promote _ _ _ _) as [[c ss'] vs]. simpl in *. rewrite Hp. unfold ss. by rewrite lookup_insert_ne.
Qed.

Lemma sem_cancel_queued_other ctx revision now key holder rid k :
  k ≠ key → semaphores (sem_cancel_queued ctx revision now key holder rid).1 !! k = semaphores ctx !! k.
Proof.
  intros Hne. unfold sem_cancel_queued. destruct (sem ← _; _) as [s|]; [|by destruct (sem ← _; _); [|case_goal]]. set (ss := <[key := _]> _).
  pose proof (semaphore_promote_other (sem_counter ctx) ss key now k Hne) as Hp. destruct (semaphore_promote _ _ _ _) as [[c ss'] vs]. simpl in *.
  rewrite Hp. unfold ss. by rewrite lookup_insert_ne.
Qed.

Lemma sem_cancel_other ctx revision now key holder rid k :
  k ≠ key → semaphores (apply_semaphore_cancel ctx revision now key holder rid).1 !! k = semaphores ctx !! k.
Proof.
  intros Hne. unfold apply_semaphore_cancel. destruct rid as [r|]; [|by apply sem_cancel_queued_other]. case_goal; [done|].
  destruct (remember _ _ _ _) as [ledger [|]]; [|done].
  by rewrite (sem_cancel_queued_other (mkSemCtx (sem_counter ctx) (semaphores ctx) ledger)).
Qed.

(** ** Whole commands *)

(** The command acts on the other side. *)
Definition acts_elsewhere (c : Command) : Prop :=
  match c with
  | LockAcquire keys _ _ _ _ | LockAcquireV2 keys _ _ _ _ | LockAcquireAttempt keys _ _ _ _ _
  | LockRenew keys _ _ _ | LockCancel keys _ | LockCancelAttempt keys _ _ => ∀ k, k ∈ keys → ¬ mine k
  | LockRelease holder _ => ¬ mine holder
  | SemaphoreAcquire key _ _ _ _ _ | SemaphoreAcquireV2 key _ _ _ _ _ | SemaphoreAcquireAttempt key _ _ _ _ _ _
  | SemaphoreRenew key _ _ _ | SemaphoreRelease key _ _ | SemaphoreCancel key _ | SemaphoreCancelAttempt key _ _ => ¬ mine key
  | _ => True
  end.

(** The command asks for names of one side only. *)
Definition fair (c : Command) : Prop :=
  match c with
  | LockAcquire keys holder _ _ _ | LockAcquireV2 keys holder _ _ _ | LockAcquireAttempt keys holder _ _ _ _ => one_side holder keys
  | _ => True
  end.

Lemma dispatch_apart st revision now c :
  store_inv st → sided (lock_table st) → acts_elsewhere c → apart (lock_table st) (lock_table (dispatch st revision now c).1).
Proof.
  intros [_ _ HL] Hs Hf. destruct (touches_locks c) eqn:Ht.
  - destruct c; try discriminate; cbn [dispatch lift fst acts_elsewhere] in *;
      first [by apply (acquire_apart (lock_ctx st) revision now) | exact (renew_apart (lock_ctx st) revision now _ _ _ _ HL Hf)
            | exact (release_apart (lock_ctx st) revision now _ _ HL Hs Hf) | exact (cancel_apart (lock_ctx st) revision now _ _ _ HL Hs Hf)].
  - destruct (proj1 (dispatch_frame st revision now c) Ht) as [-> _]. done.
Qed.

Lemma dispatch_semaphore_other st revision now c k :
  acts_elsewhere c → mine k → semaphore_table (dispatch st revision now c).1 !! k = semaphore_table st !! k.
Proof.
  intros Hf Hm. destruct (touches_semaphores c) eqn:Ht.
  - destruct c; try discriminate; cbn [dispatch lift fst acts_elsewhere] in *;
      first [apply (sem_acquire_other (sem_ctx st)) | apply (sem_renew_other (sem_ctx st)) | apply (sem_release_other (sem_ctx st))
            | apply (sem_cancel_other (sem_ctx st))]; simpl; by intros ->.
  - destruct (proj2 (dispatch_frame st revision now c) Ht) as [-> _]. done.
Qed.

Lemma dispatch_sided st revision now c :
  store_inv st → fair c → sided (lock_table st) → sided (lock_table (dispatch st revision now c).1).
Proof.
  intros [_ _ HL] Hf Hs. destruct (touches_locks c) eqn:Ht.
  - destruct c; try discriminate; cbn [dispatch lift fst fair] in *;
      first [by apply (acquire_sided (lock_ctx st) revision now) | exact (renew_sided (lock_ctx st) revision now _ _ _ _ Hs)
            | exact (release_sided (lock_ctx st) revision now _ _ HL Hs) | exact (cancel_sided (lock_ctx st) revision now _ _ _ HL Hs)].
  - destruct (proj1 (dispatch_frame st revision now c) Ht) as [-> _]. done.
Qed.

Lemma expire_due_table st now : lock_table (expire_due st now) = locks (locks_expire_due (lock_ctx st) now).
Proof.
  unfold expire_due. cbn [lock_table set_services set_idempotency set_elections set_semaphores set_locks].
  by change (lock_ctx (set_kv st (kv_expire_due (kv st) now))) with (lock_ctx st).
Qed.

Lemma expire_due_semaphore_table st now :
  semaphore_table (expire_due st now) =
  semaphores (semaphores_expire_due (mkSemCtx (next_fencing_token (locks_expire_due (lock_ctx st) now)) (semaphore_table st) (semaphore_ledger st)) now).
Proof.
  unfold expire_due. cbn [semaphore_table set_services set_idempotency set_elections set_semaphores].
  change (sem_ctx (set_locks (set_kv st (kv_expire_due (kv st) now)) (locks_expire_due (lock_ctx (set_kv st (kv_expire_due (kv st) now))) now)))
    with (mkSemCtx (next_fencing_token (locks_expire_due (lock_ctx st) now)) (semaphore_table st) (semaphore_ledger st)). done.
Qed.

(** What a command does to the coordinator's tables before it is dispatched is
    the sweep of its clock. *)
Lemma prepare_tables st c now : is_activation c = false →
  lock_table (prepare st c now) = lock_table (expire_due st now) ∧ semaphore_table (prepare st c now) = semaphore_table (expire_due st now).
Proof.
  intros Hc. unfold prepare. rewrite Hc. set (st1 := set_protocol st _).
  assert (E1 : lock_table (expire_due st1 now) = lock_table (expire_due st now)).
  { rewrite !expire_due_table. by change (lock_ctx st1) with (lock_ctx st). }
  assert (E2 : semaphore_table (expire_due st1 now) = semaphore_table (expire_due st now)).
  { rewrite !expire_due_semaphore_table. change (lock_ctx st1) with (lock_ctx st). change (semaphore_table st1) with (semaphore_table st).
    by change (semaphore_ledger st1) with (semaphore_ledger st). }
  rewrite <- E1, <- E2. by destruct (expire_due st1 now).
Qed.

Lemma prepare_sided st c now : store_inv st → sided (lock_table st) → sided (lock_table (prepare st c now)).
Proof.
  intros [_ _ HL] Hs. unfold prepare. destruct (is_activation c); [done|]. set (st1 := set_protocol st _).
  assert (Hx : sided (lock_table (expire_due st1 now))) by (rewrite expire_due_table; exact (expire_sided (lock_ctx st) now HL Hs)).
  by destruct (expire_due st1 now).
Qed.

Lemma log_sided log : (∀ c t, (c, t) ∈ log → fair c) → sided (lock_table (apply_log inhabitant log)).
Proof.
  assert (Hgen : ∀ st, store_inv st → sided (lock_table st) → (∀ c t, (c, t) ∈ log → fair c) → sided (lock_table (apply_log st log))).
  { induction log as [|[c t] log IH]; intros st I Hs Hf; simpl; [done|]. apply IH; [by apply apply_at_inv| |intros c' t' Hin; eapply Hf; by right].
    unfold apply_at. pose proof (dispatch_sided (prepare st c t) (revision (prepare st c t)) t c) as Hd. destruct (dispatch _ _ _ _). simpl in *.
    apply Hd; [by apply prepare_inv|eapply Hf; left|by apply prepare_sided]. }
  intros Hf. apply Hgen; [apply empty_store_inv| |done]. split; [intros t g Ht; by destruct (lookup_empty_Some (M := gmap Z) t g Ht)|intros id w Hin; by apply not_elem_of_nil in Hin].
Qed.
End isolation.
