(* ===== verification/Tenancy.v ===== *)
(** The client plane of src/main.rs: the gates every request passes, the routes
    behind them, and what they guarantee to the tenants of a cluster. *)

From Stdlib Require Import SpecFloat Ascii.
From S2P Require Import Prelude Json Text Fencing Cancellation Locks Semaphores Registers Barriers Tasks Effects Handoffs Decisions Budgets Claims Idempotency Elections Services RateLimit Schedules Command StateMachine Views ShardActor Reads Sharding Http NodeRouter Net KvCrypto Handler LockApi PrimitiveApi KvApi ScheduleApi DiscoveryApi InternalAuth ObserveApi MachineTheorems LockIsolation Validate OrgScope.

(** A request of a tenant route, after extraction of its path, query and body. *)
Inductive ApiRequest : Type :=
| GetCounterCall (key : string)
| CounterAddCall (key : string) (delta : Z) (prev_revision : option Z)
| CounterSetCall (key : string) (value : Z) (prev_revision : option Z)
| GetBarrierCall (name : string)
| BarrierCreateCall (name : string) (policy : BarrierPolicy) (expected : option Z) (deadline_ms : option Z)
| BarrierArriveCall (name participant : string) (weight : option Z) (veto : option bool)
| GetTaskCall (name : string)
| TaskCreateCall (name task_type : string) (payload : Value) (deadline_ms : option Z)
| TaskClaimCall (name worker : string) (ttl_ms : option Z)
| TaskProgressCall (name worker : string) (fencing_token : Z) (percent : option Z) (checkpoint : Value)
| TaskCompleteCall (name worker : string) (fencing_token : Z) (result : Value)
| TaskFailCall (name worker : string) (fencing_token : Z) (retryable : option bool)
| TaskCancelCall (name : string)
| GetEffectCall (name : string)
| EffectPrepareCall (name effect_type : string) (payload : Value) (risk : option string) (idempotency_key : string) (required_approvals : option Z)
| EffectApproveCall (name principal : string)
| EffectCommitCall (name : string) (result : Value)
| EffectAbortCall (name : string)
| GetHandoffCall (name : string)
| HandoffOfferCall (name resource from to : string) (from_token : Z) (context : Value) (ttl_ms : option Z)
| HandoffAcceptCall (name to : string)
| HandoffRejectCall (name to : string)
| GetDecisionCall (name : string)
| DecisionProposeCall (name question : string) (options : list string) (policy : DecisionPolicy) (deadline_ms : option Z)
| DecisionVoteCall (name voter : string) (choice : option string) (confidence : f32) (weight : option Z) (veto : option bool) (evidence : list string)
| GetBudgetCall (name : string)
| BudgetSetCall (name : string) (limit : BudgetAmount)
| BudgetReserveCall (name reservation_id holder : string) (amount : BudgetAmount)
| BudgetCommitCall (name reservation_id : string) (actual : BudgetAmount)
| BudgetReleaseCall (name reservation_id : string)
| GetClaimCall (name : string)
| ClaimAssertCall (name subject predicate : string) (value : Value) (confidence : f32) (author : string) (evidence : list string) (valid_until_ms : option Z)
| ClaimSupportCall (name agent : string)
| ClaimContestCall (name agent : string) (reason : option string)
| ClaimResolveCall (name : string) (accepted : bool)
| ClaimSupersedeCall (name superseded_by : string)
| ElectionCampaignCall (name candidate : string) (ttl_ms : Z) (metadata : gmap string string)
| ElectionRenewCall (name candidate : string) (fencing_token : Z) (ttl_ms : option Z)
| ElectionResignCall (name candidate : string) (fencing_token : Z)
| ElectionObserveCall (name : string)
| RateLimitCheckCall (tenant key : string) (algorithm : RateLimitAlgorithm) (limit window_ms : Z) (refill_per_second : option f64) (cost : option Z)
| GetLimitCall (tenant key : string)
| IdempotencyClaimCall (key : string) (owner : option string) (ttl_ms : option Z) (ttl : option string) (retention_ms : option Z) (metadata : gmap string string)
| IdempotencyRenewCall (key owner : string) (fencing_token : Z) (ttl_ms : option Z) (ttl : option string)
| IdempotencyAbandonCall (key owner : string) (fencing_token : Z)
| IdempotencyCompleteCall (key owner : string) (fencing_token : Z) (result : option Value)
| IdempotencyGetCall (key : string)
| GetLockCall (key : string)
| GetSemaphoreCall (key : string)
| ScheduleUpsertCall (name : string) (now_ms : Z) (cron : option string) (one_shot_at_ms : option Z) (target : ScheduleTarget) (delivery : option DeliverySemantics) (max_retries : option Z)
| ListSchedulesCall (cursor : option string) (limit : option Z)
| GetScheduleCall (name : string)
| DeleteScheduleCall (name : string)
| SchedulePauseCall (name : string) (now_ms : Z)
| ScheduleResumeCall (name : string) (now_ms : Z) (catch_up : bool)
| ScheduleTriggerCall (name : string) (now_ms : Z) (fire_id_ms : option Z)
| ScheduleHistoryCall (name : string) (limit : option Z)
| ListServicesCall 
| ListInstancesCall (service : string) (query : gmap string string)
| ServiceRegisterCall (service id address : string) (ttl_ms : Z) (metadata : option (gmap string string))
| ServiceHeartbeatCall (service id : string) (ttl_ms : option Z)
| ServiceDeregisterCall (service id : string)
| KvPutCall (nonce : string) (q : KvParams) (b : PutBody)
| KvDeleteCall (q : KvParams)
| KvGetOrListCall (q : KvParams)
| ObserveLocksCall 
| ObserveSemaphoresCall 
| ObserveElectionsCall 
| LockAcquireCall (body : LockApi.AcquireBody)
| LockRenewCall (keys : option (list string)) (key : option string) (holder : string) (fencing_token : Z) (ttl_ms : option Z)
| LockReleaseCall (holder : string) (fencing_token : Z)
| LockCancelCall (keys : option (list string)) (key : option string) (holder : string) (request_id : option string)
| SemaphoreAcquireCall (body : SemaphoreApi.AcquireBody)
| SemaphoreRenewCall (key holder : string) (fencing_token : Z) (ttl_ms : option Z)
| SemaphoreReleaseCall (key holder : string) (fencing_token : Z)
| SemaphoreCancelCall (key holder : string) (request_id : option string).

Definition ORG_HEADER : string := "x-fiducia-org-id".

Definition org_reject (code detail : string) : Response := respond 400 (json! ["error" :- code; "detail" :- detail]).
Definition org_detail (code : string) : string :=
  if String.eqb code "invalid_org" then "x-fiducia-org-id must be non-empty, <=128 bytes, no control/whitespace"
  else "x-fiducia-org-id is required on coordination requests".

(** The extractor of [OrgScope] on a route that is not guarded. *)
Definition org_scope_missing : Response := respond 500 (json! ["error" :- "org_scope_missing"; "detail" :- "route not org-guarded"]).

Section routes.
Context `{HeaderLib, Scoping, HashOrder, UrlLib, Crypto}.
Context (send : VaultRequest → option VaultReply) (cipher : option KvCipher).

Definition route (hs : HeaderMap) (org : string) (r : ApiRequest) : Handler :=
  match r with
  | GetCounterCall key => get_counter org key
  | CounterAddCall key delta prev_revision => counter_add org key delta prev_revision
  | CounterSetCall key value prev_revision => counter_set org key value prev_revision
  | GetBarrierCall name => get_barrier org name
  | BarrierCreateCall name policy expected deadline_ms => barrier_create org name policy expected deadline_ms
  | BarrierArriveCall name participant weight veto => barrier_arrive_handler org name participant weight veto
  | GetTaskCall name => get_task org name
  | TaskCreateCall name task_type payload deadline_ms => task_create org name task_type payload deadline_ms
  | TaskClaimCall name worker ttl_ms => task_claim org name worker ttl_ms
  | TaskProgressCall name worker fencing_token percent checkpoint => task_progress org name worker fencing_token percent checkpoint
  | TaskCompleteCall name worker fencing_token result => task_complete org name worker fencing_token result
  | TaskFailCall name worker fencing_token retryable => task_fail org name worker fencing_token retryable
  | TaskCancelCall name => task_cancel org name
  | GetEffectCall name => get_effect org name
  | EffectPrepareCall name effect_type payload risk idempotency_key required_approvals => effect_prepare org name effect_type payload risk idempotency_key required_approvals
  | EffectApproveCall name principal => effect_approve org name principal
  | EffectCommitCall name result => effect_commit org name result
  | EffectAbortCall name => effect_abort org name
  | GetHandoffCall name => get_handoff org name
  | HandoffOfferCall name resource from to from_token context ttl_ms => handoff_offer org name resource from to from_token context ttl_ms
  | HandoffAcceptCall name to => handoff_accept org name to
  | HandoffRejectCall name to => handoff_reject org name to
  | GetDecisionCall name => get_decision org name
  | DecisionProposeCall name question options policy deadline_ms => decision_propose org name question options policy deadline_ms
  | DecisionVoteCall name voter choice confidence weight veto evidence => decision_vote_handler org name voter choice confidence weight veto evidence
  | GetBudgetCall name => get_budget org name
  | BudgetSetCall name limit => budget_set org name limit
  | BudgetReserveCall name reservation_id holder amount => budget_reserve org name reservation_id holder amount
  | BudgetCommitCall name reservation_id actual => budget_commit org name reservation_id actual
  | BudgetReleaseCall name reservation_id => budget_release org name reservation_id
  | GetClaimCall name => get_claim org name
  | ClaimAssertCall name subject predicate value confidence author evidence valid_until_ms => claim_assert org name subject predicate value confidence author evidence valid_until_ms
  | ClaimSupportCall name agent => claim_support org name agent
  | ClaimContestCall name agent reason => claim_contest org name agent reason
  | ClaimResolveCall name accepted => claim_resolve org name accepted
  | ClaimSupersedeCall name superseded_by => claim_supersede org name superseded_by
  | ElectionCampaignCall name candidate ttl_ms metadata => election_campaign_handler org name candidate ttl_ms metadata
  | ElectionRenewCall name candidate fencing_token ttl_ms => election_renew org name candidate fencing_token ttl_ms
  | ElectionResignCall name candidate fencing_token => election_resign org name candidate fencing_token
  | ElectionObserveCall name => election_observe org name
  | RateLimitCheckCall tenant key algorithm limit window_ms refill_per_second cost => rate_limit_check org tenant key algorithm limit window_ms refill_per_second cost
  | GetLimitCall tenant key => get_limit org tenant key
  | IdempotencyClaimCall key owner ttl_ms ttl retention_ms metadata => idempotency_claim org key owner ttl_ms ttl retention_ms metadata
  | IdempotencyRenewCall key owner fencing_token ttl_ms ttl => idempotency_renew org key owner fencing_token ttl_ms ttl
  | IdempotencyAbandonCall key owner fencing_token => idempotency_abandon org key owner fencing_token
  | IdempotencyCompleteCall key owner fencing_token result => idempotency_complete org key owner fencing_token result
  | IdempotencyGetCall key => get_record org key
  | GetLockCall key => get_lock org key
  | GetSemaphoreCall key => get_semaphore org key
  | ScheduleUpsertCall name now_ms cron one_shot_at_ms target delivery max_retries => schedule_upsert org name now_ms cron one_shot_at_ms target delivery max_retries
  | ListSchedulesCall cursor limit => list_schedules_handler org cursor limit
  | GetScheduleCall name => get_schedule org name
  | DeleteScheduleCall name => delete_schedule org name
  | SchedulePauseCall name now_ms => pause org name now_ms
  | ScheduleResumeCall name now_ms catch_up => resume org name now_ms catch_up
  | ScheduleTriggerCall name now_ms fire_id_ms => trigger org name now_ms fire_id_ms
  | ScheduleHistoryCall name limit => schedule_history_handler org name limit
  | ListServicesCall => list_services_handler org
  | ListInstancesCall service query => list_instances org service query
  | ServiceRegisterCall service id address ttl_ms metadata => register org service id address ttl_ms metadata
  | ServiceHeartbeatCall service id ttl_ms => heartbeat org service id ttl_ms
  | ServiceDeregisterCall service id => deregister org service id
  | KvPutCall nonce q b => put_key send cipher org hs nonce q b
  | KvDeleteCall q => delete_key org q
  | KvGetOrListCall q => get_or_list send cipher org q
  | ObserveLocksCall => ObserveApi.locks org hs
  | ObserveSemaphoresCall => ObserveApi.semaphores org hs
  | ObserveElectionsCall => ObserveApi.elections org hs
  | LockAcquireCall body => propose_checked org (LockApi.acquire_union org body)
  | LockRenewCall keys key holder fencing_token ttl_ms => propose_checked org (LockApi.renew_token org keys key holder fencing_token ttl_ms)
  | LockReleaseCall holder fencing_token => propose_checked org (LockApi.release_token org holder fencing_token)
  | LockCancelCall keys key holder request_id => propose_checked org (LockApi.cancel_waiter org keys key holder request_id)
  | SemaphoreAcquireCall body => propose_checked org (SemaphoreApi.acquire org body)
  | SemaphoreRenewCall key holder fencing_token ttl_ms => propose_checked org (SemaphoreApi.renew org key holder fencing_token ttl_ms)
  | SemaphoreReleaseCall key holder fencing_token => propose_checked org (SemaphoreApi.release org key holder fencing_token)
  | SemaphoreCancelCall key holder request_id => propose_checked org (SemaphoreApi.cancel org key holder request_id)
  end.

(** The layers of [client_app] around the routes of tenants: the trusted hop,
    then the organisation, then the handler. *)
Definition client_request (debug : bool) (env : string → option string) (path : string) (hs : HeaderMap) (r : ApiRequest) : Handler :=
  match guard debug env hs with
  | Some refused => Respond refused
  | None =>
      match require_org path (header_str hs ORG_HEADER) with
      | Exempt => Respond org_scope_missing
      | Scoped org => route hs org r
      | Rejected code => Respond (org_reject code (org_detail code))
      end
  end.
End routes.

(** ** Every route acts for its organisation *)

Section isolation.
Context `{HeaderLib, Scoping, HashOrder, UrlLib, Crypto}.

Lemma checked_by_isolated org v h : isolated org h → isolated org (checked_by v h).
Proof. by destruct v. Qed.

Lemma admin_then_isolated org hs h : isolated org h → isolated org (admin_then hs h).
Proof. unfold admin_then. by destruct (require_admin_scope hs). Qed.

Lemma propose_checked_isolated org r : (∀ c, r = Ok c → command_in org c) → isolated org (propose_checked org r).
Proof. destruct r; intros Hc; [|done]. apply propose_isolated. auto. Qed.

(** A rendering that starts by dropping foreign entries. *)
Lemma omap_mine {A B} org (name : A → string) (f : A → string → option B) (l l' : list A) :
  filter (λ x, mine org (name x)) l = filter (λ x, mine org (name x)) l' →
  omap (M := list) (λ x, k ← unscope org (name x); f x k) l = omap (M := list) (λ x, k ← unscope org (name x); f x k) l'.
Proof.
  assert (E : ∀ l, omap (M := list) (λ x, k ← unscope org (name x); f x k) l = omap (M := list) (λ x, k ← unscope org (name x); f x k) (filter (λ x, mine org (name x)) l)).
  { intros k. induction k as [|x k IH]; [done|]. rewrite filter_cons. case_decide as Hx.
    - simpl. destruct (k0 ← unscope org (name x); f x k0); [f_equal|]; exact IH.
    - apply eq_None_not_Some in Hx. simpl. rewrite Hx. exact IH. }
  intros Hl. by rewrite (E l), Hl, <- E.
Qed.

Lemma list_rows_mine send cipher org l : ∀ rows,
  list_rows send cipher org l rows = list_rows send cipher org (filter (λ e, mine org e.1) l) rows.
Proof.
  induction l as [|[k e] l IH]; intros rows; [done|]. rewrite filter_cons. simpl. case_decide as Hx.
  - simpl. destruct (unscope org k); [|done]. unfold result_bind. case_match; [apply IH|done].
  - apply eq_None_not_Some in Hx. rewrite Hx. apply IH.
Qed.

Lemma all_mine_spec org keys : all_mine org keys = true ↔ holds_mine org keys.
Proof.
  unfold all_mine, holds_mine, mine. rewrite andb_true_iff, negb_true_iff, bool_decide_eq_false, forallb_forall, Forall_forall.
  setoid_rewrite bool_decide_eq_true. by setoid_rewrite <- list_elem_of_In.
Qed.

#[local] Hint Resolve checked_by_isolated admin_then_isolated : tenancy.

Lemma lock_commands_in org c :
  (∃ body, LockApi.acquire_union org body = Ok c) ∨ (∃ ks k h t ttl, LockApi.renew_token org ks k h t ttl = Ok c) ∨
  (∃ h t, LockApi.release_token org h t = Ok c) ∨ (∃ ks k h r, LockApi.cancel_waiter org ks k h r = Ok c) →
  command_in org c.
Proof.
  unfold LockApi.acquire_union, LockApi.acquire, LockApi.renew_token, LockApi.release_token, LockApi.cancel_waiter, result_bind.
  intros [(? & E)|[(? & ? & ? & ? & ? & E)|[(? & ? & E)|(? & ? & ? & ? & E)]]]; repeat case_match; simplify_eq; eauto with tenancy.
Qed.

Lemma semaphore_commands_in org c :
  (∃ body, SemaphoreApi.acquire org body = Ok c) ∨ (∃ k h t ttl, SemaphoreApi.renew org k h t ttl = Ok c) ∨
  (∃ k h t, SemaphoreApi.release org k h t = Ok c) ∨ (∃ k h r, SemaphoreApi.cancel org k h r = Ok c) →
  command_in org c.
Proof.
  unfold SemaphoreApi.acquire, SemaphoreApi.renew, SemaphoreApi.release, SemaphoreApi.cancel, result_bind.
  intros [(? & E)|[(? & ? & ? & ? & E)|[(? & ? & ? & E)|(? & ? & ? & E)]]]; repeat case_match; simplify_eq; eauto with tenancy.
Qed.

Lemma inventories_isolated hs org :
  isolated org (ObserveApi.locks org hs) ∧ isolated org (ObserveApi.semaphores org hs) ∧ isolated org (ObserveApi.elections org hs).
Proof.
  split_and!; apply admin_then_isolated; (split; [done|]); simpl.
  - intros i i' Hi. injection Hi as Hh Hw.
    do 2 f_equal. rewrite !(list_filter_iff _ _ _ (λ h, all_mine_spec org (lh_keys h))).
    rewrite !(list_filter_iff _ _ _ (λ w, all_mine_spec org (v_keys w))). by rewrite Hh, Hw.
  - intros l l' Hl. unfold mine in Hl. by rewrite Hl.
  - intros l l' Hl. unfold mine in Hl. by rewrite Hl.
Qed.

Lemma kv_isolated send cipher hs org nonce q b :
  isolated org (put_key send cipher org hs nonce q b) ∧ isolated org (delete_key org q) ∧ isolated org (get_or_list send cipher org q).
Proof.
  split_and!; [unfold put_key|unfold delete_key|unfold get_or_list]; repeat case_match; simpl; eauto with tenancy.
  split_and!; [apply scope_in|done|]. intros l l' Hl. by rewrite (list_rows_mine _ _ _ l), Hl, <- list_rows_mine.
Qed.

Lemma schedules_isolated org cursor limit : isolated org (list_schedules_handler org cursor limit).
Proof.
  split; [done|]. intros l l' Hl. unfold page_rows. by rewrite (omap_mine org sch_name _ l l' Hl).
Qed.

Lemma services_isolated org : isolated org (list_services_handler org).
Proof.
  split; [done|]. intros l l' Hl. assert (E : ∀ l : list (string * nat),
    omap (M := list) (λ s, (λ name, service_summary (name, s.2)) <$> unscope org s.1) l =
    omap (M := list) (λ s, k ← unscope org s.1; Some (service_summary (k, s.2))) l).
  { intros k. induction k as [|x k IH]; [done|]. simpl. destruct (unscope org x.1); simpl; [f_equal|]; exact IH. }
  by rewrite !E, (omap_mine org fst _ l l' Hl).
Qed.

(** The shape of a handler decides how it is checked. *)
Ltac tenant :=
  lazymatch goal with
  | |- isolated _ (checked_then _ _) => apply checked_isolated; tenant
  | |- isolated _ (checked_by _ _) => apply checked_by_isolated; tenant
  | |- isolated _ (propose_for _ _) => apply propose_isolated; cbn [command_in]; tenant
  | |- isolated _ (query_for _ _) => apply query_isolated; cbn [read_in]; tenant
  | |- isolated _ (Respond _) => exact I
  | |- isolated _ (Querying _ _) => split; [cbn [read_in]; tenant|intros ?; exact I]
  | |- isolated _ (match ?x with _ => _ end) => destruct x; tenant
  | |- isolated _ ?h => let f := head_of h in unfold f; cbv zeta; tenant
  | |- _ ∧ _ => split; tenant
  | |- in_org _ _ => apply scope_in
  end.

Lemma route_isolated send cipher hs org r : isolated org (route send cipher hs org r).
Proof.
  destruct r; cbn [route];
    lazymatch goal with
    | |- isolated _ (propose_checked _ _) => apply propose_checked_isolated; intros c E
    | |- isolated _ (put_key _ _ _ _ _ _ _) => apply kv_isolated
    | |- isolated _ (delete_key _ _) => apply (kv_isolated send cipher hs org "" q (mkPutBody "" None None false))
    | |- isolated _ (get_or_list _ _ _ _) => apply (kv_isolated send cipher hs org "" q (mkPutBody "" None None false))
    | |- isolated _ (list_schedules_handler _ _ _) => apply schedules_isolated
    | |- isolated _ (list_services_handler _) => apply services_isolated
    | |- isolated _ (_ _ hs) => apply inventories_isolated
    | |- _ => tenant
    end.
  1-4: apply lock_commands_in; eauto 10.
  all: apply semaphore_commands_in; eauto 10.
Qed.

End isolation.

(** ** Tenants do not interfere *)

(** The programs a handler goes on as, one answer at a time. *)
Inductive continues : Handler → Handler → Prop :=
| After_proposal c k r : continues (Proposing c k) (k r)
| After_query q k r : continues (Querying q k) (k r)
| After_kv prefix k l : continues (ListingKv prefix k) (k l)
| After_services k l : continues (ListingServices k) (k l)
| After_schedules k l : continues (ListingSchedules k) (k l)
| After_elections k l : continues (ListingElections k) (k l)
| After_locks k r : continues (LockInventoryRead k) (k r)
| After_semaphores k r : continues (SemaphoreInventoryRead k) (k r).

Section noninterference.
Context `{HL : HeaderLib, SL : ScopingLaws, HO : HashOrder, UL : UrlLib, CR : Crypto}.

Lemma continues_isolated org h h' : continues h h' → isolated org h → isolated org h'.
Proof. intros []; simpl; naive_solver. Qed.

Lemma reached_isolated org h h' : rtc continues h h' → isolated org h → isolated org h'.
Proof. induction 1; eauto using continues_isolated. Qed.

(** Names of two organisations differ, and none is the empty name. *)
Lemma in_org_apart a b x y : valid_org a = true → valid_org b = true → a ≠ b → in_org a x → in_org b y → x ≠ y.
Proof. intros Ha Hb Hne [k ->] [k' ->] E. by apply scope_inj in E as []. Qed.

Lemma in_org_nonempty a x : in_org a x → x ≠ "".
Proof. intros [k ->]. by rewrite scope_format. Qed.

(** A routing that no name can meet: the coordinators have the empty key. *)
Definition apart_routing : Routing := {| LOCK_DOMAIN := ""; SERVICE_DOMAIN := "" |}.

Lemma routes_apart a b c q :
  valid_org a = true → valid_org b = true → a ≠ b → command_in b c → read_in a q → single q = true → promoted q = false →
  (∀ s, q ≠ ReadService s) → @routing_key apart_routing c ≠ @read_routing_key apart_routing q.
Proof.
  intros Ha Hb Hne Hc Hq Hs Hp Hsv.
  assert (Hr : in_org a (@read_routing_key apart_routing q)).
  { destruct q; try done; simpl in *; [tauto|by destruct (Hsv service)]. }
  destruct (decide (@routing_key apart_routing c = "")) as [->|Hn]; [intros E; by apply (in_org_nonempty _ _ Hr)|].
  intros E. eapply (in_org_apart a b); [done..|exact Hr| |symmetry; exact E].
  destruct c; simpl in *; try done; tauto.
Qed.

Lemma bucket_in a t k : in_org a (rate_limit_store_key (scope a t) k).
Proof.
  exists (t +:+ ":" +:+ k). unfold rate_limit_store_key. by rewrite !scope_format, !append_cons, !append_assoc.
Qed.

Lemma buckets_apart a b c q :
  valid_org a = true → valid_org b = true → a ≠ b → command_in b c → read_in a q → same_bucket c q = false.
Proof.
  intros Ha Hb Hne Hc Hq. destruct c; try done. destruct q; try done. simpl in *. destruct Hc as [_ [t ->]], Hq as [[t' ->] _].
  apply String.eqb_neq. intros E. eapply (in_org_apart a b); [done..|apply bucket_in|apply bucket_in|symmetry; exact E].
Qed.

Lemma dispatch_service a b st rev ts c service :
  valid_org a = true → valid_org b = true → a ≠ b → command_in b c → in_org a service →
  services (dispatch st rev ts c).1 !! service = services st !! service.
Proof.
  intros Ha Hb Hne Hc Hs. destruct c; try done; simpl in Hc; pose proof (in_org_apart _ _ _ _ Ha Hb Hne Hs Hc) as Hd.
  - cbn -[lookup]. by rewrite lookup_insert_ne.
  - cbn -[lookup]. unfold apply_service_heartbeat. repeat case_match; simplify_eq/=; [by rewrite lookup_insert_ne|done].
  - cbn -[lookup]. repeat case_match; simplify_eq/=; by rewrite ?lookup_delete_ne, ?lookup_insert_ne.
Qed.

Lemma noninterference a b st c ts now q :
  valid_org a = true → valid_org b = true → a ≠ b → command_in b c → read_in a q → single q = true → promoted q = false → ts ≤ now →
  same_answer (read_local (apply_at st c ts).1 now q) (read_local st now q).
Proof.
  intros Ha Hb Hne Hc Hq Hs Hp Hle. unfold apply_at. destruct (dispatch _ _ _ _) as [st' out] eqn:E. simpl.
  assert (Hd : read_local st' now q = read_local (prepare st c ts) now q).
  { replace st' with (dispatch (prepare st c ts) (revision (prepare st c ts)) ts c).1 by (by rewrite E).
    assert ((∃ s, q = ReadService s) ∨ ∀ s, q ≠ ReadService s) as [[s ->]|Hns] by (destruct q; naive_solver).
    - simpl. unfold service_list. by rewrite (dispatch_service a b).
    - apply (@dispatch_answer _ _ apart_routing); [done|apply (routes_apart a b); naive_solver|by apply (buckets_apart a b)]. }
  rewrite Hd. by apply prepare_answer.
Qed.

(** ** The coordinator's tables *)

Lemma in_org_one_side a org holder keys :
  valid_org a = true → valid_org org = true → all_in org keys → in_org org holder → one_side (in_org a) holder keys.
Proof.
  intros Ha Ho Hk Hh k Hin Hm. unfold all_in in Hk. rewrite Forall_forall in Hk. destruct (decide (a = org)) as [->|Hne]; [done|].
  by destruct (in_org_apart a org k k Ha Ho Hne Hm (Hk k Hin)).
Qed.

Lemma in_org_foreign a b c : valid_org a = true → valid_org b = true → a ≠ b → command_in b c → acts_elsewhere (in_org a) c.
Proof.
  intros Ha Hb Hne Hc. assert (Hx : ∀ x, in_org b x → ¬ in_org a x) by (intros x ? ?; by apply (in_org_apart a b x x)).
  destruct c; simpl in *; try done; try (apply Hx; tauto).
  all: destruct Hc as [Hk _]; unfold all_in in Hk; rewrite Forall_forall in Hk; auto.
Qed.

Lemma in_org_fair a org c : valid_org a = true → valid_org org = true → command_in org c → fair (in_org a) c.
Proof. intros Ha Ho Hc. destruct c; simpl in *; try done; destruct Hc; by apply (in_org_one_side a org). Qed.

(** Every lock command of the log came from a handler. *)
Definition from_tenants (log : list (Command * Z)) : Prop :=
  ∀ c t, (c, t) ∈ log → touches_locks c = true → ∃ org, valid_org org = true ∧ command_in org c.

Lemma tenants_fair a log : valid_org a = true → from_tenants log → ∀ c t, (c, t) ∈ log → fair (in_org a) c.
Proof.
  intros Ha Hf c t Hin. specialize (Hf c t Hin). destruct (touches_locks c) eqn:Ht; [|by destruct c].
  destruct (Hf eq_refl) as (org & Ho & Hc). by apply (in_org_fair a org).
Qed.

Lemma in_org_ordinary b c : command_in b c → is_activation c = false.
Proof. by destruct c. Qed.

(** A lock or a semaphore is shown as the sweep of the other's clock leaves it. *)
Lemma coordinator_apart a b log c ts now q :
  valid_org a = true → valid_org b = true → a ≠ b → command_in b c → read_in a q → promoted q = true → from_tenants log →
  let st := apply_log inhabitant log in read_local (apply_at st c ts).1 now q = read_local (expire_due st ts) now q.
Proof.
  intros Ha Hb Hne Hc Hq Hp Hlog st. pose proof (in_org_foreign a b c Ha Hb Hne Hc) as Hf.
  assert (I : store_inv st) by (apply apply_log_inv, empty_store_inv).
  pose proof (log_sided (in_org a) log (tenants_fair a log Ha Hlog)) as Hs. fold st in Hs.
  destruct (prepare_tables st c ts (in_org_ordinary b c Hc)) as [El Es]. unfold apply_at.
  pose proof (dispatch_apart (in_org a) (prepare st c ts) (revision (prepare st c ts)) ts c (prepare_inv st c ts I)
    (prepare_sided (in_org a) st c ts I Hs) Hf) as Hd.
  pose proof (dispatch_semaphore_other (in_org a) (prepare st c ts) (revision (prepare st c ts)) ts c) as Hsem.
  destruct (dispatch _ _ _ _) as [st' out]. cbn [fst] in *. destruct q; try discriminate; [| |done|done]; simpl in Hq |- *; f_equal.
  - unfold lock_get. rewrite <- El. by apply (apart_view (in_org a)).
  - unfold semaphore_get, semaphore_snapshot_live_at. rewrite (Hsem key Hf Hq), Es. done.
Qed.

(** C12: Tenants do not interfere: in every state that a log reaches, a command
    that a handler of one organisation proposes leaves every single-object read
    that a handler of another organisation makes as it was, on any replica and at
    any later time.  Locks and semaphores, which any command's clock can expire
    and promote, are left as the bare sweep of that clock leaves them; their
    commands in the log must have come from handlers too. *)
Theorem tenants_do_not_interfere (send : VaultRequest → option VaultReply) (cipher : option KvCipher) (hs hs' : HeaderMap)
    (a b : string) (r r' : ApiRequest) (c : Command) (q : ReadRequest)
    (k : result ProposeOutcome ProposeError → Handler) (k' : result ReadResponse ProposeError → Handler)
    (log : list (Command * Z)) (ts now : Z)
    (Ha : valid_org a = true) (Hb : valid_org b = true) (Hne : a ≠ b)
    (Hwrite : rtc continues (route send cipher hs b r) (Proposing c k))
    (Hread : rtc continues (route send cipher hs' a r') (Querying q k'))
    (Hs : single q = true) (Hle : ts ≤ now) (Hlog : from_tenants log) :
  let st := apply_log inhabitant log in
  same_answer (read_local (apply_at st c ts).1 now q) (read_local (if promoted q then expire_due st ts else st) now q).
Proof.
  apply (reached_isolated b) in Hwrite as [Hc _]; [|apply route_isolated].
  apply (reached_isolated a) in Hread as [Hq _]; [|apply route_isolated].
  intros st. destruct (promoted q) eqn:Hp; [|by apply (noninterference a b)].
  unfold st. by rewrite (coordinator_apart a b log c ts now q).
Qed.
End noninterference.
