(* ===== verification/Routes.v ===== *)
(** From the wire to the handlers: the routers of src/*.rs as src/main.rs nests
    them under [/v1], with the bodies, queries and path parameters their
    handlers extract by the derived [Deserialize].  A reader takes a JSON value
    and fails where [serde] refuses it; floats are read by [serde_json] and are a
    parameter.  A path is the list of its raw segments; axum decodes a parameter
    (a parameter of this file), and matches a literal as it stands.  A request
    that no route takes, or whose extractors refuse it, runs no handler. *)

From Stdlib Require Import Ascii SpecFloat.
From S2P Require Import Prelude Json Text Cancellation Locks Semaphores Registers Barriers Tasks Effects Handoffs Decisions Budgets Claims RateLimit Schedules Reads Http Net KvCrypto Handler LockApi KvApi Tenancy.

Class FloatJson := { read_f32 : Value → option f32; read_f64 : Value → option f64 }.

(** ** Values *)

Definition reader (A : Type) : Type := Value → option A.

Definition read_value : reader Value := Some.
Definition read_str : reader string := λ v, match v with JStr s => Some s | _ => None end.
Definition read_bool : reader bool := λ v, match v with JBool b => Some b | _ => None end.

Definition read_int (lo hi : Z) : reader Z :=
  λ v, match v with JNum n => if (lo <=? n) && (n <=? hi) then Some n else None | _ => None end.
Definition read_u32 : reader Z := read_int 0 U32_MAX.
Definition read_u64 : reader Z := read_int 0 U64_MAX.
Definition read_i64 : reader Z := read_int I64_MIN I64_MAX.

Definition read_option {A} (r : reader A) : reader (option A) := λ v, match v with JNull => Some None | _ => Some <$> r v end.
Definition read_vec {A} (r : reader A) : reader (list A) := λ v, match v with JArr l => mapM r l | _ => None end.

(** [HashMap<String, String>]: a later entry replaces an earlier one. *)
Fixpoint read_entries (fs : list (string * Value)) (m : gmap string string) : option (gmap string string) :=
  match fs with
  | [] => Some m
  | (k, v) :: fs => s ← read_str v; read_entries fs (<[k := s]> m)
  end.
Definition read_map : reader (gmap string string) := λ v, match v with JObj fs => read_entries fs ∅ | _ => None end.

(** ** Structs *)

(** A field, and whether it has [#[serde(default)]]. *)
Definition spec : Type := list (string * bool).
Definition need (k : string) : string * bool := (k, false).
Definition may (k : string) : string * bool := (k, true).

Fixpoint count_field (k : string) (fs : list (string * Value)) : nat :=
  match fs with [] => O | (k', _) :: fs => if String.eqb k k' then S (count_field k fs) else count_field k fs end.

(** An array gives the fields by position; only defaulted ones may be missing. *)
Fixpoint positional (sp : spec) (l : list Value) : option (list (string * Value)) :=
  match sp, l with
  | [], [] => Some []
  | [], _ :: _ => None
  | (k, _) :: sp, v :: l => cons (k, v) <$> positional sp l
  | (_, defaulted) :: sp, [] => if defaulted : bool then positional sp [] else None
  end.

(** The members of a struct: unknown ones are ignored, a repeated one is an error. *)
Definition members (sp : spec) (v : Value) : option (list (string * Value)) :=
  match v with
  | JObj fs => if forallb (λ k, (count_field k fs <=? 1)%nat) sp.*1 then Some fs else None
  | JArr l => positional sp l
  | _ => None
  end.

(** A field, an [Option] field, and a defaulted field ([None]: the default). *)
Definition req {A} (k : string) (r : reader A) (fs : list (string * Value)) : option A := assoc k fs ≫= r.
Definition opt {A} (k : string) (r : reader A) (fs : list (string * Value)) : option (option A) :=
  match assoc k fs with None => Some None | Some v => read_option r v end.
Definition dflt {A} (k : string) (r : reader A) (fs : list (string * Value)) : option (option A) :=
  match assoc k fs with None => Some None | Some v => Some <$> r v end.

(** ** Enums *)

(** Unit variants: the name, or an object with the name and [null]. *)
Definition read_unit {A} (variants : list (string * A)) : reader A :=
  let named s := snd <$> List.find (λ e, String.eqb s e.1) variants in
  λ v, match v with JStr s => named s | JObj [(s, JNull)] => named s | _ => None end.

Definition without_field (k : string) (fs : list (string * Value)) : list (string * Value) := filter (λ e, e.1 ≠ k) fs.

(** [#[serde(tag = "kind")]]: the variant and what is left for its fields. *)
Definition read_tagged (v : Value) : option (string * Value) :=
  match v with
  | JObj fs =>
      if (count_field "kind" fs =? 1)%nat then kind ← req "kind" read_str fs; Some (kind, JObj (without_field "kind" fs)) else None
  | JArr (JStr kind :: l) => Some (kind, JArr l)
  | _ => None
  end.

Definition read_algorithm : reader RateLimitAlgorithm := read_unit [("token_bucket", TokenBucket); ("sliding_window", SlidingWindow)].
Definition read_delivery : reader DeliverySemantics := read_unit [("at_least_once", AtLeastOnce); ("exactly_once", ExactlyOnce)].

(** A variant with one field. *)
Definition variant {A B} (k : string) (r : reader A) (mk : A → B) (rest : Value) : option B :=
  fs ← members [need k] rest; mk <$> req k r fs.

(** A variant without fields: nothing may follow its name in an array. *)
Definition unit_variant {B} (b : B) (rest : Value) : option B := match rest with JArr (_ :: _) => None | _ => Some b end.

Definition read_barrier_policy : reader BarrierPolicy := λ v,
  '(kind, rest) ← read_tagged v;
  if String.eqb kind "all" then unit_variant All rest
  else if String.eqb kind "quorum" then variant "required" read_u32 Quorum rest
  else if String.eqb kind "first_success" then unit_variant FirstSuccess rest
  else if String.eqb kind "any_veto" then unit_variant AnyVeto rest
  else if String.eqb kind "best_by_deadline" then unit_variant BestByDeadline rest
  else if String.eqb kind "weighted_quorum" then variant "required_weight" read_u64 WeightedQuorum rest
  else None.

Definition read_decision_policy : reader DecisionPolicy := λ v,
  '(kind, rest) ← read_tagged v;
  if String.eqb kind "plurality" then variant "min_votes" read_u32 Plurality rest
  else if String.eqb kind "threshold" then variant "required_weight" read_u64 Threshold rest
  else if String.eqb kind "unanimous" then variant "min_votes" read_u32 Unanimous rest
  else None.

Definition read_target : reader ScheduleTarget := λ v,
  '(kind, rest) ← read_tagged v;
  if String.eqb kind "webhook" then variant "url" read_str Webhook rest
  else if String.eqb kind "queue" then variant "name" read_str Queue rest
  else if String.eqb kind "grpc" then variant "endpoint" read_str Grpc rest
  else if String.eqb kind "function" then variant "function_id" read_str Schedules.Function rest
  else None.

Definition read_amount : reader BudgetAmount := λ v,
  fs ← members [may "usd_micros"; may "tokens"; may "tool_calls"] v;
  usd ← opt "usd_micros" read_u64 fs; tokens ← opt "tokens" read_u64 fs; calls ← opt "tool_calls" read_u64 fs;
  Some (mkAmount usd tokens calls).

(** ** Queries *)

(** [serde_urlencoded]: pairs of text; a repeated field of the struct is an
    error, an empty value is text like any other. *)
Definition query : Type := list (string * string).

Definition q_values (k : string) (q : query) : list string := omap (λ e, if String.eqb k e.1 then Some e.2 else None) q.

Definition q_opt {A} (k : string) (parse : string → option A) (q : query) : option (option A) :=
  match q_values k q with [] => Some None | [s] => Some <$> parse s | _ => None end.
Definition q_req {A} (k : string) (parse : string → option A) (q : query) : option A :=
  match q_values k q with [s] => parse s | _ => None end.

Definition parse_bool (s : string) : option bool :=
  if String.eqb s "true" then Some true else if String.eqb s "false" then Some false else None.

(** [HashMap<String, String>] of a query. *)
Definition q_map (q : query) : gmap string string := foldl (λ m e, <[e.1 := e.2]> m) ∅ q.

(** ** Targets *)

(** What a request asks for: a tenant route, a stream, or a view of the node. *)
Inductive Target : Type :=
| Api (r : ApiRequest)
| KvWatch (q : KvParams)
| ElectionWatch (name : string)
| ServiceWatch (service : string)
| StatusView
| ShardsView
| MetricsView.

Section bodies.
Context `{FloatJson}.

(** ** Bodies *)

Definition counter_add_body : reader Target := λ v,
  fs ← members [need "key"; need "delta"; need "prev_revision"] v;
  key ← req "key" read_str fs; delta ← req "delta" read_i64 fs; prev_revision ← opt "prev_revision" read_u64 fs;
  Some (Api (CounterAddCall key delta prev_revision)).

Definition counter_set_body : reader Target := λ v,
  fs ← members [need "key"; need "value"; need "prev_revision"] v;
  key ← req "key" read_str fs; value ← req "value" read_i64 fs; prev_revision ← opt "prev_revision" read_u64 fs;
  Some (Api (CounterSetCall key value prev_revision)).

Definition barrier_create_body : reader Target := λ v,
  fs ← members [need "name"; need "policy"; may "expected"; need "deadline_ms"] v;
  name ← req "name" read_str fs; policy ← req "policy" read_barrier_policy fs; expected ← dflt "expected" read_u32 fs;
  deadline_ms ← opt "deadline_ms" read_u64 fs;
  Some (Api (BarrierCreateCall name policy expected deadline_ms)).

Definition barrier_arrive_body : reader Target := λ v,
  fs ← members [need "name"; need "participant"; may "weight"; may "veto"] v;
  name ← req "name" read_str fs; participant ← req "participant" read_str fs; weight ← dflt "weight" read_u64 fs;
  veto ← dflt "veto" read_bool fs;
  Some (Api (BarrierArriveCall name participant weight veto)).

Definition task_create_body : reader Target := λ v,
  fs ← members [need "name"; need "task_type"; may "payload"; need "deadline_ms"] v;
  name ← req "name" read_str fs; task_type ← req "task_type" read_str fs; payload ← dflt "payload" read_value fs;
  deadline_ms ← opt "deadline_ms" read_u64 fs;
  Some (Api (TaskCreateCall name task_type (default JNull payload) deadline_ms)).

Definition task_claim_body : reader Target := λ v,
  fs ← members [need "name"; need "worker"; need "ttl_ms"] v;
  name ← req "name" read_str fs; worker ← req "worker" read_str fs; ttl_ms ← opt "ttl_ms" read_u64 fs;
  Some (Api (TaskClaimCall name worker ttl_ms)).

Definition task_progress_body : reader Target := λ v,
  fs ← members [need "name"; need "worker"; need "fencing_token"; may "percent"; may "checkpoint"] v;
  name ← req "name" read_str fs; worker ← req "worker" read_str fs; fencing_token ← req "fencing_token" read_u64 fs;
  percent ← dflt "percent" read_u32 fs; checkpoint ← dflt "checkpoint" read_value fs;
  Some (Api (TaskProgressCall name worker fencing_token percent (default JNull checkpoint))).

Definition task_complete_body : reader Target := λ v,
  fs ← members [need "name"; need "worker"; need "fencing_token"; may "result"] v;
  name ← req "name" read_str fs; worker ← req "worker" read_str fs; fencing_token ← req "fencing_token" read_u64 fs;
  result ← dflt "result" read_value fs;
  Some (Api (TaskCompleteCall name worker fencing_token (default JNull result))).

Definition task_fail_body : reader Target := λ v,
  fs ← members [need "name"; need "worker"; need "fencing_token"; may "retryable"] v;
  name ← req "name" read_str fs; worker ← req "worker" read_str fs; fencing_token ← req "fencing_token" read_u64 fs;
  retryable ← dflt "retryable" read_bool fs;
  Some (Api (TaskFailCall name worker fencing_token retryable)).

Definition task_cancel_body : reader Target := λ v,
  fs ← members [need "name"] v;
  name ← req "name" read_str fs;
  Some (Api (TaskCancelCall name)).

Definition effect_prepare_body : reader Target := λ v,
  fs ← members [need "name"; need "effect_type"; may "payload"; may "risk"; need "idempotency_key"; may "required_approvals"] v;
  name ← req "name" read_str fs; effect_type ← req "effect_type" read_str fs; payload ← dflt "payload" read_value fs;
  risk ← dflt "risk" read_str fs; idempotency_key ← req "idempotency_key" read_str fs;
  required_approvals ← dflt "required_approvals" read_u32 fs;
  Some (Api (EffectPrepareCall name effect_type (default JNull payload) risk idempotency_key required_approvals)).

Definition effect_approve_body : reader Target := λ v,
  fs ← members [need "name"; need "principal"] v;
  name ← req "name" read_str fs; principal ← req "principal" read_str fs;
  Some (Api (EffectApproveCall name principal)).

Definition effect_commit_body : reader Target := λ v,
  fs ← members [need "name"; may "result"] v;
  name ← req "name" read_str fs; result ← dflt "result" read_value fs;
  Some (Api (EffectCommitCall name (default JNull result))).

Definition effect_abort_body : reader Target := λ v,
  fs ← members [need "name"] v;
  name ← req "name" read_str fs;
  Some (Api (EffectAbortCall name)).

Definition handoff_offer_body : reader Target := λ v,
  fs ← members [need "name"; need "resource"; need "from"; need "to"; need "from_token"; may "context"; need "ttl_ms"] v;
  name ← req "name" read_str fs; resource ← req "resource" read_str fs; from ← req "from" read_str fs;
  to ← req "to" read_str fs; from_token ← req "from_token" read_u64 fs; context ← dflt "context" read_value fs;
  ttl_ms ← opt "ttl_ms" read_u64 fs;
  Some (Api (HandoffOfferCall name resource from to from_token (default JNull context) ttl_ms)).

Definition handoff_accept_body : reader Target := λ v,
  fs ← members [need "name"; need "to"] v;
  name ← req "name" read_str fs; to ← req "to" read_str fs;
  Some (Api (HandoffAcceptCall name to)).

Definition handoff_reject_body : reader Target := λ v,
  fs ← members [need "name"; need "to"] v;
  name ← req "name" read_str fs; to ← req "to" read_str fs;
  Some (Api (HandoffRejectCall name to)).

Definition decision_propose_body : reader Target := λ v,
  fs ← members [need "name"; need "question"; need "options"; need "policy"; need "deadline_ms"] v;
  name ← req "name" read_str fs; question ← req "question" read_str fs;
  options ← req "options" (read_vec read_str) fs; policy ← req "policy" read_decision_policy fs;
  deadline_ms ← opt "deadline_ms" read_u64 fs;
  Some (Api (DecisionProposeCall name question options policy deadline_ms)).

Definition decision_vote_body : reader Target := λ v,
  fs ← members [need "name"; need "voter"; may "option"; may "confidence"; may "weight"; may "veto"; may "evidence"] v;
  name ← req "name" read_str fs; voter ← req "voter" read_str fs; choice ← opt "option" read_str fs;
  confidence ← dflt "confidence" read_f32 fs; weight ← dflt "weight" read_u64 fs; veto ← dflt "veto" read_bool fs;
  evidence ← dflt "evidence" (read_vec read_str) fs;
  Some (Api (DecisionVoteCall name voter choice (default (mk_f32 0) confidence) weight veto (default [] evidence))).

Definition budget_set_body : reader Target := λ v,
  fs ← members [need "name"; need "limit"] v;
  name ← req "name" read_str fs; limit ← req "limit" read_amount fs;
  Some (Api (BudgetSetCall name limit)).

Definition budget_reserve_body : reader Target := λ v,
  fs ← members [need "name"; need "reservation_id"; need "holder"; need "amount"] v;
  name ← req "name" read_str fs; reservation_id ← req "reservation_id" read_str fs; holder ← req "holder" read_str fs;
  amount ← req "amount" read_amount fs;
  Some (Api (BudgetReserveCall name reservation_id holder amount)).

Definition budget_commit_body : reader Target := λ v,
  fs ← members [need "name"; need "reservation_id"; need "actual"] v;
  name ← req "name" read_str fs; reservation_id ← req "reservation_id" read_str fs;
  actual ← req "actual" read_amount fs;
  Some (Api (BudgetCommitCall name reservation_id actual)).

Definition budget_release_body : reader Target := λ v,
  fs ← members [need "name"; need "reservation_id"] v;
  name ← req "name" read_str fs; reservation_id ← req "reservation_id" read_str fs;
  Some (Api (BudgetReleaseCall name reservation_id)).

Definition claim_assert_body : reader Target := λ v,
  fs ← members [need "name"; need "subject"; need "predicate"; may "value"; may "confidence"; need "author"; may "evidence"; need "valid_until_ms"] v;
  name ← req "name" read_str fs; subject ← req "subject" read_str fs; predicate ← req "predicate" read_str fs;
  value ← dflt "value" read_value fs; confidence ← dflt "confidence" read_f32 fs; author ← req "author" read_str fs;
  evidence ← dflt "evidence" (read_vec read_str) fs; valid_until_ms ← opt "valid_until_ms" read_u64 fs;
  Some (Api (ClaimAssertCall name subject predicate (default JNull value) (default (mk_f32 0) confidence) author (default [] evidence) valid_until_ms)).

Definition claim_support_body : reader Target := λ v,
  fs ← members [need "name"; need "agent"] v;
  name ← req "name" read_str fs; agent ← req "agent" read_str fs;
  Some (Api (ClaimSupportCall name agent)).

Definition claim_contest_body : reader Target := λ v,
  fs ← members [need "name"; need "agent"; may "reason"] v;
  name ← req "name" read_str fs; agent ← req "agent" read_str fs; reason ← dflt "reason" read_str fs;
  Some (Api (ClaimContestCall name agent reason)).

Definition claim_resolve_body : reader Target := λ v,
  fs ← members [need "name"; need "accepted"] v;
  name ← req "name" read_str fs; accepted ← req "accepted" read_bool fs;
  Some (Api (ClaimResolveCall name accepted)).

Definition claim_supersede_body : reader Target := λ v,
  fs ← members [need "name"; need "superseded_by"] v;
  name ← req "name" read_str fs; superseded_by ← req "superseded_by" read_str fs;
  Some (Api (ClaimSupersedeCall name superseded_by)).

Definition election_campaign_body (name : string) : reader Target := λ v,
  fs ← members [need "candidate"; need "ttl_ms"; may "metadata"] v;
  candidate ← req "candidate" read_str fs; ttl_ms ← req "ttl_ms" read_u64 fs; metadata ← dflt "metadata" read_map fs;
  Some (Api (ElectionCampaignCall name candidate ttl_ms (default ∅ metadata))).

Definition election_renew_body (name : string) : reader Target := λ v,
  fs ← members [need "candidate"; need "fencing_token"; may "ttl_ms"] v;
  candidate ← req "candidate" read_str fs; fencing_token ← req "fencing_token" read_u64 fs;
  ttl_ms ← opt "ttl_ms" read_u64 fs;
  Some (Api (ElectionRenewCall name candidate fencing_token ttl_ms)).

Definition election_resign_body (name : string) : reader Target := λ v,
  fs ← members [need "candidate"; need "fencing_token"] v;
  candidate ← req "candidate" read_str fs; fencing_token ← req "fencing_token" read_u64 fs;
  Some (Api (ElectionResignCall name candidate fencing_token)).

Definition rate_limit_body (tenant : string) (key : string) : reader Target := λ v,
  fs ← members [need "algorithm"; need "limit"; need "window_ms"; need "refill_per_second"; need "cost"] v;
  algorithm ← req "algorithm" read_algorithm fs; limit ← req "limit" read_u32 fs;
  window_ms ← req "window_ms" read_u64 fs; refill_per_second ← opt "refill_per_second" read_f64 fs;
  cost ← opt "cost" read_u32 fs;
  Some (Api (RateLimitCheckCall tenant key algorithm limit window_ms refill_per_second cost)).

Definition idempotency_claim_body : reader Target := λ v,
  fs ← members [need "key"; need "owner"; need "ttl_ms"; need "ttl"; need "retention_ms"; need "metadata"] v;
  key ← req "key" read_str fs; owner ← opt "owner" read_str fs; ttl_ms ← opt "ttl_ms" read_u64 fs;
  ttl ← opt "ttl" read_str fs; retention_ms ← opt "retention_ms" read_u64 fs; metadata ← opt "metadata" read_map fs;
  Some (Api (IdempotencyClaimCall key owner ttl_ms ttl retention_ms (default ∅ metadata))).

Definition idempotency_renew_body : reader Target := λ v,
  fs ← members [need "key"; need "owner"; need "fencing_token"; need "ttl_ms"; need "ttl"] v;
  key ← req "key" read_str fs; owner ← req "owner" read_str fs; fencing_token ← req "fencing_token" read_u64 fs;
  ttl_ms ← opt "ttl_ms" read_u64 fs; ttl ← opt "ttl" read_str fs;
  Some (Api (IdempotencyRenewCall key owner fencing_token ttl_ms ttl)).

Definition idempotency_abandon_body : reader Target := λ v,
  fs ← members [need "key"; need "owner"; need "fencing_token"] v;
  key ← req "key" read_str fs; owner ← req "owner" read_str fs; fencing_token ← req "fencing_token" read_u64 fs;
  Some (Api (IdempotencyAbandonCall key owner fencing_token)).

Definition idempotency_complete_body : reader Target := λ v,
  fs ← members [need "key"; need "owner"; need "fencing_token"; need "result"] v;
  key ← req "key" read_str fs; owner ← req "owner" read_str fs; fencing_token ← req "fencing_token" read_u64 fs;
  result ← opt "result" read_value fs;
  Some (Api (IdempotencyCompleteCall key owner fencing_token result)).

Definition lock_acquire_body : reader Target := λ v,
  fs ← members [need "keys"; need "key"; need "holder"; need "request_id"; need "ttl_ms"; need "wait"; need "wait_timeout_ms"] v;
  ks ← opt "keys" (read_vec read_str) fs; key ← opt "key" read_str fs; holder ← opt "holder" read_str fs;
  request_id ← opt "request_id" read_str fs; ttl_ms ← opt "ttl_ms" read_u64 fs; wait ← opt "wait" read_bool fs;
  wait_timeout_ms ← opt "wait_timeout_ms" read_u64 fs;
  Some (Api (LockAcquireCall (LockApi.mkAcquireBody ks key holder request_id ttl_ms wait wait_timeout_ms))).

Definition lock_renew_body : reader Target := λ v,
  fs ← members [need "keys"; need "key"; need "holder"; need "fencing_token"; need "ttl_ms"] v;
  ks ← opt "keys" (read_vec read_str) fs; key ← opt "key" read_str fs; holder ← req "holder" read_str fs;
  fencing_token ← req "fencing_token" read_u64 fs; ttl_ms ← opt "ttl_ms" read_u64 fs;
  Some (Api (LockRenewCall ks key holder fencing_token ttl_ms)).

Definition lock_release_body : reader Target := λ v,
  fs ← members [need "holder"; need "fencing_token"] v;
  holder ← req "holder" read_str fs; fencing_token ← req "fencing_token" read_u64 fs;
  Some (Api (LockReleaseCall holder fencing_token)).

Definition lock_cancel_body : reader Target := λ v,
  fs ← members [need "keys"; need "key"; need "holder"; need "request_id"] v;
  ks ← opt "keys" (read_vec read_str) fs; key ← opt "key" read_str fs; holder ← req "holder" read_str fs;
  request_id ← opt "request_id" read_str fs;
  Some (Api (LockCancelCall ks key holder request_id)).

Definition semaphore_acquire_body : reader Target := λ v,
  fs ← members [need "key"; need "holder"; need "request_id"; need "limit"; need "ttl_ms"; need "wait"; need "wait_timeout_ms"] v;
  key ← req "key" read_str fs; holder ← opt "holder" read_str fs; request_id ← opt "request_id" read_str fs;
  limit ← req "limit" read_u32 fs; ttl_ms ← opt "ttl_ms" read_u64 fs; wait ← opt "wait" read_bool fs;
  wait_timeout_ms ← opt "wait_timeout_ms" read_u64 fs;
  Some (Api (SemaphoreAcquireCall (SemaphoreApi.mkAcquireBody key holder request_id limit ttl_ms wait wait_timeout_ms))).

Definition semaphore_renew_body : reader Target := λ v,
  fs ← members [need "key"; need "holder"; need "fencing_token"; need "ttl_ms"] v;
  key ← req "key" read_str fs; holder ← req "holder" read_str fs; fencing_token ← req "fencing_token" read_u64 fs;
  ttl_ms ← opt "ttl_ms" read_u64 fs;
  Some (Api (SemaphoreRenewCall key holder fencing_token ttl_ms)).

Definition semaphore_release_body : reader Target := λ v,
  fs ← members [need "key"; need "holder"; need "fencing_token"] v;
  key ← req "key" read_str fs; holder ← req "holder" read_str fs; fencing_token ← req "fencing_token" read_u64 fs;
  Some (Api (SemaphoreReleaseCall key holder fencing_token)).

Definition semaphore_cancel_body : reader Target := λ v,
  fs ← members [need "key"; need "holder"; need "request_id"] v;
  key ← req "key" read_str fs; holder ← req "holder" read_str fs; request_id ← opt "request_id" read_str fs;
  Some (Api (SemaphoreCancelCall key holder request_id)).

Definition schedule_upsert_body (name : string) (now : Z) : reader Target := λ v,
  fs ← members [need "cron"; need "one_shot_at_ms"; need "target"; need "delivery"; need "max_retries"] v;
  cron ← opt "cron" read_str fs; one_shot_at_ms ← opt "one_shot_at_ms" read_u64 fs;
  target ← req "target" read_target fs; delivery ← opt "delivery" read_delivery fs;
  max_retries ← opt "max_retries" read_u32 fs;
  Some (Api (ScheduleUpsertCall name now cron one_shot_at_ms target delivery max_retries)).

Definition service_register_body (service : string) (id : string) : reader Target := λ v,
  fs ← members [need "address"; need "ttl_ms"; need "metadata"] v;
  address ← req "address" read_str fs; ttl_ms ← req "ttl_ms" read_u64 fs; metadata ← opt "metadata" read_map fs;
  Some (Api (ServiceRegisterCall service id address ttl_ms metadata)).

Definition service_heartbeat_body (service : string) (id : string) : reader Target := λ v,
  fs ← members [need "ttl_ms"] v;
  ttl_ms ← opt "ttl_ms" read_u64 fs;
  Some (Api (ServiceHeartbeatCall service id ttl_ms)).

Definition kv_put_body (nonce : string) (q : KvParams) : reader Target := λ v,
  fs ← members [need "value"; need "ttl_ms"; need "prev_revision"; may "plaintext"] v;
  value ← req "value" read_str fs; ttl_ms ← opt "ttl_ms" read_u64 fs; prev_revision ← opt "prev_revision" read_u64 fs;
  plaintext ← dflt "plaintext" read_bool fs;
  Some (Api (KvPutCall nonce q (mkPutBody value ttl_ms prev_revision (default false plaintext)))).
End bodies.

(** ** Routers *)

Inductive Method : Type := GET | HEAD | POST | PUT | DELETE | OtherMethod.

Inductive Seg : Type := Lit (s : string) | Param.

(** The percent decoding of a path parameter, and the encoding of a client. *)
Class PathLib := { decode_segment : string → option string; encode_segment : string → string }.

(** Decoding undoes encoding, and neither makes or loses the empty text. *)
Class PathLaws `{PathLib} : Prop := {
  segment_decodes s : decode_segment (encode_segment s) = Some s;
  segment_encoded s : s ≠ "" → encode_segment s ≠ "";
  segment_nonempty raw s : decode_segment raw = Some s → raw ≠ "" → s ≠ ""
}.

(** [.route(path, method(handler))], with what the handler extracts. *)
Record Route : Type := mkRoute {
  r_method : Method;
  r_path : list Seg;
  r_extract : list string → query → option Value → option Target
}.

Definition on_get (path : list Seg) (f : list string → query → option Target) : Route := mkRoute GET path (λ ps q _, f ps q).
Definition on_post (path : list Seg) (f : reader Target) : Route := mkRoute POST path (λ _ _ b, b ≫= f).

Definition nest (prefix : string) (l : list Route) : list Route :=
  (λ r, mkRoute (r_method r) (Lit prefix :: r_path r) (r_extract r)) <$> l.

(** One path parameter, and two. *)
Definition one {A} (f : string → option A) (ps : list string) : option A := match ps with [a] => f a | _ => None end.
Definition two {A} (f : string → string → option A) (ps : list string) : option A := match ps with [a; b] => f a b | _ => None end.

(** [Query<KeyParam>] and [Query<NameParam>]. *)
Definition key_param (f : string → ApiRequest) (_ : list string) (q : query) : option Target := Api ∘ f <$> q_req "key" Some q.
Definition name_param (f : string → ApiRequest) (_ : list string) (q : query) : option Target := Api ∘ f <$> q_req "name" Some q.

Section routers.
Context `{FloatJson} (now : Z) (nonce : string).

Definition counters_router : list Route :=
  [on_get [] (key_param GetCounterCall); on_post [Lit "add"] counter_add_body; on_post [Lit "set"] counter_set_body].

Definition barriers_router : list Route :=
  [on_get [] (name_param GetBarrierCall); on_post [Lit "create"] barrier_create_body; on_post [Lit "arrive"] barrier_arrive_body].

Definition tasks_router : list Route :=
  [on_get [] (name_param GetTaskCall); on_post [Lit "create"] task_create_body; on_post [Lit "claim"] task_claim_body;
   on_post [Lit "progress"] task_progress_body; on_post [Lit "complete"] task_complete_body; on_post [Lit "fail"] task_fail_body;
   on_post [Lit "cancel"] task_cancel_body].

Definition effects_router : list Route :=
  [on_get [] (name_param GetEffectCall); on_post [Lit "prepare"] effect_prepare_body; on_post [Lit "approve"] effect_approve_body;
   on_post [Lit "commit"] effect_commit_body; on_post [Lit "abort"] effect_abort_body].

Definition handoffs_router : list Route :=
  [on_get [] (name_param GetHandoffCall); on_post [Lit "offer"] handoff_offer_body; on_post [Lit "accept"] handoff_accept_body;
   on_post [Lit "reject"] handoff_reject_body].

Definition decisions_router : list Route :=
  [on_get [] (name_param GetDecisionCall); on_post [Lit "propose"] decision_propose_body; on_post [Lit "vote"] decision_vote_body].

Definition budgets_router : list Route :=
  [on_get [] (name_param GetBudgetCall); on_post [Lit "set"] budget_set_body; on_post [Lit "reserve"] budget_reserve_body;
   on_post [Lit "commit"] budget_commit_body; on_post [Lit "release"] budget_release_body].

Definition claims_router : list Route :=
  [on_get [] (name_param GetClaimCall); on_post [Lit "assert"] claim_assert_body; on_post [Lit "support"] claim_support_body;
   on_post [Lit "contest"] claim_contest_body; on_post [Lit "resolve"] claim_resolve_body; on_post [Lit "supersede"] claim_supersede_body].

Definition idempotency_router : list Route :=
  [on_get [] (key_param IdempotencyGetCall); on_post [Lit "claim"] idempotency_claim_body; on_post [Lit "renew"] idempotency_renew_body;
   on_post [Lit "abandon"] idempotency_abandon_body; on_post [Lit "complete"] idempotency_complete_body].

Definition locks_router : list Route :=
  [on_get [] (key_param GetLockCall); on_post [Lit "acquire"] lock_acquire_body; on_post [Lit "renew"] lock_renew_body;
   on_post [Lit "release"] lock_release_body; on_post [Lit "cancel"] lock_cancel_body].

Definition semaphores_router : list Route :=
  [on_get [] (key_param GetSemaphoreCall); on_post [Lit "acquire"] semaphore_acquire_body; on_post [Lit "renew"] semaphore_renew_body;
   on_post [Lit "release"] semaphore_release_body; on_post [Lit "cancel"] semaphore_cancel_body].

Definition rate_limit_router : list Route :=
  [on_get [Param; Param] (λ ps _, two (λ tenant key, Some (Api (GetLimitCall tenant key))) ps);
   mkRoute POST [Param; Param; Lit "check"] (λ ps _ b, two (λ tenant key, b ≫= rate_limit_body tenant key) ps)].

Definition list_query (q : query) : option Target :=
  cursor ← q_opt "cursor" Some q; limit ← q_opt "limit" parse_u64 q; Some (Api (ListSchedulesCall cursor limit)).
Definition history_query (name : string) (q : query) : option Target := Api ∘ ScheduleHistoryCall name <$> q_opt "limit" parse_u64 q.
Definition resume_query (name : string) (q : query) : option Target :=
  Api ∘ ScheduleResumeCall name now ∘ default false <$> q_opt "catch_up" parse_bool q.
Definition trigger_query (name : string) (q : query) : option Target := Api ∘ ScheduleTriggerCall name now <$> q_opt "fire_id_ms" parse_u64 q.

Definition schedule_router : list Route :=
  [on_get [Lit "schedules"] (λ _ q, list_query q);
   on_get [Lit "schedules"; Param] (λ ps _, one (λ name, Some (Api (GetScheduleCall name))) ps);
   mkRoute PUT [Lit "schedules"; Param] (λ ps _ b, one (λ name, b ≫= schedule_upsert_body name now) ps);
   mkRoute DELETE [Lit "schedules"; Param] (λ ps _ _, one (λ name, Some (Api (DeleteScheduleCall name))) ps);
   mkRoute POST [Lit "schedules"; Param; Lit "pause"] (λ ps _ _, one (λ name, Some (Api (SchedulePauseCall name now))) ps);
   mkRoute POST [Lit "schedules"; Param; Lit "resume"] (λ ps q _, one (λ name, resume_query name q) ps);
   mkRoute POST [Lit "schedules"; Param; Lit "trigger"] (λ ps q _, one (λ name, trigger_query name q) ps);
   on_get [Lit "schedules"; Param; Lit "history"] (λ ps q, one (λ name, history_query name q) ps)].

Definition election_router : list Route :=
  [on_get [Param] (λ ps _, one (λ name, Some (Api (ElectionObserveCall name))) ps);
   mkRoute POST [Param; Lit "campaign"] (λ ps _ b, one (λ name, b ≫= election_campaign_body name) ps);
   mkRoute POST [Param; Lit "renew"] (λ ps _ b, one (λ name, b ≫= election_renew_body name) ps);
   mkRoute POST [Param; Lit "resign"] (λ ps _ b, one (λ name, b ≫= election_resign_body name) ps);
   on_get [Param; Lit "watch"] (λ ps _, one (λ name, Some (ElectionWatch name)) ps)].

Definition discovery_router : list Route :=
  [on_get [] (λ _ _, Some (Api ListServicesCall));
   on_get [Param] (λ ps q, one (λ service, Some (Api (ListInstancesCall service (q_map q)))) ps);
   on_get [Param; Lit "watch"] (λ ps _, one (λ service, Some (ServiceWatch service)) ps);
   mkRoute PUT [Param; Lit "instances"; Param] (λ ps _ b, two (λ service id, b ≫= service_register_body service id) ps);
   mkRoute DELETE [Param; Lit "instances"; Param] (λ ps _ _, two (λ service id, Some (Api (ServiceDeregisterCall service id))) ps);
   mkRoute POST [Param; Lit "instances"; Param; Lit "heartbeat"] (λ ps _ b, two (λ service id, b ≫= service_heartbeat_body service id) ps)].

Definition observe_router : list Route :=
  [on_get [Lit "locks"] (λ _ _, Some (Api ObserveLocksCall)); on_get [Lit "semaphores"] (λ _ _, Some (Api ObserveSemaphoresCall));
   on_get [Lit "elections"] (λ _ _, Some (Api ObserveElectionsCall)); on_get [Lit "shards"] (λ _ _, Some ShardsView);
   on_get [Lit "metrics"] (λ _ _, Some MetricsView)].

(** [Query<KvParams>] with its [watch]. *)
Definition kv_params (q : query) : option (KvParams * bool) :=
  key ← q_opt "key" Some q; prefix ← q_opt "prefix" Some q; watch ← q_opt "watch" parse_bool q;
  Some (mkKvParams key prefix, default false watch).

Definition kv_router : list Route :=
  [on_get [] (λ _ q, '(params, watch) ← kv_params q; Some (if watch : bool then KvWatch params else Api (KvGetOrListCall params)));
   mkRoute PUT [] (λ _ q b, '(params, _) ← kv_params q; b ≫= kv_put_body nonce params);
   mkRoute DELETE [] (λ _ q _, '(params, _) ← kv_params q; Some (Api (KvDeleteCall params)))].

(** [v1] of main.rs. *)
Definition v1 : list Route :=
  on_get [Lit "status"] (λ _ _, Some StatusView) ::
  nest "kv" kv_router ++ nest "counters" counters_router ++ nest "barriers" barriers_router ++ nest "tasks" tasks_router ++
  nest "effects" effects_router ++ nest "handoffs" handoffs_router ++ nest "decisions" decisions_router ++ nest "budgets" budgets_router ++
  nest "claims" claims_router ++ nest "idempotency" idempotency_router ++ nest "locks" locks_router ++
  nest "semaphores" semaphores_router ++ nest "rate-limit" rate_limit_router ++ nest "ratelimit" rate_limit_router ++
  nest "cron" schedule_router ++ nest "elections" election_router ++ nest "services" discovery_router ++ nest "observe" observe_router.

(** ** Dispatch *)

(** The raw parameters of a path that matches; a parameter is not empty. *)
Fixpoint match_path (pat : list Seg) (path : list string) : option (list string) :=
  match pat, path with
  | [], [] => Some []
  | Lit l :: pat, s :: path => if String.eqb l s then match_path pat path else None
  | Param :: pat, s :: path => if String.eqb s "" then None else cons s <$> match_path pat path
  | _, _ => None
  end.

(** [get] answers [HEAD] too. *)
Definition takes (r m : Method) : bool :=
  match r, m with GET, GET | GET, HEAD | POST, POST | PUT, PUT | DELETE, DELETE => true | _, _ => false end.

Fixpoint find_route (m : Method) (path : list string) (l : list Route) : option (Route * list string) :=
  match l with
  | [] => None
  | r :: l =>
      match match_path (r_path r) path with
      | Some ps => if takes (r_method r) m then Some (r, ps) else find_route m path l
      | None => find_route m path l
      end
  end.

Inductive Extraction : Type := NoRoute | Refused | Accepted (t : Target).

(** A request under [/v1]; the body is there if it is JSON and declared so. *)
Definition http_target `{PathLib} (m : Method) (path : list string) (q : query) (b : option Value) : Extraction :=
  match find_route m path v1 with
  | None => NoRoute
  | Some (r, raw) =>
      match ps ← mapM decode_segment raw; r_extract r ps q b with Some t => Accepted t | None => Refused end
  end.
End routers.
