(* ===== verification/RouteTheorems.v ===== *)
(** The extractors accept exactly the requests whose numbers fit their types:
    what reaches a handler is in range, and every such request has a wire form
    (method, path, query and JSON body) that the routers take to its handler
    with the same arguments. *)

From Stdlib Require Import Ascii SpecFloat.
From stdpp Require Import pretty.
From S2P Require Import Prelude Json Text Cancellation Locks Semaphores Registers Barriers Tasks Effects Handoffs Decisions Budgets Claims RateLimit Schedules Reads Http Net KvCrypto Handler LockApi KvApi Tenancy Routes.

(** ** What the types of the bodies admit *)

Definition opt_ok {A} (P : A → Prop) (o : option A) : Prop := match o with Some x => P x | None => True end.
Abbreviation u64s o := (opt_ok is_u64 o).
Abbreviation u32s o := (opt_ok is_u32 o).

Definition amount_ok (a : BudgetAmount) : Prop := u64s (usd_micros a) ∧ u64s (tokens a) ∧ u64s (tool_calls a).
Definition barrier_policy_ok (p : BarrierPolicy) : Prop :=
  match p with Quorum n => is_u32 n | WeightedQuorum n => is_u64 n | _ => True end.
Definition decision_policy_ok (p : DecisionPolicy) : Prop :=
  match p with Plurality n | Unanimous n => is_u32 n | Threshold n => is_u64 n end.

Section ranges.
Context `{FloatJson}.

(** The default, or a number of JSON. *)
Definition f32_ok (x : f32) : Prop := x = mk_f32 0 ∨ ∃ v, read_f32 v = Some x.
Definition f64_ok (x : f64) : Prop := ∃ v, v ≠ JNull ∧ read_f64 v = Some x.

Definition api_ok (r : ApiRequest) : Prop :=
  match r with
  | CounterAddCall _ n prev | CounterSetCall _ n prev => is_i64 n ∧ u64s prev
  | BarrierCreateCall _ policy expected deadline => barrier_policy_ok policy ∧ u32s expected ∧ u64s deadline
  | BarrierArriveCall _ _ weight _ => u64s weight
  | TaskCreateCall _ _ _ deadline => u64s deadline
  | TaskClaimCall _ _ ttl => u64s ttl
  | TaskProgressCall _ _ token percent _ => is_u64 token ∧ u32s percent
  | TaskCompleteCall _ _ token _ => is_u64 token
  | TaskFailCall _ _ token _ => is_u64 token
  | EffectPrepareCall _ _ _ _ _ approvals => u32s approvals
  | HandoffOfferCall _ _ _ _ token _ ttl => is_u64 token ∧ u64s ttl
  | DecisionProposeCall _ _ _ policy deadline => decision_policy_ok policy ∧ u64s deadline
  | DecisionVoteCall _ _ _ confidence weight _ _ => f32_ok confidence ∧ u64s weight
  | BudgetSetCall _ amount => amount_ok amount
  | BudgetReserveCall _ _ _ amount => amount_ok amount
  | BudgetCommitCall _ _ amount => amount_ok amount
  | ClaimAssertCall _ _ _ _ confidence _ _ until => f32_ok confidence ∧ u64s until
  | ElectionCampaignCall name _ ttl _ => name ≠ "" ∧ is_u64 ttl
  | ElectionRenewCall name _ token ttl => name ≠ "" ∧ is_u64 token ∧ u64s ttl
  | ElectionResignCall name _ token => name ≠ "" ∧ is_u64 token
  | ElectionObserveCall name => name ≠ ""
  | RateLimitCheckCall tenant key _ limit window refill cost =>
      tenant ≠ "" ∧ key ≠ "" ∧ is_u32 limit ∧ is_u64 window ∧ opt_ok f64_ok refill ∧ u32s cost
  | GetLimitCall tenant key => tenant ≠ "" ∧ key ≠ ""
  | IdempotencyClaimCall _ _ ttl _ retention _ => u64s ttl ∧ u64s retention
  | IdempotencyRenewCall _ _ token ttl _ => is_u64 token ∧ u64s ttl
  | IdempotencyAbandonCall _ _ token => is_u64 token
  | IdempotencyCompleteCall _ _ token result => is_u64 token ∧ opt_ok (λ v, v ≠ JNull) result
  | ScheduleUpsertCall name _ _ one_shot _ _ retries => name ≠ "" ∧ u64s one_shot ∧ u32s retries
  | ListSchedulesCall _ limit => u64s limit
  | GetScheduleCall name | DeleteScheduleCall name | SchedulePauseCall name _ | ScheduleResumeCall name _ _ => name ≠ ""
  | ScheduleTriggerCall name _ fire => name ≠ "" ∧ u64s fire
  | ScheduleHistoryCall name limit => name ≠ "" ∧ u64s limit
  | ListInstancesCall service _ => service ≠ ""
  | ServiceRegisterCall service id _ ttl _ => service ≠ "" ∧ id ≠ "" ∧ is_u64 ttl
  | ServiceHeartbeatCall service id ttl => service ≠ "" ∧ id ≠ "" ∧ u64s ttl
  | ServiceDeregisterCall service id => service ≠ "" ∧ id ≠ ""
  | KvPutCall _ _ b => u64s (put_ttl_ms b) ∧ u64s (put_prev_revision b)
  | LockAcquireCall b => u64s (LockApi.ttl_ms b) ∧ u64s (LockApi.wait_timeout_ms b)
  | LockRenewCall _ _ _ token ttl => is_u64 token ∧ u64s ttl
  | LockReleaseCall _ token => is_u64 token
  | SemaphoreAcquireCall b => is_u32 (SemaphoreApi.limit b) ∧ u64s (SemaphoreApi.ttl_ms b) ∧ u64s (SemaphoreApi.wait_timeout_ms b)
  | SemaphoreRenewCall _ _ token ttl => is_u64 token ∧ u64s ttl
  | SemaphoreReleaseCall _ _ token => is_u64 token
  | _ => True
  end.

Definition in_range (t : Target) : Prop :=
  match t with Api r => api_ok r | ElectionWatch name => name ≠ "" | ServiceWatch service => service ≠ "" | _ => True end.

(** ** Readers and what they yield *)

Class Reads {A} (r : reader A) (P : A → Prop) := reads v x : r v = Some x → P x.

#[local] Instance reads_u32 : Reads read_u32 is_u32.
Proof. intros v x. unfold read_u32, read_int. repeat case_match; intros E; simplify_eq. bools. unfold is_u32. lia. Qed.
#[local] Instance reads_u64 : Reads read_u64 is_u64.
Proof. intros v x. unfold read_u64, read_int. repeat case_match; intros E; simplify_eq. bools. unfold is_u64. lia. Qed.
#[local] Instance reads_i64 : Reads read_i64 is_i64.
Proof. intros v x. unfold read_i64, read_int. repeat case_match; intros E; simplify_eq. bools. unfold is_i64. lia. Qed.

Lemma req_reads {A} {r : reader A} {P} `{!Reads r P} k fs x : req k r fs = Some x → P x.
Proof. intros (v & _ & E)%bind_Some. by eapply reads. Qed.

Lemma opt_reads {A} {r : reader A} {P} `{!Reads r P} k fs o : opt k r fs = Some o → opt_ok P o.
Proof.
  unfold opt, read_option. destruct (assoc k fs) as [v|]; [|by intros [= <-]].
  assert (Hr : ∀ w, Some <$> r w = Some o → opt_ok P o).
  { intros w (x & E & ->)%fmap_Some. simpl. by eapply reads. }
  destruct v; eauto. by intros [= <-].
Qed.

Lemma dflt_reads {A} {r : reader A} {P} `{!Reads r P} k fs o : dflt k r fs = Some o → opt_ok P o.
Proof.
  unfold dflt. destruct (assoc k fs) as [v|]; [|by intros [= <-]]. intros (x & E & ->)%fmap_Some. simpl. by eapply reads.
Qed.

#[local] Instance reads_barrier_policy : Reads read_barrier_policy barrier_policy_ok.
Proof.
  intros v p. unfold read_barrier_policy. intros ([kind rest] & _ & E)%bind_Some. unfold unit_variant, variant in E.
  repeat case_match; simplify_eq/=; try done; apply bind_Some in E as (fs & _ & (n & Hn & ->)%fmap_Some); by eapply req_reads in Hn.
Qed.

#[local] Instance reads_decision_policy : Reads read_decision_policy decision_policy_ok.
Proof.
  intros v p. unfold read_decision_policy. intros ([kind rest] & _ & E)%bind_Some. unfold variant in E.
  repeat case_match; simplify_eq/=; try done; apply bind_Some in E as (fs & _ & (n & Hn & ->)%fmap_Some); by eapply req_reads in Hn.
Qed.

#[local] Instance reads_amount : Reads read_amount amount_ok.
Proof.
  intros v a. unfold read_amount. intros (fs & _ & (x & Hx & (y & Hy & (z & Hz & [= <-])%bind_Some)%bind_Some)%bind_Some)%bind_Some.
  split_and!; by eapply opt_reads.
Qed.

#[local] Instance reads_f32 : Reads read_f32 (λ x, ∃ v, read_f32 v = Some x).
Proof. intros v x E. by exists v. Qed.

Lemma default_f32 k fs o : dflt k read_f32 fs = Some o → f32_ok (default (mk_f32 0) o).
Proof. intros E%dflt_reads. destruct o; [by right|by left]. Qed.

(** An [Option] field that is there is not [null]. *)
Lemma opt_value k fs o : opt k read_value fs = Some o → opt_ok (λ v, v ≠ JNull) o.
Proof. unfold opt, read_option. destruct (assoc k fs) as [v|]; [|by intros [= <-]]. destruct v; by intros [= <-]. Qed.
Lemma opt_f64 k fs o : opt k read_f64 fs = Some o → opt_ok f64_ok o.
Proof.
  unfold opt, read_option. destruct (assoc k fs) as [v|]; [|by intros [= <-]].
  assert (Hr : v ≠ JNull → Some <$> read_f64 v = Some o → opt_ok f64_ok o).
  { intros Hv (x & E & ->)%fmap_Some. by exists v. }
  destruct v; eauto. by intros [= <-].
Qed.

Lemma parse_digits_range max acc s n : 0 ≤ acc ≤ max → parse_digits max acc s = Some n → 0 ≤ n ≤ max.
Proof.
  revert acc. induction s as [|c s IH]; intros acc Ha; simpl; [intros [= <-]; lia|].
  intros (d & Hd & E)%bind_Some. destruct (Z.leb_spec (acc * 10 + d) max); [|done].
  apply IH in E; [done|]. unfold digit_of in Hd.
  destruct (_ && _) eqn:Hc in Hd; [|done]. apply andb_true_iff in Hc as [H1%N.leb_le H2%N.leb_le]. injection Hd as <-. lia.
Qed.

Lemma q_u64 k q o : q_opt k parse_u64 q = Some o → u64s o.
Proof.
  unfold q_opt. destruct (q_values k q) as [|s [|]]; [by intros [= <-]| |done]. intros (n & E & ->)%fmap_Some. simpl.
  unfold parse_u64 in E. unfold is_u64. repeat case_match; try done; (eapply parse_digits_range; [|exact E]; unfold U64_MAX; lia).
Qed.

(** ** What is accepted is in range *)

Definition yields_in_range (r : Route) : Prop :=
  ∀ ps q b t, Forall (λ s, s ≠ "") ps → r_extract r ps q b = Some t → in_range t.

Lemma nest_in_range prefix l : Forall yields_in_range l → Forall yields_in_range (nest prefix l).
Proof. intros Hl. apply Forall_fmap. eapply Forall_impl; [exact Hl|]. done. Qed.

Ltac binds E :=
  repeat lazymatch type of E with
  | (_ ≫= _) = Some _ => let x := fresh "x" in let Hx := fresh "Hx" in apply bind_Some in E as (x & Hx & E); cbn beta in E
  | (_ <$> _) = Some _ => let x := fresh "x" in let Hx := fresh "Hx" in apply fmap_Some in E as (x & Hx & E)
  | match ?p with pair _ _ => _ end = Some _ => destruct p
  end.

Ltac field_range :=
  first [done | by eapply default_f32 | by eapply opt_value | by eapply opt_f64 | by eapply q_u64
        | match goal with |- ?P _ => by eapply (req_reads (P := P)) end | by eapply opt_reads | by eapply dflt_reads].

(** One route: open its parameters, its body or query, and check each field. *)
Ltac route_in_range :=
  let ps := fresh "ps" in let E := fresh "E" in let Hps := fresh "Hps" in
  intros ps ? ? ? Hps E; cbn in E; unfold one, two, key_param, name_param, list_query, history_query, resume_query, trigger_query in E;
  destruct ps as [|? [|? [|? ?]]]; try discriminate E; rewrite ?Forall_cons in Hps; destruct_and?; binds E;
  unfold counter_add_body, counter_set_body, barrier_create_body, barrier_arrive_body, task_create_body, task_claim_body, task_progress_body, task_complete_body, task_fail_body, task_cancel_body, effect_prepare_body, effect_approve_body, effect_commit_body, effect_abort_body, handoff_offer_body, handoff_accept_body, handoff_reject_body, decision_propose_body, decision_vote_body, budget_set_body, budget_reserve_body, budget_commit_body, budget_release_body, claim_assert_body, claim_support_body, claim_contest_body, claim_resolve_body, claim_supersede_body, election_campaign_body, election_renew_body, election_resign_body, rate_limit_body, idempotency_claim_body, idempotency_renew_body, idempotency_abandon_body, idempotency_complete_body, lock_acquire_body, lock_renew_body, lock_release_body, lock_cancel_body, semaphore_acquire_body, semaphore_renew_body, semaphore_release_body, semaphore_cancel_body, schedule_upsert_body, service_register_body, service_heartbeat_body, kv_put_body in E;
  binds E; repeat case_match; try discriminate E; simplify_eq/=; try injection E as <-; cbn; split_and?; field_range.

Lemma primitives_in_range :
  Forall yields_in_range (counters_router ++ barriers_router ++ tasks_router ++ effects_router ++ handoffs_router ++ decisions_router ++ budgets_router ++
    claims_router ++ idempotency_router ++ locks_router ++ semaphores_router).
Proof. repeat (apply Forall_app; split); repeat (apply Forall_cons; split; [route_in_range|]); constructor. Qed.

Lemma services_in_range now nonce :
  Forall yields_in_range (rate_limit_router ++ schedule_router now ++ election_router ++ discovery_router ++ observe_router ++ kv_router nonce).
Proof. repeat (apply Forall_app; split); repeat (apply Forall_cons; split; [route_in_range|]); constructor. Qed.

Lemma v1_in_range now nonce : Forall yields_in_range (v1 now nonce).
Proof.
  pose proof primitives_in_range as Hp. pose proof (services_in_range now nonce) as Hs.
  repeat (apply Forall_app in Hp as [? Hp]). repeat (apply Forall_app in Hs as [? Hs]).
  apply Forall_cons. split; [route_in_range|]. repeat (apply Forall_app; split); by apply nest_in_range.
Qed.

Lemma match_path_nonempty pat path raw : match_path pat path = Some raw → Forall (λ s, s ≠ "") raw.
Proof.
  revert path raw. induction pat as [|[l|] pat IH]; intros [|s path] raw; simpl; try done; [by intros [= <-]| |].
  - case_match; [apply IH|done].
  - destruct (String.eqb_spec s ""); [done|]. intros (ps & Hps & ->)%fmap_Some. constructor; [done|]. by apply (IH path).
Qed.

Lemma decoded_nonempty `{PathLaws} raw ps : Forall (λ s, s ≠ "") raw → mapM decode_segment raw = Some ps → Forall (λ s, s ≠ "") ps.
Proof.
  intros Hraw E%mapM_Some. induction E as [|r s raw ps Hs E IH]; [done|]. apply Forall_cons in Hraw as [Hr Hraw].
  constructor; [by eapply segment_nonempty|by apply IH].
Qed.

Lemma find_route_yields m path l r raw :
  Forall yields_in_range l → find_route m path l = Some (r, raw) → yields_in_range r ∧ Forall (λ s, s ≠ "") raw.
Proof.
  induction l as [|r' l IH]; [done|]. intros [Hr' Hl]%Forall_cons. simpl.
  destruct (match_path (r_path r') path) as [ps|] eqn:Em; [|by apply IH].
  destruct (takes (r_method r') m); [|by apply IH]. intros [= <- <-]. split; [done|by eapply match_path_nonempty].
Qed.

Lemma accepted_in_range `{PathLaws} now nonce m path q b t : http_target now nonce m path q b = Accepted t → in_range t.
Proof.
  unfold http_target. destruct (find_route _ _ _) as [[r raw]|] eqn:Ef; [|done].
  apply find_route_yields in Ef as [Hr Hraw]; [|apply v1_in_range].
  destruct (mapM decode_segment raw) as [ps|] eqn:Ed; [|done]. cbn.
  destruct (r_extract r ps q b) as [t'|] eqn:Et; [|done]. intros [= ->].
  eapply Hr; [|exact Et]. by eapply decoded_nonempty.
Qed.
End ranges.

(** ** Readers invert the serialisers *)

Class Rereads {A} `{Serialize A} (r : reader A) (P : A → Prop) := rereads x : P x → r (to_value x) = Some x.
Class NeverNull (A : Type) `{Serialize A} := never_null (x : A) : to_value x ≠ JNull.

#[export] Instance bool_not_null : NeverNull bool. Proof. done. Qed.
#[export] Instance number_not_null : NeverNull Z. Proof. done. Qed.
#[export] Instance string_not_null : NeverNull string. Proof. done. Qed.
#[export] Instance list_not_null `{Serialize A} : NeverNull (list A). Proof. done. Qed.
#[export] Instance map_not_null : NeverNull (gmap string string). Proof. done. Qed.
#[export] Instance delivery_not_null : NeverNull DeliverySemantics. Proof. by intros []. Qed.

#[export] Instance rereads_value : Rereads read_value (λ _, True). Proof. done. Qed.
#[export] Instance rereads_str : Rereads read_str (λ _, True). Proof. done. Qed.
#[export] Instance rereads_bool : Rereads read_bool (λ _, True). Proof. done. Qed.

Lemma rereads_int lo hi n : lo ≤ n ≤ hi → read_int lo hi (JNum n) = Some n.
Proof. intros [H1 H2]. unfold read_int. by rewrite (proj2 (Z.leb_le _ _) H1), (proj2 (Z.leb_le _ _) H2). Qed.
Lemma u32_read n : is_u32 n → read_u32 (JNum n) = Some n. Proof. apply rereads_int. Qed.
Lemma u64_read n : is_u64 n → read_u64 (JNum n) = Some n. Proof. apply rereads_int. Qed.
#[export] Instance rereads_u32 : Rereads read_u32 is_u32. Proof. exact u32_read. Qed.
#[export] Instance rereads_u64 : Rereads read_u64 is_u64. Proof. exact u64_read. Qed.
#[export] Instance rereads_i64 : Rereads read_i64 is_i64. Proof. intros n. apply rereads_int. Qed.

#[export] Instance rereads_strings : Rereads (read_vec read_str) (λ _, True).
Proof. intros l _. simpl. induction l as [|s l IH]; [done|]. cbn in *. by rewrite IH. Qed.

#[export] Instance rereads_algorithm : Rereads read_algorithm (λ _, True). Proof. by intros []. Qed.
#[export] Instance rereads_delivery : Rereads read_delivery (λ _, True). Proof. by intros []. Qed.
#[export] Instance rereads_target : Rereads read_target (λ _, True). Proof. by intros []. Qed.

#[export] Instance rereads_barrier_policy : Rereads read_barrier_policy barrier_policy_ok.
Proof. intros [] Hp; try done; lazy -[read_u32 read_u64]; by (rewrite u32_read || rewrite u64_read). Qed.
#[export] Instance rereads_decision_policy : Rereads read_decision_policy decision_policy_ok.
Proof. intros [] Hp; lazy -[read_u32 read_u64]; by (rewrite u32_read || rewrite u64_read). Qed.

#[export] Instance rereads_amount : Rereads read_amount amount_ok.
Proof.
  intros [usd tokens calls] (Hu & Ht & Hc). cbn in Hu, Ht, Hc. unfold read_amount, opt, read_option.
  destruct usd, tokens, calls; cbn -[read_u64] in *; by rewrite ?u64_read.
Qed.

(** A map is read back in any order of its entries. *)
Lemma entries_fold l m : read_entries (prod_map id to_value <$> l) m = Some (foldl (λ m e, <[e.1 := e.2]> m) m l).
Proof. revert m. induction l as [|[k s] l IH]; intros m; [done|]. cbn. apply IH. Qed.

Lemma fold_entries l (m m' : gmap string string) :
  NoDup l.*1 → (∀ k, k ∈ l.*1 → m !! k = None) → foldl (λ m e, <[e.1 := e.2]> m) m l = list_to_map l ∪ m.
Proof.
  revert m. induction l as [|[k s] l IH]; intros m; cbn; [by rewrite map_empty_union|]. rewrite NoDup_cons. intros [Hk Hl] Hm.
  rewrite IH; [|done|].
  - rewrite <-insert_union_l, <-insert_union_r; [done|]. by apply not_elem_of_list_to_map.
  - intros k' Hk'. rewrite lookup_insert_ne; [apply Hm; by right|]. intros ->. done.
Qed.

Lemma q_map_iter (m : gmap string string) : q_map (btree_iter m) = m.
Proof.
  assert (Hd : NoDup (btree_iter m).*1) by (rewrite btree_iter_Permutation; apply NoDup_fst_map_to_list).
  unfold q_map. rewrite fold_entries; [|exact ∅|done|done]. rewrite map_union_empty.
  rewrite (list_to_map_proper _ (map_to_list m)); [apply list_to_map_to_list|done|apply btree_iter_Permutation].
Qed.

#[export] Instance rereads_map : Rereads read_map (λ _, True).
Proof. intros m _. cbn. rewrite entries_fold. f_equal. apply q_map_iter. Qed.

(** Numbers of a query. *)
Lemma digit_of_char d : (d < 10)%N → digit_of (pretty_N_char d) = Some (Z.of_N d).
Proof.
  intros Hd. assert (Hc : d ∈ N.of_nat <$> seq 0 10).
  { apply list_elem_of_fmap. exists (N.to_nat d). rewrite N2Nat.id, elem_of_seq. lia. }
  cbn in Hc. rewrite !elem_of_cons in Hc. destruct_or?; subst; [reflexivity..|]. by apply elem_of_nil in Hc.
Qed.

(** A number starts with a digit. *)
Lemma pretty_go_starts x s :
  (0 < x)%N ∨ (∃ c s', s = String c s' ∧ c ≠ "+"%char) → ∃ c s', pretty_N_go x s = String c s' ∧ c ≠ "+"%char.
Proof.
  revert s. induction (N.lt_wf_0 x) as [x _ IH]; intros s Hs.
  destruct (decide (x = 0%N)) as [->|Hn]; [rewrite pretty_N_go_0; destruct Hs; [lia|done]|].
  rewrite pretty_N_go_step by lia. apply IH; [apply N.div_lt; lia|]. right. eexists _, _. split; [done|].
  unfold pretty_N_char. by repeat case_match.
Qed.

Lemma digits_parsed x s max : Z.of_N x ≤ max → parse_digits max 0 (pretty_N_go x s) = parse_digits max (Z.of_N x) s.
Proof.
  revert s. induction (N.lt_wf_0 x) as [x _ IH]; intros s Hx.
  destruct (decide (x = 0%N)) as [->|Hn]; [by rewrite pretty_N_go_0|].
  rewrite pretty_N_go_step by lia.
  assert (Hd : Z.of_N x = Z.of_N (x `div` 10)%N * 10 + Z.of_N (x `mod` 10)%N).
  { rewrite (N.Div0.div_mod x 10%N) at 1. lia. }
  pose proof (N.mod_lt x 10%N ltac:(done)) as Hm.
  generalize dependent (x `mod` 10)%N. intros d Hd Hm. rewrite IH; [|apply N.div_lt; lia|lia].
  cbn [parse_digits]. rewrite digit_of_char by done. cbn [mbind option_bind]. rewrite <-Hd.
  by rewrite (proj2 (Z.leb_le _ _) Hx).
Qed.

Lemma parse_decimal n : is_u64 n → parse_u64 (decimal n) = Some n.
Proof.
  intros Hn. unfold is_u64 in Hn. assert (Hz : parse_digits U64_MAX 0 (decimal n) = Some n ∧ ∃ c s, decimal n = String c s ∧ c ≠ "+"%char).
  { destruct (decide (n = 0)) as [->|Hnz]; [split; [reflexivity|]; by exists "0"%char, ""|].
    unfold decimal, pretty, pretty_Z. destruct n as [|p|p]; [done| |lia].
    unfold pretty, pretty_positive, pretty, pretty_N. rewrite decide_False by done. split.
    - rewrite digits_parsed by (cbn; lia). done.
    - apply pretty_go_starts. left. lia. }
  destruct Hz as (Hp & c & s & E & Hc). unfold parse_u64. rewrite E in *. by rewrite (proj2 (Ascii.eqb_neq _ _) Hc).
Qed.

(** ** Objects of a client *)

(** The fields a client sends; one without a value is left out. *)
Definition sendable : Type := list (string * option Value).
Definition present (fs : sendable) : list (string * Value) := omap (λ e, (e.1,.) <$> e.2) fs.

Fixpoint sent (k : string) (fs : sendable) : option Value :=
  match fs with [] => None | (k', o) :: fs => if String.eqb k k' then o else sent k fs end.

Definition distinct (fs : sendable) : bool := bool_decide (NoDup fs.*1).

Notation "k ':~' v" := (@pair string (option Value) k (Some (to_value v))) (at level 60) : json_scope.
Notation "k ':?' o" := (@pair string (option Value) k (to_value <$> o)) (at level 60) : json_scope.
Notation "'fields!' x" := (Some (JObj (present x%json))) (at level 10, x at level 9) : json_scope.

Lemma present_cons k o fs : present ((k, o) :: fs) = match o with Some v => (k, v) :: present fs | None => present fs end.
Proof. by destruct o. Qed.

Lemma sent_absent k fs : k ∉ fs.*1 → count_field k (present fs) = O ∧ assoc k (present fs) = None.
Proof.
  induction fs as [|[k' o] fs IH]; [done|]. rewrite present_cons. cbn [fmap list_fmap fst]. rewrite not_elem_of_cons. intros [Hne Hk].
  destruct o as [v|]; [|by apply IH]. cbn. rewrite (proj2 (String.eqb_neq _ _) Hne). by apply IH.
Qed.

Lemma sent_once k fs : NoDup fs.*1 → (count_field k (present fs) ≤ 1)%nat ∧ assoc k (present fs) = sent k fs.
Proof.
  induction fs as [|[k' o] fs IH]; [cbn; by auto with lia|]. rewrite present_cons. cbn [fmap list_fmap fst]. rewrite NoDup_cons.
  intros [Hk Hd]. specialize (IH Hd). cbn [sent]. destruct (String.eqb_spec k k') as [->|Hne].
  - destruct (sent_absent _ _ Hk) as [Hc Ha]. destruct o as [v|]; [cbn; rewrite String.eqb_refl|]; rewrite Hc; auto with lia.
  - destruct o as [v|]; [|done]. cbn. by rewrite (proj2 (String.eqb_neq _ _) Hne).
Qed.

Lemma members_sent sp fs : distinct fs = true → members sp (JObj (present fs)) = Some (present fs).
Proof.
  intros Hd%bool_decide_eq_true. cbn. rewrite (proj2 (forallb_forall _ _)); [done|].
  intros k _. apply Nat.leb_le. by apply sent_once.
Qed.

(** One field of a struct, in the order the readers take them. *)
Section steps.
Context {A B : Type} (k : string) (r : reader A) (fs : sendable) (y : B) (Hd : distinct fs = true).

Lemma sent_field : assoc k (present fs) = sent k fs.
Proof using Hd. apply sent_once. by apply bool_decide_eq_true in Hd. Qed.

Lemma req_step `{Serialize A} {P} `{!Rereads r P} x (f : A → option B) :
  sent k fs = Some (to_value x) → P x → f x = Some y → req k r (present fs) ≫= f = Some y.
Proof using Hd. intros E Hx Hf. unfold req. rewrite sent_field, E. cbn. by rewrite rereads. Qed.

Lemma opt_step `{Serialize A} {P} `{!Rereads r P} `{!NeverNull A} o (f : option A → option B) :
  sent k fs = to_value <$> o → opt_ok P o → f o = Some y → opt k r (present fs) ≫= f = Some y.
Proof using Hd.
  intros E Ho Hf. unfold opt. rewrite sent_field, E. destruct o as [x|]; [|done]. cbn. unfold read_option.
  pose proof (never_null x). rewrite (rereads x Ho). by destruct (to_value x).
Qed.

Lemma dflt_step `{Serialize A} {P} `{!Rereads r P} o (f : option A → option B) :
  sent k fs = to_value <$> o → opt_ok P o → f o = Some y → dflt k r (present fs) ≫= f = Some y.
Proof using Hd. intros E Ho Hf. unfold dflt. rewrite sent_field, E. destruct o as [x|]; [|done]. cbn. by rewrite (rereads x Ho). Qed.

Lemma dflt_sent `{Serialize A} {P} `{!Rereads r P} x (f : option A → option B) :
  sent k fs = Some (to_value x) → P x → f (Some x) = Some y → dflt k r (present fs) ≫= f = Some y.
Proof using Hd. intros E Hx. by apply (dflt_step (Some x)). Qed.
Lemma opt_sent `{Serialize A} {P} `{!Rereads r P} `{!NeverNull A} x (f : option A → option B) :
  sent k fs = Some (to_value x) → P x → f (Some x) = Some y → opt k r (present fs) ≫= f = Some y.
Proof using Hd. intros E Hx. by apply (opt_step (Some x)). Qed.
End steps.

Lemma opt_value_step {B} k fs (y : B) o (f : option Value → option B) :
  distinct fs = true → sent k fs = to_value <$> o → opt_ok (λ v, v ≠ JNull) o → f o = Some y → opt k read_value (present fs) ≫= f = Some y.
Proof. intros Hd E Ho Hf. unfold opt. rewrite sent_field, E by done. destruct o as [v|]; [|done]. cbn in *. by destruct v. Qed.

(** ** The wire form *)

Record Wire : Type := mkWire { w_method : Method; w_path : list string; w_query : query; w_body : option Value }.

Definition given (l : list (string * option string)) : query := omap (λ e, (e.1,.) <$> e.2) l.
Definition ask (path : list string) (q : query) : Wire := mkWire GET path q None.
Definition kv_query (q : KvParams) (watch : option string) : query := given [("key", kp_key q); ("prefix", kp_prefix q); ("watch", watch)].

Section wire.
Context `{FloatJson, PathLib}.

(** The numbers that stand for the floats of a request. *)
Context (c32 r64 : option Value).

Definition api_wire (r : ApiRequest) : Wire :=
  match r with
  | GetCounterCall key => ask ["counters"] [("key", key)]
  | GetBarrierCall name => ask ["barriers"] [("name", name)]
  | GetTaskCall name => ask ["tasks"] [("name", name)]
  | GetEffectCall name => ask ["effects"] [("name", name)]
  | GetHandoffCall name => ask ["handoffs"] [("name", name)]
  | GetDecisionCall name => ask ["decisions"] [("name", name)]
  | GetBudgetCall name => ask ["budgets"] [("name", name)]
  | GetClaimCall name => ask ["claims"] [("name", name)]
  | IdempotencyGetCall key => ask ["idempotency"] [("key", key)]
  | GetLockCall key => ask ["locks"] [("key", key)]
  | GetSemaphoreCall key => ask ["semaphores"] [("key", key)]
  | ElectionObserveCall name => ask ["elections"; encode_segment name] []
  | GetLimitCall tenant key => ask ["rate-limit"; encode_segment tenant; encode_segment key] []
  | ListSchedulesCall cursor limit => ask ["cron"; "schedules"] (given [("cursor", cursor); ("limit", decimal <$> limit)])
  | GetScheduleCall name => ask ["cron"; "schedules"; encode_segment name] []
  | DeleteScheduleCall name => mkWire DELETE ["cron"; "schedules"; encode_segment name] [] None
  | SchedulePauseCall name _ => mkWire POST ["cron"; "schedules"; encode_segment name; "pause"] [] None
  | ScheduleResumeCall name _ catch_up =>
      mkWire POST ["cron"; "schedules"; encode_segment name; "resume"] [("catch_up", if catch_up : bool then "true" else "false")] None
  | ScheduleTriggerCall name _ fire =>
      mkWire POST ["cron"; "schedules"; encode_segment name; "trigger"] (given [("fire_id_ms", decimal <$> fire)]) None
  | ScheduleHistoryCall name limit => ask ["cron"; "schedules"; encode_segment name; "history"] (given [("limit", decimal <$> limit)])
  | ListServicesCall => ask ["services"] []
  | ListInstancesCall service q => ask ["services"; encode_segment service] (btree_iter q)
  | ServiceDeregisterCall service id => mkWire DELETE ["services"; encode_segment service; "instances"; encode_segment id] [] None
  | KvDeleteCall q => mkWire DELETE ["kv"] (kv_query q None) None
  | KvGetOrListCall q => ask ["kv"] (kv_query q None)
  | ObserveLocksCall => ask ["observe"; "locks"] []
  | ObserveSemaphoresCall => ask ["observe"; "semaphores"] []
  | ObserveElectionsCall => ask ["observe"; "elections"] []
  | CounterAddCall key delta prev_revision =>
      mkWire POST ["counters"; "add"] []
        (fields! ["key" :~ key; "delta" :~ delta; "prev_revision" :? prev_revision])
  | CounterSetCall key value prev_revision =>
      mkWire POST ["counters"; "set"] []
        (fields! ["key" :~ key; "value" :~ value; "prev_revision" :? prev_revision])
  | BarrierCreateCall name policy expected deadline_ms =>
      mkWire POST ["barriers"; "create"] []
        (fields! ["name" :~ name; "policy" :~ policy; "expected" :? expected; "deadline_ms" :? deadline_ms])
  | BarrierArriveCall name participant weight veto =>
      mkWire POST ["barriers"; "arrive"] []
        (fields! ["name" :~ name; "participant" :~ participant; "weight" :? weight; "veto" :? veto])
  | TaskCreateCall name task_type payload deadline_ms =>
      mkWire POST ["tasks"; "create"] []
        (fields! ["name" :~ name; "task_type" :~ task_type; "payload" :~ payload; "deadline_ms" :? deadline_ms])
  | TaskClaimCall name worker ttl_ms =>
      mkWire POST ["tasks"; "claim"] []
        (fields! ["name" :~ name; "worker" :~ worker; "ttl_ms" :? ttl_ms])
  | TaskProgressCall name worker fencing_token percent checkpoint =>
      mkWire POST ["tasks"; "progress"] []
        (fields! ["name" :~ name; "worker" :~ worker; "fencing_token" :~ fencing_token; "percent" :? percent; "checkpoint" :~ checkpoint])
  | TaskCompleteCall name worker fencing_token result =>
      mkWire POST ["tasks"; "complete"] []
        (fields! ["name" :~ name; "worker" :~ worker; "fencing_token" :~ fencing_token; "result" :~ result])
  | TaskFailCall name worker fencing_token retryable =>
      mkWire POST ["tasks"; "fail"] []
        (fields! ["name" :~ name; "worker" :~ worker; "fencing_token" :~ fencing_token; "retryable" :? retryable])
  | TaskCancelCall name =>
      mkWire POST ["tasks"; "cancel"] []
        (fields! ["name" :~ name])
  | EffectPrepareCall name effect_type payload risk idempotency_key required_approvals =>
      mkWire POST ["effects"; "prepare"] []
        (fields! ["name" :~ name; "effect_type" :~ effect_type; "payload" :~ payload; "risk" :? risk; "idempotency_key" :~ idempotency_key; "required_approvals" :? required_approvals])
  | EffectApproveCall name principal =>
      mkWire POST ["effects"; "approve"] []
        (fields! ["name" :~ name; "principal" :~ principal])
  | EffectCommitCall name result =>
      mkWire POST ["effects"; "commit"] []
        (fields! ["name" :~ name; "result" :~ result])
  | EffectAbortCall name =>
      mkWire POST ["effects"; "abort"] []
        (fields! ["name" :~ name])
  | HandoffOfferCall name resource from to from_token context ttl_ms =>
      mkWire POST ["handoffs"; "offer"] []
        (fields! ["name" :~ name; "resource" :~ resource; "from" :~ from; "to" :~ to; "from_token" :~ from_token; "context" :~ context; "ttl_ms" :? ttl_ms])
  | HandoffAcceptCall name to =>
      mkWire POST ["handoffs"; "accept"] []
        (fields! ["name" :~ name; "to" :~ to])
  | HandoffRejectCall name to =>
      mkWire POST ["handoffs"; "reject"] []
        (fields! ["name" :~ name; "to" :~ to])
  | DecisionProposeCall name question options policy deadline_ms =>
      mkWire POST ["decisions"; "propose"] []
        (fields! ["name" :~ name; "question" :~ question; "options" :~ options; "policy" :~ policy; "deadline_ms" :? deadline_ms])
  | DecisionVoteCall name voter choice _ weight veto evidence =>
      mkWire POST ["decisions"; "vote"] []
        (fields! ["name" :~ name; "voter" :~ voter; "option" :? choice; ("confidence", c32); "weight" :? weight; "veto" :? veto; "evidence" :~ evidence])
  | BudgetSetCall name limit =>
      mkWire POST ["budgets"; "set"] []
        (fields! ["name" :~ name; "limit" :~ limit])
  | BudgetReserveCall name reservation_id holder amount =>
      mkWire POST ["budgets"; "reserve"] []
        (fields! ["name" :~ name; "reservation_id" :~ reservation_id; "holder" :~ holder; "amount" :~ amount])
  | BudgetCommitCall name reservation_id actual =>
      mkWire POST ["budgets"; "commit"] []
        (fields! ["name" :~ name; "reservation_id" :~ reservation_id; "actual" :~ actual])
  | BudgetReleaseCall name reservation_id =>
      mkWire POST ["budgets"; "release"] []
        (fields! ["name" :~ name; "reservation_id" :~ reservation_id])
  | ClaimAssertCall name subject predicate value _ author evidence valid_until_ms =>
      mkWire POST ["claims"; "assert"] []
        (fields! ["name" :~ name; "subject" :~ subject; "predicate" :~ predicate; "value" :~ value; ("confidence", c32); "author" :~ author; "evidence" :~ evidence; "valid_until_ms" :? valid_until_ms])
  | ClaimSupportCall name agent =>
      mkWire POST ["claims"; "support"] []
        (fields! ["name" :~ name; "agent" :~ agent])
  | ClaimContestCall name agent reason =>
      mkWire POST ["claims"; "contest"] []
        (fields! ["name" :~ name; "agent" :~ agent; "reason" :? reason])
  | ClaimResolveCall name accepted =>
      mkWire POST ["claims"; "resolve"] []
        (fields! ["name" :~ name; "accepted" :~ accepted])
  | ClaimSupersedeCall name superseded_by =>
      mkWire POST ["claims"; "supersede"] []
        (fields! ["name" :~ name; "superseded_by" :~ superseded_by])
  | ElectionCampaignCall name candidate ttl_ms metadata =>
      mkWire POST ["elections"; encode_segment name; "campaign"] []
        (fields! ["candidate" :~ candidate; "ttl_ms" :~ ttl_ms; "metadata" :~ metadata])
  | ElectionRenewCall name candidate fencing_token ttl_ms =>
      mkWire POST ["elections"; encode_segment name; "renew"] []
        (fields! ["candidate" :~ candidate; "fencing_token" :~ fencing_token; "ttl_ms" :? ttl_ms])
  | ElectionResignCall name candidate fencing_token =>
      mkWire POST ["elections"; encode_segment name; "resign"] []
        (fields! ["candidate" :~ candidate; "fencing_token" :~ fencing_token])
  | RateLimitCheckCall tenant key algorithm limit window_ms _ cost =>
      mkWire POST ["rate-limit"; encode_segment tenant; encode_segment key; "check"] []
        (fields! ["algorithm" :~ algorithm; "limit" :~ limit; "window_ms" :~ window_ms; ("refill_per_second", r64); "cost" :? cost])
  | IdempotencyClaimCall key owner ttl_ms ttl retention_ms metadata =>
      mkWire POST ["idempotency"; "claim"] []
        (fields! ["key" :~ key; "owner" :? owner; "ttl_ms" :? ttl_ms; "ttl" :? ttl; "retention_ms" :? retention_ms; "metadata" :~ metadata])
  | IdempotencyRenewCall key owner fencing_token ttl_ms ttl =>
      mkWire POST ["idempotency"; "renew"] []
        (fields! ["key" :~ key; "owner" :~ owner; "fencing_token" :~ fencing_token; "ttl_ms" :? ttl_ms; "ttl" :? ttl])
  | IdempotencyAbandonCall key owner fencing_token =>
      mkWire POST ["idempotency"; "abandon"] []
        (fields! ["key" :~ key; "owner" :~ owner; "fencing_token" :~ fencing_token])
  | IdempotencyCompleteCall key owner fencing_token result =>
      mkWire POST ["idempotency"; "complete"] []
        (fields! ["key" :~ key; "owner" :~ owner; "fencing_token" :~ fencing_token; "result" :? result])
  | LockAcquireCall (LockApi.mkAcquireBody ks key holder request_id ttl_ms wait wait_timeout_ms) =>
      mkWire POST ["locks"; "acquire"] []
        (fields! ["keys" :? ks; "key" :? key; "holder" :? holder; "request_id" :? request_id; "ttl_ms" :? ttl_ms; "wait" :? wait; "wait_timeout_ms" :? wait_timeout_ms])
  | LockRenewCall ks key holder fencing_token ttl_ms =>
      mkWire POST ["locks"; "renew"] []
        (fields! ["keys" :? ks; "key" :? key; "holder" :~ holder; "fencing_token" :~ fencing_token; "ttl_ms" :? ttl_ms])
  | LockReleaseCall holder fencing_token =>
      mkWire POST ["locks"; "release"] []
        (fields! ["holder" :~ holder; "fencing_token" :~ fencing_token])
  | LockCancelCall ks key holder request_id =>
      mkWire POST ["locks"; "cancel"] []
        (fields! ["keys" :? ks; "key" :? key; "holder" :~ holder; "request_id" :? request_id])
  | SemaphoreAcquireCall (SemaphoreApi.mkAcquireBody key holder request_id limit ttl_ms wait wait_timeout_ms) =>
      mkWire POST ["semaphores"; "acquire"] []
        (fields! ["key" :~ key; "holder" :? holder; "request_id" :? request_id; "limit" :~ limit; "ttl_ms" :? ttl_ms; "wait" :? wait; "wait_timeout_ms" :? wait_timeout_ms])
  | SemaphoreRenewCall key holder fencing_token ttl_ms =>
      mkWire POST ["semaphores"; "renew"] []
        (fields! ["key" :~ key; "holder" :~ holder; "fencing_token" :~ fencing_token; "ttl_ms" :? ttl_ms])
  | SemaphoreReleaseCall key holder fencing_token =>
      mkWire POST ["semaphores"; "release"] []
        (fields! ["key" :~ key; "holder" :~ holder; "fencing_token" :~ fencing_token])
  | SemaphoreCancelCall key holder request_id =>
      mkWire POST ["semaphores"; "cancel"] []
        (fields! ["key" :~ key; "holder" :~ holder; "request_id" :? request_id])
  | ScheduleUpsertCall name _ cron one_shot_at_ms target delivery max_retries =>
      mkWire PUT ["cron"; "schedules"; encode_segment name] []
        (fields! ["cron" :? cron; "one_shot_at_ms" :? one_shot_at_ms; "target" :~ target; "delivery" :? delivery; "max_retries" :? max_retries])
  | ServiceRegisterCall service id address ttl_ms metadata =>
      mkWire PUT ["services"; encode_segment service; "instances"; encode_segment id] []
        (fields! ["address" :~ address; "ttl_ms" :~ ttl_ms; "metadata" :? metadata])
  | ServiceHeartbeatCall service id ttl_ms =>
      mkWire POST ["services"; encode_segment service; "instances"; encode_segment id; "heartbeat"] []
        (fields! ["ttl_ms" :? ttl_ms])
  | KvPutCall _ q (mkPutBody value ttl_ms prev_revision plaintext) =>
      mkWire PUT ["kv"] (kv_query q None)
        (fields! ["value" :~ value; "ttl_ms" :? ttl_ms; "prev_revision" :? prev_revision; "plaintext" :~ plaintext])
  end.

Definition wire_of (t : Target) : Wire :=
  match t with
  | Api r => api_wire r
  | KvWatch q => ask ["kv"] (kv_query q (Some "true"))
  | ElectionWatch name => ask ["elections"; encode_segment name; "watch"] []
  | ServiceWatch service => ask ["services"; encode_segment service; "watch"] []
  | StatusView => ask ["status"] []
  | ShardsView => ask ["observe"; "shards"] []
  | MetricsView => ask ["observe"; "metrics"] []
  end.

(** They read as the floats of the request. *)
Definition carries32 (x : f32) : Prop := match c32 with None => x = mk_f32 0 | Some v => read_f32 v = Some x end.
Definition carries64 (o : option f64) : Prop :=
  match r64, o with None, None => True | Some v, Some x => v ≠ JNull ∧ read_f64 v = Some x | _, _ => False end.
Definition carries (t : Target) : Prop :=
  match t with
  | Api (DecisionVoteCall _ _ _ x _ _ _) | Api (ClaimAssertCall _ _ _ _ x _ _ _) => carries32 x
  | Api (RateLimitCheckCall _ _ _ _ _ o _) => carries64 o
  | _ => True
  end.

Lemma f32_step {B} k fs (y : B) x (f : option f32 → option B) :
  distinct fs = true → sent k fs = c32 → carries32 x → (∀ o, default (mk_f32 0) o = x → f o = Some y) →
  dflt k read_f32 (present fs) ≫= f = Some y.
Proof.
  intros Hd E Hx Hf. unfold dflt. rewrite sent_field, E by done. unfold carries32 in Hx.
  destruct c32 as [v|]; cbn; [rewrite Hx; cbn; by apply Hf|by apply Hf].
Qed.

Lemma f64_step {B} k fs (y : B) o (f : option f64 → option B) :
  distinct fs = true → sent k fs = r64 → carries64 o → f o = Some y → opt k read_f64 (present fs) ≫= f = Some y.
Proof.
  intros Hd E Ho Hf. unfold opt. rewrite sent_field, E by done. unfold carries64 in Ho.
  destruct r64 as [v|], o as [x|]; try done. destruct Ho as [Hv Hr]. unfold read_option. rewrite Hr. by destruct v.
Qed.

(** The time and the nonce the handler takes when it runs. *)
Definition now_of (t : Target) : Z :=
  match t with
  | Api (ScheduleUpsertCall _ now _ _ _ _ _) | Api (SchedulePauseCall _ now) | Api (ScheduleResumeCall _ now _) | Api (ScheduleTriggerCall _ now _) => now
  | _ => 0
  end.
Definition nonce_of (t : Target) : string := match t with Api (KvPutCall nonce _ _) => nonce | _ => "" end.

Lemma encoded_segment `{!PathLaws} s : s ≠ "" → String.eqb (encode_segment s) "" = false.
Proof. intros Hs. apply String.eqb_neq. by apply segment_encoded. Qed.

Lemma accepted o t : o = Some t → match o with Some t => Accepted t | None => Refused end = Accepted t.
Proof. by intros ->. Qed.

Ltac any_option := first [done | match goal with |- opt_ok _ ?o => by destruct o end].
Ltac read_field :=
  lazymatch goal with
  | |- dflt _ read_f32 _ ≫= _ = _ => eapply f32_step; [reflexivity|reflexivity|eassumption|intros ? <-]
  | |- opt _ read_f64 _ ≫= _ = _ => eapply f64_step; [reflexivity|reflexivity|eassumption|]
  | |- opt _ read_value _ ≫= _ = _ => eapply opt_value_step; [reflexivity|reflexivity|done|]
  | |- req ?k ?r (present ?fs) ≫= _ = _ => eapply (req_step k r fs _ eq_refl); [reflexivity|done|]
  | |- opt ?k ?r (present ?fs) ≫= _ = _ =>
      first [ eapply (opt_step k r fs _ eq_refl); [reflexivity|any_option|] | eapply (opt_sent k r fs _ eq_refl); [reflexivity|done|] ]
  | |- dflt ?k ?r (present ?fs) ≫= _ = _ =>
      first [ eapply (dflt_step k r fs _ eq_refl); [reflexivity|any_option|] | eapply (dflt_sent k r fs _ eq_refl); [reflexivity|done|] ]
  end.
Ltac read_body :=
  unfold counter_add_body, counter_set_body, barrier_create_body, barrier_arrive_body, task_create_body, task_claim_body, task_progress_body, task_complete_body, task_fail_body, task_cancel_body, effect_prepare_body, effect_approve_body, effect_commit_body, effect_abort_body, handoff_offer_body, handoff_accept_body, handoff_reject_body, decision_propose_body, decision_vote_body, budget_set_body, budget_reserve_body, budget_commit_body, budget_release_body, claim_assert_body, claim_support_body, claim_contest_body, claim_resolve_body, claim_supersede_body, election_campaign_body, election_renew_body, election_resign_body, rate_limit_body, idempotency_claim_body, idempotency_renew_body, idempotency_abandon_body, idempotency_complete_body, lock_acquire_body, lock_renew_body, lock_release_body, lock_cancel_body, semaphore_acquire_body, semaphore_renew_body, semaphore_release_body, semaphore_cancel_body, schedule_upsert_body, service_register_body, service_heartbeat_body, kv_put_body;
  cbn [mbind option_bind]; rewrite members_sent by reflexivity; cbn [mbind option_bind]; repeat read_field; reflexivity.

(** Find the route, decode its parameters. *)
Ltac to_handler :=
  unfold http_target; cbn [now_of nonce_of wire_of api_wire ask w_method w_path w_query w_body];
  cbn [find_route v1 nest app fmap list_fmap counters_router barriers_router tasks_router effects_router handoffs_router decisions_router
       budgets_router claims_router idempotency_router locks_router semaphores_router rate_limit_router schedule_router election_router
       discovery_router observe_router kv_router match_path r_path r_method r_extract takes on_get on_post String.eqb Ascii.eqb Bool.eqb andb];
  repeat (rewrite encoded_segment by done; cbn [fmap option_fmap option_map match_path String.eqb Ascii.eqb Bool.eqb andb]);
  cbn [mapM mbind option_bind mret option_ret]; rewrite ?segment_decodes; cbn [mbind option_bind mret option_ret];
  lazymatch goal with
  | |- Accepted _ = Accepted _ => reflexivity
  | _ => apply accepted; cbn [r_extract one two mbind option_bind]
  end.

(** The call reaches its handler. *)
Definition reaches (t : Target) : Prop :=
  in_range t → carries t →
  http_target (now_of t) (nonce_of t) (w_method (wire_of t)) (w_path (wire_of t)) (w_query (wire_of t)) (w_body (wire_of t)) = Accepted t.


Lemma kv_query_read q watch b :
  watch = None ∧ b = false ∨ watch = Some "true" ∧ b = true → kv_params (kv_query q watch) = Some (q, b).
Proof. destruct q as [[] []]; by intros [[-> ->]|[-> ->]]. Qed.

Lemma number_query k o : u64s o → q_opt k parse_u64 (given [(k, decimal <$> o)]) = Some o.
Proof. destruct o as [n|]; [|done]. intros Hn. unfold q_opt, q_values. cbn. rewrite String.eqb_refl. by rewrite parse_decimal. Qed.

Lemma list_query_read cursor limit :
  u64s limit → list_query (given [("cursor", cursor); ("limit", decimal <$> limit)]) = Some (Api (ListSchedulesCall cursor limit)).
Proof.
  unfold list_query, q_opt, q_values. destruct cursor, limit as [n|]; intros Hn; cbn -[parse_u64]; by rewrite ?(parse_decimal _ Hn).
Qed.

Ltac read_query :=
  lazymatch goal with
  | |- list_query _ = _ => by apply list_query_read
  | |- trigger_query _ _ _ = _ => unfold trigger_query; by rewrite number_query
  | |- history_query _ _ = _ => unfold history_query; by rewrite number_query
  | |- resume_query _ _ [(_, if ?b : bool then _ else _)] = _ => by destruct b
  | |- context [q_map] => by rewrite q_map_iter
  | |- kv_params (kv_query _ None) ≫= _ = _ => rewrite (kv_query_read _ _ false) by auto
  | |- kv_params (kv_query _ (Some _)) ≫= _ = _ => rewrite (kv_query_read _ _ true) by auto
  | _ => idtac
  end.

Lemma wire_reaches `{!PathLaws} t : reaches t.
Proof.
  intros Hr Hc.
  destruct t as [r| | | | | |]; [destruct r; try match goal with b : PutBody |- _ => destruct b | b : LockApi.AcquireBody |- _ => destruct b
                                              | b : SemaphoreApi.AcquireBody |- _ => destruct b end|..];
    cbn in Hr, Hc; destruct_and?; to_handler; read_query; lazymatch goal with |- context [present] => read_body | _ => reflexivity end.
Qed.
End wire.

Lemma carries_some `{FloatJson} t : in_range t → ∃ c32 r64, carries c32 r64 t.
Proof.
  assert (H32 : ∀ x, f32_ok x → ∃ c, carries32 c x) by (intros x [->|[v Hv]]; [by exists None|by exists (Some v)]).
  destruct t as [r| | | | | |]; try (intros _; by exists None, None).
  destruct r; intros Hr; try (by exists None, None); cbn in Hr.
  - destruct (H32 confidence) as [c Hc]; [tauto|]. by exists c, None.
  - destruct (H32 confidence) as [c Hc]; [tauto|]. by exists c, None.
  - destruct refill_per_second as [x|]; [|by exists None, None].
    destruct Hr as (_ & _ & _ & _ & (v & Hv & Hx) & _). by exists None, (Some v).
Qed.

(** C38: The extractors admit exactly the calls whose arguments fit the types of
    the handlers: a call reaches a handler through some request under [/v1]
    (method, path, query, JSON body, at some time and nonce) if and only if its
    numbers are of the width of their fields, its path parameters are not
    empty, an optional result is not [null] and its floats are readable.  So no
    handler sees an argument out of range, no route shadows another, and every
    call a client may want to make can be written down. *)
Theorem extraction_exact `{FloatJson, PathLib} (laws : PathLaws) (t : Target) :
  (∃ now nonce m path q b, http_target now nonce m path q b = Accepted t) ↔ in_range t.
Proof.
  split; [by intros (now & nonce & m & path & q & b & E); eapply accepted_in_range|].
  intros Hr. destruct (carries_some t Hr) as (c32 & r64 & Hc). eexists _, _, _, _, _, _. by apply (wire_reaches c32 r64).
Qed.

(** ** A percent codec *)

Module RouteExample.
Definition hex_digit (n : nat) : ascii := default "0"%char (String.get n "0123456789ABCDEF").
Definition of_hex (c : ascii) : option nat := String.index 0 (String c "") "0123456789ABCDEF".

Definition escape (c : ascii) : string :=
  let n := nat_of_ascii c in String "%" (String (hex_digit (n `div` 16)) (String (hex_digit (n `mod` 16)) "")).

Fixpoint encode (s : string) : string := match s with "" => "" | String c s => escape c +:+ encode s end.

Fixpoint decode (s : string) : option string :=
  match s with
  | "" => Some ""
  | String "%" (String a (String b s)) => hi ← of_hex a; lo ← of_hex b; String (ascii_of_nat (hi * 16 + lo)) <$> decode s
  | String c s => String c <$> decode s
  end.

#[export] Instance percent : PathLib := { decode_segment := decode; encode_segment := encode }.
#[export] Instance whole_floats : FloatJson := {
  read_f32 := λ v, match v with JFloat bits => Some (mk_f32 bits) | _ => None end;
  read_f64 := λ v, match v with JNum n => Some (f64_of_Z n) | _ => None end
}.

Lemma escape_decodes c s : decode (escape c +:+ s) = String c <$> decode s.
Proof. destruct c as [[] [] [] [] [] [] [] []]; reflexivity. Qed.

#[export] Instance percent_laws : PathLaws.
Proof.
  split.
  - intros s. cbn. induction s as [|c s IH]; [done|]. cbn [encode]. by rewrite escape_decodes, IH.
  - by intros [].
  - intros [|c raw] s; [done|]. cbn [decode_segment percent]. intros E _ ->. revert E. cbn [decode].
    repeat case_match; intros E; by simplify_option_eq.
Qed.

(** A request with an escaped parameter, a number at the end of its type and one past it. *)
Lemma extraction_exact_witness :
  PathLaws ∧
  http_target 0 "" POST ["services"; "api"; "instances"; "%31"; "heartbeat"] [] (Some (json! ["ttl_ms" :- 500])) =
    Accepted (Api (ServiceHeartbeatCall "api" "1" (Some 500))) ∧
  (∃ now nonce m path q b, http_target now nonce m path q b = Accepted (Api (CounterAddCall "hits" I64_MAX None))) ∧
  ¬ (∃ now nonce m path q b, http_target now nonce m path q b = Accepted (Api (CounterAddCall "hits" (I64_MAX + 1) None))).
Proof.
  split; [exact percent_laws|]. split; [vm_compute; reflexivity|]. split.
  - apply (extraction_exact percent_laws). split; [unfold is_i64, I64_MIN, I64_MAX; lia|done].
  - intros Hr. apply (extraction_exact percent_laws) in Hr. destruct Hr as [Hr _]. unfold is_i64, I64_MIN, I64_MAX in Hr. lia.
Defined.
End RouteExample.
