(* ===== verification/ApiShape.v ===== *)
(** The shape of what the client plane answers: every branch of every route. *)

From Stdlib Require Import SpecFloat Ascii.
From S2P Require Import Prelude Json Text Cancellation Registers Schedules Command StateMachine Views ShardActor Reads Http NodeRouter Net KvCrypto Handler LockApi PrimitiveApi KvApi ScheduleApi DiscoveryApi InternalAuth ObserveApi Validate OrgScope Tenancy.

(** A JSON object under one of the codes the API uses: no redirects, and no 404
    for an object that is not there. *)
Definition well_formed (r : Response) : Prop :=
  http_status r ∈ [200; 400; 401; 403; 500; 503] ∧ ∃ fields, body r = JObj fields.

(** Every response a handler can end with, whatever the node answers. *)
Fixpoint every_response (P : Response → Prop) (h : Handler) : Prop :=
  match h with
  | Respond r => P r
  | Proposing _ k => ∀ r, every_response P (k r)
  | Querying _ k => ∀ r, every_response P (k r)
  | ListingKv _ k => ∀ l, every_response P (k l)
  | ListingServices k => ∀ l, every_response P (k l)
  | ListingSchedules k => ∀ l, every_response P (k l)
  | ListingElections k => ∀ l, every_response P (k l)
  | LockInventoryRead k => ∀ r, every_response P (k r)
  | SemaphoreInventoryRead k => ∀ r, every_response P (k r)
  end.

Create HintDb shape.

Lemma respond_shape code fields : code ∈ [200; 400; 401; 403; 500; 503] → well_formed (respond code (JObj fields)).
Proof. intros Hc. split; [done|]. by exists fields. Qed.

Lemma json_ok_shape fields : well_formed (json_ok (JObj fields)).
Proof. apply respond_shape. by left. Qed.

Lemma no_store_shape r : well_formed r → well_formed (no_store r).
Proof. by intros []. Qed.

Lemma reject_shape r : well_formed (reject_response r).
Proof. apply respond_shape. set_solver. Qed.

#[export] Hint Resolve json_ok_shape no_store_shape reject_shape : shape.
#[export] Hint Extern 2 (well_formed (respond _ _)) => (apply respond_shape; set_solver) : shape.

Section shape.
Context `{HeaderLib, Scoping}.

Lemma error_shape err : well_formed (error_response err).
Proof. destruct err; (split; [set_solver|by eexists]). Qed.

Lemma scope_violation_shape : well_formed scope_violation.
Proof. apply respond_shape. set_solver. Qed.

(** The organisation filter turns an object into an object or refuses it. *)
Lemma org_response_shape org fields : well_formed (org_response org (JObj fields)).
Proof.
  unfold org_response. cbn [unscope_value]. match goal with |- context [JObj <$> ?o] => destruct o end; simpl; [apply json_ok_shape|apply scope_violation_shape].
Qed.

Lemma org_propose_shape org r : well_formed (org_propose_response org r).
Proof.
  destruct r as [o|err]; simpl; [|apply error_shape]. destruct (unscope_value _ _ _); [apply json_ok_shape|apply scope_violation_shape].
Qed.

Lemma admin_shape hs h : every_response well_formed h → every_response well_formed (admin_then hs h).
Proof.
  intros Hh. unfold admin_then. destruct (require_admin_scope hs) as [denied|] eqn:E; [|done]. unfold require_admin_scope in E.
  repeat case_match; simplify_eq. apply respond_shape. set_solver.
Qed.
End shape.

#[export] Hint Resolve error_shape scope_violation_shape org_response_shape org_propose_shape : shape.

(** Follows the shape of the handler. *)
Ltac shaped :=
  lazymatch goal with
  | |- every_response _ (Respond _) => cbn [every_response]; shaped
  | |- every_response _ (match ?x with _ => _ end) => destruct x; shaped
  | |- every_response _ (Proposing _ _) => cbn [every_response]; intros ?; shaped
  | |- every_response _ (Querying _ _) => cbn [every_response]; intros ?; shaped
  | |- every_response _ (ListingKv _ _) => cbn [every_response]; intros ?; shaped
  | |- every_response _ (ListingServices _) => cbn [every_response]; intros ?; shaped
  | |- every_response _ (ListingSchedules _) => cbn [every_response]; intros ?; shaped
  | |- every_response _ (ListingElections _) => cbn [every_response]; intros ?; shaped
  | |- every_response _ (LockInventoryRead _) => cbn [every_response]; intros ?; shaped
  | |- every_response _ (SemaphoreInventoryRead _) => cbn [every_response]; intros ?; shaped
  | |- every_response _ (admin_then _ _) => apply admin_shape; shaped
  | |- every_response _ ?h => let f := head_of h in unfold f; cbv zeta; shaped
  | |- well_formed (match ?x with _ => _ end) => destruct x; shaped
  | |- well_formed (default _ (match ?x with _ => _ end)) => destruct x; shaped
  | |- well_formed (default _ _) => cbn [default]; shaped
  | |- well_formed (no_store _) => apply no_store_shape; shaped
  | |- well_formed ?r => first [solve [auto with shape] | let f := head_of r in unfold f; cbv zeta; shaped]
  end.

