(* ===== verification/ScheduleRunner.v ===== *)
(** The firing loop of src/schedule_runner.rs.  A sweep is a program over what it
    asks of the node and the deliveries it starts; deliveries run beside it, so
    the machine interleaves the two.  A delivery is a function of the replies of
    its target. *)

From Stdlib Require Import Ascii.
From S2P Require Import Prelude Json Text Cron Cancellation Schedules Command StateMachine Snapshot ShardActor Reads Http NodeRouter Net KvCrypto Handler KvApi InternalAuth ScheduleApi Validate OrgScope.

Definition MAX_CLAIMS_PER_TICK : nat := 16.
Definition DEFAULT_MAX_IN_FLIGHT : Z := 64.
Definition MAX_MAX_IN_FLIGHT : Z := 1024.
Definition MAX_RETRY_AFTER_MS : Z := 30000.
Definition MIN_WEBHOOK_SIGNING_SECRET_BYTES : Z := 32.
Definition HMAC_SHA256_BLOCK_BYTES : nat := 64.

(** ** Names *)

(** [name.strip_prefix(D).and_then(|rest| rest.split_once(D))] for the delimiter
    of a scoped name, which is one character. *)
Definition scope_parts `{External} (name : string) : option (string * string) :=
  rest ← strip_prefix ORG_SCOPE_DELIM name;
  match ORG_SCOPE_DELIM with String d "" => split_once d rest | _ => None end.

Definition scoped_org `{External} (name : string) : option string :=
  p ← scope_parts name; if String.eqb p.1 "" then None else Some p.1.

Definition unscoped_name `{External} (name : string) : string :=
  match scope_parts name with Some p => p.2 | None => name end.

Definition delivery_idempotency_key (schedule_name : string) (fire_id_ms : Z) : string :=
  "fiducia-schedule:" +:+ schedule_name +:+ ":" +:+ decimal fire_id_ms.

Definition trigger_label (t : RunTrigger) : string :=
  match t with Scheduled => "scheduled" | Manual => "manual" | Legacy => "legacy" end.

Definition target_kind (t : ScheduleTarget) : string :=
  match t with Webhook _ => "webhook" | Queue _ => "queue" | Grpc _ => "grpc" | Function _ => "function" end.

(** ** Signatures *)

Section signatures.
Context `{External}.

(** [key_block] and the two pads. *)
Definition key_block (secret : list ascii) : list ascii :=
  let key := if Nat.ltb HMAC_SHA256_BLOCK_BYTES (length secret) then sha256 secret else secret in
  key ++ replicate (HMAC_SHA256_BLOCK_BYTES - length key) zero.

Definition xor_pad (pad : N) (block : list ascii) : list ascii := (λ b, ascii_of_N (N.lxor pad (byte_at b))) <$> block.

Definition hmac_sha256_header_value (secret body : list ascii) : string :=
  let block := key_block secret in
  let inner_digest := sha256 (xor_pad 54 block ++ body) in
  "sha256=" +:+ hex (sha256 (xor_pad 92 block ++ inner_digest)).

Definition webhook_signature_header (target : ScheduleTarget) (signing_secret : option (list ascii)) (body : list ascii) : option string :=
  match target with
  | Webhook _ => (λ secret, hmac_sha256_header_value secret body) <$> signing_secret
  | _ => None
  end.
End signatures.

(** ** Replies and delays *)

Inductive ResponseDisposition : Type := Success | Retry | Permanent.

Definition response_disposition (status : Z) : ResponseDisposition :=
  if (200 <=? status) && (status <? 300) then Success
  else if (status =? 408) || (status =? 425) || (status =? 429) || (500 <=? status) && (status <? 600) then Retry
  else Permanent.

(** The first [Retry-After] of the reply, in milliseconds. *)
Definition retry_after_delay `{HeaderLib} (headers : HeaderMap) : option Z :=
  text ← header_str headers "retry-after"; seconds ← parse_u64 text; Some (Z.min (seconds * 1000) MAX_RETRY_AFTER_MS).

(** [u64::wrapping_mul] and [u64::rotate_left] *)
Definition wrap_mul (a b : Z) : Z := (a * b) mod (U64_MAX + 1).
Definition rotate_left (x n : Z) : Z := Z.lor (Z.land (Z.shiftl x n) U64_MAX) (Z.shiftr x (64 - n)).

Definition retry_delay (fire_id_ms attempt : Z) : Z :=
  let exponent := Z.min (Z.max (attempt - 1) 0) 6 in
  let base_ms := Z.min (200 * Z.shiftl 1 exponent) U64_MAX in
  let mixed := rotate_left (wrap_mul fire_id_ms 0x9E3779B97F4A7C15) (attempt mod 64) in
  let jitter_ms := mixed mod (base_ms / 4 + 1) in
  sat_add base_ms jitter_ms.

(** ** Configuration *)

Record RunnerConfig : Type := mkRunnerConfig {
  lambda_base_url : option Url;
  lambda_server_auth : option string;
  webhook_signing_secret : option (list ascii);
  max_in_flight : Z
}.

(** [str::trim_end_matches('/')] *)
Fixpoint trim_slashes (s : string) : string :=
  match s with
  | EmptyString => EmptyString
  | String a s' => match trim_slashes s' with
                   | EmptyString => if Ascii.eqb a "/" then EmptyString else String a EmptyString
                   | rest => String a rest
                   end
  end.

(** The parts of [url] that build a path from segments: [pop_if_empty], then a
    [push] of each; [None] when the URL cannot be a base. *)
Class UrlSegments := { push_segments : Url → list string → option Url }.

Section config.
Context `{UrlLib, UrlSegments, HeaderLib}.

Definition normalize_lambda_base (raw : string) : option Url :=
  url ← parse_url raw;
  if negb (existsb (String.eqb (url_scheme url)) ["http"; "https"]) || negb (String.eqb (url_username url) "")
     || bool_decide (is_Some (url_password url)) then None
  else Some (mkUrl (url_scheme url) (url_username url) (url_password url) (url_host url) (url_port_or_default url)
               (trim_slashes (url_path url) +:+ "/") None None).

(** The environment of the process; [Err] stands for the panic. *)
Definition webhook_signing_secret_from_env (value : option string) : result (option (list ascii)) string :=
  match value with
  | Some v =>
      if MIN_WEBHOOK_SIGNING_SECRET_BYTES <=? byte_len v then Ok (Some (bytes v))
      else Err "FIDUCIA_CRON_WEBHOOK_SIGNING_SECRET must contain at least 32 bytes"
  | None => Ok None
  end.

Definition from_env (env : string → option string) : result RunnerConfig string :=
  let max_in_flight := clamp (default DEFAULT_MAX_IN_FLIGHT (v ← env "FIDUCIA_CRON_MAX_IN_FLIGHT"; parse_u64 v)) 1 MAX_MAX_IN_FLIGHT in
  let base := raw ← env "FIDUCIA_LAMBDA_SERVICE_URL"; normalize_lambda_base raw in
  let auth := v ← env "FIDUCIA_LAMBDA_SERVER_AUTH_SECRET"; header_value v in
  try! secret := webhook_signing_secret_from_env (env "FIDUCIA_CRON_WEBHOOK_SIGNING_SECRET") in
  Ok (mkRunnerConfig base auth secret max_in_flight).

Definition parse_stored_url (raw : string) : result Url string :=
  try! url := ok_or (parse_url raw) "stored target URL is invalid" in
  if negb (existsb (String.eqb (url_scheme url)) ["http"; "https"]) then Err "stored target scheme is invalid" else Ok url.

(** The URL, and whether it is the function runtime. *)
Definition resolved_target (target : ScheduleTarget) (config : RunnerConfig) : result (Url * bool) string :=
  match target with
  | Webhook url | Queue url | Grpc url => try! u := parse_stored_url url in Ok (u, false)
  | Function function_id =>
      try! base := ok_or (lambda_base_url config) "function_runtime_unconfigured" in
      if bool_decide (lambda_server_auth config = None) then Err "function_runtime_auth_unconfigured"
      else try! url := ok_or (push_segments base ["invoke"; function_id]) "function_target_invalid" in Ok (url, true)
  end.

(** The addresses a client is pinned to.  [lookup_host] answers with the textual
    addresses, [None] when it fails; [buildable] says whether the client builds. *)
Definition public_target_client (lookup_host : string → Z → option (list string)) (buildable : bool) (url : Url) :
    result (string * list string) string :=
  try! host := ok_or (url_host url) "target_host_missing" in
  if cleartext_internal_host_allowed host then Err "target_host_not_allowed"
  else
    try! port := ok_or (url_port_or_default url) "target_port_missing" in
    try! addresses := ok_or (lookup_host host port) "target_dns_failed" in
    if bool_decide (addresses = []) then Err "target_dns_empty"
    else if existsb cleartext_internal_host_allowed addresses then Err "target_resolved_host_not_allowed"
    else if buildable then Ok (host, addresses) else Err "target_client_build_failed".
End config.

(** ** One delivery *)

Inductive SendError : Type := Timeout | Connect | OtherError.

Inductive HttpReply : Type :=
| Replied (status : Z) (reply_headers : HeaderMap)
| SendFailed (e : SendError).

Record DeliveryOutcome : Type := mkDeliveryOutcome {
  delivered : bool;
  attempts : Z;
  error : option string;
  error_class : option string;
  outcome_status : option Z
}.

(** What every attempt of a delivery sends, trace headers apart. *)
Record DeliveryRequest : Type := mkDeliveryRequest {
  rq_url : Url;
  rq_headers : list (string * string);
  rq_body : list ascii;
  rq_pinned : option (string * list string)
}.

Definition send_error_class (e : SendError) : string :=
  match e with Timeout => "timeout" | Connect => "connect" | OtherError => "request" end.
Definition send_error_text (e : SendError) : string :=
  match e with Timeout => "request timed out" | Connect => "connection failed" | OtherError => "request failed" end.

Section delivery.
Context `{External, HeaderLib, UrlLib, UrlSegments}.

(** The attempt loop: [remaining] attempts are left.  Also the sleeps between attempts,
    in milliseconds. *)
Fixpoint attempt_loop (fire_id_ms : Z) (reply : Z → HttpReply) (remaining : nat) (tried : Z) (last_error error_class : option string)
    (last_status : option Z) : DeliveryOutcome * list Z :=
  match remaining with
  | O => (mkDeliveryOutcome false tried last_error error_class last_status, [])
  | S remaining =>
      let tried := tried + 1 in
      let nap (delay : Z) (rest : DeliveryOutcome * list Z) : DeliveryOutcome * list Z :=
        match remaining with O => rest | S _ => (rest.1, delay :: rest.2) end in
      match reply tried with
      | Replied status hs =>
          let text := "HTTP " +:+ decimal status in
          match response_disposition status with
          | Success => (mkDeliveryOutcome true tried None None (Some status), [])
          | Permanent => (mkDeliveryOutcome false tried (Some text) (Some "http_permanent") (Some status), [])
          | Retry =>
              nap (default (retry_delay fire_id_ms tried) (retry_after_delay hs))
                (attempt_loop fire_id_ms reply remaining tried (Some text) (Some "http_transient") (Some status))
          end
      | SendFailed e =>
          nap (retry_delay fire_id_ms tried)
            (attempt_loop fire_id_ms reply remaining tried (Some (send_error_text e)) (Some (send_error_class e)) last_status)
      end
  end.

(** [u32::saturating_add] *)
Definition max_attempts (s : Schedule) : Z := Z.min (sch_max_retries s + 1) U32_MAX.

Definition not_sent (error error_class : string) : DeliveryOutcome := mkDeliveryOutcome false 0 (Some error) (Some error_class) None.

(** What [deliver] sends, or the outcome of a delivery that sends nothing;
    [to_vec] is of [serde_json]. *)
Definition delivery_request (to_vec : Value → list ascii) (lookup_host : string → Z → option (list string)) (buildable : bool)
    (config : RunnerConfig) (s : Schedule) (fire_id_ms : Z) : result DeliveryRequest DeliveryOutcome :=
  match resolved_target (sch_target s) config with
  | Err error => Err (not_sent error "configuration")
  | Ok (url, function_auth) =>
      try! org := (if function_auth
                   then match scoped_org (sch_name s) with
                        | Some org => Ok (Some org)
                        | None => Err (not_sent "function schedule is missing tenant scope" "configuration")
                        end
                   else Ok None) in
      try! pinned := (if function_auth then Ok None
                      else match public_target_client lookup_host buildable url with
                           | Ok client => Ok (Some client)
                           | Err error => Err (not_sent error "target_policy")
                           end) in
      let name := unscoped_name (sch_name s) in
      let body := to_vec (json! ["schedule" :- name; "fire_id" :- decimal fire_id_ms; "fired_at_ms" :- fire_id_ms;
                                 "target_kind" :- target_kind (sch_target s)]) in
      let signature := webhook_signature_header (sch_target s) (webhook_signing_secret config) body in
      let only {A} (o : option A) (f : A → string * string) := match o with Some x => [f x] | None => [] end in
      Ok (mkDeliveryRequest url
            ([("content-type", "application/json"); ("idempotency-key", delivery_idempotency_key name fire_id_ms);
              ("x-fiducia-schedule", name)]
             ++ only signature (pair "x-fiducia-signature-256")
             ++ (if function_auth then only (lambda_server_auth config) (pair "x-server-auth") ++ only org (pair "x-fiducia-org-id") else []))
            body pinned)
  end.

Definition deliver (to_vec : Value → list ascii) (lookup_host : string → Z → option (list string)) (buildable : bool)
    (send : DeliveryRequest → Z → HttpReply) (config : RunnerConfig) (s : Schedule) (fire_id_ms : Z) : DeliveryOutcome * list Z :=
  match delivery_request to_vec lookup_host buildable config s fire_id_ms with
  | Err outcome => (outcome, [])
  | Ok request => attempt_loop fire_id_ms (send request) (Z.to_nat (max_attempts s)) 0 None None None
  end.

(** The command that commits the outcome. *)
Definition result_command (s : Schedule) (fire_id_ms duration_ms completed_at_ms : Z) (trace_id span_id : option string) (o : DeliveryOutcome) : Command :=
  ScheduleRecordResultV2 (sch_name s) fire_id_ms (delivered o) (attempts o) (error o) (error_class o) (outcome_status o) duration_ms
    completed_at_ms trace_id span_id.
End delivery.

(** ** Delays *)

Lemma backoff_base e : 0 ≤ e ≤ 6 → 200 ≤ 200 * Z.shiftl 1 e ≤ 12800.
Proof.
  intros He. rewrite Z.shiftl_1_l. pose proof (Z.pow_le_mono_r 2 0 e ltac:(lia) ltac:(lia)).
  pose proof (Z.pow_le_mono_r 2 e 6 ltac:(lia) ltac:(lia)). change (2 ^ 0) with 1 in *. change (2 ^ 6) with 64 in *. lia.
Qed.

(** Exponential, capped, and spread by at most a quarter. *)
Lemma retry_delay_bounds fire attempt :
  let base := 200 * Z.shiftl 1 (Z.min (Z.max (attempt - 1) 0) 6) in
  base ≤ retry_delay fire attempt ≤ base + base / 4 ∧ 200 ≤ retry_delay fire attempt ≤ 16000.
Proof.
  intros base. pose proof (backoff_base (Z.min (Z.max (attempt - 1) 0) 6) ltac:(lia)) as Hb. fold base in Hb.
  unfold retry_delay. fold base. rewrite (Z.min_l base) by (unfold U64_MAX; lia).
  pose proof (Z.div_le_mono base 12800 4 ltac:(lia) ltac:(lia)). change (12800 / 4) with 3200 in *.
  assert (0 ≤ base / 4) by (apply Z.div_pos; lia).
  match goal with |- context [?x mod (base / 4 + 1)] => pose proof (Z.mod_pos_bound x (base / 4 + 1) ltac:(lia)) as Hj; set (j := x mod (base / 4 + 1)) in * end.
  clearbody j base. unfold sat_add, U64_MAX. lia.
Qed.

Lemma retry_after_bounds `{HeaderLib} hs d : retry_after_delay hs = Some d → d ≤ MAX_RETRY_AFTER_MS.
Proof.
  unfold retry_after_delay. intros E. destruct (header_str hs "retry-after") as [t|]; [|done]. simpl in E.
  destruct (parse_u64 t); simplify_eq/=. lia.
Qed.

(** ** What a delivery does *)

Definition transient (r : HttpReply) : Prop :=
  match r with Replied status _ => response_disposition status = Retry | SendFailed _ => True end.
Definition accepted (r : HttpReply) : Prop :=
  match r with Replied status _ => response_disposition status = Success | SendFailed _ => False end.

Lemma transient_not_accepted r : transient r → ¬ accepted r.
Proof. destruct r as [status hs|e]; simpl; [|by intros _ []]. by intros ->. Qed.

(** The result of the loop when [remaining] attempts are left after [tried]. *)
Definition loop_ok (reply : Z → HttpReply) (remaining : nat) (tried : Z) (res : DeliveryOutcome * list Z) : Prop :=
  tried ≤ attempts res.1 ≤ tried + Z.of_nat remaining ∧
  (remaining = O → delivered res.1 = false) ∧
  (remaining ≠ O → tried < attempts res.1 ∧ (delivered res.1 = true ↔ accepted (reply (attempts res.1)))) ∧
  (∀ n, tried < n < attempts res.1 → transient (reply n)) ∧
  (tried < attempts res.1 < tried + Z.of_nat remaining → ¬ transient (reply (attempts res.1))) ∧
  Z.of_nat (length res.2) = Z.max 0 (attempts res.1 - tried - 1) ∧
  Forall (λ d, d ≤ MAX_RETRY_AFTER_MS) res.2.

Lemma loop_ok_stop reply m tried o :
  attempts o = tried + 1 → ¬ transient (reply (tried + 1)) → (delivered o = true ↔ accepted (reply (tried + 1))) →
  loop_ok reply (S m) tried (o, []).
Proof.
  intros Ha Ht Hd. unfold loop_ok. cbn [fst snd length]. rewrite Ha. repeat split; intros; try (lia || done); tauto.
Qed.

Lemma loop_ok_nap reply m tried d res :
  transient (reply (tried + 1)) → d ≤ MAX_RETRY_AFTER_MS → loop_ok reply m (tried + 1) res →
  loop_ok reply (S m) tried (match m with O => res | S _ => (res.1, d :: res.2) end).
Proof.
  intros Ht Hd (Hb & H0 & H1 & Hn & Hs & Hl & Hf). destruct res as [o naps]. simpl in *.
  assert (Hall : ∀ n, tried < n < attempts o → transient (reply n)).
  { intros n Hr. destruct (decide (n = tried + 1)) as [->|]; [done|apply Hn; lia]. }
  destruct m as [|m]; unfold loop_ok; simpl in *.
  - assert (Ea : attempts o = tried + 1) by lia. pose proof (transient_not_accepted _ Ht). rewrite (H0 eq_refl), Ea in *.
    split_and!; intros; done || lia || (split; [lia|by split]).
  - destruct (H1 ltac:(done)) as [Hlt Hacc].
    split_and!; intros; first [done | lia | by constructor | by apply Hall | apply Hs; lia | split; [lia|done]].
Qed.

Section attempts.
Context `{HeaderLib}.

Lemma nap_bound fire attempt hs : default (retry_delay fire attempt) (retry_after_delay hs) ≤ MAX_RETRY_AFTER_MS.
Proof.
  destruct (retry_after_delay hs) as [d|] eqn:E; simpl; [by eapply retry_after_bounds|].
  destruct (retry_delay_bounds fire attempt) as [_ ?]. unfold MAX_RETRY_AFTER_MS. lia.
Qed.

Lemma attempt_loop_ok fire reply : ∀ remaining tried le ec ls,
  loop_ok reply remaining tried (attempt_loop fire reply remaining tried le ec ls).
Proof.
  induction remaining as [|m IH]; intros tried le ec ls.
  { unfold loop_ok. simpl. split_and!; (done || lia || constructor || (intros; lia)). }
  cbn [attempt_loop]. destruct (reply (tried + 1)) as [status hs|e] eqn:Er.
  - destruct (response_disposition status) eqn:Ed.
    + apply loop_ok_stop; rewrite ?Er; simpl; rewrite ?Ed; done.
    + apply loop_ok_nap; [by rewrite Er|apply nap_bound|apply IH].
    + apply loop_ok_stop; rewrite ?Er; simpl; rewrite ?Ed; done.
  - apply loop_ok_nap; [by rewrite Er| |apply IH]. destruct (retry_delay_bounds fire (tried + 1)) as [_ ?]. unfold MAX_RETRY_AFTER_MS. lia.
Qed.

(** C32: A delivery ends: it makes at least one and at most [max_retries + 1] attempts
    with the same request, goes on only after transient failures, stops at the first
    reply that is not one, and reports success exactly when the last reply was a
    success; it sleeps once between attempts and never more than thirty seconds. *)
Theorem delivery_attempts `{External, UrlLib, UrlSegments} (to_vec : Value → list ascii) (lookup_host : string → Z → option (list string))
    (buildable : bool) (send : DeliveryRequest → Z → HttpReply) (config : RunnerConfig) (s : Schedule) (fire_id_ms : Z) (request : DeliveryRequest)
    (Hreq : delivery_request to_vec lookup_host buildable config s fire_id_ms = Ok request) (Hmax : 0 ≤ sch_max_retries s < U32_MAX) :
  let '(o, naps) := deliver to_vec lookup_host buildable send config s fire_id_ms in
  1 ≤ attempts o ≤ sch_max_retries s + 1 ∧
  (∀ n, 1 ≤ n < attempts o → transient (send request n)) ∧
  (attempts o ≤ sch_max_retries s → ¬ transient (send request (attempts o))) ∧
  (delivered o = true ↔ accepted (send request (attempts o))) ∧
  Z.of_nat (length naps) = attempts o - 1 ∧ Forall (λ d, d ≤ MAX_RETRY_AFTER_MS) naps.
Proof.
  unfold deliver. rewrite Hreq. unfold max_attempts. rewrite Z.min_l by lia.
  pose proof (attempt_loop_ok fire_id_ms (send request) (Z.to_nat (sch_max_retries s + 1)) 0 None None None) as Hok.
  destruct (attempt_loop _ _ _ _ _ _ _) as [o naps]. destruct Hok as (Hb & _ & Hone & Hn & Hs & Hl & Hf). simpl in *.
  destruct (Hone ltac:(lia)) as [Hlt Hacc]. split_and!; try (done || lia).
  - intros n Hr. apply Hn. lia.
  - intros Hle. apply Hs. lia.
Qed.
End attempts.

(** ** Where a delivery may go *)

Lemma public_target_client_ok lookup_host buildable url host addresses :
  public_target_client lookup_host buildable url = Ok (host, addresses) →
  url_host url = Some host ∧ addresses ≠ [] ∧ cleartext_internal_host_allowed host = false ∧
  Forall (λ a, cleartext_internal_host_allowed a = false) addresses.
Proof.
  unfold public_target_client, ok_or, result_bind. intros E. repeat (case_match; simplify_eq/=). bools. split_and!; try done.
  apply Forall_forall. intros x Hx. destruct (cleartext_internal_host_allowed x) eqn:Ex; [|done].
  assert (existsb cleartext_internal_host_allowed addresses = true); [|congruence]. apply existsb_exists. exists x. by rewrite <- list_elem_of_In.
Qed.

Lemma parse_stored_url_ok `{UrlLib} raw u : parse_stored_url raw = Ok u → parse_url raw = Some u.
Proof. unfold parse_stored_url, ok_or, result_bind. intros E. by repeat (case_match; simplify_eq/=). Qed.

(** The runner does not reach inside: a webhook, queue or gRPC delivery is sent
    to no host the policy calls internal, and the client is pinned to addresses that
    were checked by the same policy, so a second answer of the name service cannot
    redirect it. *)
Theorem external_targets_checked `{External, HeaderLib, UrlLib, UrlSegments} (to_vec : Value → list ascii)
    (lookup_host : string → Z → option (list string)) (buildable : bool) (config : RunnerConfig) (s : Schedule) (fire_id_ms : Z)
    (request : DeliveryRequest)
    (Hreq : delivery_request to_vec lookup_host buildable config s fire_id_ms = Ok request) :
  match sch_target s with
  | Function function_id =>
      rq_pinned request = None ∧ is_Some (lambda_server_auth config) ∧ is_Some (scoped_org (sch_name s)) ∧
      ∃ base, lambda_base_url config = Some base ∧ push_segments base ["invoke"; function_id] = Some (rq_url request)
  | Webhook raw | Queue raw | Grpc raw =>
      parse_url raw = Some (rq_url request) ∧
      ∃ host addresses, url_host (rq_url request) = Some host ∧ rq_pinned request = Some (host, addresses) ∧ addresses ≠ [] ∧
        cleartext_internal_host_allowed host = false ∧ Forall (λ a, cleartext_internal_host_allowed a = false) addresses
  end.
Proof.
  unfold delivery_request, resolved_target, result_bind in Hreq. destruct (sch_target s) as [raw|raw|raw|function_id].
  1-3: destruct (parse_stored_url raw) as [u|] eqn:Eu; [|done]; apply parse_stored_url_ok in Eu; simpl in Hreq;
    destruct (public_target_client lookup_host buildable u) as [[host addresses]|] eqn:Ec; [|done];
    apply public_target_client_ok in Ec; simplify_eq/=; split; [done|]; exists host, addresses; tauto.
  unfold ok_or in Hreq. destruct (lambda_base_url config) as [base|]; [|done]. destruct (bool_decide (lambda_server_auth config = None)) eqn:Ea; [done|].
  apply bool_decide_eq_false, not_eq_None_Some in Ea. destruct (push_segments base _) as [u|] eqn:Ep; [|done].
  simpl in Hreq. destruct (scoped_org (sch_name s)) as [org|]; [|done]. simplify_eq/=. split_and!; eauto.
Qed.
