(* ===== verification/FiringLoop.v ===== *)
(** The sweeps of src/schedule_runner.rs and the deliveries beside them: a machine
    whose steps interleave one sweep with the tasks it has spawned.  A ledger
    records what the node has answered: the fires whose claim was committed and the
    pending runs that were read. *)

From S2P Require Import Prelude Json Text Cron Cancellation Schedules Command StateMachine Snapshot ShardActor Reads Http NodeRouter Net KvCrypto Handler KvApi ScheduleApi ScheduleRunner.

(** ** The tasks of a node *)

Record Delivery : Type := mkDelivery {
  dv_schedule : Schedule;
  dv_fire : Z;
  dv_trigger : RunTrigger
}.

(** [format!("{}#{fire_id_ms}", schedule.name)] *)
Definition fire_key (name : string) (fire_id_ms : Z) : string := name +:+ "#" +:+ decimal fire_id_ms.
Definition delivery_key (d : Delivery) : string := fire_key (sch_name (dv_schedule d)) (dv_fire d).

(** The set of active keys, the free permits of the gate, the tasks that run, and
    the tasks that have removed their key and still hold their permit. *)
Record Runner : Type := mkRunner {
  active : gset string;
  permits : nat;
  running : list Delivery;
  exiting : nat
}.

Definition deliver_in_background (d : Delivery) (r : Runner) : Runner * bool :=
  let key := delivery_key d in
  if bool_decide (key ∈ active r) then (r, false)
  else
    let active := {[key]} ∪ active r in
    match permits r with
    | O => (mkRunner (active ∖ {[key]}) O (running r) (exiting r), false)
    | S free => (mkRunner active free (d :: running r) (exiting r), true)
    end.

(** The end of [execute_delivery_task]: the key goes, then the permit. *)
Definition task_finishes (before : list Delivery) (d : Delivery) (after : list Delivery) (r : Runner) : Runner :=
  mkRunner (active r ∖ {[delivery_key d]}) (permits r) (before ++ after) (S (exiting r)).
Definition permit_drops (r : Runner) : Runner := mkRunner (active r) (S (permits r)) (running r) (pred (exiting r)).

(** ** A sweep *)

(** What a sweep asks, in order: the shards this node leads and the time, the
    schedules, a claim, a history; and the deliveries it starts. *)
Inductive Sweep : Type :=
| Swept
| ReadLeading (k : list Z → Z → Sweep)
| ReadSchedules (k : list Schedule → Sweep)
| Claiming (c : Command) (k : result ProposeOutcome ProposeError → Sweep)
| ReadingHistory (q : ReadRequest) (k : result ReadResponse ProposeError → Sweep)
| Starting (d : Delivery) (k : bool → Sweep).

(** [outcome.output.get("claimed").and_then(as_bool) == Some(true)] *)
Definition claim_won (r : result ProposeOutcome ProposeError) : bool :=
  match r with
  | Ok outcome => flag "claimed" (o_output outcome)
  | Err _ => false
  end.

(** A fire of a schedule. *)
Abbreviation fire_id := (string * Z)%type.

Section sweep.
Context (shard_for : string → Z).

(** The [while] of [claim_due]; [budget] claims may still be made. *)
Fixpoint claim_loop (budget : nat) (s : Schedule) (cron : option CronSchedule) (now : Z) (next : option Z) (rest : Sweep) : Sweep :=
  match budget, next with
  | S budget, Some fire =>
      if now <? fire then rest
      else
        Claiming (ScheduleClaimFire (sch_name s) fire) (λ r,
          if claim_won r then
            Starting (mkDelivery s fire Scheduled) (λ started,
              if started
              then claim_loop budget s cron now (match sch_one_shot s with Some _ => None | None => c ← cron; next_after c fire end) rest
              else rest)
          else rest)
  | _, _ => rest
  end.

Definition claim_due (s : Schedule) (now : Z) (rest : Sweep) : Sweep :=
  let cron := expr ← sch_cron s; match Cron.parse expr with Ok c => Some c | Err _ => None end in
  claim_loop MAX_CLAIMS_PER_TICK s cron now (sch_next_fire s) rest.

(** The [for] over the pending runs. *)
Fixpoint start_pending (s : Schedule) (runs : list ScheduleRun) (rest : Sweep) : Sweep :=
  match runs with
  | [] => rest
  | run :: runs =>
      if bool_decide (run_status run = RunPending) then
        match parse_u64 (run_fire_id run) with
        | None => start_pending s runs rest
        | Some fire => Starting (mkDelivery s fire (run_trigger run)) (λ started, if started then start_pending s runs rest else rest)
        end
      else start_pending s runs rest
  end.

Definition redeliver_pending (s : Schedule) (rest : Sweep) : Sweep :=
  ReadingHistory (ReadScheduleHistory (sch_name s)) (λ r,
    match r with Ok (GotScheduleHistory history) => start_pending s history rest | _ => rest end).

Fixpoint sweep_schedules (leading : list Z) (now : Z) (l : list Schedule) : Sweep :=
  match l with
  | [] => Swept
  | s :: l =>
      let rest := sweep_schedules leading now l in
      if bool_decide (shard_for (sch_name s) ∈ leading)
      then redeliver_pending s (if sch_enabled s then claim_due s now rest else rest)
      else rest
  end.

Definition sweep : Sweep :=
  ReadLeading (λ leading now, if bool_decide (leading = []) then Swept else ReadSchedules (sweep_schedules leading now)).

(** ** The machine *)

Definition fire_of (d : Delivery) : fire_id := (sch_name (dv_schedule d), dv_fire d).

(** What an answer adds to the ledger. *)
Definition claimed_by (c : Command) (r : result ProposeOutcome ProposeError) : list fire_id :=
  match c with ScheduleClaimFire name fire => if claim_won r then [(name, fire)] else [] | _ => [] end.
Definition pending_in (q : ReadRequest) (r : result ReadResponse ProposeError) : list fire_id :=
  match q, r with
  | ReadScheduleHistory name, Ok (GotScheduleHistory history) =>
      omap (λ run, if bool_decide (run_status run = RunPending) then (name,.) <$> parse_u64 (run_fire_id run) else None) history
  | _, _ => []
  end.

Record Machine : Type := mkMachine {
  m_sweep : Sweep;
  m_runner : Runner;
  m_ledger : list fire_id
}.

Inductive step : Machine → Machine → Prop :=
| StepTick r g : step (mkMachine Swept r g) (mkMachine sweep r g)
| StepLeading k r g leading now : step (mkMachine (ReadLeading k) r g) (mkMachine (k leading now) r g)
| StepSchedules k r g l : step (mkMachine (ReadSchedules k) r g) (mkMachine (k l) r g)
| StepClaim c k r g a : step (mkMachine (Claiming c k) r g) (mkMachine (k a) r (claimed_by c a ++ g))
| StepHistory q k r g a : step (mkMachine (ReadingHistory q k) r g) (mkMachine (k a) r (pending_in q a ++ g))
| StepStart d k r g :
    step (mkMachine (Starting d k) r g) (mkMachine (k (deliver_in_background d r).2) (deliver_in_background d r).1 g)
| StepFinish p r g before d after :
    running r = before ++ d :: after → step (mkMachine p r g) (mkMachine p (task_finishes before d after r) g)
| StepDrop p r g : exiting r ≠ O → step (mkMachine p r g) (mkMachine p (permit_drops r) g).

Definition start (max_in_flight : nat) : Machine := mkMachine Swept (mkRunner ∅ max_in_flight [] O) [].
End sweep.

(** ** No delivery without a licence *)

(** Every start of the program is of a fire in the ledger by then. *)
Fixpoint licensed (g : list fire_id) (p : Sweep) : Prop :=
  match p with
  | Swept => True
  | ReadLeading k => ∀ leading now, licensed g (k leading now)
  | ReadSchedules k => ∀ l, licensed g (k l)
  | Claiming c k => ∀ a, licensed (claimed_by c a ++ g) (k a)
  | ReadingHistory q k => ∀ a, licensed (pending_in q a ++ g) (k a)
  | Starting d k => fire_of d ∈ g ∧ ∀ started, licensed g (k started)
  end.

Lemma licensed_mono p : ∀ g g', g ⊆ g' → licensed g p → licensed g' p.
Proof.
  induction p as [|k IH|k IH|c k IH|q k IH|d k IH]; simpl; intros g g' Hg Hp; eauto.
  - intros a. eapply IH; [|apply Hp]. set_solver.
  - intros a. eapply IH; [|apply Hp]. set_solver.
  - destruct Hp as [Hd Hp]. split; [by apply Hg|]. eauto.
Qed.

Lemma claim_loop_licensed s cron now rest : (∀ g, licensed g rest) → ∀ budget next g, licensed g (claim_loop budget s cron now next rest).
Proof.
  intros Hrest. induction budget as [|budget IH]; intros [fire|] g; simpl; try apply Hrest. case_match; [apply Hrest|]. simpl. intros a.
  destruct (claim_won a); [|apply Hrest]. simpl. split; [by left|]. intros []; [apply IH|apply Hrest].
Qed.

Lemma start_pending_licensed s rest runs g :
  (∀ g, licensed g rest) → pending_in (ReadScheduleHistory (sch_name s)) (Ok (GotScheduleHistory runs)) ⊆ g → licensed g (start_pending s runs rest).
Proof.
  intros Hrest. induction runs as [|run runs IH]; intros Hg; [apply Hrest|]. simpl in *.
  destruct (bool_decide (run_status run = RunPending)); [|by apply IH]. destruct (parse_u64 (run_fire_id run)) as [fire|]; [|by apply IH].
  simpl in *. split; [apply Hg; by left|]. intros []; [|apply Hrest]. apply IH. intros x Hx. apply Hg. by right.
Qed.

Section machine.
Context (shard_for : string → Z) (max_in_flight : nat).

Lemma sweep_licensed g : licensed g (sweep shard_for).
Proof.
  simpl. intros leading now. case_match; [done|]. simpl. intros l. revert g. induction l as [|s l IH]; intros g; [done|].
  simpl. case_match; [|apply IH]. simpl. intros a.
  assert (Hrest : ∀ g, licensed g (if sch_enabled s then claim_due s now (sweep_schedules shard_for leading now l) else sweep_schedules shard_for leading now l)).
  { intros g'. destruct (sch_enabled s); [|apply IH]. by apply claim_loop_licensed. }
  destruct a as [[]|]; try apply Hrest. apply start_pending_licensed; [done|]. simpl. set_solver.
Qed.

(** ** The invariant of the machine *)

Record runner_inv (m : Machine) : Prop := {
  inv_keys : NoDup (delivery_key <$> running (m_runner m));
  inv_active : active (m_runner m) = list_to_set (delivery_key <$> running (m_runner m));
  inv_permits : (permits (m_runner m) + length (running (m_runner m)) + exiting (m_runner m) = max_in_flight)%nat;
  inv_ledger : Forall (λ d, fire_of d ∈ m_ledger m) (running (m_runner m));
  inv_licensed : licensed (m_ledger m) (m_sweep m)
}.

Lemma runner_inv_start : runner_inv (start max_in_flight).
Proof. constructor; simpl; (done || constructor || lia). Qed.

Lemma inv_more m g p : runner_inv m → licensed (g ++ m_ledger m) p → runner_inv (mkMachine p (m_runner m) (g ++ m_ledger m)).
Proof.
  intros [] Hp. constructor; simpl; try done. eapply Forall_impl; [done|]. simpl. intros d Hd. apply elem_of_app. by right.
Qed.

Lemma inv_started d k r g :
  runner_inv (mkMachine (Starting d k) r g) →
  runner_inv (mkMachine (k (deliver_in_background d r).2) (deliver_in_background d r).1 g).
Proof.
  intros [Hk Ha Hp Hg [Hd Hl]]. simpl in *. unfold deliver_in_background. case_bool_decide as Hin; [constructor; simpl; eauto|].
  destruct (permits r) as [|free] eqn:Ep; simpl.
  - constructor; simpl; try (done || lia); eauto. rewrite <- Ha. set_solver.
  - constructor; simpl; try (lia || set_solver || (by constructor)); eauto. constructor; [|done]. by rewrite Ha, elem_of_list_to_set in Hin.
Qed.

Lemma inv_finished p r g before d after :
  running r = before ++ d :: after → runner_inv (mkMachine p r g) → runner_inv (mkMachine p (task_finishes before d after r) g).
Proof.
  intros Hr [Hk Ha Hp Hg Hl]. simpl in *. rewrite Hr in *. rewrite fmap_app, fmap_cons in Hk. apply NoDup_middle in Hk as [Hn Hk].
  rewrite <- fmap_app in Hn, Hk. constructor; simpl; [done| | | |done].
  - rewrite Ha. rewrite !fmap_app, fmap_cons in *. set_solver.
  - rewrite length_app in *. simpl in *. lia.
  - apply Forall_app in Hg as [Hb [_ Hc]%Forall_cons]. by apply Forall_app.
Qed.

Lemma runner_inv_step m m' : step shard_for m m' → runner_inv m → runner_inv m'.
Proof.
  intros Hs Hi. pose proof (inv_licensed _ Hi) as Hl. destruct Hs as [r g|k r g leading now|k r g l|c k r g a|q k r g a|d k r g|p r g before d after Hr|p r g Hx]; simpl in *.
  - apply (inv_more _ [] (sweep shard_for) Hi), sweep_licensed.
  - apply (inv_more _ [] _ Hi), Hl.
  - apply (inv_more _ [] _ Hi), Hl.
  - apply (inv_more _ (claimed_by c a) _ Hi), Hl.
  - apply (inv_more _ (pending_in q a) _ Hi), Hl.
  - by apply inv_started.
  - by apply inv_finished.
  - destruct Hi as [Hk Ha Hp Hg _]. simpl in *. constructor; simpl; try done. lia.
Qed.

(** C14: Concurrent deliveries are safe: whatever the interleaving of sweeps and tasks,
    and whatever the node answers, no fire is delivered twice at the same time, at
    most [max_in_flight] deliveries run, and each of them is of a fire whose claim
    this node saw committed or whose pending run it read from the log. *)
Theorem deliveries_safe (m : Machine) (Hreach : rtc (step shard_for) (start max_in_flight) m) :
  NoDup (fire_of <$> running (m_runner m)) ∧ (length (running (m_runner m)) ≤ max_in_flight)%nat ∧
  (∀ d, d ∈ running (m_runner m) → fire_of d ∈ m_ledger m) ∧
  (∀ key, key ∈ active (m_runner m) ↔ ∃ d, d ∈ running (m_runner m) ∧ key = delivery_key d).
Proof.
  assert (Hi : runner_inv m).
  { clear -Hreach. assert (Hs := runner_inv_start). revert Hs. induction Hreach; eauto using runner_inv_step. }
  destruct Hi as [Hk Ha Hp Hg _]. split_and!; [|lia|by apply Forall_forall|].
  - apply (NoDup_fmap_1 (λ f : fire_id, fire_key f.1 f.2)). by rewrite <- list_fmap_compose.
  - intros key. rewrite Ha, elem_of_list_to_set, list_elem_of_fmap. naive_solver.
Qed.
End machine.

(** ** Interrupted deliveries are picked up *)

(** The starts a sweep makes before it asks the node again. *)
Fixpoint run_starts (p : Sweep) (r : Runner) : Sweep * Runner :=
  match p with
  | Starting d k => let '(r, started) := deliver_in_background d r in run_starts (k started) r
  | p => (p, r)
  end.

Definition pending_fires (history : list ScheduleRun) : list Z :=
  omap (λ run, if bool_decide (run_status run = RunPending) then parse_u64 (run_fire_id run) else None) history.

Lemma pending_fires_cons run history :
  pending_fires (run :: history) =
    match (if bool_decide (run_status run = RunPending) then parse_u64 (run_fire_id run) else None) with
    | Some f => f :: pending_fires history
    | None => pending_fires history
    end.
Proof. done. Qed.

Lemma fire_key_inj name f f' : fire_key name f = fire_key name f' → f = f'.
Proof.
  unfold fire_key. intros E. apply decimal_inj. induction name as [|c name IH].
  - by injection E.
  - change (String c name +:+ "#" +:+ decimal f) with (String c (name +:+ "#" +:+ decimal f)) in E.
    change (String c name +:+ "#" +:+ decimal f') with (String c (name +:+ "#" +:+ decimal f')) in E. injection E as E. by apply IH.
Qed.

