(* ===== verification/ApiExample.v ===== *)
(** The theorems on the API and on the schedule runner at concrete inputs, with
    small stand-ins for the code of other crates. *)

From Stdlib Require Import Ascii.
From S2P Require Import Prelude Json Text Cancellation Registers Services Schedules Command StateMachine Views RaftTypes RaftConfig Persist ShardActor RaftMachine Reads Sharding Http NodeRouter NodeExample Net KvCrypto Handler PrimitiveApi KvApi ScheduleApi DiscoveryApi Watches InternalAuth PeerApi ObserveApi Tenancy ScheduleRunner FiringLoop RaftExample Validate OrgScope.

(** ** Stand-ins *)

(** Headers that are text already; a URL parser that knows one URL. *)
#[export] Instance text_headers : HeaderLib := {| header_value := Some; header_text := Some |}.
Definition hook_url : Url := mkUrl "https" "" None (Some "hooks.example.com") (Some 443) "/cron" None None.
#[export] Instance one_url : UrlLib := {| parse_url s := if String.eqb s "https://hooks.example.com/cron" then Some hook_url else None |}.
#[export] Instance no_segments : UrlSegments := {| push_segments _ _ := None |}.

(** Two letters for a byte. *)
Definition letter (n : N) : ascii := ascii_of_N (97 + n).
Definition unletter (c : ascii) : N := N_of_ascii c - 97.
Fixpoint letters (s : string) : string :=
  match s with
  | EmptyString => EmptyString
  | String c s => String (letter (N.shiftr (N_of_ascii c) 4)) (String (letter (N.land (N_of_ascii c) 15)) (letters s))
  end.
Fixpoint unletters (s : string) : option string :=
  match s with
  | EmptyString => Some EmptyString
  | String a (String b s) => String (ascii_of_N (16 * unletter a + unletter b)) <$> unletters s
  | _ => None
  end.

(** A cipher that only appends a tag. *)
Definition tag16 : string := "0123456789abcdef".
#[export] Instance toy_crypto : Crypto := {|
  aes_encrypt _ _ _ msg := Some (msg +:+ tag16);
  aes_decrypt _ _ _ c := Some (String.substring 0 (String.length c - 16) c);
  b64_encode := letters; b64_decode := unletters;
  b64url_encode := letters; b64url_decode := unletters;
  key_map_of_json _ := None;
  value_of_json text := Some (JObj [("data", JObj [("plaintext", JStr text); ("ciphertext", JStr text)])])
|}.

Lemma unletters_letters s : unletters (letters s) = Some s.
Proof.
  induction s as [|c s IH]; [done|]. cbn [letters unletters]. rewrite IH. simpl. do 2 f_equal.
  destruct c as [[] [] [] [] [] [] [] []]; reflexivity.
Qed.

Lemma letters_plain s : Net.has_char ":"%char (letters s) = false.
Proof.
  induction s as [|c s IH]; [done|]. unfold Net.has_char in *. cbn [letters String.list_ascii_of_string existsb].
  rewrite IH. destruct c as [[] [] [] [] [] [] [] []]; reflexivity.
Qed.

#[export] Instance toy_crypto_laws : CryptoLaws.
Proof.
  constructor; simpl.
  - intros key nonce aad msg c [= <-]. f_equal. rewrite length_append. simpl.
    destruct (substring_app (String.length msg) 16 msg tag16 eq_refl eq_refl) as [E _].
    by replace (String.length msg + 16 - 16)%nat with (String.length msg) by lia.
  - intros key nonce aad msg c [= <-]. by rewrite length_append.
  - apply unletters_letters.
  - apply unletters_letters.
  - apply letters_plain.
Qed.

#[export] Instance demo_scoping : Scoping := plain_scoping.
#[export] Instance demo_scoping_laws : ScopingLaws := plain_scoping_laws.

(** ** Protection at rest *)

Definition ring_2025 : LocalKeyring := mkKeyring "k2025" {["k2025" := "old"]}.
Definition ring_2026 : LocalKeyring := mkKeyring "k2026" {["k2025" := "old"; "k2026" := "new"]}.

(** A Vault that prefixes its ciphertexts with the version of its key. *)
Definition demo_vault : VaultTransit := mkVault (mkUrl "https" "" None (Some "vault.internal") None "" None None) "transit" "kv" "s.token" None.
Definition vault_says (text : string) : option VaultReply := Some (mkVaultReply 200 None [text] false).
Definition demo_send (version : string) (q : VaultRequest) : option VaultReply :=
  match field "plaintext" (vq_body q), field "ciphertext" (vq_body q) with
  | Some (JStr p), _ => vault_says ("vault:v" +:+ version +:+ ":" +:+ p)
  | _, Some (JStr c) => vault_says (String.substring 9 (String.length c - 9) c)
  | _, _ => None
  end.

Lemma sealed_values_open_witness :
  (∃ stored, seal (λ _, None) (Local ring_2025) "123456789012" "db/url" "postgres" = Ok stored ∧
   ∃ p, unseal (λ _, None) (Local ring_2026) "db/url" stored = Ok (mkUnsealed "postgres" p) ∧ opened_by (Local ring_2025) (Local ring_2026) p) ∧
  (∃ stored, seal (demo_send "1") (Vault demo_vault) "123456789012" "db/url" "postgres" = Ok stored ∧
   ∃ p, unseal (demo_send "2") (Vault demo_vault) "db/url" stored = Ok (mkUnsealed "postgres" p) ∧ opened_by (Vault demo_vault) (Vault demo_vault) p).
Proof.
  split; (eexists; split; [vm_compute; reflexivity|]).
  - refine (proj1 (proj2 (sealed_values_open (λ _, None) (λ _, None) (Local ring_2025) (Local ring_2026) "123456789012" "db/url" "postgres" _ _ _ _)) _);
      [vm_compute; reflexivity..|]. split; vm_compute; reflexivity.
  - refine (proj1 (proj2 (sealed_values_open (demo_send "1") (demo_send "2") (Vault demo_vault) (Vault demo_vault) "123456789012" "db/url" "postgres" _ _ _ _)) _);
      [vm_compute; reflexivity..|].
    intros body ciphertext Eb Ec. vm_compute in Eb. injection Eb as <-. vm_compute in Ec. injection Ec as <-.
    split; [vm_compute; reflexivity|]. eexists. split; vm_compute; reflexivity.
Defined.

Lemma plaintext_only_by_admin_witness :
  is_secret_keyspace "flags/a" = false ∧
  ∃ k, put_key (λ _, None) (Some (Local ring_2025)) "acme" [("x-fiducia-scopes", "kv:write admin:write")] "123456789012"
    (mkKvParams (Some "flags/a") None) (mkPutBody "on" None None true) = Proposing (KvPut (scope "acme" "flags/a") "on" None None) k.
Proof.
  assert (E : ∃ k, put_key (λ _, None) (Some (Local ring_2025)) "acme" [("x-fiducia-scopes", "kv:write admin:write")] "123456789012"
    (mkKvParams (Some "flags/a") None) (mkPutBody "on" None None true) = Proposing (KvPut (scope "acme" "flags/a") "on" None None) k)
    by (eexists; reflexivity).
  split; [|exact E]. destruct E as [k E].
  destruct (plaintext_only_by_admin _ _ _ _ _ _ _ _ _ _ _ _ _ E) as [_ [Hf|(_ & _ & Hs & _)]]; [discriminate Hf|exact Hs].
Defined.

(** ** Probes *)

Definition demo_probes : list (Z * option ShardStatus) := (λ s : Z * option ShardActor, (s.1, status <$> s.2)) <$> shards demo_node.

Lemma ready_means_serving_witness : ∀ s r, (s, r) ∈ demo_probes → ∃ row, r = Some row ∧ st_storage_healthy row = true.
Proof.
  refine (proj2 (proj2 (ready_means_serving default_timing demo_probes demo_node _))). vm_compute. reflexivity.
Defined.

(** ** Tenants *)

(** Organisation "a" holds a lock; "b" names the same holder and token to release it. *)
Definition held_log : list (Command * Z) := [(LockAcquireV2 [scope "a" "k"] (scope "a" "h") 50 false None, 10)].

Lemma tenants_do_not_interfere_witness :
  let st := (apply_at (apply_log inhabitant held_log) (LockRelease (scope "b" "h") 1) 20).1 in
  same_answer (read_local st 30 (ReadLock (scope "a" "k")))
    (GotLock (mkLockState (scope "a" "k") (Some (scope "a" "h")) (Some 1) (Some 60) [scope "a" "k"] [])).
Proof.
  trans (read_local (expire_due (apply_log inhabitant held_log) 20) 30 (ReadLock (scope "a" "k"))); [|vm_compute; reflexivity].
  eapply (tenants_do_not_interfere (λ _, None) None [] [] "a" "b" (LockReleaseCall "h" 1) (GetLockCall "k")
    (LockRelease (scope "b" "h") 1) (ReadLock (scope "a" "k"))).
  - vm_compute. reflexivity.
  - vm_compute. reflexivity.
  - discriminate.
  - apply rtc_refl.
  - apply rtc_refl.
  - reflexivity.
  - lia.
  - intros c t Hin _. apply list_elem_of_singleton in Hin. injection Hin as -> ->. exists "a". split; [vm_compute; reflexivity|].
    split; [|by exists "h"]. apply Forall_singleton. by exists "k".
Defined.

(** ** Schedules *)

Definition job (name : string) : Schedule :=
  mkSchedule (scope "acme" name) (Some "0 * * * *") None (Webhook "https://hooks.example.com/cron") AtLeastOnce 2 true (Some 3600000).

Lemma paging_exhaustive_witness :
  sch_name <$> follow 4 "acme" 1 [job "b"; job "c"; job "a"] None = ["a"; "b"; "c"].
Proof.
  rewrite (paging_exhaustive "acme" 1 [job "b"; job "c"; job "a"] 4); [vm_compute; reflexivity|apply (bool_decide_unpack _); vm_compute; exact I|lia|simpl; lia].
Defined.

Lemma watch_shows_last_read_witness :
  shows "api" [mkInstance "i1" "10.0.0.1" 100 ∅]
    (last (run_watch "acme" "api" [] [mkTurn (BusLagged 3) (Ok [mkInstance "i1" "10.0.0.1" 100 ∅])])).
Proof.
  apply (watch_shows_last_read "acme" "api" [] [mkTurn (BusLagged 3) (Ok [mkInstance "i1" "10.0.0.1" 100 ∅])]).
  constructor; [reflexivity|constructor].
Defined.

(** A put of one organisation on the demo node: the watch of the key shows it, and so does a watch of its prefix. *)
Lemma watches_miss_nothing_witness :
  is_Some (sender demo_node (shard_for demo_node (scope "acme" "db/url"))) ∧
  let c := mkChange "kv" "put" (scope "acme" "db/url") 1 None in
  let shown := Data "put" (change_value c "db/url") in
  sees (kv_watch_request demo_node "acme" (mkKvParams (Some "db/url") None)) (shard_for demo_node (scope "acme" "db/url")) c shown ∧
  sees (kv_watch_request demo_node "acme" (mkKvParams None (Some "db/"))) (shard_for demo_node (scope "acme" "db/url")) c shown.
Proof.
  assert (Hosted : is_Some (sender demo_node (shard_for demo_node (scope "acme" "db/url")))) .
  { apply not_eq_None_Some. intros E. apply (f_equal (λ o, match o with Some _ => true | None => false end)) in E. vm_compute in E. discriminate E. }
  split; [exact Hosted|].
  destruct (watches_miss_nothing demo_env demo_node inhabitant (KvPut (scope "acme" "db/url") "v" None None) 12 "acme" "db/url" Hosted)
    as [(c & Hc & Hkey & Hprefix) _]; [vm_compute; discriminate|].
  vm_compute in Hc. injection Hc as <-. split; [exact Hkey|]. apply (Hprefix "db/"). vm_compute. reflexivity.
Defined.

(** ** The runner *)

Definition no_lambda : RunnerConfig := mkRunnerConfig None None None 64.
Definition one_address (host : string) (port : Z) : option (list string) := Some ["93.184.216.34"].
(** Busy twice, then fine. *)
Definition flaky (_ : DeliveryRequest) (attempt : Z) : HttpReply := Replied (if attempt <? 3 then 503 else 204) [].
Definition hook_request : DeliveryRequest :=
  mkDeliveryRequest hook_url
    [("content-type", "application/json"); ("idempotency-key", "fiducia-schedule:nightly:3600000"); ("x-fiducia-schedule", "nightly")] []
    (Some ("hooks.example.com", ["93.184.216.34"])).

Lemma hook_request_ok : delivery_request (λ _, []) one_address true no_lambda (job "nightly") 3600000 = Ok hook_request.
Proof. vm_compute. reflexivity. Qed.

Lemma delivery_attempts_witness :
  let o := (deliver (λ _, []) one_address true flaky no_lambda (job "nightly") 3600000).1 in
  attempts o = 3 ∧ delivered o = true ∧ 1 ≤ attempts o ≤ 3.
Proof.
  pose proof (delivery_attempts (λ _, []) one_address true flaky no_lambda (job "nightly") 3600000 hook_request hook_request_ok) as Hok.
  split; [vm_compute; reflexivity|]. split; [vm_compute; reflexivity|]. specialize (Hok ltac:(vm_compute; split; congruence)).
  destruct (deliver (λ _, []) one_address true flaky no_lambda (job "nightly") 3600000) as [o naps]. exact (proj1 Hok).
Defined.

Lemma external_targets_checked_witness : ∃ host addresses,
  rq_pinned hook_request = Some (host, addresses) ∧ cleartext_internal_host_allowed host = false.
Proof.
  pose proof (external_targets_checked (λ _, []) one_address true no_lambda (job "nightly") 3600000 hook_request hook_request_ok) as Hok.
  cbn [job sch_target] in Hok. destruct Hok as (_ & host & addresses & _ & Hp & _ & Hh & _). exists host, addresses. split; [exact Hp|exact Hh].
Defined.

Definition won : result ProposeOutcome ProposeError := Ok (mkOutcome 0 1 1 (json! ["claimed" :- true])).

(** A sweep that claims a due fire and starts its delivery. *)
Lemma deliveries_safe_witness : ∃ m,
  rtc (step (λ _, 0)) (start 2) m ∧ fire_of <$> running (m_runner m) = [(scope "acme" "nightly", 3600000)] ∧
  (length (running (m_runner m)) ≤ 2)%nat.
Proof.
  assert (Hrun : ∃ m, rtc (step (λ _, 0)) (start 2) m ∧ fire_of <$> running (m_runner m) = [(scope "acme" "nightly", 3600000)]).
  { eexists. split.
    - eapply rtc_l; [apply StepTick|]. eapply rtc_l; [apply (StepLeading _ _ _ _ [0] 3600001)|].
      eapply rtc_l; [apply (StepSchedules _ _ _ _ [job "nightly"])|]. eapply rtc_l; [apply (StepHistory _ _ _ _ _ (Ok (GotScheduleHistory [])))|].
      eapply rtc_l; [apply (StepClaim _ _ _ _ _ won)|]. eapply rtc_l; [apply StepStart|]. apply rtc_refl.
    - vm_compute. reflexivity. }
  destruct Hrun as (m & Hreach & Hfires). exists m. split; [exact Hreach|]. split; [exact Hfires|].
  exact (proj1 (proj2 (deliveries_safe (λ _, 0) 2 m Hreach))).
Defined.

Definition interrupted : ScheduleRun :=
  mkRun "3600000" 3600000 0 false (Webhook "https://hooks.example.com/cron") RunPending None Scheduled None None None None None None.


(** ** Peers *)

Definition ballot : RequestVoteReq := mkVoteReq 2 "b" 0 0 false.

#[export] Instance VoteReq_eq_dec : EqDecision RequestVoteReq.
Proof. solve_decision. Defined.
#[export] Instance VoteResp_eq_dec : EqDecision RequestVoteResp.
Proof. solve_decision. Defined.

(** A codec that knows one request and its grant. *)
#[export] Instance one_ballot : PeerJson := {|
  write_call call := match call with CallVote req => if bool_decide (req = ballot) then Some "ballot" else None | _ => None end;
  read_call route text := match route with VoteRoute => if String.eqb text "ballot" then Some (CallVote ballot) else None | _ => None end;
  write_reply reply := match reply with ReplyVote r => if bool_decide (r = mkVoteResp 2 true) then Some "granted" else None | _ => None end;
  read_reply route text := match route with VoteRoute => if String.eqb text "granted" then Some (ReplyVote (mkVoteResp 2 true)) else None | _ => None end;
  body_rejection _ _ := 422;
  write_value _ := ""
|}.
#[export] Instance one_ballot_laws : PeerJsonLaws.
Proof.
  constructor.
  - intros [req|req|req] text; try done. simpl. case_bool_decide; [|done]. by intros [= <-]; subst.
  - intros [] text call; try done. simpl. case_match; [|done]. by intros [= <-].
  - intros [] [|r|r|r] text Hr; try done. simpl. case_bool_decide; [|done]. intros [= <-]. by subst.
  - simpl. lia.
Qed.
#[export] Instance text_header_laws : HeaderLaws.
Proof. constructor. simpl. intros s v E. congruence. Qed.

Definition shared_secret : Environment := λ name, if String.eqb name "FIDUCIA_INTERNAL_SECRET" then Some "s3cret" else None.
Definition other_secret : Environment := λ name, if String.eqb name "FIDUCIA_INTERNAL_SECRET" then Some "guess" else None.

